(* ===== verification/_CoqProject ===== *)
-Q . S2P
Prelude.v
CxxString.v
RespValue.v
RespValueQueue.v
Serialise.v
MapInterface.v
Objects.v
LinkedListHashmap.v
LinearProbingHashmap.v
MapObjects.v
Store.v
StoreJson.v
Handlers.v
CommandSpec.v
CommandTypes.v
SpscQueue.v
BlockingQueue.v
EventFd.v
IoThread.v
Server.v
EndToEnd.v
AsyncServer.v
Threads.v
Progress.v
Shutdown.v
Snapshotter.v
Startup.v
FileSystem.v
SnapshotChildren.v
Client.v
Terminal.v
V1RespValue.v
V1Client.v
V1Requests.v
V1Logger.v
Clock.v
V1PubSub.v
V1Handlers.v
V1LinkedListHashmap.v
V1LinearProbingHashmap.v
V1StripedHashmap.v
V1References.v
V1CoarseMap.v
V1Executor.v
V1Server.v
V1Start.v
Conformance.v
