(* ===== verification/Prelude.v ===== *)
(** * my-redis: a verification library

    my-redis is a server for a subset of the Redis protocol, in two versions.
    [v2] is the current one: a main thread owns the store and executes
    commands; IO threads own the connections, parse requests and write
    replies; single-producer single-consumer queues carry messages between
    them; a forked child writes snapshots.  [v1] is an earlier server with a
    pool of workers, a striped hash map and publish/subscribe.  This library
    models both and proves what makes them correct, from the bytes on a socket
    to the replies a client decodes.

    ** The parts, and the files that model them

    - Prelude (this file): byte strings, the outcomes of C++ code ([res]:
      return, throw, undefined behaviour), machine integers, tactics and hints.
    - CxxString: the [std::string] operations the sources use ([find],
      [substr], [stoll], [to_string], [from_chars]).
    - RespValue: [v2/src/resp_value/resp_value.cc], [resp_values.cc].  The
      variant type, the positional parser with its exceptions, the serializer
      and the display printer.
    - RespValueQueue: [resp_value_queue.cc].  The incremental parser of one
      connection; [parses] and [malformed] say what a byte stream contains.
    - Serialise: [v2/src/store/serialise.cc], JSON literals.
    - MapInterface: [v2/src/store/map/map.h], [standard_map.h].  [MapOps] is the
      abstract class [Map], [MapSpec] its contract; clients are proved against
      the contract, implementations discharge it.
    - LinkedListHashmap, LinearProbingHashmap: the two hash maps of
      [v2/src/store/map/].  Objects: what it means for a map class that its
      objects can be copied and moved, as an interface; MapObjects: the
      special members of the three classes of [v2/src/store/map/].
    - Store: [v2/src/store/store.cc]; [Abstract] is the specification, a finite
      map of values with optional deadlines.  StoreJson: its JSON form.
    - Handlers: [v2/src/server/handler/], a Module per handler and the
      dispatcher; CommandSpec: the table of commands they implement and its
      meaning on the abstract store; CommandTypes: the types of their replies
      and what each may write.
    - SpscQueue: [v2/src/concurrent/single_consumer_producer_queue.h],
      sequentially and as interleaved memory accesses of two threads;
      BlockingQueue: [concurrent_queue.h], a mutex and a condition variable
      shared by any number of threads; EventFd: [event_fd.cc].
    - IoThread: [v2/src/server/io_thread.cc]; Server: [v2/src/server/server.cc];
      EndToEnd: a client's session through both.
    - AsyncServer: the main thread and the IO threads with unbounded queues
      between them, a step being one event handled; Threads: the same threads
      with bounded queues and event descriptors, a step being one queue
      operation, one notification or one system call; Progress: when the
      threads go on; Shutdown: the destructor of [Server], which stops the IO
      threads while they run.
    - Startup: construction, [Run] up to its loop and destruction of [Server]
      and [IoThread], and [v2/src/server/main.cc], with the open descriptors
      of the process as state.
    - Snapshotter: [v2/src/snapshot/snapshotter.cc], with the directory as a
      state that every system call changes; FileSystem: the same code as a
      process that shares a file system with others, one system call at a
      time, and what a power loss leaves of it; SnapshotChildren: the threads
      of the server with the children [CreateSnapshot] forks and
      [ReapSnapshot] waits for.
    - Client: [v2/src/client/worker.cc], [string_helpers.cc],
      [v2/src/network/send_all.cc]; Terminal: [connect.cc] and [main.cc], and
      the client together with the server of Threads.
    - V1Requests, V1Handlers: [v1/src/server/requests/], [handler/], with the
      chain built in [ServerApp.cpp]; V1PubSub: [pubsub/] and the set classes;
      V1Logger: [logger/FileLogger.cpp]; Clock: its time stamps, and
      [v2/src/time/timenow.h]; V1StripedHashmap:
      [store/StripedHashmap.h]; V1Executor: [RequestExecutor.cpp],
      [ConcurrentQueue.h] and the reading loop of [ServerApp.cpp]; V1Server:
      the rest of [ServerApp.cpp] and [main.cpp], workers and handlers
      together; V1Start: the loop of [start] around it and the end of the
      process.
    - V1RespValue: [v1/src/respvalue/], with the position of the parser passed
      by reference; V1LinkedListHashmap: [store/LinkedListHashmap.h], with
      owning pointers into a heap of entries; V1LinearProbingHashmap:
      [store/LinearProbingHashmap.h], with indices at machine width and the
      copy and move members on a store of objects; V1References: the
      references [LookUp] returns, into the chained table and into the nodes of
      [store/StandardMap.h]; V1CoarseMap:
      [store/CoarseGrainConcurrentMapWrapper.h], over any map.
    - V1Client: [v1/src/client/], [v1/src/network/SendAll.cpp], with sizes and
      positions at machine width.
    - Conformance: the inputs of the test suites of the repository
      ([v2/tests/], [v1/tests/ParserTests.cpp]), run on the definitions.

    ** How the code is modelled

    A function that can throw or has undefined behaviour returns [res]; state
    is passed explicitly (the map of the store, the record of an IO thread, of
    the server, of the executor).  Sizes and positions are natural numbers,
    64-bit arithmetic is on [Z] with its wrap-around or its overflow written
    out.  What the kernel answers (the outcomes of [recv], [send], [write],
    [fsync], [rename], [accept], [fork]), the clock, the hash functions and the
    iteration order of [std::unordered_map] are arguments; where a theorem
    needs something of them it is a hypothesis that the documentation of the
    call states, with a witness that satisfies it.  Concurrent code is a step
    function on the program counters of its threads; a step is one memory
    access in SpscQueue (an acquire load may return any value the release
    order allows), one lock operation in BlockingQueue, one queue operation in
    Threads and Shutdown, one system call of a child in FileSystem and one
    critical section in V1StripedHashmap and V1Executor.

    Loops that are not structural take fuel.  The fuel is computed from the
    input by the definition itself ([parse_fuel] is the length of the input
    plus two, [pop_all] the number of bytes and values, the JSON readers the
    length of the document, a probe loop the capacity of the table; an insertion
    into the probing table resizes at most once, so its depth of calls is two),
    and the theorems show that a result, never [NoFuel], comes out; loops driven by
    system calls run along the list of the kernel's answers, and the theorems
    ask that the answers make progress.

    ** What the theorems show

    - Protocol: parsing is a left inverse of serializing ([FromString_Serialize]);
      a proper prefix is incomplete ([FromString_truncated]); the parser ends and
      reads inside the string ([FromString_total]); the queue yields the values
      of the stream however it is cut ([feed_serialized], [feed_rejects]); the
      first server's parser, printer and queue are the same functions
      ([v1_speaks_same_protocol]).
    - Data: the maps are finite maps ([refines_finite_map],
      [linear_probing_refines] for keys that are not present when they are
      inserted, and [pointers_refine_finite_map] down to the pointers,
      [machine_indices_suffice] down to 64-bit indices) and their objects
      values ([v2_maps_are_values]); the store refines [Abstract] ([store_refines]);
      the dispatcher is the command table and refines the abstract store
      ([Dispatch_recognises], [dispatch_refines]), every reply has the type of
      its command and a command writes no key but the one it names
      ([replies_well_typed]), and exactly the stated
      requests are undefined behaviour ([dispatch_undefined_iff]).
    - Persistence: JSON and snapshots are read back ([snapshot_roundtrip],
      [snapshot_restore]); a crash at any moment leaves no partial snapshot
      ([snapshot_crash_safe]), also when any number of children write at once
      and the power is lost: the next process has the store of some moment of
      the last one, and of the newest completed snapshot if the children read
      the clock in order ([restart_after_power_loss]); a child alone does what
      the sequential definition says ([child_alone_is_snapshot]); a server that
      is started again on a snapshot answers as if it had never stopped
      ([restart_is_transparent]), and one that does not start has released
      what it opened ([start_or_release]).
    - Threads and sockets: the queue is a FIFO without data races under every
      interleaving ([spsc_concurrent_fifo], [spsc_no_data_race]); requests and
      replies keep their order through chunks, batches and partial writes
      ([io_requests_in_order], [io_replies_in_order],
      [server_executes_in_order]); a client decodes the replies of the abstract
      store to its own requests ([client_session]); what is typed at the
      client is executed and its replies are printed, line by line, whatever
      the threads, the network and other clients do ([terminal_session]); the
      client program releases what it opened ([client_main_releases]), and the
      first client does what the second does ([v1_client_agrees]).
    - All the threads together: every interleaving executes each client's
      requests in order against one store ([interleavings_linearize]); the
      bounded queues and wake-ups refine that model ([threads_refine_async]);
      when no thread can go on, nothing is left unanswered
      ([settled_means_answered]), since a wake-up is pending exactly when it
      should be ([wakeup_pending_iff]); the work a state holds is finite, and
      the threads stop only when it is done, at a request with undefined
      behaviour, or when two of them wait for room in each other's queue
      ([input_is_processed]); stopping ends, or waits forever for a thread that
      waits for room ([stopping_ends_or_hangs]).  The blocking queue is a FIFO
      ([blocking_queue_fifo]) whose consumers do not sleep on an element
      ([no_wakeup_lost]).
    - The threaded server: requests, subscriptions and publications mean what
      they should ([v1_requests_served], [publish_reaches_subscribers]); a
      single worker, or many as long as no client is new, serve a connection one
      worker at a time, in order, forget nothing and use no reference after a
      resize ([executor_serves_in_order]); the stripe locks keep apart the
      operations on one key ([striped_locks_exclude]); the whole server with one
      worker, from accepted connection to dispatched request, serves each
      client's values in order ([v1_server_serves]), also through the reports of
      its event loop, though its end is undefined behaviour
      ([start_serves_end_undefined]); a reference into a table is good until the
      table is resized ([reference_valid_until_resize]); one mutex around a map makes it
      linearizable ([coarse_map_linearizes]); time stamps sort as the times they
      stand for ([timestamps_sort_chronologically]).
    - Where the code does not do what it means to, a theorem exhibits it:
      [stale_disconnect_silences_client], [receiver_reads_c_string],
      [queues_can_deadlock], [stop_can_hang], [stale_bytes_reach_next_client],
      [overlapping_snapshots_restore_older], [striped_bucket_race]; and, not
      listed as properties, [reused_name_breaks_snapshot],
      [removed_key_reappears], [executor_reference_dangles] and
      [new_client_dangles_reference], [bad_subscription_throws], [executor_reorders_chunks],
      [unbound_server_waits],
      [overlong_integer_blocks], [expired_key_revives],
      [sentinel_deadline_is_permanent], [deadline_instant_disagrees],
      [null_option_undefined], [error_drops_pipelined_requests],
      [zero_interval_watches_stdin], [subscription_counts_drift],
      [connection_created_twice].

    ** What is not modelled

    [std::bad_alloc]; the command-line parser (third-party code); [std::hash];
    the database of time zones.  In Shutdown the accesses to [running_] are
    interleaved in one order; in Startup the destructor runs before the threads
    have been started.  The kernel keeps what was forced to the device;
    [restart_after_power_loss] asks that [mkstemp] draws no name twice in one
    run.  In Threads [accept] may return any number, and a timer that is
    readable is read in full.  In V1Handlers the requests of different workers
    are executed one after the other, and in V1Executor a call on the
    connection map is one step; the races of several workers on the table itself
    are the subject of V1StripedHashmap ([striped_bucket_race]), so the theorem
    about several workers is for runs in which none inserts. *)

From Stdlib Require Export ZArith Ascii String Lia.
From stdpp Require Export base gmap list strings sets.

#[global] Open Scope Z_scope.

(** ** Byte strings

    [std::string] is a sequence of bytes; the model is [list ascii], with the
    list operations of stdpp for [substr], [append] and indexing. *)

Abbreviation bytes := (list ascii).

Declare Scope bytes_scope.
Delimit Scope bytes_scope with bytes.

(** A C++ string literal. *)
Definition lit (s : string) : bytes := list_ascii_of_string s.

Notation "'CR'" := (Ascii.ascii_of_nat 13) : bytes_scope.
Notation "'LF'" := (Ascii.ascii_of_nat 10) : bytes_scope.
#[global] Open Scope bytes_scope.

(** The terminator of every RESP line. *)
Definition crlf : bytes := [CR; LF].

(** A function that may call [exit]. *)
Inductive exits (A : Type) :=
| Returns (a : A)
| Exits (status : Z).
Arguments Returns {A} a.
Arguments Exits {A} status.

(** ** Outcomes of C++ code

    A call returns, throws one of the standard exceptions, or has undefined
    behaviour.  [NoFuel] is no behaviour of the program: it is what a
    fuel-indexed definition gives when its fuel is too small, and the theorems
    about those definitions show it does not occur. *)

Inductive exn :=
| OutOfRange (what : string)
| InvalidArgument (what : string)
| RuntimeError (what : string).

Inductive res (A : Type) :=
| Ok (a : A)
| Throw (e : exn)
| Undef (why : string)
| NoFuel.
Arguments Ok {A} a.
Arguments Throw {A} e.
Arguments Undef {A} why.
Arguments NoFuel {A}.

#[export] Instance exn_eq_dec : EqDecision exn.
Proof. solve_decision. Defined.

#[export] Instance res_eq_dec {A} `{EqDecision A} : EqDecision (res A).
Proof. solve_decision. Defined.

#[export] Instance res_ret : MRet res := fun A a => Ok a.

#[export] Instance res_bind : MBind res := fun A B f m =>
  match m with
  | Ok a => f a
  | Throw e => Throw e
  | Undef w => Undef w
  | NoFuel => NoFuel
  end.

#[export] Instance res_fmap : FMap res := fun A B f m =>
  match m with
  | Ok a => Ok (f a)
  | Throw e => Throw e
  | Undef w => Undef w
  | NoFuel => NoFuel
  end.

(** [is_ok m]: the call returned. *)
Definition is_ok {A} (m : res A) : bool :=
  match m with Ok _ => true | _ => false end.

(** [is_incomplete m]: the call threw [std::out_of_range]. *)
Definition is_incomplete {A} (m : res A) : bool :=
  match m with Throw (OutOfRange _) => true | _ => false end.

(** ** Machine integers *)

Definition int64_min : Z := - 2 ^ 63.
Definition int64_max : Z := 2 ^ 63 - 1.
Definition in_int64 (z : Z) : bool := (int64_min <=? z) && (z <=? int64_max).

(** Unsigned 64-bit wrap-around ([size_t], [uint64_t]). *)
Definition wrap64 (z : Z) : Z := z mod 2 ^ 64.

(** Signed 64-bit arithmetic: overflow is undefined behaviour. *)
Definition checked64 (z : Z) : res Z :=
  if in_int64 z then Ok z else Undef "signed integer overflow".
Definition add64 (a b : Z) : res Z := checked64 (a + b).
Definition sub64 (a b : Z) : res Z := checked64 (a - b).
Definition mul64 (a b : Z) : res Z := checked64 (a * b).

(** Conversion to a signed 32-bit [int]. *)
Definition cast_int32 (z : Z) : Z := (z + 2 ^ 31) mod 2 ^ 32 - 2 ^ 31.
Definition in_int32 (z : Z) : bool := (- 2 ^ 31 <=? z) && (z <? 2 ^ 31).
(** Signed 32-bit arithmetic: overflow is undefined behaviour. *)
Definition checked32 (z : Z) : res Z :=
  if in_int32 z then Ok z else Undef "signed integer overflow".

(** Every [std::string] is this small: [std::string::max_size] is at most
    2^63 - 17 on the 64-bit platforms the sources target, so every length and
    position fits a signed 64-bit integer. *)
Definition small_str (s : bytes) : Prop := Z.of_nat (length s) + 2 < 2 ^ 63.

(** The values of [errno] the sources tell apart; [EOTHER] is any other. *)
Inductive errno := EAGAIN | EWOULDBLOCK | EINTR | EOTHER.

#[export] Instance errno_eq_dec : EqDecision errno.
Proof. solve_decision. Defined.

(** ** Automation *)

Create HintDb myredis.

(** Case analysis on the scrutinee of a [match] or an [if]. *)
Ltac case_scrutinee :=
  match goal with
  | |- context [match ?x with _ => _ end] =>
      lazymatch x with context [match _ with _ => _ end] => fail | _ => idtac end;
      destruct x eqn:?
  | |- context [if ?b then _ else _] => destruct b eqn:?
  end.

(** The same on a hypothesis. *)
Ltac case_scrutinee_in H :=
  match type of H with
  | context [match ?x with _ => _ end] =>
      lazymatch x with context [match _ with _ => _ end] => fail | _ => idtac end;
      destruct x eqn:?
  end.

(** Boolean tests become propositions. *)
Ltac reflect_bools :=
  repeat match goal with
  | H : (_ && _)%bool = true |- _ => apply andb_true_iff in H as [? ?]
  | H : (_ || _)%bool = false |- _ => apply orb_false_iff in H as [? ?]
  | H : (_ <=? _)%Z = true |- _ => apply Z.leb_le in H
  | H : (_ <=? _)%Z = false |- _ => apply Z.leb_gt in H
  | H : (_ <? _)%Z = true |- _ => apply Z.ltb_lt in H
  | H : (_ <? _)%Z = false |- _ => apply Z.ltb_ge in H
  | H : (_ =? _)%Z = true |- _ => apply Z.eqb_eq in H
  | H : (_ =? _)%Z = false |- _ => apply Z.eqb_neq in H
  | H : (_ <=? _)%nat = true |- _ => apply Nat.leb_le in H
  | H : (_ <=? _)%nat = false |- _ => apply Nat.leb_gt in H
  | H : (_ <? _)%nat = true |- _ => apply Nat.ltb_lt in H
  | H : (_ <? _)%nat = false |- _ => apply Nat.ltb_ge in H
  | H : (_ =? _)%nat = true |- _ => apply Nat.eqb_eq in H
  | H : (_ =? _)%nat = false |- _ => apply Nat.eqb_neq in H
  | H : (_ =? _)%char = true |- _ => apply Ascii.eqb_eq in H
  | H : (_ =? _)%char = false |- _ => apply Ascii.eqb_neq in H
  | H : bool_decide _ = true |- _ => apply bool_decide_eq_true in H
  | H : bool_decide _ = false |- _ => apply bool_decide_eq_false in H
  end.

(** ** Shared lemmas *)

Lemma res_bind_ok {A B} (m : res A) (f : A -> res B) b :
  m ≫= f = Ok b -> exists a, m = Ok a /\ f a = Ok b.
Proof. destruct m; cbn; intros H; try discriminate. eauto. Qed.

(** A bind that returned: both parts did. *)
Ltac inv_bind H :=
  lazymatch type of H with
  | (_ ≫= _) = Ok _ =>
      let a := fresh "a" in let Ha := fresh "Ha" in
      apply res_bind_ok in H as (a & Ha & H);
      lazymatch type of a with
      | (_ * _)%type => destruct a as [? ?]
      | _ => idtac
      end
  end.

Lemma res_bind_assoc {A B C} (m : res A) (f : A -> res B) (g : B -> res C) :
  (m ≫= f) ≫= g = m ≫= (fun a => f a ≫= g).
Proof. by destruct m. Qed.

(** *** Fuel

    [fuel_le x y]: [y] is [x], or [x] ran out of fuel. *)

Definition fuel_le {A} (x y : res A) : Prop := x = NoFuel \/ x = y.

Lemma fuel_le_refl {A} (x : res A) : fuel_le x x.
Proof. by right. Qed.

Lemma fuel_le_trans {A} (x y z : res A) : fuel_le x y -> fuel_le y z -> fuel_le x z.
Proof. intros [->| ->]; [by left|done]. Qed.

Lemma fuel_le_bind {A B} (x y : res A) (f g : A -> res B) :
  fuel_le x y -> (forall a, fuel_le (f a) (g a)) -> fuel_le (x ≫= f) (y ≫= g).
Proof. intros [->| ->] Hf; [by left|]. destruct y; cbn; [apply Hf|by right..]. Qed.

Lemma fuel_le_eq {A} (x y : res A) : fuel_le x y -> x <> NoFuel -> y = x.
Proof. intros [->| ->]; done. Qed.

Lemma bind_NoFuel {A B} (m : res A) (f : A -> res B) :
  m <> NoFuel -> (forall a, m = Ok a -> f a <> NoFuel) -> m ≫= f <> NoFuel.
Proof. destruct m; cbn; intros Hm Hf; try done. by apply Hf. Qed.

(** Goals of the form [fuel_le (definition at f) (definition at S f)]. *)
Ltac fuel_mono :=
  repeat first
    [ apply fuel_le_refl
    | apply fuel_le_bind; [|intros ?]
    | progress case_match
    | eassumption
    | match goal with H : forall _, _ |- _ => apply H end ].

Lemma is_incomplete_bind {A B} (m : res A) (f : A -> res B) :
  is_incomplete m = true -> is_incomplete (m ≫= f) = true.
Proof. by destruct m as [|[]| |]. Qed.

(** *** Defined outcomes: the call has no undefined behaviour. *)

Definition defined {A} (m : res A) : Prop :=
  match m with Undef _ => False | _ => True end.

Lemma defined_bind {A B} (m : res A) (f : A -> res B) :
  defined m -> (forall a, m = Ok a -> defined (f a)) -> defined (m ≫= f).
Proof. destruct m; cbn; intros Hm Hf; try done. by apply Hf. Qed.

(** *** Outcomes of a parser: a value, [std::out_of_range] or
    [std::invalid_argument], and no undefined behaviour. *)

Definition regular {A} (m : res A) : Prop :=
  match m with Undef _ | Throw (RuntimeError _) => False | _ => True end.

Lemma regular_bind {A B} (m : res A) (f : A -> res B) :
  regular m -> (forall a, m = Ok a -> regular (f a)) -> regular (m ≫= f).
Proof. destruct m as [|[]| |]; cbn; intros Hm Hf; try done. by apply Hf. Qed.

Lemma regular_defined {A} (m : res A) : regular m -> defined m.
Proof. by destruct m. Qed.

(** *** Settled outcomes

    A parser's verdict on a prefix of the input is settled when it is a value
    or [std::invalid_argument]; [std::out_of_range] asks for more input.
    [settle_le x y]: if [x] is settled, [y] is the same verdict. *)

Definition settled {A} (m : res A) : Prop :=
  match m with Ok _ | Throw (InvalidArgument _) => True | _ => False end.

Definition settle_le {A} (x y : res A) : Prop := settled x -> y = x.

Lemma settle_le_refl {A} (x : res A) : settle_le x x.
Proof. done. Qed.

Lemma settle_le_bind {A B} (x y : res A) (f g : A -> res B) :
  settle_le x y -> (forall a, x = Ok a -> settle_le (f a) (g a)) ->
  settle_le (x ≫= f) (y ≫= g).
Proof.
  unfold settle_le. intros Hx Hf Hs. destruct x as [a|[]| |]; cbn in *; try done.
  - rewrite (Hx I). cbn. by apply Hf.
  - by rewrite (Hx I).
Qed.

Lemma in_int64_spec z : in_int64 z = true <-> int64_min <= z <= int64_max.
Proof. unfold in_int64. rewrite andb_true_iff, !Z.leb_le. done. Qed.

Lemma checked64_ok z : in_int64 z = true -> checked64 z = Ok z.
Proof. unfold checked64. by intros ->. Qed.

Lemma cast_int32_small z : - 2 ^ 31 <= z < 2 ^ 31 -> cast_int32 z = z.
Proof. intros Hz. unfold cast_int32. rewrite Z.mod_small; lia. Qed.

Lemma wrap64_small z : 0 <= z < 2 ^ 64 -> wrap64 z = z.
Proof. apply Z.mod_small. Qed.

Lemma drop_app_eq {A} (l1 l2 : list A) n : n = length l1 -> drop n (l1 ++ l2) = l2.
Proof. intros ->. apply drop_app_length. Qed.

Lemma take_app_eq {A} (l1 l2 : list A) n : n = length l1 -> take n (l1 ++ l2) = l1.
Proof. intros ->. apply take_app_length. Qed.

(** A suffix that starts at [pos] and continues with [l2] after [l1]. *)
Lemma drop_split {A} (l l1 l2 : list A) pos :
  drop pos l = l1 ++ l2 -> drop (pos + length l1) l = l2.
Proof. intros H. rewrite <- drop_drop, H. apply drop_app_length. Qed.

Lemma drop_lookup_0 {A} (l : list A) pos x t : drop pos l = x :: t -> l !! pos = Some x.
Proof. intros H. rewrite <- (Nat.add_0_r pos), <- lookup_drop, H. done. Qed.

Lemma drop_cons_lt {A} (l : list A) pos x t : drop pos l = x :: t -> (pos < length l)%nat.
Proof. intros H%drop_lookup_0. by apply lookup_lt_Some in H. Qed.

Lemma drop_nonempty_length {A} (l t : list A) pos :
  drop pos l = t -> t <> [] -> length l = (pos + length t)%nat.
Proof.
  intros <- Hne. rewrite length_drop.
  destruct (decide (pos < length l)%nat); [lia|].
  destruct Hne. apply drop_ge. lia.
Qed.

(** Numbers within one window of length [n] are determined by their residue. *)
Lemma mod_window_inj n i j :
  (i <= j)%nat -> (j < i + n)%nat -> (i mod n = j mod n)%nat -> i = j.
Proof.
  intros Hij Hlt He.
  pose proof (Nat.div_mod_eq i n) as Hi. pose proof (Nat.div_mod_eq j n) as Hj.
  rewrite He in Hi. generalize dependent (j mod n)%nat. intros r _ Hi Hj.
  destruct (Nat.lt_trichotomy (i / n) (j / n)) as [Hl|[Hl|Hl]]; [nia| |nia].
  rewrite Hl in Hi. lia.
Qed.

(** A computation that gave a result with a property. *)
Lemma checked_some {A} (o : option A) (P : A -> bool) :
  match o with Some a => P a | None => false end = true -> exists a, o = Some a /\ P a = true.
Proof. destruct o as [a|]; [by exists a|done]. Qed.

#[export] Hint Resolve checked64_ok fuel_le_refl : myredis.
