(* ===== verification/CxxString.v ===== *)
(** * The parts of the C++ standard library the sources use on strings

    [std::string::find] and [substr], the number parsers [std::stoll] and
    [std::from_chars], and the printer [std::to_string], each with its
    behaviour on every input: what is skipped, where it stops, and which
    exception or error code it reports.  The lemmas relate the printer to the
    two parsers. *)

From S2P Require Import Prelude.

(** ** Searching and slicing *)

Fixpoint starts_with (pat s : bytes) : bool :=
  match pat, s with
  | [], _ => true
  | p :: pat', c :: s' => Ascii.eqb p c && starts_with pat' s'
  | _ :: _, [] => false
  end.

(** Offset of the first occurrence of [pat] in [s]. *)
Fixpoint find_sub (pat s : bytes) : option nat :=
  if starts_with pat s then Some 0%nat
  else match s with
       | [] => None
       | _ :: t => S <$> find_sub pat t
       end.

(** [str.find(pat, pos)]; [None] is [npos]. *)
Definition find (pat str : bytes) (pos : nat) : option nat :=
  if (pos <=? length str)%nat
  then (fun i => (pos + i)%nat) <$> find_sub pat (drop pos str)
  else None.

(** [str.substr(pos, n)]. *)
Definition substr (str : bytes) (pos n : nat) : res bytes :=
  if (pos <=? length str)%nat then Ok (take n (drop pos str))
  else Throw (OutOfRange "basic_string::substr").

(** [str.ends_with(suf)]. *)
Definition ends_with (suf s : bytes) : bool :=
  (length suf <=? length s)%nat && bool_decide (drop (length s - length suf) s = suf).

(** ** Characters *)

Definition code (c : ascii) : Z := Z.of_N (N_of_ascii c).
Definition chr (z : Z) : ascii := ascii_of_N (Z.to_N z).

Definition is_digit (c : ascii) : bool := (48 <=? code c) && (code c <=? 57).
Definition is_space (c : ascii) : bool := (code c =? 32) || ((9 <=? code c) && (code c <=? 13)).

(** ** Numbers *)

Fixpoint skip_space (s : bytes) : bytes :=
  match s with
  | c :: t => if is_space c then skip_space t else s
  | [] => []
  end.

Fixpoint digit_prefix (s : bytes) : bytes :=
  match s with
  | c :: t => if is_digit c then c :: digit_prefix t else []
  | [] => []
  end.

Definition digits_value (ds : bytes) : Z :=
  fold_left (fun acc c => acc * 10 + (code c - 48)) ds 0.

(** [std::stoll(s)], base 10. *)
Definition stoll (s : bytes) : res Z :=
  let s1 := skip_space s in
  let '(neg, s2) :=
    match s1 with
    | c :: t => if Ascii.eqb c "-" then (true, t)
                else if Ascii.eqb c "+" then (false, t) else (false, s1)
    | [] => (false, s1)
    end in
  match digit_prefix s2 with
  | [] => Throw (InvalidArgument "stoll")
  | ds => let v := if (neg : bool) then - digits_value ds else digits_value ds in
          if in_int64 v then Ok v else Throw (OutOfRange "stoll")
  end.

(** The [(ptr, ec)] pair of [std::from_chars] on a signed 64-bit integer; the
    pointer is an offset from [first]. *)
Inductive from_chars_result :=
| FromCharsOk (value : Z) (ptr : nat)
| FromCharsInvalid
| FromCharsRange (ptr : nat).

Definition from_chars (s : bytes) : from_chars_result :=
  let '(neg, t) :=
    match s with
    | c :: t => if Ascii.eqb c "-" then (true, t) else (false, s)
    | [] => (false, s)
    end in
  match digit_prefix t with
  | [] => FromCharsInvalid
  | ds => let v := if (neg : bool) then - digits_value ds else digits_value ds in
          let ptr := (length ds + if neg then 1 else 0)%nat in
          if in_int64 v then FromCharsOk v ptr else FromCharsRange ptr
  end.

Fixpoint digits_fuel (fuel : nat) (n : Z) : bytes :=
  match fuel with
  | O => []
  | S f => if n <? 10 then [chr (48 + n)]
           else digits_fuel f (n / 10) ++ [chr (48 + n mod 10)]
  end.

Definition digits (n : Z) : bytes := digits_fuel (S (Z.to_nat (Z.log2 n))) n.

(** [std::to_string] on integers. *)
Definition to_string (z : Z) : bytes :=
  if z <? 0 then "-"%char :: digits (- z) else digits z.

(** ** Lemmas: searching *)

Lemma starts_with_spec pat s : starts_with pat s = true <-> exists t, s = pat ++ t.
Proof.
  revert s. induction pat as [|p pat IH]; intros s; cbn.
  { split; [by exists s|done]. }
  destruct s as [|c s]; cbn.
  { split; [done|intros [t Ht]; done]. }
  rewrite andb_true_iff, Ascii.eqb_eq, IH. split.
  - intros [-> [t ->]]. by exists t.
  - intros [t [= -> ->]]. eauto.
Qed.

Lemma starts_with_app pat t : starts_with pat (pat ++ t) = true.
Proof. apply starts_with_spec. by exists t. Qed.

Lemma find_sub_Some pat s n :
  find_sub pat s = Some n -> exists l r, s = l ++ pat ++ r /\ length l = n.
Proof.
  revert n. induction s as [|c s IH]; cbn; intros n.
  - destruct (starts_with pat []) eqn:E; [|done].
    apply starts_with_spec in E as [t ->]. intros [= <-]. by exists [], t.
  - destruct (starts_with pat (c :: s)) eqn:E.
    + apply starts_with_spec in E as [t Ht]. intros [= <-]. exists [], t. by rewrite Ht.
    + destruct (find_sub pat s) as [m|]; cbn; [|done]. intros [= <-].
      destruct (IH m eq_refl) as (l & r & -> & <-). by exists (c :: l), r.
Qed.

(** More input never moves an occurrence that was already found. *)
Lemma find_sub_extend pat s t n :
  find_sub pat s = Some n -> find_sub pat (s ++ t) = Some n.
Proof.
  revert n. induction s as [|c s IH]; cbn; intros n.
  - destruct (starts_with pat []) eqn:E; [|done]. intros [= <-].
    destruct pat; [|done]. by destruct t.
  - destruct (starts_with pat (c :: s)) eqn:E.
    + intros [= <-]. apply starts_with_spec in E as [r Hr].
      change (c :: s ++ t) with ((c :: s) ++ t).
      by rewrite Hr, <- app_assoc, starts_with_app.
    + destruct (find_sub pat s) as [m|] eqn:Em; cbn; [|done]. intros [= <-].
      specialize (IH m eq_refl).
      destruct (starts_with pat (c :: s ++ t)) eqn:E'; [|by rewrite IH].
      exfalso. apply find_sub_Some in Em as (l & r & -> & _).
      change (c :: (l ++ pat ++ r) ++ t) with ((c :: l ++ pat ++ r) ++ t) in E'.
      apply starts_with_spec in E' as [u Hu].
      assert (starts_with pat (c :: l ++ pat ++ r) = true) as Hc; [|congruence].
      apply starts_with_spec.
      rewrite <- (take_drop (length pat) (c :: l ++ pat ++ r)) in Hu |- *.
      rewrite <- app_assoc in Hu.
      assert (length (take (length pat) (c :: l ++ pat ++ r)) = length pat) as Hl.
      { rewrite length_take. cbn. rewrite !length_app. lia. }
      apply app_inj_1 in Hu as [-> _]; [|done]. eauto.
Qed.

(** In [s ++ crlf ++ r] the first CRLF is the one after [s], when [s] has none. *)
Lemma find_sub_crlf_app s r :
  find_sub crlf s = None -> find_sub crlf (s ++ crlf ++ r) = Some (length s).
Proof.
  induction s as [|c s IH]; [done|]. cbn [find_sub app length].
  destruct (starts_with crlf (c :: s)) eqn:E; [done|].
  destruct (find_sub crlf s) eqn:Es; [done|]. intros _.
  rewrite (IH eq_refl).
  destruct s as [|d s]; cbn in *; [by rewrite andb_false_r|]. by rewrite E.
Qed.

Lemma find_sub_crlf_absent s : CR ∉ s -> find_sub crlf s = None.
Proof.
  induction s as [|c s IH]; [done|]. intros Hn.
  apply not_elem_of_cons in Hn as [Hc Hs]. cbn [find_sub].
  rewrite (IH Hs). cbn -[Ascii.eqb].
  by rewrite (proj2 (Ascii.eqb_neq _ _) Hc).
Qed.

(** A string without CRLF, cut anywhere, still has none. *)
Lemma find_sub_crlf_prefix s t :
  find_sub crlf (s ++ t) = None -> find_sub crlf s = None.
Proof.
  intros H. destruct (find_sub crlf s) as [n|] eqn:E; [|done].
  apply (find_sub_extend _ _ t) in E. congruence.
Qed.

Lemma find_sub_crlf_snoc_CR s : find_sub crlf s = None -> find_sub crlf (s ++ [CR]) = None.
Proof.
  induction s as [|c s IH]; [done|]. cbn [find_sub app].
  destruct (starts_with crlf (c :: s)) eqn:E; [done|].
  destruct (find_sub crlf s) eqn:Es; [done|]. intros _. rewrite (IH eq_refl).
  destruct s as [|d s]; cbn in *; [by rewrite andb_false_r|]. by rewrite E.
Qed.

Lemma app_cons_not_nil' {A} (l : list A) : l <> [] -> exists l' x, l = l' ++ [x].
Proof. intros H. destruct l using rev_ind; [done|eauto]. Qed.

(** A proper prefix of a line has no CRLF. *)
Lemma find_sub_crlf_cut s p q :
  find_sub crlf s = None -> p ++ q = s ++ crlf -> q <> [] -> find_sub crlf p = None.
Proof.
  intros Hs Hpq Hq. destruct (app_cons_not_nil' q Hq) as (q' & c & ->).
  rewrite app_assoc in Hpq. change crlf with ([CR] ++ [LF]) in Hpq.
  rewrite (app_assoc s) in Hpq. apply app_inj_tail in Hpq as [Hpq _].
  eapply find_sub_crlf_prefix. rewrite Hpq. by apply find_sub_crlf_snoc_CR.
Qed.

Lemma find_drop pat str pos :
  (pos <= length str)%nat ->
  find pat str pos = (fun i => (pos + i)%nat) <$> find_sub pat (drop pos str).
Proof. intros H. unfold find. by rewrite (proj2 (Nat.leb_le _ _)). Qed.

Lemma find_bound pat str pos n :
  find pat str pos = Some n -> (pos <= n /\ n + length pat <= length str)%nat.
Proof.
  unfold find. destruct (_ <=? _)%nat eqn:E; [|done]. apply Nat.leb_le in E.
  destruct (find_sub pat (drop pos str)) as [i|] eqn:Ei; cbn; [|done]. intros [= <-].
  apply find_sub_Some in Ei as (l & r & Hd & <-).
  pose proof (f_equal length Hd) as Hl. rewrite length_drop, !length_app in Hl. lia.
Qed.

Lemma find_extend pat str t pos n :
  find pat str pos = Some n -> find pat (str ++ t) pos = Some n.
Proof.
  unfold find. destruct (pos <=? length str)%nat eqn:E; [|done].
  apply Nat.leb_le in E. rewrite (proj2 (Nat.leb_le _ _)) by (rewrite length_app; lia).
  destruct (find_sub pat (drop pos str)) as [i|] eqn:Ei; cbn; [|done]. intros [= <-].
  rewrite drop_app_le by done. by erewrite find_sub_extend.
Qed.

Lemma substr_ok str pos n : (pos <= length str)%nat -> substr str pos n = Ok (take n (drop pos str)).
Proof. intros H. unfold substr. by rewrite (proj2 (Nat.leb_le _ _)). Qed.

(** ** Lemmas: numbers *)

Lemma code_chr z : 0 <= z < 256 -> code (chr z) = z.
Proof. intros H. unfold code, chr. rewrite N_ascii_embedding by lia. lia. Qed.

Lemma chr_code c : chr (code c) = c.
Proof. unfold code, chr. rewrite N2Z.id. apply ascii_N_embedding. Qed.

Lemma code_range c : 0 <= code c < 256.
Proof.
  unfold code. pose proof (N_ascii_bounded c). lia.
Qed.

Lemma code_inj a b : code a = code b -> a = b.
Proof. intros H. by rewrite <- (chr_code a), H, chr_code. Qed.

Lemma is_digit_chr n : 0 <= n < 10 -> is_digit (chr (48 + n)) = true.
Proof.
  intros H. unfold is_digit. rewrite code_chr by lia.
  apply andb_true_iff. split; apply Z.leb_le; lia.
Qed.

Lemma digit_prefix_app ds r :
  Forall (fun c => is_digit c = true) ds ->
  match r with c :: _ => is_digit c = false | [] => True end ->
  digit_prefix (ds ++ r) = ds.
Proof.
  intros Hd Hr. induction Hd as [|c ds Hc _ IH]; cbn.
  - destruct r as [|c r]; [done|]. cbn. by rewrite Hr.
  - by rewrite Hc, IH.
Qed.

Lemma digits_value_snoc ds c : digits_value (ds ++ [c]) = digits_value ds * 10 + (code c - 48).
Proof. unfold digits_value. by rewrite fold_left_app. Qed.

Lemma digits_fuel_spec fuel n :
  0 <= n < 10 ^ Z.of_nat fuel -> fuel <> O ->
  digits_value (digits_fuel fuel n) = n
  /\ Forall (fun c => is_digit c = true) (digits_fuel fuel n)
  /\ digits_fuel fuel n <> [].
Proof.
  revert n. induction fuel as [|f IH]; intros n Hn Hf; [done|]. cbn [digits_fuel].
  destruct (n <? 10) eqn:E; reflect_bools.
  - split; [|split; [|done]].
    + unfold digits_value. cbn [fold_left]. rewrite code_chr; lia.
    + repeat constructor. apply is_digit_chr. lia.
  - rewrite Nat2Z.inj_succ, Z.pow_succ_r in Hn by lia.
    assert (0 <= n / 10 < 10 ^ Z.of_nat f) as Hq.
    { split; [apply Z.div_pos; lia|]. apply Z.div_lt_upper_bound; lia. }
    assert (f <> O) as Hf'. { intros ->. cbn in Hn. lia. }
    destruct (IH (n / 10) Hq Hf') as (Hv & Hd & _).
    pose proof (Z.mod_pos_bound n 10 ltac:(lia)) as Hm.
    split; [|split].
    + rewrite digits_value_snoc, Hv, code_chr by lia. pose proof (Z.div_mod n 10). lia.
    + apply Forall_app. split; [done|]. repeat constructor. apply is_digit_chr. lia.
    + intros H. by apply app_nil in H as [_ ?].
Qed.

Lemma digits_spec n :
  0 <= n ->
  digits_value (digits n) = n
  /\ Forall (fun c => is_digit c = true) (digits n)
  /\ digits n <> [].
Proof.
  intros Hn. unfold digits. apply digits_fuel_spec; [|done].
  split; [done|]. destruct (decide (n = 0)) as [->|Hne]; [done|].
  pose proof (Z.log2_spec n ltac:(lia)) as [_ Hlt].
  pose proof (Z.log2_nonneg n).
  rewrite Nat2Z.inj_succ, Z2Nat.id by lia.
  eapply Z.lt_le_trans; [exact Hlt|]. apply Z.pow_le_mono_l. lia.
Qed.

Lemma is_digit_not_space c : is_digit c = true -> is_space c = false.
Proof. unfold is_digit, is_space. intros H. reflect_bools. lia. Qed.

Lemma is_digit_neq c d : is_digit c = true -> is_digit d = false -> Ascii.eqb c d = false.
Proof. intros Hc Hd. apply Ascii.eqb_neq. intros ->. congruence. Qed.

Lemma digit_prefix_digits n r :
  0 <= n -> match r with c :: _ => is_digit c = false | [] => True end ->
  digit_prefix (digits n ++ r) = digits n.
Proof. intros Hn. apply digit_prefix_app, digits_spec, Hn. Qed.

(** The first character of a printed number that is not negative. *)
Lemma digits_head n : 0 <= n -> exists c t, digits n = c :: t /\ is_digit c = true.
Proof.
  intros Hn. destruct (digits_spec n Hn) as (_ & Hd & Hne).
  destruct (digits n) as [|c t]; [done|]. inversion Hd; subst. eauto.
Qed.

Lemma stoll_minus t :
  stoll ("-"%char :: t) =
    match digit_prefix t with
    | [] => Throw (InvalidArgument "stoll")
    | ds => if in_int64 (- digits_value ds) then Ok (- digits_value ds)
            else Throw (OutOfRange "stoll")
    end.
Proof. reflexivity. Qed.

Lemma stoll_printed z :
  stoll (to_string z) = if in_int64 z then Ok z else Throw (OutOfRange "stoll").
Proof.
  unfold to_string.
  assert (forall n, 0 <= n -> digit_prefix (digits n) = digits n) as Hp.
  { intros n Hn. rewrite <- (app_nil_r (digits n)) at 1. by apply digit_prefix_digits. }
  destruct (z <? 0) eqn:E; reflect_bools.
  - rewrite stoll_minus, Hp by lia.
    destruct (digits_spec (- z) ltac:(lia)) as (Hv & _ & Hne).
    destruct (digits (- z)) eqn:Ed; [done|]. cbv zeta. rewrite Hv.
    by replace (- - z) with z by lia.
  - destruct (digits_head z ltac:(lia)) as (c & t & Ht & Hc).
    destruct (digits_spec z ltac:(lia)) as (Hv & _ & _).
    specialize (Hp z ltac:(lia)). rewrite Ht in *.
    unfold stoll. cbn [skip_space]. rewrite (is_digit_not_space _ Hc).
    rewrite !(is_digit_neq c) by done. rewrite Hp. cbv zeta. by rewrite Hv.
Qed.

Lemma stoll_to_string z : in_int64 z = true -> stoll (to_string z) = Ok z.
Proof. intros Hz. by rewrite stoll_printed, Hz. Qed.

Lemma from_chars_to_string z r :
  in_int64 z = true -> match r with c :: _ => is_digit c = false | [] => True end ->
  from_chars (to_string z ++ r) = FromCharsOk z (length (to_string z)).
Proof.
  intros Hz Hr. unfold to_string, from_chars.
  destruct (z <? 0) eqn:E; reflect_bools.
  - cbn -[digits in_int64 digits_value digit_prefix].
    rewrite digit_prefix_digits by (done || lia).
    destruct (digits_spec (- z) ltac:(lia)) as (Hv & _ & Hne).
    destruct (digits (- z)) eqn:Ed; [done|]. cbv zeta. rewrite Hv.
    replace (- - z) with z by lia. rewrite Hz. f_equal. cbn. lia.
  - pose proof (digit_prefix_digits z r ltac:(lia) Hr) as Hp.
    destruct (digits_head z ltac:(lia)) as (c & t & Ht & Hc).
    destruct (digits_spec z ltac:(lia)) as (Hv & _ & _).
    rewrite Ht in *. cbn [app] in *. rewrite (is_digit_neq c) by done.
    rewrite Hp. cbv zeta. rewrite Hv, Hz. f_equal. lia.
Qed.

Lemma to_string_no_CR z : CR ∉ to_string z.
Proof.
  assert (forall n, 0 <= n -> CR ∉ digits n) as Hd.
  { intros n Hn Hin. destruct (digits_spec n Hn) as (_ & Hf & _).
    rewrite Forall_forall in Hf. by specialize (Hf _ Hin). }
  unfold to_string. destruct (z <? 0) eqn:E; reflect_bools.
  - apply not_elem_of_cons. split; [done|]. apply Hd. lia.
  - apply Hd. lia.
Qed.

Lemma to_string_no_crlf z : find_sub crlf (to_string z) = None.
Proof. apply find_sub_crlf_absent, to_string_no_CR. Qed.

#[export] Hint Resolve to_string_no_crlf stoll_to_string find_extend find_sub_extend : myredis.
