(* ===== verification/RespValue.v ===== *)
(** * RESP values: [v2/src/resp_value/resp_value.{h,cc}], [resp_values.{h,cc}]

    The variant type, the positional recursive-descent parser with its
    exceptions, the serializer, the display printer and the constructor
    helpers.  Theorems: parsing what was serialized gives the value back and
    consumes exactly its bytes, a truncated value is reported as incomplete,
    a verdict is not changed by bytes that arrive later, and the parser always
    returns (the fuel of the model is enough). *)

From S2P Require Import Prelude CxxString.

#[local] Set Warnings "-register-all".

(** ** Data *)

Inductive RespValue :=
| RespSimpleString (s : bytes)
| RespSimpleError (message : bytes)
| RespInteger (n : Z)
| RespBulkString (o : option bytes)
| RespArray (l : list RespValue).

(** Induction that reaches the elements of an array. *)
Definition RespValue_rect' (P : RespValue -> Prop)
    (Hs : forall s, P (RespSimpleString s))
    (He : forall m, P (RespSimpleError m))
    (Hi : forall n, P (RespInteger n))
    (Hb : forall o, P (RespBulkString o))
    (Ha : forall l, Forall P l -> P (RespArray l)) : forall v, P v :=
  fix go v :=
    match v with
    | RespSimpleString s => Hs s
    | RespSimpleError m => He m
    | RespInteger n => Hi n
    | RespBulkString o => Hb o
    | RespArray l =>
        Ha l ((fix go_list l : Forall P l :=
                 match l with
                 | [] => Forall_nil_2 P
                 | v :: l => Forall_cons_2 P v l (go v) (go_list l)
                 end) l)
    end.

#[export] Instance RespValue_eq_dec : EqDecision RespValue.
Proof.
  refine (fix go (x y : RespValue) : Decision (x = y) :=
    let _ : EqDecision RespValue := go in
    match x, y with
    | RespSimpleString a, RespSimpleString b => cast_if (decide (a = b))
    | RespSimpleError a, RespSimpleError b => cast_if (decide (a = b))
    | RespInteger a, RespInteger b => cast_if (decide (a = b))
    | RespBulkString a, RespBulkString b => cast_if (decide (a = b))
    | RespArray a, RespArray b => cast_if (decide (a = b))
    | _, _ => right _
    end); first [by f_equal | intros [= ?]; done | done].
Defined.

(** ** Constructor helpers ([resp_values.cc]) *)

Definition NullBulkString : RespValue := RespBulkString None.
Definition SimpleString (s : bytes) : RespValue := RespSimpleString s.
Definition BulkString (o : option bytes) : RespValue := RespBulkString o.
Definition Integer (num : Z) : RespValue := RespInteger num.
Definition Error (message : bytes) : RespValue := RespSimpleError message.
Definition Array (resp_values : list RespValue) : RespValue := RespArray resp_values.

(** ** Parsing

    Every function takes the string and the position [size_t& pos] and gives
    the value with the new position, or the exception.  [str[i]] reads the
    terminating NUL at [i = size] and is undefined beyond it. *)

Definition index (str : bytes) (i : nat) : res ascii :=
  match str !! i with
  | Some c => Ok c
  | None => if (i =? length str)%nat then Ok (chr 0) else Undef "string index"
  end.

Definition ParseSimpleString (str : bytes) (pos : nat) : res (bytes * nat) :=
  match find crlf str (pos + 1) with
  | None => Throw (OutOfRange "Missing CRLF for simple string")
  | Some end_pos =>
      simple_string ← substr str (pos + 1) (end_pos - pos - 1);
      Ok (simple_string, (end_pos + 2)%nat)
  end.

Definition ParseSimpleError (str : bytes) (pos : nat) : res (bytes * nat) :=
  match find crlf str (pos + 1) with
  | None => Throw (OutOfRange "Missing CRLF for simple error")
  | Some end_pos =>
      error_message ← substr str (pos + 1) (end_pos - pos - 1);
      Ok (error_message, (end_pos + 2)%nat)
  end.

Definition ParseInteger (str : bytes) (pos : nat) : res (Z * nat) :=
  match find crlf str (pos + 1) with
  | None => Throw (OutOfRange "Missing CRLF for integer")
  | Some end_pos =>
      integer_string ← substr str (pos + 1) (end_pos - pos - 1);
      integer_value ← stoll integer_string;
      Ok (integer_value, (end_pos + 2)%nat)
  end.

Definition ParseBulkString (str : bytes) (pos : nat) : res (option bytes * nat) :=
  match find crlf str (pos + 1) with
  | None => Throw (OutOfRange "Missing CRLF after bulk-string length")
  | Some end_of_length =>
      length_string ← substr str (pos + 1) (end_of_length - pos - 1);
      bulk_string_length ← stoll length_string;
      let pos := (end_of_length + 2)%nat in
      if bulk_string_length =? -1 then Ok (None, pos)
      else if bulk_string_length <=? -2 then
        Throw (InvalidArgument
          "Bulk string has a negative length and is not null bulk string")
      else if (bulk_string_length <? 0)
              || (Z.of_nat (length str)
                    <? wrap64 (wrap64 (Z.of_nat pos + bulk_string_length) + 2)) then
        Throw (OutOfRange "Bulk string payload truncated or missing CRLF")
      else
        let payload_end := Z.to_nat (wrap64 (Z.of_nat pos + bulk_string_length)) in
        c1 ← index str payload_end;
        if negb (Ascii.eqb c1 CR) then
          Throw (OutOfRange "Bulk string missing terminating CRLF")
        else
          c2 ← index str (payload_end + 1);
          if negb (Ascii.eqb c2 LF) then
            Throw (OutOfRange "Bulk string missing terminating CRLF")
          else
            bulk_string ← substr str pos (Z.to_nat bulk_string_length);
            Ok (Some bulk_string, (pos + (Z.to_nat bulk_string_length + 2))%nat)
  end.

(** [ParseVariant], [ParseArray] and the element loop of [ParseArray] call each
    other; the fuel bounds the depth of the calls. *)
Fixpoint ParseVariant (fuel : nat) (str : bytes) (pos : nat) : res (RespValue * nat) :=
  match fuel with
  | O => NoFuel
  | S f =>
      if (length str <=? pos)%nat then
        Throw (OutOfRange "Unexpected end of input while parsing RESP value")
      else
        c ← index str pos;
        if Ascii.eqb c "+" then
          '(s, p) ← ParseSimpleString str pos; Ok (RespSimpleString s, p)
        else if Ascii.eqb c "-" then
          '(m, p) ← ParseSimpleError str pos; Ok (RespSimpleError m, p)
        else if Ascii.eqb c ":" then
          '(n, p) ← ParseInteger str pos; Ok (RespInteger n, p)
        else if Ascii.eqb c "$" then
          '(o, p) ← ParseBulkString str pos; Ok (RespBulkString o, p)
        else if Ascii.eqb c "*" then
          '(l, p) ← ParseArray f str pos; Ok (RespArray l, p)
        else Throw (InvalidArgument "Invalid resp type prefix")
  end
with ParseArray (fuel : nat) (str : bytes) (pos : nat) : res (list RespValue * nat) :=
  match fuel with
  | O => NoFuel
  | S f =>
      match find crlf str (pos + 1) with
      | None => Throw (OutOfRange "Missing CRLF after array length")
      | Some end_of_length =>
          length_string ← substr str (pos + 1) (end_of_length - pos - 1);
          array_length ← stoll length_string;
          let pos := (end_of_length + 2)%nat in
          if array_length <? 0 then
            Throw (InvalidArgument "Negative array length not allowed")
          else ParseElements f str 0 array_length pos []
      end
  end
with ParseElements (fuel : nat) (str : bytes) (i array_length : Z) (pos : nat)
    (output : list RespValue) : res (list RespValue * nat) :=
  match fuel with
  | O => NoFuel
  | S f =>
      if i <? array_length then
        if (length str <=? pos)%nat then
          Throw (OutOfRange "Array element missing/truncated")
        else
          '(v, p) ← ParseVariant f str pos;
          ParseElements f str (i + 1) array_length p (output ++ [v])
      else Ok (output, pos)
  end.

(** Fuel that is enough for every string (theorem [FromString_total]). *)
Definition parse_fuel (str : bytes) : nat := (length str + 2)%nat.

Definition FromString (str : bytes) : res (RespValue * nat) :=
  ParseVariant (parse_fuel str) str 0.

(** ** Serializing and showing *)

Fixpoint Serialize (v : RespValue) : bytes :=
  match v with
  | RespSimpleString s => lit "+" ++ s ++ crlf
  | RespSimpleError m => lit "-" ++ m ++ crlf
  | RespInteger n => lit ":" ++ to_string n ++ crlf
  | RespBulkString None => lit "$-1" ++ crlf
  | RespBulkString (Some str) =>
      lit "$" ++ to_string (Z.of_nat (length str)) ++ crlf ++ str ++ crlf
  | RespArray l =>
      lit "*" ++ to_string (Z.of_nat (length l)) ++ crlf ++ flat_map Serialize l
  end.

Definition quoted (s : bytes) : bytes := chr 34 :: s ++ [chr 34].

Fixpoint Show (v : RespValue) : bytes :=
  match v with
  | RespSimpleString s => quoted s
  | RespSimpleError m => lit "error: " ++ m
  | RespInteger n => to_string n
  | RespBulkString None => lit "(NIL)"
  | RespBulkString (Some str) => quoted str
  | RespArray l =>
      (fix show_from (i : Z) (l : list RespValue) : bytes :=
         match l with
         | [] => []
         | e :: l' =>
             (if i =? 0 then [] else [LF]) ++ to_string (i + 1) ++ lit ") " ++ Show e
             ++ show_from (i + 1) l'
         end) 0 l
  end.

(** The values whose serialization can be read back: no CRLF inside a simple
    string or error, and integers of 64 bits. *)
Fixpoint serializable (v : RespValue) : Prop :=
  match v with
  | RespSimpleString s => find_sub crlf s = None
  | RespSimpleError m => find_sub crlf m = None
  | RespInteger n => in_int64 n = true
  | RespBulkString _ => True
  | RespArray l => (fix all l := match l with [] => True | v :: l => serializable v /\ all l end) l
  end.

(** ** Lemmas: progress and fuel *)

Lemma ParseSimpleString_bound str pos s p :
  ParseSimpleString str pos = Ok (s, p) -> (pos < p <= length str)%nat.
Proof.
  unfold ParseSimpleString. destruct (find _ _ _) as [e|] eqn:E; [|done].
  intros H. inv_bind H. injection H as <- <-. apply find_bound in E. cbn in E. lia.
Qed.

Lemma ParseSimpleError_bound str pos s p :
  ParseSimpleError str pos = Ok (s, p) -> (pos < p <= length str)%nat.
Proof.
  unfold ParseSimpleError. destruct (find _ _ _) as [e|] eqn:E; [|done].
  intros H. inv_bind H. injection H as <- <-. apply find_bound in E. cbn in E. lia.
Qed.

Lemma ParseInteger_bound str pos n p :
  ParseInteger str pos = Ok (n, p) -> (pos < p <= length str)%nat.
Proof.
  unfold ParseInteger. destruct (find _ _ _) as [e|] eqn:E; [|done].
  intros H. do 2 inv_bind H. injection H as <- <-. apply find_bound in E. cbn in E. lia.
Qed.

(** The length of a bulk string or array is what [stoll] returns. *)
Lemma stoll_range s z : stoll s = Ok z -> in_int64 z = true.
Proof.
  unfold stoll. destruct (match skip_space s with [] => _ | _ => _ end) as [neg t].
  destruct (digit_prefix t); [done|]. cbv zeta.
  destruct (in_int64 _) eqn:E; [|done]. by intros [= <-].
Qed.

(** With a small string the 64-bit sums of [ParseBulkString] do not wrap. *)
Lemma bulk_sums_small str pos n :
  small_str str -> (pos <= length str)%nat -> in_int64 n = true -> 0 <= n ->
  wrap64 (Z.of_nat pos + n) = Z.of_nat pos + n
  /\ wrap64 (wrap64 (Z.of_nat pos + n) + 2) = Z.of_nat pos + n + 2.
Proof.
  intros Hs Hp [_ Hn]%in_int64_spec Hn0. unfold small_str, int64_max in *.
  assert (wrap64 (Z.of_nat pos + n) = Z.of_nat pos + n) as ->
    by (apply wrap64_small; lia).
  split; [done|]. apply wrap64_small. lia.
Qed.

Lemma ParseBulkString_bound str pos o p :
  small_str str -> ParseBulkString str pos = Ok (o, p) -> (pos < p <= length str)%nat.
Proof.
  intros Hs. unfold ParseBulkString. destruct (find _ _ _) as [e|] eqn:E; [|done].
  apply find_bound in E. cbn [length crlf] in E.
  intros H. do 2 inv_bind H.
  destruct (a0 =? -1) eqn:?; [injection H as <- <-; lia|].
  destruct (a0 <=? -2) eqn:?; [done|].
  destruct (_ || _) eqn:Hor; [done|]. reflect_bools.
  apply stoll_range in Ha0.
  destruct (bulk_sums_small str (e + 2) a0) as [Hw1 Hw2]; [done|lia|done|lia|].
  rewrite Hw2 in *.
  inv_bind H. destruct (negb _); [done|]. inv_bind H. destruct (negb _); [done|].
  inv_bind H. injection H as <- <-. lia.
Qed.

Create HintDb resp_bounds.
#[local] Hint Resolve ParseSimpleString_bound ParseSimpleError_bound ParseInteger_bound
  ParseBulkString_bound : resp_bounds.

(** A call that returns has consumed at least one byte and stayed inside. *)
Lemma Parse_bound str : small_str str -> forall f,
  (forall pos v p, ParseVariant f str pos = Ok (v, p) -> (pos < p <= length str)%nat)
  /\ (forall pos l p, ParseArray f str pos = Ok (l, p) -> (pos < p <= length str)%nat)
  /\ (forall i n pos acc l p, ParseElements f str i n pos acc = Ok (l, p) ->
        (pos <= length str)%nat -> (pos <= p <= length str)%nat).
Proof.
  intros Hs f. induction f as [|f (IHv & IHa & IHe)]; [done|]. split_and!.
  - intros pos v p. cbn [ParseVariant]. destruct (_ <=? _)%nat; [done|].
    intros H. inv_bind H.
    repeat case_match; first [done|idtac];
      inv_bind H; injection H as <- <-; eauto with resp_bounds.
  - intros pos l p. cbn [ParseArray].
    destruct (find _ _ _) as [e|] eqn:E; [|done]. apply find_bound in E. cbn [length crlf] in E.
    intros H. do 2 inv_bind H. destruct (_ <? 0); [done|].
    apply IHe in H; lia.
  - intros i n pos acc l p. cbn [ParseElements].
    destruct (i <? n); [|intros [= <- <-]; lia].
    destruct (_ <=? _)%nat eqn:?; [done|]. intros H. inv_bind H.
    intros Hp. apply IHv in Ha. apply IHe in H; lia.
Qed.

Lemma Parse_fuel_step str : forall f,
  (forall pos, fuel_le (ParseVariant f str pos) (ParseVariant (S f) str pos))
  /\ (forall pos, fuel_le (ParseArray f str pos) (ParseArray (S f) str pos))
  /\ (forall i n pos acc,
        fuel_le (ParseElements f str i n pos acc) (ParseElements (S f) str i n pos acc)).
Proof.
  intros f. induction f as [|f (IHv & IHa & IHe)].
  { split_and!; intros; by left. }
  split_and!.
  - intros pos. change (fuel_le (ParseVariant (S f) str pos) (ParseVariant (S (S f)) str pos)).
    remember (S f) as g. cbn [ParseVariant]. rewrite Heqg at 1. cbn [ParseVariant].
    fuel_mono.
  - intros pos. remember (S f) as g. cbn [ParseArray]. rewrite Heqg at 1. cbn [ParseArray].
    fuel_mono.
  - intros i n pos acc. remember (S f) as g. cbn [ParseElements]. rewrite Heqg at 1.
    cbn [ParseElements]. fuel_mono.
Qed.

Lemma ParseVariant_fuel_mono str pos f g :
  (f <= g)%nat -> fuel_le (ParseVariant f str pos) (ParseVariant g str pos).
Proof.
  induction 1 as [|g _ IH]; [apply fuel_le_refl|].
  eapply fuel_le_trans; [exact IH|]. apply Parse_fuel_step.
Qed.

Lemma substr_fuel str pos n : substr str pos n <> NoFuel.
Proof. unfold substr. by case_match. Qed.

Lemma index_fuel str i : index str i <> NoFuel.
Proof. unfold index. by repeat case_match. Qed.

Lemma stoll_fuel s : stoll s <> NoFuel.
Proof. unfold stoll. by repeat case_match. Qed.

Create HintDb resp_fuel.
#[local] Hint Resolve substr_fuel index_fuel stoll_fuel : resp_fuel.

(** Goals [m <> NoFuel] where [m] calls nothing that takes fuel. *)
Ltac no_fuel :=
  repeat first [ done | solve [auto with resp_fuel]
               | apply bind_NoFuel; [|intros ? ?] | progress case_match ].

Lemma ParseSimpleString_fuel str pos : ParseSimpleString str pos <> NoFuel.
Proof. unfold ParseSimpleString. no_fuel. Qed.
Lemma ParseSimpleError_fuel str pos : ParseSimpleError str pos <> NoFuel.
Proof. unfold ParseSimpleError. no_fuel. Qed.
Lemma ParseInteger_fuel str pos : ParseInteger str pos <> NoFuel.
Proof. unfold ParseInteger. no_fuel. Qed.
Lemma ParseBulkString_fuel str pos : ParseBulkString str pos <> NoFuel.
Proof. unfold ParseBulkString. no_fuel. Qed.

#[local] Hint Resolve ParseSimpleString_fuel ParseSimpleError_fuel ParseInteger_fuel
  ParseBulkString_fuel : resp_fuel.

(** The fuel the three functions need at a position. *)
Lemma Parse_fuel_enough str : small_str str -> forall f,
  (forall pos, (length str - pos + 2 <= f)%nat -> ParseVariant f str pos <> NoFuel)
  /\ (forall pos, (pos < length str)%nat -> (length str - pos + 1 <= f)%nat ->
        ParseArray f str pos <> NoFuel)
  /\ (forall i n pos acc, (length str - pos + 3 <= f)%nat ->
        ParseElements f str i n pos acc <> NoFuel).
Proof.
  intros Hs f. induction f as [|f (IHv & IHa & IHe)]; [split_and!; intros; lia|].
  split_and!.
  - intros pos Hf. cbn [ParseVariant]. destruct (_ <=? _)%nat eqn:?; [done|]. reflect_bools.
    assert (ParseArray f str pos <> NoFuel) by (apply IHa; lia). no_fuel.
  - intros pos Hp Hf. cbn [ParseArray].
    destruct (find _ _ _) as [e|] eqn:E; [|done]. apply find_bound in E. cbn [length crlf] in E.
    assert (forall n, ParseElements f str 0 n (e + 2) [] <> NoFuel)
      by (intros; apply IHe; lia).
    no_fuel.
  - intros i n pos acc Hf. cbn [ParseElements].
    destruct (i <? n); [|done]. destruct (_ <=? _)%nat eqn:?; [done|]. reflect_bools.
    apply bind_NoFuel; [apply IHv; lia|]. intros [v p] Hv.
    apply (proj1 (Parse_bound str Hs f)) in Hv. apply IHe. lia.
Qed.

(** ** Lemmas: no read outside the string, two exceptions *)

Lemma index_regular str i : (i <= length str)%nat -> regular (index str i).
Proof.
  intros H. unfold index. destruct (str !! i) eqn:E; [done|].
  apply lookup_ge_None in E. by rewrite (proj2 (Nat.eqb_eq _ _)) by lia.
Qed.

Lemma substr_regular str pos n : regular (substr str pos n).
Proof. unfold substr. by case_match. Qed.

Lemma stoll_regular s : regular (stoll s).
Proof. unfold stoll. by repeat case_match. Qed.

Create HintDb resp_regular.
#[local] Hint Resolve index_regular substr_regular stoll_regular : resp_regular.

Ltac solve_regular :=
  repeat first [ done | solve [auto with resp_regular]
               | apply regular_bind; [|intros ? ?] | progress case_match ].

Lemma ParseBulkString_regular str pos : small_str str -> regular (ParseBulkString str pos).
Proof.
  intros Hs. unfold ParseBulkString. destruct (find _ _ _) as [e|] eqn:E; [|done].
  apply find_bound in E. cbn [length crlf] in E.
  apply regular_bind; [apply substr_regular|]. intros s _.
  apply regular_bind; [apply stoll_regular|]. intros n Hn%stoll_range.
  destruct (n =? -1) eqn:?; [done|]. destruct (n <=? -2) eqn:?; [done|].
  destruct (_ || _) eqn:Hor; [done|]. reflect_bools.
  destruct (bulk_sums_small str (e + 2) n) as [Hw1 Hw2]; [done|lia|done|lia|].
  rewrite Hw2 in *. rewrite Hw1.
  apply regular_bind; [apply index_regular; lia|]. intros c1 _. case_match; [done|].
  apply regular_bind; [apply index_regular; lia|]. intros c2 _. case_match; [done|].
  apply regular_bind; [apply substr_regular|]. done.
Qed.

Lemma Parse_regular str : small_str str -> forall f,
  (forall pos, regular (ParseVariant f str pos))
  /\ (forall pos, regular (ParseArray f str pos))
  /\ (forall i n pos acc, regular (ParseElements f str i n pos acc)).
Proof.
  intros Hs f. induction f as [|f (IHv & IHa & IHe)]; [done|].
  pose proof (fun pos => ParseBulkString_regular str pos Hs) as Hb.
  split_and!; intros.
  - cbn [ParseVariant]. destruct (_ <=? _)%nat eqn:?; [done|]. reflect_bools.
    apply regular_bind; [apply index_regular; lia|]. intros c _.
    unfold ParseSimpleString, ParseSimpleError, ParseInteger. solve_regular.
  - cbn [ParseArray]. solve_regular.
  - cbn [ParseElements]. solve_regular.
Qed.

(** ** Lemmas: input that arrives later *)

Lemma substr_app str t pos n :
  (pos + n <= length str)%nat -> substr (str ++ t) pos n = substr str pos n.
Proof.
  intros H. rewrite !substr_ok by (rewrite ?length_app; lia).
  rewrite drop_app_le, take_app_le by (rewrite ?length_drop; lia). done.
Qed.

Lemma index_app str t i : (i < length str)%nat -> index (str ++ t) i = index str i.
Proof.
  intros H. unfold index. rewrite lookup_app_l by done.
  by destruct (lookup_lt_is_Some_2 str i H) as [c ->].
Qed.

Lemma small_str_app str t : small_str (str ++ t) -> small_str str.
Proof. unfold small_str. rewrite length_app. lia. Qed.

(** The common beginning of the five parsers: the line after the type byte. *)
Lemma line_extend {A} str t pos e1 (k1 k2 : nat -> bytes -> res A) :
  (forall e s, find crlf str (pos + 1) = Some e -> settle_le (k1 e s) (k2 e s)) ->
  settle_le
    (match find crlf str (pos + 1) with
     | None => Throw (OutOfRange e1)
     | Some e => substr str (pos + 1) (e - pos - 1) ≫= k1 e
     end)
    (match find crlf (str ++ t) (pos + 1) with
     | None => Throw (OutOfRange e1)
     | Some e => substr (str ++ t) (pos + 1) (e - pos - 1) ≫= k2 e
     end).
Proof.
  intros Hk. destruct (find crlf str (pos + 1)) as [e|] eqn:E; [|by intros []].
  rewrite (find_extend _ _ t _ _ E). pose proof (find_bound _ _ _ _ E) as Hb.
  cbn [length crlf] in Hb. rewrite substr_app by lia.
  apply settle_le_bind; [apply settle_le_refl|]. intros s _. by apply Hk.
Qed.

Lemma ParseBulkString_extend str t pos :
  small_str (str ++ t) ->
  settle_le (ParseBulkString str pos) (ParseBulkString (str ++ t) pos).
Proof.
  intros Hs. unfold ParseBulkString. apply line_extend.
  intros e s E. apply find_bound in E. cbn [length crlf] in E.
  apply settle_le_bind; [apply settle_le_refl|]. intros n Hn%stoll_range.
  destruct (n =? -1) eqn:?; [done|]. destruct (n <=? -2) eqn:?; [done|]. reflect_bools.
  destruct (bulk_sums_small str (e + 2) n) as [Hw1 Hw2];
    [by eapply small_str_app|lia|done|lia|].
  destruct (bulk_sums_small (str ++ t) (e + 2) n) as [_ _];
    [done|rewrite length_app; lia|done|lia|].
  rewrite Hw2, Hw1, length_app.
  destruct (_ || (Z.of_nat (length str) <? _)) eqn:Hor; [by intros []|]. reflect_bools.
  rewrite (proj2 (Z.ltb_ge n 0)), (proj2 (Z.ltb_ge (Z.of_nat _) _)) by lia. cbn [orb].
  rewrite !index_app, substr_app by lia. apply settle_le_refl.
Qed.

(** More input does not change a settled verdict, at every depth. *)
Lemma Parse_extend str t : small_str (str ++ t) -> forall f,
  (forall pos, settle_le (ParseVariant f str pos) (ParseVariant f (str ++ t) pos))
  /\ (forall pos, settle_le (ParseArray f str pos) (ParseArray f (str ++ t) pos))
  /\ (forall i n pos acc,
        settle_le (ParseElements f str i n pos acc) (ParseElements f (str ++ t) i n pos acc)).
Proof.
  intros Hs f. induction f as [|f (IHv & IHa & IHe)]; [done|]. split_and!.
  - intros pos. cbn [ParseVariant]. destruct (length str <=? pos)%nat eqn:Hp; [by intros []|].
    reflect_bools. rewrite (proj2 (Nat.leb_gt _ _)) by (rewrite length_app; lia).
    rewrite index_app by done. apply settle_le_bind; [apply settle_le_refl|]. intros c _.
    repeat case_match; try apply settle_le_refl; apply settle_le_bind;
      try (intros; apply settle_le_refl); [| | |by apply ParseBulkString_extend|apply IHa];
      apply line_extend; intros; apply settle_le_refl.
  - intros pos. cbn [ParseArray]. apply line_extend.
    intros e s E. apply settle_le_bind; [apply settle_le_refl|]. intros n _.
    destruct (n <? 0); [apply settle_le_refl|]. apply IHe.
  - intros i n pos acc. cbn [ParseElements]. destruct (i <? n); [|apply settle_le_refl].
    destruct (length str <=? pos)%nat eqn:Hp; [by intros []|].
    reflect_bools. rewrite (proj2 (Nat.leb_gt _ _)) by (rewrite length_app; lia).
    apply settle_le_bind; [apply IHv|]. intros [v p] _. apply IHe.
Qed.

(** ** Lemmas: parsing a serialization *)

(** A complete line after the type byte at [pos]. *)
Lemma line_complete str pos c s r :
  drop pos str = c :: s ++ crlf ++ r -> find_sub crlf s = None ->
  find crlf str (pos + 1) = Some (pos + 1 + length s)%nat
  /\ substr str (pos + 1) (pos + 1 + length s - pos - 1) = Ok s
  /\ drop (pos + 1 + length s + 2) str = r
  /\ index str pos = Ok c /\ (pos < length str)%nat.
Proof.
  intros Hd Hs. pose proof (drop_cons_lt _ _ _ _ Hd) as Hlt.
  pose proof (drop_split _ [c] _ _ Hd) as Hd1. cbn [length] in Hd1.
  split_and!; [| | | |done].
  - rewrite find_drop, Hd1, find_sub_crlf_app by (done || lia). done.
  - rewrite substr_ok, Hd1 by lia. f_equal. apply take_app_eq. lia.
  - change (c :: s ++ crlf ++ r) with ([c] ++ s ++ crlf ++ r) in Hd.
    rewrite 2!app_assoc in Hd. apply drop_split in Hd. rewrite <- Hd. f_equal.
    rewrite !length_app. cbn. lia.
  - unfold index. by rewrite (drop_lookup_0 _ _ _ _ Hd).
Qed.

(** A line cut before the end of its CRLF has no end. *)
Lemma line_cut str pos c s p q :
  drop pos str = c :: p -> p ++ q = s ++ crlf -> q <> [] -> find_sub crlf s = None ->
  find crlf str (pos + 1) = None.
Proof.
  intros Hd Hpq Hq Hs. pose proof (drop_cons_lt _ _ _ _ Hd) as Hlt.
  pose proof (drop_split _ [c] p _ Hd) as Hd1. cbn [length] in Hd1.
  by rewrite find_drop, Hd1, (find_sub_crlf_cut s p q) by (done || lia).
Qed.

Lemma Serialize_cons v : exists c t, Serialize v = c :: t.
Proof. destruct v as [| | |[]|]; cbn; eauto. Qed.

Lemma length_flat_map_Serialize l : (length l <= length (flat_map Serialize l))%nat.
Proof.
  induction l as [|v l IH]; cbn; [done|]. rewrite length_app.
  destruct (Serialize_cons v) as (c & t & ->). cbn. lia.
Qed.

Lemma serializable_array l : serializable (RespArray l) <-> Forall serializable l.
Proof.
  induction l as [|v l IH]; cbn in *; [by split|].
  rewrite IH. split; [by intros []; constructor|by inversion 1].
Qed.

Lemma small_str_drop str pos t : small_str str -> drop pos str = t -> small_str t.
Proof. unfold small_str. intros H <-. rewrite length_drop. lia. Qed.

Lemma small_length_int64 n : Z.of_nat n + 2 < 2 ^ 63 -> in_int64 (Z.of_nat n) = true.
Proof. intros H. apply in_int64_spec. unfold int64_min, int64_max. lia. Qed.

(** A value is read back at any position, whatever follows it. *)
Definition reads_back (v : RespValue) : Prop := forall f str pos rest,
  small_str str -> drop pos str = Serialize v ++ rest -> (length str - pos + 2 <= f)%nat ->
  ParseVariant f str pos = Ok (v, (pos + length (Serialize v))%nat).

Lemma Elements_read_back l : Forall reads_back l -> forall f str i n pos acc rest,
  small_str str -> drop pos str = flat_map Serialize l ++ rest ->
  n = i + Z.of_nat (length l) -> (length str - pos + 3 <= f)%nat ->
  ParseElements f str i n pos acc = Ok (acc ++ l, (pos + length (flat_map Serialize l))%nat).
Proof.
  induction 1 as [|v l Hv _ IH]; intros f str i n pos acc rest Hs Hd -> Hf;
    (destruct f as [|f]; [lia|]); cbn [ParseElements flat_map length].
  - rewrite (proj2 (Z.ltb_ge _ _)) by (cbn; lia). by rewrite app_nil_r, Nat.add_0_r.
  - rewrite (proj2 (Z.ltb_lt _ _)) by (cbn; lia).
    cbn [flat_map] in Hd. rewrite <- app_assoc in Hd.
    destruct (Serialize_cons v) as (c & t & Hc).
    assert (pos < length str)%nat by (rewrite Hc in Hd; by eapply drop_cons_lt).
    rewrite (proj2 (Nat.leb_gt _ _)) by done.
    rewrite (Hv f str pos _ Hs Hd) by lia. cbn [mbind res_bind].
    assert (1 <= length (Serialize v))%nat by (rewrite Hc; cbn; lia).
    rewrite (IH f str _ _ _ _ rest Hs); [|by apply drop_split|cbn; lia|lia].
    rewrite <- app_assoc, length_app. cbn [app]. f_equal. f_equal. lia.
Qed.

Lemma ParseBulkString_read_back str pos s rest :
  small_str str -> drop pos str = Serialize (RespBulkString (Some s)) ++ rest ->
  index str pos = Ok "$"%char /\ (pos < length str)%nat
  /\ ParseBulkString str pos
     = Ok (Some s, (pos + length (Serialize (RespBulkString (Some s))))%nat).
Proof.
  intros Hs Hd. cbn [Serialize] in *. rewrite <- !app_assoc in Hd.
  set (n := Z.of_nat (length s)) in *.
  assert (in_int64 n = true) as Hn.
  { apply small_length_int64. pose proof (small_str_drop _ _ _ Hs Hd) as Hsm.
    unfold small_str in Hsm. rewrite !length_app in Hsm. lia. }
  destruct (line_complete str pos "$" (to_string n) (s ++ crlf ++ rest)) as (Hf & Hsub & Hr & Hi & Hlt);
    [done|apply to_string_no_crlf|].
  split; [done|]. split; [done|]. unfold ParseBulkString. rewrite Hf, Hsub. cbn [mbind res_bind].
  rewrite stoll_to_string by done. cbn [mbind res_bind].
  set (p := (pos + 1 + length (to_string n) + 2)%nat) in *.
  rewrite (proj2 (Z.eqb_neq _ _)), (proj2 (Z.leb_gt _ _)) by lia.
  assert (length str = p + (length s + (2 + length rest)))%nat as Hl.
  { rewrite (drop_nonempty_length str _ p Hr), !length_app; [done|].
    intros H%app_nil. by destruct H as [_ [? _]%app_nil]. }
  destruct (bulk_sums_small str p n) as [Hw1 Hw2]; [done|lia|done|lia|]. rewrite Hw2, Hw1.
  rewrite (proj2 (Z.ltb_ge n 0)), (proj2 (Z.ltb_ge (Z.of_nat _) _)) by lia. cbn [orb].
  replace (Z.to_nat (Z.of_nat p + n)) with (p + length s)%nat by lia.
  pose proof (drop_split _ _ _ _ Hr) as Hr1.
  pose proof (drop_split _ [CR] (LF :: rest) _ Hr1) as Hr2. cbn [length] in Hr2.
  unfold index. rewrite (drop_lookup_0 _ _ _ _ Hr1), (drop_lookup_0 _ _ _ _ Hr2).
  cbn [mbind res_bind negb Ascii.eqb].
  replace (Z.to_nat n) with (length s) by lia. rewrite substr_ok, Hr by lia.
  rewrite take_app_length. cbn [Ascii.eqb Bool.eqb negb mbind res_bind].
  do 2 f_equal. unfold p. rewrite !length_app. cbn. lia.
Qed.

(** What [ParseVariant] does at a known type byte. *)
Definition parse_by_type (f : nat) (str : bytes) (pos : nat) (c : ascii) : res (RespValue * nat) :=
  if Ascii.eqb c "+" then
    '(s, p) ← ParseSimpleString str pos; Ok (RespSimpleString s, p)
  else if Ascii.eqb c "-" then
    '(m, p) ← ParseSimpleError str pos; Ok (RespSimpleError m, p)
  else if Ascii.eqb c ":" then
    '(n, p) ← ParseInteger str pos; Ok (RespInteger n, p)
  else if Ascii.eqb c "$" then
    '(o, p) ← ParseBulkString str pos; Ok (RespBulkString o, p)
  else if Ascii.eqb c "*" then
    '(l, p) ← ParseArray f str pos; Ok (RespArray l, p)
  else Throw (InvalidArgument "Invalid resp type prefix").

Lemma ParseVariant_type f str pos c t :
  drop pos str = c :: t -> ParseVariant (S f) str pos = parse_by_type f str pos c.
Proof.
  intros Hd. cbn [ParseVariant].
  rewrite (proj2 (Nat.leb_gt _ _)) by (by eapply drop_cons_lt).
  unfold index. by rewrite (drop_lookup_0 _ _ _ _ Hd).
Qed.

Ltac at_type Hd :=
  rewrite (ParseVariant_type _ _ _ _ _ Hd); unfold parse_by_type; cbn [Ascii.eqb Bool.eqb].

Lemma simple_string_reads_back s : find_sub crlf s = None -> reads_back (RespSimpleString s).
Proof.
  intros Hv [|f] str pos rest Hs Hd Hf; [lia|]. cbn [Serialize] in *. rewrite <- !app_assoc in Hd.
  destruct (line_complete str pos "+" s rest) as (Hfi & Hsub & _); [done|done|].
  at_type Hd.
  unfold ParseSimpleString. rewrite Hfi, Hsub. cbn [mbind res_bind].
  rewrite !length_app. do 2 f_equal. cbn. lia.
Qed.

Lemma simple_error_reads_back s : find_sub crlf s = None -> reads_back (RespSimpleError s).
Proof.
  intros Hv [|f] str pos rest Hs Hd Hf; [lia|]. cbn [Serialize] in *. rewrite <- !app_assoc in Hd.
  destruct (line_complete str pos "-" s rest) as (Hfi & Hsub & _); [done|done|].
  at_type Hd.
  unfold ParseSimpleError. rewrite Hfi, Hsub. cbn [mbind res_bind].
  rewrite !length_app. do 2 f_equal. cbn. lia.
Qed.

Lemma integer_reads_back n : in_int64 n = true -> reads_back (RespInteger n).
Proof.
  intros Hv [|f] str pos rest Hs Hd Hf; [lia|]. cbn [Serialize] in *. rewrite <- !app_assoc in Hd.
  destruct (line_complete str pos ":" (to_string n) rest) as (Hfi & Hsub & _);
    [done|apply to_string_no_crlf|].
  at_type Hd.
  unfold ParseInteger. rewrite Hfi, Hsub. cbn [mbind res_bind].
  rewrite stoll_to_string by done. cbn [mbind res_bind].
  rewrite !length_app. do 2 f_equal. cbn. lia.
Qed.

Lemma bulk_string_reads_back o : reads_back (RespBulkString o).
Proof.
  intros [|f] str pos rest Hs Hd Hf; [lia|]. destruct o as [s|].
  - destruct (ParseBulkString_read_back _ _ _ _ Hs Hd) as (_ & _ & Hp).
    cbn [Serialize] in Hd. rewrite <- !app_assoc in Hd.
    at_type Hd.
    by rewrite Hp.
  - cbn [Serialize] in Hd. rewrite <- !app_assoc in Hd.
    destruct (line_complete str pos "$" (lit "-1") rest) as (Hfi & Hsub & _); [done|done|].
    at_type Hd.
    unfold ParseBulkString. rewrite Hfi, Hsub. cbn [mbind res_bind].
    assert (stoll (lit "-1") = Ok (-1)) as -> by reflexivity. cbn. do 2 f_equal. lia.
Qed.

Lemma array_reads_back l : Forall reads_back l -> reads_back (RespArray l).
Proof.
  intros Hl [|f] str pos rest Hs Hd Hf; [lia|].
  cbn [Serialize] in *. rewrite <- !app_assoc in Hd. set (n := Z.of_nat (length l)) in *.
  destruct (line_complete str pos "*" (to_string n) (flat_map Serialize l ++ rest))
    as (Hfi & Hsub & Hr & _ & Hlt); [done|apply to_string_no_crlf|].
  assert (in_int64 n = true) as Hn.
  { apply small_length_int64. pose proof (small_str_drop _ _ _ Hs Hd) as Hsm.
    unfold small_str in Hsm. rewrite !length_app in Hsm.
    pose proof (length_flat_map_Serialize l). lia. }
  at_type Hd.
  destruct f as [|f]; [lia|]. cbn [ParseArray]. rewrite Hfi, Hsub. cbn [mbind res_bind].
  rewrite stoll_to_string by done. cbn [mbind res_bind].
  rewrite (proj2 (Z.ltb_ge _ _)) by lia.
  apply find_bound in Hfi. cbn [length crlf] in Hfi.
  rewrite (Elements_read_back l Hl) with (rest := rest) by (done || unfold n; lia).
  cbn [mbind res_bind app]. do 2 f_equal. rewrite !length_app. cbn. lia.
Qed.

Lemma Serialize_reads_back v : serializable v -> reads_back v.
Proof.
  induction v as [s|m|n|o|l IH] using RespValue_rect'; intros Hv.
  - by apply simple_string_reads_back.
  - by apply simple_error_reads_back.
  - by apply integer_reads_back.
  - apply bulk_string_reads_back.
  - apply array_reads_back. apply serializable_array in Hv.
    eapply Forall_impl; [apply Forall_and; split; [exact IH|exact Hv]|]. by intros v [H ?]; apply H.
Qed.

(** ** Lemmas: a serialization cut short *)

(** Either the cut is in the header line, or after it. *)
Lemma header_cut str pos c p line tail q :
  drop pos str = c :: p -> p ++ q = line ++ crlf ++ tail -> q <> [] ->
  find_sub crlf line = None ->
  find crlf str (pos + 1) = None
  \/ exists k, drop pos str = c :: line ++ crlf ++ k /\ k ++ q = tail.
Proof.
  intros Hd Hpq Hq Hl. rewrite app_assoc in Hpq.
  apply app_eq_inv in Hpq as [(k & -> & Hk)|(k & Hk & ->)].
  - right. exists k. by rewrite Hd, <- app_assoc.
  - destruct k as [|x k].
    + right. exists []. rewrite app_nil_r in Hk. by rewrite Hd, <- Hk, app_nil_r.
    + left. by apply (line_cut str pos c line p (x :: k)).
Qed.

Definition cut_incomplete (v : RespValue) : Prop := forall f str pos q,
  small_str str -> small_str (Serialize v) ->
  drop pos str ++ q = Serialize v -> q <> [] -> (length str - pos + 2 <= f)%nat ->
  is_incomplete (ParseVariant f str pos) = true.

(** The reduction to a cut after the type byte. *)
Lemma cut_incomplete_after v c t :
  Serialize v = c :: t ->
  (forall f str pos p q, small_str str -> small_str (Serialize v) ->
     drop pos str = c :: p -> p ++ q = t -> q <> [] -> (length str - pos + 2 <= S f)%nat ->
     is_incomplete (parse_by_type f str pos c) = true) ->
  cut_incomplete v.
Proof.
  intros Hv H [|f] str pos q Hs Hsv Hd Hq Hf; [lia|].
  destruct (drop pos str) as [|c' p] eqn:Hp.
  - cbn [ParseVariant]. rewrite (proj2 (Nat.leb_le _ _)); [done|].
    apply (f_equal length) in Hp. rewrite length_drop in Hp. cbn in Hp. lia.
  - rewrite Hv in Hd. injection Hd as -> Ht. rewrite (ParseVariant_type _ _ _ _ _ Hp).
    by eapply H.
Qed.

Lemma simple_string_cut s : find_sub crlf s = None -> cut_incomplete (RespSimpleString s).
Proof.
  intros Hv. eapply cut_incomplete_after; [reflexivity|].
  intros f str pos p q Hs _ Hd Ht Hq _. unfold parse_by_type, ParseSimpleString.
  by rewrite (line_cut _ _ _ _ _ _ Hd Ht Hq Hv).
Qed.

Lemma simple_error_cut s : find_sub crlf s = None -> cut_incomplete (RespSimpleError s).
Proof.
  intros Hv. eapply cut_incomplete_after; [reflexivity|].
  intros f str pos p q Hs _ Hd Ht Hq _. unfold parse_by_type, ParseSimpleError.
  by rewrite (line_cut _ _ _ _ _ _ Hd Ht Hq Hv).
Qed.

Lemma integer_cut n : cut_incomplete (RespInteger n).
Proof.
  eapply cut_incomplete_after; [reflexivity|].
  intros f str pos p q Hs _ Hd Ht Hq _. unfold parse_by_type, ParseInteger.
  by rewrite (line_cut _ _ _ _ _ _ Hd Ht Hq (to_string_no_crlf n)).
Qed.

Lemma bulk_string_cut o : cut_incomplete (RespBulkString o).
Proof.
  destruct o as [s|]; (eapply cut_incomplete_after; [reflexivity|]);
    intros f str pos p q Hs Hsv Hd Ht Hq _; unfold parse_by_type, ParseBulkString.
  2: by rewrite (line_cut _ _ _ (lit "-1") _ _ Hd Ht Hq eq_refl).
  set (n := Z.of_nat (length s)) in *.
  destruct (header_cut _ _ _ _ _ _ _ Hd Ht Hq (to_string_no_crlf n)) as [->|(k & Hk & Hkq)]; [done|].
  assert (in_int64 n = true) as Hn.
  { apply small_length_int64. unfold small_str in Hsv. cbn [Serialize] in Hsv.
    rewrite !length_app in Hsv. lia. }
  destruct (line_complete str pos "$" (to_string n) k) as (Hf & Hsub & Hr & _);
    [done|apply to_string_no_crlf|].
  rewrite Hf, Hsub. cbn [Ascii.eqb Bool.eqb mbind res_bind].
  rewrite stoll_to_string by done. cbn [mbind res_bind].
  set (p' := (pos + 1 + length (to_string n) + 2)%nat) in *.
  apply find_bound in Hf. cbn [length crlf] in Hf.
  rewrite (proj2 (Z.eqb_neq _ _)), (proj2 (Z.leb_gt _ _)) by lia.
  destruct (bulk_sums_small str p' n) as [Hw1 Hw2]; [done|lia|done|lia|]. rewrite Hw2.
  rewrite (proj2 (Z.ltb_lt (Z.of_nat (length str)) _)), orb_true_r; [done|].
  apply (f_equal length) in Hr, Hkq. rewrite length_drop in Hr.
  rewrite !length_app in Hkq. cbn [length crlf] in Hkq.
  destruct q; [done|]. cbn [length] in Hkq. subst p' n. lia.
Qed.

Lemma elements_cut l : Forall (fun v => serializable v /\ cut_incomplete v) l ->
  forall f str i n pos acc q,
  small_str str -> small_str (flat_map Serialize l) ->
  drop pos str ++ q = flat_map Serialize l -> q <> [] ->
  n = i + Z.of_nat (length l) -> (length str - pos + 3 <= f)%nat ->
  is_incomplete (ParseElements f str i n pos acc) = true.
Proof.
  induction 1 as [|v l [Hv Hc] _ IH]; intros f str i n pos acc q Hs Hsl Hd Hq -> Hf.
  { cbn in Hd. by apply app_nil in Hd as [_ ?]. }
  destruct f as [|f]; [lia|]. cbn [ParseElements].
  rewrite (proj2 (Z.ltb_lt _ _)) by (cbn; lia).
  destruct (length str <=? pos)%nat eqn:Hp; [done|]. reflect_bools.
  cbn [flat_map] in *. pose proof (small_str_app _ _ Hsl) as Hsv.
  assert (small_str (flat_map Serialize l)) as Hsl'.
  { unfold small_str in *. rewrite length_app in Hsl. lia. }
  assert ((exists k, drop pos str = Serialize v ++ k /\ k ++ q = flat_map Serialize l)
          \/ exists x k, drop pos str ++ x :: k = Serialize v) as [(k & Hk & Hkq)|(x & k & Hk)].
  { apply app_eq_inv in Hd as [(k & Hk & Hkq)|([|x k] & Hk & ->)]; [by eauto| |by eauto].
    left. exists []. by rewrite app_nil_r in *. }
  - rewrite (Serialize_reads_back v Hv f str pos k Hs Hk) by lia. cbn [mbind res_bind].
    pose proof (drop_split _ _ _ _ Hk) as Hk'.
    destruct (Serialize_cons v) as (c & t & Hct).
    eapply IH with (q := q); try done; [by rewrite Hk'|cbn; lia|rewrite Hct; cbn; lia].
  - apply is_incomplete_bind. eapply (Hc f str pos (x :: k)); [done..|lia].
Qed.

Lemma array_cut l :
  Forall (fun v => serializable v /\ cut_incomplete v) l -> cut_incomplete (RespArray l).
Proof.
  intros Hl. eapply cut_incomplete_after; [reflexivity|].
  intros f str pos p q Hs Hsv Hd Ht Hq Hf. unfold parse_by_type. cbn [Ascii.eqb Bool.eqb].
  apply is_incomplete_bind. destruct f as [|f].
  { apply drop_cons_lt in Hd. lia. }
  cbn [ParseArray]. set (n := Z.of_nat (length l)) in *.
  destruct (header_cut _ _ _ _ _ _ _ Hd Ht Hq (to_string_no_crlf n)) as [->|(k & Hk & Hkq)]; [done|].
  assert (small_str (flat_map Serialize l)) as Hsl.
  { unfold small_str in *. cbn [Serialize] in Hsv. rewrite !length_app in Hsv. lia. }
  assert (in_int64 n = true) as Hn.
  { apply small_length_int64. unfold small_str in Hsl.
    pose proof (length_flat_map_Serialize l). lia. }
  destruct (line_complete str pos "*" (to_string n) k) as (Hfi & Hsub & Hr & _);
    [done|apply to_string_no_crlf|].
  rewrite Hfi, Hsub. cbn [mbind res_bind]. rewrite stoll_to_string by done. cbn [mbind res_bind].
  rewrite (proj2 (Z.ltb_ge _ _)) by lia. apply find_bound in Hfi. cbn [length crlf] in Hfi.
  eapply (elements_cut l Hl) with (q := q); try done; [by rewrite Hr|lia].
Qed.

Lemma Serialize_cut v : serializable v -> cut_incomplete v.
Proof.
  induction v as [s|m|n|o|l IH] using RespValue_rect'; intros Hv.
  - by apply simple_string_cut.
  - by apply simple_error_cut.
  - apply integer_cut.
  - apply bulk_string_cut.
  - apply array_cut. apply serializable_array in Hv.
    eapply Forall_impl; [apply Forall_and; split; [exact IH|exact Hv]|].
    intros v [H ?]. split; [done|by apply H].
Qed.

(** ** Theorems *)

(** [FromString] does not depend on the fuel once there is enough of it. *)
Lemma FromString_fuel str f :
  small_str str -> (parse_fuel str <= f)%nat -> ParseVariant f str 0 = FromString str.
Proof.
  intros Hs Hf. apply fuel_le_eq; [by apply ParseVariant_fuel_mono|].
  apply Parse_fuel_enough; [done|]. unfold parse_fuel. lia.
Qed.

Lemma FromString_settled str t :
  small_str (str ++ t) -> settled (FromString str) -> FromString (str ++ t) = FromString str.
Proof.
  intros Hs Hset. pose proof (proj1 (Parse_extend str t Hs (parse_fuel str)) 0%nat Hset) as H.
  change (ParseVariant (parse_fuel str) str 0) with (FromString str) in H. rewrite <- H.
  apply fuel_le_eq.
  - apply ParseVariant_fuel_mono. unfold parse_fuel. rewrite length_app. lia.
  - rewrite H. by destruct (FromString str).
Qed.

Lemma FromString_reads_back v rest :
  serializable v -> small_str (Serialize v ++ rest) ->
  FromString (Serialize v ++ rest) = Ok (v, length (Serialize v)).
Proof.
  intros Hv Hs. unfold FromString.
  rewrite (Serialize_reads_back v Hv _ _ 0%nat rest); [done|done|done|]. unfold parse_fuel. lia.
Qed.

Lemma FromString_cut v p q :
  serializable v -> small_str (Serialize v) -> p ++ q = Serialize v -> q <> [] ->
  is_incomplete (FromString p) = true.
Proof.
  intros Hv Hs Hpq Hq. apply (Serialize_cut v Hv _ p 0%nat q); try done.
  - rewrite <- Hpq in Hs. by eapply small_str_app.
  - unfold parse_fuel. lia.
Qed.

Lemma FromString_bound str v n :
  small_str str -> FromString str = Ok (v, n) -> (0 < n <= length str)%nat.
Proof. intros Hs H. by apply (Parse_bound str Hs) in H. Qed.

(** C11. Parsing is a left inverse of serializing: whatever bytes follow, the
    serialization of a value (with no CRLF inside a simple string or error and
    64-bit integers) parses to that value and consumes exactly its bytes. *)
Theorem FromString_Serialize v rest :
  serializable v -> small_str (Serialize v ++ rest) ->
  FromString (Serialize v ++ rest) = Ok (v, length (Serialize v)).
Proof. apply FromString_reads_back. Qed.

Definition sample_value : RespValue :=
  RespArray [RespBulkString (Some (lit "SET")); RespBulkString None; RespInteger (-7);
             RespArray [RespSimpleString (lit "OK"); RespSimpleError (lit "ERR")]].

Lemma FromString_Serialize_witness :
  FromString (Serialize sample_value ++ lit "+next") = Ok (sample_value, length (Serialize sample_value)).
Proof. apply FromString_Serialize; [vm_compute; tauto|vm_compute; reflexivity]. Defined.

(** A value of which only a proper prefix has arrived is reported as
    incomplete ([std::out_of_range]), never as malformed and never as a value. *)
Theorem FromString_truncated v p q :
  serializable v -> small_str (Serialize v) -> p ++ q = Serialize v -> q <> [] ->
  is_incomplete (FromString p) = true.
Proof. apply FromString_cut. Qed.

Lemma FromString_truncated_witness :
  is_incomplete (FromString (take 20 (Serialize sample_value))) = true.
Proof.
  apply (FromString_truncated sample_value _ (drop 20 (Serialize sample_value)));
    [vm_compute; tauto|vm_compute; reflexivity|apply take_drop|vm_compute; discriminate].
Defined.

(** A verdict is final: once the parser gives a value or
    [std::invalid_argument] on some input, it gives the same on every
    continuation of that input. *)
Theorem FromString_extend str t :
  small_str (str ++ t) -> settled (FromString str) -> FromString (str ++ t) = FromString str.
Proof. apply FromString_settled. Qed.

Lemma FromString_extend_witness :
  FromString (lit "@bad" ++ lit "anything") = FromString (lit "@bad").
Proof. apply FromString_extend; [vm_compute; reflexivity|vm_compute; exact I]. Defined.

(** C29. The parser always returns or throws: the recursion ends on every
    input, no byte outside the string is read, and a value that is returned
    has consumed at least one and at most all of the bytes. *)
Theorem FromString_total str :
  small_str str ->
  FromString str <> NoFuel /\ defined (FromString str)
  /\ (forall v n, FromString str = Ok (v, n) -> (0 < n <= length str)%nat).
Proof.
  intros Hs. split_and!.
  - apply Parse_fuel_enough; [done|]. unfold parse_fuel. lia.
  - by apply regular_defined, Parse_regular.
  - intros v n. by apply FromString_bound.
Qed.

Lemma FromString_total_witness :
  FromString (lit "*3" ++ crlf ++ lit ":1") <> NoFuel
  /\ defined (FromString (lit "*3" ++ crlf ++ lit ":1"))
  /\ (forall v n, FromString (lit "*3" ++ crlf ++ lit ":1") = Ok (v, n) -> (0 < n <= 6)%nat).
Proof. apply (FromString_total (lit "*3" ++ crlf ++ lit ":1")). vm_compute. reflexivity. Defined.
