(* ===== verification/RespValueQueue.v ===== *)
(** * The incremental parser: [v2/src/resp_value/resp_value_queue.{h,cc}]

    A buffer of received bytes and a queue of parsed values.  [PopValue] parses
    everything it can, catches [std::out_of_range] (incomplete input) and lets
    [std::invalid_argument] through.  [pop_all] is the loop its two callers
    run (the IO thread's [EmitParsedCommands] and the client's
    [ReceiverWorker]).

    The relation [parses] says which values a byte stream contains and what is
    left over; the theorems show that the queue extracts exactly those,
    however the stream was cut into chunks. *)

From S2P Require Import Prelude CxxString RespValue.

Record RespValueQueue := mkQueue {
  buffer_ : bytes;
  values_ : list RespValue
}.

Definition empty_queue : RespValueQueue := mkQueue [] [].

Definition PushString (q : RespValueQueue) (str : bytes) : RespValueQueue :=
  mkQueue (buffer_ q ++ str) (values_ q).

(** The [while (true)] loop inside the [try] of [PopValue]: the queue it leaves
    behind, and [Ok] when it was ended by [std::out_of_range]. *)
Fixpoint parse_loop (fuel : nat) (q : RespValueQueue) : RespValueQueue * res unit :=
  match fuel with
  | O => (q, NoFuel)
  | S f =>
      match FromString (buffer_ q) with
      | Ok (val, pos) =>
          parse_loop f
            (mkQueue (if (pos <? length (buffer_ q))%nat then drop pos (buffer_ q) else [])
                     (values_ q ++ [val]))
      | Throw (OutOfRange _) => (q, Ok tt)
      | Throw e => (q, Throw e)
      | Undef w => (q, Undef w)
      | NoFuel => (q, NoFuel)
      end
  end.

Definition PopValue (q : RespValueQueue) : RespValueQueue * res (option RespValue) :=
  let '(q, r) := parse_loop (S (length (buffer_ q))) q in
  (match r with Ok _ => mkQueue (buffer_ q) (tail (values_ q)) | _ => q end,
   _ ← r; Ok (head (values_ q))).

(** [while (std::optional<RespValue> v = q.PopValue()) batch.push_back(v)]. *)
Fixpoint pop_all_from (fuel : nat) (q : RespValueQueue) (batch : list RespValue)
    : RespValueQueue * res (list RespValue) :=
  match fuel with
  | O => (q, NoFuel)
  | S f =>
      match PopValue q with
      | (q, Ok (Some v)) => pop_all_from f q (batch ++ [v])
      | (q, Ok None) => (q, Ok batch)
      | (q, Throw e) => (q, Throw e)
      | (q, Undef w) => (q, Undef w)
      | (q, NoFuel) => (q, NoFuel)
      end
  end.

(** Every pop but the last takes a value, and a value takes at least a byte. *)
Definition pop_all (q : RespValueQueue) : RespValueQueue * res (list RespValue) :=
  pop_all_from (S (length (values_ q) + length (buffer_ q))) q [].

(** A connection's life: chunks arrive, each is pushed and everything popped. *)
Fixpoint feed (q : RespValueQueue) (chunks : list bytes) : RespValueQueue * res (list RespValue) :=
  match chunks with
  | [] => (q, Ok [])
  | c :: chunks =>
      match pop_all (PushString q c) with
      | (q, Ok vs) => let '(q', r) := feed q chunks in (q', (fun vs' => vs ++ vs') <$> r)
      | (q, Throw e) => (q, Throw e)
      | (q, Undef w) => (q, Undef w)
      | (q, NoFuel) => (q, NoFuel)
      end
  end.

(** ** Specification: what a byte stream contains *)

(** [parses b vs r]: [b] is the values [vs] followed by the incomplete [r]. *)
Inductive parses : bytes -> list RespValue -> bytes -> Prop :=
| parses_stop b :
    is_incomplete (FromString b) = true -> parses b [] b
| parses_step b v n vs r :
    FromString b = Ok (v, n) -> parses (drop n b) vs r -> parses b (v :: vs) r.

(** [malformed b vs r]: after the values [vs] comes [r], which is not RESP. *)
Inductive malformed : bytes -> list RespValue -> bytes -> Prop :=
| malformed_stop b w :
    FromString b = Throw (InvalidArgument w) -> malformed b [] b
| malformed_step b v n vs r :
    FromString b = Ok (v, n) -> malformed (drop n b) vs r -> malformed b (v :: vs) r.

(** ** Lemmas: the specification *)

Lemma small_str_drop_n b n : small_str b -> small_str (drop n b).
Proof. intros H. by eapply small_str_drop. Qed.

Lemma FromString_step b v n :
  small_str b -> FromString b = Ok (v, n) -> (length (drop n b) < length b)%nat.
Proof. intros Hs H. apply FromString_bound in H; [|done]. rewrite length_drop. lia. Qed.

Lemma FromString_cases b : small_str b ->
  is_incomplete (FromString b) = true
  \/ (exists v n, FromString b = Ok (v, n))
  \/ (exists w, FromString b = Throw (InvalidArgument w)).
Proof.
  intros Hs. pose proof (Parse_regular b Hs (parse_fuel b)) as [Hd _]. specialize (Hd 0%nat).
  pose proof (proj1 (Parse_fuel_enough b Hs (parse_fuel b)) 0%nat) as Hf.
  unfold FromString in *. destruct (ParseVariant _ b 0) as [[v n]|[]| |]; cbn in *; try by eauto.
  destruct Hf; [unfold parse_fuel; lia|done].
Qed.

(** Every stream is either parsed up to an incomplete rest or malformed. *)
Lemma parses_or_malformed b : small_str b ->
  (exists vs r, parses b vs r) \/ (exists vs r, malformed b vs r).
Proof.
  remember (length b) as n eqn:Hn. revert b Hn.
  induction n as [n IH] using lt_wf_ind. intros b -> Hs.
  destruct (FromString_cases b Hs) as [H|[(v & m & H)|(w & H)]].
  - left. eauto using parses.
  - destruct (IH _ (FromString_step _ _ _ Hs H) (drop m b) eq_refl) as [(vs & r & Hp)|(vs & r & Hp)];
      [by apply small_str_drop_n|left|right]; eauto using parses, malformed.
  - right. eauto using malformed.
Qed.

Lemma parses_rest b vs r : parses b vs r -> is_incomplete (FromString r) = true.
Proof. by induction 1. Qed.

(** Cutting a stream that parses: the first part parses, and its rest
    continued with the second part gives the remaining values. *)
Lemma parses_split x y vs r : small_str (x ++ y) -> parses (x ++ y) vs r ->
  exists vs1 r1 vs2, parses x vs1 r1 /\ parses (r1 ++ y) vs2 r /\ vs = vs1 ++ vs2.
Proof.
  remember (length x) as n eqn:Hn. revert x vs Hn.
  induction n as [n IH] using lt_wf_ind. intros x vs -> Hs Hp.
  pose proof (small_str_app _ _ Hs) as Hsx.
  destruct (FromString_cases x Hsx) as [H|[(v & m & H)|(w & H)]].
  - exists [], x, vs. eauto using parses.
  - pose proof (FromString_settled x y Hs) as He. rewrite H in He. specialize (He I).
    inversion Hp as [b Hi|b v' n' vs' r' Hb Hp']; subst; rewrite He in *; [done|].
    injection Hb as <- <-. pose proof (FromString_bound _ _ _ Hsx H) as Hm.
    rewrite drop_app_le in Hp' by lia.
    destruct (IH _ (FromString_step _ _ _ Hsx H) (drop m x) vs' eq_refl) as (vs1 & r1 & vs2 & H1 & H2 & ->);
      [|done|].
    { rewrite <- drop_app_le by lia. by apply small_str_drop_n. }
    exists (v :: vs1), r1, vs2. eauto using parses.
  - pose proof (FromString_settled x y Hs) as He. rewrite H in He. specialize (He I).
    inversion Hp; subst; rewrite He in *; done.
Qed.

(** A stream that goes on: the values of its first part stay, and the rest is
    read from what was left over. *)
Lemma FromString_more x y v n : small_str (x ++ y) -> FromString x = Ok (v, n) ->
  FromString (x ++ y) = Ok (v, n) /\ drop n (x ++ y) = drop n x ++ y.
Proof.
  intros Hs Hv. pose proof (FromString_settled x y Hs) as He. rewrite Hv in He.
  pose proof (FromString_bound _ _ _ (small_str_app _ _ Hs) Hv) as Hn.
  split; [by apply He|]. apply drop_app_le. lia.
Qed.

Lemma parses_extend x y vs r vs' r' : small_str (x ++ y) -> parses x vs r ->
  parses (r ++ y) vs' r' -> parses (x ++ y) (vs ++ vs') r'.
Proof.
  intros Hs Hp Hy. induction Hp as [|x v n vs r Hv _ IH]; [done|].
  destruct (FromString_more x y v n Hs Hv) as [Hv' Hd]. econstructor; [done|]. rewrite Hd.
  apply IH; [|done]. rewrite <- Hd. by apply small_str_drop_n.
Qed.

Lemma malformed_extend x y vs r vs' r' : small_str (x ++ y) -> parses x vs r ->
  malformed (r ++ y) vs' r' -> malformed (x ++ y) (vs ++ vs') r'.
Proof.
  intros Hs Hp Hy. induction Hp as [|x v n vs r Hv _ IH]; [done|].
  destruct (FromString_more x y v n Hs Hv) as [Hv' Hd]. econstructor; [done|]. rewrite Hd.
  apply IH; [|done]. rewrite <- Hd. by apply small_str_drop_n.
Qed.

(** ** Lemmas: the operations meet the specification *)

Lemma drop_or_clear (b : bytes) n :
  (if (n <? length b)%nat then drop n b else []) = drop n b.
Proof. destruct (n <? length b)%nat eqn:E; reflect_bools; [done|]. by rewrite drop_ge. Qed.

Lemma parse_loop_parses b vs r : parses b vs r -> forall vals f,
  small_str b -> (length b < f)%nat ->
  parse_loop f (mkQueue b vals) = (mkQueue r (vals ++ vs), Ok tt).
Proof.
  induction 1 as [b Hi|b v n vs r Hv _ IH]; intros vals f Hs Hf;
    (destruct f as [|f]; [lia|]); cbn [parse_loop buffer_ values_].
  - destruct (FromString b) as [|[]| |]; try done. by rewrite app_nil_r.
  - rewrite Hv, drop_or_clear. apply FromString_step in Hv; [|done].
    rewrite IH by (try apply small_str_drop_n; done || lia). by rewrite <- app_assoc.
Qed.

Lemma parse_loop_malformed b vs r : malformed b vs r -> exists w, forall vals f,
  small_str b -> (length b < f)%nat ->
  parse_loop f (mkQueue b vals) = (mkQueue r (vals ++ vs), Throw (InvalidArgument w)).
Proof.
  induction 1 as [b w Hw|b v n vs r Hv _ [w IH]]; exists w; intros vals f Hs Hf;
    (destruct f as [|f]; [lia|]); cbn [parse_loop buffer_ values_].
  - rewrite Hw. by rewrite app_nil_r.
  - rewrite Hv, drop_or_clear. apply FromString_step in Hv; [|done].
    rewrite IH by (try apply small_str_drop_n; done || lia). by rewrite <- app_assoc.
Qed.

Lemma PopValue_parses b vs r vals : small_str b -> parses b vs r ->
  PopValue (mkQueue b vals) = (mkQueue r (tail (vals ++ vs)), Ok (head (vals ++ vs))).
Proof.
  intros Hs Hp. unfold PopValue. cbn [buffer_].
  by rewrite (parse_loop_parses b vs r Hp) by (done || lia).
Qed.

Lemma pop_all_from_parsed r vals : is_incomplete (FromString r) = true -> small_str r ->
  forall f batch, (length vals < f)%nat ->
  pop_all_from f (mkQueue r vals) batch = (mkQueue r [], Ok (batch ++ vals)).
Proof.
  intros Hi Hs. assert (parses r [] r) as Hp by (by constructor).
  induction vals as [|v vals IH]; intros f batch Hf; (destruct f as [|f]; [cbn in Hf; lia|]);
    cbn [pop_all_from]; rewrite (PopValue_parses r [] r _ Hs Hp), app_nil_r; cbn [head tail].
  - by rewrite app_nil_r.
  - rewrite IH by (cbn in Hf; lia). by rewrite <- app_assoc.
Qed.

Lemma parses_length b vs r : small_str b -> parses b vs r ->
  (length vs <= length b /\ length r <= length b)%nat.
Proof.
  intros Hs Hp. induction Hp as [b|b v n vs r Hv Hp IH]; [cbn; lia|].
  pose proof (FromString_step _ _ _ Hs Hv). cbn.
  destruct IH; [by apply small_str_drop_n|lia].
Qed.

Lemma pop_all_parses b vs r vals : small_str b -> parses b vs r ->
  pop_all (mkQueue b vals) = (mkQueue r [], Ok (vals ++ vs)).
Proof.
  intros Hs Hp. unfold pop_all. cbn [buffer_ values_ pop_all_from].
  rewrite (PopValue_parses b vs r vals Hs Hp). pose proof (parses_length b vs r Hs Hp) as [Hl Hr].
  pose proof (parses_rest b vs r Hp) as Hi.
  destruct (vals ++ vs) as [|v l] eqn:E; cbn [head tail]; [done|].
  apply (f_equal length) in E. rewrite length_app in E. cbn in E.
  rewrite pop_all_from_parsed; [done|done| |lia]. unfold small_str in *. lia.
Qed.

Lemma pop_all_malformed b vs r vals : small_str b -> malformed b vs r ->
  exists w, pop_all (mkQueue b vals) = (mkQueue r (vals ++ vs), Throw (InvalidArgument w)).
Proof.
  intros Hs Hm. destruct (parse_loop_malformed b vs r Hm) as [w Hw]. exists w.
  unfold pop_all. cbn [buffer_ values_ pop_all_from]. unfold PopValue. cbn [buffer_].
  by rewrite Hw by (done || lia).
Qed.

Lemma feed_parses chunks b vs r : small_str (b ++ concat chunks) ->
  is_incomplete (FromString b) = true ->
  parses (b ++ concat chunks) vs r -> feed (mkQueue b []) chunks = (mkQueue r [], Ok vs).
Proof.
  revert b vs. induction chunks as [|c chunks IH]; intros b vs Hs Hi Hp; cbn [concat feed] in *.
  - rewrite app_nil_r in *. inversion Hp as [|? ? ? ? ? Hb]; subst; [done|]. by rewrite Hb in Hi.
  - rewrite app_assoc in *. pose proof (small_str_app _ _ Hs) as Hs1.
    destruct (parses_split _ _ _ _ Hs Hp) as (vs1 & r1 & vs2 & H1 & H2 & ->).
    unfold PushString. cbn [buffer_ values_]. rewrite (pop_all_parses _ _ _ _ Hs1 H1).
    rewrite (IH r1 vs2); [done| |by eapply parses_rest|done].
    pose proof (parses_length _ _ _ Hs1 H1). unfold small_str in *.
    rewrite !length_app in *. lia.
Qed.

Lemma parses_serialized vs :
  Forall serializable vs -> small_str (flat_map Serialize vs) -> parses (flat_map Serialize vs) vs [].
Proof.
  induction 1 as [|v vs Hv _ IH]; intros Hs; cbn [flat_map] in *; [by constructor|].
  econstructor; [by apply FromString_reads_back|].
  rewrite drop_app_length. apply IH. unfold small_str in *. rewrite length_app in Hs. lia.
Qed.

Lemma malformed_split x y vs r : small_str (x ++ y) -> malformed (x ++ y) vs r ->
  (exists vs1 r1, malformed x vs1 r1)
  \/ exists vs1 r1 vs2, parses x vs1 r1 /\ malformed (r1 ++ y) vs2 r.
Proof.
  remember (length x) as n eqn:Hn. revert x vs Hn.
  induction n as [n IH] using lt_wf_ind. intros x vs -> Hs Hp.
  pose proof (small_str_app _ _ Hs) as Hsx.
  destruct (FromString_cases x Hsx) as [H|[(v & m & H)|(w & H)]].
  - right. exists [], x, vs. eauto using parses.
  - pose proof (FromString_settled x y Hs) as He. rewrite H in He. specialize (He I).
    inversion Hp as [b w Hw|b v' n' vs' r' Hb Hp']; subst; rewrite He in *; [done|].
    injection Hb as <- <-. pose proof (FromString_bound _ _ _ Hsx H) as Hm.
    rewrite drop_app_le in Hp' by lia.
    destruct (IH _ (FromString_step _ _ _ Hsx H) (drop m x) vs' eq_refl)
      as [(vs1 & r1 & H1)|(vs1 & r1 & vs2 & H1 & H2)]; [|done|left|right].
    + rewrite <- drop_app_le by lia. by apply small_str_drop_n.
    + eauto using malformed.
    + exists (v :: vs1), r1, vs2. eauto using parses.
  - left. eauto using malformed.
Qed.

Lemma feed_malformed chunks b vs r : small_str (b ++ concat chunks) ->
  is_incomplete (FromString b) = true -> malformed (b ++ concat chunks) vs r ->
  exists w, snd (feed (mkQueue b []) chunks) = Throw (InvalidArgument w).
Proof.
  revert b vs. induction chunks as [|c chunks IH]; intros b vs Hs Hi Hm; cbn [concat feed] in *.
  - rewrite app_nil_r in *. inversion Hm as [? ? Hb|? ? ? ? ? Hb]; subst; by rewrite Hb in Hi.
  - rewrite app_assoc in *. pose proof (small_str_app _ _ Hs) as Hs1.
    unfold PushString. cbn [buffer_ values_].
    destruct (malformed_split _ _ _ _ Hs Hm) as [(vs1 & r1 & H1)|(vs1 & r1 & vs2 & H1 & H2)].
    + destruct (pop_all_malformed _ _ _ [] Hs1 H1) as [w ->]. by exists w.
    + rewrite (pop_all_parses _ _ _ _ Hs1 H1).
      destruct (IH r1 vs2) as [w Hw]; [|by eapply parses_rest|done|].
      { pose proof (parses_length _ _ _ Hs1 H1). unfold small_str in *.
        rewrite !length_app in *. lia. }
      destruct (feed (mkQueue r1 []) chunks) as [q' r']. cbn in Hw |- *. rewrite Hw. by exists w.
Qed.

Lemma pop_all_stuck b more : (forall t, is_incomplete (FromString (b ++ t)) = true) ->
  small_str (b ++ more) ->
  pop_all (PushString (mkQueue b []) more) = (mkQueue (b ++ more) [], Ok []).
Proof.
  intros Hb Hs. unfold PushString. cbn [buffer_ values_].
  rewrite (pop_all_parses _ [] (b ++ more)); [done|done|by constructor].
Qed.

(** ** Theorems *)

(** C12. However the network cuts a stream of serialized values into chunks,
    the queue hands out exactly those values, in order, and keeps no bytes.  The
    values are ones RESP can carry ([serializable]: simple strings and errors
    without line breaks, integers of 64 bits) and the stream is shorter than
    the longest [std::string]. *)
Theorem feed_serialized chunks vs :
  Forall serializable vs -> concat chunks = flat_map Serialize vs ->
  small_str (concat chunks) ->
  feed empty_queue chunks = (empty_queue, Ok vs).
Proof.
  intros Hv Hc Hs. apply feed_parses; [done|done|]. cbn [app]. rewrite Hc in *.
  by apply parses_serialized.
Qed.

Lemma feed_serialized_witness :
  feed empty_queue [lit "*1" ++ [CR]; LF :: lit "$4" ++ crlf ++ lit "PI"; lit "NG" ++ crlf ++ lit ":1" ++ [CR]; [LF]]
  = (empty_queue, Ok [RespArray [RespBulkString (Some (lit "PING"))]; RespInteger 1]).
Proof.
  apply feed_serialized;
    [repeat constructor|vm_compute; reflexivity|vm_compute; reflexivity].
Defined.

(** Chunk boundaries do not matter, for every byte stream: if one way of
    cutting it is accepted, every other way gives the same values and leaves
    the same bytes. *)
Theorem feed_chunking c1 c2 :
  small_str (concat c1) -> concat c1 = concat c2 ->
  is_ok (snd (feed empty_queue c1)) = true ->
  feed empty_queue c2 = feed empty_queue c1.
Proof.
  intros Hs Hc Hok. destruct (parses_or_malformed (concat c1) Hs) as [(vs & r & H)|(vs & r & H)].
  - unfold empty_queue. by rewrite !(feed_parses _ [] vs r) by (cbn; congruence).
  - exfalso. destruct (feed_malformed c1 [] vs r Hs eq_refl H) as [w Hw].
    unfold empty_queue in Hok. by rewrite Hw in Hok.
Qed.

Lemma feed_chunking_witness :
  feed empty_queue [lit "+a" ++ crlf ++ lit "$5" ++ crlf] = feed empty_queue [lit "+"; lit "a" ++ [CR]; LF :: lit "$5" ++ crlf].
Proof.
  apply (feed_chunking [lit "+"; lit "a" ++ [CR]; LF :: lit "$5" ++ crlf]);
    vm_compute; reflexivity.
Defined.

(** A malformed stream is rejected with [std::invalid_argument] however it
    is cut into chunks. *)
Theorem feed_rejects chunks vs r :
  small_str (concat chunks) -> malformed (concat chunks) vs r ->
  exists w, snd (feed empty_queue chunks) = Throw (InvalidArgument w).
Proof. intros Hs. by apply (feed_malformed chunks []). Qed.

Lemma feed_rejects_witness :
  exists w, snd (feed empty_queue [lit "+a"; crlf ++ lit "@"]) = Throw (InvalidArgument w).
Proof.
  apply (feed_rejects [lit "+a"; crlf ++ lit "@"] [RespSimpleString (lit "a")] (lit "@")).
  - vm_compute. reflexivity.
  - eapply malformed_step; [vm_compute; reflexivity|]. eapply malformed_stop. vm_compute. reflexivity.
Defined.

(** [PopValue] returns the oldest value that was parsed and not yet
    popped, or reports a malformed stream; its loop always ends. *)
Theorem PopValue_spec q :
  small_str (buffer_ q) ->
  (exists vs r, parses (buffer_ q) vs r
     /\ PopValue q = (mkQueue r (tail (values_ q ++ vs)), Ok (head (values_ q ++ vs))))
  \/ (exists vs r w, malformed (buffer_ q) vs r
     /\ PopValue q = (mkQueue r (values_ q ++ vs), Throw (InvalidArgument w))).
Proof.
  intros Hs. destruct q as [b vals]. cbn [buffer_ values_] in *.
  destruct (parses_or_malformed b Hs) as [(vs & r & H)|(vs & r & H)]; [left|right].
  - exists vs, r. split; [done|by apply PopValue_parses].
  - destruct (parse_loop_malformed b vs r H) as [w Hw]. exists vs, r, w. split; [done|].
    unfold PopValue. cbn [buffer_]. by rewrite Hw by (done || lia).
Qed.

Lemma PopValue_spec_witness :
  (exists vs r, parses (lit ":5" ++ crlf) vs r
     /\ PopValue (mkQueue (lit ":5" ++ crlf) []) = (mkQueue r (tail vs), Ok (head vs)))
  \/ (exists vs r w, malformed (lit ":5" ++ crlf) vs r
     /\ PopValue (mkQueue (lit ":5" ++ crlf) []) = (mkQueue r vs, Throw (InvalidArgument w))).
Proof. apply (PopValue_spec (mkQueue (lit ":5" ++ crlf) [])). vm_compute. reflexivity. Defined.

(** An integer that does not fit 64 bits blocks its connection: [std::stoll]
    throws [std::out_of_range], which [PopValue] takes for incomplete input, so
    no later bytes are ever turned into values. *)
Theorem overlong_integer_blocks z more :
  in_int64 z = false ->
  let b := lit ":" ++ to_string z ++ crlf in
  small_str (b ++ more) ->
  pop_all (PushString (mkQueue b []) more) = (mkQueue (b ++ more) [], Ok []).
Proof.
  intros Hz b Hs. apply pop_all_stuck; [|done]. intros t. unfold FromString, parse_fuel, b.
  assert (drop 0 (b ++ t) = ":"%char :: to_string z ++ crlf ++ t) as Hd.
  { unfold b. by rewrite <- !app_assoc. }
  destruct (line_complete _ _ _ _ _ Hd (to_string_no_crlf z)) as (Hf & Hsub & _).
  rewrite Nat.add_comm. cbn [Nat.add]. fold b. at_type Hd. unfold ParseInteger.
  rewrite Hf, Hsub. cbn [mbind res_bind]. by rewrite stoll_printed, Hz.
Qed.

Lemma overlong_integer_blocks_witness :
  pop_all (PushString (mkQueue (lit ":" ++ to_string (2 ^ 63) ++ crlf) []) (lit "+PING" ++ crlf))
  = (mkQueue (lit ":9223372036854775808" ++ crlf ++ lit "+PING" ++ crlf) [], Ok []).
Proof. apply (overlong_integer_blocks (2 ^ 63) (lit "+PING" ++ crlf)); vm_compute; reflexivity. Defined.
