(* ===== verification/Serialise.v ===== *)
(** * JSON literals: [v2/src/store/serialise.{h,cc}]

    The escaping printer [AppendJsonString], whitespace skipping, and the
    parsers of string and integer literals, positional like the source.
    Theorems: every byte string survives printing and parsing, in any context;
    the parsers stay inside their input and fail only with
    [std::invalid_argument]. *)

From S2P Require Import Prelude CxxString.

Definition kFirstPrintable : Z := 32.
Definition kNibbleMask : Z := 15.
Definition kHex : bytes := lit "0123456789abcdef".
Definition quote : ascii := chr 34.

(** One iteration of the loop of [AppendJsonString]: the bytes appended for a
    character. *)
Definition escape_char (character : ascii) : bytes :=
  if Ascii.eqb character quote then ["\"%char; quote]
  else if Ascii.eqb character "\" then lit "\\"
  else if Ascii.eqb character (chr 8) then lit "\b"
  else if Ascii.eqb character (chr 12) then lit "\f"
  else if Ascii.eqb character LF then lit "\n"
  else if Ascii.eqb character CR then lit "\r"
  else if Ascii.eqb character (chr 9) then lit "\t"
  else if code character <? kFirstPrintable then
    lit "\u00"
    ++ [nth (Z.to_nat (Z.land (Z.shiftr (code character) 4) kNibbleMask)) kHex (chr 0);
        nth (Z.to_nat (Z.land (code character) kNibbleMask)) kHex (chr 0)]
  else [character].

Definition AppendJsonString (value out : bytes) : bytes :=
  fold_left (fun out character => out ++ escape_char character) value (out ++ [quote]) ++ [quote].

Definition is_json_space (c : ascii) : bool :=
  Ascii.eqb c " " || Ascii.eqb c (chr 9) || Ascii.eqb c LF || Ascii.eqb c CR.

(** The loop of [SkipWhitespace], on the bytes from [pos] on. *)
Fixpoint skip_whitespace_from (s : bytes) (pos : nat) : nat :=
  match s with
  | c :: s => if is_json_space c then skip_whitespace_from s (S pos) else pos
  | [] => pos
  end.

Definition SkipWhitespace (data : bytes) (pos : nat) : nat :=
  skip_whitespace_from (drop pos data) pos.

Definition HexValue (c : ascii) : Z :=
  if (48 <=? code c) && (code c <=? 57) then code c - 48
  else if (97 <=? code c) && (code c <=? 102) then code c - 97 + 10
  else if (65 <=? code c) && (code c <=? 70) then code c - 65 + 10
  else -1.

(** The [for] loop of the [\u] escape over the next four characters. *)
Fixpoint hex_code (code : Z) (cs : bytes) : res Z :=
  match cs with
  | [] => Ok code
  | c :: cs =>
      let nibble := HexValue c in
      if nibble <? 0 then Throw (InvalidArgument "invalid \u escape")
      else hex_code (Z.lor (Z.shiftl code 4) nibble) cs
  end.

(** The characters of the one-letter escapes. *)
Definition simple_escape (escape : ascii) : option ascii :=
  if Ascii.eqb escape quote then Some quote
  else if Ascii.eqb escape "\" then Some "\"%char
  else if Ascii.eqb escape "/" then Some "/"%char
  else if Ascii.eqb escape "b" then Some (chr 8)
  else if Ascii.eqb escape "f" then Some (chr 12)
  else if Ascii.eqb escape "n" then Some LF
  else if Ascii.eqb escape "r" then Some CR
  else if Ascii.eqb escape "t" then Some (chr 9)
  else None.

(** The loop of [ParseJsonString] after the opening quote; [s] is what remains
    of [data] from [pos] on. *)
Fixpoint parse_string_body (s : bytes) (pos : nat) (out : bytes) : res (bytes * nat) :=
  match s with
  | [] => Throw (InvalidArgument "unterminated string")
  | character :: s =>
      if Ascii.eqb character quote then Ok (out, (pos + 1)%nat)
      else if negb (Ascii.eqb character "\") then
        parse_string_body s (pos + 1) (out ++ [character])
      else
        match s with
        | [] => Throw (InvalidArgument "dangling escape")
        | escape :: s =>
            match simple_escape escape with
            | Some c => parse_string_body s (pos + 2) (out ++ [c])
            | None =>
                if Ascii.eqb escape "u" then
                  match s with
                  | c1 :: c2 :: c3 :: c4 :: s =>
                      match hex_code 0 [c1; c2; c3; c4] with
                      | Ok code =>
                          if 255 <? code then Throw (InvalidArgument "unsupported \u escape")
                          else parse_string_body s (pos + 6) (out ++ [chr code])
                      | Throw e => Throw e
                      | Undef w => Undef w
                      | NoFuel => NoFuel
                      end
                  | _ => Throw (InvalidArgument "truncated \u escape")
                  end
                else Throw (InvalidArgument "invalid escape")
            end
        end
  end.

Definition ParseJsonString (data : bytes) (pos : nat) : res (bytes * nat) :=
  match data !! pos with
  | Some c =>
      if Ascii.eqb c quote then parse_string_body (drop (pos + 1) data) (pos + 1) []
      else Throw (InvalidArgument "expected a quote to open string")
  | None => Throw (InvalidArgument "expected a quote to open string")
  end.

Definition ParseJsonInteger (data : bytes) (pos : nat) : res (Z * nat) :=
  match from_chars (drop pos data) with
  | FromCharsOk value ptr =>
      if (ptr =? 0)%nat then Throw (InvalidArgument "expected an integer")
      else Ok (value, (pos + ptr)%nat)
  | FromCharsInvalid | FromCharsRange _ => Throw (InvalidArgument "expected an integer")
  end.

(** ** Lemmas *)

(** The literal [AppendJsonString] produces for a string. *)
Definition json_string (value : bytes) : bytes := quote :: flat_map escape_char value ++ [quote].

Lemma AppendJsonString_eq value out : AppendJsonString value out = out ++ json_string value.
Proof.
  unfold AppendJsonString, json_string.
  assert (forall l acc, fold_left (fun out c => out ++ escape_char c) l acc
                        = acc ++ flat_map escape_char l) as ->.
  { induction l as [|c l IH]; intros acc; cbn; [by rewrite app_nil_r|].
    by rewrite IH, app_assoc. }
  by rewrite <- !app_assoc.
Qed.

(** The parser undoes the escaping of one character. *)
Lemma parse_escape_char c s pos out :
  parse_string_body (escape_char c ++ s) pos out
  = parse_string_body s (pos + length (escape_char c)) (out ++ [c]).
Proof. destruct c as [[] [] [] [] [] [] [] []]; reflexivity. Qed.

Lemma parse_string_body_escaped value s pos out :
  parse_string_body (flat_map escape_char value ++ quote :: s) pos out
  = Ok (out ++ value, (pos + length (flat_map escape_char value) + 1)%nat).
Proof.
  revert pos out. induction value as [|c value IH]; intros pos out.
  - cbn. by rewrite app_nil_r, Nat.add_0_r.
  - cbn [flat_map]. rewrite <- app_assoc, parse_escape_char, IH, <- app_assoc, length_app.
    do 2 f_equal. lia.
Qed.

Lemma ParseJsonString_json data pos value rest :
  drop pos data = json_string value ++ rest ->
  ParseJsonString data pos = Ok (value, (pos + length (json_string value))%nat).
Proof.
  intros Hd. unfold json_string in *. cbn [app] in Hd. rewrite <- app_assoc in Hd.
  unfold ParseJsonString. rewrite (drop_lookup_0 _ _ _ _ Hd). cbn [Ascii.eqb Bool.eqb].
  pose proof (drop_split _ [quote] _ _ Hd) as Hd1. cbn [length] in Hd1.
  change (Ascii.eqb quote quote) with true. cbn iota. rewrite Hd1.
  cbn [app]. rewrite parse_string_body_escaped. cbn [length app].
  rewrite length_app. cbn [length]. do 2 f_equal. lia.
Qed.

Lemma ParseJsonInteger_to_string data pos z rest :
  in_int64 z = true -> drop pos data = to_string z ++ rest ->
  match rest with c :: _ => is_digit c = false | [] => True end ->
  ParseJsonInteger data pos = Ok (z, (pos + length (to_string z))%nat).
Proof.
  intros Hz Hd Hr. unfold ParseJsonInteger. rewrite Hd, from_chars_to_string by done.
  destruct (length (to_string z)) eqn:E; [|done].
  unfold to_string in E. destruct (z <? 0) eqn:?; [done|]. reflect_bools.
  apply nil_length_inv in E. by destruct (digits_spec z ltac:(lia)) as (_ & _ & ?).
Qed.

Lemma SkipWhitespace_none data pos c rest :
  drop pos data = c :: rest -> is_json_space c = false -> SkipWhitespace data pos = pos.
Proof. intros Hd Hc. unfold SkipWhitespace. rewrite Hd. cbn. by rewrite Hc. Qed.

Lemma SkipWhitespace_end data : SkipWhitespace data (length data) = length data.
Proof. unfold SkipWhitespace. by rewrite drop_ge. Qed.

(** *** The parsers fail only with [std::invalid_argument] and stay inside. *)

Lemma hex_code_settled cs n : settled (hex_code n cs).
Proof. revert n. induction cs as [|c cs IH]; intros n; cbn; [done|]. by case_match. Qed.

Lemma parse_string_body_total n : forall s pos out, (length s <= n)%nat ->
  settled (parse_string_body s pos out)
  /\ (forall v p, parse_string_body s pos out = Ok (v, p) ->
        (pos < p <= pos + length s)%nat).
Proof.
  induction n as [|n IH]; intros s pos out Hn; (destruct s as [|c s]; [done|]);
    cbn [length] in Hn; [lia|]. cbn [parse_string_body].
  destruct (Ascii.eqb c quote). { split; [done|]. intros v p [= <- <-]. cbn. lia. }
  destruct (negb _).
  { destruct (IH s (pos + 1)%nat (out ++ [c]) ltac:(lia)) as [H1 H2]. split; [done|].
    intros v p Hp%H2. cbn [length]. lia. }
  destruct s as [|e s]; [done|]. cbn [length] in Hn |- *.
  destruct (simple_escape e) as [x|].
  { destruct (IH s (pos + 2)%nat (out ++ [x]) ltac:(lia)) as [H1 H2]. split; [done|].
    intros v p Hp%H2. lia. }
  destruct (Ascii.eqb e "u"); [|done].
  destruct s as [|c1 [|c2 [|c3 [|c4 s]]]]; try done. cbn [length] in Hn |- *.
  pose proof (hex_code_settled [c1; c2; c3; c4] 0) as Hh.
  destruct (hex_code 0 _) as [x|[]| |]; try done. destruct (255 <? x); [done|].
  destruct (IH s (pos + 6)%nat (out ++ [chr x]) ltac:(lia)) as [H1 H2]. split; [done|].
  intros v p Hp%H2. lia.
Qed.

Lemma ParseJsonString_settled data pos : settled (ParseJsonString data pos).
Proof.
  unfold ParseJsonString. destruct (data !! pos); [|done]. destruct (Ascii.eqb _ _); [|done].
  by eapply parse_string_body_total.
Qed.

Lemma ParseJsonString_bound data pos v p :
  ParseJsonString data pos = Ok (v, p) -> (pos < p <= length data)%nat.
Proof.
  unfold ParseJsonString. destruct (data !! pos) eqn:Hl; [|done]. apply lookup_lt_Some in Hl.
  destruct (Ascii.eqb _ _); [|done]. intros Hp.
  apply (proj2 (parse_string_body_total _ _ _ _ (Nat.le_refl _))) in Hp.
  rewrite length_drop in Hp. lia.
Qed.

Lemma digit_prefix_length s : (length (digit_prefix s) <= length s)%nat.
Proof. induction s as [|c s IH]; cbn; [done|]. case_match; cbn; lia. Qed.

Lemma ParseJsonInteger_settled data pos : settled (ParseJsonInteger data pos).
Proof. unfold ParseJsonInteger. by repeat case_match. Qed.

Lemma from_chars_bound s v n :
  from_chars s = FromCharsOk v n -> (n <= length s)%nat /\ in_int64 v = true.
Proof.
  unfold from_chars. destruct s as [|c s]; [done|].
  destruct (Ascii.eqb c "-").
  - pose proof (digit_prefix_length s). destruct (digit_prefix s) eqn:E; [done|].
    cbv zeta. case_match; [|done]. intros [= <- <-]. cbn [length] in *. split; [lia|done].
  - pose proof (digit_prefix_length (c :: s)). destruct (digit_prefix (c :: s)) eqn:E; [done|].
    cbv zeta. case_match; [|done]. intros [= <- <-]. cbn [length] in *. split; [lia|done].
Qed.

Lemma ParseJsonInteger_bound data pos v p :
  ParseJsonInteger data pos = Ok (v, p) -> (pos < p <= length data)%nat /\ in_int64 v = true.
Proof.
  unfold ParseJsonInteger. destruct (from_chars _) as [z n| |n] eqn:E; try done.
  destruct (n =? 0)%nat eqn:?; [done|]. intros [= <- <-]. reflect_bools.
  apply from_chars_bound in E as [Hn Hz]. rewrite length_drop in Hn. split; [lia|done].
Qed.

(** ** Theorems *)

(** [ParseJsonString] is the inverse of [AppendJsonString]: every byte
    string, appended as a JSON literal to any output and followed by anything,
    is read back unchanged, and the position ends after the closing quote. *)
Theorem ParseJsonString_AppendJsonString value out rest :
  ParseJsonString (AppendJsonString value out ++ rest) (length out)
  = Ok (value, length (AppendJsonString value out)).
Proof.
  rewrite AppendJsonString_eq.
  rewrite (ParseJsonString_json _ _ value rest);
    [by rewrite length_app|by rewrite <- app_assoc, drop_app_length].
Qed.

(** On every input [ParseJsonString] and [ParseJsonInteger] return or
    throw [std::invalid_argument] (no other exception, no read outside the
    string); a returned position is inside the input and after the start, and
    the integer fits 64 bits. *)
Theorem json_literals_total data pos :
  settled (ParseJsonString data pos) /\ settled (ParseJsonInteger data pos)
  /\ (forall v p, ParseJsonString data pos = Ok (v, p) -> (pos < p <= length data)%nat)
  /\ (forall z p, ParseJsonInteger data pos = Ok (z, p) ->
        (pos < p <= length data)%nat /\ in_int64 z = true).
Proof.
  split_and!; [apply ParseJsonString_settled|apply ParseJsonInteger_settled| |].
  - apply ParseJsonString_bound.
  - apply ParseJsonInteger_bound.
Qed.
