(* ===== verification/MapInterface.v ===== *)
(** * The map interface: [v2/src/store/map/map.h], [standard_map.h]

    [MapOps] is the abstract class [Map<K, V>]: what a client can call.
    [MapSpec] is what an implementation promises: an invariant its operations
    keep, and an abstraction to a finite map on which they act as lookup,
    insertion and deletion.  [Store] is proved against [MapSpec];
    [StandardMap] (here) and [LinkedListHashmap] discharge it.

    A C++ [LookUp] returns a reference; writing through it is the operation
    [AssignRef], which the model adds to the class. *)

From S2P Require Import Prelude.

Definition kDefaultCapacity : nat := 16.

(** [kDefaultLoadFactor] = 0.75, as the fraction 3/4. *)
Definition kDefaultLoadFactor : Z * Z := (3, 4).

Class MapOps (K V M : Type) := {
  EmptyMap : M;
  LookUp : M -> K -> option V;
  Insert : M -> K -> V -> M;
  Remove : M -> K -> M;
  (** the calls [action(key, value)] of [ForEach], in order *)
  ForEach : M -> list (K * V);
  (** [LookUp(k)->get() = v] *)
  AssignRef : M -> K -> V -> M
}.

Class MapSpec (K V M : Type) `{Countable K} {ops : MapOps K V M} := {
  map_inv : M -> Prop;
  map_abs : M -> gmap K V;
  EmptyMap_inv : map_inv EmptyMap;
  EmptyMap_abs : map_abs EmptyMap = ∅;
  LookUp_abs m k : map_inv m -> LookUp m k = map_abs m !! k;
  Insert_inv m k v : map_inv m -> map_inv (Insert m k v);
  Insert_abs m k v : map_inv m -> map_abs (Insert m k v) = <[k := v]> (map_abs m);
  Remove_inv m k : map_inv m -> map_inv (Remove m k);
  Remove_abs m k : map_inv m -> map_abs (Remove m k) = delete k (map_abs m);
  ForEach_abs m : map_inv m -> ForEach m ≡ₚ map_to_list (map_abs m);
  AssignRef_inv m k v : map_inv m -> is_Some (LookUp m k) -> map_inv (AssignRef m k v);
  AssignRef_abs m k v : map_inv m -> is_Some (LookUp m k) ->
    map_abs (AssignRef m k v) = <[k := v]> (map_abs m)
}.

(** Sequences of the operations that change a map; [OpAssign] writes through
    the reference of a key that is present and does nothing otherwise. *)
Inductive map_op (K V : Type) :=
| OpInsert (k : K) (v : V)
| OpRemove (k : K)
| OpAssign (k : K) (v : V).
Arguments OpInsert {K V} k v.
Arguments OpRemove {K V} k.
Arguments OpAssign {K V} k v.

Definition run_map_op {K V M} `{MapOps K V M} (m : M) (op : map_op K V) : M :=
  match op with
  | OpInsert k v => Insert m k v
  | OpRemove k => Remove m k
  | OpAssign k v => match LookUp m k with Some _ => AssignRef m k v | None => m end
  end.

Definition run_finite_op {K V} `{Countable K} (m : gmap K V) (op : map_op K V) : gmap K V :=
  match op with
  | OpInsert k v => <[k := v]> m
  | OpRemove k => delete k m
  | OpAssign k v => match m !! k with Some _ => <[k := v]> m | None => m end
  end.

(** Any implementation simulates the finite map. *)
Lemma run_map_ops_refines {K V M} `{MapSpec K V M} (l : list (map_op K V)) m :
  map_inv m ->
  map_inv (fold_left run_map_op l m)
  /\ map_abs (fold_left run_map_op l m) = fold_left run_finite_op l (map_abs m).
Proof.
  revert m. induction l as [|op l IH]; intros m Hm; cbn; [done|].
  assert (map_inv (run_map_op m op) /\ map_abs (run_map_op m op) = run_finite_op (map_abs m) op)
    as [Hi <-]; [|by apply IH].
  destruct op as [k v|k|k v]; cbn.
  - split; [by apply Insert_inv|by apply Insert_abs].
  - split; [by apply Remove_inv|by apply Remove_abs].
  - destruct (LookUp m k) eqn:E.
    + split; [apply AssignRef_inv; eauto|]. rewrite AssignRef_abs by eauto.
      rewrite LookUp_abs in E by done. by rewrite E.
    + rewrite LookUp_abs in E by done. by rewrite E.
Qed.

(** ** [StandardMap]

    A wrapper of [std::unordered_map].  Its contents are a finite map; the
    order in which it iterates is not specified by the library, so it is a
    parameter [iteration_order] of which only the documented part is assumed:
    every element is visited once. *)

Module StandardMap.
Section StandardMap.
Context {K V : Type} `{Countable K}.
Context (iteration_order : gmap K V -> list (K * V)).

Definition LookUp (data_ : gmap K V) (key : K) : option V := data_ !! key.

(** [insert_or_assign] *)
Definition Insert (data_ : gmap K V) (key : K) (value : V) : gmap K V := <[key := value]> data_.

(** [erase] *)
Definition Remove (data_ : gmap K V) (key : K) : gmap K V := delete key data_.

Definition ForEach (data_ : gmap K V) : list (K * V) := iteration_order data_.

(** Assignment to [iter->second] of the element [find] returned. *)
Definition AssignRef (data_ : gmap K V) (key : K) (value : V) : gmap K V :=
  match data_ !! key with
  | Some _ => <[key := value]> data_
  | None => data_
  end.

#[export] Instance ops : MapOps K V (gmap K V) := {
  EmptyMap := ∅;
  MapInterface.LookUp := LookUp;
  MapInterface.Insert := Insert;
  MapInterface.Remove := Remove;
  MapInterface.ForEach := ForEach;
  MapInterface.AssignRef := AssignRef
}.

Hypothesis iteration_order_visits : forall m, iteration_order m ≡ₚ map_to_list m.

#[refine] Instance spec : MapSpec K V (gmap K V) := {
  map_inv := fun _ => True;
  map_abs := fun m => m
}.
Proof.
  all: try done.
  intros m k v _ [x Hx]. cbn in *. unfold LookUp, AssignRef in *. by rewrite Hx.
Defined.

End StandardMap.
End StandardMap.
