(* ===== verification/Objects.v ===== *)
(** * Objects that hold maps: construction, copying and moving

    The map classes are values with identity: a program constructs them, copies
    them, moves them and assigns them, to themselves too, besides calling their
    members.  [ObjectOps] is what such a class offers on a store of objects by
    address, [ObjectSpec] what it promises of each member, and the theorem
    about whole programs is proved here once against the promise: the objects
    behave as variables that hold finite maps.  MapObjects and
    V1LinearProbingHashmap discharge it for the classes of the two servers. *)

From S2P Require Import Prelude.

(** ** The interface *)

Class ObjectOps (K V O : Type) := {
  (** a new object at an address, with an initial capacity *)
  construct_object : gmap positive O -> positive -> nat -> gmap positive O;
  (** the special members, on [this] and [other] *)
  copy_construct_object : gmap positive O -> positive -> positive -> res (gmap positive O);
  move_construct_object : gmap positive O -> positive -> positive -> res (gmap positive O);
  copy_assign_object : gmap positive O -> positive -> positive -> res (gmap positive O);
  move_assign_object : gmap positive O -> positive -> positive -> res (gmap positive O);
  (** the members of [Map] *)
  insert_object : O -> K -> V -> res O;
  remove_object : O -> K -> res O;
  lookup_object : O -> K -> res (option V);
  foreach_object : O -> res (list (K * V))
}.

(** [stands n o x]: after at most [n] calls, [o] holds the finite map [x], or
    anything when [x] is [None], a variable that has been moved from.  A class
    says whether it can be copied, whether a key that is present can be
    inserted again, which capacities it can be constructed with and how many
    calls it is good for. *)
Class ObjectSpec (K V O : Type) `{Countable K} {ops : ObjectOps K V O} := {
  copyable : bool;
  overwrites : bool;
  capacity_ok : nat -> bool;
  calls_ok : nat -> Prop;
  calls_ok_le n n' : (n <= n')%nat -> calls_ok n' -> calls_ok n;
  stands : nat -> O -> option (gmap K V) -> Prop;
  stands_mono n n' o x : (n <= n')%nat -> stands n o x -> stands n' o x;
  construct_stands os this c : capacity_ok c = true ->
    exists o, construct_object os this c = <[this := o]> os /\ stands 0 o (Some ∅);
  copy_construct_copies os this other o : copyable = true -> os !! other = Some o ->
    copy_construct_object os this other = Ok (<[this := o]> os);
  copy_assign_copies os this other o : copyable = true -> os !! other = Some o ->
    copy_assign_object os this other = Ok (<[this := o]> os);
  move_construct_moves os this other o : os !! other = Some o ->
    exists o', move_construct_object os this other = Ok (<[this := o]> (<[other := o']> os))
      /\ forall n x, stands n o x -> stands n o' None;
  move_assign_moves os this other o : os !! other = Some o -> this <> other ->
    exists o', move_assign_object os this other = Ok (<[this := o]> (<[other := o']> os))
      /\ forall n x, stands n o x -> stands n o' None;
  move_assign_self os this : move_assign_object os this this = Ok os;
  insert_stands n o m k v : calls_ok (S n) -> stands n o (Some m) -> overwrites = true \/ m !! k = None ->
    exists o', insert_object o k v = Ok o' /\ stands (S n) o' (Some (<[k := v]> m));
  remove_stands n o m k : stands n o (Some m) ->
    exists o', remove_object o k = Ok o' /\ stands n o' (Some (delete k m));
  lookup_stands n o m k : stands n o (Some m) -> lookup_object o k = Ok (m !! k);
  foreach_stands n o m : stands n o (Some m) ->
    exists visited, foreach_object o = Ok visited /\ visited ≡ₚ map_to_list m
}.

(** The member [hash_] of a class is a [std::function]: without a target, as a
    move may leave it, a call throws. *)
Definition call_hash {K} (hash_ : option (K -> Z)) : res (K -> Z) :=
  match hash_ with Some h => Ok h | None => Throw (RuntimeError "bad_function_call") end.

(** ** Programs *)

Section Programs.
Context {K V O : Type} `{Countable K} {ops : ObjectOps K V O}.

Inductive member :=
| Construct (this : positive) (initial_capacity : nat)
| CopyConstruct (this other : positive)
| MoveConstruct (this other : positive)
| CopyAssign (this other : positive)
| MoveAssign (this other : positive)
| CallInsert (this : positive) (k : K) (v : V)
| CallRemove (this : positive) (k : K).

Definition object_at (os : gmap positive O) (this : positive) : res O :=
  match os !! this with Some o => Ok o | None => Undef "no object" end.

Lemma object_at_Some os this o : os !! this = Some o -> object_at os this = Ok o.
Proof. unfold object_at. by intros ->. Qed.

Definition run_member (os : gmap positive O) (c : member) : res (gmap positive O) :=
  match c with
  | Construct this n => Ok (construct_object os this n)
  | CopyConstruct this other => copy_construct_object os this other
  | MoveConstruct this other => move_construct_object os this other
  | CopyAssign this other => copy_assign_object os this other
  | MoveAssign this other => move_assign_object os this other
  | CallInsert this k v => o ← object_at os this; o ← insert_object o k v; Ok (<[this := o]> os)
  | CallRemove this k => o ← object_at os this; o ← remove_object o k; Ok (<[this := o]> os)
  end.

Fixpoint run_members (os : gmap positive O) (l : list member) : res (gmap positive O) :=
  match l with
  | [] => Ok os
  | c :: l => os ← run_member os c; run_members os l
  end.

Definition lookup_at (os : gmap positive O) (this : positive) (k : K) : res (option V) :=
  o ← object_at os this; lookup_object o k.

Definition foreach_at (os : gmap positive O) (this : positive) : res (list (K * V)) :=
  o ← object_at os this; foreach_object o.

(** ** Variables *)

#[local] Abbreviation variables := (gmap positive (option (gmap K V))).

Context {spec : ObjectSpec K V O}.

(** What a program means that keeps the rules: it names objects that exist,
    constructs where there is none, copies only what can be copied, and
    inserts, fresh keys unless others are allowed, into a map it has not moved
    from. *)
Definition promised (a : variables) (c : member) : option variables :=
  match c with
  | Construct this n =>
      if bool_decide (a !! this = None) && capacity_ok n then Some (<[this := Some ∅]> a) else None
  | CopyConstruct this other =>
      if bool_decide (a !! this = None) && copyable then x ← a !! other; Some (<[this := x]> a) else None
  | MoveConstruct this other =>
      if bool_decide (a !! this = None) then x ← a !! other; Some (<[this := x]> (<[other := None]> a)) else None
  | CopyAssign this other =>
      if copyable then _ ← a !! this; x ← a !! other; Some (<[this := x]> a) else None
  | MoveAssign this other =>
      _ ← a !! this; x ← a !! other;
      Some (if bool_decide (this = other) then a else <[this := x]> (<[other := None]> a))
  | CallInsert this k v =>
      x ← a !! this; m ← x;
      if overwrites || bool_decide (m !! k = None) then Some (<[this := Some (<[k := v]> m)]> a) else None
  | CallRemove this k => x ← a !! this; m ← x; Some (<[this := Some (delete k m)]> a)
  end.

Fixpoint promised_all (a : variables) (l : list member) : option variables :=
  match l with
  | [] => Some a
  | c :: l => a ← promised a c; promised_all a l
  end.

(** ** Simulation *)

Definition simulates (n : nat) (os : gmap positive O) (a : variables) : Prop :=
  forall this, match os !! this, a !! this with
               | Some o, Some x => stands n o x
               | None, None => True
               | _, _ => False
               end.

Lemma simulates_mono n n' os a : (n <= n')%nat -> simulates n os a -> simulates n' os a.
Proof.
  intros Hn Hs this. specialize (Hs this). destruct (os !! this), (a !! this); try done. by eapply stands_mono.
Qed.

Lemma simulates_insert n os a this o x : simulates n os a -> stands n o x ->
  simulates n (<[this := o]> os) (<[this := x]> a).
Proof.
  intros Hs Ho i. destruct (decide (i = this)) as [->|Hne].
  - by rewrite !lookup_insert_eq.
  - rewrite !lookup_insert_ne by done. apply Hs.
Qed.

Lemma simulates_at n os a this x : simulates n os a -> a !! this = Some x ->
  exists o, os !! this = Some o /\ stands n o x.
Proof. intros Hs Ha. specialize (Hs this). rewrite Ha in Hs. destruct (os !! this) as [o|]; [|done]. eauto. Qed.

Lemma member_simulated n os a c a' : calls_ok (S n) -> simulates n os a -> promised a c = Some a' ->
  exists os', run_member os c = Ok os' /\ simulates (S n) os' a'.
Proof.
  intros Hn Hs Hp. assert (simulates (S n) os a) as Hs' by (eapply simulates_mono; [|done]; lia).
  destruct c as [this c|this other|this other|this other|this other|this k v|this k]; cbn [promised run_member] in *.
  - case_match eqn:E; [|done]. apply andb_prop in E as [_ E]. injection Hp as <-.
    destruct (construct_stands os this c E) as (o & -> & Ho). eexists. split; [done|].
    apply simulates_insert; [done|]. eapply stands_mono; [|done]. lia.
  - case_match eqn:E; [|done]. apply andb_prop in E as [_ E]. apply bind_Some in Hp as (x & Ex & [= <-]).
    destruct (simulates_at _ _ _ _ _ Hs' Ex) as (o & Eo & Ho). rewrite (copy_construct_copies _ _ _ o E Eo).
    eexists. split; [done|]. by apply simulates_insert.
  - case_match; [|done]. apply bind_Some in Hp as (x & Ex & [= <-]).
    destruct (simulates_at _ _ _ _ _ Hs' Ex) as (o & Eo & Ho).
    destruct (move_construct_moves os this other o Eo) as (o' & -> & Ho').
    eexists. split; [done|]. apply simulates_insert; [|done]. apply simulates_insert; [done|by eapply Ho'].
  - case_match eqn:E; [|done]. apply bind_Some in Hp as (_ & _ & Hp). apply bind_Some in Hp as (x & Ex & [= <-]).
    destruct (simulates_at _ _ _ _ _ Hs' Ex) as (o & Eo & Ho). rewrite (copy_assign_copies _ _ _ o E Eo).
    eexists. split; [done|]. by apply simulates_insert.
  - apply bind_Some in Hp as (_ & _ & Hp). apply bind_Some in Hp as (x & Ex & [= <-]).
    case_bool_decide as Heq; [subst other; rewrite move_assign_self; eauto|].
    destruct (simulates_at _ _ _ _ _ Hs' Ex) as (o & Eo & Ho).
    destruct (move_assign_moves os this other o Eo Heq) as (o' & -> & Ho').
    eexists. split; [done|]. apply simulates_insert; [|done]. apply simulates_insert; [done|by eapply Ho'].
  - apply bind_Some in Hp as (x & Ex & Hp). apply bind_Some in Hp as (m & -> & Hp). case_match eqn:E; [|done].
    injection Hp as <-. destruct (simulates_at _ _ _ _ _ Hs Ex) as (o & Eo & Ho). unfold object_at. rewrite Eo. cbn [mbind res_bind].
    destruct (insert_stands n o m k v Hn Ho) as (o' & -> & Ho').
    { apply orb_prop in E as [E|E%bool_decide_eq_true]; [by left|by right]. }
    eexists. split; [done|]. by apply simulates_insert.
  - apply bind_Some in Hp as (x & Ex & Hp). apply bind_Some in Hp as (m & -> & [= <-]).
    destruct (simulates_at _ _ _ _ _ Hs' Ex) as (o & Eo & Ho). unfold object_at. rewrite Eo. cbn [mbind res_bind].
    destruct (remove_stands (S n) o m k Ho) as (o' & -> & Ho'). eexists. split; [done|]. by apply simulates_insert.
Qed.

Lemma members_simulated l : forall n os a a', calls_ok (n + length l) -> simulates n os a -> promised_all a l = Some a' ->
  exists os', run_members os l = Ok os' /\ simulates (n + length l) os' a'.
Proof.
  induction l as [|c l IH]; intros n os a a' Hn Hs Hp; cbn [promised_all run_members length] in *.
  - injection Hp as <-. exists os. split; [done|]. by rewrite Nat.add_0_r.
  - apply bind_Some in Hp as (a1 & E1 & Hp).
    destruct (member_simulated n os a c a1) as (os1 & -> & H1); [eapply calls_ok_le; [|done]; lia|done|done|].
    cbn [mbind res_bind]. rewrite Nat.add_succ_r in *. by apply (IH (S n)) with (a := a1).
Qed.

(** Every program that keeps the rules runs, and its objects hold what its
    variables hold. *)
Definition value_semantics : Prop := forall l a, calls_ok (length l) -> promised_all ∅ l = Some a ->
  exists os, run_members ∅ l = Ok os /\ dom os = dom a
    /\ (forall this x, a !! this = Some x -> exists o, os !! this = Some o /\ stands (length l) o x)
    /\ forall this m, a !! this = Some (Some m) ->
         (forall k, lookup_at os this k = Ok (m !! k))
         /\ exists visited, foreach_at os this = Ok visited /\ visited ≡ₚ map_to_list m.

Lemma objects_hold_variables : value_semantics.
Proof.
  intros l a Hl Hp. destruct (members_simulated l 0 ∅ ∅ a Hl) as (os & E & Hs); [intros i; by rewrite !lookup_empty|done|].
  exists os. split; [done|]. split; [|split].
  - apply set_eq. intros i. rewrite !elem_of_dom. specialize (Hs i). destruct (os !! i), (a !! i); try done.
  - intros this x. by apply simulates_at.
  - intros this m Hm. destruct (simulates_at _ _ _ _ _ Hs Hm) as (o & Eo & Ho).
    unfold lookup_at, foreach_at, object_at. rewrite Eo. cbn [mbind res_bind].
    split; [intros k; by eapply lookup_stands|by eapply foreach_stands].
Qed.

End Programs.
Arguments member K V : clear implicits.
Arguments value_semantics {K V O _ _ _} spec.
