(* ===== verification/LinkedListHashmap.v ===== *)
(** * The chained hash map: [v2/src/store/map/linked_list_hashmap.h]

    The bucket vector is a list of chains; a chain of [unique_ptr<Entry>] is
    the list of its entries.  The hash function is a parameter, the load
    factor a fraction [num/den] compared exactly.  Theorem: the map meets
    [MapSpec], through every resize, for every hash function. *)

From S2P Require Import Prelude MapInterface.

Module LinkedListHashmap.
Section LinkedListHashmap.
Context {K V : Type} `{Countable K}.
Context (hash_ : K -> Z) (load_factor_ : Z * Z).

Record map := mkMap {
  size_ : nat;
  entries_ : list (list (K * V))
}.

(** [hash_(key) % entries_.size()] *)
Definition bucket_index (key : K) (capacity : nat) : nat :=
  Z.to_nat (hash_ key mod Z.of_nat capacity).

(** The walk along a chain in [InsertWithoutResize]: overwrite the entry with
    the key, or append one; the flag tells whether an entry was added. *)
Fixpoint chain_insert (key : K) (value : V) (chain : list (K * V)) : list (K * V) * bool :=
  match chain with
  | [] => ([(key, value)], true)
  | (k, v) :: rest =>
      if decide (k = key) then ((k, value) :: rest, false)
      else let '(rest, added) := chain_insert key value rest in ((k, v) :: rest, added)
  end.

Definition InsertWithoutResize (m : map) (key : K) (value : V) : map :=
  let i := bucket_index key (length (entries_ m)) in
  match entries_ m !! i with
  | Some chain =>
      let '(chain, added) := chain_insert key value chain in
      mkMap (if added then S (size_ m) else size_ m) (<[i := chain]> (entries_ m))
  | None => m
  end.

Definition Resize (m : map) : map :=
  let flat_entries := concat (entries_ m) in
  fold_left (fun m kv => InsertWithoutResize m (fst kv) (snd kv)) flat_entries
    (mkMap 0 (replicate (Nat.max 2 (size_ m * 2)) [])).

Definition init : map := mkMap 0 (replicate kDefaultCapacity []).

Fixpoint chain_lookup (key : K) (chain : list (K * V)) : option V :=
  match chain with
  | [] => None
  | (k, v) :: rest => if decide (k = key) then Some v else chain_lookup key rest
  end.

Definition LookUp (m : map) (key : K) : option V :=
  if decide (entries_ m = []) then None
  else match entries_ m !! bucket_index key (length (entries_ m)) with
       | Some chain => chain_lookup key chain
       | None => None
       end.

(** [size_ > entries_.size() * load_factor_] *)
Definition overloaded (m : map) : bool :=
  Z.of_nat (length (entries_ m)) * fst load_factor_ <? Z.of_nat (size_ m) * snd load_factor_.

Definition Insert (m : map) (key : K) (value : V) : map :=
  let m := if decide (entries_ m = []) then Resize m
           else if overloaded m then Resize m else m in
  InsertWithoutResize m key value.

(** Unlinking the first entry of a chain with the key. *)
Fixpoint chain_remove (key : K) (chain : list (K * V)) : list (K * V) * bool :=
  match chain with
  | [] => ([], false)
  | (k, v) :: rest =>
      if decide (k = key) then (rest, true)
      else let '(rest, removed) := chain_remove key rest in ((k, v) :: rest, removed)
  end.

Definition Remove (m : map) (key : K) : map :=
  if decide (entries_ m = []) then m
  else
    let i := bucket_index key (length (entries_ m)) in
    match entries_ m !! i with
    | Some chain =>
        let '(chain, removed) := chain_remove key chain in
        mkMap (if removed then pred (size_ m) else size_ m) (<[i := chain]> (entries_ m))
    | None => m
    end.

Definition ForEach (m : map) : list (K * V) := concat (entries_ m).

(** Assignment to [curr_entry->value] of the entry [LookUp] returned. *)
Fixpoint chain_assign (key : K) (value : V) (chain : list (K * V)) : list (K * V) :=
  match chain with
  | [] => []
  | (k, v) :: rest =>
      if decide (k = key) then (k, value) :: rest else (k, v) :: chain_assign key value rest
  end.

Definition AssignRef (m : map) (key : K) (value : V) : map :=
  let i := bucket_index key (length (entries_ m)) in
  match entries_ m !! i with
  | Some chain => mkMap (size_ m) (<[i := chain_assign key value chain]> (entries_ m))
  | None => m
  end.

#[export] Instance ops : MapOps K V map := {
  EmptyMap := init;
  MapInterface.LookUp := LookUp;
  MapInterface.Insert := Insert;
  MapInterface.Remove := Remove;
  MapInterface.ForEach := ForEach;
  MapInterface.AssignRef := AssignRef
}.

(** ** Invariant and abstraction *)

(** Keys of a chain are distinct and belong to the chain's bucket. *)
Definition chain_ok (capacity i : nat) (chain : list (K * V)) : Prop :=
  NoDup chain.*1 /\ Forall (fun k => bucket_index k capacity = i) chain.*1.

Record inv (m : map) : Prop := {
  inv_nonempty : entries_ m <> [];
  inv_chains : forall i chain, entries_ m !! i = Some chain -> chain_ok (length (entries_ m)) i chain;
  inv_size : size_ m = length (concat (entries_ m))
}.

Definition abs (m : map) : gmap K V := list_to_map (concat (entries_ m)).

(** ** Lemmas: chains *)

Lemma chain_lookup_spec key chain :
  chain_lookup key chain = (list_to_map chain : gmap K V) !! key.
Proof.
  induction chain as [|[k v] chain IH]; cbn; [done|].
  case_decide; subst; simplify_map_eq; [done|]. by rewrite IH.
Qed.

Lemma chain_insert_spec key value chain chain' added :
  chain_insert key value chain = (chain', added) ->
  (list_to_map chain' : gmap K V) = <[key := value]> (list_to_map chain)
  /\ chain'.*1 = chain.*1 ++ (if added then [key] else [])
  /\ (added = true <-> key ∉ chain.*1).
Proof.
  revert chain'. induction chain as [|[k v] chain IH]; intros chain'; cbn.
  - intros [= <- <-]. split_and!; [done|done|]. split; [|done]. intros _. apply not_elem_of_nil.
  - case_decide as Hk; subst.
    + intros [= <- <-]. cbn. split_and!; [by rewrite insert_insert_eq|by rewrite app_nil_r|].
      split; [done|]. intros []. by left.
    + destruct (chain_insert key value chain) as [c a] eqn:E. intros [= <- <-].
      destruct (IH c eq_refl) as (Hm & Hk1 & Ha). cbn. rewrite Hm, Hk1. split_and!; [|done|].
      * by rewrite insert_insert_ne.
      * rewrite Ha, not_elem_of_cons. split; [by split|by intros [_ ?]].
Qed.

Lemma chain_remove_spec key chain chain' removed :
  chain_remove key chain = (chain', removed) -> NoDup chain.*1 ->
  (list_to_map chain' : gmap K V) = delete key (list_to_map chain)
  /\ chain'.*1 ⊆ chain.*1 /\ NoDup chain'.*1
  /\ length chain = (length chain' + if removed then 1 else 0)%nat.
Proof.
  revert chain'. induction chain as [|[k v] chain IH]; intros chain'; cbn.
  - intros [= <- <-] _. split_and!; [by rewrite delete_empty|done|constructor|done].
  - case_decide as Hk; subst.
    + intros [= <- <-] [Hn Hd]%NoDup_cons. split_and!; [|by intros ? ?; right|done|cbn; lia].
      rewrite delete_insert_eq, delete_id; [done|]. by apply not_elem_of_list_to_map_1.
    + destruct (chain_remove key chain) as [c r] eqn:E. intros [= <- <-] [Hn Hd]%NoDup_cons.
      destruct (IH c eq_refl Hd) as (Hm & Hs & Hd' & Hl). cbn. rewrite Hm. split_and!.
      * by rewrite delete_insert_ne.
      * intros x. rewrite !elem_of_cons. intros [|Hx]; [by left|right; by apply Hs].
      * constructor; [|done]. intros Hin. by apply Hn, Hs.
      * rewrite Hl. lia.
Qed.

Lemma chain_assign_spec key value chain :
  (chain_assign key value chain).*1 = chain.*1
  /\ (key ∈ chain.*1 ->
      (list_to_map (chain_assign key value chain) : gmap K V)
      = <[key := value]> (list_to_map chain)).
Proof.
  induction chain as [|[k v] chain [IH1 IH2]]; cbn.
  - split; [done|]. by intros ?%not_elem_of_nil.
  - case_decide as Hk; subst; cbn.
    + split; [done|]. intros _. by rewrite insert_insert_eq.
    + split; [by rewrite IH1|]. intros [|Hin]%elem_of_cons; [done|].
      rewrite IH2 by done. by rewrite insert_insert_ne.
Qed.

(** ** Lemmas: buckets *)

Lemma bucket_index_lt key n : (0 < n)%nat -> (bucket_index key n < n)%nat.
Proof.
  intros Hn. unfold bucket_index.
  pose proof (Z.mod_pos_bound (hash_ key) (Z.of_nat n) ltac:(lia)). lia.
Qed.

Lemma chains_keys capacity es j :
  (forall i c, es !! i = Some c -> chain_ok capacity (j + i) c) ->
  NoDup (concat es).*1
  /\ forall k, k ∈ (concat es).*1 -> (j <= bucket_index k capacity < j + length es)%nat.
Proof.
  revert j. induction es as [|c es IH]; intros j Hes; cbn.
  - split; [constructor|]. by intros k ?%not_elem_of_nil.
  - destruct (IH (S j)) as [Hnd Hb].
    { intros i c' Hi. specialize (Hes (S i) c' Hi). by rewrite Nat.add_succ_r in Hes. }
    destruct (Hes 0%nat c eq_refl) as [Hc Hcb]. rewrite Nat.add_0_r in Hcb.
    rewrite Forall_forall in Hcb. rewrite fmap_app. split.
    + apply NoDup_app. split_and!; [done| |done].
      intros k Hk1%Hcb Hk2%Hb. lia.
    + intros k [Hk|Hk]%elem_of_app; [apply Hcb in Hk; lia|apply Hb in Hk; lia].
Qed.

(** The entries around the bucket of a key, none of them with that key. *)
Lemma inv_around m key : inv m ->
  exists A chain B,
    entries_ m !! bucket_index key (length (entries_ m)) = Some chain
    /\ concat (entries_ m) = A ++ chain ++ B
    /\ (forall c, concat (<[bucket_index key (length (entries_ m)) := c]> (entries_ m)) = A ++ c ++ B)
    /\ (key ∉ A.*1) /\ (key ∉ B.*1).
Proof.
  intros [Hne Hch _]. set (n := length (entries_ m)). set (i := bucket_index key n).
  assert (i < n)%nat as Hi.
  { apply bucket_index_lt. subst n. destruct (entries_ m); [done|cbn; lia]. }
  destruct (lookup_lt_is_Some_2 (entries_ m) i Hi) as [c Hc].
  exists (concat (take i (entries_ m))), c, (concat (drop (S i) (entries_ m))).
  split_and!; [done| | | |].
  - rewrite <- (take_drop_middle _ _ _ Hc) at 1. by rewrite concat_app.
  - intros c'. rewrite insert_take_drop by done. by rewrite concat_app.
  - destruct (chains_keys n (take i (entries_ m)) 0) as [_ Hb].
    { intros j c' Hj. apply lookup_take_Some in Hj as [Hj _]. by apply Hch. }
    intros Hk%Hb. rewrite length_take in Hk. fold i in Hk. lia.
  - destruct (chains_keys n (drop (S i) (entries_ m)) (S i)) as [_ Hb].
    { intros j c' Hj. rewrite lookup_drop in Hj. by apply Hch. }
    intros Hk%Hb. fold i in Hk. lia.
Qed.

Lemma lookup_around (A chain B : list (K * V)) key k :
  key ∉ A.*1 -> key ∉ B.*1 ->
  (list_to_map (A ++ chain ++ B) : gmap K V) !! k
  = if decide (k = key) then (list_to_map chain : gmap K V) !! k
    else (list_to_map A ∪ (list_to_map chain ∪ list_to_map B) : gmap K V) !! k.
Proof.
  intros HA HB. rewrite !list_to_map_app. case_decide; subst; [|done].
  rewrite !lookup_union. rewrite (not_elem_of_list_to_map_1 A), (not_elem_of_list_to_map_1 B) by done.
  by destruct (_ !! key).
Qed.

(** Replacing the chain of a key changes the map at that key only. *)
Lemma abs_around (A c c' B : list (K * V)) key (f : option V) :
  key ∉ A.*1 -> key ∉ B.*1 ->
  (list_to_map c' : gmap K V) = partial_alter (fun _ => f) key (list_to_map c) ->
  (list_to_map (A ++ c' ++ B) : gmap K V)
  = partial_alter (fun _ => f) key (list_to_map (A ++ c ++ B)).
Proof.
  intros HA HB Hc. apply map_eq. intros k. destruct (decide (key = k)) as [<-|Hne].
  - rewrite (lookup_around A c' B key key), lookup_partial_alter_eq, decide_True by done.
    by rewrite Hc, lookup_partial_alter_eq.
  - rewrite lookup_partial_alter_ne by done. rewrite !(lookup_around _ _ _ key k) by done.
    rewrite !decide_False by done. rewrite !lookup_union, Hc. by rewrite lookup_partial_alter_ne.
Qed.

(** ** Lemmas: operations *)

Lemma inv_replace m key c c' sz :
  inv m -> entries_ m !! bucket_index key (length (entries_ m)) = Some c ->
  chain_ok (length (entries_ m)) (bucket_index key (length (entries_ m))) c' ->
  (sz + length c = size_ m + length c')%nat ->
  inv (mkMap sz (<[bucket_index key (length (entries_ m)) := c']> (entries_ m))).
Proof.
  intros Hinv Hc Hok Hsz. destruct (inv_around m key Hinv) as (A & c0 & B & Hc0 & HL & HL' & _).
  destruct Hinv as [Hne Hch Hs]. rewrite Hc in Hc0. injection Hc0 as <-.
  constructor; cbn.
  - intros Hn%(f_equal length). rewrite length_insert in Hn. by destruct (entries_ m).
  - intros i chain. rewrite length_insert, list_lookup_insert. case_decide as Hi.
    + destruct Hi as [<- _]. by intros [= <-].
    + intros Hi'. by apply Hch.
  - rewrite HL', !length_app. rewrite HL, !length_app in Hs. lia.
Qed.

Lemma inv_chain m i c : inv m -> entries_ m !! i = Some c -> chain_ok (length (entries_ m)) i c.
Proof. intros [_ Hch _]. apply Hch. Qed.

Lemma InsertWithoutResize_spec m key value : inv m ->
  inv (InsertWithoutResize m key value)
  /\ abs (InsertWithoutResize m key value) = <[key := value]> (abs m)
  /\ length (entries_ (InsertWithoutResize m key value)) = length (entries_ m).
Proof.
  intros Hinv. destruct (inv_around m key Hinv) as (A & c & B & Hc & HL & HL' & HA & HB).
  unfold InsertWithoutResize. rewrite Hc.
  destruct (chain_insert key value c) as [c' added] eqn:E.
  destruct (chain_insert_spec _ _ _ _ _ E) as (Hm & Hk & Ha).
  destruct (inv_chain _ _ _ Hinv Hc) as [Hnd Hb]. split_and!.
  - apply (inv_replace m key c c'); [done|done| |].
    + split; rewrite Hk.
      * apply NoDup_app. split_and!; [done| |by destruct added; repeat constructor; apply not_elem_of_nil].
        destruct added; [|by intros ? _ ?%not_elem_of_nil].
        intros k Hin ->%list_elem_of_singleton. by apply (proj1 Ha eq_refl).
      * apply Forall_app. split; [done|]. destruct added; by repeat constructor.
    + apply (f_equal length) in Hk. rewrite length_app, !length_fmap in Hk.
      destruct added; cbn in *; lia.
  - unfold abs. cbn [entries_]. rewrite HL', HL. apply abs_around; [done..|]. exact Hm.
  - cbn [entries_]. apply length_insert.
Qed.

Lemma NoDup_keys m : inv m -> NoDup (concat (entries_ m)).*1.
Proof. intros [_ Hch _]. apply (chains_keys (length (entries_ m)) _ 0). intros i c Hi. by apply Hch. Qed.

Lemma fold_insert_spec l m : inv m -> NoDup l.*1 ->
  let m' := fold_left (fun m kv => InsertWithoutResize m (fst kv) (snd kv)) l m in
  inv m' /\ abs m' = list_to_map l ∪ abs m.
Proof.
  revert m. induction l as [|[k v] l IH]; intros m Hinv Hnd; cbn.
  - by rewrite (left_id_L ∅ (∪)).
  - apply NoDup_cons in Hnd as [Hk Hnd]. cbn in Hk.
    destruct (InsertWithoutResize_spec m k v Hinv) as (Hi & Ha & _).
    destruct (IH _ Hi Hnd) as [Hi' Ha']. split; [done|]. cbn in Ha'. rewrite Ha', Ha.
    rewrite <- insert_union_r by (by apply not_elem_of_list_to_map_1). by rewrite insert_union_l.
Qed.

Lemma replicate_inv n : (0 < n)%nat ->
  inv (mkMap 0 (replicate n [])) /\ abs (mkMap 0 (replicate n [])) = ∅.
Proof.
  intros Hn. assert (concat (replicate n ([] : list (K * V))) = []) as Hc.
  { clear. induction n; cbn; done. }
  split; [|unfold abs; cbn [entries_]; by rewrite Hc]. constructor; cbn [entries_ size_].
  - by destruct n; [lia|].
  - intros i c [-> _]%lookup_replicate. split; constructor.
  - by rewrite Hc.
Qed.

Lemma Resize_spec m : inv m -> inv (Resize m) /\ abs (Resize m) = abs m.
Proof.
  intros Hinv. unfold Resize.
  destruct (replicate_inv (Nat.max 2 (size_ m * 2)) ltac:(lia)) as [Hi Ha].
  destruct (fold_insert_spec (concat (entries_ m)) _ Hi (NoDup_keys m Hinv)) as [Hi' Ha'].
  split; [done|]. cbv zeta in Ha'. by rewrite Ha', Ha, (right_id_L ∅ (∪)).
Qed.

Lemma LookUp_spec m key : inv m -> LookUp m key = abs m !! key.
Proof.
  intros Hinv. destruct (inv_around m key Hinv) as (A & c & B & Hc & HL & _ & HA & HB).
  unfold LookUp, abs. rewrite decide_False by (by apply inv_nonempty).
  rewrite Hc, HL, (lookup_around A c B key key), decide_True by done. apply chain_lookup_spec.
Qed.

Lemma Insert_spec m key value : inv m ->
  inv (Insert m key value) /\ abs (Insert m key value) = <[key := value]> (abs m).
Proof.
  intros Hinv. unfold Insert. rewrite decide_False by (by apply inv_nonempty).
  destruct (Resize_spec m Hinv) as [Hi Ha]. destruct (overloaded m).
  - destruct (InsertWithoutResize_spec _ key value Hi) as (H1 & H2 & _). by rewrite H2, Ha.
  - destruct (InsertWithoutResize_spec _ key value Hinv) as (H1 & H2 & _). by rewrite H2.
Qed.

Lemma Remove_spec m key : inv m -> inv (Remove m key) /\ abs (Remove m key) = delete key (abs m).
Proof.
  intros Hinv. destruct (inv_around m key Hinv) as (A & c & B & Hc & HL & HL' & HA & HB).
  unfold Remove. rewrite decide_False by (by apply inv_nonempty). rewrite Hc.
  destruct (chain_remove key c) as [c' removed] eqn:E.
  destruct (inv_chain _ _ _ Hinv Hc) as [Hnd Hb].
  destruct (chain_remove_spec _ _ _ _ E Hnd) as (Hm & Hs & Hnd' & Hl). split.
  - apply (inv_replace m key c c'); [done|done| |].
    + split; [done|]. rewrite Forall_forall in Hb |- *. intros k Hk. by apply Hb, Hs.
    + destruct Hinv as [_ _ Hsz]. rewrite HL, !length_app in Hsz. destruct removed; lia.
  - unfold abs. cbn [entries_]. rewrite HL', HL. apply abs_around; [done..|]. exact Hm.
Qed.

Lemma AssignRef_spec m key value : inv m -> is_Some (LookUp m key) ->
  inv (AssignRef m key value) /\ abs (AssignRef m key value) = <[key := value]> (abs m).
Proof.
  intros Hinv [x Hx]. destruct (inv_around m key Hinv) as (A & c & B & Hc & HL & HL' & HA & HB).
  unfold LookUp in Hx. rewrite decide_False in Hx by (by apply inv_nonempty).
  rewrite Hc, chain_lookup_spec in Hx. unfold AssignRef. rewrite Hc.
  destruct (chain_assign_spec key value c) as [Hk Hm].
  destruct (inv_chain _ _ _ Hinv Hc) as [Hnd Hb]. split.
  - apply (inv_replace m key c); [done|done| |].
    + split; rewrite Hk; done.
    + apply (f_equal length) in Hk. rewrite !length_fmap in Hk. lia.
  - unfold abs. cbn [entries_]. rewrite HL', HL. apply abs_around; [done..|]. apply Hm.
    apply elem_of_list_to_map_2 in Hx. by apply (list_elem_of_fmap_2 fst) in Hx.
Qed.

#[refine, export] Instance spec : MapSpec K V map := {
  map_inv := inv;
  map_abs := abs
}.
Proof.
  - apply replicate_inv. unfold kDefaultCapacity. lia.
  - apply replicate_inv. unfold kDefaultCapacity. lia.
  - apply LookUp_spec.
  - intros m k v Hm. by apply Insert_spec.
  - intros m k v Hm. by apply Insert_spec.
  - intros m k Hm. by apply Remove_spec.
  - intros m k Hm. by apply Remove_spec.
  - intros m Hm. cbn. unfold ForEach, abs. symmetry. apply map_to_list_to_map. by apply NoDup_keys.
  - intros m k v Hm Hk. by apply AssignRef_spec.
  - intros m k v Hm Hk. by apply AssignRef_spec.
Defined.

End LinkedListHashmap.

(** ** Theorems *)

(** The chained hash map is a finite map: after any sequence of inserts,
    removals and writes through references, started on a fresh map, with any
    hash function and any load factor (so through any number of resizes),
    [LookUp] gives what the finite map holds, [ForEach] visits every entry
    exactly once, and [size_] is the number of entries. *)
Theorem refines_finite_map {K V} `{Countable K} (hash_ : K -> Z) (load_factor_ : Z * Z)
    (l : list (map_op K V)) (k : K) :
  let H0 := ops hash_ load_factor_ in
  let m := fold_left run_map_op l init in
  LookUp hash_ m k = fold_left run_finite_op l ∅ !! k
  /\ ForEach m ≡ₚ map_to_list (fold_left run_finite_op l ∅)
  /\ size_ m = size (fold_left run_finite_op l ∅).
Proof.
  intros H0 m. pose (spec (V := V) hash_ load_factor_) as Hsp.
  destruct (run_map_ops_refines l EmptyMap EmptyMap_inv) as [Hi Ha].
  rewrite EmptyMap_abs in Ha. change (fold_left run_map_op l EmptyMap) with m in *.
  change (abs m = fold_left run_finite_op l ∅) in Ha.
  pose proof (@ForEach_abs _ _ _ _ _ _ Hsp m Hi : ForEach m ≡ₚ map_to_list (abs m)) as Hp.
  rewrite <- Ha. split_and!; [by apply LookUp_spec|done|]. apply Permutation_length in Hp.
  rewrite length_map_to_list in Hp. destruct Hi as [_ _ Hs]. by rewrite Hs.
Qed.

End LinkedListHashmap.
