(* ===== verification/LinearProbingHashmap.v ===== *)
(** * The open-addressing hash map: [v2/src/store/map/linear_probing_hashmap.h]

    Slots are empty, deleted (a tombstone) or hold an element; a probe walks
    the vector cyclically from the key's bucket.  The hash function is a
    parameter, the load factor a fraction.  The probe of [InsertWithoutSize]
    has no bound in the source and that of [Resize] calls it back, so both
    take fuel here; the theorems show the fuel given is enough.

    An index is a natural number up to [InternalFind], which returns it as an
    [int], with -1 for a key that is not found; the conversion keeps the index
    in tables of at most 2^31 slots.

    The map is correct as long as no key is inserted while it is present: then
    every operation acts as on a finite map, through collisions, tombstones and
    resizes.  A last theorem shows what happens otherwise: [Insert] reuses the
    first tombstone of the probe without looking further, so a key can be
    stored twice and come back after it was removed. *)

From S2P Require Import Prelude MapInterface.

#[local] Open Scope nat_scope.

Module LinearProbingHashmap.
Section LinearProbingHashmap.
Context {K V : Type} `{Countable K}.
Context (hash_ : K -> Z) (load_factor_ : Z * Z).

Inductive State := EMPTY | DELETED | ELEMENT.

#[export] Instance State_eq_dec : EqDecision State.
Proof. solve_decision. Defined.

Record Entry := mkEntry {
  state : State;
  key : option K;
  value : option V
}.

Definition empty_entry : Entry := mkEntry EMPTY None None.

Record map := mkMap {
  entries_ : list Entry;
  size_ : nat
}.

(** The constructor. *)
Definition init (initial_capacity : nat) : map := mkMap (replicate initial_capacity empty_entry) 0.

(** [hash_(key) % entries_.size()]; a division by zero is undefined. *)
Definition bucket_index (entries : list Entry) (k : K) : res nat :=
  if length entries =? 0 then Undef "modulo by zero"
  else Ok (Z.to_nat (hash_ k mod Z.of_nat (length entries))).

(** [(bucket_index + 1) % entries_.size()] *)
Definition next (entries : list Entry) (i : nat) : nat := (i + 1) mod length entries.

(** [state == ELEMENT && key.has_value() && key.value() != k] *)
Definition other_element (e : Entry) (k : K) : bool :=
  bool_decide (state e = ELEMENT)
  && match key e with Some k' => negb (bool_decide (k' = k)) | None => false end.

(** The loop of [InternalFind]. *)
Fixpoint find_loop (fuel : nat) (entries : list Entry) (k : K) (initial i : nat) : res (option nat) :=
  match fuel with
  | O => NoFuel
  | S f =>
      match entries !! i with
      | None => Undef "vector index"
      | Some e =>
          if bool_decide (state e = DELETED) || other_element e k then
            let i := next entries i in
            if i =? initial then Ok None else find_loop f entries k initial i
          else if bool_decide (state e = ELEMENT) then Ok (Some i) else Ok None
      end
  end.

Definition find_slot (entries : list Entry) (k : K) : res (option nat) :=
  i ← bucket_index entries k; find_loop (length entries) entries k i i.

(** What it returns: [static_cast<int>(bucket_index)], or -1. *)
Definition InternalFind (entries : list Entry) (k : K) : res Z :=
  o ← find_slot entries k;
  Ok (match o with Some i => cast_int32 (Z.of_nat i) | None => (-1)%Z end).

(** [entries_[i]] for such an index. *)
Definition slot (entries : list Entry) (i : Z) : res Entry :=
  if (i <? 0)%Z then Undef "vector index"
  else match entries !! Z.to_nat i with Some e => Ok e | None => Undef "vector index" end.

(** The loop of [InsertWithoutSize]: the slot it stops at. *)
Fixpoint insert_loop (fuel : nat) (entries : list Entry) (k : K) (i : nat) : res nat :=
  match fuel with
  | O => NoFuel
  | S f =>
      match entries !! i with
      | None => Undef "vector index"
      | Some e => if other_element e k then insert_loop f entries k (next entries i) else Ok i
      end
  end.

(** [size_ > load_factor_ * entries_.size()] *)
Definition overloaded (m : map) : bool :=
  (fst load_factor_ * Z.of_nat (length (entries_ m)) <? Z.of_nat (size_ m) * snd load_factor_)%Z.

Definition doubled (n : nat) : nat := Nat.max 2 (n * 2).

(** The loop of [Resize] over the old entries, with [InsertWithoutSize] as
    [insert]. *)
Fixpoint reinsert (insert : map -> K -> V -> res map) (old : list Entry) (m : map) : res map :=
  match old with
  | [] => Ok m
  | e :: old =>
      if bool_decide (state e = ELEMENT) then
        match key e, value e with
        | Some k, Some v => m ← insert m k v; reinsert insert old m
        | _, _ => Undef "value() of std::nullopt"
        end
      else reinsert insert old m
  end.

(** [InsertWithoutSize] and [Resize] call each other; the fuel bounds the depth
    of the calls. *)
Fixpoint InsertWithoutSize (fuel : nat) (m : map) (k : K) (v : V) : res map :=
  match fuel with
  | O => NoFuel
  | S f =>
      m ← (if overloaded m then
             reinsert (InsertWithoutSize f) (entries_ m)
               (mkMap (replicate (doubled (length (entries_ m))) empty_entry) (size_ m))
           else Ok m);
      i ← bucket_index (entries_ m) k;
      i ← insert_loop (length (entries_ m)) (entries_ m) k i;
      Ok (mkMap (<[i := mkEntry ELEMENT (Some k) (Some v)]> (entries_ m)) (size_ m))
  end.

Definition Insert (fuel : nat) (m : map) (k : K) (v : V) : res map :=
  m ← InsertWithoutSize fuel m k v; Ok (mkMap (entries_ m) (size_ m + 1)).

Definition LookUp (m : map) (k : K) : res (option V) :=
  value_bucket_index ← InternalFind (entries_ m) k;
  if negb (value_bucket_index =? -1)%Z then
    e ← slot (entries_ m) value_bucket_index;
    match value e with Some v => Ok (Some v) | None => Undef "value() of std::nullopt" end
  else Ok None.

(** The key and value stay in the slot. *)
Definition Remove (m : map) (k : K) : res map :=
  bucket_index ← InternalFind (entries_ m) k;
  if negb (bucket_index =? -1)%Z then
    e ← slot (entries_ m) bucket_index;
    Ok (mkMap (<[Z.to_nat bucket_index := mkEntry DELETED (key e) (value e)]> (entries_ m)) (size_ m))
  else Ok m.

Definition ForEach (m : map) : list (K * V) :=
  omap (fun e => if bool_decide (state e = ELEMENT) then
                   match key e, value e with Some k, Some v => Some (k, v) | _, _ => None end
                 else None) (entries_ m).

(** ** Invariant *)

(** Slot [j] holds the pair. *)
Definition holds (es : list Entry) (j : nat) (k : K) (v : V) : Prop :=
  es !! j = Some (mkEntry ELEMENT (Some k) (Some v)).

Definition elements (es : list Entry) : list (K * V) :=
  omap (fun e => if bool_decide (state e = ELEMENT) then
                   match key e, value e with Some k, Some v => Some (k, v) | _, _ => None end
                 else None) es.

Definition home (n : nat) (k : K) : nat := Z.to_nat (hash_ k mod Z.of_nat n).

(** The slot [d] steps from [h]. *)
Definition pos (n h d : nat) : nat := (h + d) mod n.

Record inv (es : list Entry) : Prop := {
  inv_nonempty : 0 < length es;
  inv_wf : forall j e, es !! j = Some e -> state e = ELEMENT ->
             exists k v, e = mkEntry ELEMENT (Some k) (Some v);
  inv_nodup : NoDup (elements es).*1;
  (* every slot of the probe before an element is in use *)
  inv_reach : forall j k v, holds es j k v ->
    exists d, d < length es /\ j = pos (length es) (home (length es) k) d
      /\ forall d', d' < d -> exists e,
           es !! pos (length es) (home (length es) k) d' = Some e /\ state e <> EMPTY
}.

(** ** Lemmas: positions *)

Lemma home_lt n k : 0 < n -> home n k < n.
Proof. intros Hn. unfold home. pose proof (Z.mod_pos_bound (hash_ k) (Z.of_nat n)). lia. Qed.

Lemma pos_lt n h d : 0 < n -> pos n h d < n.
Proof. intros Hn. apply Nat.mod_upper_bound. lia. Qed.

Lemma pos_0 n h : h < n -> pos n h 0 = h.
Proof. intros Hn. unfold pos. rewrite Nat.add_0_r. by apply Nat.mod_small. Qed.

Lemma pos_inj n h d d' : d < n -> d' < n -> pos n h d = pos n h d' -> d = d'.
Proof.
  unfold pos. intros Hd Hd' He. destruct (Nat.le_ge_cases d d').
  - apply mod_window_inj in He; lia.
  - symmetry in He. apply mod_window_inj in He; lia.
Qed.

Lemma pos_surj n h j : h < n -> j < n -> exists d, d < n /\ pos n h d = j.
Proof.
  intros Hh Hj. unfold pos. destruct (Nat.le_gt_cases h j).
  - exists (j - h). split; [lia|]. replace (h + (j - h)) with j by lia. by apply Nat.mod_small.
  - exists (n - h + j). split; [lia|]. replace (h + (n - h + j)) with (j + 1 * n) by lia.
    rewrite Nat.Div0.mod_add. by apply Nat.mod_small.
Qed.

Lemma next_pos es h d : next es (pos (length es) h d) = pos (length es) h (d + 1).
Proof. unfold next, pos. rewrite Nat.Div0.add_mod_idemp_l. by rewrite Nat.add_assoc. Qed.

(** ** Lemmas: elements *)

Lemma elements_app a b : elements (a ++ b) = elements a ++ elements b.
Proof. apply omap_app. Qed.

Lemma elem_of_elements es k v : (forall j e, es !! j = Some e -> state e = ELEMENT ->
    exists k v, e = mkEntry ELEMENT (Some k) (Some v)) ->
  (k, v) ∈ elements es <-> exists j, holds es j k v.
Proof.
  intros Hwf. unfold elements. rewrite list_elem_of_omap. split.
  - intros (e & [j Hj]%list_elem_of_lookup & He). exists j. unfold holds.
    case_bool_decide as Hs; [|done]. destruct (Hwf j e Hj Hs) as (k' & v' & ->). cbn in He. congruence.
  - intros [j Hj]. exists (mkEntry ELEMENT (Some k) (Some v)). split; [|done].
    apply list_elem_of_lookup. eauto.
Qed.

(** Changing one slot. *)
Lemma elements_insert es i e e' : es !! i = Some e ->
  exists A B, elements es = A ++ elements [e] ++ B /\ elements (<[i := e']> es) = A ++ elements [e'] ++ B.
Proof.
  intros Hi. exists (elements (take i es)), (elements (drop (S i) es)).
  pose proof (lookup_lt_Some _ _ _ Hi). split.
  - rewrite <- (take_drop_middle _ _ _ Hi) at 1. rewrite elements_app. f_equal.
    change (e :: drop (S i) es) with ([e] ++ drop (S i) es). apply elements_app.
  - rewrite insert_take_drop by done. rewrite elements_app. f_equal.
    change (e' :: drop (S i) es) with ([e'] ++ drop (S i) es). apply elements_app.
Qed.

(** Fewer elements than slots: some slot is free. *)
Lemma free_slot es : (forall j e, es !! j = Some e -> state e = ELEMENT ->
    exists k v, e = mkEntry ELEMENT (Some k) (Some v)) ->
  length (elements es) < length es -> exists j e, es !! j = Some e /\ state e <> ELEMENT.
Proof.
  induction es as [|e es IH]; intros Hwf Hl; [cbn in Hl; lia|].
  destruct (decide (state e = ELEMENT)) as [Hs|Hs]; [|by exists 0, e].
  destruct (Hwf 0 e eq_refl Hs) as (k & v & ->).
  change (elements (mkEntry ELEMENT (Some k) (Some v) :: es)) with ((k, v) :: elements es) in Hl.
  cbn [length] in Hl.
  destruct IH as (j & e & Hj & He); [intros j; apply (Hwf (S j))|lia|]. by exists (S j), e.
Qed.

Definition abs (es : list Entry) : gmap K V := list_to_map (elements es).

Lemma abs_lookup es k v : inv es -> abs es !! k = Some v <-> exists j, holds es j k v.
Proof.
  intros [_ Hwf Hnd _]. rewrite <- elem_of_elements by done. unfold abs. symmetry.
  by apply elem_of_list_to_map.
Qed.

Lemma abs_lookup_None es k : inv es -> abs es !! k = None -> forall j v, ~ holds es j k v.
Proof.
  intros Hi Hk j v Hj. assert (abs es !! k = Some v) by (apply abs_lookup; eauto). congruence.
Qed.

Lemma holds_unique es k j j' v v' : inv es -> holds es j k v -> holds es j' k v' -> j = j'.
Proof.
  intros [_ Hwf Hnd _] Hj Hj'. destruct (decide (j = j')) as [|Hne]; [done|].
  destruct (elements_insert es j _ empty_entry Hj) as (A & B & He & Hd). rewrite He in Hnd.
  assert ((k, v') ∈ elements (<[j := empty_entry]> es)) as Hin.
  { apply elem_of_elements.
    - intros i e Hi Hs. apply list_lookup_insert_Some in Hi as [(-> & <- & _)|[_ Hi]]; [done|eauto].
    - exists j'. unfold holds. by rewrite list_lookup_insert_ne. }
  rewrite Hd in Hin. cbn in Hin, Hnd. rewrite fmap_app in Hnd.
  apply NoDup_app in Hnd as (_ & Hdisj & [Hk _]%NoDup_cons).
  apply elem_of_app in Hin as [Hin|Hin].
  - destruct (Hdisj k); [by apply (list_elem_of_fmap_2 fst _ (k, v'))|left].
  - destruct Hk. by apply (list_elem_of_fmap_2 fst _ (k, v')).
Qed.

(** ** Probing *)

Lemma bucket_index_home es k : 0 < length es -> bucket_index es k = Ok (home (length es) k).
Proof. intros Hn. unfold bucket_index. by rewrite (proj2 (Nat.eqb_neq _ 0)) by lia. Qed.

(** An entry the probe for [k] walks over. *)
Lemma skipped es j e k : inv es -> es !! j = Some e -> state e <> EMPTY -> (forall v, ~ holds es j k v) ->
  bool_decide (state e = DELETED) || other_element e k = true.
Proof.
  intros [_ Hwf _ _] Hj Hne Hk. destruct e as [[] ke ve]; try done.
  destruct (Hwf j _ Hj eq_refl) as (k' & v' & [= -> ->]). cbn. unfold other_element. cbn.
  rewrite (bool_decide_false (k' = k)); [done|]. intros ->. by apply (Hk v').
Qed.

(** A key that is in the map is found. *)
Lemma find_loop_present es k j v dj : inv es -> holds es j k v -> dj < length es ->
  (let h := home (length es) k in j = pos (length es) h dj
   /\ forall d', d' < dj -> exists e, es !! pos (length es) h d' = Some e /\ state e <> EMPTY) ->
  forall fuel d, d <= dj -> dj - d < fuel ->
  find_loop fuel es k (home (length es) k) (pos (length es) (home (length es) k) d) = Ok (Some j).
Proof.
  intros Hi Hj Hdj [Hjp Hpath] fuel. set (n := length es) in *. set (h := home n k) in *.
  pose proof (inv_nonempty es Hi) as Hn. assert (h < n) by by apply home_lt.
  induction fuel as [|fuel IH]; intros d Hd Hf; [lia|]. cbn [find_loop].
  destruct (decide (d = dj)) as [->|Hne].
  - rewrite <- Hjp, Hj. unfold other_element. cbn [state key]. by rewrite (bool_decide_true (k = k)).
  - destruct (Hpath d ltac:(lia)) as (e & He & Hs). rewrite He.
    rewrite (skipped es _ e k Hi He Hs).
    + unfold n at 1 2. rewrite next_pos. fold n. rewrite (proj2 (Nat.eqb_neq _ _)).
      * apply IH; lia.
      * rewrite <- (pos_0 n h) at 2 by done. intros E. apply pos_inj in E; lia.
    + intros v' Hv'. assert (pos n h d = j) as E by (by eapply holds_unique).
      rewrite Hjp in E. apply pos_inj in E; lia.
Qed.

(** A key that is not in the map is not found, and the probe ends. *)
Lemma find_loop_absent es k : inv es -> (forall j v, ~ holds es j k v) ->
  forall fuel d, d < length es -> length es - d <= fuel ->
  find_loop fuel es k (home (length es) k) (pos (length es) (home (length es) k) d) = Ok None.
Proof.
  intros Hi Habs fuel. set (n := length es) in *. set (h := home n k) in *.
  pose proof (inv_nonempty es Hi) as Hn. assert (h < n) by by apply home_lt.
  induction fuel as [|fuel IH]; intros d Hd Hf; [lia|]. cbn [find_loop].
  destruct (lookup_lt_is_Some_2 es (pos n h d)) as [e He]; [by apply pos_lt|]. rewrite He.
  destruct (decide (state e = EMPTY)) as [Hs|Hs].
  - destruct e as [[] ke ve]; try done.
  - rewrite (skipped es _ e k Hi He Hs) by done. unfold n at 1 2. rewrite next_pos. fold n.
    destruct (decide (d + 1 = n)) as [Hlast|].
    + assert (pos n h (d + 1) = h) as E.
      { rewrite Hlast. unfold pos. replace (h + n) with (h + 1 * n) by lia.
        rewrite Nat.Div0.mod_add. by apply Nat.mod_small. }
      rewrite E, Nat.eqb_refl. done.
    + rewrite (proj2 (Nat.eqb_neq _ _)); [apply IH; lia|].
      rewrite <- (pos_0 n h) at 2 by done. intros E. apply pos_inj in E; lia.
Qed.

Lemma find_slot_spec es k : inv es ->
  (exists j v, find_slot es k = Ok (Some j) /\ holds es j k v /\ abs es !! k = Some v)
  \/ (find_slot es k = Ok None /\ abs es !! k = None).
Proof.
  intros Hi. pose proof (inv_nonempty es Hi) as Hn. unfold find_slot.
  rewrite bucket_index_home by done. cbn [mbind res_bind].
  pose proof (home_lt (length es) k Hn) as Hh.
  replace (find_loop (length es) es k (home (length es) k) (home (length es) k))
    with (find_loop (length es) es k (home (length es) k) (pos (length es) (home (length es) k) 0))
    by (by rewrite pos_0).
  destruct (abs es !! k) as [v|] eqn:E.
  - left. destruct (proj1 (abs_lookup es k v Hi) E) as [j Hj].
    destruct (inv_reach es Hi j k v Hj) as (d & Hd & Hjp & Hpath).
    exists j, v. split_and!; [|done|done].
    eapply find_loop_present; [done|exact Hj|exact Hd|done|lia|lia].
  - right. split; [|done]. apply find_loop_absent; [done|by apply abs_lookup_None|lia|lia].
Qed.

(** The bound on the table for which no index is lost as an [int]. *)
Definition table_fits (es : list Entry) : Prop := (Z.of_nat (length es) <= 2 ^ 31)%Z.

Lemma find_loop_range es k initial f : forall i j, find_loop f es k initial i = Ok (Some j) -> j < length es.
Proof.
  induction f as [|f IH]; intros i j Hj; [done|]. cbn in Hj. destruct (es !! i) eqn:He; [|done].
  repeat case_match; simplify_eq; [by eapply IH|by eapply lookup_lt_Some].
Qed.

Lemma find_slot_range es k j : find_slot es k = Ok (Some j) -> j < length es.
Proof. unfold find_slot. destruct (bucket_index es k); try done. apply find_loop_range. Qed.

(** The [int] that stands for a result. *)
Definition as_int (r : res (option nat)) : res Z :=
  o ← r; Ok (match o with Some i => Z.of_nat i | None => (-1)%Z end).

Lemma InternalFind_int es k : table_fits es -> InternalFind es k = as_int (find_slot es k).
Proof.
  unfold table_fits. intros Hf. unfold InternalFind, as_int. pose proof (find_slot_range es k) as Hr.
  destruct (find_slot es k) as [[i|]| | |]; try done. specialize (Hr i eq_refl). cbn [mbind res_bind].
  by rewrite cast_int32_small by lia.
Qed.

Lemma slot_nat es (i : nat) : slot es (Z.of_nat i) = match es !! i with Some e => Ok e | None => Undef "vector index" end.
Proof. unfold slot. rewrite (proj2 (Z.ltb_ge _ _)) by lia. by rewrite Nat2Z.id. Qed.

Lemma probe_LookUp_spec m k : inv (entries_ m) -> table_fits (entries_ m) -> LookUp m k = Ok (abs (entries_ m) !! k).
Proof.
  intros Hi Hf. unfold LookUp. rewrite InternalFind_int by done.
  destruct (find_slot_spec _ k Hi) as [(j & v & -> & Hj & ->)|[-> ->]]; [|done].
  cbn [as_int mbind res_bind]. rewrite (proj2 (Z.eqb_neq _ _)) by lia. cbn [negb]. rewrite slot_nat. by rewrite Hj.
Qed.

(** A table that is not full has a free slot on every probe. *)
Lemma insert_loop_spec es k : inv es -> (forall j v, ~ holds es j k v) -> length (elements es) < length es ->
  exists d, d < length es
    /\ insert_loop (length es) es k (home (length es) k) = Ok (pos (length es) (home (length es) k) d)
    /\ (exists e, es !! pos (length es) (home (length es) k) d = Some e /\ state e <> ELEMENT)
    /\ forall d', d' < d -> exists e,
         es !! pos (length es) (home (length es) k) d' = Some e /\ state e = ELEMENT.
Proof.
  intros Hi Habs Hfree. pose proof (inv_nonempty es Hi) as Hn. set (n := length es) in *.
  set (h := home n k). assert (h < n) as Hh by by apply home_lt.
  assert (exists dn, dn < n /\ exists e, es !! pos n h dn = Some e /\ state e <> ELEMENT) as (dn & Hdn & Hfull).
  { destruct (free_slot es (inv_wf es Hi) Hfree) as (j & e & Hj & He).
    destruct (pos_surj n h j Hh) as (d & Hd & <-); [by apply lookup_lt_Some in Hj|]. eauto. }
  assert (forall fuel d, n - d <= fuel -> d <= dn ->
    (forall d', d' < d -> exists e, es !! pos n h d' = Some e /\ state e = ELEMENT) ->
    exists d2, d2 < n /\ insert_loop fuel es k (pos n h d) = Ok (pos n h d2)
      /\ (exists e, es !! pos n h d2 = Some e /\ state e <> ELEMENT)
      /\ forall d', d' < d2 -> exists e, es !! pos n h d' = Some e /\ state e = ELEMENT) as Hgo.
  { induction fuel as [|fuel IH]; intros d Hf Hd Hprev; [lia|]. cbn [insert_loop].
    destruct (lookup_lt_is_Some_2 es (pos n h d)) as [e He]; [by apply pos_lt|]. rewrite He.
    destruct (decide (state e = ELEMENT)) as [Hs|Hs].
    - assert (other_element e k = true) as ->.
      { pose proof (skipped es _ e k Hi He) as Hsk. rewrite Hs in Hsk. cbn in Hsk. apply Hsk; [done|apply Habs]. }
      unfold n at 2. rewrite next_pos. fold n. apply IH; [lia| |].
      + destruct (decide (d = dn)) as [->|]; [|lia]. destruct Hfull as (e' & He' & Hs'). congruence.
      + intros d' Hd'. destruct (decide (d' = d)) as [->|]; [eauto|]. apply Hprev. lia.
    - exists d. split; [lia|]. unfold other_element. rewrite bool_decide_false by done. cbn. eauto. }
  destruct (Hgo n 0) as (d & H1 & H2 & H3 & H4); [lia|lia|lia|]. exists d. rewrite pos_0 in H2 by done. done.
Qed.

(** ** Changing a slot *)

(** A new element in the first free slot of its probe. *)
Lemma insert_slot es k v d : inv es -> abs es !! k = None ->
  let i := pos (length es) (home (length es) k) d in
  d < length es ->
  (exists e, es !! i = Some e /\ state e <> ELEMENT) ->
  (forall d', d' < d -> exists e,
     es !! pos (length es) (home (length es) k) d' = Some e /\ state e = ELEMENT) ->
  let es' := <[i := mkEntry ELEMENT (Some k) (Some v)]> es in
  inv es' /\ elements es' ≡ₚ (k, v) :: elements es.
Proof.
  intros Hi Hk i Hd (e & He & Hs) Hpath es'. pose proof (lookup_lt_Some _ _ _ He) as Hlt.
  destruct (elements_insert es i e (mkEntry ELEMENT (Some k) (Some v)) He) as (A & B & E1 & E2).
  assert (elements [e] = []) as Ee by (unfold elements; cbn; by rewrite bool_decide_false).
  rewrite Ee in E1. cbn in E1. assert (elements es' ≡ₚ (k, v) :: elements es) as Hp.
  { rewrite E1. unfold es'. rewrite E2. cbn. solve_Permutation. }
  split; [|done]. split.
  - unfold es'. rewrite length_insert. apply Hi.
  - intros j x Hj Hx. apply list_lookup_insert_Some in Hj as [(-> & <- & _)|[_ Hj]]; [eauto|].
    by eapply inv_wf.
  - rewrite Hp. cbn. apply NoDup_cons. split; [|apply Hi].
    by apply not_elem_of_list_to_map_2.
  - unfold es'. rewrite length_insert. intros j k' v' Hj. unfold holds in Hj.
    apply list_lookup_insert_Some in Hj as [(<- & [= <- <-] & _)|[Hne Hj]].
    + exists d. split_and!; [done|done|]. intros d' Hd'. destruct (Hpath d' Hd') as (x & Hx & Hxs).
      exists x. rewrite list_lookup_insert_ne; [split; [done|congruence]|].
      intros Hij. apply pos_inj in Hij; lia.
    + destruct (inv_reach es Hi j k' v' Hj) as (dj & Hdj & -> & Hpj). exists dj. split_and!; [done|done|].
      intros d' Hd'. destruct (Hpj d' Hd') as (x & Hx & Hxs).
      destruct (decide (i = pos (length es) (home (length es) k') d')) as [<-|Hij].
      * rewrite list_lookup_insert_eq by done. by eexists.
      * rewrite list_lookup_insert_ne by done. eauto.
Qed.

Lemma abs_insert es es' k v : inv es -> abs es !! k = None -> elements es' ≡ₚ (k, v) :: elements es ->
  inv es' -> abs es' = <[k := v]> (abs es).
Proof.
  intros Hi Hk Hp Hi'. unfold abs. rewrite (list_to_map_proper _ _ (inv_nodup es' Hi') Hp). done.
Qed.

(** A tombstone in place of an element. *)
Lemma delete_slot es j k v : inv es -> holds es j k v ->
  let es' := <[j := mkEntry DELETED (Some k) (Some v)]> es in
  inv es' /\ abs es' = delete k (abs es) /\ length (elements es') <= length (elements es).
Proof.
  intros Hi Hj es'. subst es'.
  destruct (elements_insert es j _ (mkEntry DELETED (Some k) (Some v)) Hj) as (A & B & E1 & E2).
  change (elements [mkEntry ELEMENT (Some k) (Some v)]) with [(k, v)] in E1.
  change (elements [mkEntry DELETED (Some k) (Some v)]) with (@nil (K * V)) in E2. cbn [app] in E2.
  pose proof (inv_nodup es Hi) as Hnd. rewrite E1 in Hnd.
  assert (A ++ [(k, v)] ++ B ≡ₚ (k, v) :: A ++ B) as Hp by solve_Permutation.
  assert (NoDup ((k, v) :: A ++ B).*1) as Hnd' by (by rewrite <- Hp). cbn in Hnd'.
  apply NoDup_cons in Hnd' as [Hk Hnd']. split; [split|split].
  - rewrite length_insert. apply Hi.
  - intros i x Hx Hs. apply list_lookup_insert_Some in Hx as [(-> & <- & _)|[_ Hx]]; [done|].
    by eapply inv_wf.
  - by rewrite E2.
  - rewrite length_insert. intros i k' v' Hh. unfold holds in Hh.
    apply list_lookup_insert_Some in Hh as [(_ & [=] & _)|[Hne Hh]].
    destruct (inv_reach es Hi i k' v' Hh) as (di & Hdi & -> & Hpi). exists di. split_and!; [done|done|].
    intros d' Hd'. destruct (Hpi d' Hd') as (x & Hx & Hxs).
    destruct (decide (j = pos (length es) (home (length es) k') d')) as [<-|Hij].
    + rewrite list_lookup_insert_eq by (by eapply lookup_lt_Some). by eexists.
    + rewrite list_lookup_insert_ne by done. eauto.
  - unfold abs. rewrite E2, E1. rewrite (list_to_map_proper _ _ Hnd Hp). cbn.
    rewrite delete_insert_id; [done|]. by apply not_elem_of_list_to_map_1.
  - rewrite E1, E2, !length_app. cbn. lia.
Qed.

Lemma probe_Remove_spec m k : inv (entries_ m) -> table_fits (entries_ m) ->
  exists m', Remove m k = Ok m' /\ inv (entries_ m') /\ abs (entries_ m') = delete k (abs (entries_ m))
    /\ size_ m' = size_ m /\ length (entries_ m') = length (entries_ m)
    /\ length (elements (entries_ m')) <= length (elements (entries_ m)).
Proof.
  intros Hi Hf. unfold Remove. rewrite InternalFind_int by done.
  destruct (find_slot_spec _ k Hi) as [(j & v & -> & Hj & Hk)|[-> Hk]]; cbn [as_int mbind res_bind].
  - rewrite (proj2 (Z.eqb_neq _ _)) by lia. cbn [negb]. rewrite slot_nat, Hj, Nat2Z.id. eexists. split; [reflexivity|].
    destruct (delete_slot _ j k v Hi Hj) as (H1 & H2 & H3). cbn. by rewrite length_insert.
  - eexists. split; [reflexivity|]. by rewrite delete_id.
Qed.

(** ** Inserting, in a table that is not overloaded *)

Lemma InsertWithoutSize_fits f m k v : inv (entries_ m) -> abs (entries_ m) !! k = None ->
  overloaded m = false -> length (elements (entries_ m)) < length (entries_ m) ->
  exists es', InsertWithoutSize (S f) m k v = Ok (mkMap es' (size_ m)) /\ inv es'
    /\ abs es' = <[k := v]> (abs (entries_ m)) /\ length es' = length (entries_ m)
    /\ elements es' ≡ₚ (k, v) :: elements (entries_ m).
Proof.
  intros Hi Hk Ho Hfree. cbn [InsertWithoutSize]. rewrite Ho. cbn [mbind res_bind].
  rewrite bucket_index_home by apply Hi. cbn [mbind res_bind].
  destruct (insert_loop_spec (entries_ m) k Hi) as (d & Hd & -> & Hfr & Hpath);
    [by apply abs_lookup_None|done|]. cbn [mbind res_bind].
  destruct (insert_slot (entries_ m) k v d Hi Hk Hd Hfr Hpath) as [H1 H2].
  eexists. split; [done|]. split; [done|]. split; [by apply abs_insert|]. split; [by rewrite length_insert|done].
Qed.

Lemma InsertWithoutSize_S f m k v :
  InsertWithoutSize (S f) m k v =
    (m ← (if overloaded m then
             reinsert (InsertWithoutSize f) (entries_ m)
               (mkMap (replicate (doubled (length (entries_ m))) empty_entry) (size_ m))
           else Ok m);
     i ← bucket_index (entries_ m) k;
     i ← insert_loop (length (entries_ m)) (entries_ m) k i;
     Ok (mkMap (<[i := mkEntry ELEMENT (Some k) (Some v)]> (entries_ m)) (size_ m))).
Proof. reflexivity. Qed.

(** The loop of [Resize], into a table with room for all. *)
Lemma reinsert_spec f old : forall m,
  (forall j e, old !! j = Some e -> state e = ELEMENT -> exists k v, e = mkEntry ELEMENT (Some k) (Some v)) ->
  NoDup (elements old).*1 -> (forall k, k ∈ (elements old).*1 -> abs (entries_ m) !! k = None) ->
  inv (entries_ m) -> overloaded m = false ->
  length (elements old) + length (elements (entries_ m)) < length (entries_ m) ->
  exists es', reinsert (InsertWithoutSize (S f)) old m = Ok (mkMap es' (size_ m)) /\ inv es'
    /\ abs es' = list_to_map (elements old) ∪ abs (entries_ m) /\ length es' = length (entries_ m)
    /\ length (elements es') = length (elements old) + length (elements (entries_ m)).
Proof.
  induction old as [|e old IH]; intros m Hwf Hnd Hfresh Hi Ho Hroom; cbn [reinsert].
  - exists (entries_ m). destruct m as [es n]. cbn. split_and!; [done|done| |done|done].
    symmetry. apply (left_id_L ∅ (∪)).
  - case_bool_decide as Hs.
    + destruct (Hwf 0 e eq_refl Hs) as (k & v & ->). cbn [key value].
      change (elements (mkEntry ELEMENT (Some k) (Some v) :: old)) with ((k, v) :: elements old) in *.
      cbn [fmap list_fmap fst length] in *. apply NoDup_cons in Hnd as [Hk Hnd].
      destruct (InsertWithoutSize_fits f m k v Hi) as (es1 & E1 & Hi1 & Ha1 & Hl1 & Hp1);
        [apply Hfresh; left|done|lia|]. rewrite E1. cbn [mbind res_bind].
      destruct (IH (mkMap es1 (size_ m))) as (es2 & E2 & Hi2 & Ha2 & Hl2 & Hc2); cbn [entries_ size_] in *.
      * intros j. apply (Hwf (S j)).
      * done.
      * intros k' Hk'. rewrite Ha1, lookup_insert_ne; [apply Hfresh; by right|]. intros <-. done.
      * done.
      * unfold overloaded in *. cbn. by rewrite Hl1.
      * rewrite Hp1, Hl1. cbn. lia.
      * exists es2. rewrite E2. split_and!; [done|done| |by rewrite Hl2|rewrite Hc2, Hp1; cbn; lia].
        rewrite Ha2, Ha1. cbn. rewrite <- insert_union_r; [by rewrite insert_union_l|].
        by apply not_elem_of_list_to_map_1.
    + assert (elements (e :: old) = elements old) as He
        by (unfold elements; cbn; by rewrite bool_decide_false).
      rewrite He in *. apply IH; try done. intros j. apply (Hwf (S j)).
Qed.

End LinearProbingHashmap.
Arguments Entry K V : clear implicits.
Arguments map K V : clear implicits.

(** ** With the default load factor *)

Section Default.
Context {K V : Type} `{Countable K}.
Context (hash_ : K -> Z).

(** [size_] counts the insertions ever made, so it bounds the elements; a table
    is at most one insertion over the limit of three quarters. *)
Definition table_ok (m : map K V) : Prop :=
  inv hash_ (entries_ m) /\ length (elements (entries_ m)) <= size_ m
  /\ 2 <= length (entries_ m) /\ 4 * size_ m <= 3 * length (entries_ m) + 4.

Lemma overloaded_default (m : map K V) :
  overloaded kDefaultLoadFactor m = (3 * length (entries_ m) <? 4 * size_ m).
Proof.
  unfold overloaded, kDefaultLoadFactor. cbn [fst snd].
  destruct (3 * length (entries_ m) <? 4 * size_ m) eqn:E; reflect_bools;
    [apply Z.ltb_lt|apply Z.ltb_ge]; lia.
Qed.

Lemma elements_empty n : elements (replicate n (@empty_entry K V)) = [].
Proof. unfold elements. induction n as [|n IH]; cbn; [done|]. by rewrite IH. Qed.

Lemma inv_empty n : 0 < n -> inv hash_ (replicate n (@empty_entry K V)).
Proof.
  intros Hn. split.
  - by rewrite length_replicate.
  - intros j e He Hs. by apply lookup_replicate in He as [-> _].
  - rewrite elements_empty. constructor.
  - intros j k v Hj. by apply lookup_replicate in Hj as [? _].
Qed.

Lemma table_ok_init n : 2 <= n -> table_ok (init n).
Proof.
  intros Hn. unfold table_ok, init. cbn [entries_ size_]. rewrite elements_empty, length_replicate.
  split; [apply inv_empty; lia|]. cbn. lia.
Qed.

(** The slots after a possible [Resize]. *)
Definition grown (m : map K V) : nat :=
  if overloaded kDefaultLoadFactor m then doubled (length (entries_ m)) else length (entries_ m).

(** The table [InsertWithoutSize] works on: resized if need be, it has room. *)
Lemma resized_spec (m : map K V) : table_ok m ->
  exists m1, (if overloaded kDefaultLoadFactor m then
             reinsert (InsertWithoutSize hash_ kDefaultLoadFactor 1) (entries_ m)
               (mkMap (replicate (doubled (length (entries_ m))) empty_entry) (size_ m))
           else Ok m) = Ok m1
    /\ inv hash_ (entries_ m1) /\ abs (entries_ m1) = abs (entries_ m) /\ size_ m1 = size_ m
    /\ overloaded kDefaultLoadFactor m1 = false /\ length (elements (entries_ m1)) <= size_ m1
    /\ 2 <= length (entries_ m1) /\ length (entries_ m1) = grown m.
Proof.
  intros (Hi & Hel & Hcap & Hsz). unfold grown. destruct (overloaded kDefaultLoadFactor m) eqn:Ho.
  2: { exists m. done. }
  set (n := doubled (length (entries_ m))). assert (n = 2 * length (entries_ m)) as Hn by (unfold n, doubled; lia).
  set (m0 := mkMap (replicate n empty_entry) (size_ m)).
  assert (overloaded kDefaultLoadFactor m0 = false) as Ho0.
  { rewrite overloaded_default. cbn. rewrite length_replicate. apply Nat.ltb_ge. lia. }
  assert (length (entries_ m0) = n) as Hl0 by apply length_replicate.
  assert (elements (entries_ m0) = []) as He0 by apply elements_empty.
  rewrite overloaded_default in Ho0. rewrite Hl0 in Ho0. cbn [size_ m0] in Ho0. reflect_bools.
  destruct (reinsert_spec hash_ kDefaultLoadFactor 0 (entries_ m) m0) as (es & E & H1 & H2 & H3 & H4).
  - apply Hi.
  - apply Hi.
  - intros k _. unfold abs. rewrite He0. apply lookup_empty.
  - apply inv_empty. lia.
  - rewrite overloaded_default, Hl0. cbn. apply Nat.ltb_ge. lia.
  - rewrite He0, Hl0. cbn. lia.
  - exists (mkMap es (size_ m)). split; [exact E|]. cbn [entries_ size_].
    rewrite overloaded_default. cbn [entries_ size_]. rewrite H2, H3, H4, Hl0, He0.
    split; [done|]. split; [unfold abs at 1; rewrite He0; apply (right_id_L ∅ (∪))|].
    split; [done|]. split; [apply Nat.ltb_ge; lia|]. cbn. split_and!; [lia|lia|done].
Qed.

Lemma probe_Insert_spec (m : map K V) k v : table_ok m -> abs (entries_ m) !! k = None ->
  exists m', Insert hash_ kDefaultLoadFactor 2 m k v = Ok m' /\ table_ok m'
    /\ abs (entries_ m') = <[k := v]> (abs (entries_ m))
    /\ length (entries_ m') = grown m /\ size_ m' = size_ m + 1.
Proof.
  intros Hm Hk. destruct (resized_spec m Hm) as (m1 & E & Hi & Ha & Hs & Ho & Hel & Hcap & Hg).
  pose proof Ho as Ho'. rewrite overloaded_default in Ho'. reflect_bools.
  destruct (InsertWithoutSize_fits hash_ kDefaultLoadFactor 0 m1 k v Hi) as (es & E1 & H1 & H2 & H3 & H4);
    [by rewrite Ha|done|lia|].
  exists (mkMap es (size_ m + 1)). split; [|split; [|split_and!]].
  - unfold Insert. rewrite InsertWithoutSize_S in E1 |- *. rewrite Ho in E1. rewrite E.
    cbn [mbind res_bind] in *. rewrite E1. cbn. by rewrite Hs.
  - unfold table_ok. cbn [entries_ size_]. rewrite H4, H3. cbn. split; [done|lia].
  - cbn [entries_]. by rewrite H2, Ha.
  - cbn [entries_]. by rewrite H3.
  - done.
Qed.

(** A table after at most [n] insertions, small enough for [InternalFind]. *)
Definition good (n : nat) (m : map K V) : Prop := table_ok m /\ table_fits (entries_ m) /\ size_ m <= n.

Lemma good_init n : 2 <= n -> (Z.of_nat n <= 2 ^ 31)%Z -> good 0 (init n).
Proof. intros H1 H2. split; [by apply table_ok_init|]. split; [|done]. unfold table_fits. cbn. by rewrite length_replicate. Qed.

Lemma good_mono n n' m : n <= n' -> good n m -> good n' m.
Proof. intros Hn (H1 & H2 & H3). split_and!; [done|done|lia]. Qed.

(** One insertion more: the table is doubled only when it has fewer than four
    thirds as many slots as there have been insertions. *)
Lemma good_Insert n m k v : good n m -> abs (entries_ m) !! k = None -> (3 * Z.of_nat (S n) <= 2 ^ 31)%Z ->
  exists m', Insert hash_ kDefaultLoadFactor 2 m k v = Ok m' /\ good (S n) m' /\ abs (entries_ m') = <[k := v]> (abs (entries_ m)).
Proof.
  intros (Hok & Hf & Hn) Hk Hb. destruct (probe_Insert_spec m k v Hok Hk) as (m' & E & Hok' & Ha & Hl & Hs).
  exists m'. split; [done|]. split; [|done]. split; [done|]. split; [|lia]. unfold table_fits in *. rewrite Hl.
  unfold grown. rewrite overloaded_default. pose proof Hok as (_ & _ & H2 & H4). unfold doubled. case_match; reflect_bools; lia.
Qed.

Lemma good_Remove n m k : good n m ->
  exists m', Remove hash_ m k = Ok m' /\ good n m' /\ abs (entries_ m') = delete k (abs (entries_ m)).
Proof.
  intros ((Hi & Hel & Hcap & Hsz) & Hf & Hn).
  destruct (probe_Remove_spec hash_ m k Hi Hf) as (m1 & E & Hi1 & Ha1 & Hs1 & Hl1 & Hc1). exists m1. split; [done|].
  split; [|done]. unfold good, table_ok, table_fits in *. rewrite Hs1, Hl1. split_and!; try done; lia.
Qed.

Lemma good_LookUp n m k : good n m -> LookUp hash_ m k = Ok (abs (entries_ m) !! k).
Proof. intros ((Hi & _) & Hf & _). by apply probe_LookUp_spec. Qed.

(** ** Sequences of operations *)

Inductive lp_op := LInsert (k : K) (v : V) | LRemove (k : K).

Definition run_lp (m : map K V) (op : lp_op) : res (map K V) :=
  match op with
  | LInsert k v => Insert hash_ kDefaultLoadFactor 2 m k v
  | LRemove k => Remove hash_ m k
  end.

Fixpoint run_lps (m : map K V) (l : list lp_op) : res (map K V) :=
  match l with
  | [] => Ok m
  | op :: l => m ← run_lp m op; run_lps m l
  end.

Definition finite_lp (a : gmap K V) (op : lp_op) : gmap K V :=
  match op with LInsert k v => <[k := v]> a | LRemove k => delete k a end.

(** No key is inserted while it is present. *)
Fixpoint fresh_inserts (a : gmap K V) (l : list lp_op) : Prop :=
  match l with
  | [] => True
  | op :: l =>
      match op with LInsert k _ => a !! k = None | LRemove _ => True end
      /\ fresh_inserts (finite_lp a op) l
  end.

Lemma run_lps_spec l : forall n m, good n m -> (3 * Z.of_nat (n + length l) <= 2 ^ 31)%Z -> fresh_inserts (abs (entries_ m)) l ->
  exists m', run_lps m l = Ok m' /\ good (n + length l) m'
    /\ abs (entries_ m') = fold_left finite_lp l (abs (entries_ m)).
Proof.
  induction l as [|[k v|k] l IH]; intros n m Hm Hb Hf; cbn [run_lps fold_left run_lp finite_lp length] in *;
    [rewrite Nat.add_0_r; eauto|rewrite Nat.add_succ_r in *..].
  - destruct Hf as [Hk Hf]. destruct (good_Insert n m k v Hm Hk ltac:(lia)) as (m1 & -> & Hm1 & Ha1). cbn [mbind res_bind].
    cbn in Hf. rewrite <- Ha1 in *. by apply (IH (S n)).
  - destruct Hf as [_ Hf]. destruct (good_Remove n m k Hm) as (m1 & -> & Hm1 & Ha1). cbn [mbind res_bind].
    cbn in Hf. rewrite <- Ha1 in *. apply (IH (S n)); [|done|done]. eapply good_mono; [|done]. lia.
Qed.

(** ** Theorems *)

(** Used with fresh keys, the table is a map: from any initial capacity
    between two and 2^31, through any sequence of at most 2^31 / 3 insertions of
    keys that are not present and removals (collisions, tombstones and resizes
    included) every operation returns, [LookUp] agrees with the finite map for every key, and
    [ForEach] visits exactly its elements. *)
Theorem linear_probing_refines (capacity : nat) (l : list lp_op) :
  2 <= capacity -> (Z.of_nat capacity <= 2 ^ 31)%Z -> (3 * Z.of_nat (length l) <= 2 ^ 31)%Z -> fresh_inserts ∅ l ->
  exists m, run_lps (init capacity) l = Ok m
    /\ (forall k, LookUp hash_ m k = Ok (fold_left finite_lp l ∅ !! k))
    /\ ForEach m ≡ₚ map_to_list (fold_left finite_lp l ∅).
Proof.
  intros Hc Hc' Hb Hf. assert (abs (entries_ (init capacity)) = (∅ : gmap K V)) as H0.
  { unfold abs, init. cbn [entries_]. by rewrite elements_empty. }
  rewrite <- H0 in Hf |- *.
  destruct (run_lps_spec l 0 (init capacity)) as (m & E & Hg & Ha); [by apply good_init|done|done|].
  exists m. split; [done|]. rewrite <- Ha. split; [intros k; by eapply good_LookUp|]. destruct Hg as ((Hi & _) & _).
  unfold abs. symmetry. apply map_to_list_to_map, (inv_nodup hash_ _ Hi).
Qed.

End Default.

(** Inserting a key that is present is wrong after a removal: the new
    element takes the slot of the tombstone, in front of the old one, which
    stays in the table.  After the key is removed it is found again, with its
    old value. *)
Theorem removed_key_reappears (old new other : Z) :
  exists m, run_lps (fun k : Z => k) (init 16)
      [LInsert 0%Z other; LInsert 16%Z old; LRemove 0%Z; LInsert 16%Z new; LRemove 16%Z] = Ok m
    /\ LookUp (fun k : Z => k) m 16%Z = Ok (Some old).
Proof. eexists. split; [vm_compute; reflexivity|]. vm_compute. reflexivity. Qed.

Lemma linear_probing_refines_witness :
  exists m, run_lps (fun k : Z => k) (init 2)
      [LInsert 0%Z 10%Z; LInsert 2%Z 12%Z; LRemove 0%Z; LInsert 4%Z 14%Z; LInsert 0%Z 11%Z] = Ok m
    /\ (forall k, LookUp (fun k : Z => k) m k
          = Ok (fold_left finite_lp [LInsert 0%Z 10%Z; LInsert 2%Z 12%Z; LRemove 0%Z; LInsert 4%Z 14%Z; LInsert 0%Z 11%Z] ∅ !! k))
    /\ ForEach m ≡ₚ map_to_list (fold_left finite_lp [LInsert 0%Z 10%Z; LInsert 2%Z 12%Z; LRemove 0%Z; LInsert 4%Z 14%Z; LInsert 0%Z 11%Z] ∅).
Proof.
  apply (linear_probing_refines (fun k : Z => k) 2
    [LInsert 0%Z 10%Z; LInsert 2%Z 12%Z; LRemove 0%Z; LInsert 4%Z 14%Z; LInsert 0%Z 11%Z]); [lia|lia|vm_compute; discriminate|].
  repeat split; vm_compute; reflexivity.
Defined.

End LinearProbingHashmap.
