(* ===== verification/MapObjects.v ===== *)
(** * The map classes of the second server as objects

    The special members of [v2/src/store/map/standard_map.h],
    [linked_list_hashmap.h] (which is move-only) and
    [linear_probing_hashmap.h], and the promise of Objects for each class.
    Theorem: the three classes are values, and a chained map that has been
    moved from reads as an empty one. *)

From S2P Require Import Prelude MapInterface Objects LinkedListHashmap LinearProbingHashmap.

(** ** [StandardMap] *)

Module StandardObjects.
Section StandardObjects.
Context {K V : Type} `{Countable K}.
Context (iteration_order : gmap K V -> list (K * V)).

(** What the library leaves of a map that is moved from. *)
Context (left : gmap K V).

(** The object is its member [data_]. *)
#[local] Abbreviation objects := (gmap positive (gmap K V)).

Definition copy_construct (os : objects) (this other : positive) : res objects :=
  data_ ← object_at os other; Ok (<[this := data_]> os).

Definition move_construct (os : objects) (this other : positive) : res objects :=
  data_ ← object_at os other; Ok (<[this := data_]> (<[other := left]> os)).

Definition copy_assign (os : objects) (this other : positive) : res objects :=
  if bool_decide (this = other) then Ok os
  else data_ ← object_at os other; Ok (<[this := data_]> os).

Definition move_assign (os : objects) (this other : positive) : res objects :=
  if bool_decide (this = other) then Ok os
  else data_ ← object_at os other; Ok (<[this := data_]> (<[other := left]> os)).

Instance object_ops : ObjectOps K V (gmap K V) := {
  construct_object os this _ := <[this := ∅]> os;
  copy_construct_object := copy_construct;
  move_construct_object := move_construct;
  copy_assign_object := copy_assign;
  move_assign_object := move_assign;
  insert_object o k v := Ok (StandardMap.Insert o k v);
  remove_object o k := Ok (StandardMap.Remove o k);
  lookup_object o k := Ok (StandardMap.LookUp o k);
  foreach_object o := Ok (StandardMap.ForEach iteration_order o)
}.

Hypothesis iteration_order_visits : forall m, iteration_order m ≡ₚ map_to_list m.

#[refine] Instance object_spec : ObjectSpec K V (gmap K V) := {
  copyable := true;
  overwrites := true;
  capacity_ok _ := true;
  calls_ok _ := True;
  stands _ o x := match x with Some m => o = m | None => True end
}.
Proof.
  all: try done.
  - intros os this c _. by eexists.
  - intros os this other o _ Ho. cbn. unfold copy_construct. by rewrite (object_at_Some _ _ _ Ho).
  - intros os this other o _ Ho. cbn. unfold copy_assign. case_bool_decide as E; [subst; by rewrite insert_id|].
    by rewrite (object_at_Some _ _ _ Ho).
  - intros os this other o Ho. cbn. unfold move_construct. rewrite (object_at_Some _ _ _ Ho). by eexists.
  - intros os this other o Ho Hne. cbn. unfold move_assign. rewrite bool_decide_false, (object_at_Some _ _ _ Ho) by done. by eexists.
  - intros os this. cbn. unfold move_assign. by rewrite bool_decide_true.
  - intros n o m k v _ -> _. by eexists.
  - intros n o m k ->. by eexists.
  - intros n o m k ->. done.
  - intros n o m ->. by eexists.
Defined.

End StandardObjects.
End StandardObjects.

(** ** [LinkedListHashmap] *)

Module ChainedObjects.
Section ChainedObjects.
Context {K V : Type} `{Countable K}.

(** The hash function and load factor the program constructs its maps with,
    and what the library leaves of a [std::function] that is moved from. *)
Context (h : K -> Z) (load_factor : Z * Z) (left : option (K -> Z)).

Record object := mkObject {
  hash_ : option (K -> Z);
  table : @LinkedListHashmap.map K V;  (** [size_] and [entries_] *)
  load_factor_ : Z * Z
}.

#[local] Abbreviation objects := (gmap positive object).

(** The vector is empty after the move, [size_] is only read. *)
Definition moved_from (o : object) : object :=
  mkObject left (LinkedListHashmap.mkMap (LinkedListHashmap.size_ (table o)) []) (load_factor_ o).

Definition construct (os : objects) (this : positive) : objects :=
  <[this := mkObject (Some h) LinkedListHashmap.init load_factor]> os.

Definition move_construct (os : objects) (this other : positive) : res objects :=
  o ← object_at os other; Ok (<[this := o]> (<[other := moved_from o]> os)).

Definition move_assign (os : objects) (this other : positive) : res objects :=
  if bool_decide (this = other) then Ok os
  else o ← object_at os other; Ok (<[this := o]> (<[other := moved_from o]> os)).

Definition insert_into (o : object) (k : K) (v : V) : res object :=
  h ← call_hash (hash_ o); Ok (mkObject (hash_ o) (LinkedListHashmap.Insert h (load_factor_ o) (table o) k v) (load_factor_ o)).

(** [LookUp] and [Remove] return before they call [hash_] when there are no
    buckets. *)
Definition remove_from (o : object) (k : K) : res object :=
  if decide (LinkedListHashmap.entries_ (table o) = []) then Ok o
  else h ← call_hash (hash_ o); Ok (mkObject (hash_ o) (LinkedListHashmap.Remove h (table o) k) (load_factor_ o)).

Definition lookup_in (o : object) (k : K) : res (option V) :=
  if decide (LinkedListHashmap.entries_ (table o) = []) then Ok None
  else h ← call_hash (hash_ o); Ok (LinkedListHashmap.LookUp h (table o) k).

(** The copy members are deleted. *)
Instance object_ops : ObjectOps K V object := {
  construct_object os this _ := construct os this;
  copy_construct_object _ _ _ := Undef "deleted member";
  move_construct_object := move_construct;
  copy_assign_object _ _ _ := Undef "deleted member";
  move_assign_object := move_assign;
  insert_object := insert_into;
  remove_object := remove_from;
  lookup_object := lookup_in;
  foreach_object o := Ok (LinkedListHashmap.ForEach (table o))
}.

Definition stands_for (n : nat) (o : object) (x : option (gmap K V)) : Prop :=
  match x with
  | Some m => hash_ o = Some h /\ load_factor_ o = load_factor
              /\ LinkedListHashmap.inv h (table o) /\ LinkedListHashmap.abs (table o) = m
  | None => hash_ o = left /\ LinkedListHashmap.entries_ (table o) = []
  end.

#[refine] Instance object_spec : ObjectSpec K V object := {
  copyable := false;
  overwrites := true;
  capacity_ok _ := true;
  calls_ok _ := True;
  stands := stands_for
}.
Proof.
  all: try done.
  - intros os this c _. eexists. split; [reflexivity|].
    destruct (LinkedListHashmap.replicate_inv (V := V) h kDefaultCapacity) as [Hi Ha]; [unfold kDefaultCapacity; lia|done].
  - intros os this other o Ho. cbn. unfold move_construct. rewrite (object_at_Some _ _ _ Ho). by eexists.
  - intros os this other o Ho Hne. cbn. unfold move_assign. rewrite bool_decide_false, (object_at_Some _ _ _ Ho) by done. by eexists.
  - intros os this. cbn. unfold move_assign. by rewrite bool_decide_true.
  - intros n o m k v _ (Hh & Hl & Hi & <-) _. cbn. unfold insert_into. rewrite Hh. eexists. split; [reflexivity|].
    cbn. split_and!; [done|done|apply (LinkedListHashmap.Insert_spec h _ _ k v Hi)..].
  - intros n o m k (Hh & Hl & Hi & <-). cbn. unfold remove_from. rewrite decide_False by apply Hi.
    rewrite Hh. eexists. split; [reflexivity|].
    cbn. split_and!; [done|done|apply (LinkedListHashmap.Remove_spec h _ k Hi)..].
  - intros n o m k (Hh & _ & Hi & <-). cbn. unfold lookup_in. rewrite decide_False by apply Hi.
    rewrite Hh. cbn. by rewrite LinkedListHashmap.LookUp_spec.
  - intros n o m (_ & _ & Hi & <-). eexists. split; [reflexivity|]. symmetry.
    apply map_to_list_to_map. by eapply LinkedListHashmap.NoDup_keys.
Defined.

(** What can be done with a map that has been moved from. *)
Lemma moved_from_reads_empty n o : stands_for n o None ->
  (forall k, lookup_in o k = Ok None) /\ LinkedListHashmap.ForEach (table o) = []
  /\ (forall k, remove_from o k = Ok o)
  /\ (left = None -> forall k v, insert_into o k v = Throw (RuntimeError "bad_function_call")).
Proof.
  intros [Hh He]. unfold lookup_in, remove_from, insert_into, LinkedListHashmap.ForEach. rewrite Hh, He.
  split_and!; [intros k; by rewrite decide_True|done|intros k; by rewrite decide_True|by intros ->].
Qed.

End ChainedObjects.
End ChainedObjects.

(** ** [LinearProbingHashmap] *)

Module ProbingObjects.
Section ProbingObjects.
Import LinearProbingHashmap.
Context {K V : Type} `{Countable K}.
Context (h : K -> Z) (left : option (K -> Z)).

Record object := mkObject {
  hash_ : option (K -> Z);
  load_factor_ : Z * Z;
  table : map K V  (** [entries_] and [size_] *)
}.

#[local] Abbreviation objects := (gmap positive object).

Definition moved_from (o : object) : object := mkObject left (load_factor_ o) (mkMap [] (size_ (table o))).

Definition construct (os : objects) (this : positive) (load_factor : Z * Z) (hash : K -> Z) (initial_capacity : nat) : objects :=
  <[this := mkObject (Some hash) load_factor (init initial_capacity)]> os.

Definition copied (o : object) : object :=
  mkObject (hash_ o) (load_factor_ o) (mkMap (entries_ (table o)) (size_ (table o))).

Definition copy_construct (os : objects) (this other : positive) : res objects :=
  o ← object_at os other; Ok (<[this := copied o]> os).

Definition move_construct (os : objects) (this other : positive) : res objects :=
  o ← object_at os other; Ok (<[this := o]> (<[other := moved_from o]> os)).

Definition copy_assign (os : objects) (this other : positive) : res objects :=
  if bool_decide (this = other) then Ok os else o ← object_at os other; Ok (<[this := copied o]> os).

Definition move_assign (os : objects) (this other : positive) : res objects :=
  if bool_decide (this = other) then Ok os
  else o ← object_at os other; Ok (<[this := o]> (<[other := moved_from o]> os)).

Instance object_ops : ObjectOps K V object := {
  construct_object os this n := construct os this kDefaultLoadFactor h n;
  copy_construct_object := copy_construct;
  move_construct_object := move_construct;
  copy_assign_object := copy_assign;
  move_assign_object := move_assign;
  insert_object o k v :=
    h ← call_hash (hash_ o); m ← Insert h (load_factor_ o) 2 (table o) k v; Ok (mkObject (hash_ o) (load_factor_ o) m);
  remove_object o k :=
    h ← call_hash (hash_ o); m ← Remove h (table o) k; Ok (mkObject (hash_ o) (load_factor_ o) m);
  lookup_object o k := h ← call_hash (hash_ o); LookUp h (table o) k;
  foreach_object o := Ok (ForEach (table o))
}.

Definition stands_for (n : nat) (o : object) (x : option (gmap K V)) : Prop :=
  match x with
  | Some m => hash_ o = Some h /\ load_factor_ o = kDefaultLoadFactor /\ good h n (table o)
              /\ abs (entries_ (table o)) = m
  | None => True
  end.

Lemma copied_same o : copied o = o.
Proof. by destruct o as [? ? []]. Qed.

#[refine] Instance object_spec : ObjectSpec K V object := {
  copyable := true;
  overwrites := false;
  capacity_ok c := (2 <=? c)%nat && (Z.of_nat c <=? 2 ^ 31);
  calls_ok n := 3 * Z.of_nat n <= 2 ^ 31;
  stands := stands_for
}.
Proof.
  all: try done.
  - lia.
  - intros n n' o [m|] Hn; [|done]. cbn. intros (? & ? & ? & ?). split_and!; try done. by eapply good_mono.
  - intros os this c Hc. reflect_bools. eexists. split; [reflexivity|]. cbn. split_and!; [done|done|by apply good_init|].
    change (abs (replicate c (@empty_entry K V)) = ∅). unfold abs. by rewrite elements_empty.
  - intros os this other o _ Ho. cbn. unfold copy_construct. rewrite (object_at_Some _ _ _ Ho). cbn. by rewrite copied_same.
  - intros os this other o _ Ho. cbn. unfold copy_assign. case_bool_decide as E; [subst; by rewrite insert_id|].
    rewrite (object_at_Some _ _ _ Ho). cbn. by rewrite copied_same.
  - intros os this other o Ho. cbn. unfold move_construct. rewrite (object_at_Some _ _ _ Ho). by eexists.
  - intros os this other o Ho Hne. cbn. unfold move_assign. rewrite bool_decide_false, (object_at_Some _ _ _ Ho) by done. by eexists.
  - intros os this. cbn. unfold move_assign. by rewrite bool_decide_true.
  - intros n o m k v Hn (Hh & Hl & Hok & <-) [E|E]; [done|]. cbn -[Insert]. rewrite Hh, Hl. cbn [call_hash mbind res_bind].
    destruct (good_Insert h n (table o) k v Hok E Hn) as (t & -> & Ht & Ha). eexists. split; [reflexivity|]. by split_and!.
  - intros n o m k (Hh & Hl & Hok & <-). cbn -[Remove]. rewrite Hh. cbn [call_hash mbind res_bind].
    destruct (good_Remove h n (table o) k Hok) as (t & -> & Ht & Ha). eexists. split; [reflexivity|]. by split_and!.
  - intros n o m k (Hh & _ & Hok & <-). cbn -[LookUp]. rewrite Hh. cbn [call_hash mbind res_bind]. by eapply good_LookUp.
  - intros n o m (_ & _ & ((Hi & _) & _) & <-). eexists. split; [reflexivity|].
    unfold abs. symmetry. apply map_to_list_to_map, (inv_nodup h _ Hi).
Defined.

End ProbingObjects.
End ProbingObjects.

(** ** Theorem *)

(** C21. The map classes are values.  In any program that constructs maps of one
    of the three classes, copies them where the class allows it, moves and
    assigns them (to themselves too), and inserts into and removes from maps it
    has not moved from, every call returns and every map that has not been moved
    from holds the finite map of its variable: copies are independent, a move
    leaves the contents in the target, a self-assignment changes nothing.  For
    the standard and the chained class this holds of all such programs, with
    overwriting insertions and any load factor.  For the probing class it is
    for programs that insert no key into a map that has it already (the class
    is wrong otherwise, [removed_key_reappears]), that construct maps with the
    default load factor and a capacity between 2 and 2^31, and that make at
    most 2^31 / 3 calls, the range of the [int] its search returns.  A chained
    map that has been
    moved from still reads as an empty map, but inserting into it throws when
    the library has left its hash function empty. *)
Theorem v2_maps_are_values {K V} `{Countable K} (h : K -> Z) (load_factor : Z * Z) (left : option (K -> Z))
    (iteration_order : gmap K V -> list (K * V)) (left_data : gmap K V)
    (visits : forall m, iteration_order m ≡ₚ map_to_list m) :
  value_semantics (StandardObjects.object_spec iteration_order left_data visits)
  /\ value_semantics (ChainedObjects.object_spec (V := V) h load_factor left)
  /\ (forall n (o : ChainedObjects.object), ChainedObjects.stands_for (V := V) h load_factor left n o None ->
        (forall k, ChainedObjects.lookup_in o k = Ok None) /\ (forall k, ChainedObjects.remove_from o k = Ok o)
        /\ (left = None -> forall k v, ChainedObjects.insert_into o k v = Throw (RuntimeError "bad_function_call")))
  /\ value_semantics (ProbingObjects.object_spec (V := V) h left).
Proof.
  split_and!.
  - apply objects_hold_variables.
  - apply objects_hold_variables.
  - intros n o Ho. destruct (ChainedObjects.moved_from_reads_empty h load_factor left n o Ho) as (H1 & _ & H2 & H3). done.
  - apply objects_hold_variables.
Qed.

(** A chained map is filled, moved twice and written to again; a probing map is
    copied and its copy changed. *)
#[local] Abbreviation chained_program :=
  [Construct 1 16; CallInsert 1 7%Z 70%Z; CallInsert 1 7%Z 71%Z; MoveConstruct 2 1; Construct 3 16; MoveAssign 3 2;
   MoveAssign 3 3; CallInsert 3 8%Z 80%Z].
#[local] Abbreviation probing_program :=
  [Construct 1 2; CallInsert 1 7%Z 70%Z; CopyConstruct 2 1; CallRemove 2 7%Z; CopyAssign 1 1].

Lemma v2_maps_are_values_witness :
  (exists os, run_members (ops := ChainedObjects.object_ops (fun k : Z => k) kDefaultLoadFactor None) ∅ chained_program = Ok os
    /\ exists visited, foreach_at (ops := ChainedObjects.object_ops (fun k : Z => k) kDefaultLoadFactor None) os 3%positive = Ok visited
         /\ visited ≡ₚ [(7%Z, 71%Z); (8%Z, 80%Z)])
  /\ exists os, run_members (ops := ProbingObjects.object_ops (fun k : Z => k) None) ∅ probing_program = Ok os
    /\ lookup_at (ops := ProbingObjects.object_ops (fun k : Z => k) None) os 1%positive 7%Z = Ok (Some 70%Z).
Proof.
  destruct (v2_maps_are_values (fun k : Z => k) kDefaultLoadFactor None map_to_list (∅ : gmap Z Z)
              (fun m => reflexivity (map_to_list m))) as (_ & H1 & _ & H2). split.
  - destruct (checked_some (promised_all (spec := ChainedObjects.object_spec (fun k : Z => k) kDefaultLoadFactor None) ∅ chained_program)
        (fun a => bool_decide (a !! 3%positive = Some (Some {[7%Z := 71%Z; 8%Z := 80%Z]})))) as (a & Ha & Hv); [reflexivity|].
    apply bool_decide_eq_true in Hv. destruct (H1 chained_program a I Ha) as (os & E & _ & _ & Hl).
    exists os. split; [exact E|]. destruct (Hl 3%positive _ Hv) as [_ (visited & Ev & Hp)]. exists visited. split; [exact Ev|].
    etransitivity; [exact Hp|]. vm_compute. reflexivity.
  - destruct (checked_some (promised_all (spec := ProbingObjects.object_spec (fun k : Z => k) None) ∅ probing_program)
        (fun a => bool_decide (a !! 1%positive = Some (Some {[7%Z := 70%Z]})))) as (a & Ha & Hv); [reflexivity|].
    apply bool_decide_eq_true in Hv. destruct (H2 probing_program a ltac:(vm_compute; discriminate) Ha) as (os & E & _ & _ & Hl).
    exists os. split; [exact E|]. rewrite (proj1 (Hl 1%positive _ Hv)). reflexivity.
Defined.
