(* ===== verification/Store.v ===== *)
(** * The key/value store: [v2/src/store/store.{h,cc}] (without JSON)

    [Store] is a facade over [Map<string, Entry>]; its operations are proved
    against the map interface.  [time_->NowMs()] is an argument [now] of the
    operations that read the clock.  Expiry is a 64-bit millisecond timestamp
    with the sentinel [NO_EXPIRY] = -1.

    The abstract store keeps for each key the value and an optional deadline;
    the refinement theorem shows that every operation implements it, for every
    map that meets [MapSpec].  The last theorems state where the observable
    behaviour has edges: the sentinel, the instant of expiry, keys that have
    expired but are still stored, and the range of [Ttl]. *)

From S2P Require Import Prelude CxxString MapInterface.

Definition NO_EXPIRY : Z := -1.

Record Entry := mkEntry {
  expiry_ : Z;
  value_ : option bytes
}.

#[export] Instance Entry_eq_dec : EqDecision Entry.
Proof. solve_decision. Defined.

Inductive ExpireOption := NX | XX | GT | LT | NA.

#[export] Instance ExpireOption_eq_dec : EqDecision ExpireOption.
Proof. solve_decision. Defined.

Definition ToExpireOption (opt : bytes) : option ExpireOption :=
  if decide (opt = lit "NX") then Some NX
  else if decide (opt = lit "XX") then Some XX
  else if decide (opt = lit "GT") then Some GT
  else if decide (opt = lit "LT") then Some LT
  else None.

Module Store.
Section Store.
Context {M : Type} {ops : MapOps bytes Entry M}.

(** The constructor: an empty map. *)
Definition init : M := EmptyMap.

Definition Get (data_ : M) (now : Z) (key : bytes) : option bytes :=
  match LookUp data_ key with
  | None => None
  | Some entry =>
      if negb (expiry_ entry =? NO_EXPIRY) && (expiry_ entry <? now) then None
      else value_ entry
  end.

Definition Set_ (data_ : M) (key : bytes) (value : option bytes) : M :=
  Insert data_ key (mkEntry NO_EXPIRY value).

Definition Del (data_ : M) (key : bytes) : M := Remove data_ key.

Definition ExpireAt (data_ : M) (key : bytes) (timestamp_ms : Z) (opt : ExpireOption)
    : M * bool :=
  match LookUp data_ key with
  | None => (data_, false)
  | Some entry =>
      let refused :=
        match opt with
        | NX => negb (expiry_ entry =? NO_EXPIRY)
        | XX => expiry_ entry =? NO_EXPIRY
        | GT => (expiry_ entry =? NO_EXPIRY) || (timestamp_ms <=? expiry_ entry)
        | LT => negb (expiry_ entry =? NO_EXPIRY) && (expiry_ entry <=? timestamp_ms)
        | NA => false
        end in
      if refused then (data_, false)
      else (AssignRef data_ key (mkEntry timestamp_ms (value_ entry)), true)
  end.

(** The overload without an option. *)
Definition ExpireAt2 (data_ : M) (key : bytes) (timestamp_ms : Z) : M * bool :=
  ExpireAt data_ key timestamp_ms NA.

Definition Ttl (data_ : M) (now : Z) (key : bytes) : res Z :=
  match LookUp data_ key with
  | None => Ok (-2)
  | Some entry =>
      if expiry_ entry =? NO_EXPIRY then Ok (-1)
      else
        remaining_ms ← sub64 (expiry_ entry) now;
        if remaining_ms <=? 0 then Ok (-2) else Ok remaining_ms
  end.

Definition NowMs (now : Z) : Z := now.

Definition Persist (data_ : M) (now : Z) (key : bytes) : M * bool :=
  match LookUp data_ key with
  | None => (data_, false)
  | Some entry =>
      if expiry_ entry =? NO_EXPIRY then (data_, false)
      else if expiry_ entry <? now then (data_, false)
      else (AssignRef data_ key (mkEntry NO_EXPIRY (value_ entry)), true)
  end.

End Store.
End Store.

(** ** Abstract specification *)

Module Abstract.

(** A key's value and its deadline, if it has one. *)
Abbreviation item := (option bytes * option Z)%type.
Abbreviation store := (gmap bytes item).

(** A deadline in the past, at time [now]. *)
Definition expired (now : Z) (deadline : option Z) : bool :=
  match deadline with Some t => t <? now | None => false end.

Definition get (a : store) (now : Z) (k : bytes) : option bytes :=
  '(v, d) ← a !! k; if expired now d then None else v.

Definition set_ (a : store) (k : bytes) (v : option bytes) : store := <[k := (v, None)]> a.

Definition del (a : store) (k : bytes) : store := delete k a.

(** When an option lets the deadline [t] replace [d]; no deadline counts as
    infinitely late. *)
Definition allows (opt : ExpireOption) (d : option Z) (t : Z) : bool :=
  match opt, d with
  | NX, None => true
  | NX, Some _ => false
  | XX, None => false
  | XX, Some _ => true
  | GT, None => false
  | GT, Some old => old <? t
  | LT, None => true
  | LT, Some old => t <? old
  | NA, _ => true
  end.

Definition expire_at (a : store) (k : bytes) (t : Z) (opt : ExpireOption) : store * bool :=
  match a !! k with
  | Some (v, d) => if allows opt d t then (<[k := (v, Some t)]> a, true) else (a, false)
  | None => (a, false)
  end.

Definition ttl (a : store) (now : Z) (k : bytes) : Z :=
  match a !! k with
  | None => -2
  | Some (_, None) => -1
  | Some (_, Some t) => if t <=? now then -2 else t - now
  end.

Definition persist (a : store) (now : Z) (k : bytes) : store * bool :=
  match a !! k with
  | Some (v, Some t) => if t <? now then (a, false) else (<[k := (v, None)]> a, true)
  | _ => (a, false)
  end.

End Abstract.

(** ** Refinement *)

Definition view_deadline (expiry : Z) : option Z := if expiry =? NO_EXPIRY then None else Some expiry.
Definition view (e : Entry) : Abstract.item := (value_ e, view_deadline (expiry_ e)).

Section Refinement.
Context {M : Type} {ops : MapOps bytes Entry M} {spec : MapSpec bytes Entry M}.

(** [d] is a well-formed map that holds the abstract store [a]. *)
Definition represents (d : M) (a : Abstract.store) : Prop :=
  map_inv d /\ a = view <$> map_abs d.

Lemma represents_init : represents Store.init ∅.
Proof.
  split; [apply EmptyMap_inv|]. unfold Store.init. by rewrite EmptyMap_abs, fmap_empty.
Qed.

Lemma represents_lookup d a k :
  represents d a -> a !! k = view <$> LookUp d k.
Proof. intros [Hi ->]. by rewrite lookup_fmap, LookUp_abs. Qed.

Lemma Get_refines d a now k : represents d a -> Store.Get d now k = Abstract.get a now k.
Proof.
  intros Hr. unfold Store.Get, Abstract.get. rewrite (represents_lookup _ _ k Hr).
  destruct (LookUp d k) as [[x v]|]; cbn; [|done]. unfold view_deadline. by destruct (x =? NO_EXPIRY).
Qed.

Lemma Set_refines d a k v :
  represents d a -> represents (Store.Set_ d k v) (Abstract.set_ a k v).
Proof.
  intros [Hi ->]. unfold Store.Set_. split; [by apply Insert_inv|].
  unfold Abstract.set_. by rewrite Insert_abs, fmap_insert.
Qed.

Lemma Del_refines d a k : represents d a -> represents (Store.Del d k) (Abstract.del a k).
Proof.
  intros [Hi ->]. unfold Store.Del. split; [by apply Remove_inv|].
  unfold Abstract.del. by rewrite Remove_abs, fmap_delete.
Qed.

(** Writing an entry through a reference. *)
Lemma AssignRef_represents d a k e e' :
  represents d a -> LookUp d k = Some e -> represents (AssignRef d k e') (<[k := view e']> a).
Proof.
  intros [Hi ->] Hk. split; [by apply AssignRef_inv; eauto|].
  by rewrite AssignRef_abs, fmap_insert by eauto.
Qed.

Lemma ExpireAt_refines d a k t o : represents d a -> t <> NO_EXPIRY ->
  represents (fst (Store.ExpireAt d k t o)) (fst (Abstract.expire_at a k t o))
  /\ snd (Store.ExpireAt d k t o) = snd (Abstract.expire_at a k t o).
Proof.
  intros Hr Ht. unfold Store.ExpireAt, Abstract.expire_at. rewrite (represents_lookup _ _ k Hr).
  destruct (LookUp d k) as [[x v]|] eqn:E; cbn; [|done]. unfold view_deadline at 1 2.
  pose proof (AssignRef_represents d a k _ (mkEntry t v) Hr E) as Ha.
  unfold view, view_deadline in Ha. cbn in Ha. rewrite (proj2 (Z.eqb_neq t NO_EXPIRY) Ht) in Ha.
  destruct o, (x =? NO_EXPIRY) eqn:?; cbn; try done; reflect_bools.
  - destruct (t <=? x) eqn:?, (x <? t) eqn:?; reflect_bools; try lia; done.
  - destruct (x <=? t) eqn:?, (t <? x) eqn:?; reflect_bools; try lia; done.
Qed.

Lemma Ttl_refines d a now k : represents d a ->
  (forall e, LookUp d k = Some e -> in_int64 (expiry_ e - now) = true) ->
  Store.Ttl d now k = Ok (Abstract.ttl a now k).
Proof.
  intros Hr Hb. unfold Store.Ttl, Abstract.ttl. rewrite (represents_lookup _ _ k Hr).
  destruct (LookUp d k) as [[x v]|] eqn:E; cbn; [|done]. unfold view_deadline.
  destruct (x =? NO_EXPIRY); [done|]. specialize (Hb _ eq_refl). cbn in Hb.
  unfold sub64. rewrite checked64_ok by done. cbn.
  destruct (x - now <=? 0) eqn:?, (x <=? now) eqn:?; reflect_bools; try lia; done.
Qed.

Lemma Persist_refines d a now k : represents d a ->
  represents (fst (Store.Persist d now k)) (fst (Abstract.persist a now k))
  /\ snd (Store.Persist d now k) = snd (Abstract.persist a now k).
Proof.
  intros Hr. unfold Store.Persist, Abstract.persist. rewrite (represents_lookup _ _ k Hr).
  destruct (LookUp d k) as [[x v]|] eqn:E; cbn; [|done]. unfold view_deadline.
  destruct (x =? NO_EXPIRY); cbn; [done|]. destruct (x <? now); cbn; [done|].
  split; [|done]. by apply (AssignRef_represents d a k _ (mkEntry NO_EXPIRY v) Hr E).
Qed.

End Refinement.

#[export] Hint Resolve represents_init Set_refines Del_refines Get_refines : myredis.

(** ** Runs of operations *)

Inductive store_op :=
| OGet (now : Z) (k : bytes)
| OSet (k : bytes) (v : option bytes)
| ODel (k : bytes)
| OExpireAt (k : bytes) (t : Z) (o : ExpireOption)
| OTtl (now : Z) (k : bytes)
| OPersist (now : Z) (k : bytes).

Inductive store_out := RValue (v : option bytes) | RVoid | RBool (b : bool) | RInt (z : Z).

Definition run_op {M} {ops : MapOps bytes Entry M} (d : M) (op : store_op) : res (M * store_out) :=
  match op with
  | OGet now k => Ok (d, RValue (Store.Get d now k))
  | OSet k v => Ok (Store.Set_ d k v, RVoid)
  | ODel k => Ok (Store.Del d k, RVoid)
  | OExpireAt k t o => let '(d, b) := Store.ExpireAt d k t o in Ok (d, RBool b)
  | OTtl now k => z ← Store.Ttl d now k; Ok (d, RInt z)
  | OPersist now k => let '(d, b) := Store.Persist d now k in Ok (d, RBool b)
  end.

Fixpoint run {M} {ops : MapOps bytes Entry M} (d : M) (l : list store_op) : res (M * list store_out) :=
  match l with
  | [] => Ok (d, [])
  | op :: l =>
      '(d, out) ← run_op d op;
      '(d, outs) ← run d l;
      Ok (d, out :: outs)
  end.

Definition abstract_op (a : Abstract.store) (op : store_op) : Abstract.store * store_out :=
  match op with
  | OGet now k => (a, RValue (Abstract.get a now k))
  | OSet k v => (Abstract.set_ a k v, RVoid)
  | ODel k => (Abstract.del a k, RVoid)
  | OExpireAt k t o => let '(a, b) := Abstract.expire_at a k t o in (a, RBool b)
  | OTtl now k => (a, RInt (Abstract.ttl a now k))
  | OPersist now k => let '(a, b) := Abstract.persist a now k in (a, RBool b)
  end.

Fixpoint abstract_run (a : Abstract.store) (l : list store_op) : Abstract.store * list store_out :=
  match l with
  | [] => (a, [])
  | op :: l =>
      let '(a, out) := abstract_op a op in
      let '(a, outs) := abstract_run a l in
      (a, out :: outs)
  end.

(** Clock values after 1970 and timestamps within 146 million years of it; not
    the timestamp that is the sentinel. *)
Definition sane_time (z : Z) : Prop := - 2 ^ 62 <= z < 2 ^ 62.

Definition admissible (op : store_op) : Prop :=
  match op with
  | OGet now _ | OTtl now _ | OPersist now _ => 0 <= now < 2 ^ 62
  | OExpireAt _ t _ => t <> NO_EXPIRY /\ sane_time t
  | OSet _ _ | ODel _ => True
  end.

Definition sane_store (a : Abstract.store) : Prop :=
  forall k v t, a !! k = Some (v, Some t) -> sane_time t.

(** *** The abstract store stays sane *)

Lemma sane_insert a k i :
  sane_store a -> (forall t, snd i = Some t -> sane_time t) -> sane_store (<[k := i]> a).
Proof.
  intros Ha Hi k' v t. rewrite lookup_insert. case_decide; [|by apply Ha].
  intros [= ->]. by apply Hi.
Qed.

Lemma sane_step a op : sane_store a -> admissible op -> sane_store (fst (abstract_op a op)).
Proof.
  intros Ha Hop. destruct op as [now k|k v|k|k t o|now k|now k]; cbn; try done.
  - by apply sane_insert.
  - unfold Abstract.del. intros k' v t [_ Hk]%lookup_delete_Some. by eapply Ha.
  - unfold Abstract.expire_at. destruct (a !! k) as [[v d]|]; cbn; [|done].
    destruct (Abstract.allows o d t); cbn; [|done]. destruct Hop.
    apply sane_insert; [done|]. by intros ? [= <-].
  - unfold Abstract.persist. destruct (a !! k) as [[v [t|]]|]; cbn; try done.
    destruct (t <? now); cbn; [done|]. by apply sane_insert.
Qed.

Section Runs.
Context {M : Type} {ops : MapOps bytes Entry M} {spec : MapSpec bytes Entry M}.

(** No overflow in [Ttl] on a sane store. *)
Lemma sane_remaining (d : M) a now k e : represents d a -> sane_store a -> 0 <= now < 2 ^ 62 ->
  LookUp d k = Some e -> in_int64 (expiry_ e - now) = true.
Proof.
  intros Hr Ha Hn He. apply in_int64_spec. unfold int64_min, int64_max.
  pose proof (represents_lookup d a k Hr) as Hl. rewrite He in Hl. cbn in Hl. unfold view, view_deadline in Hl.
  destruct (expiry_ e =? NO_EXPIRY) eqn:E; reflect_bools; unfold NO_EXPIRY in *; [lia|].
  apply Ha in Hl. unfold sane_time in Hl. lia.
Qed.

Lemma run_op_refines (d : M) a op : represents d a -> sane_store a -> admissible op ->
  exists d', run_op d op = Ok (d', snd (abstract_op a op))
             /\ represents d' (fst (abstract_op a op)).
Proof.
  intros Hr Ha Hop. destruct op as [now k|k v|k|k t o|now k|now k]; cbn in *.
  - exists d. by rewrite (Get_refines d a).
  - eauto with myredis.
  - eauto with myredis.
  - destruct Hop as [Ht _]. destruct (ExpireAt_refines d a k t o Hr Ht) as [H1 H2].
    destruct (Store.ExpireAt d k t o) as [d' b], (Abstract.expire_at a k t o) as [a' b'].
    cbn in *. subst. eauto.
  - rewrite (Ttl_refines d a) by (done || (intros; by eapply sane_remaining)). eauto.
  - destruct (Persist_refines d a now k Hr) as [H1 H2].
    destruct (Store.Persist d now k) as [d' b], (Abstract.persist a now k) as [a' b'].
    cbn in *. subst. eauto.
Qed.

Lemma run_refines (l : list store_op) (d : M) a :
  represents d a -> sane_store a -> Forall admissible l ->
  exists d', run d l = Ok (d', snd (abstract_run a l))
             /\ represents d' (fst (abstract_run a l)).
Proof.
  revert d a. induction l as [|op l IH]; intros d a Hr Ha Hl; cbn; [eauto|].
  inversion Hl as [|? ? Hop Hl']; subst.
  destruct (run_op_refines d a op Hr Ha Hop) as (d1 & H1 & Hr1).
  pose proof (sane_step a op Ha Hop) as Ha1. rewrite H1. cbn.
  destruct (abstract_op a op) as [a1 out]. cbn in *.
  destruct (IH d1 a1 Hr1 Ha1 Hl') as (d2 & H2 & Hr2). rewrite H2. cbn.
  destruct (abstract_run a1 l) as [a2 outs]. cbn in *. eauto.
Qed.

End Runs.

(** ** Theorems *)

Section Theorems.
Context {M : Type} {ops : MapOps bytes Entry M} {spec : MapSpec bytes Entry M}.

(** C16. The store implements its specification: any sequence of operations on
    a new store (clock values and timestamps of sane size, no timestamp equal
    to the sentinel), over any correct map, gives exactly the answers of the
    abstract store in which a key has a value and an optional deadline; no
    operation overflows. *)
Theorem store_refines (l : list store_op) :
  Forall admissible l ->
  exists d : M, run Store.init l = Ok (d, snd (abstract_run ∅ l))
                /\ represents d (fst (abstract_run ∅ l)).
Proof.
  intros Hl. apply run_refines; [apply represents_init| |done].
  intros k v t Hk. by rewrite lookup_empty in Hk.
Qed.

(** The sentinel is a timestamp a client can send: setting the deadline
    -1 (one millisecond before 1970, long past) succeeds and makes the key
    permanent instead of expired. *)
Theorem sentinel_deadline_is_permanent (d : M) (k : bytes) (e : Entry) (now : Z) :
  map_inv d -> LookUp d k = Some e ->
  snd (Store.ExpireAt d k (-1) NA) = true
  /\ Store.Get (fst (Store.ExpireAt d k (-1) NA)) now k = value_ e
  /\ Store.Ttl (fst (Store.ExpireAt d k (-1) NA)) now k = Ok (-1).
Proof.
  intros Hi Hk. unfold Store.ExpireAt. rewrite Hk. cbn.
  assert (LookUp (AssignRef d k (mkEntry (-1) (value_ e))) k = Some (mkEntry (-1) (value_ e))) as Hl.
  { rewrite LookUp_abs by (apply AssignRef_inv; eauto). rewrite AssignRef_abs by eauto.
    apply lookup_insert_eq. }
  unfold Store.Get, Store.Ttl. rewrite Hl. done.
Qed.

(** Expired keys are hidden but not gone: [ExpireAt] does not look at the
    clock, so giving an expired key a new deadline succeeds and its old value
    is served again. *)
Theorem expired_key_revives (d : M) (k : bytes) (e : Entry) (now t : Z) :
  map_inv d -> LookUp d k = Some e ->
  expiry_ e <> NO_EXPIRY -> expiry_ e < now -> now <= t ->
  Store.Get d now k = None
  /\ snd (Store.ExpireAt d k t NA) = true
  /\ Store.Get (fst (Store.ExpireAt d k t NA)) now k = value_ e.
Proof.
  intros Hi Hk Hne Hlt Ht. unfold Store.ExpireAt, Store.Get at 1. rewrite Hk. cbn.
  rewrite (proj2 (Z.eqb_neq _ _) Hne), (proj2 (Z.ltb_lt _ _) Hlt). split_and!; [done..|].
  unfold Store.Get. rewrite LookUp_abs by (apply AssignRef_inv; eauto).
  rewrite AssignRef_abs, lookup_insert_eq by eauto. cbn.
  by rewrite (proj2 (Z.ltb_ge _ _) Ht), andb_false_r.
Qed.

(** At the instant of its deadline a key is both there and not there:
    [Get] still returns the value and [Persist] still succeeds, while [Ttl]
    reports -2 (no such key). *)
Theorem deadline_instant_disagrees (d : M) (k : bytes) (e : Entry) (now : Z) :
  LookUp d k = Some e -> expiry_ e = now -> 0 <= now ->
  Store.Get d now k = value_ e
  /\ snd (Store.Persist d now k) = true
  /\ Store.Ttl d now k = Ok (-2).
Proof.
  intros Hk He Hn. unfold Store.Get, Store.Persist, Store.Ttl. rewrite Hk, He.
  rewrite (proj2 (Z.eqb_neq now NO_EXPIRY)) by (unfold NO_EXPIRY; lia).
  rewrite Z.ltb_irrefl. cbn. unfold sub64. by rewrite Z.sub_diag.
Qed.

End Theorems.

(** *** Witnesses, on [StandardMap] *)

#[local] Instance std_ops : MapOps bytes Entry (gmap bytes Entry) := StandardMap.ops map_to_list.
#[local] Instance std_spec : MapSpec bytes Entry (gmap bytes Entry) :=
  StandardMap.spec map_to_list (fun m => reflexivity (map_to_list m)).

Definition sample_ops : list store_op :=
  [OSet (lit "k") (Some (lit "v")); OExpireAt (lit "k") 5000 GT; OExpireAt (lit "k") 5000 LT;
   OGet 5000 (lit "k"); OTtl 4000 (lit "k"); OPersist 4999 (lit "k"); OGet 9000 (lit "k");
   ODel (lit "k"); OGet 1 (lit "k")].

Lemma store_refines_witness :
  exists d, run Store.init sample_ops
    = Ok (d, [RVoid; RBool false; RBool true; RValue (Some (lit "v")); RInt 1000; RBool true;
              RValue (Some (lit "v")); RVoid; RValue None])
    /\ represents d ∅.
Proof.
  destruct (store_refines sample_ops) as (d & H1 & H2).
  - repeat constructor; cbn; unfold sane_time; lia || (intros H; discriminate H).
  - exists d. split; [exact H1|]. cbn in H2. exact H2.
Defined.

Definition sample_data (expiry : Z) : gmap bytes Entry :=
  {[ lit "k" := mkEntry expiry (Some (lit "v")) ]}.

Lemma sentinel_deadline_is_permanent_witness :
  snd (Store.ExpireAt (sample_data 9) (lit "k") (-1) NA) = true
  /\ Store.Get (fst (Store.ExpireAt (sample_data 9) (lit "k") (-1) NA)) 100 (lit "k")
     = Some (lit "v")
  /\ Store.Ttl (fst (Store.ExpireAt (sample_data 9) (lit "k") (-1) NA)) 100 (lit "k")
     = Ok (-1).
Proof.
  apply (sentinel_deadline_is_permanent (sample_data 9) (lit "k")
           (mkEntry 9 (Some (lit "v"))) 100); [exact I|reflexivity].
Defined.

Lemma expired_key_revives_witness :
  Store.Get (sample_data 9) 10 (lit "k") = None
  /\ snd (Store.ExpireAt (sample_data 9) (lit "k") 20 NA) = true
  /\ Store.Get (fst (Store.ExpireAt (sample_data 9) (lit "k") 20 NA)) 10 (lit "k")
     = Some (lit "v").
Proof.
  apply (expired_key_revives (sample_data 9) (lit "k")
           (mkEntry 9 (Some (lit "v"))) 10 20); [exact I|reflexivity|discriminate|cbn; lia|lia].
Defined.

Lemma deadline_instant_disagrees_witness :
  Store.Get (sample_data 9) 9 (lit "k") = Some (lit "v")
  /\ snd (Store.Persist (sample_data 9) 9 (lit "k")) = true
  /\ Store.Ttl (sample_data 9) 9 (lit "k") = Ok (-2).
Proof.
  apply (deadline_instant_disagrees (sample_data 9) (lit "k")
           (mkEntry 9 (Some (lit "v"))) 9); [reflexivity|reflexivity|lia].
Defined.
