(* ===== verification/StoreJson.v ===== *)
(** * Snapshots of the store as JSON: [SerialiseToJson], [ParseEntryJson] and
    [DeserialiseFromJson] of [v2/src/store/store.cc]

    The printer folds over [ForEach]; the parser inserts each entry as it goes,
    so an exception leaves the entries read so far in the store.  Theorem: a
    snapshot of any store, in whatever order its map iterates, restores into
    an empty store to the same contents, expiry included; on any other input
    the parser terminates and fails only with [std::invalid_argument]. *)

From S2P Require Import Prelude CxxString Serialise MapInterface Store.

(** A string literal of the source that contains quotes. *)
Definition quoted_name (s : string) : bytes := quote :: lit s ++ [quote].

Section StoreJson.
Context {M : Type} {ops : MapOps bytes Entry M}.

(** ** Printing *)

(** The lambda passed to [ForEach]: [out] and [first] are captured. *)
Definition serialise_entry (acc : bytes * bool) (kv : bytes * Entry) : bytes * bool :=
  let '(out, first) := acc in
  let '(key, entry) := kv in
  let out := if (first : bool) then out else out ++ lit "," in
  let out := AppendJsonString key out in
  let out := out ++ lit ":{" ++ quoted_name "value" ++ lit ":" in
  let out :=
    match value_ entry with
    | Some value => AppendJsonString value out
    | None => out ++ lit "null"
    end in
  let out := out ++ lit "," ++ quoted_name "expiry" ++ lit ":" in
  let out := out ++ to_string (expiry_ entry) in
  (out ++ lit "}", false).

Definition SerialiseToJson (data_ : M) : bytes :=
  let '(out, _) := fold_left serialise_entry (ForEach data_) (lit "{", true) in
  out ++ lit "}".

(** ** Parsing *)

(** [if (pos >= json_data.size() || json_data[pos] != c) throw ...; pos++] *)
Definition expect (json_data : bytes) (pos : nat) (c : ascii) (what : string) : res nat :=
  match json_data !! pos with
  | Some c' => if Ascii.eqb c' c then Ok (pos + 1)%nat else Throw (InvalidArgument what)
  | None => Throw (InvalidArgument what)
  end.

(** [json_data.compare(pos, 4, s) == 0] for a literal of four characters *)
Definition compare4 (json_data : bytes) (pos : nat) (s : bytes) : res bool :=
  if (length json_data <? pos)%nat then Throw (OutOfRange "basic_string::compare")
  else Ok (bool_decide (take 4 (drop pos json_data) = s)).

Definition ParseEntryJson (json_data : bytes) (pos : nat) : res (Entry * nat) :=
  pos ← expect json_data pos "{" "expected '{' to open entry";
  let pos := SkipWhitespace json_data pos in
  '(name, pos) ← ParseJsonString json_data pos;
  if negb (bool_decide (name = lit "value")) then
    Throw (InvalidArgument "expected value field")
  else
    let pos := SkipWhitespace json_data pos in
    pos ← expect json_data pos ":" "expected ':' after value";
    let pos := SkipWhitespace json_data pos in
    is_null ← compare4 json_data pos (lit "null");
    '(value, pos) ← (if (is_null : bool) then Ok (None, (pos + 4)%nat)
                     else '(value, pos) ← ParseJsonString json_data pos; Ok (Some value, pos));
    let pos := SkipWhitespace json_data pos in
    pos ← expect json_data pos "," "expected ',' after value";
    let pos := SkipWhitespace json_data pos in
    '(name, pos) ← ParseJsonString json_data pos;
    if negb (bool_decide (name = lit "expiry")) then
      Throw (InvalidArgument "expected expiry field")
    else
      let pos := SkipWhitespace json_data pos in
      pos ← expect json_data pos ":" "expected ':' after expiry";
      let pos := SkipWhitespace json_data pos in
      '(expiry, pos) ← ParseJsonInteger json_data pos;
      let pos := SkipWhitespace json_data pos in
      pos ← expect json_data pos "}" "expected '}' to close entry";
      Ok (mkEntry expiry value, pos).

(** A call that can throw, in code that has already changed the store. *)
Definition guard_store {A B} (d : M) (m : res A) (k : A -> M * res B) : M * res B :=
  match m with
  | Ok a => k a
  | Throw e => (d, Throw e)
  | Undef w => (d, Undef w)
  | NoFuel => (d, NoFuel)
  end.

(** The [while (true)] loop of [DeserialiseFromJson], one entry a turn. *)
Fixpoint parse_entries (fuel : nat) (json_data : bytes) (pos : nat) (data_ : M) : M * res nat :=
  match fuel with
  | O => (data_, NoFuel)
  | S f =>
      let pos := SkipWhitespace json_data pos in
      guard_store data_ (ParseJsonString json_data pos) (fun '(key, pos) =>
      let pos := SkipWhitespace json_data pos in
      guard_store data_ (expect json_data pos ":" "expected ':' after key") (fun pos =>
      let pos := SkipWhitespace json_data pos in
      guard_store data_ (ParseEntryJson json_data pos) (fun '(entry, pos) =>
      let data_ := Insert data_ key entry in
      let pos := SkipWhitespace json_data pos in
      match json_data !! pos with
      | None => (data_, Throw (InvalidArgument "unterminated object"))
      | Some c =>
          if Ascii.eqb c "," then parse_entries f json_data (pos + 1) data_
          else if Ascii.eqb c "}" then (data_, Ok (pos + 1)%nat)
          else (data_, Throw (InvalidArgument "expected ',' or '}'"))
      end)))
  end.

Definition DeserialiseFromJson (data_ : M) (json_data : bytes) : M * res unit :=
  let pos := SkipWhitespace json_data 0 in
  guard_store data_ (expect json_data pos "{" "json data did not begin with {") (fun pos =>
  let pos := SkipWhitespace json_data pos in
  let '(data_, r) :=
    match json_data !! pos with
    | Some "}"%char => (data_, Ok (pos + 1)%nat)
    | _ => parse_entries (S (length json_data)) json_data pos data_
    end in
  guard_store data_ r (fun pos =>
  let pos := SkipWhitespace json_data pos in
  if (pos =? length json_data)%nat then (data_, Ok tt)
  else (data_, Throw (InvalidArgument "trailing data after json object")))).

End StoreJson.

(** ** The text of a snapshot *)

Definition json_value (o : option bytes) : bytes :=
  match o with Some v => json_string v | None => lit "null" end.

Definition json_entry (e : Entry) : bytes :=
  lit "{" ++ quoted_name "value" ++ lit ":" ++ json_value (value_ e)
  ++ lit "," ++ quoted_name "expiry" ++ lit ":" ++ to_string (expiry_ e) ++ lit "}".

Definition json_member (kv : bytes * Entry) : bytes :=
  json_string (fst kv) ++ lit ":" ++ json_entry (snd kv).

(** Members separated by commas. *)
Fixpoint json_members (l : list (bytes * Entry)) : bytes :=
  match l with
  | [] => []
  | [kv] => json_member kv
  | kv :: l => json_member kv ++ lit "," ++ json_members l
  end.

Lemma quoted_name_json s : flat_map escape_char (lit s) = lit s -> quoted_name s = json_string (lit s).
Proof. intros H. unfold json_string. by rewrite H. Qed.

Lemma serialise_entry_text out (first : bool) kv :
  serialise_entry (out, first) kv
  = (out ++ (if first then [] else lit ",") ++ json_member kv, false).
Proof.
  destruct kv as [k [x v]]. unfold serialise_entry, json_member, json_entry. cbn [fst snd value_ expiry_].
  f_equal. destruct v as [v|], first; cbn [json_value];
    rewrite ?AppendJsonString_eq, <- ?app_assoc; done.
Qed.

Lemma fold_serialise_rest l out :
  fst (fold_left serialise_entry l (out, false)) = out ++ flat_map (fun kv => lit "," ++ json_member kv) l.
Proof.
  revert out. induction l as [|kv l IH]; intros out; cbn [fold_left flat_map fst].
  - by rewrite app_nil_r.
  - rewrite serialise_entry_text, IH. by rewrite <- !app_assoc.
Qed.

Lemma json_members_cons kv l :
  json_members (kv :: l) = json_member kv ++ flat_map (fun kv => lit "," ++ json_member kv) l.
Proof.
  revert kv. induction l as [|kv' l IH]; intros kv.
  - cbn. by rewrite app_nil_r.
  - change (json_members (kv :: kv' :: l)) with (json_member kv ++ lit "," ++ json_members (kv' :: l)).
    rewrite IH. cbn [flat_map]. by rewrite <- !app_assoc.
Qed.

Lemma SerialiseToJson_text {M} {ops : MapOps bytes Entry M} (d : M) :
  SerialiseToJson d = lit "{" ++ json_members (ForEach d) ++ lit "}".
Proof.
  unfold SerialiseToJson. destruct (ForEach d) as [|kv l]; [done|].
  cbn [fold_left]. rewrite serialise_entry_text. cbn [app].
  pose proof (fold_serialise_rest l (lit "{" ++ json_member kv)) as Hf.
  destruct (fold_left _ l _) as [out b]. cbn [fst] in Hf. subst out.
  rewrite json_members_cons. by rewrite <- !app_assoc.
Qed.

(** ** Parsing the printed text *)

Lemma expect_ok data pos c rest w : drop pos data = c :: rest -> expect data pos c w = Ok (pos + 1)%nat.
Proof. intros Hd. unfold expect. by rewrite (drop_lookup_0 _ _ _ _ Hd), Ascii.eqb_refl. Qed.

Lemma SkipWhitespace_json data pos v rest :
  drop pos data = json_string v ++ rest -> SkipWhitespace data pos = pos.
Proof. intros Hd. eapply SkipWhitespace_none; [exact Hd|reflexivity]. Qed.

Lemma digit_not_space c : is_digit c = true -> is_json_space c = false.
Proof. by destruct c as [[] [] [] [] [] [] [] []]. Qed.

Lemma SkipWhitespace_number data pos z rest :
  drop pos data = to_string z ++ rest -> SkipWhitespace data pos = pos.
Proof.
  unfold to_string. destruct (z <? 0) eqn:Hz; intros Hd;
    [eapply SkipWhitespace_none; [exact Hd|reflexivity]|].
  reflect_bools. destruct (digits_head z ltac:(lia)) as (c & t & Ht & Hc). rewrite Ht in Hd.
  eapply SkipWhitespace_none; [exact Hd|]. by apply digit_not_space.
Qed.

Lemma compare4_null data pos rest :
  drop pos data = lit "null" ++ rest -> compare4 data pos (lit "null") = Ok true.
Proof.
  intros Hd. unfold compare4. pose proof (drop_cons_lt _ _ _ _ Hd).
  rewrite (proj2 (Nat.ltb_ge _ _)) by lia. by rewrite Hd.
Qed.

Lemma compare4_string data pos v rest :
  drop pos data = json_string v ++ rest -> compare4 data pos (lit "null") = Ok false.
Proof.
  intros Hd. unfold compare4. pose proof (drop_cons_lt _ _ _ _ Hd).
  rewrite (proj2 (Nat.ltb_ge _ _)) by lia. by rewrite Hd.
Qed.

(** One token: skip no white space, read it, move the suffix past it. *)
Ltac json_token Hd :=
  first
    [ rewrite (SkipWhitespace_json _ _ _ _ Hd)
    | rewrite (SkipWhitespace_number _ _ _ _ Hd)
    | rewrite (SkipWhitespace_none _ _ _ _ Hd) by reflexivity
    | rewrite (expect_ok _ _ _ _ _ Hd); cbn [mbind res_bind guard_store];
      apply (drop_split _ [_]) in Hd; cbn [length] in Hd
    | rewrite (ParseJsonString_json _ _ _ _ Hd); cbn [mbind res_bind guard_store];
      apply drop_split in Hd ].

(** The rest of an entry after its value. *)
Ltac entry_tail Hx Hd :=
  repeat json_token Hd; change (bool_decide (lit "expiry" = lit "expiry")) with true; cbn [negb];
  repeat json_token Hd;
  rewrite (ParseJsonInteger_to_string _ _ _ _ Hx Hd) by reflexivity; cbn [mbind res_bind];
  apply drop_split in Hd; repeat json_token Hd;
  rewrite ?length_app; cbn [length lit list_ascii_of_string]; do 2 f_equal; lia.

Lemma ParseEntryJson_json data pos e rest :
  in_int64 (expiry_ e) = true -> drop pos data = json_entry e ++ rest ->
  ParseEntryJson data pos = Ok (e, (pos + length (json_entry e))%nat).
Proof.
  destruct e as [x v]. unfold json_entry. cbn [expiry_ value_]. intros Hx Hd.
  rewrite !quoted_name_json, <- !app_assoc in * by reflexivity.
  unfold ParseEntryJson. cbv zeta.
  repeat json_token Hd. change (bool_decide (lit "value" = lit "value")) with true. cbn [negb].
  destruct v as [v|]; cbn [json_value] in *.
  - json_token Hd. rewrite (compare4_string _ _ _ _ Hd). cbn [mbind res_bind].
    entry_tail Hx Hd.
  - json_token Hd. rewrite (compare4_null _ _ _ Hd). cbn [mbind res_bind].
    apply drop_split in Hd. change (length (lit "null")) with 4%nat in Hd. entry_tail Hx Hd.
Qed.

Section RoundTrip.
Context {M : Type} {ops : MapOps bytes Entry M}.

(** The entries a parse inserts, in order. *)
Definition insert_all (d : M) (l : list (bytes * Entry)) : M :=
  fold_left (fun d kv => Insert d (fst kv) (snd kv)) l d.

Lemma parse_entries_members l : forall kv fuel data pos (d : M) rest,
  (length l < fuel)%nat ->
  Forall (fun kv => in_int64 (expiry_ (snd kv)) = true) (kv :: l) ->
  drop pos data = json_members (kv :: l) ++ lit "}" ++ rest ->
  parse_entries fuel data pos d
  = (insert_all d (kv :: l), Ok (pos + length (json_members (kv :: l)) + 1)%nat).
Proof.
  induction l as [|kv' l IH]; intros [k e] fuel data pos d rest Hf Hall Hd;
    apply Forall_cons in Hall as [He Hall]; cbn [snd] in He;
    (destruct fuel as [|fuel]; [cbn in Hf; lia|]); cbn [parse_entries]; cbv zeta;
    rewrite json_members_cons in *; unfold json_member at 1 in Hd; cbn [fst snd flat_map] in Hd;
    rewrite ?app_nil_r, <- ?app_assoc in Hd;
    repeat json_token Hd;
    rewrite (ParseEntryJson_json _ _ _ _ He Hd); cbn [guard_store]; apply drop_split in Hd;
    json_token Hd; rewrite (drop_lookup_0 _ _ _ _ Hd); cbn [flat_map].
  - change (Ascii.eqb "}" ",") with false. change (Ascii.eqb "}" "}") with true. cbn iota.
    rewrite app_nil_r. unfold json_member. cbn [fst snd]. rewrite !length_app.
    cbn [length lit list_ascii_of_string]. unfold insert_all. cbn [fold_left fst snd]. do 2 f_equal. lia.
  - change (Ascii.eqb "," ",") with true. cbn iota. apply (drop_split _ [_]) in Hd. cbn [length] in Hd.
    rewrite (IH kv' fuel data _ _ rest); [|cbn in Hf; lia|done|by rewrite json_members_cons, <- app_assoc].
    rewrite json_members_cons. unfold json_member. cbn [fst snd]. rewrite !length_app.
    cbn [length lit list_ascii_of_string]. unfold insert_all. cbn [fold_left fst snd]. do 2 f_equal. lia.
Qed.

Lemma json_members_length l : (length l <= length (json_members l))%nat.
Proof.
  induction l as [|kv l IH]; [done|]. destruct l as [|kv' l]; [cbn; lia|].
  change (json_members (kv :: kv' :: l)) with (json_member kv ++ lit "," ++ json_members (kv' :: l)).
  rewrite !length_app. cbn [length lit list_ascii_of_string] in *. lia.
Qed.

(** Reading back a printed list of members. *)
Lemma DeserialiseFromJson_text (d : M) l :
  Forall (fun kv => in_int64 (expiry_ (snd kv)) = true) l ->
  DeserialiseFromJson d (lit "{" ++ json_members l ++ lit "}") = (insert_all d l, Ok tt).
Proof.
  intros Hl. set (data := lit "{" ++ json_members l ++ lit "}").
  assert (drop 0 data = "{"%char :: json_members l ++ lit "}") as Hd by done.
  unfold DeserialiseFromJson. cbv zeta. do 2 json_token Hd.
  destruct l as [|kv l]; [reflexivity|].
  pose proof Hd as Hd'. rewrite json_members_cons in Hd'. unfold json_member at 1 in Hd'.
  rewrite <- !app_assoc in Hd'.
  rewrite (SkipWhitespace_json _ _ _ _ Hd'), (drop_lookup_0 _ _ _ _ Hd').
  change (match quote with "}"%char => ?a | _ => ?b end) with b.
  pose proof (json_members_length (kv :: l)) as Hlen.
  rewrite (parse_entries_members l kv _ data (0 + 1) d []);
    [|unfold data; rewrite !length_app; cbn [length] in *; lia|done|by rewrite app_nil_r].
  cbn [guard_store].
  replace (0 + 1 + length (json_members (kv :: l)) + 1)%nat with (length data)
    by (unfold data; rewrite !length_app; cbn [length lit list_ascii_of_string]; lia).
  by rewrite SkipWhitespace_end, Nat.eqb_refl.
Qed.

Context {spec : MapSpec bytes Entry M}.

Lemma insert_all_inv l : forall d : M, map_inv d -> map_inv (insert_all d l).
Proof.
  unfold insert_all. induction l as [|kv l IH]; intros d Hd; cbn; [done|].
  by apply IH, Insert_inv.
Qed.

Lemma insert_all_abs l : forall d : M, map_inv d -> NoDup l.*1 ->
  map_abs (insert_all d l) = list_to_map l ∪ map_abs d.
Proof.
  unfold insert_all. induction l as [|[k e] l IH]; intros d Hd Hn; cbn; [by rewrite left_id_L by apply _|].
  apply NoDup_cons in Hn as [Hk Hn]. rewrite IH by (done || by apply Insert_inv).
  rewrite Insert_abs by done. rewrite <- insert_union_r; [by rewrite insert_union_l|].
  by apply not_elem_of_list_to_map.
Qed.

Lemma ForEach_facts (d : M) : map_inv d ->
  NoDup (ForEach d).*1 /\ list_to_map (ForEach d) = map_abs d.
Proof.
  intros Hd. pose proof (ForEach_abs d Hd) as Hp.
  assert (NoDup (ForEach d).*1) as Hn by (rewrite Hp; apply NoDup_fst_map_to_list).
  split; [done|]. rewrite (list_to_map_proper _ _ Hn Hp). apply list_to_map_to_list.
Qed.

(** Every deadline of the store fits its field. *)
Definition deadlines_fit (d : M) : Prop :=
  forall k e, map_abs d !! k = Some e -> in_int64 (expiry_ e) = true.

Lemma insert_all_fits l : forall d : M, map_inv d -> deadlines_fit d ->
  Forall (fun kv => in_int64 (expiry_ (snd kv)) = true) l -> deadlines_fit (insert_all d l).
Proof.
  unfold insert_all. induction l as [|[k e] l IH]; intros d Hd Hf Hl; cbn; [done|].
  apply Forall_cons in Hl as [He Hl]. apply IH; [by apply Insert_inv| |done].
  intros k' e'. rewrite Insert_abs by done. intros [[<- <-]|[_ Hk]]%lookup_insert_Some; [done|].
  by eapply Hf.
Qed.

Lemma restore_snapshot (d : M) : map_inv d -> deadlines_fit d ->
  exists d', DeserialiseFromJson EmptyMap (SerialiseToJson d) = (d', Ok tt)
             /\ map_inv d' /\ map_abs d' = map_abs d.
Proof.
  intros Hd Hfit. exists (insert_all EmptyMap (ForEach d)).
  destruct (ForEach_facts d Hd) as [Hn Hm].
  rewrite SerialiseToJson_text, DeserialiseFromJson_text.
  - split_and!; [done|by apply insert_all_inv, EmptyMap_inv|].
    rewrite insert_all_abs by (done || apply EmptyMap_inv). by rewrite EmptyMap_abs, right_id_L, Hm by apply _.
  - apply Forall_forall. intros [k e] Hin. cbn. apply (Hfit k). rewrite <- Hm.
    by apply elem_of_list_to_map.
Qed.

End RoundTrip.

(** ** Totality *)

Lemma skip_whitespace_from_bound s pos :
  (pos <= skip_whitespace_from s pos <= pos + length s)%nat.
Proof.
  revert pos. induction s as [|c s IH]; intros pos; cbn; [lia|].
  destruct (is_json_space c); [specialize (IH (S pos)); lia|lia].
Qed.

Lemma SkipWhitespace_bound data pos : (pos <= length data)%nat ->
  (pos <= SkipWhitespace data pos <= length data)%nat.
Proof.
  intros Hp. unfold SkipWhitespace. pose proof (skip_whitespace_from_bound (drop pos data) pos) as H.
  rewrite length_drop in H. lia.
Qed.

(** [m] returns or throws [std::invalid_argument]; what it returns ends at a
    position after [pos] and inside the input. *)
Definition advances {A} (at_ : A -> nat) (data : bytes) (pos : nat) (m : res A) : Prop :=
  settled m /\ (forall a, m = Ok a -> (pos < at_ a <= length data)%nat).

Lemma advances_bind {A B} (f : A -> nat) (g : B -> nat) data pos m (k : A -> res B) :
  advances f data pos m ->
  (forall a, (pos < f a <= length data)%nat -> advances g data (f a) (k a)) ->
  advances g data pos (m ≫= k).
Proof.
  intros [Hs Hm] Hk. destruct m as [a|[]| |]; cbn; try done.
  destruct (Hk a (Hm a eq_refl)) as [H1 H2]. split; [done|].
  intros b Hb. specialize (H2 b Hb). specialize (Hm a eq_refl). lia.
Qed.

Lemma advances_weaken {A} (f : A -> nat) data pos pos' m :
  (pos' <= pos)%nat -> advances f data pos m -> advances f data pos' m.
Proof. intros Hp [H1 H2]. split; [done|]. intros a Ha. specialize (H2 a Ha). lia. Qed.

Lemma expect_advances data pos c w : advances id data pos (expect data pos c w).
Proof.
  unfold advances, expect. destruct (data !! pos) as [c'|] eqn:Hl; [|done].
  apply lookup_lt_Some in Hl. destruct (Ascii.eqb c' c); [|done].
  split; [done|]. intros a [= <-]. cbn. lia.
Qed.

Lemma ParseJsonString_advances data pos : advances snd data pos (ParseJsonString data pos).
Proof.
  split; [apply ParseJsonString_settled|]. intros [v p] H. by eapply ParseJsonString_bound.
Qed.

Lemma ParseJsonInteger_advances data pos : advances snd data pos (ParseJsonInteger data pos).
Proof.
  split; [apply ParseJsonInteger_settled|]. intros [v p] H. by eapply ParseJsonInteger_bound.
Qed.

Lemma advances_throw {A} (f : A -> nat) data pos w : advances f data pos (Throw (InvalidArgument w)).
Proof. done. Qed.

#[export] Hint Resolve expect_advances ParseJsonString_advances ParseJsonInteger_advances
  advances_throw : myredis.

(** One call of a parser, after skipping white space. *)
Lemma advances_step {A B} (f : A -> nat) (g : B -> nat) data pos (p : nat -> res A) (k : A -> res B) :
  (pos <= length data)%nat ->
  (forall pos, advances f data pos (p pos)) ->
  (forall a, (pos < f a <= length data)%nat -> advances g data (f a) (k a)) ->
  advances g data pos (p (SkipWhitespace data pos) ≫= k).
Proof.
  intros Hpos Hp Hk. pose proof (SkipWhitespace_bound data pos Hpos).
  eapply advances_bind; [eapply advances_weaken; [|apply Hp]; lia|done].
Qed.

(** [compare(pos, 4, "null")], then the literal or a string. *)
Lemma parse_value_advances data pos : (pos <= length data)%nat ->
  advances snd data pos
    (is_null ← compare4 data pos (lit "null");
     if (is_null : bool) then Ok (None, (pos + 4)%nat)
     else '(value, pos) ← ParseJsonString data pos; Ok (Some value, pos)).
Proof.
  intros Hp. unfold compare4. rewrite (proj2 (Nat.ltb_ge _ _)) by lia. cbn [mbind res_bind].
  destruct (bool_decide _) eqn:Hb; reflect_bools.
  - split; [done|]. intros [v p] [= <- <-]. cbn. apply (f_equal length) in Hb.
    rewrite length_take, length_drop in Hb. change (length (lit "null")) with 4%nat in Hb. lia.
  - pose proof (ParseJsonString_advances data pos) as [H1 H2].
    destruct (ParseJsonString data pos) as [[v p]|[]| |]; try done.
    split; [done|]. intros a [= <-]. by apply (H2 (v, p)).
Qed.

Ltac json_advance :=
  first
    [ eapply (advances_step id _ _ _ (fun q => expect _ q _ _))
    | eapply (advances_step snd _ _ _ (fun q => ParseJsonString _ q))
    | eapply (advances_step snd _ _ _ (fun q => ParseJsonInteger _ q)) ];
  [lia|auto with myredis|].

Lemma ParseEntryJson_advances data pos : advances snd data pos (ParseEntryJson data pos).
Proof.
  unfold ParseEntryJson. cbv zeta. eapply advances_bind; [apply expect_advances|]. intros p1 ?. cbn [id] in *.
  json_advance. intros [name p2] ?. cbn [snd] in *. destruct (negb _); [done|].
  json_advance. intros p3 ?. cbn [id] in *.
  pose proof (SkipWhitespace_bound data p3 ltac:(lia)).
  rewrite <- res_bind_assoc. eapply (advances_weaken _ _ (SkipWhitespace data p3)); [lia|].
  eapply advances_bind; [apply parse_value_advances; lia|]. intros [v p4] ?. cbn [snd] in *.
  json_advance. intros p5 ?. cbn [id] in *.
  json_advance. intros [name' p6] ?. cbn [snd] in *. destruct (negb _); [done|].
  json_advance. intros p7 ?. cbn [id] in *.
  json_advance. intros [x p8] ?. cbn [snd] in *.
  pose proof (SkipWhitespace_bound data p8 ltac:(lia)).
  destruct (expect_advances data (SkipWhitespace data p8) "}" "expected '}' to close entry") as [Hs Hb].
  destruct (expect _ _ _ _) as [p9|[]| |]; try done. split; [done|]. intros ? [= <-]. cbn.
  specialize (Hb p9 eq_refl). cbn in Hb. lia.
Qed.

Lemma ParseEntryJson_fits data pos e p :
  ParseEntryJson data pos = Ok (e, p) -> in_int64 (expiry_ e) = true.
Proof.
  unfold ParseEntryJson. cbv zeta. intros H.
  repeat first [inv_bind H | destruct (negb _); [done|]].
  injection H as <- <-. cbn. by eapply ParseJsonInteger_bound.
Qed.

Section Totality.
Context {M : Type} {ops : MapOps bytes Entry M}.

(** What a parse that started from the store [d] left: entries were inserted,
    each with a deadline that fits, and the outcome is settled. *)
Definition parsed_into {A} (d : M) (r : M * res A) : Prop :=
  settled (snd r)
  /\ exists l, fst r = insert_all d l /\ Forall (fun kv => in_int64 (expiry_ (snd kv)) = true) l.

Lemma parsed_into_here {A} (d : M) (m : res A) : settled m -> parsed_into d (d, m).
Proof. intros Hm. split; [done|]. by exists []. Qed.

Lemma parsed_into_insert {A} (d : M) k e (r : M * res A) :
  in_int64 (expiry_ e) = true -> parsed_into (Insert d k e) r -> parsed_into d r.
Proof.
  intros He [Hs (l & Hl & Hall)]. split; [done|]. exists ((k, e) :: l). split; [done|].
  by constructor.
Qed.

Lemma parse_entries_total fuel data : forall pos (d : M),
  (pos <= length data)%nat -> (length data - pos < fuel)%nat ->
  parsed_into d (parse_entries fuel data pos d).
Proof.
  induction fuel as [|fuel IH]; intros pos d Hp Hf; [lia|]. cbn [parse_entries]. cbv zeta.
  pose proof (SkipWhitespace_bound data pos Hp). set (p0 := SkipWhitespace data pos) in *.
  destruct (ParseJsonString_advances data p0) as [Hs1 Hb1].
  destruct (ParseJsonString data p0) as [[key p1]|[]| |]; cbn [guard_store]; try by apply parsed_into_here.
  specialize (Hb1 _ eq_refl). cbn [snd] in Hb1.
  pose proof (SkipWhitespace_bound data p1 ltac:(lia)). set (p2 := SkipWhitespace data p1) in *.
  destruct (expect_advances data p2 ":" "expected ':' after key") as [Hs2 Hb2].
  destruct (expect _ _ _ _) as [p3|[]| |]; cbn [guard_store]; try by apply parsed_into_here.
  specialize (Hb2 _ eq_refl). cbn [id] in Hb2.
  pose proof (SkipWhitespace_bound data p3 ltac:(lia)). set (p4 := SkipWhitespace data p3) in *.
  destruct (ParseEntryJson_advances data p4) as [Hs3 Hb3].
  destruct (ParseEntryJson data p4) as [[e p5]|[]| |] eqn:He; cbn [guard_store]; try by apply parsed_into_here.
  specialize (Hb3 _ eq_refl). cbn [snd] in Hb3. apply ParseEntryJson_fits in He.
  pose proof (SkipWhitespace_bound data p5 ltac:(lia)). set (p6 := SkipWhitespace data p5) in *.
  eapply parsed_into_insert; [exact He|].
  destruct (data !! p6) as [c|] eqn:Hc; [|by apply parsed_into_here]. apply lookup_lt_Some in Hc.
  destruct (Ascii.eqb c ","); [apply IH; lia|].
  destruct (Ascii.eqb c "}"); by apply parsed_into_here.
Qed.

Lemma DeserialiseFromJson_parsed (d : M) data : parsed_into d (DeserialiseFromJson d data).
Proof.
  unfold DeserialiseFromJson. cbv zeta.
  pose proof (SkipWhitespace_bound data 0 ltac:(lia)). set (p0 := SkipWhitespace data 0) in *.
  destruct (expect_advances data p0 "{" "json data did not begin with {") as [Hs Hb].
  destruct (expect _ _ _ _) as [p1|[]| |]; cbn [guard_store]; try by apply parsed_into_here.
  specialize (Hb _ eq_refl). cbn [id] in Hb.
  pose proof (SkipWhitespace_bound data p1 ltac:(lia)). set (p2 := SkipWhitespace data p1) in *.
  match goal with |- context [let '(_, _) := ?m in _] => assert (parsed_into d m) as Hm; [|destruct m as [d' r]] end.
  { pose proof (parse_entries_total (S (length data)) data p2 d ltac:(lia) ltac:(lia)).
    repeat case_match; done || by apply parsed_into_here. }
  destruct Hm as [Hr (l & Hl & Hall)]. cbn [fst snd] in *. subst d'.
  destruct r as [p|[]| |]; cbn [guard_store]; try done;
    [destruct (_ =? _)%nat|]; (split; [done|by exists l]).
Qed.

End Totality.

(** ** Theorems *)

Section Theorems.
Context {M : Type} {ops : MapOps bytes Entry M} {spec : MapSpec bytes Entry M}.

(** A snapshot restores the store: whatever order the map iterates in,
    reading [SerialiseToJson d] into an empty store succeeds and gives a
    well-formed store with exactly the contents of [d]: every key, every value
    (null values included, arbitrary bytes) and every deadline. *)
Theorem snapshot_roundtrip (d : M) :
  map_inv d -> deadlines_fit d ->
  exists d', DeserialiseFromJson EmptyMap (SerialiseToJson d) = (d', Ok tt)
             /\ map_inv d' /\ map_abs d' = map_abs d.
Proof. apply restore_snapshot. Qed.

(** [DeserialiseFromJson] is total: on every input it terminates, and the
    only exception it throws is [std::invalid_argument] (the out-of-range
    [compare] cannot happen).  Success or failure, the store it leaves is the
    old one with a list of entries inserted, well formed, and every deadline
    in it fits 64 bits, so that it can be written out and read back. *)
Theorem DeserialiseFromJson_total (d : M) (json_data : bytes) :
  map_inv d -> deadlines_fit d ->
  settled (snd (DeserialiseFromJson d json_data))
  /\ (exists l, fst (DeserialiseFromJson d json_data) = insert_all d l)
  /\ map_inv (fst (DeserialiseFromJson d json_data))
  /\ deadlines_fit (fst (DeserialiseFromJson d json_data)).
Proof.
  intros Hd Hfit. destruct (DeserialiseFromJson_parsed d json_data) as [Hs (l & Hl & Hall)].
  rewrite Hl. split_and!; [done|by exists l|by apply insert_all_inv|by apply insert_all_fits].
Qed.

End Theorems.

#[local] Existing Instance std_ops.
#[local] Existing Instance std_spec.

Definition sample_snapshot : gmap bytes Entry :=
  {[ lit "a" := mkEntry NO_EXPIRY None;
     [quote; "\"%char; CR] := mkEntry 1700000000000 (Some [LF; quote]) ]}.

Lemma sample_snapshot_fits : deadlines_fit sample_snapshot.
Proof.
  intros k e H. change (sample_snapshot !! k = Some e) in H. unfold sample_snapshot in H.
  apply lookup_insert_Some in H as [[_ <-]|[_ [_ <-]%lookup_singleton_Some]]; reflexivity.
Qed.

Lemma snapshot_roundtrip_witness :
  exists d', DeserialiseFromJson EmptyMap (SerialiseToJson sample_snapshot) = (d', Ok tt)
             /\ map_inv d' /\ map_abs d' = map_abs sample_snapshot.
Proof. apply (snapshot_roundtrip sample_snapshot); [exact I|exact sample_snapshot_fits]. Defined.

(** A file cut after its first entry. *)
Lemma DeserialiseFromJson_total_witness :
  let json := take 30 (SerialiseToJson sample_snapshot) in
  settled (snd (DeserialiseFromJson sample_snapshot json))
  /\ (exists l, fst (DeserialiseFromJson sample_snapshot json) = insert_all sample_snapshot l)
  /\ map_inv (fst (DeserialiseFromJson sample_snapshot json))
  /\ deadlines_fit (fst (DeserialiseFromJson sample_snapshot json)).
Proof.
  intros json. apply (DeserialiseFromJson_total sample_snapshot json);
    [exact I|exact sample_snapshot_fits].
Defined.
