(* ===== verification/Handlers.v ===== *)
(** * Request handlers: [v2/src/server/handler/]

    [ParseCommand] (command.h), one Module per handler class with its
    [IsHandler] and [Handle], and the chain of [RequestDispatcher].  The store
    is threaded explicitly; the clock is an argument [now], read at most once
    by each handler.  Dereferencing an empty [std::optional], indexing a vector
    out of range and signed overflow are undefined behaviour and appear as
    [Undef], so that the theorems say when a request is safe to execute. *)

From S2P Require Import Prelude CxxString RespValue MapInterface Store.

(** [*optional] *)
Definition deref {A} (o : option A) : res A :=
  match o with Some a => Ok a | None => Undef "dereference of std::nullopt" end.

(** [vector[i]] *)
Definition at_index {A} (l : list A) (i : nat) : res A :=
  match l !! i with Some a => Ok a | None => Undef "vector index" end.

(** [a && b]: [b] is evaluated only when [a] holds. *)
Definition and_then (a : bool) (b : res bool) : res bool := if a then b else Ok false.
(** [a || b] *)
Definition or_else (a : bool) (b : res bool) : res bool := if a then Ok true else b.

Notation "a &&> b" := (and_then a b) (at level 41, right associativity) : bytes_scope.

(** ** Commands *)

Record Command := mkCommand {
  name : bytes;
  args : list (option bytes)
}.

(** The loop over the elements after the keyword. *)
Fixpoint ParseArgs (l : list RespValue) : option (list (option bytes)) :=
  match l with
  | [] => Some []
  | RespBulkString arg :: l => args ← ParseArgs l; Some (arg :: args)
  | _ => None
  end.

Definition ParseCommand (request : RespValue) : option Command :=
  match request with
  | RespArray (RespBulkString (Some name) :: rest) =>
      if bool_decide (name = []) then None
      else args ← ParseArgs rest; Some (mkCommand name args)
  | _ => None
  end.

(** [args.size() == n] *)
Definition argc (command : Command) (n : nat) : bool := (length (args command) =? n)%nat.

(** [args[0].has_value() && !args[0]->empty()] *)
Definition key_given (command : Command) : res bool :=
  arg ← at_index (args command) 0;
  match arg with
  | Some s => Ok (negb (bool_decide (s = [])))
  | None => Ok false
  end.

(** [command && command->name == n && ...] *)
Definition named (request : RespValue) (n : bytes) (k : Command -> res bool) : res bool :=
  match ParseCommand request with
  | Some command => bool_decide (name command = n) &&> k command
  | None => Ok false
  end.

(** [*command->args[i]] *)
Definition arg_text (command : Command) (i : nat) : res bytes :=
  arg ← at_index (args command) i; deref arg.

Section Handlers.
Context {M : Type} {ops : MapOps bytes Entry M}.

(** The interface [Handler]. *)
Record Handler := mkHandler {
  IsHandler : RespValue -> res bool;
  Handle : M -> Z -> RespValue -> res (M * RespValue)
}.

End Handlers.
Arguments Handler M : clear implicits.

Module GetRequestHandler.
Section S.
Context {M : Type} {ops : MapOps bytes Entry M}.

Definition IsHandler (request : RespValue) : res bool :=
  named request (lit "GET") (fun command => argc command 1 &&> key_given command).

Definition Handle (store_ : M) (now : Z) (request : RespValue) : res (M * RespValue) :=
  command ← deref (ParseCommand request);
  key ← arg_text command 0;
  let found := Store.Get store_ now key in
  match found with
  | None => Ok (store_, NullBulkString)
  | Some _ => Ok (store_, BulkString found)
  end.

Definition handler : Handler M := mkHandler IsHandler Handle.
End S.
End GetRequestHandler.

Module SetRequestHandler.
Section S.
Context {M : Type} {ops : MapOps bytes Entry M}.

Definition IsHandler (request : RespValue) : res bool :=
  named request (lit "SET") (fun command => argc command 2 &&> key_given command).

Definition Handle (store_ : M) (now : Z) (request : RespValue) : res (M * RespValue) :=
  command ← deref (ParseCommand request);
  key ← arg_text command 0;
  value ← at_index (args command) 1;
  Ok (Store.Set_ store_ key value, SimpleString (lit "OK")).

Definition handler : Handler M := mkHandler IsHandler Handle.
End S.
End SetRequestHandler.

Module DelRequestHandler.
Section S.
Context {M : Type} {ops : MapOps bytes Entry M}.

Definition IsHandler (request : RespValue) : res bool :=
  named request (lit "DEL") (fun command => argc command 1 &&> key_given command).

Definition Handle (store_ : M) (now : Z) (request : RespValue) : res (M * RespValue) :=
  command ← deref (ParseCommand request);
  key ← arg_text command 0;
  Ok (Store.Del store_ key, Integer 1).

Definition handler : Handler M := mkHandler IsHandler Handle.
End S.
End DelRequestHandler.

Module ExpireRequestHandler.
Section S.
Context {M : Type} {ops : MapOps bytes Entry M}.
Context (handler_name_ : bytes) (time_conversion_factor_ : Z) (relative_to_now_ : bool).

Definition ParseInteger (arg : option bytes) : option Z :=
  match arg with
  | None => None
  | Some s =>
      if bool_decide (s = []) then None
      else
        match from_chars s with
        | FromCharsOk value ptr => if (ptr =? length s)%nat then Some value else None
        | FromCharsInvalid | FromCharsRange _ => None
        end
  end.

Definition IsHandler (request : RespValue) : res bool :=
  named request handler_name_ (fun command =>
    (argc command 2 || argc command 3) &&>
    (given ← key_given command;
     given &&>
     (arg ← at_index (args command) 1;
      bool_decide (is_Some (ParseInteger arg)) &&>
      or_else (argc command 2)
        (opt ← arg_text command 2;
         Ok (bool_decide (is_Some (ToExpireOption opt))))))).

Definition Handle (store_ : M) (now : Z) (request : RespValue) : res (M * RespValue) :=
  command ← deref (ParseCommand request);
  arg ← at_index (args command) 1;
  value ← deref (ParseInteger arg);
  option ← (if argc command 3 then
              opt ← arg_text command 2; deref (ToExpireOption opt)
            else Ok NA);
  let base := if relative_to_now_ then Store.NowMs now else 0 in
  scaled ← mul64 value time_conversion_factor_;
  proposed_expiry ← add64 base scaled;
  key ← arg_text command 0;
  let '(store_, set) := Store.ExpireAt store_ key proposed_expiry option in
  Ok (store_, Integer (if set then 1 else 0)).

Definition handler : Handler M := mkHandler IsHandler Handle.
End S.
End ExpireRequestHandler.

Module TtlRequestHandler.
Section S.
Context {M : Type} {ops : MapOps bytes Entry M}.
Context (handler_name_ : bytes) (time_conversion_factor_ : Z).

Definition IsHandler (request : RespValue) : res bool :=
  named request handler_name_ (fun command => argc command 1 &&> key_given command).

Definition Handle (store_ : M) (now : Z) (request : RespValue) : res (M * RespValue) :=
  command ← deref (ParseCommand request);
  key ← arg_text command 0;
  result ← Store.Ttl store_ now key;
  Ok (store_, Integer (if result <? 0 then result else Z.quot result time_conversion_factor_)).

Definition handler : Handler M := mkHandler IsHandler Handle.
End S.
End TtlRequestHandler.

Module PersistRequestHandler.
Section S.
Context {M : Type} {ops : MapOps bytes Entry M}.

Definition IsHandler (request : RespValue) : res bool :=
  named request (lit "PERSIST") (fun command => argc command 1 &&> key_given command).

Definition Handle (store_ : M) (now : Z) (request : RespValue) : res (M * RespValue) :=
  command ← deref (ParseCommand request);
  key ← arg_text command 0;
  let '(store_, persisted) := Store.Persist store_ now key in
  Ok (store_, Integer (if persisted then 1 else 0)).

Definition handler : Handler M := mkHandler IsHandler Handle.
End S.
End PersistRequestHandler.

Module EchoRequestHandler.
Section S.
Context {M : Type}.

Definition IsHandler (request : RespValue) : res bool :=
  named request (lit "ECHO") (fun command => Ok (argc command 1)).

Definition Handle (store_ : M) (now : Z) (request : RespValue) : res (M * RespValue) :=
  command ← deref (ParseCommand request);
  arg ← at_index (args command) 0;
  Ok (store_, BulkString arg).

Definition handler : Handler M := mkHandler IsHandler Handle.
End S.
End EchoRequestHandler.

Module PingRequestHandler.
Section S.
Context {M : Type}.

Definition IsHandler (request : RespValue) : res bool :=
  named request (lit "PING") (fun command => Ok (argc command 0 || argc command 1)).

Definition Handle (store_ : M) (now : Z) (request : RespValue) : res (M * RespValue) :=
  command ← deref (ParseCommand request);
  if argc command 0 then Ok (store_, SimpleString (lit "PONG"))
  else
    arg ← at_index (args command) 0;
    Ok (store_, BulkString arg).

Definition handler : Handler M := mkHandler IsHandler Handle.
End S.
End PingRequestHandler.

Module HelloRequestHandler.
Section S.
Context {M : Type}.

Definition text (s : string) : RespValue := BulkString (Some (lit s)).

Definition server_info : RespValue :=
  Array [text "server"; text "myredis"; text "version"; text "0.1.0"; text "proto"; Integer 2;
         text "mode"; text "standalone"; text "role"; text "master"; text "modules"; Array []].

Definition IsHandler (request : RespValue) : res bool :=
  named request (lit "HELLO") (fun command => Ok (length (args command) <=? 1)%nat).

Definition Handle (store_ : M) (now : Z) (request : RespValue) : res (M * RespValue) :=
  command ← deref (ParseCommand request);
  unsupported ← argc command 1 &&>
    (arg ← at_index (args command) 0; Ok (negb (bool_decide (arg = Some (lit "2")))));
  if (unsupported : bool) then Ok (store_, Error (lit "NOPROTO unsupported protocol version"))
  else Ok (store_, server_info).

Definition handler : Handler M := mkHandler IsHandler Handle.
End S.
End HelloRequestHandler.

Module UnknownRequestHandler.
Section S.
Context {M : Type}.

Definition IsHandler (request : RespValue) : res bool := Ok true.

Definition Handle (store_ : M) (now : Z) (request : RespValue) : res (M * RespValue) :=
  Ok (store_, Error (lit "Unknown subcommand or command")).

Definition handler : Handler M := mkHandler IsHandler Handle.
End S.
End UnknownRequestHandler.

(** ** The dispatcher *)

Module RequestDispatcher.
Section S.
Context {M : Type} {ops : MapOps bytes Entry M}.

Definition SECONDS_TO_MILLISECONDS : Z := 1000.

(** What the constructor pushes, in order. *)
Definition handlers_ : list (Handler M) :=
  [GetRequestHandler.handler;
   SetRequestHandler.handler;
   DelRequestHandler.handler;
   ExpireRequestHandler.handler (lit "EXPIRE") SECONDS_TO_MILLISECONDS true;
   ExpireRequestHandler.handler (lit "PEXPIRE") 1 true;
   ExpireRequestHandler.handler (lit "EXPIREAT") SECONDS_TO_MILLISECONDS false;
   ExpireRequestHandler.handler (lit "PEXPIREAT") 1 false;
   TtlRequestHandler.handler (lit "TTL") SECONDS_TO_MILLISECONDS;
   TtlRequestHandler.handler (lit "PTTL") 1;
   PersistRequestHandler.handler;
   EchoRequestHandler.handler;
   PingRequestHandler.handler;
   HelloRequestHandler.handler;
   UnknownRequestHandler.handler].

(** The loop of [Dispatch]: the first handler that claims the request. *)
Fixpoint dispatch_chain (handlers : list (Handler M)) (store_ : M) (now : Z) (request : RespValue)
    : res (M * RespValue) :=
  match handlers with
  | [] => Ok (store_, Error (lit "Unknown subcommand or command"))
  | handler :: handlers =>
      claimed ← IsHandler handler request;
      if (claimed : bool) then Handle handler store_ now request
      else dispatch_chain handlers store_ now request
  end.

Definition Dispatch (store_ : M) (now : Z) (request : RespValue) : res (M * RespValue) :=
  dispatch_chain handlers_ store_ now request.

End S.
End RequestDispatcher.
