(* ===== verification/CommandSpec.v ===== *)
(** * What a request means: a specification of the command language

    [recognise] gives the meaning of every RESP value sent to the server, by
    its keyword and the shape of its arguments, and [exec] gives each command
    its reply and effect on the abstract store.  The dispatcher's chain of
    handlers is proved equal to performing the recognised command, for every
    request; over any correct map that refines [exec].  The remaining theorems
    say exactly which requests are undefined behaviour. *)

From S2P Require Import Prelude CxxString RespValue MapInterface Store Handlers.
Import RequestDispatcher.

Inductive cmd :=
| CGet (key : bytes)
| CSet (key : bytes) (value : option bytes)
| CDel (key : bytes)
| CExpire (factor : Z) (relative : bool) (key : bytes) (n : Z) (opt : ExpireOption)
| CTtl (factor : Z) (key : bytes)
| CPersist (key : bytes)
| CEcho (value : option bytes)
| CPing (value : option (option bytes))
| CHello (version : option (option bytes))
| CUnknown
(** an EXPIRE-like request whose option is a null bulk string *)
| CNullOption.

(** A decimal integer that fits 64 bits and is the whole argument. *)
Definition int_arg (arg : option bytes) : option Z := ExpireRequestHandler.ParseInteger arg.

Definition with_key (args : list (option bytes)) (k : bytes -> list (option bytes) -> cmd) : cmd :=
  match args with
  | Some (c :: s) :: rest => k (c :: s) rest
  | _ => CUnknown
  end.

Definition only_key (args : list (option bytes)) (k : bytes -> cmd) : cmd :=
  with_key args (fun key rest => match rest with [] => k key | _ => CUnknown end).

Definition expire_cmd (factor : Z) (relative : bool) (args : list (option bytes)) : cmd :=
  with_key args (fun key rest =>
    match rest with
    | [n] =>
        match int_arg n with
        | Some n => CExpire factor relative key n NA
        | None => CUnknown
        end
    | [n; opt] =>
        match int_arg n, opt with
        | Some n, Some opt =>
            match ToExpireOption opt with
            | Some opt => CExpire factor relative key n opt
            | None => CUnknown
            end
        | Some _, None => CNullOption
        | None, _ => CUnknown
        end
    | _ => CUnknown
    end).

(** The command table. *)
Definition table : list (bytes * (list (option bytes) -> cmd)) :=
  [(lit "GET", fun args => only_key args CGet);
   (lit "SET", fun args => with_key args (fun key rest =>
                 match rest with [value] => CSet key value | _ => CUnknown end));
   (lit "DEL", fun args => only_key args CDel);
   (lit "EXPIRE", expire_cmd 1000 true);
   (lit "PEXPIRE", expire_cmd 1 true);
   (lit "EXPIREAT", expire_cmd 1000 false);
   (lit "PEXPIREAT", expire_cmd 1 false);
   (lit "TTL", fun args => only_key args (CTtl 1000));
   (lit "PTTL", fun args => only_key args (CTtl 1));
   (lit "PERSIST", fun args => only_key args CPersist);
   (lit "ECHO", fun args => match args with [v] => CEcho v | _ => CUnknown end);
   (lit "PING", fun args => match args with [] => CPing None | [v] => CPing (Some v) | _ => CUnknown end);
   (lit "HELLO", fun args => match args with [] => CHello None | [v] => CHello (Some v) | _ => CUnknown end)].

Fixpoint look_up {A} (t : list (bytes * A)) (n : bytes) : option A :=
  match t with
  | [] => None
  | (n', a) :: t => if decide (n = n') then Some a else look_up t n
  end.

Definition recognise (request : RespValue) : cmd :=
  match ParseCommand request with
  | Some c => match look_up table (name c) with Some f => f (args c) | None => CUnknown end
  | None => CUnknown
  end.

(** The request a client sends for a command line. *)
Definition command_line (words : list (option bytes)) : RespValue := RespArray (RespBulkString <$> words).

Definition unknown_reply : RespValue := Error (lit "Unknown subcommand or command").

(** The reply to the commands that do not touch the store. *)
Definition constant_reply (c : cmd) : RespValue :=
  match c with
  | CEcho v | CPing (Some v) => BulkString v
  | CPing None => SimpleString (lit "PONG")
  | CHello None => HelloRequestHandler.server_info
  | CHello (Some v) =>
      if bool_decide (v = Some (lit "2")) then HelloRequestHandler.server_info
      else Error (lit "NOPROTO unsupported protocol version")
  | _ => unknown_reply
  end.

Definition deadline (now : Z) (relative : bool) (n factor : Z) : Z :=
  (if relative then now else 0) + n * factor.

Definition scale (factor ttl : Z) : Z := if ttl <? 0 then ttl else Z.quot ttl factor.

(** Effect and reply on the abstract store. *)
Definition exec (a : Abstract.store) (now : Z) (c : cmd) : Abstract.store * RespValue :=
  match c with
  | CGet k => (a, BulkString (Abstract.get a now k))
  | CSet k v => (Abstract.set_ a k v, SimpleString (lit "OK"))
  | CDel k => (Abstract.del a k, Integer 1)
  | CExpire factor relative k n o =>
      let '(a, b) := Abstract.expire_at a k (deadline now relative n factor) o in
      (a, Integer (if b then 1 else 0))
  | CTtl factor k => (a, Integer (scale factor (Abstract.ttl a now k)))
  | CPersist k => let '(a, b) := Abstract.persist a now k in (a, Integer (if b then 1 else 0))
  | _ => (a, constant_reply c)
  end.

Section Perform.
Context {M : Type} {ops : MapOps bytes Entry M}.

(** The same on the store of the program, with its arithmetic. *)
Definition perform (d : M) (now : Z) (c : cmd) : res (M * RespValue) :=
  match c with
  | CGet k => Ok (d, BulkString (Store.Get d now k))
  | CSet k v => Ok (Store.Set_ d k v, SimpleString (lit "OK"))
  | CDel k => Ok (Store.Del d k, Integer 1)
  | CExpire factor relative k n o =>
      scaled ← mul64 n factor;
      t ← add64 (if relative then now else 0) scaled;
      let '(d, b) := Store.ExpireAt d k t o in Ok (d, Integer (if b then 1 else 0))
  | CTtl factor k => ttl ← Store.Ttl d now k; Ok (d, Integer (scale factor ttl))
  | CPersist k => let '(d, b) := Store.Persist d now k in Ok (d, Integer (if b then 1 else 0))
  | CNullOption => Undef "dereference of std::nullopt"
  | _ => Ok (d, constant_reply c)
  end.

(** *** One link of the chain *)

Lemma skip_name (h : Handler M) hs d now r c n k : ParseCommand r = Some c ->
  IsHandler h r = named r n k -> (bool_decide (name c = n) &&> k c) = Ok false ->
  dispatch_chain (h :: hs) d now r = dispatch_chain hs d now r.
Proof. intros Hp Hh Hk. cbn. rewrite Hh. unfold named. by rewrite Hp, Hk. Qed.

Lemma claim_name (h : Handler M) hs d now r c n k : ParseCommand r = Some c ->
  IsHandler h r = named r n k -> (bool_decide (name c = n) &&> k c) = Ok true ->
  dispatch_chain (h :: hs) d now r = Handle h d now r.
Proof. intros Hp Hh Hk. cbn. rewrite Hh. unfold named. by rewrite Hp, Hk. Qed.

Lemma undef_name (h : Handler M) hs d now r c n k w : ParseCommand r = Some c ->
  IsHandler h r = named r n k -> (bool_decide (name c = n) &&> k c) = Undef w ->
  dispatch_chain (h :: hs) d now r = Undef w.
Proof. intros Hp Hh Hk. cbn. rewrite Hh. unfold named. by rewrite Hp, Hk. Qed.

End Perform.

(** Pass a handler that does not claim the request. *)
Ltac skip_handler Hp :=
  etransitivity;
    [eapply skip_name; [exact Hp|reflexivity|
       cbn [name];
       first [ reflexivity
             | rewrite bool_decide_false by assumption; reflexivity ]]|].

(** Run the chain to the handler that claims the request. *)
Ltac run_chain Hp :=
  unfold Dispatch, handlers_; repeat skip_handler Hp;
  first [ reflexivity
        | etransitivity; [eapply claim_name; [exact Hp|reflexivity|reflexivity]|] ].

Section Recognised.
Context {M : Type} {ops : MapOps bytes Entry M}.
Implicit Types (d : M) (now : Z) (r : RespValue).

Lemma dispatch_GET d now r l : ParseCommand r = Some (mkCommand (lit "GET") l) ->
  Dispatch d now r = perform d now (only_key l CGet).
Proof.
  intros Hp. destruct l as [|[[|b k]|] [|x l]]; run_chain Hp.
  cbn [Handle GetRequestHandler.handler]. unfold GetRequestHandler.Handle. rewrite Hp. cbn.
  by destruct (Store.Get _ _ _).
Qed.

Lemma dispatch_SET d now r l : ParseCommand r = Some (mkCommand (lit "SET") l) ->
  Dispatch d now r = perform d now (with_key l (fun key rest =>
                       match rest with [value] => CSet key value | _ => CUnknown end)).
Proof.
  intros Hp. destruct l as [|[[|b k]|] [|x [|y l]]]; run_chain Hp.
  cbn [Handle SetRequestHandler.handler]. unfold SetRequestHandler.Handle. by rewrite Hp.
Qed.

Lemma dispatch_DEL d now r l : ParseCommand r = Some (mkCommand (lit "DEL") l) ->
  Dispatch d now r = perform d now (only_key l CDel).
Proof.
  intros Hp. destruct l as [|[[|b k]|] [|x l]]; run_chain Hp.
  cbn [Handle DelRequestHandler.handler]. unfold DelRequestHandler.Handle. by rewrite Hp.
Qed.

Lemma dispatch_PERSIST d now r l : ParseCommand r = Some (mkCommand (lit "PERSIST") l) ->
  Dispatch d now r = perform d now (only_key l CPersist).
Proof.
  intros Hp. destruct l as [|[[|b k]|] [|x l]]; run_chain Hp.
  cbn [Handle PersistRequestHandler.handler]. unfold PersistRequestHandler.Handle. by rewrite Hp.
Qed.

Lemma dispatch_TTL d now r l : ParseCommand r = Some (mkCommand (lit "TTL") l) ->
  Dispatch d now r = perform d now (only_key l (CTtl 1000)).
Proof.
  intros Hp. destruct l as [|[[|b k]|] [|x l]]; run_chain Hp.
  cbn [Handle TtlRequestHandler.handler]. unfold TtlRequestHandler.Handle. by rewrite Hp.
Qed.

Lemma dispatch_PTTL d now r l : ParseCommand r = Some (mkCommand (lit "PTTL") l) ->
  Dispatch d now r = perform d now (only_key l (CTtl 1)).
Proof.
  intros Hp. destruct l as [|[[|b k]|] [|x l]]; run_chain Hp.
  cbn [Handle TtlRequestHandler.handler]. unfold TtlRequestHandler.Handle. by rewrite Hp.
Qed.

Lemma dispatch_ECHO d now r l : ParseCommand r = Some (mkCommand (lit "ECHO") l) ->
  Dispatch d now r = perform d now match l with [v] => CEcho v | _ => CUnknown end.
Proof.
  intros Hp. destruct l as [|v [|x l]]; run_chain Hp.
  cbn [Handle EchoRequestHandler.handler]. unfold EchoRequestHandler.Handle. by rewrite Hp.
Qed.

Lemma dispatch_PING d now r l : ParseCommand r = Some (mkCommand (lit "PING") l) ->
  Dispatch d now r = perform d now
    match l with [] => CPing None | [v] => CPing (Some v) | _ => CUnknown end.
Proof.
  intros Hp. destruct l as [|v [|x l]]; run_chain Hp;
  cbn [Handle PingRequestHandler.handler]; unfold PingRequestHandler.Handle; by rewrite Hp.
Qed.

Lemma dispatch_HELLO d now r l : ParseCommand r = Some (mkCommand (lit "HELLO") l) ->
  Dispatch d now r = perform d now
    match l with [] => CHello None | [v] => CHello (Some v) | _ => CUnknown end.
Proof.
  intros Hp. destruct l as [|v [|x l]]; run_chain Hp;
  cbn [Handle HelloRequestHandler.handler]; unfold HelloRequestHandler.Handle; rewrite Hp; [done|].
  cbn [mbind res_bind deref argc args length Nat.eqb and_then at_index lookup list_lookup perform constant_reply].
  by destruct (bool_decide (v = Some (lit "2"))).
Qed.

(** *** The EXPIRE family *)

Ltac handler_cbn :=
  cbn [and_then or_else argc args length Nat.eqb orb key_given at_index lookup list_lookup mbind
       res_bind negb arg_text deref].

(** What an EXPIRE-like handler does with a request of its name. *)
Lemma expire_claims hn f rel d now r l (c := expire_cmd f rel l) :
  ParseCommand r = Some (mkCommand hn l) ->
  match c with
  | CNullOption => ExpireRequestHandler.IsHandler hn r = Undef "dereference of std::nullopt"
  | CUnknown => ExpireRequestHandler.IsHandler hn r = Ok false
  | _ => ExpireRequestHandler.IsHandler hn r = Ok true
         /\ ExpireRequestHandler.Handle f rel d now r = perform d now c
  end.
Proof.
  intros Hp. unfold ExpireRequestHandler.IsHandler, ExpireRequestHandler.Handle, named. rewrite Hp.
  cbn [name]. rewrite bool_decide_true by done.
  destruct l as [|[[|b k]|] [|n [|o [|x l]]]]; try reflexivity; subst c;
    cbn [expire_cmd with_key]; unfold int_arg.
  - handler_cbn. destruct (ExpireRequestHandler.ParseInteger n) as [z|]; [|done]. split; done.
  - handler_cbn. destruct (ExpireRequestHandler.ParseInteger n) as [z|]; [|done].
    destruct o as [o|]; [|done]. handler_cbn. destruct (ToExpireOption o); [|done]. split; done.
Qed.

(** A chain that reaches an EXPIRE-like handler of the request's name. *)
Lemma dispatch_expire hn f rel hs d now r l :
  ParseCommand r = Some (mkCommand hn l) ->
  dispatch_chain hs d now r = Ok (d, unknown_reply) ->
  dispatch_chain (ExpireRequestHandler.handler hn f rel :: hs) d now r
  = perform d now (expire_cmd f rel l).
Proof.
  intros Hp Hrest. pose proof (expire_claims hn f rel d now r l Hp) as Hc. cbv zeta in Hc.
  cbn [dispatch_chain IsHandler Handle ExpireRequestHandler.handler].
  destruct (expire_cmd f rel l);
    first [rewrite Hc; first [exact Hrest | done] | destruct Hc as [-> <-]; done].
Qed.

Ltac run_expire Hp :=
  unfold Dispatch, handlers_; repeat skip_handler Hp;
  apply (dispatch_expire _ _ _ _ _ _ _ _ Hp); repeat skip_handler Hp; reflexivity.

Lemma dispatch_EXPIRE d now r l : ParseCommand r = Some (mkCommand (lit "EXPIRE") l) ->
  Dispatch d now r = perform d now (expire_cmd 1000 true l).
Proof. intros Hp. run_expire Hp. Qed.

Lemma dispatch_PEXPIRE d now r l : ParseCommand r = Some (mkCommand (lit "PEXPIRE") l) ->
  Dispatch d now r = perform d now (expire_cmd 1 true l).
Proof. intros Hp. run_expire Hp. Qed.

Lemma dispatch_EXPIREAT d now r l : ParseCommand r = Some (mkCommand (lit "EXPIREAT") l) ->
  Dispatch d now r = perform d now (expire_cmd 1000 false l).
Proof. intros Hp. run_expire Hp. Qed.

Lemma dispatch_PEXPIREAT d now r l : ParseCommand r = Some (mkCommand (lit "PEXPIREAT") l) ->
  Dispatch d now r = perform d now (expire_cmd 1 false l).
Proof. intros Hp. run_expire Hp. Qed.

(** A request that is no command at all. *)
Lemma dispatch_malformed d now r : ParseCommand r = None -> Dispatch d now r = Ok (d, unknown_reply).
Proof.
  intros Hp.
  assert (forall n k, named r n k = Ok false) as Hn by (intros; unfold named; by rewrite Hp).
  unfold Dispatch, handlers_, dispatch_chain, IsHandler; cbn [mbind].
  unfold GetRequestHandler.handler, SetRequestHandler.handler, DelRequestHandler.handler,
    ExpireRequestHandler.handler, TtlRequestHandler.handler, PersistRequestHandler.handler,
    EchoRequestHandler.handler, PingRequestHandler.handler, HelloRequestHandler.handler,
    GetRequestHandler.IsHandler, SetRequestHandler.IsHandler, DelRequestHandler.IsHandler,
    ExpireRequestHandler.IsHandler, TtlRequestHandler.IsHandler, PersistRequestHandler.IsHandler,
    EchoRequestHandler.IsHandler, PingRequestHandler.IsHandler, HelloRequestHandler.IsHandler.
  by rewrite !Hn.
Qed.

(** The chain of handlers performs the recognised command, for every request. *)
Lemma Dispatch_perform d now r : Dispatch d now r = perform d now (recognise r).
Proof.
  unfold recognise. destruct (ParseCommand r) as [[n l]|] eqn:Hp; [|by apply dispatch_malformed].
  cbn [name args look_up table].
  repeat match goal with
  | |- context [decide (n = lit ?w)] => destruct (decide (n = lit w)) as [->|?]
  end.
  1: by apply dispatch_GET. 1: by apply dispatch_SET. 1: by apply dispatch_DEL.
  1: by apply dispatch_EXPIRE. 1: by apply dispatch_PEXPIRE. 1: by apply dispatch_EXPIREAT.
  1: by apply dispatch_PEXPIREAT. 1: by apply dispatch_TTL. 1: by apply dispatch_PTTL.
  1: by apply dispatch_PERSIST. 1: by apply dispatch_ECHO. 1: by apply dispatch_PING.
  1: by apply dispatch_HELLO.
  unfold Dispatch, handlers_. repeat skip_handler Hp. reflexivity.
Qed.

End Recognised.

(** ** Refinement of the abstract store *)

(** Commands whose deadline is of sane size and is not the sentinel. *)
Definition cmd_safe (now : Z) (c : cmd) : Prop :=
  match c with
  | CExpire factor relative _ n _ =>
      let t := deadline now relative n factor in sane_time t /\ t <> NO_EXPIRY
  | CNullOption => False
  | _ => True
  end.

(** Requests executed one after the other, each at its own time. *)
Fixpoint serve {M} {ops : MapOps bytes Entry M} (d : M) (l : list (Z * RespValue))
    : res (M * list RespValue) :=
  match l with
  | [] => Ok (d, [])
  | (now, request) :: l =>
      '(d, reply) ← Dispatch d now request;
      '(d, replies) ← serve d l;
      Ok (d, reply :: replies)
  end.

Fixpoint exec_all (a : Abstract.store) (l : list (Z * RespValue)) : Abstract.store * list RespValue :=
  match l with
  | [] => (a, [])
  | (now, request) :: l =>
      let '(a, reply) := exec a now (recognise request) in
      let '(a, replies) := exec_all a l in
      (a, reply :: replies)
  end.

Lemma exec_all_app l l' : forall a,
  exec_all a (l ++ l')
  = (fst (exec_all (fst (exec_all a l)) l'), snd (exec_all a l) ++ snd (exec_all (fst (exec_all a l)) l')).
Proof.
  induction l as [|[now r] l IH]; intros a; cbn [app exec_all]; [cbn; by destruct (exec_all a l')|].
  destruct (exec a now (recognise r)) as [a1 reply]. rewrite IH. by destruct (exec_all a1 l).
Qed.

(** A request made at a clock value after 1970, safe to execute. *)
Definition request_safe (p : Z * RespValue) : Prop :=
  0 <= fst p < 2 ^ 62 /\ cmd_safe (fst p) (recognise (snd p)).

Section Refines.
Context {M : Type} {ops : MapOps bytes Entry M} {spec : MapSpec bytes Entry M}.

Lemma sane_exec a now c : 0 <= now < 2 ^ 62 -> sane_store a -> cmd_safe now c ->
  sane_store (fst (exec a now c)).
Proof.
  intros Hn Ha Hc. destruct c; cbn; try done.
  - by apply (sane_step a (OSet key value)).
  - by apply (sane_step a (ODel key)).
  - destruct Hc. pose proof (sane_step a (OExpireAt key (deadline now relative n factor) opt) Ha) as H1.
    cbn in H1. destruct (Abstract.expire_at _ _ _ _). by apply H1.
  - pose proof (sane_step a (OPersist now key) Ha Hn) as H1. cbn in H1.
    by destruct (Abstract.persist _ _ _).
Qed.

Lemma perform_refines (d : M) a now c :
  represents d a -> sane_store a -> 0 <= now < 2 ^ 62 -> cmd_safe now c ->
  exists d', perform d now c = Ok (d', snd (exec a now c)) /\ represents d' (fst (exec a now c)).
Proof.
  intros Hr Ha Hn Hc. destruct c; cbn [perform exec fst snd]; eauto with myredis.
  - exists d. by rewrite (Get_refines d a).
  - destruct Hc as [Ht Hne]. unfold deadline in *. unfold mul64, add64.
    assert (in_int64 (n * factor) = true) as Hm.
    { apply in_int64_spec. unfold sane_time, int64_min, int64_max in *. destruct relative; lia. }
    rewrite (checked64_ok _ Hm). cbn [mbind res_bind].
    rewrite checked64_ok by (apply in_int64_spec; unfold sane_time, int64_min, int64_max in *; lia).
    cbn [mbind res_bind]. destruct (ExpireAt_refines d a key _ opt Hr Hne) as [H1 H2].
    destruct (Store.ExpireAt _ _ _ _) as [d' b], (Abstract.expire_at _ _ _ _) as [a' b'].
    cbn in *. subst. eauto.
  - rewrite (Ttl_refines d a) by (done || (intros; by eapply sane_remaining)). eauto.
  - destruct (Persist_refines d a now key Hr) as [H1 H2].
    destruct (Store.Persist d now key) as [d' b], (Abstract.persist a now key) as [a' b'].
    cbn in *. subst. eauto.
  - done.
Qed.

Lemma serve_refines l : forall (d : M) a,
  represents d a -> sane_store a -> Forall request_safe l ->
  exists d', serve d l = Ok (d', snd (exec_all a l)) /\ represents d' (fst (exec_all a l))
             /\ sane_store (fst (exec_all a l)).
Proof.
  induction l as [|[now r] l IH]; intros d a Hr Ha Hl; cbn [serve exec_all]; [eauto|].
  apply Forall_cons in Hl as [[Hn Hc] Hl]. cbn [fst snd] in Hn, Hc. rewrite Dispatch_perform.
  destruct (perform_refines d a now _ Hr Ha Hn Hc) as (d1 & -> & Hr1).
  pose proof (sane_exec a now _ Hn Ha Hc) as Ha1. cbn [mbind res_bind].
  destruct (exec a now _) as [a1 reply]. cbn [fst snd] in *.
  destruct (IH d1 a1 Hr1 Ha1 Hl) as (d2 & -> & Hr2 & Ha2). cbn [mbind res_bind].
  destruct (exec_all a1 l). cbn [fst snd] in *. eauto.
Qed.

End Refines.

(** ** Theorems *)

Section Theorems.
Context {M : Type} {ops : MapOps bytes Entry M} {spec : MapSpec bytes Entry M}.

(** The chain of handlers implements the command table: for every request
    whatsoever, [Dispatch] does exactly what the recognised command does
    (unknown keywords, wrong numbers or types of arguments, empty keys and bad
    integers all give the error reply and leave the store alone), so the order
    of the handlers does not matter except that the fallback is last. *)
Theorem Dispatch_recognises (d : M) (now : Z) (request : RespValue) :
  Dispatch d now request = perform d now (recognise request).
Proof. apply Dispatch_perform. Qed.

(** C6. The dispatcher implements the abstract store: any sequence of safe
    requests to a new server, over any correct map, runs without undefined
    behaviour and gives the replies of the abstract store. *)
Theorem dispatch_refines (l : list (Z * RespValue)) :
  Forall request_safe l ->
  exists d : M, serve Store.init l = Ok (d, snd (exec_all ∅ l)) /\ represents d (fst (exec_all ∅ l)).
Proof.
  intros Hl. destruct (serve_refines l Store.init ∅) as (d & H1 & H2 & _);
    [apply represents_init|intros k v t Hk; by rewrite lookup_empty in Hk|done|eauto].
Qed.

Lemma int_arg_to_string n : in_int64 n = true -> int_arg (Some (to_string n)) = Some n.
Proof.
  intros Hn. unfold int_arg, ExpireRequestHandler.ParseInteger.
  pose proof (from_chars_to_string n [] Hn) as Hf. rewrite app_nil_r in Hf.
  rewrite bool_decide_false.
  - by rewrite Hf, Nat.eqb_refl by done.
  - intros He. by rewrite He in Hf; specialize (Hf I).
Qed.

Lemma ParseArgs_bulk l : ParseArgs (RespBulkString <$> l) = Some l.
Proof. induction l as [|a l IH]; cbn; [done|]. by rewrite IH. Qed.

(** A command line is recognised by the table. *)
Lemma recognise_words w l f : w <> [] -> look_up table w = Some f ->
  recognise (command_line (Some w :: l)) = f l.
Proof.
  intros Hw Hf. unfold recognise, command_line. cbn [fmap list_fmap ParseCommand].
  rewrite bool_decide_false by done. rewrite ParseArgs_bulk. cbn [mbind option_bind name args].
  by rewrite Hf.
Qed.

(** The arithmetic of a recognised command overflows. *)
Definition overflows (d : M) (now : Z) (c : cmd) : Prop :=
  match c with
  | CExpire factor relative _ n _ =>
      in_int64 (n * factor) = false \/ in_int64 (deadline now relative n factor) = false
  | CTtl _ k =>
      exists e, LookUp d k = Some e /\ expiry_ e <> NO_EXPIRY /\ in_int64 (expiry_ e - now) = false
  | _ => False
  end.

Lemma checked64_undef z : (exists w, checked64 z = Undef w) <-> in_int64 z = false.
Proof. unfold checked64. destruct (in_int64 z); split; [intros [w [=]]|done|done|eauto]. Qed.

(** C28. Exactly which requests are undefined behaviour: those with a null
    EXPIRE option after a valid integer, and those whose time arithmetic
    overflows 64 bits.  No request makes the dispatcher throw. *)
Theorem dispatch_undefined_iff (d : M) (now : Z) (request : RespValue) :
  ((exists w, Dispatch d now request = Undef w)
   <-> recognise request = CNullOption \/ overflows d now (recognise request))
  /\ (forall e, Dispatch d now request <> Throw e) /\ Dispatch d now request <> NoFuel.
Proof.
  rewrite Dispatch_perform. destruct (recognise request) as [| | |f rel k n o|f k|k| | | | |]; cbn [perform overflows].
  all: try by (split; [split; [intros [w [=]]|intros [[=]|[]]]|done]).
  - unfold mul64, add64, deadline. pose proof (checked64_undef (n * f)) as Hm.
    unfold checked64 in *. destruct (in_int64 (n * f)); cbn [mbind res_bind].
    + destruct (in_int64 _); cbn [mbind res_bind].
      * destruct (Store.ExpireAt _ _ _ _). split; [split; [intros [w [=]]|intros [[=]|[[=]|[=]]]]|done].
      * split; [split; eauto|done].
    + split; [split; eauto|done].
  - unfold Store.Ttl. destruct (LookUp d k) as [e|] eqn:He; cbn [mbind res_bind].
    2: { split; [split; [intros [w [=]]|intros [[=]|(e & [=] & _)]]|done]. }
    destruct (expiry_ e =? NO_EXPIRY) eqn:Hx; reflect_bools; cbn [mbind res_bind].
    { split; [split; [intros [w [=]]|intros [[=]|(e' & [= <-] & ? & _)]; done]|done]. }
    unfold sub64, checked64. destruct (in_int64 _) eqn:Hi; cbn [mbind res_bind].
    + destruct (_ <=? 0); cbn; (split; [split; [intros [w [=]]|intros [[=]|(e' & [= <-] & _ & ?)]; congruence]|done]).
    + split; [split; [intros _; right; eauto|eauto]|done].
  - destruct (Store.Persist _ _ _). split; [split; [intros [w [=]]|intros [[=]|[]]]|done].
  - split; [split; eauto|done].
Qed.

(** A request can reach the null dereference in [IsHandler]: for every
    non-empty key and every 64-bit integer, EXPIRE (and its three variants)
    with a null bulk string as option is undefined behaviour, whatever the
    store holds. *)
Theorem null_option_undefined (d : M) (now n : Z) (key word : bytes) :
  key <> [] -> in_int64 n = true ->
  word ∈ [lit "EXPIRE"; lit "PEXPIRE"; lit "EXPIREAT"; lit "PEXPIREAT"] ->
  exists w, Dispatch d now (command_line [Some word; Some key; Some (to_string n); None]) = Undef w.
Proof.
  intros Hk Hn Hw. destruct key as [|c key]; [done|]. rewrite Dispatch_perform.
  assert (recognise (command_line [Some word; Some (c :: key); Some (to_string n); None]) = CNullOption)
    as ->; [|by eexists].
  assert (int_arg (Some (to_string n)) = Some n) as Hi by by apply int_arg_to_string.
  set (t := to_string n) in *. clearbody t.
  repeat (apply elem_of_cons in Hw as [->|Hw];
    [erewrite recognise_words by (done || reflexivity); cbn [expire_cmd with_key]; by rewrite Hi|]).
  by apply not_elem_of_nil in Hw.
Qed.

(** The life of a key: after SET k v at any time and EXPIRE k n at [now],
    the value is served up to and including the deadline and not after it, and
    TTL gives the whole seconds that remain, then -2. *)
Theorem set_expire_lifecycle (a : Abstract.store) (d : M) (k v : bytes) (t0 now n later : Z) :
  represents d a -> sane_store a -> k <> [] -> in_int64 n = true ->
  0 <= t0 < 2 ^ 62 -> 0 <= now < 2 ^ 62 -> 0 <= later < 2 ^ 62 ->
  0 < n -> now + n * 1000 < 2 ^ 62 ->
  exists d', serve d
    [(t0, command_line [Some (lit "SET"); Some k; Some v]);
     (now, command_line [Some (lit "EXPIRE"); Some k; Some (to_string n)]);
     (later, command_line [Some (lit "GET"); Some k]);
     (later, command_line [Some (lit "TTL"); Some k])]
  = Ok (d', [SimpleString (lit "OK"); Integer 1;
             BulkString (if now + n * 1000 <? later then None else Some v);
             Integer (if now + n * 1000 <=? later then -2
                      else Z.quot (now + n * 1000 - later) 1000)]).
Proof.
  intros Hr Ha Hk Hi Ht0 Hnow Hlater Hpos Hsum. destruct k as [|c k]; [done|].
  pose proof (int_arg_to_string n Hi) as Hint. set (txt := to_string n) in *. clearbody txt.
  assert (recognise (command_line [Some (lit "SET"); Some (c :: k); Some v]) = CSet (c :: k) (Some v)) as E1 by done.
  assert (recognise (command_line [Some (lit "EXPIRE"); Some (c :: k); Some txt])
          = CExpire 1000 true (c :: k) n NA) as E2.
  { erewrite recognise_words by (done || reflexivity). cbn [expire_cmd with_key]. by rewrite Hint. }
  assert (recognise (command_line [Some (lit "GET"); Some (c :: k)]) = CGet (c :: k)) as E3 by done.
  assert (recognise (command_line [Some (lit "TTL"); Some (c :: k)]) = CTtl 1000 (c :: k)) as E4 by done.
  match goal with |- context [serve d ?l] => destruct (serve_refines l d a Hr Ha) as (d' & Hs & _) end.
  { repeat apply Forall_cons_2; try apply Forall_nil_2; (split; [done|]); cbn [fst snd];
      rewrite ?E1, ?E2, ?E3, ?E4; cbn; try done. unfold sane_time, NO_EXPIRY, deadline. lia. }
  exists d'. rewrite Hs. do 2 f_equal. cbn [exec_all]. rewrite E1, E2, E3, E4.
  cbn [exec]. unfold Abstract.set_, Abstract.expire_at, deadline.
  rewrite lookup_insert_eq. cbn [Abstract.allows exec_all fst snd].
  unfold Abstract.get, Abstract.ttl. rewrite lookup_insert_eq.
  cbn [mbind option_bind Abstract.expired]. repeat f_equal. unfold scale.
  destruct (_ <=? later) eqn:?; [done|]. reflect_bools.
  by rewrite (proj2 (Z.ltb_ge _ 0)) by lia.
Qed.

End Theorems.

(** *** Witnesses, on [StandardMap] *)

#[local] Existing Instance std_ops.
#[local] Existing Instance std_spec.

Definition words (l : list string) : RespValue := command_line (Some ∘ lit <$> l).

Definition sample_requests : list (Z * RespValue) :=
  [(1000, words ["SET"; "k"; "v"]); (2000, words ["PEXPIRE"; "k"; "500"; "NX"]);
   (2400, words ["PTTL"; "k"]); (2500, words ["GET"; "k"]); (2501, words ["GET"; "k"]);
   (3000, words ["PERSIST"; "k"]); (3000, words ["DEL"; "k"]); (3000, words ["PING"]);
   (3000, words ["get"; "k"]); (3000, RespInteger 7)].

Lemma dispatch_refines_witness :
  exists d, serve Store.init sample_requests
    = Ok (d, [SimpleString (lit "OK"); Integer 1; Integer 100; BulkString (Some (lit "v"));
              NullBulkString; Integer 0; Integer 1; SimpleString (lit "PONG");
              unknown_reply; unknown_reply])
    /\ represents d ∅.
Proof.
  destruct (dispatch_refines (M := gmap bytes Entry) sample_requests) as (d & H1 & H2).
  - unfold sample_requests. repeat apply Forall_cons_2; try apply Forall_nil_2; (split; [cbn; lia|]); vm_compute; try exact I;
      repeat split; intros H; discriminate H.
  - exists d. split; [exact H1|exact H2].
Defined.

Lemma null_option_undefined_witness :
  exists w, Dispatch (∅ : gmap bytes Entry) 0
    (command_line [Some (lit "EXPIRE"); Some (lit "k"); Some (to_string 10); None]) = Undef w.
Proof.
  apply (null_option_undefined (∅ : gmap bytes Entry) 0 10 (lit "k") (lit "EXPIRE"));
    [discriminate|reflexivity|constructor].
Defined.

Lemma set_expire_lifecycle_witness :
  exists d', serve (∅ : gmap bytes Entry)
    [(5, command_line [Some (lit "SET"); Some (lit "k"); Some (lit "v")]);
     (1000, command_line [Some (lit "EXPIRE"); Some (lit "k"); Some (to_string 10)]);
     (3500, command_line [Some (lit "GET"); Some (lit "k")]);
     (3500, command_line [Some (lit "TTL"); Some (lit "k")])]
  = Ok (d', [SimpleString (lit "OK"); Integer 1; BulkString (Some (lit "v")); Integer 7]).
Proof.
  apply (set_expire_lifecycle ∅ (∅ : gmap bytes Entry) (lit "k") (lit "v") 5 1000 10 3500);
    try (cbn; lia); try discriminate; try reflexivity.
split; [exact I|reflexivity].
Defined.
