(* ===== verification/CommandTypes.v ===== *)
(** * Types and effects of the commands

    A signature for every keyword of the command language of
    [v2/src/server/handler/]: which RESP types its reply can have, with the
    range of an integer, and whether it may write to the key it names.  The
    theorem checks the whole dispatcher against the signatures, for every
    request, clock and map. *)

From S2P Require Import Prelude CxxString RespValue MapInterface Store Handlers CommandSpec.
Import RequestDispatcher.

(** ** Types *)

Inductive reply_type :=
| StatusReply (text : bytes)   (* the simple string [text] *)
| BulkReply                    (* a bulk string, null or not *)
| IntReply (lo hi : Z)         (* an integer between the bounds *)
| ListReply.                   (* an array *)

Inductive effect := ReadsOnly | WritesKey.

#[export] Instance effect_eq_dec : EqDecision effect.
Proof. solve_decision. Defined.

Definition has_type (v : RespValue) (t : reply_type) : bool :=
  match v, t with
  | RespSimpleString s, StatusReply text => bool_decide (s = text)
  | RespBulkString _, BulkReply => true
  | RespInteger n, IntReply lo hi => (lo <=? n) && (n <=? hi)
  | RespArray _, ListReply => true
  | _, _ => false
  end.

Definition is_error (v : RespValue) : bool := match v with RespSimpleError _ => true | _ => false end.

Definition sig : Type := list reply_type * effect.

(** ** Signatures *)

Definition signatures : list (bytes * sig) :=
  [(lit "GET", ([BulkReply], ReadsOnly));
   (lit "SET", ([StatusReply (lit "OK")], WritesKey));
   (lit "DEL", ([IntReply 1 1], WritesKey));
   (lit "EXPIRE", ([IntReply 0 1], WritesKey));
   (lit "PEXPIRE", ([IntReply 0 1], WritesKey));
   (lit "EXPIREAT", ([IntReply 0 1], WritesKey));
   (lit "PEXPIREAT", ([IntReply 0 1], WritesKey));
   (lit "TTL", ([IntReply (-2) int64_max], ReadsOnly));
   (lit "PTTL", ([IntReply (-2) int64_max], ReadsOnly));
   (lit "PERSIST", ([IntReply 0 1], WritesKey));
   (lit "ECHO", ([BulkReply], ReadsOnly));
   (lit "PING", ([StatusReply (lit "PONG"); BulkReply], ReadsOnly));
   (lit "HELLO", ([ListReply], ReadsOnly))].

(** Anything else is answered with an error. *)
Definition signature (request : RespValue) : sig :=
  match ParseCommand request with
  | Some c => default ([], ReadsOnly) (look_up signatures (name c))
  | None => ([], ReadsOnly)
  end.

(** The key a request names: its first argument. *)
Definition named_key (request : RespValue) : option bytes :=
  match ParseCommand request with
  | Some c => match args c with Some key :: _ => Some key | _ => None end
  | None => None
  end.

(** ** Commands *)

Definition cmd_signature (c : cmd) : sig :=
  match c with
  | CGet _ | CEcho _ => ([BulkReply], ReadsOnly)
  | CSet _ _ => ([StatusReply (lit "OK")], WritesKey)
  | CDel _ => ([IntReply 1 1], WritesKey)
  | CExpire _ _ _ _ _ | CPersist _ => ([IntReply 0 1], WritesKey)
  | CTtl _ _ => ([IntReply (-2) int64_max], ReadsOnly)
  | CPing _ => ([StatusReply (lit "PONG"); BulkReply], ReadsOnly)
  | CHello _ => ([ListReply], ReadsOnly)
  | CUnknown | CNullOption => ([], ReadsOnly)
  end.

Definition cmd_key (c : cmd) : option bytes :=
  match c with
  | CGet k | CSet k _ | CDel k | CExpire _ _ k _ _ | CTtl _ k | CPersist k => Some k
  | _ => None
  end.

(** The factor of a TTL is positive. *)
Definition cmd_ok (c : cmd) : Prop := match c with CTtl factor _ => 0 < factor | _ => True end.

(** What a request is recognised as agrees with its keyword and its key. *)
Definition agrees (request : RespValue) (c : cmd) : Prop :=
  c = CUnknown \/ c = CNullOption
  \/ (cmd_signature c = signature request /\ cmd_ok c
      /\ match cmd_key c with Some key => named_key request = Some key | None => True end).

Lemma recognise_agrees request : agrees request (recognise request).
Proof.
  unfold agrees, recognise, signature, named_key. destruct (ParseCommand request) as [[n l]|]; [|by left].
  cbn [name args table look_up signatures].
  repeat (case_decide; [subst n; cbn [default]|]); [..|by left].
  all: unfold only_key, with_key, expire_cmd, with_key;
    repeat (case_match; subst; simplify_eq; try (by left); try (by right; left)); try (by right; right; split_and!).
Qed.

(** ** The store is left alone, but for the key *)

Section Frame.
Context {M : Type} {ops : MapOps bytes Entry M} {spec : MapSpec bytes Entry M}.
Implicit Types (d : M) (now : Z).

Lemma Insert_frame d k v k' : map_inv d -> k <> k' -> LookUp (Insert d k v) k' = LookUp d k'.
Proof. intros Hd Hk. rewrite !LookUp_abs, Insert_abs, lookup_insert_ne by auto using Insert_inv. done. Qed.

Lemma Remove_frame d k k' : map_inv d -> k <> k' -> LookUp (Remove d k) k' = LookUp d k'.
Proof. intros Hd Hk. rewrite !LookUp_abs, Remove_abs, lookup_delete_ne by auto using Remove_inv. done. Qed.

Lemma AssignRef_frame d k v k' : map_inv d -> is_Some (LookUp d k) -> k <> k' ->
  LookUp (AssignRef d k v) k' = LookUp d k'.
Proof.
  intros Hd Hs Hk. rewrite !LookUp_abs, AssignRef_abs, lookup_insert_ne by auto using AssignRef_inv. done.
Qed.

Lemma ExpireAt_frame d k t o k' : map_inv d -> k <> k' -> LookUp (fst (Store.ExpireAt d k t o)) k' = LookUp d k'.
Proof.
  intros Hd Hk. unfold Store.ExpireAt. destruct (LookUp d k) as [e|] eqn:E; [|done].
  match goal with |- context [if ?b then _ else _] => destruct b end; [done|]. apply AssignRef_frame; eauto.
Qed.

Lemma Persist_frame d now k k' : map_inv d -> k <> k' -> LookUp (fst (Store.Persist d now k)) k' = LookUp d k'.
Proof.
  intros Hd Hk. unfold Store.Persist. destruct (LookUp d k) as [e|] eqn:E; [|done].
  case_match; [done|]. case_match; [done|]. apply AssignRef_frame; eauto.
Qed.

(** A remaining time fits its type. *)
Lemma Ttl_range d now k n : Store.Ttl d now k = Ok n -> -2 <= n <= int64_max.
Proof.
  unfold Store.Ttl. destruct (LookUp d k) as [e|]; [|by intros [= <-]].
  case_match; [by intros [= <-]|]. unfold sub64, checked64. destruct (in_int64 _) eqn:E; [|done]. cbn [mbind res_bind].
  apply in_int64_spec in E. case_match; reflect_bools; intros [= <-]; [done|]. unfold int64_max in *. lia.
Qed.

Lemma scale_range factor n : 0 < factor -> -2 <= n <= int64_max -> -2 <= scale factor n <= int64_max.
Proof.
  intros Hf Hn. unfold scale. destruct (n <? 0) eqn:E; reflect_bools; [done|].
  rewrite Z.quot_div_nonneg by lia. pose proof (Z.div_pos n factor ltac:(lia) Hf).
  pose proof (Z.div_le_upper_bound n factor int64_max Hf). nia.
Qed.

(** ** Performing a command *)

Record well_typed (c : cmd) (d d' : M) (reply : RespValue) : Prop := {
  wt_reply : is_error reply = true \/ existsb (has_type reply) (fst (cmd_signature c)) = true;
  wt_error : is_error reply = true -> d' = d;
  wt_wire : serializable reply;
  wt_effect : snd (cmd_signature c) = ReadsOnly -> d' = d;
  wt_frame : forall k, cmd_key c <> Some k -> LookUp d' k = LookUp d k
}.

Lemma constant_reply_typed c d : cmd_key c = None -> c <> CNullOption -> well_typed c d d (constant_reply c).
Proof.
  intros Hk Hn. destruct c as [| | | | | |v|[v|]|[v|]| |]; try done; split; try done; try (by right); try (by left); cbn [constant_reply].
  - case_bool_decide; [by right|by left].
  - case_bool_decide; by vm_compute.
Qed.

Lemma Integer_typed n lo hi : lo <= n <= hi -> has_type (Integer n) (IntReply lo hi) = true.
Proof. intros Hn. cbn. apply andb_true_intro. split; apply Z.leb_le; lia. Qed.

Lemma Bool_typed (b : bool) : has_type (Integer (if b then 1 else 0)) (IntReply 0 1) = true.
Proof. by destruct b. Qed.

Lemma perform_typed d now c d' reply : map_inv d -> cmd_ok c -> perform d now c = Ok (d', reply) ->
  well_typed c d d' reply.
Proof.
  intros Hd Hc Hp. destruct c as [k|k v|k|f rel k n o|f k|k|v|v|v| |]; cbn [perform] in Hp;
    try (injection Hp as <- <-; by apply constant_reply_typed).
  - injection Hp as <- <-. split; try done. by right.
  - injection Hp as <- <-. split; try done; [by right|]. intros k' Hk. apply Insert_frame; [done|]. by intros ->.
  - injection Hp as <- <-. split; try done; [by right|]. intros k' Hk. apply Remove_frame; [done|]. by intros ->.
  - destruct (mul64 n f); try done. cbn [mbind res_bind] in Hp. destruct (add64 _ _) as [t| | |]; try done. cbn [mbind res_bind] in Hp.
    pose proof (ExpireAt_frame d k t o) as Hf. destruct (Store.ExpireAt d k t o) as [d1 b]. injection Hp as <- <-.
    split; try done; [right; cbn [cmd_signature fst existsb]; by rewrite Bool_typed|by destruct b|].
    intros k' Hk. apply Hf; [done|]. by intros ->.
  - destruct (Store.Ttl d now k) as [n| | |] eqn:E; try done. injection Hp as <- <-.
    pose proof (scale_range f n Hc (Ttl_range d now k n E)) as Hr. split; try done.
    + right. cbn [cmd_signature fst existsb]. by rewrite Integer_typed.
    + cbn [serializable]. apply in_int64_spec. unfold int64_min, int64_max in *. lia.
  - pose proof (Persist_frame d now k) as Hf. destruct (Store.Persist d now k) as [d1 b]. injection Hp as <- <-.
    split; try done; [right; cbn [cmd_signature fst existsb]; by rewrite Bool_typed|by destruct b|].
    intros k' Hk. apply Hf; [done|]. by intros ->.
  - done.
Qed.

(** ** Theorem *)

(** C7. Every reply has the type of its command.  Whatever the request, if the
    dispatcher returns at all: the reply is an error, which leaves the store as
    it was, or a value of one of the types the keyword has (a bulk string for
    GET, the status OK for SET, 0 or 1 for EXPIRE and PERSIST, an integer from
    -2 on for TTL, and so on); it can be written as one RESP value; commands
    that only read leave the store as it was; and the others change no key but
    the one they name. *)
Theorem replies_well_typed d now request d' reply :
  map_inv d -> Dispatch d now request = Ok (d', reply) ->
  (is_error reply = true /\ d' = d \/ existsb (has_type reply) (fst (signature request)) = true)
  /\ serializable reply
  /\ (snd (signature request) = ReadsOnly -> d' = d)
  /\ forall k, named_key request <> Some k -> LookUp d' k = LookUp d k.
Proof.
  intros Hd Hp. rewrite Dispatch_perform in Hp.
  destruct (recognise_agrees request) as [E|[E|(Hs & Hok & Hk)]]; [rewrite E in Hp..|]; [|done|].
  - injection Hp as <- <-. split_and!; try done. by left.
  - pose proof (perform_typed d now _ d' reply Hd Hok Hp) as [H1 H2 H3 H4 H5]. rewrite Hs in H1, H4.
    split_and!; [|done|done|].
    + destruct H1 as [H1|H1]; [left|by right]. auto.
    + intros k Hn. apply H5. destruct (cmd_key (recognise request)); [|done]. congruence.
Qed.

End Frame.

#[local] Existing Instance std_ops.
#[local] Existing Instance std_spec.

(** A new deadline for one of two keys. *)
#[local] Abbreviation two_keys :=
  ({[lit "j" := mkEntry 7 None; lit "k" := mkEntry NO_EXPIRY (Some (lit "v"))]} : gmap bytes Entry).

Lemma replies_well_typed_witness :
  exists d', Dispatch two_keys 1000 (words ["EXPIRE"; "k"; "5"]) = Ok (d', Integer 1)
  /\ serializable (Integer 1) /\ LookUp d' (lit "k") = Some (mkEntry 6000 (Some (lit "v")))
  /\ LookUp d' (lit "j") = LookUp two_keys (lit "j").
Proof.
  assert (exists d', Dispatch two_keys 1000 (words ["EXPIRE"; "k"; "5"]) = Ok (d', Integer 1)
    /\ LookUp d' (lit "k") = Some (mkEntry 6000 (Some (lit "v")))) as (d' & E & Hk)
    by (eexists; split; [vm_compute; reflexivity|vm_compute; reflexivity]).
  destruct (replies_well_typed (spec := std_spec) two_keys 1000 (words ["EXPIRE"; "k"; "5"]) d' (Integer 1) I E)
    as (_ & H1 & _ & H2).
  exists d'. split; [exact E|]. split; [exact H1|]. split; [exact Hk|]. apply H2. discriminate.
Defined.
