(* ===== verification/SpscQueue.v ===== *)
(** * The single-producer single-consumer queue:
    [v2/src/concurrent/single_consumer_producer_queue.h]

    First the two calls on their own, as functions on the ring buffer, and
    their refinement of a bounded FIFO.  Then the two threads: each call is cut
    at every access to shared memory, and the accesses of a producer and a
    consumer interleave arbitrarily.  An acquire load of the other side's
    index may return any value that side has stored since the last one seen,
    which is what release/acquire atomics with one writer allow; so a stale
    index is part of the model.  The invariant gives FIFO order, capacity, and
    that the two threads never touch the same slot at the same time, which is
    the freedom from data races the code relies on. *)

From S2P Require Import Prelude.

#[local] Open Scope nat_scope.

Section Spsc.
Context {T : Type} (N : nat).

Record SingleConsumerProducerQueue := mkSpsc {
  buffer_ : list (option T);
  head_ : nat;
  tail_ : nat
}.

(** [std::array<std::optional<T>, N + 1>], all empty; both indices 0. *)
Definition spsc_init : SingleConsumerProducerQueue := mkSpsc (replicate (N + 1) None) 0 0.

Definition increment (n : nat) : nat := (n + 1) mod (N + 1).

Definition Push (q : SingleConsumerProducerQueue) (element : T) : SingleConsumerProducerQueue * bool :=
  let t := tail_ q in
  if increment t =? head_ q then (q, false)
  else (mkSpsc (<[t := Some element]> (buffer_ q)) (head_ q) (increment t), true).

Definition Pop (q : SingleConsumerProducerQueue) : SingleConsumerProducerQueue * option T :=
  let h := head_ q in
  if h =? tail_ q then (q, None)
  else
    let element := default None (buffer_ q !! h) in
    (mkSpsc (<[h := None]> (buffer_ q)) (increment h) (tail_ q), element).

(** ** The two threads

    Where the producer is in [Push(element)]: outside; about to load [head_]
    with [t] loaded; about to write the slot; about to store [tail_]. *)
Inductive producer_pc :=
| PIdle
| PLoad (t : nat) (x : T)
| PWrite (t : nat) (x : T)
| PStore (t : nat) (x : T).

(** Where the consumer is in [Pop()]: outside; about to load [tail_]; about to
    move the element out; about to reset the slot; about to store [head_]. *)
Inductive consumer_pc :=
| CIdle
| CLoad (h : nat)
| CMove (h : nat)
| CReset (h : nat) (element : option T)
| CStore (h : nat) (element : option T).

(** The queue, the two program counters, and the history: the elements of the
    completed pushes, the results of the completed pops that found one, and
    how many stores of the other index each side has seen. *)
Record system := mkSystem {
  queue : SingleConsumerProducerQueue;
  producer : producer_pc;
  consumer : consumer_pc;
  pushed : list T;
  popped : list (option T);
  seen_head : nat;
  seen_tail : nat
}.

Definition system_init : system := mkSystem spsc_init PIdle CIdle [] [] 0 0.

(** The value of an index after [k] stores. *)
Definition index_after (k : nat) : nat := k mod (N + 1).

Inductive step : system -> system -> Prop :=
| step_call_push q x c l r sh st :
    (* const size_t t = tail_.load(relaxed) *)
    step (mkSystem q PIdle c l r sh st) (mkSystem q (PLoad (tail_ q) x) c l r sh st)
| step_full q t x c l r sh st k :
    (* increment(t) == head_.load(acquire): return false *)
    sh <= k <= length r -> increment t = index_after k ->
    step (mkSystem q (PLoad t x) c l r sh st) (mkSystem q PIdle c l r k st)
| step_not_full q t x c l r sh st k :
    sh <= k <= length r -> increment t <> index_after k ->
    step (mkSystem q (PLoad t x) c l r sh st) (mkSystem q (PWrite t x) c l r k st)
| step_write q t x c l r sh st :
    (* buffer_[t] = std::move(element) *)
    step (mkSystem q (PWrite t x) c l r sh st)
         (mkSystem (mkSpsc (<[t := Some x]> (buffer_ q)) (head_ q) (tail_ q)) (PStore t x) c l r sh st)
| step_store_tail q t x c l r sh st :
    (* tail_.store(increment(t), release); return true *)
    step (mkSystem q (PStore t x) c l r sh st)
         (mkSystem (mkSpsc (buffer_ q) (head_ q) (increment t)) PIdle c (l ++ [x]) r sh st)
| step_call_pop q p l r sh st :
    (* const size_t h = head_.load(relaxed) *)
    step (mkSystem q p CIdle l r sh st) (mkSystem q p (CLoad (head_ q)) l r sh st)
| step_empty q p h l r sh st k :
    (* h == tail_.load(acquire): return std::nullopt *)
    st <= k <= length l -> h = index_after k ->
    step (mkSystem q p (CLoad h) l r sh st) (mkSystem q p CIdle l r sh k)
| step_not_empty q p h l r sh st k :
    st <= k <= length l -> h <> index_after k ->
    step (mkSystem q p (CLoad h) l r sh st) (mkSystem q p (CMove h) l r sh k)
| step_move q p h l r sh st :
    (* element = std::move(buffer_[h]) *)
    step (mkSystem q p (CMove h) l r sh st)
         (mkSystem q p (CReset h (default None (buffer_ q !! h))) l r sh st)
| step_reset q p h e l r sh st :
    (* buffer_[h].reset() *)
    step (mkSystem q p (CReset h e) l r sh st)
         (mkSystem (mkSpsc (<[h := None]> (buffer_ q)) (head_ q) (tail_ q)) p (CStore h e) l r sh st)
| step_store_head q p h e l r sh st :
    (* head_.store(increment(h), release); return element *)
    step (mkSystem q p (CStore h e) l r sh st)
         (mkSystem (mkSpsc (buffer_ q) (increment h) (tail_ q)) p CIdle l (r ++ [e]) sh st).

Inductive reachable : system -> Prop :=
| reach_init : reachable system_init
| reach_step s s' : reachable s -> step s s' -> reachable s'.

(** ** The invariant *)

(** Elements from the [lo]-th to the last pushed one are in their slots. *)
Definition holds (q : SingleConsumerProducerQueue) (l : list T) (lo : nat) : Prop :=
  forall i x, lo <= i -> l !! i = Some x -> buffer_ q !! index_after i = Some (Some x).

Definition producer_inv (s : system) : Prop :=
  let n := length (pushed s) in
  match producer s with
  | PIdle => True
  | PLoad t _ => t = index_after n
  | PWrite t _ => t = index_after n /\ n < seen_head s + N
  | PStore t x => t = index_after n /\ n < seen_head s + N
                  /\ buffer_ (queue s) !! t = Some (Some x)
  end.

Definition consumer_inv (s : system) : Prop :=
  let n := length (popped s) in
  match consumer s with
  | CIdle => holds (queue s) (pushed s) n
  | CLoad h => h = index_after n /\ holds (queue s) (pushed s) n
  | CMove h => h = index_after n /\ n < seen_tail s /\ holds (queue s) (pushed s) n
  | CReset h e => h = index_after n /\ n < seen_tail s /\ e = pushed s !! n
                  /\ holds (queue s) (pushed s) (S n)
  | CStore h e => h = index_after n /\ n < seen_tail s /\ e = pushed s !! n
                  /\ holds (queue s) (pushed s) (S n)
  end.

Record system_inv (s : system) : Prop := {
  inv_size : length (buffer_ (queue s)) = N + 1;
  inv_tail : tail_ (queue s) = index_after (length (pushed s));
  inv_head : head_ (queue s) = index_after (length (popped s));
  inv_seen_head : seen_head s <= length (popped s);
  inv_seen_tail : seen_tail s <= length (pushed s);
  inv_order : popped s = Some <$> take (length (popped s)) (pushed s);
  inv_ahead : length (popped s) <= length (pushed s);
  inv_capacity : length (pushed s) <= seen_head s + N;
  inv_behind : length (popped s) <= seen_tail s;
  inv_producer : producer_inv s;
  inv_consumer : consumer_inv s
}.

(** *** Indices modulo [N + 1] *)

Lemma index_after_lt k : index_after k < N + 1.
Proof. apply Nat.mod_upper_bound. lia. Qed.

Lemma index_after_S k : increment (index_after k) = index_after (k + 1).
Proof. unfold increment, index_after. by rewrite Nat.Div0.add_mod_idemp_l. Qed.

Lemma index_after_inj i j : i <= j -> j < i + (N + 1) -> index_after i = index_after j -> i = j.
Proof. apply mod_window_inj. Qed.

Lemma index_after_wrap k : index_after (k + (N + 1)) = index_after k.
Proof. unfold index_after. rewrite <- (Nat.mul_1_l (N + 1)) at 1. by rewrite Nat.Div0.mod_add. Qed.


Lemma increment_full n sh : sh <= n -> n <= sh + N ->
  increment (index_after n) <> index_after sh -> n < sh + N.
Proof.
  intros H1 H2 Hne. rewrite index_after_S in Hne.
  destruct (decide (n = sh + N)) as [->|]; [|lia]. destruct Hne.
  replace (sh + N + 1) with (sh + (N + 1)) by lia. apply index_after_wrap.
Qed.

(** *** The invariant is preserved *)

(** Writing the next free slot keeps the elements in theirs. *)
Lemma holds_write q l lo x : lo <= length l -> length l < lo + N + 1 ->
  holds q l lo ->
  holds (mkSpsc (<[index_after (length l) := Some x]> (buffer_ q)) (head_ q) (tail_ q)) l lo.
Proof.
  intros Hlo Hlen Hq i y Hi Hy. cbn. pose proof (lookup_lt_Some _ _ _ Hy).
  rewrite list_lookup_insert_ne; [by apply Hq|].
  intros He. symmetry in He. apply index_after_inj in He; lia.
Qed.

(** Emptying the oldest slot keeps the others. *)
Lemma holds_reset q l lo : length l <= lo + N ->
  holds q l (S lo) ->
  holds (mkSpsc (<[index_after lo := None]> (buffer_ q)) (head_ q) (tail_ q)) l (S lo).
Proof.
  intros Hlen Hq i y Hi Hy. cbn. pose proof (lookup_lt_Some _ _ _ Hy).
  rewrite list_lookup_insert_ne; [by apply Hq|].
  intros He. apply index_after_inj in He; lia.
Qed.

(** The new element becomes part of the contents. *)
Lemma holds_push q l lo x h t :
  holds q l lo -> buffer_ q !! index_after (length l) = Some (Some x) ->
  holds (mkSpsc (buffer_ q) h t) (l ++ [x]) lo.
Proof.
  intros Hq Hx i y Hi Hy. cbn. apply lookup_app_Some in Hy as [Hy|[Hl Hy]]; [by apply Hq|].
  apply list_lookup_singleton_Some in Hy as [Hz <-]. by replace i with (length l) by lia.
Qed.

Lemma holds_weaken q l lo lo' h t : lo <= lo' -> holds q l lo -> holds (mkSpsc (buffer_ q) h t) l lo'.
Proof. intros Hle Hq i y Hi Hy. apply Hq; [lia|done]. Qed.

Lemma system_inv_init : system_inv system_init.
Proof.
  split; cbn; try done; try lia; [apply length_replicate|by unfold index_after; rewrite Nat.Div0.mod_0_l..].
Qed.

(** The consumer's part does not mention the producer's place, and conversely. *)
Lemma consumer_inv_ext q p p' c l r sh sh' st :
  consumer_inv (mkSystem q p c l r sh st) -> consumer_inv (mkSystem q p' c l r sh' st).
Proof. done. Qed.

Lemma producer_inv_ext q p c c' l r r' sh st st' :
  producer_inv (mkSystem q p c l r sh st) -> producer_inv (mkSystem q p c' l r' sh st').
Proof. done. Qed.

(** The number of elements the consumer still relies on starts here. *)
Lemma consumer_write q p c l r sh st x : length r <= length l -> length l < length r + N ->
  length r <= st <= length l ->
  consumer_inv (mkSystem q p c l r sh st) ->
  consumer_inv (mkSystem (mkSpsc (<[index_after (length l) := Some x]> (buffer_ q)) (head_ q) (tail_ q))
                  (PStore (index_after (length l)) x) c l r sh st).
Proof.
  intros H1 H2 H3. destruct c; cbn.
  - apply holds_write; lia.
  - intros [? Hq]. split; [done|]. apply holds_write; [lia|lia|done].
  - intros (? & ? & Hq). split_and!; [done|done|]. apply holds_write; [lia|lia|done].
  - intros (? & ? & ? & Hq). split_and!; [done|done|done|]. apply holds_write; [lia|lia|done].
  - intros (? & ? & ? & Hq). split_and!; [done|done|done|]. apply holds_write; [lia|lia|done].
Qed.

Lemma consumer_push q p c l r sh st x t :
  st <= length l -> buffer_ q !! index_after (length l) = Some (Some x) ->
  consumer_inv (mkSystem q p c l r sh st) ->
  consumer_inv (mkSystem (mkSpsc (buffer_ q) (head_ q) t) PIdle c (l ++ [x]) r sh st).
Proof.
  intros H1 Hx. destruct c; cbn.
  - intros Hq. by apply holds_push.
  - intros [? Hq]. split; [done|]. by apply holds_push.
  - intros (? & ? & Hq). split_and!; [done|done|]. by apply holds_push.
  - intros (? & ? & -> & Hq). split_and!; [done|done|by rewrite lookup_app_l by lia|]. by apply holds_push.
  - intros (? & ? & -> & Hq). split_and!; [done|done|by rewrite lookup_app_l by lia|]. by apply holds_push.
Qed.

(** Emptying the consumer's slot does not disturb the producer. *)
Lemma producer_reset q p c c' l r sh st : sh <= length r -> length r < length l -> length l <= sh + N ->
  producer_inv (mkSystem q p c l r sh st) ->
  producer_inv (mkSystem (mkSpsc (<[index_after (length r) := None]> (buffer_ q)) (head_ q) (tail_ q))
                  p c' l r sh st).
Proof.
  intros H1 H2 H3. destruct p as [| | |t x]; cbn; try done. intros (-> & Hn & Hx).
  split_and!; [done|done|]. rewrite list_lookup_insert_ne; [done|].
  intros He. apply index_after_inj in He; lia.
Qed.

Lemma system_inv_step s s' : system_inv s -> step s s' -> system_inv s'.
Proof.
  intros [Hsz Ht Hh Hsh Hst Ho Ha Hc Hb Hp Hk] Hstep.
  destruct Hstep as [q x c l r sh st|q t x c l r sh st k Hr He|q t x c l r sh st k Hr Hne
    |q t x c l r sh st|q t x c l r sh st|q p l r sh st|q p h l r sh st k Hr He
    |q p h l r sh st k Hr Hne|q p h l r sh st|q p h e l r sh st|q p h e l r sh st];
    cbn [queue producer consumer pushed popped seen_head seen_tail] in *.
  - by split.
  - split; cbn; done || lia.
  - split; cbn; try done; try lia. cbn in Hp. subst t. split; [done|]. eapply increment_full; [lia|lia|done].
  - cbn in Hp. destruct Hp as [-> Hn]. split; cbn; try done.
    + by rewrite length_insert.
    + split_and!; [done|done|]. apply list_lookup_insert_eq. rewrite Hsz. apply index_after_lt.
    + eapply consumer_write; [lia|lia|lia|]. exact Hk.
  - cbn in Hp. destruct Hp as (-> & Hn & Hx).
    split; cbn [queue producer consumer pushed popped seen_head seen_tail buffer_ head_ tail_];
      rewrite ?length_app; cbn [length]; try done; try lia.
    + apply index_after_S.
    + by rewrite take_app_le by lia.
    + eapply consumer_push; [done|done|exact Hk].
  - split; cbn; done.
  - split; cbn; try done; try lia. by destruct Hk.
  - cbn in Hk. destruct Hk as [-> Hk]. split; cbn; try done; try lia. split_and!; [done| |done].
    destruct (decide (length r = k)) as [E|]; [|lia]. by rewrite E in Hne.
  - cbn in Hk. destruct Hk as (-> & Hn & Hk). split; cbn; try done.
    destruct (lookup_lt_is_Some_2 l (length r)) as [y Hy]; [lia|].
    split_and!; [done|done| |by eapply (holds_weaken _ _ _ _ (head_ q) (tail_ q)) in Hk; [|apply Nat.le_succ_diag_r]; destruct q].
    by rewrite (Hk (length r) y) by done.
  - cbn in Hk. destruct Hk as (-> & Hn & -> & Hk). split; cbn; try done.
    + by rewrite length_insert.
    + eapply producer_reset; [lia|lia|lia|exact Hp].
    + split_and!; [done|done|done|]. apply holds_reset; [lia|done].
  - cbn in Hk. destruct Hk as (-> & Hn & -> & Hk).
    destruct (lookup_lt_is_Some_2 l (length r)) as [y Hy]; [lia|].
    split; cbn [queue producer consumer pushed popped seen_head seen_tail buffer_ head_ tail_];
      rewrite ?length_app; cbn [length]; try done; try lia.
    + apply index_after_S.
    + rewrite Hy, Nat.add_1_r, (take_S_r _ _ y Hy), fmap_app. by rewrite <- Ho.
    + cbn. rewrite length_app. cbn. eapply holds_weaken; [|exact Hk]. lia.
Qed.

Lemma reachable_inv s : reachable s -> system_inv s.
Proof. induction 1; [apply system_inv_init|by eapply system_inv_step]. Qed.

(** *** A call that is not interrupted is a run of its steps *)

Lemma push_is_steps q c l r sh st x : system_inv (mkSystem q PIdle c l r sh st) ->
  exists l' sh', rtc step (mkSystem q PIdle c l r sh st) (mkSystem (fst (Push q x)) PIdle c l' r sh' st)
    /\ l' = if snd (Push q x) then l ++ [x] else l.
Proof.
  intros [Hsz Ht Hh Hsh Hst Ho Ha Hc Hb Hp Hk]. cbn in *. unfold Push.
  destruct (_ =? _) eqn:E; reflect_bools; cbn [fst snd].
  - exists l, (length r). split; [|done]. eapply rtc_l; [apply (step_call_push q x)|].
    eapply rtc_l; [|done]. apply (step_full _ _ _ _ _ _ _ _ (length r)); [lia|congruence].
  - exists (l ++ [x]), (length r). split; [|done]. eapply rtc_l; [apply (step_call_push q x)|].
    eapply rtc_l; [apply (step_not_full _ _ _ _ _ _ _ _ (length r)); [lia|congruence]|].
    eapply rtc_l; [apply step_write|]. eapply rtc_l; [apply step_store_tail|]. apply rtc_refl.
Qed.

Lemma pop_is_steps q p l r sh st : system_inv (mkSystem q p CIdle l r sh st) ->
  exists r' st', rtc step (mkSystem q p CIdle l r sh st) (mkSystem (fst (Pop q)) p CIdle l r' sh st')
    /\ r' = if head_ q =? tail_ q then r else r ++ [snd (Pop q)].
Proof.
  intros [Hsz Ht Hh Hsh Hst Ho Ha Hc Hb Hp Hk]. cbn in *. unfold Pop.
  destruct (head_ q =? tail_ q) eqn:E; reflect_bools; cbn [fst snd].
  - exists r, (length l). split; [|done]. eapply rtc_l; [apply step_call_pop|].
    eapply rtc_l; [|done]. apply (step_empty _ _ _ _ _ _ _ (length l)); [lia|congruence].
  - exists (r ++ [default None (buffer_ q !! head_ q)]), (length l). split; [|done]. eapply rtc_l; [apply step_call_pop|].
    eapply rtc_l; [apply (step_not_empty _ _ _ _ _ _ _ (length l)); [lia|congruence]|].
    eapply rtc_l; [apply step_move|]. eapply rtc_l; [apply step_reset|].
    eapply rtc_l; [apply step_store_head|]. apply rtc_refl.
Qed.

(** ** The calls on their own: a bounded FIFO *)

(** [q] holds the elements [l], oldest first. *)
Definition spsc_rep (q : SingleConsumerProducerQueue) (l : list T) : Prop :=
  length (buffer_ q) = N + 1 /\ length l <= N
  /\ exists base, head_ q = index_after base /\ tail_ q = index_after (base + length l)
      /\ forall i x, l !! i = Some x -> buffer_ q !! index_after (base + i) = Some (Some x).

Lemma spsc_rep_init : spsc_rep spsc_init [].
Proof.
  split_and!; cbn; [apply length_replicate|lia|]. exists 0. unfold index_after.
  rewrite Nat.add_0_l, Nat.Div0.mod_0_l. split_and!; [done..|]. by intros i x Hx.
Qed.

Lemma Push_rep q l x : spsc_rep q l ->
  snd (Push q x) = (length l <? N)
  /\ spsc_rep (fst (Push q x)) (if length l <? N then l ++ [x] else l).
Proof.
  intros (Hsz & Hl & base & Hh & Ht & Hb). unfold Push.
  rewrite Ht, Hh, index_after_S. destruct (length l <? N) eqn:E; reflect_bools.
  - rewrite (proj2 (Nat.eqb_neq _ _)).
    2: { intros He. symmetry in He. apply index_after_inj in He; lia. }
    split; [done|]. split_and!; cbn; [by rewrite length_insert|rewrite length_app; cbn; lia|].
    exists base. split_and!; [congruence|rewrite length_app; cbn; f_equal; lia|].
    intros i y Hy. apply lookup_app_Some in Hy as [Hy|[Hi Hy]].
    + pose proof (lookup_lt_Some _ _ _ Hy). rewrite list_lookup_insert_ne; [by apply Hb|].
      intros He. symmetry in He. apply index_after_inj in He; lia.
    + apply list_lookup_singleton_Some in Hy as [Hz <-]. replace i with (length l) by lia.
      apply list_lookup_insert_eq. rewrite Hsz. apply index_after_lt.
  - replace (base + length l + 1) with (base + (N + 1)) by lia. rewrite index_after_wrap, Nat.eqb_refl.
    split; [done|]. split_and!; [done|done|]. by exists base.
Qed.

Lemma Pop_rep q l : spsc_rep q l ->
  snd (Pop q) = head l /\ spsc_rep (fst (Pop q)) (tail l).
Proof.
  intros (Hsz & Hl & base & Hh & Ht & Hb). unfold Pop. rewrite Ht, Hh.
  destruct l as [|x l]; cbn [length head tail] in *.
  - rewrite Nat.add_0_r, Nat.eqb_refl. split; [done|]. split_and!; [done|done|]. exists base.
    rewrite Nat.add_0_r in *. done.
  - rewrite (proj2 (Nat.eqb_neq _ _)) by (intros He; apply index_after_inj in He; lia).
    cbn [fst snd]. pose proof (Hb 0 x eq_refl) as Hx. rewrite Nat.add_0_r in Hx. rewrite Hx.
    split; [done|]. split_and!; cbn; [by rewrite length_insert|lia|]. exists (base + 1).
    rewrite index_after_S. split_and!; [done|f_equal; lia|].
    intros i y Hy. pose proof (lookup_lt_Some _ _ _ Hy).
    rewrite list_lookup_insert_ne by (intros He; apply index_after_inj in He; lia).
    replace (base + 1 + i) with (base + S i) by lia. by apply Hb.
Qed.

Inductive queue_op := QPush (x : T) | QPop.
Inductive queue_out := OPushed (b : bool) | OPopped (o : option T).

Definition queue_step (q : SingleConsumerProducerQueue) (op : queue_op)
    : SingleConsumerProducerQueue * queue_out :=
  match op with
  | QPush x => let '(q, b) := Push q x in (q, OPushed b)
  | QPop => let '(q, o) := Pop q in (q, OPopped o)
  end.

(** A list of at most [N] elements. *)
Definition fifo_step (l : list T) (op : queue_op) : list T * queue_out :=
  match op with
  | QPush x => if length l <? N then (l ++ [x], OPushed true) else (l, OPushed false)
  | QPop => (tail l, OPopped (head l))
  end.

End Spsc.

Arguments queue_op T : clear implicits.
Arguments queue_out T : clear implicits.
Arguments SingleConsumerProducerQueue T : clear implicits.
Arguments system T : clear implicits.

(** The outputs of a sequence of calls. *)
Fixpoint outputs {S Op Out : Type} (f : S -> Op -> S * Out) (s : S) (l : list Op) : list Out :=
  match l with
  | [] => []
  | op :: l => let '(s, out) := f s op in out :: outputs f s l
  end.

Lemma spsc_outputs {T} N (ops : list (queue_op T)) : forall q l, spsc_rep N q l ->
  outputs (queue_step N) q ops = outputs (fifo_step N) l ops.
Proof.
  induction ops as [|[x|] ops IH]; intros q l Hq; cbn [outputs queue_step fifo_step]; [done| |].
  - destruct (Push_rep N q l x Hq) as [H1 H2]. destruct (Push N q x) as [q' b]. cbn [fst snd] in *. subst b.
    destruct (length l <? N); f_equal; by apply IH.
  - destruct (Pop_rep N q l Hq) as [H1 H2]. destruct (Pop N q) as [q' o]. cbn [fst snd] in *. subst o.
    f_equal. by apply IH.
Qed.

(** ** Theorems *)

(** The ring buffer with [N + 1] slots is a FIFO of capacity [N]: any
    sequence of [Push] and [Pop] on a new queue gives the answers of a list
    bounded by [N]; [Push] fails exactly when [N] elements are in it. *)
Theorem spsc_refines_fifo {T} (N : nat) (ops : list (queue_op T)) :
  outputs (queue_step N) (spsc_init N) ops = outputs (fifo_step N) [] ops.
Proof. apply spsc_outputs, spsc_rep_init. Qed.

(** C10. With one producer and one consumer running at once, in every
    interleaving of their memory accesses and with every stale index
    release/acquire allows: the values popped are exactly the values pushed,
    in order, none lost, repeated or empty; never more than [N] are in the
    queue. *)
Theorem spsc_concurrent_fifo {T} (N : nat) (s : system T) :
  reachable N s ->
  popped s = Some <$> take (length (popped s)) (pushed s)
  /\ length (popped s) <= length (pushed s) <= length (popped s) + N.
Proof. intros [? ? ? ? ? ? ? ? ? ? ?]%reachable_inv. split; [done|lia]. Qed.

(** The slots the two threads are about to access outside the atomics. *)
Definition producer_slot {T} (s : system T) : option nat :=
  match producer s with PWrite t _ => Some t | _ => None end.
Definition consumer_slot {T} (s : system T) : option nat :=
  match consumer s with CMove h | CReset h _ => Some h | _ => None end.

(** C37. No data race: the two threads are never about to access the same slot
    of the buffer, so the plain (non-atomic) accesses never conflict; both
    slots are inside the array. *)
Theorem spsc_no_data_race {T} (N : nat) (s : system T) (i j : nat) :
  reachable N s -> producer_slot s = Some i -> consumer_slot s = Some j ->
  i <> j /\ i < N + 1 /\ j < N + 1.
Proof.
  intros [? ? ? ? ? ? ? ? ? Hp Hk]%reachable_inv Hi Hj.
  unfold producer_slot, consumer_slot, producer_inv, consumer_inv in *.
  destruct (producer s) as [| |t x|]; try done. destruct Hp as [-> Hn].
  assert (j = index_after N (length (popped s)) /\ length (popped s) < seen_tail s) as [-> Hl].
  { destruct (consumer s); try done; injection Hj as <-; naive_solver. }
  injection Hi as <-. split_and!; [|apply index_after_lt..].
  intros He. symmetry in He. apply index_after_inj in He; lia.
Qed.

(** Both threads in the middle of a call on a queue of one element: the
    producer about to write the second slot, the consumer about to empty the
    first. *)
Definition sample_system : system nat :=
  mkSystem (mkSpsc [Some 7; None; None] 0 1) (PWrite 1 8) (CReset 0 (Some 7)) [7] [] 0 1.

(** One more step of a run [H]. *)
Ltac advance H c :=
  eapply reach_step in H; [|eapply c; first [cbn; lia | discriminate]]; cbn in H.

Lemma sample_reachable : reachable 2 sample_system.
Proof.
  pose proof (@reach_init nat 2) as H. unfold system_init in H.
  advance H (step_call_push 2 (spsc_init 2) 7).
  advance H (step_not_full 2 (spsc_init 2) 0 7 CIdle [] [] 0 0 0).
  advance H (@step_write nat 2).
  advance H (@step_store_tail nat 2).
  advance H (@step_call_pop nat 2).
  advance H (step_not_empty 2 (mkSpsc [Some 7; None; None] 0 1) PIdle 0 [7] [] 0 0 1).
  advance H (step_call_push 2 (mkSpsc [Some 7; None; None] 0 1) 8).
  advance H (@step_move nat 2).
  advance H (step_not_full 2 (mkSpsc [Some 7; None; None] 0 1) 1 8 (CReset 0 (Some 7)) [7] [] 0 1 0).
  exact H.
Qed.

Lemma spsc_concurrent_fifo_witness :
  popped sample_system = Some <$> take 0 (pushed sample_system) /\ 0 <= 1 <= 0 + 2.
Proof. exact (spsc_concurrent_fifo 2 sample_system sample_reachable). Defined.

Lemma spsc_no_data_race_witness : 1 <> 0 /\ 1 < 2 + 1 /\ 0 < 2 + 1.
Proof.
  exact (spsc_no_data_race 2 sample_system 1 0 sample_reachable eq_refl eq_refl).
Defined.
