(* ===== verification/BlockingQueue.v ===== *)
(** * The blocking queue: [v2/src/concurrent/concurrent_queue.h], [v1/src/concurrent/ConcurrentQueue.h]

    A [std::queue] with a mutex and a condition variable, shared by any number
    of threads.  [ConcurrentQueue.Push] and [ConcurrentQueue.Pop] are what the
    two methods do to the queue; the step function runs them on threads, one
    operation on the mutex, the queue or the condition variable at a time.
    [wait] releases the mutex and joins the wait set in one step, and may
    return without having been notified; [notify_one] wakes a thread of the
    wait set, any of them, if there is one.

    Theorems: the queue is a FIFO whatever the interleaving, and no wake-up is
    lost: the threads do not come to rest with a value in the queue and a
    thread waiting for one. *)

From S2P Require Import Prelude.

Module ConcurrentQueue.
Definition Push {T} (queue_ : list T) (value : T) : list T := queue_ ++ [value].
Definition Pop {T} (queue_ : list T) : option (T * list T) :=
  match queue_ with
  | [] => None
  | value :: queue_ => Some (value, queue_)
  end.
End ConcurrentQueue.

(** ** Threads *)

Section Queue.
Context {T : Type}.

(** Where a thread is; the comment says what it does next. *)
Inductive point :=
| Idle
| PushLock (value : T)  (* lock *)
| PushBody (value : T)  (* queue_.push(value) *)
| PushUnlock            (* lock.unlock() *)
| PushNotify            (* is_empty_.notify_one() *)
| PopLock               (* lock *)
| PopTest               (* the predicate of wait *)
| PopWait               (* in the wait set of is_empty_ *)
| PopRelock             (* woken: lock again *)
| PopTake               (* queue_.front(), queue_.pop() *)
| PopUnlock (value : T) (* return value, and the destructor of lock *).

Record monitor := mkMonitor {
  queue_ : list T;
  mutex_ : option nat;  (** the thread that holds it *)
  threads : list point;
  pushed : list T;
  popped : list T
}.

Definition at_point (s : monitor) (t : nat) (p : point) (holder : option nat) : monitor :=
  mkMonitor (queue_ s) holder (<[t := p]> (threads s)) (pushed s) (popped s).

Definition lock_then (s : monitor) (t : nat) (p : point) : option monitor :=
  match mutex_ s with
  | None => Some (at_point s t p (Some t))
  | Some _ => None
  end.

(** The next operation of thread [t] at point [p]. *)
Definition go (s : monitor) (t : nat) (p : point) : option monitor :=
  match p with
  | Idle | PopWait | PushNotify => None
  | PushLock value => lock_then s t (PushBody value)
  | PushBody value =>
      Some (mkMonitor (ConcurrentQueue.Push (queue_ s) value) (mutex_ s) (<[t := PushUnlock]> (threads s))
              (pushed s ++ [value]) (popped s))
  | PushUnlock => Some (at_point s t PushNotify None)
  | PopLock | PopRelock => lock_then s t PopTest
  | PopTest =>
      match queue_ s with
      | [] => Some (at_point s t PopWait None)
      | _ => Some (at_point s t PopTake (mutex_ s))
      end
  | PopTake =>
      '(value, rest) ← ConcurrentQueue.Pop (queue_ s);
      Some (mkMonitor rest (mutex_ s) (<[t := PopUnlock value]> (threads s)) (pushed s) (popped s ++ [value]))
  | PopUnlock _ => Some (at_point s t Idle None)
  end.

Definition waits (p : point) : bool := match p with PopWait => true | _ => false end.

(** [notify_one] of thread [t]; [woken] is the thread the scheduler chose. *)
Definition notify (s : monitor) (t : nat) (woken : option nat) : option monitor :=
  let s' := at_point s t Idle (mutex_ s) in
  match woken with
  | None => if existsb waits (threads s) then None else Some s'
  | Some u =>
      match threads s !! u with
      | Some PopWait => Some (at_point s' u PopRelock (mutex_ s))
      | _ => None
      end
  end.

Inductive action :=
| CallPush (t : nat) (value : T)
| CallPop (t : nat)
| Go (t : nat)
| Notify (t : nat) (woken : option nat)
| Spurious (t : nat).

Definition step (s : monitor) (a : action) : option monitor :=
  match a with
  | CallPush t value =>
      match threads s !! t with Some Idle => Some (at_point s t (PushLock value) (mutex_ s)) | _ => None end
  | CallPop t =>
      match threads s !! t with Some Idle => Some (at_point s t PopLock (mutex_ s)) | _ => None end
  | Go t => p ← threads s !! t; go s t p
  | Notify t woken =>
      match threads s !! t with Some PushNotify => notify s t woken | _ => None end
  | Spurious t =>
      match threads s !! t with Some PopWait => Some (at_point s t PopRelock (mutex_ s)) | _ => None end
  end.

Fixpoint run (s : monitor) (l : list action) : option monitor :=
  match l with
  | [] => Some s
  | a :: l => s ← step s a; run s l
  end.

Definition start (n : nat) : monitor := mkMonitor [] None (replicate n Idle) [] [].

(** ** The invariant *)

Definition holds_lock (p : point) : bool :=
  match p with PushBody _ | PushUnlock | PopTest | PopTake | PopUnlock _ => true | _ => false end.

(** Threads that will look at the queue, or wake one that does. *)
Definition alert (p : point) : bool :=
  match p with PushUnlock | PushNotify | PopRelock | PopTest | PopTake => true | _ => false end.

Definition count (f : point -> bool) (l : list point) : nat := sum_list_with (fun p => Nat.b2n (f p)) l.

Record monitor_ok (s : monitor) : Prop := {
  ok_holder t : mutex_ s = Some t <-> exists p, threads s !! t = Some p /\ holds_lock p = true;
  ok_take t : threads s !! t = Some PopTake -> queue_ s <> [];
  ok_fifo : pushed s = popped s ++ queue_ s;
  ok_wake : existsb waits (threads s) = false \/ (length (queue_ s) <= count alert (threads s))%nat
}.

Lemma count_insert f l t p p' : l !! t = Some p ->
  (count f (<[t := p']> l) + Nat.b2n (f p) = count f l + Nat.b2n (f p'))%nat.
Proof.
  unfold count. revert t. induction l as [|x l IH]; intros [|t] Ht; cbn in Ht; try done.
  - injection Ht as ->. change (<[0%nat := p']> (p :: l)) with (p' :: l). cbn. lia.
  - specialize (IH t Ht). change (<[S t := p']> (x :: l)) with (x :: <[t := p']> l). cbn. lia.
Qed.

Lemma waits_insert l t p p' : l !! t = Some p -> waits p' = false ->
  existsb waits l = false -> existsb waits (<[t := p']> l) = false.
Proof.
  revert t. induction l as [|x l IH]; intros [|t] Ht Hp' Hn; cbn in Ht, Hn; try done; apply orb_false_iff in Hn as [Hx Hn].
  - change (<[0%nat := p']> (x :: l)) with (p' :: l). cbn. by rewrite Hp', Hn.
  - change (<[S t := p']> (x :: l)) with (x :: <[t := p']> l). cbn. by rewrite Hx, (IH t).
Qed.

Lemma waiting_exists l : existsb waits l = true -> exists t, l !! t = Some PopWait.
Proof.
  intros (p & Hin & Hp)%existsb_exists. apply list_elem_of_In, list_elem_of_lookup in Hin as [t Ht].
  exists t. by destruct p.
Qed.

Lemma no_waiter l t : existsb waits l = false -> l !! t <> Some PopWait.
Proof.
  intros Hn Ht. assert (existsb waits l = true); [|congruence]. apply existsb_exists. exists PopWait.
  split; [|done]. apply list_elem_of_In. by eapply list_elem_of_lookup_2.
Qed.

(** Thread [t] moves from [p] to [p'], not touching the mutex. *)
Lemma holder_kept s t p p' : monitor_ok s -> threads s !! t = Some p -> holds_lock p' = holds_lock p ->
  forall u, mutex_ s = Some u <-> exists q, <[t := p']> (threads s) !! u = Some q /\ holds_lock q = true.
Proof.
  intros Hok Ht He u. rewrite (ok_holder _ Hok u). split; intros (q & Hq & Hh).
  - destruct (decide (u = t)) as [->|Hne].
    + rewrite Ht in Hq. injection Hq as <-. exists p'. split; [|congruence].
      apply list_lookup_insert_eq. by eapply lookup_lt_Some.
    + exists q. by rewrite list_lookup_insert_ne.
  - apply list_lookup_insert_Some in Hq as [(<- & <- & _)|[_ Hq]]; [|eauto]. exists p. split; [done|congruence].
Qed.

(** Thread [t] takes the free mutex. *)
Lemma holder_taken s t p p' : monitor_ok s -> mutex_ s = None -> threads s !! t = Some p -> holds_lock p' = true ->
  forall u, Some t = Some u <-> exists q, <[t := p']> (threads s) !! u = Some q /\ holds_lock q = true.
Proof.
  intros Hok Hm Ht Hp' u. split.
  - intros [= <-]. exists p'. split; [|done]. apply list_lookup_insert_eq. by eapply lookup_lt_Some.
  - intros (q & Hq & Hh). apply list_lookup_insert_Some in Hq as [(-> & _)|[_ Hq]]; [done|].
    exfalso. assert (mutex_ s = Some u) by (apply (ok_holder _ Hok); eauto). congruence.
Qed.

(** Thread [t] gives the mutex back. *)
Lemma holder_released s t p p' : monitor_ok s -> threads s !! t = Some p -> holds_lock p = true -> holds_lock p' = false ->
  forall u : nat, None = Some u <-> exists q, <[t := p']> (threads s) !! u = Some q /\ holds_lock q = true.
Proof.
  intros Hok Ht Hp Hp' u. split; [done|]. intros (q & Hq & Hh).
  apply list_lookup_insert_Some in Hq as [(-> & -> & _)|[Hne Hq]]; [congruence|].
  assert (mutex_ s = Some u) as E1 by (apply (ok_holder _ Hok); eauto).
  assert (mutex_ s = Some t) as E2 by (apply (ok_holder _ Hok); eauto). congruence.
Qed.

(** Only the holder can be about to take a value. *)
Lemma take_kept s t p p' (q : list T) : monitor_ok s -> threads s !! t = Some p ->
  (p' = PopTake -> q <> []) -> (q = queue_ s \/ q <> [] \/ holds_lock p = true) ->
  forall u, <[t := p']> (threads s) !! u = Some PopTake -> q <> [].
Proof.
  intros Hok Ht Hp' Hq u Hu. apply list_lookup_insert_Some in Hu as [(<- & -> & _)|[Hne Hu]]; [by apply Hp'|].
  destruct Hq as [->|[Hq|Hh]]; [by eapply ok_take|done|].
  assert (mutex_ s = Some u) as E1 by (apply (ok_holder _ Hok); eauto).
  assert (mutex_ s = Some t) as E2 by (apply (ok_holder _ Hok); eauto). congruence.
Qed.

(** The balance of values and alert threads. *)
Lemma wake_kept s t p p' (q : list T) : monitor_ok s -> threads s !! t = Some p ->
  (waits p' = false \/ q = []) ->
  (length q + Nat.b2n (alert p) <= length (queue_ s) + Nat.b2n (alert p') \/ q = [])%nat ->
  existsb waits (<[t := p']> (threads s)) = false \/ (length q <= count alert (<[t := p']> (threads s)))%nat.
Proof.
  intros Hok Ht Hw Hq. pose proof (count_insert alert _ t p p' Ht) as Hc.
  destruct Hq as [Hq| ->]; [|right; cbn; lia]. destruct Hw as [Hw| ->]; [|right; cbn; lia].
  destruct (ok_wake _ Hok) as [Hn|Hle]; [left; by eapply waits_insert|right]. lia.
Qed.

Lemma monitor_start_ok n : monitor_ok (start n).
Proof.
  assert (forall t p, replicate n (Idle : point) !! t = Some p -> p = Idle) as H by (by intros t p [-> _]%lookup_replicate).
  constructor; cbn; [| |done|].
  - intros t. split; [done|]. intros (p & ->%H & Hp). done.
  - intros t Ht. by apply H in Ht.
  - left. clear H. induction n as [|n IH]; [done|]. exact IH.
Qed.

(** One thread moves and leaves the queue as it is. *)
Lemma moved_ok s t p p' holder : monitor_ok s -> threads s !! t = Some p ->
  (forall u, holder = Some u <-> exists q, <[t := p']> (threads s) !! u = Some q /\ holds_lock q = true) ->
  (p' = PopTake -> queue_ s <> []) -> (waits p' = true -> queue_ s = []) ->
  (alert p = true -> alert p' = true \/ queue_ s = []) ->
  monitor_ok (at_point s t p' holder).
Proof.
  intros Hok Ht Hh Htake Hw Ha. constructor; cbn; [done| |apply Hok|].
  - eapply take_kept; eauto.
  - eapply wake_kept; [done|done| |].
    + destruct (waits p'); [right; auto|by left].
    + destruct (alert p) eqn:Ep; [|left; cbn; lia]. destruct (Ha eq_refl) as [->|Hq]; [left; lia|by right].
Qed.

Lemma lock_ok s t p p' s' : monitor_ok s -> threads s !! t = Some p -> lock_then s t p' = Some s' ->
  holds_lock p' = true -> p' <> PopTake -> (alert p = true -> alert p' = true) -> monitor_ok s'.
Proof.
  unfold lock_then. intros Hok Ht Hs Hp' Hne Ha. destruct (mutex_ s) eqn:Hm; [done|]. injection Hs as <-.
  eapply moved_ok; [done|exact Ht|by eapply holder_taken|done| |auto]. by destruct p'.
Qed.

Lemma go_ok s t p s' : monitor_ok s -> threads s !! t = Some p -> go s t p = Some s' -> monitor_ok s'.
Proof.
  intros Hok Ht Hs. destruct p as [|v|v| | | | | | | |v]; cbn [go] in Hs; try done.
  - by eapply lock_ok.
  - injection Hs as <-. constructor; cbn.
    + by eapply holder_kept.
    + eapply take_kept; [done|exact Ht|done|]. right; left. unfold ConcurrentQueue.Push. by destruct (queue_ s).
    + unfold ConcurrentQueue.Push. by rewrite (ok_fifo _ Hok), app_assoc.
    + eapply wake_kept; [done|exact Ht|by left|left]. unfold ConcurrentQueue.Push. rewrite length_app. cbn. lia.
  - injection Hs as <-. eapply moved_ok; [done|exact Ht|by eapply holder_released|done..|by left].
  - by eapply lock_ok.
  - destruct (queue_ s) as [|v q] eqn:Hq; injection Hs as <-.
    + eapply moved_ok; [done|exact Ht|by eapply holder_released|done|done|by right].
    + eapply moved_ok; [done|exact Ht|by eapply holder_kept|by rewrite Hq|done|by left].
  - by eapply lock_ok.
  - destruct (queue_ s) as [|v q] eqn:Hq; [done|]. injection Hs as <-. constructor; cbn.
    + by eapply holder_kept.
    + eapply take_kept; [done|exact Ht|done|by right; right].
    + by rewrite (ok_fifo _ Hok), Hq, <- app_assoc.
    + eapply wake_kept; [done|exact Ht|by left|left]. rewrite Hq. cbn. lia.
  - injection Hs as <-. eapply moved_ok; [done|exact Ht|by eapply holder_released|done..].
Qed.

(** The thread that notifies passes its share on to the thread it wakes. *)
Lemma notify_ok s t woken s' : monitor_ok s -> threads s !! t = Some PushNotify ->
  notify s t woken = Some s' -> monitor_ok s'.
Proof.
  intros Hok Ht Hs. unfold notify in Hs. destruct woken as [u|].
  - destruct (threads s !! u) as [[]|] eqn:Hu; try done. injection Hs as <-.
    assert (u <> t) as Hne by congruence.
    assert (<[t := Idle]> (threads s) !! u = Some PopWait) as Hu' by (by rewrite list_lookup_insert_ne).
    assert (forall v, mutex_ s = Some v <-> exists q, <[u := PopRelock]> (<[t := Idle]> (threads s)) !! v = Some q
              /\ holds_lock q = true) as Hh.
    { intros v. rewrite (holder_kept s t PushNotify Idle Hok Ht eq_refl v). split; intros (q & Hq & Hl).
      - destruct (decide (v = u)) as [->|]; [rewrite Hu' in Hq; by injection Hq as <-|].
        exists q. by rewrite list_lookup_insert_ne.
      - apply list_lookup_insert_Some in Hq as [(_ & <- & _)|[_ Hq]]; [done|eauto]. }
    constructor; cbn; [exact Hh| |apply Hok|].
    + intros v Hv. apply list_lookup_insert_Some in Hv as [(_ & ? & _)|[_ Hv]]; [done|].
      apply list_lookup_insert_Some in Hv as [(_ & ? & _)|[_ Hv]]; [done|by eapply ok_take].
    + pose proof (count_insert alert _ t _ Idle Ht) as C1. pose proof (count_insert alert _ u _ PopRelock Hu') as C2.
      cbn [alert Nat.b2n] in C1, C2. destruct (ok_wake _ Hok) as [Hn|Hle]; [by apply (no_waiter _ u) in Hn|right; fold (count alert (<[u := PopRelock]> (<[t := Idle]> (threads s)))); lia].
  - destruct (existsb waits (threads s)) eqn:Hn; [done|]. injection Hs as <-. constructor; cbn.
    + by eapply holder_kept.
    + eapply take_kept; [done|exact Ht|done|by left].
    + apply Hok.
    + left. by eapply waits_insert.
Qed.

Lemma step_ok s a s' : monitor_ok s -> step s a = Some s' -> monitor_ok s'.
Proof.
  intros Hok Hs. destruct a as [t v|t|t|t woken|t]; cbn [step] in Hs.
  - destruct (threads s !! t) as [[]|] eqn:Ht; try done. injection Hs as <-.
    eapply moved_ok; [done|exact Ht|by eapply holder_kept|done..].
  - destruct (threads s !! t) as [[]|] eqn:Ht; try done. injection Hs as <-.
    eapply moved_ok; [done|exact Ht|by eapply holder_kept|done..].
  - apply bind_Some in Hs as (p & Ht & Hs). by eapply go_ok.
  - destruct (threads s !! t) as [[]|] eqn:Ht; try done. by eapply notify_ok.
  - destruct (threads s !! t) as [[]|] eqn:Ht; try done. injection Hs as <-.
    eapply moved_ok; [done|exact Ht|by eapply holder_kept|done..].
Qed.

Lemma run_ok l : forall s s', monitor_ok s -> run s l = Some s' -> monitor_ok s'.
Proof.
  induction l as [|a l IH]; intros s s' Hok H; cbn [run] in H; [by injection H as <-|].
  apply bind_Some in H as (s1 & Hs & H). eapply IH; [by eapply step_ok|exact H].
Qed.

(** ** Steps that are not calls *)

Definition weight (p : point) : nat :=
  match p with
  | Idle | PopWait => 0
  | PopUnlock _ => 1
  | PopTake => 2
  | PopTest => 3
  | PopLock | PopRelock => 4
  | PushNotify => 5
  | PushUnlock => 6
  | PushBody _ => 7
  | PushLock _ => 8
  end.

Definition remaining (s : monitor) : nat := sum_list_with weight (threads s).

(** A step of a thread, not a new call nor a spurious wake-up. *)
Definition own_step (a : action) : bool := match a with Go _ | Notify _ _ => true | _ => false end.

Lemma weight_insert l t p p' : l !! t = Some p ->
  (sum_list_with weight (<[t := p']> l) + weight p = sum_list_with weight l + weight p')%nat.
Proof.
  revert t. induction l as [|x l IH]; intros [|t] Ht; cbn in Ht; try done.
  - injection Ht as ->. change (<[0%nat := p']> (p :: l)) with (p' :: l). cbn. lia.
  - specialize (IH t Ht). change (<[S t := p']> (x :: l)) with (x :: <[t := p']> l). cbn. lia.
Qed.

Lemma go_remaining s t p s' : threads s !! t = Some p -> go s t p = Some s' -> (remaining s' < remaining s)%nat.
Proof.
  intros Ht Hs. pose proof (fun p' => weight_insert _ t p p' Ht) as W. unfold remaining.
  destruct p as [|v|v| | | | | | | |v]; cbn [go] in Hs; try done; unfold lock_then in Hs;
    repeat case_match; simplify_eq; cbn [at_point threads];
    match goal with |- context [<[t := ?p']> _] => specialize (W p'); cbn in W; lia | _ => idtac end.
  destruct (queue_ s) as [|v q]; [done|]. injection Hs as <-. cbn. specialize (W (PopUnlock v)). cbn in W. lia.
Qed.

Lemma own_step_remaining s a s' : own_step a = true -> step s a = Some s' -> (remaining s' < remaining s)%nat.
Proof.
  intros Ho Hs. destruct a as [t v|t|t|t woken|t]; try done; cbn [step] in Hs.
  - apply bind_Some in Hs as (p & Ht & Hs). by eapply go_remaining.
  - destruct (threads s !! t) as [[]|] eqn:Ht; try done. unfold notify in Hs.
    pose proof (weight_insert _ t _ Idle Ht) as W1. cbn in W1. unfold remaining. destruct woken as [u|].
    + destruct (threads s !! u) as [[]|] eqn:Hu; try done. injection Hs as <-. cbn.
      assert (<[t := Idle]> (threads s) !! u = Some PopWait) as Hu' by (rewrite list_lookup_insert_ne; congruence).
      pose proof (weight_insert _ u _ PopRelock Hu') as W2. cbn in W2. lia.
    + destruct (existsb waits (threads s)); [done|]. injection Hs as <-. cbn. lia.
Qed.

Definition resting (p : point) : bool := match p with Idle | PopWait => true | _ => false end.

(** Someone can move unless all threads rest. *)
Lemma own_step_possible s : monitor_ok s -> forallb resting (threads s) = false ->
  exists a s', own_step a = true /\ step s a = Some s'.
Proof.
  intros Hok Hr.
  assert (forall t p, threads s !! t = Some p -> holds_lock p = true -> exists a s', own_step a = true /\ step s a = Some s')
    as Hholder.
  { intros t p Ht Hp. exists (Go t). cbn [step]. rewrite Ht. cbn [mbind option_bind].
    destruct p; cbn [go holds_lock] in *; try done; eauto.
    - destruct (queue_ s); eauto.
    - pose proof (ok_take _ Hok _ Ht). destruct (queue_ s); [done|]. cbn. eauto. }
  destruct (mutex_ s) as [h|] eqn:Hm.
  { destruct (proj1 (ok_holder _ Hok h) Hm) as (p & Ht & Hp). by eapply Hholder. }
  assert (exists t p, threads s !! t = Some p /\ resting p = false) as (t & p & Ht & Hp).
  { destruct (forallb resting (threads s)) eqn:E; [done|]. clear -E.
    induction (threads s) as [|x l IH]; cbn in E; [done|]. destruct (resting x) eqn:Ex; [|by exists 0%nat, x].
    destruct IH as (t & p & Ht & Hp); [done|]. by exists (S t), p. }
  destruct (holds_lock p) eqn:Hh; [by eapply Hholder|].
  destruct p; try done.
  1, 3, 4: exists (Go t); cbn [step]; rewrite Ht; cbn; unfold lock_then; rewrite Hm; eauto.
  destruct (existsb waits (threads s)) eqn:Hw.
  - destruct (waiting_exists _ Hw) as [u Hu]. exists (Notify t (Some u)). cbn [step]. rewrite Ht. cbn. rewrite Hu. eauto.
  - exists (Notify t None). cbn [step]. rewrite Ht. cbn. rewrite Hw. eauto.
Qed.

Lemma resting_no_alert s : forallb resting (threads s) = true -> count alert (threads s) = 0%nat.
Proof.
  unfold count. induction (threads s) as [|p l IH]; [done|]. cbn. intros [Hp Hl]%andb_true_iff.
  rewrite (IH Hl). by destruct p.
Qed.

End Queue.
Arguments monitor T : clear implicits.
Arguments action T : clear implicits.
Arguments point T : clear implicits.

(** ** Theorems *)

(** The blocking queue is a FIFO for any number of threads: after any
    interleaving of calls, wake-ups and steps the values taken are the values
    pushed, in that order, as far as they were taken, and the queue holds the
    rest; the mutex is held by at most one thread, and [front] is never called
    on an empty queue. *)
Theorem blocking_queue_fifo {T} (n : nat) (l : list (action T)) s :
  run (start n) l = Some s ->
  pushed s = popped s ++ queue_ s
  /\ (forall t u p q, threads s !! t = Some p -> threads s !! u = Some q ->
        holds_lock p = true -> holds_lock q = true -> t = u)
  /\ (forall t, threads s !! t = Some PopTake -> queue_ s <> []).
Proof.
  intros H. pose proof (run_ok l _ _ (monitor_start_ok n) H) as Hok. split_and!; [apply Hok| |apply Hok].
  intros t u p q Ht Hu Hp Hq.
  assert (mutex_ s = Some t) as E1 by (apply (ok_holder _ Hok); eauto).
  assert (mutex_ s = Some u) as E2 by (apply (ok_holder _ Hok); eauto). congruence.
Qed.

(** No wake-up is lost.  From any state the threads can reach, a run
    without new calls and spurious wake-ups has at most [remaining] steps, a
    step is possible as long as some thread is neither idle nor in [wait], and
    when none is, no thread waits or the queue is empty: a value is never left
    in the queue while a thread waits for one. *)
Theorem no_wakeup_lost {T} (n : nat) (l : list (action T)) s :
  run (start n) l = Some s ->
  (forall l' s', forallb own_step l' = true -> run s l' = Some s' -> (length l' <= remaining s)%nat)
  /\ (forallb resting (threads s) = false -> exists a s', own_step a = true /\ step s a = Some s')
  /\ (forallb resting (threads s) = true -> existsb waits (threads s) = false \/ queue_ s = []).
Proof.
  intros H. pose proof (run_ok l _ _ (monitor_start_ok n) H) as Hok. split_and!.
  - intros l'. clear H Hok l. revert s. induction l' as [|a l' IH]; intros s s' Ho H; cbn in *; [lia|].
    apply andb_true_iff in Ho as [Ha Ho]. apply bind_Some in H as (s1 & Hs & H).
    pose proof (own_step_remaining _ _ _ Ha Hs). specialize (IH _ _ Ho H). lia.
  - by apply own_step_possible.
  - intros Hr. destruct (ok_wake _ Hok) as [?|Hle]; [by left|right]. rewrite (resting_no_alert _ Hr) in Hle.
    destruct (queue_ s); [done|cbn in Hle; lia].
Qed.

(** *** Witnesses: two consumers wait, one value is pushed *)

Definition sample_run : list (action nat) :=
  [CallPop 0; CallPop 1; Go 0; Go 0; Go 1; Go 1; CallPush 2 7; Go 2; Go 2; Go 2; Notify 2 (Some 1)]%nat.

#[local] Abbreviation after_push := (run (start 3) sample_run).

Lemma blocking_queue_fifo_witness : exists s, after_push = Some s /\ pushed s = popped s ++ queue_ s.
Proof.
  destruct (checked_some after_push (fun _ => true)) as (s & E & _); [reflexivity|].
  exists s. split; [exact E|]. apply (blocking_queue_fifo 3 sample_run s E).
Defined.

Lemma no_wakeup_lost_witness :
  exists s, after_push = Some s /\ exists a s', own_step a = true /\ step s a = Some s'.
Proof.
  destruct (checked_some after_push (fun s => negb (forallb resting (threads s)))) as (s & E & H); [reflexivity|].
  exists s. split; [exact E|]. apply negb_true_iff in H. apply (no_wakeup_lost 3 sample_run s E), H.
Defined.
