(* ===== verification/EventFd.v ===== *)
(** * Wake-ups between threads: [v2/src/concurrent/event_fd.{h,cc}]

    An eventfd is a 64-bit counter in the kernel: a [write] of 1 adds to it
    unless that would pass 2^64 - 2 ([EAGAIN], the descriptor is
    non-blocking), a [read] takes all of it, or answers [EAGAIN] when it is 0,
    and either call may be interrupted by a signal.  The state is the
    descriptor and the counter; the interruptions are an argument, one answer
    per call. *)

From S2P Require Import Prelude.

Record EventFd := mkEventFd {
  fd_ : Z;
  counter : Z
}.

(** [fd_(eventfd(0, EFD_NONBLOCK | EFD_CLOEXEC))]; [created] is what the call
    returns. *)
Definition new_event_fd (created : Z) : EventFd := mkEventFd created 0.

(** The largest value the kernel keeps. *)
Definition counter_max : Z := 2 ^ 64 - 2.

(** [write(fd_, &one, sizeof(one))] *)
Definition write_one (interrupted : bool) (c : Z) : Z * option errno :=
  if interrupted then (c, Some EINTR)
  else if c + 1 <=? counter_max then (c + 1, None)
  else (c, Some EAGAIN).

(** [read(fd_, &value, sizeof(value))] *)
Definition read_all (interrupted : bool) (c : Z) : Z * option errno :=
  if interrupted then (c, Some EINTR)
  else if c =? 0 then (c, Some EAGAIN)
  else (0, None).

(** [while (call < 0 && errno == EINTR) {}] *)
Fixpoint retry (call : bool -> Z -> Z * option errno) (interrupts : list bool) (c : Z) : res Z :=
  match interrupts with
  | [] => NoFuel
  | i :: interrupts =>
      let '(c, e) := call i c in
      if bool_decide (e = Some EINTR) then retry call interrupts c else Ok c
  end.

Definition Notify (e : EventFd) (interrupts : list bool) : res EventFd :=
  if fd_ e <? 0 then Ok e
  else c ← retry write_one interrupts (counter e); Ok (mkEventFd (fd_ e) c).

Definition Drain (e : EventFd) (interrupts : list bool) : res EventFd :=
  if fd_ e <? 0 then Ok e
  else c ← retry read_all interrupts (counter e); Ok (mkEventFd (fd_ e) c).

(** Level-triggered [EPOLLIN]. *)
Definition readable (e : EventFd) : bool := (0 <=? fd_ e) && (0 <? counter e).

(** ** What the loops come to *)

(** The effect of a call that is not interrupted for ever. *)
Definition notified (e : EventFd) : EventFd :=
  if fd_ e <? 0 then e else mkEventFd (fd_ e) ((counter e + 1) `min` counter_max).

Definition drained (e : EventFd) : EventFd :=
  if fd_ e <? 0 then e else mkEventFd (fd_ e) 0.

Definition event_ok (e : EventFd) : Prop := 0 <= counter e <= counter_max.

(** The kernel lets the call through at last. *)
Definition gets_through (interrupts : list bool) : Prop := false ∈ interrupts.

Lemma retry_through call interrupts c :
  gets_through interrupts -> call true c = (c, Some EINTR) -> snd (call false c) <> Some EINTR ->
  retry call interrupts c = Ok (fst (call false c)).
Proof.
  intros Hi Ht Hf. induction interrupts as [|[] interrupts IH]; cbn [retry]; [inversion Hi| |].
  - rewrite Ht. cbn. apply elem_of_cons in Hi as [?|Hi]; [done|]. by apply IH.
  - destruct (call false c) as [c' e]. cbn in *. by rewrite bool_decide_false.
Qed.

Lemma Notify_through e interrupts : event_ok e -> gets_through interrupts ->
  Notify e interrupts = Ok (notified e).
Proof.
  intros He Hi. unfold Notify, notified. destruct (fd_ e <? 0); [done|].
  rewrite (retry_through write_one) by (try done; unfold write_one; by case_match).
  cbn. unfold write_one. case_match; reflect_bools; cbn; unfold event_ok in *; do 3 f_equal; lia.
Qed.

Lemma Drain_through e interrupts : gets_through interrupts -> Drain e interrupts = Ok (drained e).
Proof.
  intros Hi. unfold Drain, drained. destruct (fd_ e <? 0); [done|].
  rewrite (retry_through read_all) by (try done; unfold read_all; by case_match).
  cbn. unfold read_all. case_match; reflect_bools; cbn; do 3 f_equal; lia.
Qed.

Lemma notified_ok e : event_ok e -> event_ok (notified e).
Proof. unfold event_ok, notified, counter_max. intros He. case_match; cbn; lia. Qed.

Lemma drained_ok e : event_ok e -> event_ok (drained e).
Proof. unfold event_ok, drained, counter_max. intros He. case_match; cbn; lia. Qed.

Lemma notified_fd e : fd_ (notified e) = fd_ e.
Proof. unfold notified. by case_match. Qed.

Lemma drained_fd e : fd_ (drained e) = fd_ e.
Proof. unfold drained. by case_match. Qed.

(** Also when the counter is full: the failed write leaves it positive. *)
Lemma notified_readable e : 0 <= fd_ e -> event_ok e -> readable (notified e) = true.
Proof.
  intros Hf He. unfold readable. rewrite notified_fd. unfold notified.
  rewrite (proj2 (Z.ltb_ge _ _) Hf), (proj2 (Z.leb_le _ _) Hf). cbn.
  apply Z.ltb_lt. unfold event_ok, counter_max in *. lia.
Qed.

Lemma drained_not_readable e : readable (drained e) = false.
Proof.
  unfold readable, drained. destruct (fd_ e <? 0) eqn:Hf; reflect_bools; [|by rewrite andb_false_r].
  by rewrite (proj2 (Z.leb_gt _ _) Hf).
Qed.

#[export] Hint Resolve notified_ok drained_ok : myredis.

(** ** Any number of threads *)

(** A call by some thread, with the interruptions it meets. *)
Inductive event_call := CallNotify (interrupts : list bool) | CallDrain (interrupts : list bool).

Definition call_interrupts (c : event_call) : list bool :=
  match c with CallNotify i | CallDrain i => i end.

Definition run_call (e : EventFd) (c : event_call) : res EventFd :=
  match c with CallNotify i => Notify e i | CallDrain i => Drain e i end.

Fixpoint run_calls (e : EventFd) (cs : list event_call) : res EventFd :=
  match cs with [] => Ok e | c :: cs => e ← run_call e c; run_calls e cs end.

(** A notification is pending: the last call was one. *)
Definition pending_wakeup (cs : list event_call) : bool :=
  match last cs with Some (CallNotify _) => true | _ => false end.

Lemma run_calls_spec cs : forall e, 0 <= fd_ e -> event_ok e ->
  Forall (gets_through ∘ call_interrupts) cs ->
  exists e', run_calls e cs = Ok e' /\ fd_ e' = fd_ e /\ event_ok e'
    /\ readable e' = match cs with [] => readable e | _ => pending_wakeup cs end.
Proof.
  induction cs as [|c cs IH] using rev_ind; intros e Hf He Hall; [by exists e|].
  apply Forall_app in Hall as [Hall Hc]. apply Forall_cons in Hc as [Hc _].
  destruct (IH e Hf He Hall) as (e1 & E1 & F1 & O1 & _).
  assert (run_calls e (cs ++ [c]) = run_call e1 c) as ->.
  { clear Hf He IH Hall F1 O1. revert e E1. induction cs as [|c' cs IHc]; intros e E1; cbn in *.
    - injection E1 as ->. by destruct (run_call e1 c).
    - inv_bind E1. rewrite Ha. cbn. by apply IHc. }
  assert (pending_wakeup (cs ++ [c]) = match c with CallNotify _ => true | _ => false end) as Hp
    by (unfold pending_wakeup; by rewrite last_snoc).
  destruct (cs ++ [c]) eqn:Hn; [by destruct cs|]. rewrite Hp.
  destruct c as [i|i]; cbn [run_call call_interrupts compose] in *.
  - rewrite (Notify_through _ _ O1 Hc). eexists. split; [done|].
    rewrite notified_fd, notified_readable by (done || lia). auto with myredis.
  - rewrite (Drain_through _ _ Hc). eexists. split; [done|].
    rewrite drained_fd, drained_not_readable. auto with myredis.
Qed.

(** ** Theorem *)

(** C32. A wake-up is never lost and never left over: whatever calls any
    threads make on an eventfd that could be created and however often signals
    interrupt them, as long as no call is interrupted forever, every loop ends, the counter stays within the 64 bits the kernel keeps, and the
    descriptor is readable exactly when a [Notify] came after the last
    [Drain], even when the counter was full. *)
Theorem wakeup_pending_iff (created : Z) (cs : list event_call) :
  0 <= created -> Forall (gets_through ∘ call_interrupts) cs ->
  exists e', run_calls (new_event_fd created) cs = Ok e'
    /\ 0 <= counter e' <= counter_max /\ readable e' = pending_wakeup cs.
Proof.
  intros Hf Hall. destruct (run_calls_spec cs (new_event_fd created) Hf) as (e' & E & _ & O & R).
  - unfold event_ok. cbn. unfold counter_max. lia.
  - done.
  - exists e'. split_and!; [done|apply O..|]. rewrite R. destruct cs; [|done].
    unfold readable. cbn. by rewrite andb_false_r.
Qed.

Lemma wakeup_pending_iff_witness :
  exists e', run_calls (new_event_fd 9)
      [CallNotify [true; false]; CallNotify [false]; CallDrain [true; true; false]; CallNotify [false]] = Ok e'
    /\ 0 <= counter e' <= counter_max /\ readable e' = true.
Proof.
  apply (wakeup_pending_iff 9 [CallNotify [true; false]; CallNotify [false];
    CallDrain [true; true; false]; CallNotify [false]]); [lia|].
  repeat apply Forall_cons_2; try apply Forall_nil_2; unfold compose, gets_through; cbn; set_solver.
Defined.
