(* ===== verification/IoThread.v ===== *)
(** * The IO thread: [v2/src/server/io_thread.{h,cc}], [connection.h], [messages.h]

    The state is the connections the thread owns, the messages it has pushed
    to its outbox, and the trace of the system calls it has made.  What the
    kernel answers ([recv], [send]) is an argument of the operations: a list
    of results, one per call, so that partial writes, would-block, signals,
    shutdown and errors are all inputs.  The outbox is the FIFO of
    [SpscQueue]: [Emit] retries while it is full, so a message is appended
    when the main thread has made room. *)

From S2P Require Import Prelude CxxString RespValue RespValueQueue.

(** ** Messages and connections *)

Inductive InboxMsg :=
| AssignConnection (fd : Z)
| WriteResponse (fd : Z) (response : bytes).

Inductive OutboxMsg :=
| CommandBatch (fd : Z) (values : list RespValue)
| Disconnect (fd : Z).

Record Connection := mkConnection {
  fd : Z;
  parse_queue : RespValueQueue;
  out_buffer : bytes
}.

(** [Connection(client_fd)] *)
Definition new_connection (client_fd : Z) : Connection := mkConnection client_fd empty_queue [].

(** ** The kernel's answers and the calls made *)

(** Result of one [recv]: data, 0 (orderly shutdown), or -1 with [errno]. *)
Inductive recv_result :=
| Received (data : bytes)
| RecvZero
| RecvError (e : errno).

(** Result of one [send]: a count, or -1 with [errno]. *)
Inductive send_result :=
| SendCount (n : nat)
| SendError (e : errno).

Inductive syscall :=
| SetNonBlocking (fd : Z)
| EpollAdd (fd : Z)
| EpollMod (fd : Z) (writable : bool)
| EpollDel (fd : Z)
| Close (fd : Z)
| Sent (fd : Z) (data : bytes)
| NotifyMain.

(** [result < 0 && (errno == EAGAIN || ...)], for a negative result. *)
Definition WouldBlockOrInterrupted (e : errno) : bool :=
  match e with EAGAIN | EWOULDBLOCK | EINTR => true | EOTHER => false end.

Record IoThread := mkIoThread {
  connections_ : gmap Z Connection;
  outbox_ : list OutboxMsg;
  trace : list syscall
}.

Definition io_init : IoThread := mkIoThread ∅ [] [].

Definition call (st : IoThread) (c : syscall) : IoThread :=
  mkIoThread (connections_ st) (outbox_ st) (trace st ++ [c]).

Definition set_connections (st : IoThread) (m : gmap Z Connection) : IoThread :=
  mkIoThread m (outbox_ st) (trace st).

(** ** Operations *)

(** [outbox_.Push(msg)] until it succeeds, then [command_event_.Notify()]. *)
Definition Emit (st : IoThread) (msg : OutboxMsg) : IoThread :=
  call (mkIoThread (connections_ st) (outbox_ st ++ [msg]) (trace st)) NotifyMain.

Definition CloseConnection (st : IoThread) (client_fd : Z) (notify_main : bool) : IoThread :=
  match connections_ st !! client_fd with
  | None => st
  | Some _ =>
      let st := call st (EpollDel client_fd) in
      let st := call st (Close client_fd) in
      let st := set_connections st (delete client_fd (connections_ st)) in
      if notify_main then Emit st (Disconnect client_fd) else st
  end.

Definition UpdateEpoll (st : IoThread) (client_fd : Z) (writable : bool) : IoThread :=
  call st (EpollMod client_fd writable).

(** The loop of [ReadIntoParseQueue]: the queue and whether the connection is
    alive. *)
Fixpoint ReadIntoParseQueue (recvs : list recv_result) (q : RespValueQueue)
    : RespValueQueue * res bool :=
  match recvs with
  | Received data :: recvs =>
      if bool_decide (data = []) then (q, Ok false)
      else ReadIntoParseQueue recvs (PushString q data)
  | RecvZero :: _ => (q, Ok false)
  | RecvError e :: _ => (q, Ok (WouldBlockOrInterrupted e))
  | [] => (q, NoFuel)
  end.

(** [EmitParsedCommands] on the queue of the connection [fd]: the queue it
    leaves, and the message pushed, or the exception of [PopValue]. *)
Definition EmitParsedCommands (st : IoThread) (conn : Connection) : IoThread * Connection * res unit :=
  let '(q, r) := pop_all (parse_queue conn) in
  let conn := mkConnection (fd conn) q (out_buffer conn) in
  match r with
  | Ok batch =>
      (if bool_decide (batch = []) then st else Emit st (CommandBatch (fd conn) batch), conn, Ok tt)
  | Throw e => (st, conn, Throw e)
  | Undef w => (st, conn, Undef w)
  | NoFuel => (st, conn, NoFuel)
  end.

Definition HandleReadable (st : IoThread) (client_fd : Z) (recvs : list recv_result) : res IoThread :=
  match connections_ st !! client_fd with
  | None => Ok st
  | Some conn =>
      let '(q, r) := ReadIntoParseQueue recvs (parse_queue conn) in
      alive ← r;
      let '(st, conn, r) := EmitParsedCommands st (mkConnection (fd conn) q (out_buffer conn)) in
      let st := set_connections st (<[client_fd := conn]> (connections_ st)) in
      well_formed ← match r with
                    | Ok _ => Ok true
                    | Throw (InvalidArgument _) => Ok false
                    | Throw e => Throw e
                    | Undef w => Undef w
                    | NoFuel => NoFuel
                    end;
      if negb alive || negb well_formed then Ok (CloseConnection st client_fd true) else Ok st
  end.

(** How the [while] loop of [FlushOutBuffer] ends. *)
Inductive flush_end := Flushed (sent : nat) | FatalWrite.

Fixpoint flush_loop (sends : list send_result) (st : IoThread) (conn : Connection) (sent : nat)
    : res (IoThread * flush_end) :=
  if (sent <? length (out_buffer conn))%nat then
    match sends with
    | [] => NoFuel
    | SendCount n :: sends =>
        if (0 <? n)%nat then
          flush_loop sends (call st (Sent (fd conn) (take n (drop sent (out_buffer conn)))))
            conn (sent + n)
        else Ok (st, FatalWrite)
    | SendError e :: _ =>
        if WouldBlockOrInterrupted e then Ok (st, Flushed sent) else Ok (st, FatalWrite)
    end
  else Ok (st, Flushed sent).

(** [client_fd] is the key of [conn] in [connections_]. *)
Definition FlushOutBuffer (st : IoThread) (client_fd : Z) (conn : Connection)
    (sends : list send_result) : res IoThread :=
  '(st, e) ← flush_loop sends st conn 0;
  match e with
  | FatalWrite =>
      let conn := mkConnection (fd conn) (parse_queue conn) [] in
      let st := set_connections st (<[client_fd := conn]> (connections_ st)) in
      Ok (CloseConnection st (fd conn) true)
  | Flushed sent =>
      let conn := mkConnection (fd conn) (parse_queue conn) (drop sent (out_buffer conn)) in
      let st := set_connections st (<[client_fd := conn]> (connections_ st)) in
      Ok (UpdateEpoll st (fd conn) (negb (bool_decide (out_buffer conn = []))))
  end.

Definition HandleWritable (st : IoThread) (client_fd : Z) (sends : list send_result) : res IoThread :=
  match connections_ st !! client_fd with
  | None => Ok st
  | Some conn => FlushOutBuffer st client_fd conn sends
  end.

Definition HandleAssign (st : IoThread) (client_fd : Z) : IoThread :=
  let st := call st (SetNonBlocking client_fd) in
  (* try_emplace: an existing entry stays *)
  let st := match connections_ st !! client_fd with
            | Some _ => st
            | None => set_connections st (<[client_fd := new_connection client_fd]> (connections_ st))
            end in
  call st (EpollAdd client_fd).

Definition HandleWriteResponse (st : IoThread) (client_fd : Z) (response : bytes)
    (sends : list send_result) : res IoThread :=
  match connections_ st !! client_fd with
  | None => Ok st
  | Some conn =>
      FlushOutBuffer st client_fd
        (mkConnection (fd conn) (parse_queue conn) (out_buffer conn ++ response)) sends
  end.

(** The loop of [DrainInbox] over the messages popped; each reply is written
    with its own kernel answers. *)
Fixpoint DrainInbox (st : IoThread) (msgs : list (InboxMsg * list send_result)) : res IoThread :=
  match msgs with
  | [] => Ok st
  | (AssignConnection client_fd, _) :: msgs => DrainInbox (HandleAssign st client_fd) msgs
  | (WriteResponse client_fd response, sends) :: msgs =>
      st ← HandleWriteResponse st client_fd response sends;
      DrainInbox st msgs
  end.

(** One event of the epoll loop of [Run]: the inbox wakeup, an error, or a
    mask of readable and writable. *)
Inductive io_event :=
| InboxReady (msgs : list (InboxMsg * list send_result))
| SocketError (client_fd : Z)
| SocketReady (client_fd : Z) (readable : option (list recv_result))
    (writable : option (list send_result)).

Definition run_event (st : IoThread) (ev : io_event) : res IoThread :=
  match ev with
  | InboxReady msgs => DrainInbox st msgs
  | SocketError client_fd => Ok (CloseConnection st client_fd true)
  | SocketReady client_fd readable writable =>
      st ← match readable with
           | Some recvs => HandleReadable st client_fd recvs
           | None => Ok st
           end;
      match writable with
      | Some sends =>
          if bool_decide (is_Some (connections_ st !! client_fd)) then
            HandleWritable st client_fd sends
          else Ok st
      | None => Ok st
      end
  end.

(** ** What the thread has written to a socket *)

Definition sent_payload (k : Z) (c : syscall) : bytes :=
  match c with Sent f data => if bool_decide (f = k) then data else [] | _ => [] end.

Definition sent_to (k : Z) (st : IoThread) : bytes := flat_map (sent_payload k) (trace st).

Lemma sent_to_call k st c : sent_to k (call st c) = sent_to k st ++ sent_payload k c.
Proof.
  unfold sent_to, call. cbn [trace]. rewrite flat_map_app. cbn [flat_map]. by rewrite app_nil_r.
Qed.

(** [send] never accepts more than it was given. *)
Fixpoint send_contract (remaining : nat) (sends : list send_result) : Prop :=
  match sends with
  | SendCount n :: sends => (n <= remaining)%nat /\ send_contract (remaining - n) sends
  | _ => True
  end.

(** A list of answers that covers a buffer of [n] bytes: one answer per byte
    is always enough, since every successful call but an error moves a byte. *)
Definition answers (n : nat) (sends : list send_result) : Prop :=
  send_contract n sends /\ (n <= length sends)%nat.

Definition flush_count (e : flush_end) (n : nat) : Prop :=
  match e with Flushed m => m = n | FatalWrite => True end.

Lemma flush_loop_spec sends : forall st conn sent,
  (sent <= length (out_buffer conn))%nat ->
  answers (length (out_buffer conn) - sent) sends ->
  exists st' e n, flush_loop sends st conn sent = Ok (st', e)
    /\ connections_ st' = connections_ st /\ outbox_ st' = outbox_ st
    /\ (sent <= n <= length (out_buffer conn))%nat /\ flush_count e n
    /\ forall k, sent_to k st' = sent_to k st ++
         (if bool_decide (fd conn = k) then take (n - sent) (drop sent (out_buffer conn)) else []).
Proof.
  induction sends as [|r sends IH]; intros st conn sent Hle [Hc Hlen]; cbn [flush_loop].
  - cbn in Hlen. rewrite (proj2 (Nat.ltb_ge _ _)) by lia.
    exists st, (Flushed sent), sent. split_and!; try done. intros k. rewrite Nat.sub_diag, take_0.
    by case_match; rewrite app_nil_r.
  - assert (forall e, flush_count e sent -> exists st' e0 n, Ok (st, e) = Ok (st', e0)
      /\ connections_ st' = connections_ st /\ outbox_ st' = outbox_ st
      /\ (sent <= n <= length (out_buffer conn))%nat /\ flush_count e0 n
      /\ forall k, sent_to k st' = sent_to k st ++
         (if bool_decide (fd conn = k) then take (n - sent) (drop sent (out_buffer conn)) else [])) as Hstop.
    { intros e He. exists st, e, sent. split_and!; try done. intros k. rewrite Nat.sub_diag, take_0.
      by case_match; rewrite app_nil_r. }
    destruct (sent <? length (out_buffer conn))%nat eqn:Hlt; [|by apply Hstop].
    destruct r as [n|e]; [|destruct (WouldBlockOrInterrupted e); by apply Hstop].
    destruct (0 <? n)%nat eqn:Hn; [|by apply Hstop]. reflect_bools. cbn in Hc, Hlen.
    destruct Hc as [Hn2 Hc]. set (st1 := call st _).
    destruct (IH st1 conn (sent + n)%nat) as (st' & e & m & H1 & H2 & H3 & H4 & H5 & H6); [lia| |].
    { split; [|lia]. by replace (length (out_buffer conn) - (sent + n))%nat
        with (length (out_buffer conn) - sent - n)%nat by lia. }
    exists st', e, m. split_and!; try done; try lia. intros k. rewrite H6. unfold st1.
    rewrite sent_to_call. cbn [sent_payload]. destruct (bool_decide (fd conn = k)); [|by rewrite !app_nil_r].
    rewrite <- app_assoc. f_equal. replace (m - sent)%nat with (n + (m - (sent + n)))%nat by lia.
    by rewrite <- take_take_drop, drop_drop.
Qed.

(** ** The invariant of the thread *)

(** A connection is stored under its own descriptor, and between events its
    queue holds only bytes that do not make a complete value. *)
Definition connection_ok (k : Z) (c : Connection) : Prop :=
  fd c = k /\ values_ (parse_queue c) = [] /\
  is_incomplete (FromString (buffer_ (parse_queue c))) = true.

Definition io_inv (st : IoThread) : Prop := map_Forall connection_ok (connections_ st).

Lemma io_inv_init : io_inv io_init.
Proof. apply map_Forall_empty. Qed.

Lemma new_connection_ok k : connection_ok k (new_connection k).
Proof. done. Qed.

(** [CloseConnection]: the entry goes, one message is emitted, nothing is
    written. *)
Lemma CloseConnection_spec st k : is_Some (connections_ st !! k) ->
  connections_ (CloseConnection st k true) = delete k (connections_ st)
  /\ outbox_ (CloseConnection st k true) = outbox_ st ++ [Disconnect k]
  /\ (forall k', sent_to k' (CloseConnection st k true) = sent_to k' st).
Proof.
  intros [c Hc]. unfold CloseConnection. rewrite Hc. split_and!; [done|done|].
  intros k'. unfold Emit. rewrite sent_to_call. cbn [sent_payload]. rewrite app_nil_r.
  unfold sent_to. cbn. by rewrite !flat_map_app, !app_nil_r.
Qed.

(** *** Writing *)

(** What [FlushOutBuffer] does: either the socket took a prefix of the buffer
    and the rest is kept, with [EPOLLOUT] armed exactly when there is a rest;
    or the connection is closed. *)
Definition flushed (st st' : IoThread) (k : Z) (conn : Connection) : Prop :=
  (exists n, (n <= length (out_buffer conn))%nat
     /\ connections_ st' = <[k := mkConnection (fd conn) (parse_queue conn) (drop n (out_buffer conn))]> (connections_ st)
     /\ outbox_ st' = outbox_ st
     /\ sent_to k st' = sent_to k st ++ take n (out_buffer conn)
     /\ last (trace st') = Some (EpollMod k (negb (bool_decide (drop n (out_buffer conn) = [])))))
  \/ (exists n, connections_ st' = delete k (connections_ st)
     /\ outbox_ st' = outbox_ st ++ [Disconnect k]
     /\ sent_to k st' = sent_to k st ++ take n (out_buffer conn)).

Lemma sent_to_set_connections k st m : sent_to k (set_connections st m) = sent_to k st.
Proof. done. Qed.

Lemma FlushOutBuffer_spec st k conn sends :
  fd conn = k -> answers (length (out_buffer conn)) sends ->
  exists st', FlushOutBuffer st k conn sends = Ok st' /\ flushed st st' k conn
    /\ forall k', k' <> k -> sent_to k' st' = sent_to k' st.
Proof.
  intros Hk Ha. unfold FlushOutBuffer.
  destruct (flush_loop_spec sends st conn 0) as (st1 & e & n & -> & H2 & H3 & H4 & H5 & H6);
    [lia|by rewrite Nat.sub_0_r|].
  cbn [mbind res_bind]. pose proof (H6 k) as Hsk. rewrite bool_decide_true in Hsk by done.
  rewrite Nat.sub_0_r, drop_0 in Hsk.
  assert (forall k', k' <> k -> sent_to k' st1 = sent_to k' st) as Hother.
  { intros k' Hne. by rewrite H6, bool_decide_false, app_nil_r by congruence. }
  destruct e as [m|].
  - cbn in H5. subst m. eexists. split; [done|]. unfold UpdateEpoll. split.
    + left. exists n. split_and!; [lia|by cbn; rewrite H2|done| |].
      * by rewrite sent_to_call, app_nil_r, sent_to_set_connections.
      * cbn [trace call fd out_buffer]. rewrite last_snoc. by rewrite Hk.
    + intros k' Hne. rewrite sent_to_call, app_nil_r, sent_to_set_connections. by apply Hother.
  - eexists. split; [done|]. cbn [fd]. rewrite Hk.
    destruct (CloseConnection_spec
      (set_connections st1 (<[k := mkConnection k (parse_queue conn) []]> (connections_ st1))) k) as (C1 & C2 & C3).
    { cbn. rewrite lookup_insert_eq. done. }
    split; [right; exists n; split_and!|].
    + rewrite C1. cbn. by rewrite delete_insert_eq, H2.
    + by rewrite C2; cbn; rewrite H3.
    + by rewrite C3, sent_to_set_connections.
    + intros k' Hne. rewrite C3, sent_to_set_connections. by apply Hother.
Qed.

(** *** Reading *)

(** The chunks of one burst of [recv] calls that ends with [e]. *)
Definition burst (chunks : list bytes) (e : recv_result) : list recv_result :=
  (Received <$> chunks) ++ [e].

Lemma ReadIntoParseQueue_burst chunks e q :
  Forall (fun c => c <> []) chunks -> (forall d, e <> Received d) ->
  ReadIntoParseQueue (burst chunks e) q
  = (PushString q (concat chunks),
     Ok match e with RecvError x => WouldBlockOrInterrupted x | _ => false end).
Proof.
  intros Hc He. revert q. induction Hc as [|c chunks Hne _ IH]; intros q; cbn.
  - destruct e as [d| |x]; [by destruct (He d)| |]; unfold PushString; destruct q; by rewrite app_nil_r.
  - rewrite bool_decide_false by done. change (ReadIntoParseQueue _ ?q') with (ReadIntoParseQueue (burst chunks e) q').
    rewrite IH. unfold PushString. cbn. by rewrite app_assoc.
Qed.

Definition batch_msg (k : Z) (vs : list RespValue) : list OutboxMsg :=
  if bool_decide (vs = []) then [] else [CommandBatch k vs].

Definition recv_alive (e : recv_result) : bool :=
  match e with RecvError x => WouldBlockOrInterrupted x | _ => false end.

(** A burst of complete and incomplete requests. *)
Lemma HandleReadable_parses st k conn chunks e vs r :
  connections_ st !! k = Some conn -> connection_ok k conn ->
  Forall (fun c => c <> []) chunks -> (forall d, e <> Received d) ->
  small_str (buffer_ (parse_queue conn) ++ concat chunks) ->
  parses (buffer_ (parse_queue conn) ++ concat chunks) vs r ->
  exists st', HandleReadable st k (burst chunks e) = Ok st'
    /\ (forall k', sent_to k' st' = sent_to k' st)
    /\ (if recv_alive e then
          connections_ st' = <[k := mkConnection k (mkQueue r []) (out_buffer conn)]> (connections_ st)
          /\ outbox_ st' = outbox_ st ++ batch_msg k vs
        else
          connections_ st' = delete k (connections_ st)
          /\ outbox_ st' = outbox_ st ++ batch_msg k vs ++ [Disconnect k]).
Proof.
  intros Hk (Hfd & Hvals & _) Hc He Hs Hp. unfold HandleReadable. rewrite Hk.
  rewrite ReadIntoParseQueue_burst by done. fold (recv_alive e). cbn [mbind res_bind].
  unfold EmitParsedCommands, PushString. cbn [parse_queue fd out_buffer]. rewrite Hvals, Hfd.
  rewrite (pop_all_parses _ _ _ [] Hs Hp). cbn [app mbind res_bind].
  set (st1 := if bool_decide (vs = []) then st else _).
  assert (connections_ st1 = connections_ st) as C1 by (unfold st1; by case_match).
  assert (outbox_ st1 = outbox_ st ++ batch_msg k vs) as O1.
  { unfold st1, batch_msg. case_match; [by rewrite app_nil_r|done]. }
  assert (forall k', sent_to k' st1 = sent_to k' st) as S1.
  { intros k'. unfold st1. case_match; [done|]. unfold Emit. by rewrite sent_to_call, app_nil_r. }
  destruct (recv_alive e); cbn [negb orb].
  - eexists. split; [done|]. split; [done|]. split; [cbn; by rewrite C1|done].
  - eexists. split; [done|].
    match goal with |- context [CloseConnection ?s k true] => destruct (CloseConnection_spec s k) as (D1 & D2 & D3) end.
    { cbn. by rewrite lookup_insert_eq. }
    split; [intros k'; rewrite D3; apply S1|]. rewrite D1, D2. cbn.
    by rewrite delete_insert_eq, C1, O1, app_assoc.
Qed.

(** A burst that contains bytes that are not RESP: the connection is closed
    and the requests before those bytes in the same burst are not emitted. *)
Lemma HandleReadable_malformed st k conn chunks e vs r :
  connections_ st !! k = Some conn -> connection_ok k conn ->
  Forall (fun c => c <> []) chunks -> (forall d, e <> Received d) ->
  small_str (buffer_ (parse_queue conn) ++ concat chunks) ->
  malformed (buffer_ (parse_queue conn) ++ concat chunks) vs r ->
  exists st', HandleReadable st k (burst chunks e) = Ok st'
    /\ connections_ st' = delete k (connections_ st)
    /\ outbox_ st' = outbox_ st ++ [Disconnect k]
    /\ (forall k', sent_to k' st' = sent_to k' st).
Proof.
  intros Hk (Hfd & Hvals & _) Hc He Hs Hm. unfold HandleReadable. rewrite Hk.
  rewrite ReadIntoParseQueue_burst by done. cbn [mbind res_bind].
  unfold EmitParsedCommands, PushString. cbn [parse_queue fd out_buffer]. rewrite Hvals.
  destruct (pop_all_malformed _ _ _ [] Hs Hm) as [w ->]. cbn [app mbind res_bind negb].
  rewrite orb_true_r. eexists. split; [done|].
  match goal with |- context [CloseConnection ?s k true] => destruct (CloseConnection_spec s k) as (D1 & D2 & D3) end.
  { cbn. by rewrite lookup_insert_eq. }
  rewrite D1, D2. cbn. rewrite delete_insert_eq. done.
Qed.

(** *** The invariant is kept by every event *)

Lemma io_inv_delete st k m : io_inv st -> m = delete k (connections_ st) -> map_Forall connection_ok m.
Proof. intros Hi ->. by apply map_Forall_delete. Qed.

Lemma flushed_inv st st' k conn : io_inv st -> connection_ok k conn -> flushed st st' k conn -> io_inv st'.
Proof.
  intros Hi Hc [(n & _ & H & _)|(n & H & _)]; unfold io_inv; rewrite H.
  - apply map_Forall_insert_2; [|done]. by destruct Hc as (? & ? & ?).
  - by apply map_Forall_delete.
Qed.

Lemma CloseConnection_inv st k b : io_inv st -> io_inv (CloseConnection st k b).
Proof.
  intros Hi. unfold CloseConnection, io_inv. destruct (connections_ st !! k); [|done].
  destruct b; cbn; by apply map_Forall_delete.
Qed.

Lemma HandleAssign_inv st k : io_inv st -> io_inv (HandleAssign st k).
Proof.
  intros Hi. unfold HandleAssign, io_inv. cbn. destruct (connections_ st !! k); cbn; [done|].
  by apply map_Forall_insert_2.
Qed.

(** ** A connection's requests *)

(** Successive bursts, each ended by would-block. *)
Fixpoint read_bursts (st : IoThread) (k : Z) (bursts : list (list bytes)) : res IoThread :=
  match bursts with
  | [] => Ok st
  | chunks :: bursts =>
      st ← HandleReadable st k (burst chunks (RecvError EAGAIN));
      read_bursts st k bursts
  end.

(** The requests of one client in a list of messages. *)
Definition requests_of (k : Z) (msgs : list OutboxMsg) : list RespValue :=
  flat_map (fun m => match m with
                     | CommandBatch f vs => if bool_decide (f = k) then vs else []
                     | Disconnect _ => []
                     end) msgs.

Lemma requests_of_batch k vs : requests_of k (batch_msg k vs) = vs.
Proof.
  unfold batch_msg. case_bool_decide; [by subst|]. cbn. rewrite bool_decide_true by done. apply app_nil_r.
Qed.

Lemma read_bursts_parses k bursts : forall st conn vs r,
  connections_ st !! k = Some conn -> connection_ok k conn ->
  Forall (Forall (fun c => c <> [])) bursts ->
  small_str (buffer_ (parse_queue conn) ++ concat (concat bursts)) ->
  parses (buffer_ (parse_queue conn) ++ concat (concat bursts)) vs r ->
  exists st' msgs, read_bursts st k bursts = Ok st'
    /\ connections_ st' = <[k := mkConnection k (mkQueue r []) (out_buffer conn)]> (connections_ st)
    /\ outbox_ st' = outbox_ st ++ msgs /\ requests_of k msgs = vs
    /\ Forall (fun m => exists vs, m = CommandBatch k vs /\ vs <> []) msgs
    /\ (forall k', sent_to k' st' = sent_to k' st).
Proof.
  induction bursts as [|chunks bursts IH]; intros st conn vs r Hk Hok Hall Hs Hp.
  - cbn in *. rewrite app_nil_r in *. exists st, []. rewrite app_nil_r.
    destruct Hok as (Hfd & Hv & Hi). inversion Hp as [b Hb|? ? ? ? ? Hb]; subst; [|by rewrite Hb in Hi].
    split_and!; try done. symmetry. apply insert_id. rewrite Hk. f_equal.
    destruct conn as [f [b vl] o]. cbn in *. by subst.
  - apply Forall_cons in Hall as [Hc Hall]. cbn [concat] in *.
    rewrite concat_app, app_assoc in *. pose proof (small_str_app _ _ Hs) as Hs1.
    destruct (parses_split _ _ _ _ Hs Hp) as (vs1 & r1 & vs2 & Hp1 & Hp2 & ->).
    destruct (HandleReadable_parses st k conn chunks (RecvError EAGAIN) vs1 r1 Hk Hok Hc ltac:(done) Hs1 Hp1)
      as (st1 & E1 & S1 & C1 & O1). cbn [read_bursts]. rewrite E1. cbn [mbind res_bind].
    destruct (IH st1 (mkConnection k (mkQueue r1 []) (out_buffer conn)) vs2 r) as (st2 & msgs & E2 & C2 & O2 & R2 & F2 & S2).
    + rewrite C1. apply lookup_insert_eq.
    + split_and!; try done. cbn. by apply parses_rest in Hp1.
    + done.
    + cbn. pose proof (parses_length _ _ _ Hs1 Hp1). unfold small_str in *. rewrite !length_app in *. lia.
    + done.
    + exists st2, (batch_msg k vs1 ++ msgs). rewrite E2, C2, C1, O2, O1, insert_insert_eq.
      split_and!; try done.
      * by rewrite app_assoc.
      * unfold requests_of. rewrite flat_map_app. fold (requests_of k). unfold requests_of in R2. rewrite R2.
        f_equal. apply requests_of_batch.
      * apply Forall_app. split; [|done]. unfold batch_msg. case_bool_decide; [done|].
        repeat constructor. eauto.
      * intros k'. by rewrite S2, S1.
Qed.

(** A new connection through all its requests. *)
Lemma read_bursts_session st k bursts vs :
  connections_ st !! k = None ->
  Forall (Forall (fun c => c <> [])) bursts -> Forall serializable vs ->
  concat (concat bursts) = flat_map Serialize vs -> small_str (concat (concat bursts)) ->
  exists st' msgs, read_bursts (HandleAssign st k) k bursts = Ok st'
    /\ outbox_ st' = outbox_ st ++ msgs /\ requests_of k msgs = vs
    /\ Forall (fun m => exists vs, m = CommandBatch k vs /\ vs <> []) msgs
    /\ connections_ st' = <[k := new_connection k]> (connections_ st)
    /\ (forall k', sent_to k' st' = sent_to k' st).
Proof.
  intros Hk Hb Hv Hc Hs.
  assert (connections_ (HandleAssign st k) = <[k := new_connection k]> (connections_ st)) as HA.
  { unfold HandleAssign. cbn. by rewrite Hk. }
  destruct (read_bursts_parses k bursts (HandleAssign st k) (new_connection k) vs [])
    as (st' & msgs & E & C & O & R & F & S).
  - rewrite HA. apply lookup_insert_eq.
  - apply new_connection_ok.
  - done.
  - done.
  - cbn [new_connection parse_queue empty_queue buffer_ app]. rewrite Hc in *. by apply parses_serialized.
  - exists st', msgs. split_and!; [done| |done|done| |].
    + rewrite O. unfold HandleAssign. cbn. by rewrite Hk.
    + rewrite C, HA, insert_insert_eq. done.
    + intros k'. rewrite S. unfold HandleAssign. rewrite sent_to_call. cbn [sent_payload]. rewrite app_nil_r.
      destruct (connections_ _ !! k); rewrite ?sent_to_set_connections, sent_to_call; by rewrite app_nil_r.
Qed.

(** ** A connection's replies *)

Definition pending (k : Z) (st : IoThread) : bytes :=
  match connections_ st !! k with Some c => out_buffer c | None => [] end.

(** The kernel's side of one flush: its answers for a buffer of a given size. *)
Abbreviation kernel := (nat -> list send_result).
Definition kernel_ok (ker : kernel) : Prop := forall n, answers n (ker n).

(** A reply arrives ([HandleWriteResponse]), or the socket becomes writable
    again ([HandleWritable]). *)
Definition write_event (st : IoThread) (k : Z) (ev : option bytes * kernel) : res IoThread :=
  match ev with
  | (Some response, ker) =>
      HandleWriteResponse st k response (ker (length (pending k st ++ response)))
  | (None, ker) => HandleWritable st k (ker (length (pending k st)))
  end.

Fixpoint write_events (st : IoThread) (k : Z) (evs : list (option bytes * kernel)) : res IoThread :=
  match evs with
  | [] => Ok st
  | ev :: evs => st ← write_event st k ev; write_events st k evs
  end.

Definition response_of (ev : option bytes * kernel) : bytes := default [] (fst ev).

Lemma prefix_take_l (a b : bytes) n : a ++ take n b `prefix_of` a ++ b.
Proof. apply prefix_app, prefix_take. Qed.

Lemma write_event_spec st k ev conn :
  io_inv st -> connections_ st !! k = Some conn -> kernel_ok (snd ev) ->
  exists st', write_event st k ev = Ok st' /\ io_inv st'
    /\ sent_to k st' `prefix_of` sent_to k st ++ pending k st ++ response_of ev
    /\ (forall conn', connections_ st' !! k = Some conn' ->
          sent_to k st' ++ pending k st' = sent_to k st ++ pending k st ++ response_of ev).
Proof.
  intros Hi Hk Hker. pose proof (map_Forall_lookup_1 _ _ _ _ Hi Hk) as Hok.
  set (buf := pending k st ++ response_of ev).
  assert (exists st', write_event st k ev = Ok st'
            /\ flushed st st' k (mkConnection k (parse_queue conn) buf)) as (st' & -> & Hf).
  { destruct Hok as (Hfd & _). destruct ev as [[response|] ker]; cbn [write_event response_of fst snd default] in *.
    - unfold HandleWriteResponse. rewrite Hk, Hfd. unfold pending. rewrite Hk.
      destruct (FlushOutBuffer_spec st k (mkConnection k (parse_queue conn) (out_buffer conn ++ response))
        (ker (length (out_buffer conn ++ response)))) as (st' & H1 & H2 & _); [done|apply Hker|].
      exists st'. split; [done|]. subst buf. unfold pending. by rewrite Hk.
    - unfold HandleWritable. rewrite Hk. unfold pending. rewrite Hk.
      destruct (FlushOutBuffer_spec st k conn (ker (length (out_buffer conn)))) as (st' & H1 & H2 & _);
        [done|apply Hker|].
      exists st'. split; [done|]. subst buf. unfold pending. rewrite Hk, app_nil_r. cbn.
      destruct conn as [f q o]. cbn in *. by subst. }
  exists st'. split; [done|]. split; [eapply flushed_inv; [done| |done]; by destruct Hok as (? & ? & ?)|].
  destruct Hf as [(n & Hn & C & _ & Hs & _)|(n & C & _ & Hs)]; cbn [out_buffer fd parse_queue] in *; rewrite Hs.
  - split; [apply prefix_take_l|]. intros conn' _. unfold pending at 1. rewrite C, lookup_insert_eq. cbn.
    rewrite <- app_assoc. by rewrite take_drop.
  - split; [apply prefix_take_l|]. intros conn'. rewrite C, lookup_delete_eq. done.
Qed.

Lemma write_events_spec evs : forall st k conn,
  io_inv st -> connections_ st !! k = Some conn -> Forall (kernel_ok ∘ snd) evs ->
  exists st', write_events st k evs = Ok st' /\ io_inv st'
    /\ sent_to k st' `prefix_of` sent_to k st ++ pending k st ++ flat_map response_of evs
    /\ (forall conn', connections_ st' !! k = Some conn' ->
          sent_to k st' ++ pending k st' = sent_to k st ++ pending k st ++ flat_map response_of evs).
Proof.
  assert (forall evs st k, connections_ st !! k = None -> write_events st k evs = Ok st) as Hdead.
  { intros l. induction l as [|[[response|] ker] l IH]; intros st k Hk; cbn; [done| |];
      unfold HandleWriteResponse, HandleWritable; rewrite Hk; by apply IH. }
  induction evs as [|ev evs IH]; intros st k conn Hi Hk Hall; cbn [write_events flat_map].
  - exists st. rewrite app_nil_r. split_and!; [done|done|by apply prefix_app_r|done].
  - apply Forall_cons in Hall as [Hev Hall].
    destruct (write_event_spec st k ev conn Hi Hk Hev) as (st1 & -> & Hi1 & Hp1 & Hc1). cbn [mbind res_bind].
    destruct (connections_ st1 !! k) as [conn1|] eqn:Hk1.
    + specialize (Hc1 conn1 eq_refl).
      destruct (IH st1 k conn1 Hi1 Hk1 Hall) as (st2 & -> & Hi2 & Hp2 & Hc2).
      exists st2. rewrite (app_assoc (sent_to k st1)), Hc1, <- !app_assoc in Hp2.
      split_and!; [done|done|done|]. intros conn' Hk'. rewrite (Hc2 conn' Hk').
      by rewrite (app_assoc (sent_to k st1)), Hc1, <- !app_assoc.
    + rewrite (Hdead evs st1 k Hk1). exists st1. split_and!; [done|done| |by rewrite Hk1].
      etransitivity; [exact Hp1|]. rewrite !app_assoc. by apply prefix_app_r.
Qed.

(** ** Theorems *)

(** Requests reach the main thread complete and in order: whatever bursts
    and chunks the bytes of the requests [vs] arrive in, the messages a new
    connection emits are non-empty batches of its own whose requests, put
    together, are exactly [vs]; the connection stays open with nothing left
    in its buffer, and the other connections are untouched. *)
Theorem io_requests_in_order st k (bursts : list (list bytes)) vs :
  connections_ st !! k = None ->
  Forall (Forall (fun c => c <> [])) bursts ->
  Forall serializable vs -> concat (concat bursts) = flat_map Serialize vs ->
  small_str (concat (concat bursts)) ->
  exists st' msgs, read_bursts (HandleAssign st k) k bursts = Ok st'
    /\ outbox_ st' = outbox_ st ++ msgs /\ requests_of k msgs = vs
    /\ Forall (fun m => exists vs, m = CommandBatch k vs /\ vs <> []) msgs
    /\ connections_ st' = <[k := new_connection k]> (connections_ st).
Proof.
  intros Hk Hb Hv Hc Hs.
  destruct (read_bursts_session st k bursts vs Hk Hb Hv Hc Hs) as (st' & msgs & E & O & R & F & C & _).
  exists st', msgs. done.
Qed.

(** C13. Replies reach the client in order: through any sequence of replies and
    writable events, with any partial writes, interruptions and would-blocks
    the kernel answers, the bytes written to the socket are at every moment a
    prefix of the replies in the order they were posted, and as long as the
    connection is open the bytes written followed by the bytes pending are
    exactly those replies: nothing is lost, duplicated or reordered. *)
Theorem io_replies_in_order st k conn (evs : list (option bytes * kernel)) :
  io_inv st -> connections_ st !! k = Some conn -> Forall (kernel_ok ∘ snd) evs ->
  exists st', write_events st k evs = Ok st'
    /\ sent_to k st' `prefix_of` sent_to k st ++ pending k st ++ flat_map response_of evs
    /\ (is_Some (connections_ st' !! k) ->
          sent_to k st' ++ pending k st' = sent_to k st ++ pending k st ++ flat_map response_of evs).
Proof.
  intros Hi Hk Hall. destruct (write_events_spec evs st k conn Hi Hk Hall) as (st' & H1 & _ & H2 & H3).
  exists st'. split_and!; [done|done|]. intros [c Hc]. by eapply H3.
Qed.

(** What a client gets for requests followed by a protocol error depends
    on how the kernel cut the bytes: in one burst, the valid requests in front
    of the error are dropped without being executed; if the error arrives in
    the next burst they have already been handed over. *)
Theorem error_drops_pipelined_requests st k v garbage w :
  connections_ st !! k = Some (new_connection k) -> serializable v ->
  FromString garbage = Throw (InvalidArgument w) -> small_str (Serialize v ++ garbage) ->
  garbage <> [] ->
  (exists st', read_bursts st k [[Serialize v ++ garbage]] = Ok st'
     /\ outbox_ st' = outbox_ st ++ [Disconnect k])
  /\ (exists st', read_bursts st k [[Serialize v]; [garbage]] = Ok st'
     /\ outbox_ st' = outbox_ st ++ [CommandBatch k [v]; Disconnect k]).
Proof.
  intros Hk Hv Hg Hs Hne. pose proof (new_connection_ok k) as Hok.
  assert (Serialize v <> []) as Hsv by (by destruct v as [| | |[b|]|]).
  pose proof (small_str_app _ _ Hs) as Hs1. split.
  - destruct (HandleReadable_malformed st k (new_connection k) [Serialize v ++ garbage] (RecvError EAGAIN) [v] garbage)
      as (st1 & E1 & _ & O1 & _); cbn [concat new_connection parse_queue empty_queue buffer_ app];
      rewrite ?app_nil_r; try done.
    + repeat constructor. by destruct (Serialize v).
    + econstructor; [by apply FromString_reads_back|]. rewrite drop_app_length. by econstructor.
    + exists st1. cbn [read_bursts]. rewrite E1. done.
  - destruct (HandleReadable_parses st k (new_connection k) [Serialize v] (RecvError EAGAIN) [v] [])
      as (st1 & E1 & _ & C1 & O1); cbn [concat new_connection parse_queue empty_queue buffer_ app];
      rewrite ?app_nil_r; try done.
    { by repeat constructor. }
    { rewrite <- (app_nil_r (Serialize v)). econstructor; [apply FromString_reads_back; by rewrite ?app_nil_r|].
      rewrite drop_app_length. by constructor. }
    destruct (HandleReadable_malformed st1 k (mkConnection k (mkQueue [] []) []) [garbage] (RecvError EAGAIN) [] garbage)
      as (st2 & E2 & _ & O2 & _); cbn [concat parse_queue buffer_ app]; rewrite ?app_nil_r; try done.
    + rewrite C1. apply lookup_insert_eq.
    + by repeat constructor.
    + unfold small_str in *. rewrite length_app in Hs. lia.
    + by econstructor.
    + exists st2. cbn [read_bursts]. rewrite E1. cbn [mbind res_bind]. rewrite E2. cbn [mbind res_bind].
      split; [done|]. by rewrite O2, O1, <- app_assoc.
Qed.

(** *** Witnesses *)

Definition ping : RespValue := RespArray [RespBulkString (Some (lit "PING"))].

Lemma io_requests_in_order_witness :
  exists st' msgs, read_bursts (HandleAssign io_init 7) 7
      [[lit "*1"; crlf ++ lit "$4" ++ crlf ++ lit "PI"]; [lit "NG"]; [crlf ++ Serialize ping]] = Ok st'
    /\ outbox_ st' = [] ++ msgs /\ requests_of 7 msgs = [ping; ping]
    /\ Forall (fun m => exists vs, m = CommandBatch 7 vs /\ vs <> []) msgs
    /\ connections_ st' = <[7 := new_connection 7]> ∅.
Proof.
  apply (io_requests_in_order io_init 7); [reflexivity| |repeat constructor|reflexivity|reflexivity].
  repeat constructor; discriminate.
Defined.

(** A kernel that takes one byte per call, then would block. *)
Definition one_byte_kernel : kernel := fun n =>
  match n with O => [] | S n => SendCount 1 :: replicate (S n) (SendError EAGAIN) end.

Lemma one_byte_kernel_ok : kernel_ok one_byte_kernel.
Proof.
  intros [|n]; split; cbn; try done; try lia. rewrite length_replicate. lia.
Qed.

Lemma io_replies_in_order_witness :
  exists st', write_events (HandleAssign io_init 7) 7
      [(Some (lit "+OK"), one_byte_kernel); (None, one_byte_kernel); (Some (lit ":1"), one_byte_kernel)] = Ok st'
    /\ sent_to 7 st' `prefix_of` [] ++ [] ++ lit "+OK:1"
    /\ (is_Some (connections_ st' !! 7) -> sent_to 7 st' ++ pending 7 st' = [] ++ [] ++ lit "+OK:1").
Proof.
  apply (io_replies_in_order (HandleAssign io_init 7) 7 (new_connection 7)
    [(Some (lit "+OK"), one_byte_kernel); (None, one_byte_kernel); (Some (lit ":1"), one_byte_kernel)]).
  - apply HandleAssign_inv, io_inv_init.
  - reflexivity.
  - repeat constructor; apply one_byte_kernel_ok.
Defined.

Lemma error_drops_pipelined_requests_witness :
  (exists st', read_bursts (HandleAssign io_init 7) 7 [[Serialize ping ++ lit "?"]] = Ok st'
     /\ outbox_ st' = [] ++ [Disconnect 7])
  /\ (exists st', read_bursts (HandleAssign io_init 7) 7 [[Serialize ping]; [lit "?"]] = Ok st'
     /\ outbox_ st' = [] ++ [CommandBatch 7 [ping]; Disconnect 7]).
Proof.
  destruct (FromString (lit "?")) as [|[|w|]| |] eqn:E; vm_compute in E; try discriminate E.
  apply (error_drops_pipelined_requests (HandleAssign io_init 7) 7 ping (lit "?") w);
    [reflexivity|repeat constructor|exact E|reflexivity|discriminate].
Defined.
