(* ===== verification/Server.v ===== *)
(** * The main thread: [v2/src/server/server.{h,cc}]

    The main thread owns the store and executes every command.  Its state is
    the store, the routing table from client descriptors to IO threads, the
    round-robin cursor, the messages posted to each IO thread's inbox (the
    FIFO of [SpscQueue]; [PostAssign] and [PostResponse] retry while it is
    full), the snapshot children, and the descriptors its epoll set watches.
    [clock n] is what [NowMs] returns during the [n]-th command.  What the
    kernel returns ([accept], [fork], [pidfd_open]) is an argument. *)

From S2P Require Import Prelude CxxString RespValue RespValueQueue MapInterface Store Handlers CommandSpec IoThread.
Import RequestDispatcher.

(** ** Configuration *)

Definition millisecondsInSecond : Z := 1000.
Definition nanosecondsInMillisecond : Z := 1000000.

(** Seconds and nanoseconds; [/] and [%] truncate towards zero. *)
Definition ConvertMills (mills : Z) : Z * Z :=
  (Z.quot mills millisecondsInSecond,
   Z.rem mills millisecondsInSecond * nanosecondsInMillisecond).

(** The descriptor and the period armed, or the status the process exits with;
    [timer_fd] and [settime_result] are what [timerfd_create] and
    [timerfd_settime] return. *)
Definition CreateTimerIntervalFd (snapshot_interval timer_fd settime_result : Z)
    : exits (Z * option (Z * Z)) :=
  if snapshot_interval <=? 0 then Returns (snapshot_interval, None)
  else if timer_fd =? -1 then Exits 1
  else if settime_result =? -1 then Exits 1
  else Returns (timer_fd, Some (ConvertMills snapshot_interval)).

Definition NumIoThreads (hardware : nat) : nat := if (1 <? hardware)%nat then (hardware - 1)%nat else 1%nat.

(** The loop of the constructor over the descriptors to watch. *)
Definition watched_fds (listen_fd_ command_fd snapshot_fd_ : Z) : list Z :=
  filter (fun watched_fd => watched_fd <> -1) [listen_fd_; command_fd; snapshot_fd_].

(** ** State *)

Section Server.
Context {M : Type} {ops : MapOps bytes Entry M}.
Context (clock : nat -> Z).

Record Server := mkServer {
  store_ : M;
  executed : nat;  (** commands executed so far: the index into [clock] *)
  inboxes : list (list InboxMsg);  (** of [io_threads_], by index *)
  fd_to_thread_ : gmap Z nat;
  next_thread_ : nat;
  snapshot_children_ : gmap Z Z;
  watching : list Z;  (** pidfds in the epoll set *)
  reaped : list Z  (** pids passed to [waitpid] *)
}.

Definition server_init (store : M) (hardware : nat) : Server :=
  mkServer store 0 (replicate (NumIoThreads hardware) []) ∅ 0 ∅ [] [].

(** [io_threads_[i]->Post...(msg)] *)
Definition post (s : Server) (i : nat) (msg : InboxMsg) : Server :=
  mkServer (store_ s) (executed s) (alter (fun inbox => inbox ++ [msg]) i (inboxes s))
    (fd_to_thread_ s) (next_thread_ s) (snapshot_children_ s) (watching s) (reaped s).

Definition PostAssign (s : Server) (i : nat) (client_fd : Z) : Server := post s i (AssignConnection client_fd).

Definition PostResponse (s : Server) (i : nat) (client_fd : Z) (response : bytes) : Server :=
  post s i (WriteResponse client_fd response).

Definition AssignToIoThread (s : Server) (client_fd : Z) : Server :=
  let thread_index := next_thread_ s in
  let s := mkServer (store_ s) (executed s) (inboxes s)
             (<[client_fd := thread_index]> (fd_to_thread_ s))
             ((next_thread_ s + 1) mod length (inboxes s)) (snapshot_children_ s) (watching s) (reaped s) in
  PostAssign s thread_index client_fd.

(** The loop of [AcceptConnections] over what [accept] returns before -1. *)
Definition AcceptConnections (s : Server) (accepted : list Z) : Server :=
  fold_left AssignToIoThread accepted s.

Definition Execute (d : M) (now : Z) (request : RespValue) : res (M * bytes) :=
  '(d, reply) ← Dispatch d now request;
  Ok (d, Serialize reply).

(** The loop of [ExecuteAndRespond]. *)
Fixpoint execute_batch (d : M) (n : nat) (values : list RespValue) (response : bytes)
    : res (M * nat * bytes) :=
  match values with
  | [] => Ok (d, n, response)
  | value :: values =>
      '(d, reply) ← Execute d (clock n) value;
      execute_batch d (S n) values (response ++ reply)
  end.

Definition ExecuteAndRespond (s : Server) (batch_fd : Z) (values : list RespValue) : res Server :=
  '(d, n, response) ← execute_batch (store_ s) (executed s) values [];
  let s := mkServer d n (inboxes s) (fd_to_thread_ s) (next_thread_ s) (snapshot_children_ s)
             (watching s) (reaped s) in
  match fd_to_thread_ s !! batch_fd with
  | None => Ok s
  | Some i => Ok (PostResponse s i batch_fd response)
  end.

Definition forget_client (s : Server) (client_fd : Z) : Server :=
  mkServer (store_ s) (executed s) (inboxes s) (delete client_fd (fd_to_thread_ s)) (next_thread_ s)
    (snapshot_children_ s) (watching s) (reaped s).

(** The body of the inner loop of [ProcessCommands], on one message. *)
Definition process_msg (s : Server) (msg : OutboxMsg) : res Server :=
  match msg with
  | CommandBatch batch_fd values => ExecuteAndRespond s batch_fd values
  | Disconnect client_fd => Ok (forget_client s client_fd)
  end.

Fixpoint process_msgs (s : Server) (msgs : list OutboxMsg) : res Server :=
  match msgs with
  | [] => Ok s
  | msg :: msgs => s ← process_msg s msg; process_msgs s msgs
  end.

(** [outboxes]: for each IO thread, what [GetOutboxMsg] gave until it gave
    nothing. *)
Definition ProcessCommands (s : Server) (outboxes : list (list OutboxMsg)) : res Server :=
  process_msgs s (concat outboxes).

(** ** Snapshot children *)

(** [fork] in the parent; the child writes the snapshot and exits. *)
Inductive fork_result := ForkFailed | ForkParent (pid : Z).

Definition CreateSnapshot (s : Server) (forked : fork_result) (pidfd_open_result : Z) : Server :=
  match forked with
  | ForkFailed => s
  | ForkParent pid =>
      if pidfd_open_result =? -1 then
        mkServer (store_ s) (executed s) (inboxes s) (fd_to_thread_ s) (next_thread_ s)
          (snapshot_children_ s) (watching s) (reaped s ++ [pid])
      else
        let pfd := pidfd_open_result in
        mkServer (store_ s) (executed s) (inboxes s) (fd_to_thread_ s) (next_thread_ s)
          (<[pfd := pid]> (snapshot_children_ s)) (watching s ++ [pfd]) (reaped s)
  end.

Definition ReapSnapshot (s : Server) (pidfd : Z) : Server :=
  match snapshot_children_ s !! pidfd with
  | None => s
  | Some pid =>
      mkServer (store_ s) (executed s) (inboxes s) (fd_to_thread_ s) (next_thread_ s)
        (delete pidfd (snapshot_children_ s)) (filter (fun f => f <> pidfd) (watching s))
        (reaped s ++ [pid])
  end.

(** [sizeof(uint64_t)] *)
Definition sizeof_expirations : Z := 8.

(** One event of the loop in [Run]: what it does depends on the descriptor that
    became ready.  [size] is what the [read] of the timer returns. *)
Definition run_main_event (listen_fd_ command_fd snapshot_fd_ : Z) (s : Server) (event_fd : Z)
    (accepted : list Z) (outboxes : list (list OutboxMsg)) (size : Z) (forked : fork_result) (pidfd : Z)
    : res Server :=
  if event_fd =? listen_fd_ then Ok (AcceptConnections s accepted)
  else if event_fd =? command_fd then ProcessCommands s outboxes
  else if event_fd =? snapshot_fd_ then
    if size =? sizeof_expirations then Ok (CreateSnapshot s forked pidfd) else Undef "assertion failed"
  else Ok (ReapSnapshot s event_fd).

End Server.
Arguments Server M : clear implicits.

(** ** The order of execution *)

(** The requests in a list of messages, with the client each came from. *)
Definition requests (msgs : list OutboxMsg) : list (Z * RespValue) :=
  flat_map (fun m => match m with
                     | CommandBatch f vs => pair f <$> vs
                     | Disconnect _ => []
                     end) msgs.

(** Requests with the clock readings of their execution. *)
Fixpoint timed (clock : nat -> Z) (n : nat) (l : list RespValue) : list (Z * RespValue) :=
  match l with
  | [] => []
  | r :: l => (clock n, r) :: timed clock (S n) l
  end.

(** The bytes of the replies that belong to client [k]. *)
Fixpoint replies_to (k : Z) (tags : list Z) (replies : list RespValue) : bytes :=
  match tags, replies with
  | f :: tags, r :: replies => (if bool_decide (f = k) then Serialize r else []) ++ replies_to k tags replies
  | _, _ => []
  end.

(** The response bytes for client [k] in an inbox. *)
Definition posted (k : Z) (inbox : list InboxMsg) : bytes :=
  flat_map (fun m => match m with
                     | WriteResponse f b => if bool_decide (f = k) then b else []
                     | AssignConnection _ => []
                     end) inbox.

Lemma timed_app clock l1 : forall n l2,
  timed clock n (l1 ++ l2) = timed clock n l1 ++ timed clock (n + length l1) l2.
Proof.
  induction l1 as [|r l1 IH]; intros n l2; cbn; [by rewrite Nat.add_0_r|].
  rewrite IH. by rewrite Nat.add_succ_r.
Qed.

Lemma length_timed clock l : forall n, length (timed clock n l) = length l.
Proof. induction l as [|r l IH]; intros n; cbn; [done|]. by rewrite IH. Qed.

Lemma replies_to_app k t1 : forall r1 t2 r2, length t1 = length r1 ->
  replies_to k (t1 ++ t2) (r1 ++ r2) = replies_to k t1 r1 ++ replies_to k t2 r2.
Proof.
  induction t1 as [|f t1 IH]; intros [|r r1] t2 r2 Hl; try done. cbn.
  rewrite IH by (cbn in Hl; lia). by rewrite app_assoc.
Qed.

(** All replies of one batch go to the client of the batch. *)
Lemma replies_to_batch k f (vs : list RespValue) : forall replies, length vs = length replies ->
  replies_to k (pair f <$> vs).*1 replies
  = if bool_decide (f = k) then flat_map Serialize replies else [].
Proof.
  induction vs as [|v vs IH]; intros [|r replies] Hl; try done; cbn; [by case_match|].
  rewrite IH by (cbn in Hl; lia). by case_match.
Qed.

Lemma requests_cons m msgs : requests (m :: msgs) = requests [m] ++ requests msgs.
Proof. unfold requests. cbn. by rewrite app_nil_r. Qed.

Lemma posted_app k a b : posted k (a ++ b) = posted k a ++ posted k b.
Proof. apply flat_map_app. Qed.

Section Executing.
Context {M : Type} {ops : MapOps bytes Entry M}.
Context (clock : nat -> Z).

Lemma serve_length (l : list (Z * RespValue)) : forall (d d' : M) replies,
  serve d l = Ok (d', replies) -> length replies = length l.
Proof.
  induction l as [|[now r] l IH]; intros d d' replies Hs; cbn in Hs.
  - by injection Hs as <- <-.
  - inv_bind Hs. inv_bind Hs. injection Hs as <- <-. cbn. f_equal. by eapply IH.
Qed.

Lemma serve_app (l1 l2 : list (Z * RespValue)) : forall (d d' : M) replies,
  serve d (l1 ++ l2) = Ok (d', replies) ->
  exists d1 r1 r2, serve d l1 = Ok (d1, r1) /\ serve d1 l2 = Ok (d', r2) /\ replies = r1 ++ r2.
Proof.
  induction l1 as [|[now r] l1 IH]; intros d d' replies Hs; cbn [app serve] in *.
  - by exists d, [], replies.
  - inv_bind Hs. inv_bind Hs. injection Hs as <- <-. apply IH in Ha0 as (d1 & r1 & r2 & H1 & H2 & ->).
    rewrite Ha. cbn. rewrite H1. cbn. eauto 10.
Qed.

(** A batch runs as the requests one after the other, and its response is the
    concatenation of the replies. *)
Lemma execute_batch_serve values : forall (d : M) n response d' replies,
  serve d (timed clock n values) = Ok (d', replies) ->
  execute_batch clock d n values response
  = Ok (d', (n + length values)%nat, response ++ flat_map Serialize replies).
Proof.
  induction values as [|v values IH]; intros d n response d' replies Hs; cbn [timed serve execute_batch] in *.
  - injection Hs as <- <-. cbn. by rewrite app_nil_r, Nat.add_0_r.
  - inv_bind Hs. inv_bind Hs. injection Hs as <- <-. unfold Execute. rewrite Ha. cbn [mbind res_bind].
    rewrite (IH _ _ _ _ _ Ha0). cbn. by rewrite <- app_assoc, Nat.add_succ_r.
Qed.

(** The routing table points at existing threads. *)
Definition routes_ok (s : Server M) : Prop :=
  map_Forall (fun _ i => (i < length (inboxes s))%nat) (fd_to_thread_ s)
  /\ (next_thread_ s < length (inboxes s))%nat.

Definition inbox_of (s : Server M) (i : nat) : list InboxMsg := default [] (inboxes s !! i).

Lemma inbox_of_post (s : Server M) i j msg : (i < length (inboxes s))%nat ->
  inbox_of (post s i msg) j = inbox_of s j ++ if bool_decide (i = j) then [msg] else [].
Proof.
  intros Hi. unfold inbox_of, post. cbn. case_bool_decide; subst.
  - rewrite list_lookup_alter_eq. destruct (lookup_lt_is_Some_2 _ _ Hi) as [l ->]. done.
  - rewrite list_lookup_alter_ne by done. by rewrite app_nil_r.
Qed.

(** What one message does, for a client [k] of thread [i]. *)
Lemma process_msg_spec (s : Server M) m d' replies :
  routes_ok s -> serve (store_ s) (timed clock (executed s) (requests [m]).*2) = Ok (d', replies) ->
  exists s', process_msg clock s m = Ok s' /\ routes_ok s'
    /\ store_ s' = d' /\ executed s' = (executed s + length (requests [m]))%nat
    /\ (forall k i, fd_to_thread_ s !! k = Some i -> m <> Disconnect k ->
          fd_to_thread_ s' !! k = Some i
          /\ posted k (inbox_of s' i) = posted k (inbox_of s i) ++ replies_to k (requests [m]).*1 replies).
Proof.
  intros [Hr Hn] Hs. destruct m as [f vs|f]; cbn [process_msg].
  - unfold requests in *. cbn [flat_map] in *. rewrite app_nil_r in *.
    assert ((pair f <$> vs).*2 = vs) as E2 by (by rewrite <- list_fmap_compose, list_fmap_id).
    rewrite E2 in Hs. pose proof (serve_length _ _ _ _ Hs) as Hl. rewrite length_timed in Hl.
    unfold ExecuteAndRespond. rewrite (execute_batch_serve _ _ _ _ _ _ Hs). cbn [mbind res_bind app fd_to_thread_].
    set (s1 := mkServer _ _ _ _ _ _ _ _).
    destruct (fd_to_thread_ s !! f) as [i|] eqn:Hf.
    + eexists. split; [done|]. split; [|split; [done|split; [by cbn; rewrite length_fmap|]]].
      { split; cbn; by rewrite length_alter. }
      intros k j Hk _. split; [done|]. unfold PostResponse.
      rewrite (inbox_of_post s1) by (apply (map_Forall_lookup_1 _ _ _ _ Hr Hf)).
      rewrite posted_app, replies_to_batch by done. change (inbox_of s1 j) with (inbox_of s j). f_equal.
      destruct (decide (f = k)) as [->|Hne].
      * assert (i = j) as -> by congruence. rewrite !bool_decide_true by done. cbn.
        rewrite bool_decide_true by done. by rewrite app_nil_r.
      * rewrite (bool_decide_false (f = k)) by done. case_bool_decide; [|done]. cbn.
        by rewrite bool_decide_false.
    + eexists. split; [done|]. split; [done|split; [done|split; [by cbn; rewrite length_fmap|]]].
      intros k j Hk _. split; [done|]. rewrite replies_to_batch by done.
      rewrite bool_decide_false by congruence. by rewrite app_nil_r.
  - cbn in Hs. injection Hs as <- <-. eexists. split; [done|]. split.
    { split; [|done]. cbn. by apply map_Forall_delete. }
    split_and!; [done|by cbn; rewrite Nat.add_0_r|]. intros k i Hk Hne. cbn. rewrite app_nil_r. split; [|done].
    rewrite lookup_delete_ne by congruence. done.
Qed.

Lemma process_msgs_spec msgs : forall (s : Server M) d' replies,
  routes_ok s -> serve (store_ s) (timed clock (executed s) (requests msgs).*2) = Ok (d', replies) ->
  exists s', process_msgs clock s msgs = Ok s' /\ routes_ok s'
    /\ store_ s' = d' /\ executed s' = (executed s + length (requests msgs))%nat
    /\ (forall k i, fd_to_thread_ s !! k = Some i -> Disconnect k ∉ msgs ->
          fd_to_thread_ s' !! k = Some i
          /\ posted k (inbox_of s' i) = posted k (inbox_of s i) ++ replies_to k (requests msgs).*1 replies).
Proof.
  induction msgs as [|m msgs IH]; intros s d' replies Hr Hs; cbn [process_msgs].
  - cbn in Hs. injection Hs as <- <-. exists s. do 3 (split; [done|]). split; [cbn; lia|].
    intros k i Hk _. cbn. by rewrite app_nil_r.
  - rewrite requests_cons, !fmap_app in *. rewrite timed_app in Hs.
    apply serve_app in Hs as (d1 & r1 & r2 & H1 & H2 & ->).
    destruct (process_msg_spec s m d1 r1 Hr H1) as (s1 & -> & Hr1 & Hd1 & Hn1 & Hk1). cbn [mbind res_bind].
    rewrite length_fmap, <- Hn1, <- Hd1 in H2.
    destruct (IH s1 d' r2 Hr1 H2) as (s2 & -> & Hr2 & Hd2 & Hn2 & Hk2).
    exists s2. do 3 (split; [done|]). split; [rewrite length_app; lia|].
    intros k i Hk Hnot. rewrite not_elem_of_cons in Hnot. destruct Hnot as [Hm Hnot].
    destruct (Hk1 k i Hk) as [Hk' Hp']; [congruence|]. destruct (Hk2 k i Hk' Hnot) as [Hk'' Hp''].
    split; [done|]. rewrite Hp'', Hp', <- app_assoc. f_equal. symmetry. apply replies_to_app.
    pose proof (serve_length _ _ _ _ H1) as Hl. rewrite length_timed in Hl. by rewrite Hl, !length_fmap.
Qed.

End Executing.

(** ** Accepting clients *)

Section Accepting.
Context {M : Type}.

(** The elements of [l] whose position, counted from [c], is [i] modulo [n]. *)
Fixpoint every {A} (n c i : nat) (l : list A) : list A :=
  match l with
  | [] => []
  | x :: l => (if bool_decide ((c mod n)%nat = i) then [x] else []) ++ every n (S c) i l
  end.

Lemma AssignToIoThread_routes (s : Server M) k : routes_ok s ->
  routes_ok (AssignToIoThread s k)
  /\ length (inboxes (AssignToIoThread s k)) = length (inboxes s)
  /\ next_thread_ (AssignToIoThread s k) = ((next_thread_ s + 1) mod length (inboxes s))%nat
  /\ fd_to_thread_ (AssignToIoThread s k) = <[k := next_thread_ s]> (fd_to_thread_ s)
  /\ (forall i, inbox_of (AssignToIoThread s k) i
        = inbox_of s i ++ if bool_decide (next_thread_ s = i) then [AssignConnection k] else []).
Proof.
  intros [Hr Hn]. unfold AssignToIoThread, PostAssign. split.
  { split; cbn; rewrite length_alter; [by apply map_Forall_insert_2|]. apply Nat.mod_upper_bound. lia. }
  split; [cbn; by rewrite length_alter|]. split_and!; [done|done|]. intros i. by rewrite inbox_of_post.
Qed.

Lemma AcceptConnections_spec fds : forall (s : Server M) c, routes_ok s ->
  next_thread_ s = (c mod length (inboxes s))%nat ->
  let s' := AcceptConnections s fds in
  routes_ok s' /\ length (inboxes s') = length (inboxes s)
  /\ (forall i, inbox_of s' i = inbox_of s i ++ (AssignConnection <$> every (length (inboxes s)) c i fds))
  /\ (forall j k, NoDup fds -> fds !! j = Some k ->
        fd_to_thread_ s' !! k = Some ((c + j) mod length (inboxes s))%nat)
  /\ (forall k, k ∉ fds -> fd_to_thread_ s' !! k = fd_to_thread_ s !! k).
Proof.
  induction fds as [|f fds IH]; intros s c Hr Hc; cbn [AcceptConnections fold_left every].
  - split; [done|]. split_and!; [done|intros i; cbn; by rewrite app_nil_r|done|done].
  - destruct (AssignToIoThread_routes s f Hr) as (Hr1 & Hl1 & Hn1 & Hm1 & Hi1).
    destruct (IH (AssignToIoThread s f) (S c) Hr1) as (Hr2 & Hl2 & Hi2 & Hj2 & Ho2).
    { rewrite Hn1, Hl1, Hc, Nat.Div0.add_mod_idemp_l. by rewrite Nat.add_1_r. }
    rewrite Hl1 in *. fold (AcceptConnections (AssignToIoThread s f) fds).
    split; [done|]. split_and!; [done| | |].
    + intros i. rewrite Hi2, Hi1, Hc, <- app_assoc, fmap_app. f_equal. f_equal. by case_bool_decide.
    + intros [|j] k [Hnf Hnd]%NoDup_cons Hk; cbn in Hk.
      * injection Hk as <-. rewrite Ho2 by done. rewrite Hm1, lookup_insert_eq, Hc, Nat.add_0_r. done.
      * rewrite (Hj2 j k Hnd Hk). do 2 f_equal. lia.
    + intros k [Hne Hk]%not_elem_of_cons. rewrite Ho2 by done. by rewrite Hm1, lookup_insert_ne.
Qed.

End Accepting.

(** ** Snapshot children *)

Section Children.
Context {M : Type}.

Inductive snapshot_event :=
| Ticked (forked : fork_result) (pidfd_open_result : Z)
| Exited (pidfd : Z).

Definition run_snapshot_event (s : Server M) (ev : snapshot_event) : Server M :=
  match ev with
  | Ticked forked pidfd => CreateSnapshot s forked pidfd
  | Exited pidfd => ReapSnapshot s pidfd
  end.

(** [pidfd_open] returns -1 or a descriptor that is not open. *)
Fixpoint pidfds_fresh (s : Server M) (evs : list snapshot_event) : Prop :=
  match evs with
  | [] => True
  | ev :: evs =>
      match ev with
      | Ticked _ pidfd => snapshot_children_ s !! pidfd = None
      | Exited _ => True
      end /\ pidfds_fresh (run_snapshot_event s ev) evs
  end.

Definition children_started (evs : list snapshot_event) : list Z :=
  omap (fun ev => match ev with Ticked (ForkParent pid) _ => Some pid | _ => None end) evs.

Lemma filter_ne_absent (l : list Z) x : x ∉ l -> filter (fun f => f <> x) l = l.
Proof.
  intros Hx. induction l as [|y l IH]; [done|]. rewrite not_elem_of_cons in Hx. destruct Hx.
  rewrite filter_cons_True by congruence. by rewrite IH.
Qed.

Lemma run_snapshot_events_spec evs : forall s : Server M,
  pidfds_fresh s evs ->
  watching s ≡ₚ (map_to_list (snapshot_children_ s)).*1 ->
  let s' := fold_left run_snapshot_event evs s in
  reaped s' ++ (map_to_list (snapshot_children_ s')).*2
    ≡ₚ reaped s ++ (map_to_list (snapshot_children_ s)).*2 ++ children_started evs
  /\ watching s' ≡ₚ (map_to_list (snapshot_children_ s')).*1.
Proof.
  induction evs as [|ev evs IH]; intros s Hf Hw; cbn [fold_left]; [by rewrite app_nil_r|].
  destruct Hf as [Hev Hf]. destruct ev as [[|pid] pfd|pfd]; cbn [run_snapshot_event] in *.
  - by apply IH.
  - unfold CreateSnapshot in *. destruct (pfd =? -1).
    + destruct (IH _ Hf Hw) as [H1 H2]. split; [|done]. rewrite H1. cbn. solve_Permutation.
    + destruct (IH _ Hf) as [H1 H2].
      { cbn. rewrite map_to_list_insert by done. cbn. rewrite Hw. solve_Permutation. }
      split; [|done]. rewrite H1. cbn. rewrite map_to_list_insert by done. cbn. solve_Permutation.
  - unfold ReapSnapshot in *. destruct (snapshot_children_ s !! pfd) as [pid|] eqn:Hp; [|by apply IH].
    pose proof (map_to_list_delete _ _ _ Hp) as Hd.
    destruct (IH _ Hf) as [H1 H2].
    { cbn. rewrite Hw, <- Hd, fmap_cons. cbn [fst]. rewrite filter_cons_False by tauto.
      rewrite filter_ne_absent; [done|]. rewrite list_elem_of_fmap.
      intros ([? ?] & -> & Hin%elem_of_map_to_list). cbn in Hin. by rewrite lookup_delete_eq in Hin. }
    split; [|done]. rewrite H1. cbn. rewrite <- Hd at 1. cbn. solve_Permutation.
Qed.

End Children.

(** ** Theorems *)

Section Theorems.
Context {M : Type} {ops : MapOps bytes Entry M} {spec : MapSpec bytes Entry M}.
Context (clock : nat -> Z).

(** The main thread is a sequential executor: for any messages from any
    number of clients, the store and the replies are those of the abstract
    store executing all requests one after the other in the order the
    messages are processed; and the response bytes posted to the IO thread of
    each connected client are exactly the serialized replies to that client's
    own requests, in order. *)
Theorem server_executes_in_order (s : Server M) a (msgs : list OutboxMsg) :
  routes_ok s -> represents (store_ s) a -> sane_store a ->
  let l := timed clock (executed s) (requests msgs).*2 in
  Forall request_safe l ->
  exists s', process_msgs clock s msgs = Ok s' /\ routes_ok s'
    /\ represents (store_ s') (fst (exec_all a l))
    /\ (forall k i, fd_to_thread_ s !! k = Some i -> Disconnect k ∉ msgs ->
          posted k (inbox_of s' i)
          = posted k (inbox_of s i) ++ replies_to k (requests msgs).*1 (snd (exec_all a l))).
Proof.
  intros Hr Hrep Hsane l Hl. destruct (serve_refines l (store_ s) a Hrep Hsane Hl) as (d' & Hs & Hd & _).
  destruct (process_msgs_spec clock msgs s d' _ Hr Hs) as (s' & H1 & H2 & H3 & _ & H5).
  exists s'. split_and!; [done|done|by rewrite H3|]. intros k i Hk Hn. by apply H5.
Qed.

(** Clients are spread round robin: of the clients accepted in a row by a
    server with [n] IO threads, the [j]-th goes to the thread [j mod n] (from
    the cursor on), that thread is told exactly about its clients in the order
    of arrival, and the routing table agrees; routes never point outside the
    vector of threads. *)
Theorem clients_round_robin (s : Server M) (fds : list Z) :
  routes_ok s -> NoDup fds ->
  let n := length (inboxes s) in
  let s' := AcceptConnections s fds in
  routes_ok s'
  /\ (forall j k, fds !! j = Some k -> fd_to_thread_ s' !! k = Some ((next_thread_ s + j) mod n)%nat)
  /\ (forall i, inbox_of s' i
        = inbox_of s i ++ (AssignConnection <$> every n (next_thread_ s) i fds)).
Proof.
  intros Hr Hnd n s'.
  destruct (AcceptConnections_spec fds s (next_thread_ s) Hr) as (H1 & _ & H3 & H4 & _).
  { symmetry. apply Nat.mod_small, Hr. }
  split; [done|]. split; [|done]. intros j k Hk. by apply H4.
Qed.

(** C40. A descriptor can be reused before the main thread has handled the
    [Disconnect] of its previous owner; that message then removes the route of
    the new client, whose requests are still executed but never answered. *)
Theorem stale_disconnect_silences_client (s : Server M) a k (vs : list RespValue) :
  routes_ok s -> represents (store_ s) a -> sane_store a ->
  Forall request_safe (timed clock (executed s) vs) ->
  exists s', process_msgs clock (AssignToIoThread s k) [Disconnect k; CommandBatch k vs] = Ok s'
    /\ represents (store_ s') (fst (exec_all a (timed clock (executed s) vs)))
    /\ inboxes s' = inboxes (AssignToIoThread s k)
    /\ fd_to_thread_ s' !! k = None.
Proof.
  intros Hr Hrep Hsane Hl. cbn [process_msgs process_msg mbind res_bind].
  destruct (serve_refines _ (store_ s) a Hrep Hsane Hl) as (d' & Hs & Hd & _).
  unfold ExecuteAndRespond. cbn [forget_client store_ executed AssignToIoThread PostAssign post].
  rewrite (execute_batch_serve clock _ _ _ _ _ _ Hs). cbn [mbind res_bind fd_to_thread_].
  assert (fd_to_thread_ (forget_client (AssignToIoThread s k) k) !! k = None) as Hgone by apply lookup_delete_eq.
  rewrite Hgone. by eexists.
Qed.

(** No snapshot child is lost: however timer ticks, failed forks, failed
    [pidfd_open]s and exits alternate, each child started has either been
    waited for exactly once or is still in the table, and the epoll set
    watches exactly the descriptors in the table. *)
Theorem snapshot_children_accounted (store : M) (hardware : nat) (evs : list snapshot_event) :
  pidfds_fresh (server_init store hardware) evs ->
  let s' := fold_left run_snapshot_event evs (server_init store hardware) in
  reaped s' ++ (map_to_list (snapshot_children_ s')).*2 ≡ₚ children_started evs
  /\ watching s' ≡ₚ (map_to_list (snapshot_children_ s')).*1.
Proof.
  intros Hf s'. destruct (run_snapshot_events_spec evs _ Hf) as [H1 H2]; [cbn; by rewrite map_to_list_empty|].
  split; [|done]. unfold s'. rewrite H1. cbn. by rewrite map_to_list_empty.
Qed.

End Theorems.

(** The timer period is a valid [itimerspec] that stands for exactly the
    configured number of milliseconds. *)
Theorem timer_period_exact (mills : Z) :
  0 < mills ->
  let '(seconds, nanoseconds) := ConvertMills mills in
  seconds * 1000000000 + nanoseconds = mills * 1000000
  /\ 0 <= seconds /\ 0 <= nanoseconds < 1000000000 /\ 0 < seconds + nanoseconds.
Proof.
  intros Hm. unfold ConvertMills, millisecondsInSecond, nanosecondsInMillisecond.
  rewrite Z.quot_div_nonneg, Z.rem_mod_nonneg by lia.
  pose proof (Z.div_mod mills 1000 ltac:(lia)). pose proof (Z.mod_pos_bound mills 1000 ltac:(lia)).
  pose proof (Z.div_pos mills 1000 ltac:(lia) ltac:(lia)). lia.
Qed.

(** The interval 0, the default, does not disable snapshots: the returned
    0 is taken for a descriptor, so the server watches standard input, and
    when that becomes readable it forks a snapshot if it can read eight bytes
    there, and otherwise its assertion fails. *)
Theorem zero_interval_watches_stdin {M} {ops : MapOps bytes Entry M} (clock : nat -> Z)
    (s : Server M) (listen_fd_ command_fd timer_fd settime : Z) accepted outboxes size forked pidfd :
  listen_fd_ <> 0 -> command_fd <> 0 ->
  exists snapshot_fd_, CreateTimerIntervalFd 0 timer_fd settime = Returns (snapshot_fd_, None)
  /\ 0 ∈ watched_fds listen_fd_ command_fd snapshot_fd_
  /\ run_main_event clock listen_fd_ command_fd snapshot_fd_ s 0 accepted outboxes size forked pidfd
     = if size =? 8 then Ok (CreateSnapshot s forked pidfd) else Undef "assertion failed".
Proof.
  intros Hl Hc. exists 0. unfold watched_fds. split_and!; [done| |].
  - apply list_elem_of_filter. split; [done|]. do 2 right. left.
  - unfold run_main_event. rewrite (proj2 (Z.eqb_neq 0 _)), (proj2 (Z.eqb_neq 0 _)) by congruence. done.
Qed.

(** *** Witnesses, on [StandardMap] *)

#[local] Existing Instance std_ops.
#[local] Existing Instance std_spec.

(** Two IO threads; clients 5 and 6 connected. *)
Definition sample_server : Server (gmap bytes Entry) :=
  AcceptConnections (server_init ∅ 3) [5; 6].

Lemma sample_routes_ok : routes_ok sample_server.
Proof.
  apply (AcceptConnections_spec [5; 6] (server_init (∅ : gmap bytes Entry) 3) 0); [|reflexivity].
  split; [apply map_Forall_empty|cbn; lia].
Qed.

Lemma empty_represents : represents (store_ sample_server) ∅.
Proof. split; [exact I|reflexivity]. Qed.

Lemma empty_sane : sane_store ∅.
Proof. intros k v t Hk. by rewrite lookup_empty in Hk. Qed.

Definition sample_msgs : list OutboxMsg :=
  [CommandBatch 5 [words ["SET"; "k"; "v"]; words ["PING"]]; CommandBatch 6 [words ["GET"; "k"]];
   Disconnect 6; CommandBatch 5 [words ["DEL"; "k"]]].

Lemma server_executes_in_order_witness :
  exists s', process_msgs (fun _ => 100) sample_server sample_msgs = Ok s'
    /\ posted 5 (inbox_of s' 0) = lit "+OK" ++ crlf ++ lit "+PONG" ++ crlf ++ lit ":1" ++ crlf.
Proof.
  destruct (server_executes_in_order (fun _ => 100) sample_server ∅ sample_msgs) as (s' & H1 & _ & _ & H4).
  - exact sample_routes_ok.
  - exact empty_represents.
  - exact empty_sane.
  - repeat apply Forall_cons_2; try apply Forall_nil_2; (split; [cbn; lia|exact I]).
  - exists s'. split; [exact H1|]. rewrite (H4 5 0%nat); [vm_compute; reflexivity|reflexivity|].
    intros Hin. repeat (apply elem_of_cons in Hin as [Hin|Hin]; [discriminate Hin|]). inversion Hin.
Defined.

Lemma clients_round_robin_witness :
  let s' := AcceptConnections sample_server [7; 8; 9] in
  routes_ok s'
  /\ (forall j k, [7; 8; 9] !! j = Some k -> fd_to_thread_ s' !! k = Some ((0 + j) mod 2)%nat)
  /\ (forall i, inbox_of s' i
        = inbox_of sample_server i ++ (AssignConnection <$> every 2 0 i [7; 8; 9])).
Proof.
  apply (clients_round_robin sample_server [7; 8; 9]); [exact sample_routes_ok|].
  apply (bool_decide_unpack _). vm_compute. exact I.
Defined.

Lemma stale_disconnect_silences_client_witness :
  exists s', process_msgs (fun _ => 100) (AssignToIoThread sample_server 6)
      [Disconnect 6; CommandBatch 6 [words ["PING"]]] = Ok s'
    /\ represents (store_ s') ∅
    /\ inboxes s' = inboxes (AssignToIoThread sample_server 6)
    /\ fd_to_thread_ s' !! 6 = None.
Proof.
  apply (stale_disconnect_silences_client (fun _ => 100) sample_server ∅ 6 [words ["PING"]]);
    [exact sample_routes_ok|exact empty_represents|exact empty_sane|].
  repeat apply Forall_cons_2; try apply Forall_nil_2. split; [cbn; lia|exact I].
Defined.

Lemma snapshot_children_accounted_witness :
  let evs := [Ticked (ForkParent 101) 20; Ticked ForkFailed (-1); Ticked (ForkParent 102) (-1);
              Exited 20; Exited 9; Ticked (ForkParent 103) 20] in
  let s' := fold_left run_snapshot_event evs (server_init (∅ : gmap bytes Entry) 3) in
  reaped s' ++ (map_to_list (snapshot_children_ s')).*2 ≡ₚ [101; 102; 103]
  /\ watching s' ≡ₚ (map_to_list (snapshot_children_ s')).*1.
Proof.
  intros evs. apply (snapshot_children_accounted (∅ : gmap bytes Entry) 3 evs).
  repeat split; vm_compute; reflexivity.
Defined.

Lemma timer_period_exact_witness :
  let '(seconds, nanoseconds) := ConvertMills 1500 in
  seconds * 1000000000 + nanoseconds = 1500 * 1000000
  /\ 0 <= seconds /\ 0 <= nanoseconds < 1000000000 /\ 0 < seconds + nanoseconds.
Proof. apply (timer_period_exact 1500). lia. Defined.

Lemma zero_interval_watches_stdin_witness :
  exists snapshot_fd_, CreateTimerIntervalFd 0 12 0 = Returns (snapshot_fd_, None)
  /\ 0 ∈ watched_fds 3 4 snapshot_fd_
  /\ run_main_event (fun _ => 100) 3 4 snapshot_fd_ sample_server 0 [] [] 8 (ForkParent 101) 20
     = Ok (CreateSnapshot sample_server (ForkParent 101) 20).
Proof.
  apply (zero_interval_watches_stdin (fun _ => 100) sample_server 3 4 12 0 [] [] 8 (ForkParent 101) 20);
    discriminate.
Defined.
