(* ===== verification/EndToEnd.v ===== *)
(** * From the client's bytes to the client's replies

    The pieces composed: a client's bytes arrive at an IO thread in arbitrary
    bursts, the main thread executes the batches among those of other clients,
    the IO thread writes the replies with arbitrary partial writes, and the
    client's parser reads them in arbitrary chunks.  What the client decodes is
    what the abstract store answers. *)

From S2P Require Import Prelude CxxString RespValue RespValueQueue MapInterface Store Handlers CommandSpec IoThread Server.

(** ** Every reply can be serialized and read back *)

Lemma scale_int64 factor ttl : in_int64 ttl = true -> in_int64 (scale factor ttl) = true.
Proof.
  unfold scale. destruct (ttl <? 0) eqn:E; [done|]. reflect_bools. rewrite !in_int64_spec.
  unfold int64_min, int64_max. intros H.
  assert (Z.abs (Z.quot ttl factor) <= ttl); [|lia].
  destruct (decide (factor = 0)) as [->|Hf].
  - rewrite Z.quot_0_r_ext by done. lia.
  - pose proof (Z.quot_abs ttl factor Hf) as Hq. rewrite <- Hq. rewrite (Z.abs_eq ttl) by done.
    apply Z.quot_le_upper_bound; [lia|]. nia.
Qed.

Lemma ttl_int64 a now k : sane_store a -> 0 <= now < 2 ^ 62 -> in_int64 (Abstract.ttl a now k) = true.
Proof.
  intros Ha Hn. apply in_int64_spec. unfold int64_min, int64_max, Abstract.ttl.
  destruct (a !! k) as [[v [t|]]|] eqn:E; try lia. apply Ha in E. unfold sane_time in E.
  destruct (t <=? now); lia.
Qed.

Lemma exec_serializable a now c : sane_store a -> 0 <= now < 2 ^ 62 ->
  serializable (snd (exec a now c)).
Proof.
  intros Ha Hn. destruct c as [| | |f rel k n o|f k|k|v|[v|]|[v|]| |]; try (cbn; done).
  - cbn. by destruct (Abstract.expire_at _ _ _ _) as [? []].
  - cbn. by apply scale_int64, ttl_int64.
  - cbn. by destruct (Abstract.persist _ _ _) as [? []].
  - cbn [exec snd constant_reply]. case_bool_decide; by vm_compute.
Qed.

Lemma exec_all_serializable l : forall a, sane_store a -> Forall request_safe l ->
  Forall serializable (snd (exec_all a l)).
Proof.
  induction l as [|[now r] l IH]; intros a Ha Hl; cbn [exec_all]; [done|].
  apply Forall_cons in Hl as [[Hn Hc] Hl]. cbn [fst snd] in *.
  pose proof (exec_serializable a now (recognise r) Ha Hn) as H1.
  pose proof (sane_exec a now _ Hn Ha Hc) as Ha1. destruct (exec a now _) as [a1 reply]. cbn [fst snd] in *.
  pose proof (IH a1 Ha1 Hl) as H2. destruct (exec_all a1 l). cbn [snd] in *. by constructor.
Qed.

(** ** One client among others *)

(** The replies to one client, of the replies to all. *)
Fixpoint own {A} (k : Z) (tags : list Z) (l : list A) : list A :=
  match tags, l with
  | f :: tags, x :: l => (if bool_decide (f = k) then [x] else []) ++ own k tags l
  | _, _ => []
  end.

Lemma replies_to_own k tags : forall replies, replies_to k tags replies = flat_map Serialize (own k tags replies).
Proof.
  induction tags as [|f tags IH]; intros [|r replies]; cbn; [done..|]. rewrite IH.
  case_match; cbn; [|done]. done.
Qed.

Lemma own_Forall {A} (P : A -> Prop) k tags : forall l, Forall P l -> Forall P (own k tags l).
Proof.
  induction tags as [|f tags IH]; intros [|x l] Hl; cbn; try done.
  apply Forall_cons in Hl as [Hx Hl]. case_match; cbn; [constructor|]; auto.
Qed.

Section EndToEnd.
Context {M : Type} {ops : MapOps bytes Entry M} {spec : MapSpec bytes Entry M}.
Context (clock : nat -> Z).

(** A client's whole session: its requests [vs] arrive at IO thread [i] in
    any bursts and chunks; the main thread processes them in any interleaving
    [msgs] with the batches of other clients; the IO thread writes the posted
    replies through any partial writes; the client reads the bytes in any
    chunks.  When everything has been written, the client decodes exactly the
    replies of the abstract store to its own requests, in order, and nothing
    is left over. *)
Theorem client_session (s : Server M) a (st : IoThread) k i bursts vs msgs evs chunks :
  routes_ok s -> represents (store_ s) a -> sane_store a ->
  fd_to_thread_ s !! k = Some i -> posted k (inbox_of s i) = [] ->
  io_inv st -> connections_ st !! k = None -> sent_to k st = [] ->
  Forall (Forall (fun c => c <> [])) bursts -> Forall serializable vs ->
  concat (concat bursts) = flat_map Serialize vs -> small_str (concat (concat bursts)) ->
  requests_of k msgs = vs -> Disconnect k ∉ msgs ->
  let l := timed clock (executed s) (requests msgs).*2 in
  let replies := own k (requests msgs).*1 (snd (exec_all a l)) in
  Forall request_safe l ->
  Forall (kernel_ok ∘ snd) evs -> flat_map response_of evs = flat_map Serialize replies ->
  exists st1 s' st2,
    read_bursts (HandleAssign st k) k bursts = Ok st1
    /\ (exists own_msgs, outbox_ st1 = outbox_ st ++ own_msgs /\ requests_of k own_msgs = vs)
    /\ process_msgs clock s msgs = Ok s'
    /\ posted k (inbox_of s' i) = flat_map response_of evs
    /\ write_events st1 k evs = Ok st2
    /\ (is_Some (connections_ st2 !! k) -> pending k st2 = [] ->
        concat chunks = sent_to k st2 -> small_str (concat chunks) ->
        feed empty_queue chunks = (empty_queue, Ok replies)).
Proof.
  intros Hr Hrep Hsane Hk Hposted Hio Hnew Hsent Hb Hv Hc Hs Hreq Hnd l replies Hl Hker Hevs.
  assert (Forall serializable replies) as Hser by (by apply own_Forall, exec_all_serializable).
  destruct (read_bursts_session st k bursts vs Hnew Hb Hv Hc Hs)
    as (st1 & own_msgs & H1 & H2 & H3 & _ & Hm1 & Hs1).
  assert (io_inv st1) as Hi1 by (unfold io_inv; rewrite Hm1; by apply map_Forall_insert_2).
  assert (connections_ st1 !! k = Some (new_connection k)) as Hc1 by (rewrite Hm1; apply lookup_insert_eq).
  assert (pending k st1 = []) as Hp1 by (unfold pending; by rewrite Hc1).
  destruct (serve_refines l (store_ s) a Hrep Hsane Hl) as (d' & Hserve & _ & _).
  destruct (process_msgs_spec clock msgs s d' _ Hr Hserve) as (s' & H4 & _ & _ & _ & H5).
  destruct (H5 k i Hk Hnd) as [_ H6]. rewrite Hposted, replies_to_own in H6.
  destruct (write_events_spec evs st1 k (new_connection k) Hi1 Hc1 Hker) as (st2 & H7 & _ & _ & H8).
  exists st1, s', st2. split_and!; [done|by exists own_msgs|done|by rewrite H6, Hevs|done|].
  intros [conn2 Hk2] Hdone Hchunks Hsmall. specialize (H8 conn2 Hk2).
  rewrite Hdone, app_nil_r, Hp1, Hs1, Hsent, Hevs in H8. cbn [app] in H8.
  apply feed_parses; [done|done|]. cbn [app]. rewrite Hchunks, H8 in *. by apply parses_serialized.
Qed.

End EndToEnd.

#[local] Existing Instance std_ops.
#[local] Existing Instance std_spec.

(** Client 5 sends SET, GET and PING cut in the middle; client 6 overwrites the
    key in between. *)
Definition sample_requests5 : list RespValue := [words ["SET"; "k"; "v"]; words ["GET"; "k"]; words ["PING"]].

Definition sample_bursts : list (list bytes) :=
  let b := flat_map Serialize sample_requests5 in [[take 10 b; take 7 (drop 10 b)]; [drop 17 b]].

Definition sample_traffic : list OutboxMsg :=
  [CommandBatch 5 [words ["SET"; "k"; "v"]]; CommandBatch 6 [words ["SET"; "k"; "w"]];
   CommandBatch 5 [words ["GET"; "k"]; words ["PING"]]].

Definition sample_replies : list RespValue :=
  [SimpleString (lit "OK"); BulkString (Some (lit "w")); SimpleString (lit "PONG")].

Definition sample_writes : list (option bytes * kernel) :=
  (Some (flat_map Serialize sample_replies), one_byte_kernel)
    :: replicate (length (flat_map Serialize sample_replies)) (None, one_byte_kernel).

Lemma client_session_witness :
  exists st1 s' st2,
    read_bursts (HandleAssign io_init 5) 5 sample_bursts = Ok st1
    /\ (exists own_msgs, outbox_ st1 = [] ++ own_msgs /\ requests_of 5 own_msgs = sample_requests5)
    /\ process_msgs (fun _ => 100) sample_server sample_traffic = Ok s'
    /\ posted 5 (inbox_of s' 0) = flat_map response_of sample_writes
    /\ write_events st1 5 sample_writes = Ok st2
    /\ (is_Some (connections_ st2 !! 5) -> pending 5 st2 = [] ->
        concat [flat_map Serialize sample_replies] = sent_to 5 st2 ->
        small_str (concat [flat_map Serialize sample_replies]) ->
        feed empty_queue [flat_map Serialize sample_replies] = (empty_queue, Ok sample_replies)).
Proof.
  destruct (client_session (fun _ => 100) sample_server ∅ io_init 5 0 sample_bursts sample_requests5
           sample_traffic sample_writes [flat_map Serialize sample_replies])
    as (st1 & s' & st2 & H1 & H2 & H3 & H4 & H5 & H6).
  - exact sample_routes_ok.
  - exact empty_represents.
  - exact empty_sane.
  - reflexivity.
  - reflexivity.
  - exact io_inv_init.
  - reflexivity.
  - reflexivity.
  - repeat constructor; discriminate.
  - repeat constructor.
  - reflexivity.
  - reflexivity.
  - reflexivity.
  - intros Hin. repeat (apply elem_of_cons in Hin as [Hin|Hin]; [discriminate Hin|]). inversion Hin.
  - repeat apply Forall_cons_2; try apply Forall_nil_2; (split; [cbn; lia|exact I]).
  - apply Forall_cons_2; [exact one_byte_kernel_ok|]. apply Forall_replicate. exact one_byte_kernel_ok.
  - vm_compute. reflexivity.
  - exists st1, s', st2. split_and!; [exact H1|exact H2|exact H3|exact H4|exact H5|].
    intros Hc Hp Hs Hsmall. rewrite (H6 Hc Hp Hs Hsmall). f_equal.
Defined.
