(* ===== verification/AsyncServer.v ===== *)
(** * The main thread and the IO threads together

    The main thread of Server and the IO threads of IoThread, exchanging
    messages through FIFO queues: a step is one message handled by one thread,
    one socket event handled by an IO thread, or one client accepted, in any
    order.  The state is that of the two models put side by side; the inboxes
    are in the [Server] record and each outbox in its [IoThread].  Three
    histories record what happened: the descriptors accepted, the requests
    executed with the client each came from, and the bytes each connection
    has read.

    What the kernel answers is part of the label of a step, and a label is
    accepted only if the answers are possible ones.  [run] executes a list of
    labels, so every interleaving of any number of threads and clients is a
    list.  Here the queues have no bound and nobody waits; the file Threads
    refines this system to the bounded queues and the wake-ups of the code. *)

From S2P Require Import Prelude CxxString RespValue RespValueQueue MapInterface Store Handlers CommandSpec IoThread Server.

(** ** Labels and steps *)

(** A socket event with the answers of the calls it leads to: the chunks of
    [recv] and its last answer, and the answers of [send]. *)
Inductive socket_event :=
| SockError (k : Z)
| SockReady (k : Z) (reads : option (list bytes * recv_result)) (sends : option (list send_result)).

Definition socket_fd (ev : socket_event) : Z :=
  match ev with SockError k | SockReady k _ _ => k end.

(** The event as IoThread handles it. *)
Definition to_io_event (ev : socket_event) : io_event :=
  match ev with
  | SockError k => SocketError k
  | SockReady k reads sends =>
      SocketReady k ((fun r => burst (fst r) (snd r)) <$> reads) sends
  end.

(** [send] takes at most what it is given, and one answer per byte is there. *)
Fixpoint send_contractb (remaining : nat) (sends : list send_result) : bool :=
  match sends with
  | SendCount n :: sends => (n <=? remaining)%nat && send_contractb (remaining - n) sends
  | _ => true
  end.
Definition answersb (n : nat) (sends : list send_result) : bool :=
  send_contractb n sends && (n <=? length sends)%nat.

(** [recv] gives a byte or more per chunk, the burst ends with a result that
    is no data, and a string can hold the bytes after [seen]. *)
Definition readsb (seen : bytes) (reads : list bytes * recv_result) : bool :=
  forallb (fun c => negb (bool_decide (c = []))) (fst reads)
  && match snd reads with Received _ => false | _ => true end
  && (Z.of_nat (length (seen ++ concat (fst reads))) + 2 <? 2 ^ 63).

(** The bytes of connection [k] that make no complete value yet. *)
Definition unparsed (k : Z) (t : IoThread) : bytes :=
  match connections_ t !! k with Some c => buffer_ (parse_queue c) | None => [] end.

(** The answers a socket event leads to, [seen] being all the connection has
    read before. *)
Definition event_okb (seen : bytes) (t : IoThread) (ev : socket_event) : bool :=
  match ev with
  | SockError _ => true
  | SockReady k reads sends =>
      match reads with Some r => readsb seen r && readsb (unparsed k t) r | None => true end
      && match sends with Some l => answersb (length (pending k t)) l | None => true end
  end.

(** The answers of [send] when a response is appended to what is pending. *)
Definition inbox_answersb (t : IoThread) (m : InboxMsg) (sends : list send_result) : bool :=
  match m with
  | AssignConnection _ => true
  | WriteResponse k response => answersb (length (pending k t ++ response)) sends
  end.

Definition set_outbox (t : IoThread) (l : list OutboxMsg) : IoThread :=
  mkIoThread (connections_ t) l (trace t).

Section Async.
Context {M : Type} {ops : MapOps bytes Entry M}.
Context (clock : nat -> Z).

Record async := mkAsync {
  srv : Server M;
  threads : list IoThread;
  accepted : list Z;
  log : list (Z * RespValue);
  received : gmap Z bytes
}.

Definition async_init (store : M) (hardware : nat) : async :=
  mkAsync (server_init store hardware) (replicate (NumIoThreads hardware) io_init) [] [] ∅.

(** The bytes connection [k] has read. *)
Definition got (s : async) (k : Z) : bytes := default [] (received s !! k).

Definition set_inbox (s : Server M) (i : nat) (l : list InboxMsg) : Server M :=
  mkServer (store_ s) (executed s) (<[i := l]> (inboxes s)) (fd_to_thread_ s) (next_thread_ s)
    (snapshot_children_ s) (watching s) (reaped s).

Inductive label :=
| Accept (k : Z)                              (** [accept] returned [k] *)
| Exec (i : nat)                              (** the main thread takes a message of thread [i] *)
| Recv (i : nat) (sends : list send_result)   (** thread [i] takes a message of its inbox *)
| Socket (i : nat) (ev : socket_event)        (** thread [i] handles a socket event *)
| Snap (ev : snapshot_event).                 (** a timer tick, or a snapshot child has ended *)

(** The bytes the event adds to what its connection has read. *)
Definition event_reads (t : IoThread) (ev : socket_event) : bytes :=
  match ev with
  | SockReady k (Some reads) _ =>
      match connections_ t !! k with Some _ => concat (fst reads) | None => [] end
  | _ => []
  end.

Definition step (s : async) (l : label) : option async :=
  match l with
  | Accept k =>
      Some (mkAsync (AssignToIoThread (srv s) k) (threads s) (accepted s ++ [k]) (log s) (received s))
  | Exec i =>
      t ← threads s !! i;
      match outbox_ t with
      | [] => None
      | m :: rest =>
          match process_msg clock (srv s) m with
          | Ok srv' =>
              Some (mkAsync srv' (<[i := set_outbox t rest]> (threads s)) (accepted s)
                      (log s ++ requests [m]) (received s))
          | _ => None
          end
      end
  | Recv i sends =>
      t ← threads s !! i;
      match inbox_of (srv s) i with
      | [] => None
      | m :: rest =>
          if inbox_answersb t m sends then
            match DrainInbox t [(m, sends)] with
            | Ok t' => Some (mkAsync (set_inbox (srv s) i rest) (<[i := t']> (threads s)) (accepted s)
                               (log s) (received s))
            | _ => None
            end
          else None
      end
  | Socket i ev =>
      t ← threads s !! i;
      if event_okb (got s (socket_fd ev)) t ev then
        match run_event t (to_io_event ev) with
        | Ok t' => Some (mkAsync (srv s) (<[i := t']> (threads s)) (accepted s) (log s)
                           (<[socket_fd ev := got s (socket_fd ev) ++ event_reads t ev]> (received s)))
        | _ => None
        end
      else None
  | Snap ev => Some (mkAsync (run_snapshot_event (srv s) ev) (threads s) (accepted s) (log s) (received s))
  end.

Fixpoint run (s : async) (ls : list label) : option async :=
  match ls with
  | [] => Some s
  | l :: ls => s ← step s l; run s ls
  end.

(** The requests of one client among those executed. *)
Definition own_requests (k : Z) (l : list (Z * RespValue)) : list RespValue :=
  flat_map (fun r => if bool_decide (fst r = k) then [snd r] else []) l.

End Async.
Arguments async M : clear implicits.

(** ** What a step of an IO thread does to a connection *)

Lemma send_contractb_spec n sends : send_contractb n sends = true <-> send_contract n sends.
Proof.
  revert n. induction sends as [|[m|e] sends IH]; intros n; cbn; [done| |done].
  by rewrite andb_true_iff, Nat.leb_le, IH.
Qed.

Lemma answersb_spec n sends : answersb n sends = true <-> answers n sends.
Proof. unfold answersb, answers. by rewrite andb_true_iff, send_contractb_spec, Nat.leb_le. Qed.

Lemma readsb_spec seen reads : readsb seen reads = true ->
  Forall (fun c => c <> []) (fst reads) /\ (forall d, snd reads <> Received d)
  /\ small_str (seen ++ concat (fst reads)).
Proof.
  unfold readsb. rewrite !andb_true_iff, forallb_forall, Z.ltb_lt. intros [[H1 H2] H3].
  split_and!; [|by destruct (snd reads)|done].
  apply Forall_forall. intros c Hc%list_elem_of_In%H1. by case_bool_decide.
Qed.

(** Connection [k] before and after: it reads [data] and is given [resp] to
    write.  Either it is still there, or it has been closed. *)
Definition conn_step (k : Z) (t t' : IoThread) (data resp : bytes) : Prop :=
  exists c, connections_ t !! k = Some c /\
  ((exists c' vs, connections_ t' !! k = Some c'
      /\ parses (buffer_ (parse_queue c) ++ data) vs (buffer_ (parse_queue c'))
      /\ outbox_ t' = outbox_ t ++ batch_msg k vs
      /\ sent_to k t' ++ out_buffer c' = sent_to k t ++ out_buffer c ++ resp)
   \/ (connections_ t' !! k = None
      /\ exists vs r ms, outbox_ t' = outbox_ t ++ ms ++ [Disconnect k]
      /\ (parses (buffer_ (parse_queue c) ++ data) vs r /\ ms = batch_msg k vs
          \/ malformed (buffer_ (parse_queue c) ++ data) vs r /\ ms = [])
      /\ sent_to k t' `prefix_of` sent_to k t ++ out_buffer c ++ resp)).

(** The other connections are left alone. *)
Definition others_kept (k : Z) (t t' : IoThread) : Prop :=
  forall k', k' <> k -> connections_ t' !! k' = connections_ t !! k' /\ sent_to k' t' = sent_to k' t.

Lemma others_kept_refl k t : others_kept k t t.
Proof. done. Qed.

Lemma others_kept_trans k t1 t2 t3 : others_kept k t1 t2 -> others_kept k t2 t3 -> others_kept k t1 t3.
Proof. intros H1 H2 k' Hne. destruct (H1 k' Hne), (H2 k' Hne). split; congruence. Qed.

Lemma parses_idle b : is_incomplete (FromString b) = true -> parses (b ++ []) [] b.
Proof. intros Hb. rewrite app_nil_r. by constructor. Qed.

(** Writing. *)
Lemma flush_conn t t' k c buf :
  connections_ t !! k = Some c -> connection_ok k c -> io_inv t ->
  flushed t t' k (mkConnection k (parse_queue c) (out_buffer c ++ buf)) ->
  (forall k', k' <> k -> sent_to k' t' = sent_to k' t) ->
  conn_step k t t' [] buf /\ others_kept k t t' /\ io_inv t'.
Proof.
  intros Hk Hok Hi Hf Ho. pose proof Hok as (Hfd & Hv & Hb). split; [|split].
  - exists c. split; [done|]. destruct Hf as [(n & Hn & C & O & S & _)|(n & C & O & S)];
      cbn [out_buffer parse_queue fd] in *; [left|right].
    + eexists _, []. rewrite C, lookup_insert_eq. split; [done|]. cbn. split; [by apply parses_idle|].
      split; [by rewrite O, app_nil_r|]. by rewrite S, <- app_assoc, take_drop.
    + rewrite C, lookup_delete_eq. split; [done|]. exists [], (buffer_ (parse_queue c)), [].
      split; [done|]. split; [left; split; [by apply parses_idle|done]|]. rewrite S. apply prefix_take_l.
  - intros k' Hne. split; [|by apply Ho].
    destruct Hf as [(n & _ & C & _)|(n & C & _)]; rewrite C; [by rewrite lookup_insert_ne|by rewrite lookup_delete_ne].
  - eapply flushed_inv; [done| |exact Hf]. done.
Qed.

Lemma HandleWritable_conn t k c sends :
  connections_ t !! k = Some c -> io_inv t -> answers (length (out_buffer c)) sends ->
  exists t', HandleWritable t k sends = Ok t' /\ conn_step k t t' [] [] /\ others_kept k t t' /\ io_inv t'.
Proof.
  intros Hk Hi Ha. pose proof (map_Forall_lookup_1 _ _ _ _ Hi Hk) as Hok. pose proof Hok as (Hfd & _).
  unfold HandleWritable. rewrite Hk.
  destruct (FlushOutBuffer_spec t k c sends Hfd Ha) as (t' & -> & Hf & Ho). exists t'. split; [done|].
  apply (flush_conn t t' k c []); [done..| |done]. rewrite app_nil_r. destruct c. cbn in *. by subst.
Qed.

Lemma HandleWriteResponse_conn t k c response sends :
  connections_ t !! k = Some c -> io_inv t -> answers (length (out_buffer c ++ response)) sends ->
  exists t', HandleWriteResponse t k response sends = Ok t'
    /\ conn_step k t t' [] response /\ others_kept k t t' /\ io_inv t'.
Proof.
  intros Hk Hi Ha. pose proof (map_Forall_lookup_1 _ _ _ _ Hi Hk) as Hok. pose proof Hok as (Hfd & _).
  unfold HandleWriteResponse. rewrite Hk, Hfd.
  destruct (FlushOutBuffer_spec t k (mkConnection k (parse_queue c) (out_buffer c ++ response)) sends)
    as (t' & -> & Hf & Ho); [done..|]. exists t'. split; [done|].
  by apply (flush_conn t t' k c response).
Qed.

(** Reading. *)
Lemma HandleReadable_conn t k c reads :
  connections_ t !! k = Some c -> io_inv t ->
  Forall (fun x => x <> []) (fst reads) -> (forall d, snd reads <> Received d) ->
  small_str (buffer_ (parse_queue c) ++ concat (fst reads)) ->
  exists t', HandleReadable t k (burst (fst reads) (snd reads)) = Ok t'
    /\ conn_step k t t' (concat (fst reads)) [] /\ others_kept k t t' /\ io_inv t'
    /\ pending k t' = if bool_decide (is_Some (connections_ t' !! k)) then pending k t else [].
Proof.
  intros Hk Hi Hc He Hs. destruct reads as [chunks e]. cbn [fst snd] in *.
  pose proof (map_Forall_lookup_1 _ _ _ _ Hi Hk) as Hok.
  destruct (parses_or_malformed _ Hs) as [(vs & r & Hp)|(vs & r & Hp)].
  - destruct (HandleReadable_parses t k c chunks e vs r Hk Hok Hc He Hs Hp) as (t' & -> & S & Hcase).
    exists t'. split; [done|]. destruct (recv_alive e); destruct Hcase as [C O].
    + split; [|split; [|split]].
      * exists c. split; [done|]. left. eexists _, vs. rewrite C, lookup_insert_eq. split; [done|].
        cbn. by rewrite S, app_nil_r.
      * intros k' Hne. by rewrite C, lookup_insert_ne, S.
      * unfold io_inv. rewrite C. apply map_Forall_insert_2; [|done]. split_and!; [done..|]. by apply parses_rest in Hp.
      * unfold pending. rewrite C, lookup_insert_eq, Hk. cbn. done.
    + split; [|split; [|split]].
      * exists c. split; [done|]. right. rewrite C, lookup_delete_eq. split; [done|].
        exists vs, r, (batch_msg k vs). rewrite S, app_nil_r. split; [done|]. split; [by left|]. by apply prefix_app_r.
      * intros k' Hne. by rewrite C, lookup_delete_ne, S.
      * unfold io_inv. rewrite C. by apply map_Forall_delete.
      * unfold pending. rewrite C, lookup_delete_eq. done.
  - destruct (HandleReadable_malformed t k c chunks e vs r Hk Hok Hc He Hs Hp) as (t' & -> & C & O & S).
    exists t'. split; [done|]. split; [|split; [|split]].
    + exists c. split; [done|]. right. rewrite C, lookup_delete_eq. split; [done|].
      exists vs, r, []. rewrite S, app_nil_r. split; [done|]. split; [by right|]. by apply prefix_app_r.
    + intros k' Hne. by rewrite C, lookup_delete_ne, S.
    + unfold io_inv. rewrite C. by apply map_Forall_delete.
    + unfold pending. rewrite C, lookup_delete_eq. done.
Qed.

Lemma parses_idle_inv b vs r : is_incomplete (FromString b) = true -> parses (b ++ []) vs r -> vs = [] /\ r = b.
Proof.
  rewrite app_nil_r. intros Hb Hp. inversion Hp as [|? ? ? ? ? Hv]; subst; [done|]. by rewrite Hv in Hb.
Qed.

Lemma malformed_idle b vs r : is_incomplete (FromString b) = true -> ~ malformed (b ++ []) vs r.
Proof.
  rewrite app_nil_r. intros Hb Hp. inversion Hp as [? ? Hv|? ? ? ? ? Hv]; subst; by rewrite Hv in Hb.
Qed.

(** Reading followed by writing. *)
Lemma conn_step_write k t t1 t2 c1 data :
  conn_step k t t1 data [] -> connections_ t1 !! k = Some c1 -> io_inv t1 ->
  conn_step k t1 t2 [] [] -> conn_step k t t2 data [].
Proof.
  intros (c & Hc & Hcase) Hc1 Hi (c1' & Hc1' & Hcase2). simplify_eq.
  pose proof (map_Forall_lookup_1 _ _ _ _ Hi Hc1) as (_ & _ & Hinc).
  destruct Hcase as [(c1' & vs & Hc1'' & Hp & O & S)|[Hnone _]]; [|congruence]. simplify_eq.
  rewrite app_nil_r in S. exists c. split; [done|].
  destruct Hcase2 as [(c2 & vs2 & Hc2 & Hp2 & O2 & S2)|(Hnone & vs2 & r2 & ms & O2 & Hp2 & S2)];
    rewrite app_nil_r in S2; [left|right].
  - apply parses_idle_inv in Hp2 as [-> E]; [|done]. exists c2, vs. rewrite E, S2, S, app_nil_r.
    rewrite O2, O. split_and!; try done. by rewrite app_nil_r.
  - destruct Hp2 as [[[-> ->]%parses_idle_inv ->]|[Hm _]]; [|done|by apply malformed_idle in Hm].
    split; [done|]. exists vs, (buffer_ (parse_queue c1')), (batch_msg k vs).
    rewrite O2, O, app_nil_r, <- S. split; [by rewrite <- !app_assoc|]. split; [by left|done].
Qed.

Lemma CloseConnection_conn t k c : connections_ t !! k = Some c -> io_inv t ->
  conn_step k t (CloseConnection t k true) [] [] /\ others_kept k t (CloseConnection t k true)
  /\ io_inv (CloseConnection t k true).
Proof.
  intros Hk Hi. destruct (CloseConnection_spec t k) as (C & O & S); [by rewrite Hk|].
  split; [|split; [|by apply CloseConnection_inv]].
  - exists c. split; [done|]. right. rewrite C, lookup_delete_eq. split; [done|].
    exists [], (buffer_ (parse_queue c)), []. split; [done|]. split.
    + left. split; [|done]. apply parses_idle. by apply (map_Forall_lookup_1 _ _ _ _ Hi Hk).
    + rewrite S, app_nil_r. by apply prefix_app_r.
  - intros k' Hne. by rewrite C, lookup_delete_ne, S.
Qed.

Lemma run_event_conn t k c ev seen :
  socket_fd ev = k -> connections_ t !! k = Some c -> io_inv t ->
  event_okb seen t ev = true ->
  exists t', run_event t (to_io_event ev) = Ok t' /\ conn_step k t t' (event_reads t ev) []
    /\ others_kept k t t' /\ io_inv t'.
Proof.
  intros Hfd Hk Hi Hok. destruct ev as [f|f reads sends]; cbn [socket_fd to_io_event run_event event_reads event_okb] in *; subst f.
  { exists (CloseConnection t k true). split; [done|]. by eapply CloseConnection_conn. }
  apply andb_true_iff in Hok as [Hr Hw].
  assert (exists t1, match (fun r => burst (fst r) (snd r)) <$> reads with
                     | Some recvs => HandleReadable t k recvs | None => Ok t end = Ok t1
    /\ conn_step k t t1 (event_reads t (SockReady k reads sends)) [] /\ others_kept k t t1 /\ io_inv t1
    /\ pending k t1 = if bool_decide (is_Some (connections_ t1 !! k)) then pending k t else [])
    as (t1 & -> & H1 & O1 & I1 & P1).
  { cbn [event_reads]. destruct reads as [r|]; cbn [fmap option_fmap option_map].
    - apply andb_true_iff in Hr as [_ (R1 & R2 & R3)%readsb_spec]. unfold unparsed in R3. rewrite Hk in R3.
      destruct (HandleReadable_conn t k c r Hk Hi R1 R2 R3) as (t1 & E & ?).
      exists t1. rewrite Hk. done.
    - exists t. rewrite bool_decide_true by (by rewrite Hk). split_and!; try done.
      exists c. split; [done|]. left. exists c, []. rewrite !app_nil_r. split_and!; try done.
      constructor. by apply (map_Forall_lookup_1 _ _ _ _ Hi Hk). }
  cbn [mbind res_bind]. destruct sends as [sends|]; [|by exists t1].
  destruct (connections_ t1 !! k) as [c1|] eqn:Hc1.
  - rewrite bool_decide_true by done. rewrite bool_decide_true in P1 by done.
    destruct (HandleWritable_conn t1 k c1 sends Hc1 I1) as (t2 & -> & H2 & O2 & I2).
    { apply answersb_spec. unfold pending in P1 at 1. rewrite Hc1 in P1. by rewrite P1. }
    exists t2. split_and!; [done|by eapply conn_step_write|by eapply others_kept_trans|done].
  - rewrite bool_decide_false by (by intros []). by exists t1.
Qed.

Lemma run_event_absent t ev : connections_ t !! socket_fd ev = None -> run_event t (to_io_event ev) = Ok t.
Proof.
  intros Hk. destruct ev as [f|f reads sends]; cbn [socket_fd to_io_event run_event] in *.
  { unfold CloseConnection. by rewrite Hk. }
  unfold HandleReadable, HandleWritable. rewrite Hk.
  destruct reads; cbn [fmap option_fmap option_map mbind res_bind]; destruct sends; try done;
    by rewrite bool_decide_false by (rewrite Hk; by intros []).
Qed.

(** ** What a step of the main thread does *)

Section Processing.
Context {M : Type} {ops : MapOps bytes Entry M}.
Context (clock : nat -> Z).

Lemma execute_batch_inv values : forall (d : M) n response d' n' response',
  execute_batch clock d n values response = Ok (d', n', response') ->
  exists replies, serve d (timed clock n values) = Ok (d', replies)
    /\ n' = (n + length values)%nat /\ response' = response ++ flat_map Serialize replies.
Proof.
  induction values as [|v values IH]; intros d n response d' n' response' H; cbn [execute_batch] in H.
  - injection H as <- <- <-. exists []. cbn. rewrite app_nil_r, Nat.add_0_r. done.
  - inv_bind H. unfold Execute in Ha. inv_bind Ha. injection Ha as <- <-.
    apply IH in H as (replies & Hs & -> & ->). eexists (_ :: replies). cbn [timed serve].
    rewrite Ha0. cbn [mbind res_bind]. rewrite Hs. cbn [mbind res_bind flat_map length].
    rewrite <- app_assoc, Nat.add_succ_r. done.
Qed.

Lemma process_msg_inv (s s' : Server M) m : process_msg clock s m = Ok s' ->
  exists replies, serve (store_ s) (timed clock (executed s) (requests [m]).*2) = Ok (store_ s', replies)
    /\ executed s' = (executed s + length (requests [m]))%nat /\ next_thread_ s' = next_thread_ s
    /\ match m with
       | CommandBatch f vs =>
           fd_to_thread_ s' = fd_to_thread_ s
           /\ inboxes s' = match fd_to_thread_ s !! f with
                           | None => inboxes s
                           | Some i => alter (fun l => l ++ [WriteResponse f (flat_map Serialize replies)]) i (inboxes s)
                           end
       | Disconnect f => fd_to_thread_ s' = delete f (fd_to_thread_ s) /\ inboxes s' = inboxes s
       end.
Proof.
  intros H. destruct m as [f vs|f]; cbn [process_msg] in H.
  - unfold ExecuteAndRespond in H. inv_bind H. destruct p as [d' n'].
    apply execute_batch_inv in Ha as (replies & Hs & -> & ->). exists replies.
    unfold requests. cbn [flat_map]. rewrite app_nil_r, length_fmap.
    rewrite <- list_fmap_compose, list_fmap_id. cbn [fd_to_thread_] in H.
    destruct (fd_to_thread_ s !! f); injection H as <-; done.
  - injection H as <-. exists []. cbn. rewrite Nat.add_0_r. done.
Qed.

(** The log as a whole: executing more requests after those already there. *)
Lemma serve_snoc (d d1 d2 : M) n l1 l2 r1 r2 :
  serve d (timed clock n l1) = Ok (d1, r1) -> serve d1 (timed clock (n + length l1) l2) = Ok (d2, r2) ->
  serve d (timed clock n (l1 ++ l2)) = Ok (d2, r1 ++ r2).
Proof.
  rewrite timed_app. revert d r1 n. induction l1 as [|v l1 IH]; intros d r1 n H1 H2; cbn [timed app serve] in *.
  - by injection H1 as -> <-.
  - inv_bind H1. inv_bind H1. injection H1 as <- <-. rewrite Ha. cbn [mbind res_bind].
    replace (n + length (v :: l1))%nat with (S n + length l1)%nat in * by (cbn; lia).
    by rewrite (IH _ _ _ Ha0 H2).
Qed.

End Processing.

(** ** The life of one client *)

Definition in_fd (m : InboxMsg) : Z := match m with AssignConnection f | WriteResponse f _ => f end.
Definition out_fd (m : OutboxMsg) : Z := match m with CommandBatch f _ | Disconnect f => f end.

Definition is_response (m : InboxMsg) : Prop := match m with WriteResponse _ _ => True | _ => False end.

(** What thread [t] with inbox [inbox] has to do with client [k]. *)
Record kview := mkView {
  kv_to : list InboxMsg;
  kv_from : list OutboxMsg;
  kv_conn : option Connection;
  kv_sent : bytes
}.

Definition view_of (k : Z) (inbox : list InboxMsg) (t : IoThread) : kview :=
  mkView (filter (fun m => in_fd m = k) inbox) (filter (fun m => out_fd m = k) (outbox_ t))
    (connections_ t !! k) (sent_to k t).

Definition idle_view : kview := mkView [] [] None [].

(** What the rest of the system knows of client [k]: its route, its requests
    executed so far, the bytes read from it, and the replies to it. *)
Record kglobal := mkGlobal {
  kg_route : option nat;
  kg_own : list RespValue;
  kg_got : bytes;
  kg_replies : bytes
}.

(** The values of a byte stream, up to an incomplete rest or to an error. *)
Definition stream (b : bytes) (vs : list RespValue) : Prop :=
  exists r, parses b vs r \/ malformed b vs r.

(** The three phases of a client of thread [i]. *)
Definition assigning (k : Z) (i : nat) (g : kglobal) (v : kview) : Prop :=
  kv_to v = [AssignConnection k] /\ kv_from v = [] /\ kv_conn v = None /\ kv_sent v = []
  /\ kg_route g = Some i /\ kg_own g = [] /\ kg_got g = [] /\ kg_replies g = [].

Definition connected (k : Z) (i : nat) (g : kglobal) (v : kview) : Prop :=
  exists c, kv_conn v = Some c /\ Forall is_response (kv_to v) /\ Disconnect k ∉ kv_from v
  /\ kg_route g = Some i /\ small_str (kg_got g)
  /\ parses (kg_got g) (kg_own g ++ requests_of k (kv_from v)) (buffer_ (parse_queue c))
  /\ kv_sent v ++ out_buffer c ++ posted k (kv_to v) = kg_replies g.

Definition closed (k : Z) (i : nat) (g : kglobal) (v : kview) : Prop :=
  kv_conn v = None /\ Forall is_response (kv_to v)
  /\ (kg_route g = Some i /\ (exists pre, kv_from v = pre ++ [Disconnect k] /\ Disconnect k ∉ pre)
      \/ kg_route g = None /\ kv_from v = [])
  /\ (exists vs, stream (kg_got g) vs /\ kg_own g ++ requests_of k (kv_from v) `prefix_of` vs)
  /\ kv_sent v `prefix_of` kg_replies g.

Definition client_state (k : Z) (i : nat) (g : kglobal) (v : kview) : Prop :=
  assigning k i g v \/ connected k i g v \/ closed k i g v.

Section Clients.
Context {M : Type} {ops : MapOps bytes Entry M}.
Context (clock : nat -> Z) (store0 : M).

(** The replies to all requests executed. *)
Definition replies (s : async M) : list RespValue :=
  match serve store0 (timed clock 0 (log s).*2) with Ok (_, r) => r | _ => [] end.

Definition kview_at (s : async M) (k : Z) (j : nat) : option kview :=
  view_of k (inbox_of (srv s) j) <$> threads s !! j.

Definition kglobal_of (s : async M) (k : Z) : kglobal :=
  mkGlobal (fd_to_thread_ (srv s) !! k) (own_requests k (log s)) (got s k)
    (replies_to k (log s).*1 (replies s)).

(** How often descriptor [k] has been accepted. *)
Definition times (s : async M) (k : Z) : nat := length (filter (fun f => f = k) (accepted s)).

Definition client_inv (s : async M) (k : Z) : Prop :=
  match times s k with
  | 0%nat => kglobal_of s k = mkGlobal None [] [] []
             /\ forall j v, kview_at s k j = Some v -> v = idle_view
  | 1%nat => exists i v, kview_at s k i = Some v /\ client_state k i (kglobal_of s k) v
             /\ forall j v', j <> i -> kview_at s k j = Some v' -> v' = idle_view
  | _ => True
  end.

Record async_inv (s : async M) : Prop := {
  inv_routes : routes_ok (srv s);
  inv_threads : length (threads s) = length (inboxes (srv s));
  inv_io : Forall io_inv (threads s);
  inv_log : serve store0 (timed clock 0 (log s).*2) = Ok (store_ (srv s), replies s);
  inv_executed : executed (srv s) = length (log s)
}.

(** A step that does not concern client [k]. *)
Lemma client_inv_frame (s s' : async M) k : client_inv s k ->
  times s' k = times s k -> kglobal_of s' k = kglobal_of s k ->
  (forall j, kview_at s' k j = kview_at s k j) -> client_inv s' k.
Proof.
  unfold client_inv. intros H -> -> Hv. destruct (times s k) as [|[|n]]; [| |done].
  - destruct H as [H1 H2]. split; [done|]. intros j v. rewrite Hv. apply H2.
  - destruct H as (i & v & H1 & H2 & H3). exists i, v. rewrite Hv. split_and!; [done..|].
    intros j v' Hne. rewrite Hv. by apply H3.
Qed.

(** A step that concerns client [k] at thread [i]. *)
Lemma client_inv_step (s s' : async M) k i v : client_inv s k ->
  times s' k = times s k -> kview_at s k i = Some v ->
  (v = idle_view -> kglobal_of s' k = kglobal_of s k /\ forall j, kview_at s' k j = kview_at s k j) ->
  (client_state k i (kglobal_of s k) v ->
     (exists v', kview_at s' k i = Some v' /\ client_state k i (kglobal_of s' k) v')
     /\ forall j, j <> i -> kview_at s' k j = kview_at s k j) -> client_inv s' k.
Proof.
  intros H Ht Hi Hidle Hstep.
  assert (v = idle_view -> client_inv s' k) as Hi'.
  { intros E. destruct (Hidle E). by eapply client_inv_frame. }
  unfold client_inv in *. rewrite Ht in *. destruct (times s k) as [|[|n]]; [| |done].
  - destruct H as [H1 H2]. apply Hi'. by eapply H2.
  - destruct H as (i0 & v0 & H1 & H2 & H3). destruct (decide (i = i0)) as [->|Hne].
    + rewrite H1 in Hi. injection Hi as <-. destruct (Hstep H2) as [(v' & V & C) Hv].
      exists i0, v'. split_and!; [done..|]. intros j v1 Hne. rewrite Hv by done. by apply H3.
    + apply Hi'. by eapply H3.
Qed.

End Clients.

(** *** Messages about other clients *)

Lemma filter_out_other k f (ms : list OutboxMsg) : f <> k -> Forall (fun m => out_fd m = f) ms ->
  filter (fun m => out_fd m = k) ms = [].
Proof.
  intros Hne. induction 1 as [|m ms Hm _ IH]; [done|]. rewrite filter_cons_False by congruence. done.
Qed.

Lemma filter_out_all k (ms : list OutboxMsg) : Forall (fun m => out_fd m = k) ms ->
  filter (fun m => out_fd m = k) ms = ms.
Proof. induction 1 as [|m ms Hm _ IH]; [done|]. rewrite filter_cons_True by done. by rewrite IH. Qed.

Lemma requests_of_filter k l : requests_of k (filter (fun m => out_fd m = k) l) = requests_of k l.
Proof.
  induction l as [|m l IH]; [done|]. destruct (decide (out_fd m = k)) as [E|E].
  - rewrite filter_cons_True by done. cbn. f_equal. exact IH.
  - rewrite filter_cons_False by done. rewrite IH. destruct m as [f vs|f]; cbn in *; [|done].
    by rewrite bool_decide_false.
Qed.

Lemma posted_filter k l : posted k (filter (fun m => in_fd m = k) l) = posted k l.
Proof.
  induction l as [|m l IH]; [done|]. destruct (decide (in_fd m = k)) as [E|E].
  - rewrite filter_cons_True by done. cbn. f_equal. exact IH.
  - rewrite filter_cons_False by done. rewrite IH. destruct m as [f|f r]; cbn in *; [done|].
    by rewrite bool_decide_false.
Qed.

Lemma requests_of_app k a b : requests_of k (a ++ b) = requests_of k a ++ requests_of k b.
Proof. apply flat_map_app. Qed.

Lemma own_requests_app k a b : own_requests k (a ++ b) = own_requests k a ++ own_requests k b.
Proof. apply flat_map_app. Qed.

Lemma own_requests_msg k m : own_requests k (requests [m]) = requests_of k [m].
Proof.
  unfold requests. cbn. rewrite !app_nil_r. destruct m as [f vs|f]; [|done].
  induction vs as [|v vs IH]; cbn; [by case_match|]. rewrite IH. by case_bool_decide.
Qed.

Lemma batch_msg_fd k vs : Forall (fun m => out_fd m = k) (batch_msg k vs).
Proof. unfold batch_msg. case_bool_decide; by repeat constructor. Qed.

(** All a step of connection [f] emits is about [f]. *)
Lemma conn_step_emits f t t' data resp : conn_step f t t' data resp ->
  exists ms, outbox_ t' = outbox_ t ++ ms /\ Forall (fun m => out_fd m = f) ms.
Proof.
  intros (c & _ & [(c' & vs & _ & _ & O & _)|(_ & vs & r & ms & O & Hms & _)]).
  - exists (batch_msg f vs). split; [done|]. apply batch_msg_fd.
  - exists (ms ++ [Disconnect f]). split; [done|]. apply Forall_app. split; [|by repeat constructor].
    destruct Hms as [[_ ->]|[_ ->]]; [apply batch_msg_fd|done].
Qed.

Lemma view_other k f inbox inbox' t t' ms :
  f <> k -> others_kept f t t' -> outbox_ t' = outbox_ t ++ ms -> Forall (fun m => out_fd m = f) ms ->
  filter (fun m => in_fd m = k) inbox' = filter (fun m => in_fd m = k) inbox ->
  view_of k inbox' t' = view_of k inbox t.
Proof.
  intros Hne Ho O Hms Hin. unfold view_of. destruct (Ho k) as [-> ->]; [done|].
  rewrite Hin, O, filter_app, (filter_out_other k f ms Hne Hms), app_nil_r. done.
Qed.

Lemma requests_of_own k vs l : requests_of k (CommandBatch k vs :: l) = vs ++ requests_of k l.
Proof. cbn. by rewrite bool_decide_true. Qed.

Lemma requests_of_disconnect k ms : requests_of k (ms ++ [Disconnect k]) = requests_of k ms.
Proof. rewrite requests_of_app. cbn. apply app_nil_r. Qed.

Lemma posted_own k b l : posted k (WriteResponse k b :: l) = b ++ posted k l.
Proof. cbn. by rewrite bool_decide_true. Qed.

#[local] Arguments requests_of : simpl never.
#[local] Arguments posted : simpl never.
#[local] Arguments own_requests : simpl never.

(** *** Steps of a client's own connection *)

Section Phases.
Context (k : Z) (i : nat).

(** The connection reads or writes. *)
Lemma state_conn_step route own gt rs to from t t' data resp :
  client_state k i (mkGlobal route own gt rs) (mkView to from (connections_ t !! k) (sent_to k t)) ->
  conn_step k t t' data resp -> (small_str gt -> small_str (gt ++ data)) ->
  Forall is_response to ->
  exists ms, outbox_ t' = outbox_ t ++ ms /\ Forall (fun m => out_fd m = k) ms
  /\ forall to', Forall is_response to' -> posted k to = resp ++ posted k to' ->
     client_state k i (mkGlobal route own (gt ++ data) rs)
       (mkView to' (from ++ ms) (connections_ t' !! k) (sent_to k t')).
Proof.
  intros Hst (c & Hc & Hcase) Hs Hto.
  destruct (conn_step_emits k t t' data resp) as (ms & O & Hms); [by exists c|].
  exists ms. split_and!; [done..|]. intros to' Hto' Hp.
  destruct Hst as [(_ & _ & Hn & _)|[(c0 & Hc0 & _ & Hnd & Hr & Hsm & Hpar & Hrep)|(Hn & _)]]; cbn in *; [congruence| |congruence].
  rewrite Hc in Hc0. injection Hc0 as <-. specialize (Hs Hsm). right.
  destruct Hcase as [(c' & vs & Hc' & Hvs & O' & S)|(Hnone & vs & r & ms' & O' & Hvs & S)];
    rewrite O in O'; apply app_inv_head in O' as ->; [left|right].
  - exists c'. cbn. split_and!; try done.
    + rewrite not_elem_of_app. split; [done|]. unfold batch_msg. case_bool_decide; [apply not_elem_of_nil|].
      by rewrite list_elem_of_singleton.
    + rewrite requests_of_app, requests_of_batch, app_assoc. eapply parses_extend; [done|exact Hpar|done].
    + rewrite <- Hrep, Hp, app_assoc, S, <- !app_assoc. done.
  - unfold closed. cbn. split_and!; [done|done| | |].
    + left. split; [done|]. exists (from ++ ms'). split; [by rewrite app_assoc|].
      rewrite not_elem_of_app. split; [done|]. destruct Hvs as [[_ ->]|[_ ->]]; [|apply not_elem_of_nil].
      unfold batch_msg. case_bool_decide; [apply not_elem_of_nil|]. by rewrite list_elem_of_singleton.
    + rewrite requests_of_app, requests_of_disconnect, app_assoc.
      destruct Hvs as [[Hvs ->]|[Hvs ->]].
      * rewrite requests_of_batch. eexists. split; [|reflexivity]. exists r. left. by eapply parses_extend.
      * eexists. split; [exists r; right; by eapply malformed_extend|]. cbn. rewrite app_nil_r. by apply prefix_app_r.
    + rewrite <- Hrep, Hp. etransitivity; [exact S|]. rewrite !app_assoc. by apply prefix_app_r.
Qed.

(** The main thread executes a batch of the client. *)
Lemma state_exec_batch route own gt rs to vs rest conn sent b :
  client_state k i (mkGlobal route own gt rs) (mkView to (CommandBatch k vs :: rest) conn sent) ->
  client_state k i (mkGlobal route (own ++ vs) gt (rs ++ b))
    (mkView (to ++ if bool_decide (route = Some i) then [WriteResponse k b] else []) rest conn sent).
Proof.
  intros [(_ & Hn & _)|[(c & Hc & Hto & Hnd & Hr & Hsm & Hpar & Hrep)|(Hn & Hto & Hd & (w & Hw & Hpre) & Hsent)]];
    cbn in *; [done| |]; rewrite ?requests_of_own in *.
  - right. left. exists c. cbn. subst route. rewrite bool_decide_true by done. split_and!; try done.
    + apply Forall_app. split; [done|]. by repeat constructor.
    + by apply not_elem_of_cons in Hnd as [_ ?].
    + by rewrite <- app_assoc.
    + rewrite posted_app, posted_own, app_nil_r, <- Hrep, <- !app_assoc. done.
  - right. right. destruct Hd as [[-> (pre & Hpre' & Hnd)]|[_ ?]]; [|done]. unfold closed. cbn.
    rewrite bool_decide_true by done. destruct pre as [|m pre]; [done|]. injection Hpre' as <- ->. split_and!; try done.
    + apply Forall_app. split; [done|]. by repeat constructor.
    + left. split; [done|]. exists pre. split; [done|]. by apply not_elem_of_cons in Hnd as [_ ?].
    + exists w. split; [done|]. by rewrite <- app_assoc.
    + etransitivity; [done|]. by apply prefix_app_r.
Qed.

(** The main thread learns that the client is gone. *)
Lemma state_exec_disconnect route own gt rs to rest conn sent :
  client_state k i (mkGlobal route own gt rs) (mkView to (Disconnect k :: rest) conn sent) ->
  client_state k i (mkGlobal None own gt rs) (mkView to rest conn sent).
Proof.
  intros [(_ & Hn & _)|[(c & Hc & Hto & Hnd & _)|(Hn & Hto & Hd & (w & Hw & Hpre) & Hsent)]]; cbn in *; [done| |].
  - by apply not_elem_of_cons in Hnd as [].
  - right. right. unfold closed. cbn. destruct Hd as [[-> (pre & Hpre' & Hnd)]|[_ ?]]; [|done].
    destruct pre as [|m pre].
    + injection Hpre' as ->. split_and!; try done; [by right|]. by exists w.
    + injection Hpre' as <- ->. by apply not_elem_of_cons in Hnd as [].
Qed.

Lemma state_route g v : client_state k i g v -> kg_route g = Some i \/ kg_route g = None.
Proof.
  intros [(_ & _ & _ & _ & H & _)|[(c & _ & _ & _ & H & _)|(_ & _ & [[H _]|[H _]] & _)]]; auto.
Qed.

(** The thread is told about the client. *)
Lemma state_assign g sent from conn to rest :
  client_state k i g (mkView (AssignConnection k :: rest) from conn sent) -> to = rest ->
  conn = None /\ client_state k i g (mkView to from (Some (new_connection k)) sent).
Proof.
  intros [(Hto & Hf & Hn & Hs & Hr & Ho & Hg & Hrep)|[(c & Hc & Hto & _)|(Hn & Hto & _)]] ->; cbn in *.
  - split; [done|]. right. left. exists (new_connection k). injection Hto as ->. subst. cbn.
    rewrite Ho, Hg, Hrep. split_and!; [done|done|apply not_elem_of_nil|done|done|by constructor|done].
  - by apply Forall_cons in Hto as [[] _].
  - by apply Forall_cons in Hto as [[] _].
Qed.

Lemma state_responses g to from conn sent response :
  client_state k i g (mkView (WriteResponse k response :: to) from conn sent) -> Forall is_response to.
Proof.
  intros [(Hto & _)|[(c & Hc & Hto & _)|(Hn & Hto & _)]]; cbn in *; [done|by apply Forall_cons in Hto as [_ ?]..].
Qed.

Lemma state_connected g v c : client_state k i g v -> kv_conn v = Some c -> Forall is_response (kv_to v).
Proof. intros [(_ & _ & H & _)|[(c' & _ & H & _)|(H & _)]] Hc; congruence || done. Qed.

(** A reply for a connection that is closed is dropped. *)
Lemma state_drop_response g to from sent response :
  client_state k i g (mkView (WriteResponse k response :: to) from None sent) ->
  client_state k i g (mkView to from None sent).
Proof.
  intros [(Hto & _)|[(c & Hc & _)|(Hn & Hto & H)]]; cbn in *; [done|done|].
  right. right. split; [done|]. cbn. split; [by apply Forall_cons in Hto as [_ ?]|done].
Qed.

End Phases.

Lemma replies_to_own_batch k vs reps : length reps = length (requests [CommandBatch k vs]) ->
  replies_to k (requests [CommandBatch k vs]).*1 reps = flat_map Serialize reps.
Proof.
  unfold requests. cbn [flat_map]. rewrite app_nil_r, length_fmap. intros Hl.
  rewrite replies_to_batch by done. by rewrite bool_decide_true.
Qed.

Lemma replies_to_other k m reps : out_fd m <> k -> length reps = length (requests [m]) ->
  replies_to k (requests [m]).*1 reps = [].
Proof.
  destruct m as [f vs|f]; cbn [out_fd]; intros Hne Hl; [|by destruct reps]. unfold requests in *.
  cbn [flat_map] in *. rewrite app_nil_r in *. rewrite length_fmap in Hl.
  rewrite replies_to_batch by done. by rewrite bool_decide_false.
Qed.

Lemma requests_of_other k m : out_fd m <> k -> requests_of k [m] = [].
Proof. destruct m as [f vs|f]; unfold requests_of; cbn; intros Hne; [by rewrite bool_decide_false|done]. Qed.

(** *** One message of the inbox, one socket event *)

Lemma HandleAssign_sent t f k : sent_to k (HandleAssign t f) = sent_to k t.
Proof.
  unfold HandleAssign. rewrite sent_to_call. cbn [sent_payload]. rewrite app_nil_r.
  destruct (connections_ _ !! f); rewrite ?sent_to_set_connections, sent_to_call; by rewrite app_nil_r.
Qed.

Lemma HandleAssign_connections t f :
  connections_ (HandleAssign t f)
  = match connections_ t !! f with Some _ => connections_ t | None => <[f := new_connection f]> (connections_ t) end.
Proof. unfold HandleAssign. cbn. by destruct (connections_ t !! f). Qed.

Lemma HandleAssign_outbox t f : outbox_ (HandleAssign t f) = outbox_ t.
Proof. unfold HandleAssign. cbn. by destruct (connections_ t !! f). Qed.

(** What a message of the inbox does to its own connection. *)
Definition inbox_effect (t t' : IoThread) (m : InboxMsg) : Prop :=
  match m with
  | AssignConnection f => t' = HandleAssign t f
  | WriteResponse f r =>
      match connections_ t !! f with None => t' = t | Some _ => conn_step f t t' [] r end
  end.

Lemma recv_thread t m sends : io_inv t -> inbox_answersb t m sends = true ->
  exists t', DrainInbox t [(m, sends)] = Ok t' /\ io_inv t' /\ others_kept (in_fd m) t t'
    /\ inbox_effect t t' m
    /\ exists ms, outbox_ t' = outbox_ t ++ ms /\ Forall (fun x => out_fd x = in_fd m) ms.
Proof.
  intros Hi Ha. destruct m as [f|f r]; cbn [DrainInbox inbox_effect in_fd].
  - eexists. split; [done|]. split; [by apply HandleAssign_inv|]. split; [|split; [done|]].
    + intros k' Hne. rewrite HandleAssign_sent, HandleAssign_connections. split; [|done].
      case_match; [done|]. by rewrite lookup_insert_ne.
    + exists []. by rewrite HandleAssign_outbox, app_nil_r.
  - cbn in Ha. apply answersb_spec in Ha. destruct (connections_ t !! f) as [c|] eqn:Hc.
    + unfold pending in Ha. rewrite Hc in Ha.
      destruct (HandleWriteResponse_conn t f c r sends Hc Hi Ha) as (t' & -> & Hs & Ho & Hi').
      exists t'. split_and!; [done..|]. by eapply conn_step_emits.
    + unfold HandleWriteResponse. rewrite Hc. exists t. split_and!; [done..|]. exists []. by rewrite app_nil_r.
Qed.

Definition socket_effect (t t' : IoThread) (ev : socket_event) : Prop :=
  match connections_ t !! socket_fd ev with
  | None => t' = t
  | Some _ => conn_step (socket_fd ev) t t' (event_reads t ev) []
  end.

Lemma socket_thread t ev seen : io_inv t -> event_okb seen t ev = true ->
  exists t', run_event t (to_io_event ev) = Ok t' /\ io_inv t' /\ others_kept (socket_fd ev) t t'
    /\ socket_effect t t' ev
    /\ exists ms, outbox_ t' = outbox_ t ++ ms /\ Forall (fun x => out_fd x = socket_fd ev) ms.
Proof.
  intros Hi Ha. unfold socket_effect. destruct (connections_ t !! socket_fd ev) as [c|] eqn:Hc.
  - destruct (run_event_conn t _ c ev seen eq_refl Hc Hi Ha) as (t' & -> & Hs & Ho & Hi').
    exists t'. split_and!; [done..|]. by eapply conn_step_emits.
  - rewrite run_event_absent by done. exists t. split_and!; [done..|]. exists []. by rewrite app_nil_r.
Qed.

Lemma event_reads_absent t ev : connections_ t !! socket_fd ev = None -> event_reads t ev = [].
Proof. destruct ev as [f|f [r|] w]; cbn; try done. by intros ->. Qed.

Lemma event_reads_fit seen t ev : event_okb seen t ev = true -> small_str seen ->
  small_str (seen ++ event_reads t ev).
Proof.
  intros Ha Hs. assert (small_str (seen ++ [])) as Hn by (by rewrite app_nil_r).
  destruct ev as [f|f [r|] w]; cbn [event_reads event_okb] in *; try done.
  destruct (connections_ t !! f); [|done]. apply andb_true_iff in Ha as [Ha _].
  apply andb_true_iff in Ha as [(_ & _ & ?)%readsb_spec _]. done.
Qed.

(** *** Every step keeps the invariant *)

Section Steps.
Context {M : Type} {ops : MapOps bytes Entry M}.
Context (clock : nat -> Z) (store0 : M).
#[local] Abbreviation client_ok := (client_inv clock store0).
#[local] Abbreviation state_ok := (async_inv clock store0).

Lemma kview_at_eq (srv' : Server M) ts i t t' acc lg rc k : ts !! i = Some t ->
  kview_at (mkAsync srv' (<[i := t']> ts) acc lg rc) k i = Some (view_of k (inbox_of srv' i) t').
Proof.
  intros Hi. unfold kview_at. cbn. by rewrite list_lookup_insert_eq by (by eapply lookup_lt_Some).
Qed.

Lemma kview_at_ne (srv' : Server M) ts i j t' acc lg rc k : j <> i ->
  kview_at (mkAsync srv' (<[i := t']> ts) acc lg rc) k j = view_of k (inbox_of srv' j) <$> ts !! j.
Proof. intros Hj. unfold kview_at. cbn. by rewrite list_lookup_insert_ne by done. Qed.

Lemma inbox_of_set (s : Server M) i j l : (i < length (inboxes s))%nat ->
  inbox_of (set_inbox s i l) j = if decide (j = i) then l else inbox_of s j.
Proof.
  intros Hi. unfold inbox_of, set_inbox. cbn. case_decide as E; subst.
  - by rewrite list_lookup_insert_eq.
  - by rewrite list_lookup_insert_ne by done.
Qed.

Lemma inbox_of_response (s s' : Server M) f b j : routes_ok s ->
  inboxes s' = match fd_to_thread_ s !! f with
               | None => inboxes s
               | Some i => alter (fun l => l ++ [WriteResponse f b]) i (inboxes s)
               end ->
  inbox_of s' j = inbox_of s j ++ if bool_decide (fd_to_thread_ s !! f = Some j) then [WriteResponse f b] else [].
Proof.
  intros [Hr _] H. unfold inbox_of. rewrite H. destruct (fd_to_thread_ s !! f) as [i|] eqn:Hf.
  - apply (map_Forall_lookup_1 _ _ _ _ Hr) in Hf. case_bool_decide as E.
    + injection E as ->. rewrite list_lookup_alter_eq. destruct (lookup_lt_is_Some_2 _ _ Hf) as [l ->]. done.
    + rewrite list_lookup_alter_ne by congruence. by rewrite app_nil_r.
  - rewrite bool_decide_false by done. by rewrite app_nil_r.
Qed.

(** [Accept]. *)
Lemma accept_inv (s : async M) f : state_ok s ->
  state_ok (mkAsync (AssignToIoThread (srv s) f) (threads s) (accepted s ++ [f]) (log s) (received s)).
Proof.
  intros [Hr Ht Hio Hl He]. destruct (AssignToIoThread_routes (srv s) f Hr) as (Hr' & Hlen & _).
  split; [exact Hr'|cbn [srv threads]; congruence|exact Hio|exact Hl|exact He].
Qed.

Lemma accept_client (s : async M) f k : state_ok s -> client_ok s k ->
  client_ok (mkAsync (AssignToIoThread (srv s) f) (threads s) (accepted s ++ [f]) (log s) (received s)) k.
Proof.
  intros Hinv H. destruct Hinv as [Hr Ht Hio Hl He].
  destruct (AssignToIoThread_routes (srv s) f Hr) as (_ & _ & _ & Hm & Hi).
  set (s' := mkAsync _ _ _ _ _). destruct (decide (f = k)) as [->|Hne].
  - assert (times s' k = S (times s k)) as Ht'.
    { unfold times, s'. cbn. rewrite filter_app, length_app, filter_cons_True by done. cbn. lia. }
    unfold client_inv in *. rewrite Ht'. destruct (times s k) as [|n]; [|done].
    destruct H as [Hg Hv]. destruct (lookup_lt_is_Some_2 (threads s) (next_thread_ (srv s))) as [t Hth].
    { rewrite Ht. apply Hr. }
    unfold kglobal_of in *. injection Hg as G1 G2 G3 G4.
    specialize (Hv (next_thread_ (srv s)) (view_of k (inbox_of (srv s) (next_thread_ (srv s))) t)) as Hidle.
    unfold kview_at in Hidle. rewrite Hth in Hidle. specialize (Hidle eq_refl).
    unfold view_of in Hidle. injection Hidle as V1 V2 V3 V4.
    exists (next_thread_ (srv s)), (view_of k (inbox_of (srv s') (next_thread_ (srv s))) t). split_and!.
    + unfold kview_at. cbn. by rewrite Hth.
    + left. unfold assigning. cbn [s' srv log kv_to kv_from kv_conn kv_sent kg_route kg_own kg_got kg_replies view_of].
      rewrite Hi, Hm, bool_decide_true, lookup_insert_eq, filter_app, V1, filter_cons_True by done. done.
    + intros j v' Hj. unfold kview_at. cbn. rewrite Hi, bool_decide_false, app_nil_r by congruence. apply Hv.
  - eapply client_inv_frame; [exact H| | |].
    + unfold times, s'. cbn. rewrite filter_app, filter_cons_False by done. by rewrite app_nil_r.
    + unfold kglobal_of. cbn [s' srv log got received]. by rewrite Hm, lookup_insert_ne by done.
    + intros j. unfold kview_at, view_of. cbn. rewrite Hi, filter_app. case_bool_decide; [|by rewrite app_nil_r].
      rewrite (filter_cons_False _ (AssignConnection f)) by done. by rewrite app_nil_r.
Qed.

(** [Exec]. *)
Lemma exec_log (s : async M) srv' ts m : state_ok s -> process_msg clock (srv s) m = Ok srv' ->
  let s' := mkAsync srv' ts (accepted s) (log s ++ requests [m]) (received s) in
  exists reps, length reps = length (requests [m])
    /\ serve store0 (timed clock 0 (log s').*2) = Ok (store_ srv', replies clock store0 s ++ reps)
    /\ replies clock store0 s' = replies clock store0 s ++ reps
    /\ match m with
       | CommandBatch f vs =>
           fd_to_thread_ srv' = fd_to_thread_ (srv s)
           /\ forall j, inbox_of srv' j = inbox_of (srv s) j
               ++ if bool_decide (fd_to_thread_ (srv s) !! f = Some j) then [WriteResponse f (flat_map Serialize reps)] else []
       | Disconnect f => fd_to_thread_ srv' = delete f (fd_to_thread_ (srv s)) /\ inboxes srv' = inboxes (srv s)
       end.
Proof.
  intros [Hr Ht Hio Hl He] Hp s'. apply process_msg_inv in Hp as (reps & Hs & _ & _ & Hm). exists reps.
  assert (serve store0 (timed clock 0 (log s').*2) = Ok (store_ srv', replies clock store0 s ++ reps)) as Hlog.
  { unfold s'. cbn [log]. rewrite fmap_app. eapply serve_snoc; [exact Hl|]. by rewrite length_fmap, <- He. }
  split; [|split; [done|split]].
  - apply serve_length in Hs. by rewrite length_timed, length_fmap in Hs.
  - unfold replies at 1. by rewrite Hlog.
  - destruct m as [f vs|f]; [|done]. destruct Hm as [Hm Hin]. split; [done|]. intros j. by apply inbox_of_response.
Qed.

Lemma exec_inv (s : async M) srv' i t m rest : state_ok s -> threads s !! i = Some t ->
  process_msg clock (srv s) m = Ok srv' ->
  state_ok (mkAsync srv' (<[i := set_outbox t rest]> (threads s)) (accepted s) (log s ++ requests [m]) (received s)).
Proof.
  intros Hinv Hi Hp. destruct (exec_log s srv' (<[i := set_outbox t rest]> (threads s)) m Hinv Hp) as (reps & _ & Hlog & Hrep & _).
  destruct Hinv as [Hr Ht Hio Hl He]. apply process_msg_inv in Hp as (reps' & _ & Hex & Hnext & Hm).
  assert (length (inboxes srv') = length (inboxes (srv s))) as Hlen.
  { destruct m as [f vs|f]; destruct Hm as [_ ->]; [|done]. case_match; [by rewrite length_alter|done]. }
  split; cbn [srv threads log].
  - destruct Hr as [Hr1 Hr2]. split; rewrite Hlen, ?Hnext; [|done].
    destruct m as [f vs|f]; destruct Hm as [-> _]; [done|by apply map_Forall_delete].
  - by rewrite length_insert, Hlen.
  - apply Forall_insert; [done|]. by apply (Forall_lookup_1 _ _ _ _ Hio Hi).
  - rewrite Hrep. exact Hlog.
  - by rewrite Hex, He, length_app.
Qed.

(** The replies and the requests after a message was executed. *)
Lemma exec_replies (s : async M) srv' ts m reps k : state_ok s ->
  let s' := mkAsync srv' ts (accepted s) (log s ++ requests [m]) (received s) in
  replies clock store0 s' = replies clock store0 s ++ reps ->
  replies_to k (log s').*1 (replies clock store0 s')
    = replies_to k (log s).*1 (replies clock store0 s) ++ replies_to k (requests [m]).*1 reps
  /\ own_requests k (log s') = own_requests k (log s) ++ requests_of k [m].
Proof.
  intros Hinv s' Hrep. split; [|unfold s'; cbn [log]; by rewrite own_requests_app, own_requests_msg].
  rewrite Hrep. unfold s'. cbn [log]. rewrite fmap_app. apply replies_to_app. rewrite length_fmap.
  destruct Hinv as [_ _ _ Hl _]. apply serve_length in Hl. by rewrite length_timed, length_fmap in Hl.
Qed.

Lemma exec_client (s : async M) srv' i t m rest k : state_ok s -> client_ok s k ->
  threads s !! i = Some t -> outbox_ t = m :: rest -> process_msg clock (srv s) m = Ok srv' ->
  client_ok (mkAsync srv' (<[i := set_outbox t rest]> (threads s)) (accepted s) (log s ++ requests [m]) (received s)) k.
Proof.
  intros Hinv H Hi Ho Hp. set (s' := mkAsync _ _ _ _ _).
  destruct (exec_log s srv' (<[i := set_outbox t rest]> (threads s)) m Hinv Hp) as (reps & Hlen & _ & Hrep & Hm).
  fold s' in Hrep.
  destruct (exec_replies s srv' _ m reps k Hinv Hrep) as [Hrk Hown]. fold s' in Hrk, Hown.
  destruct (decide (out_fd m = k)) as [E|Hne].
  - assert (kview_at s k i = Some (mkView (filter (fun m => in_fd m = k) (inbox_of (srv s) i))
        (m :: filter (fun m => out_fd m = k) rest) (connections_ t !! k) (sent_to k t))) as Hv.
    { unfold kview_at, view_of. rewrite Hi. cbn. by rewrite Ho, filter_cons_True. }
    eapply (client_inv_step clock store0 s s' k i); [exact H|done|exact Hv|done|].
    + intros Hst. assert (kview_at s' k i = Some (view_of k (inbox_of srv' i) (set_outbox t rest))) as Hv'
        by (by eapply kview_at_eq).
      split; [eexists; split; [exact Hv'|]|].
      * unfold kglobal_of in *. rewrite Hrk, Hown. unfold view_of. cbn [s' srv set_outbox outbox_ connections_].
        destruct m as [f vs|f]; cbn in E; subst f; destruct Hm as [-> Hin].
        -- apply (state_exec_batch _ _ _ _ _ _ _ _ _ _ _ (flat_map Serialize reps)) in Hst.
           rewrite requests_of_own, Hin, filter_app, replies_to_own_batch by done.
           change (requests_of k []) with (@nil RespValue). rewrite app_nil_r.
           case_bool_decide; [rewrite filter_cons_True by done|]; exact Hst.
        -- apply state_exec_disconnect in Hst. rewrite lookup_delete_eq.
           change (requests_of k [Disconnect k]) with (@nil RespValue). cbn [requests flat_map app fmap list_fmap replies_to].
           rewrite !app_nil_r. unfold inbox_of. rewrite Hin. exact Hst.
      * intros j Hj. unfold s'. rewrite kview_at_ne by done. unfold kview_at, view_of.
        assert (inbox_of srv' j = inbox_of (srv s) j) as ->; [|done].
        destruct m as [f vs|f]; cbn in E; subst f; destruct Hm as [_ Hin]; [|by unfold inbox_of; rewrite Hin].
        rewrite Hin. rewrite bool_decide_false; [by rewrite app_nil_r|].
        apply state_route in Hst as [Hst|Hst]; cbn in Hst; congruence.
  - eapply client_inv_frame; [exact H|done| |].
    + unfold kglobal_of. rewrite Hrk, Hown, replies_to_other, requests_of_other, !app_nil_r by done.
      cbn [s' srv]. destruct m as [f vs|f]; destruct Hm as [-> _]; [done|]. by rewrite lookup_delete_ne.
    + assert (forall j, filter (fun m => in_fd m = k) (inbox_of srv' j) = filter (fun m => in_fd m = k) (inbox_of (srv s) j)) as Hf.
      { intros j. destruct m as [f vs|f]; destruct Hm as [_ Hin]; [|by unfold inbox_of; rewrite Hin].
        rewrite Hin, filter_app. case_bool_decide; [rewrite filter_cons_False by done|]; by rewrite app_nil_r. }
      intros j. destruct (decide (j = i)) as [->|Hj].
      * unfold s'. rewrite (kview_at_eq srv' (threads s) i t) by done. unfold kview_at. rewrite Hi. cbn. f_equal.
        unfold view_of. cbn. rewrite Hf, Ho, filter_cons_False by done. done.
      * unfold s'. rewrite kview_at_ne by done. unfold kview_at, view_of. by rewrite Hf.
Qed.

(** [Recv] and [Socket]: one thread's state changes, and one inbox. *)
Lemma thread_inv (s : async M) srv' i t t' rc : state_ok s -> threads s !! i = Some t -> io_inv t' ->
  routes_ok srv' -> length (inboxes srv') = length (inboxes (srv s)) ->
  store_ srv' = store_ (srv s) -> executed srv' = executed (srv s) ->
  state_ok (mkAsync srv' (<[i := t']> (threads s)) (accepted s) (log s) rc).
Proof.
  intros [Hr Ht Hio Hl He] Hi Hi' Hr' Hlen Hst Hex. split; cbn [srv threads log].
  - done.
  - by rewrite length_insert, Hlen.
  - by apply Forall_insert.
  - rewrite Hst. exact Hl.
  - by rewrite Hex.
Qed.

Lemma recv_client (s : async M) i t t' m rest sends k : state_ok s -> client_ok s k ->
  threads s !! i = Some t -> inbox_of (srv s) i = m :: rest -> inbox_answersb t m sends = true ->
  DrainInbox t [(m, sends)] = Ok t' ->
  client_ok (mkAsync (set_inbox (srv s) i rest) (<[i := t']> (threads s)) (accepted s) (log s) (received s)) k.
Proof.
  intros Hinv H Hi Hin Ha Hd. set (s' := mkAsync _ _ _ _ _).
  assert (i < length (inboxes (srv s)))%nat as Hlt by (rewrite <- (inv_threads _ _ _ Hinv); by eapply lookup_lt_Some).
  pose proof (Forall_lookup_1 _ _ _ _ (inv_io _ _ _ Hinv) Hi) as Hio.
  destruct (recv_thread t m sends Hio Ha) as (t1 & Hd' & Hi' & Hk & Heff & ms & Ho & Hms). rewrite Hd in Hd'. injection Hd' as <-.
  assert (kview_at s' k i = Some (view_of k rest t')) as Hv'.
  { unfold s'. rewrite (kview_at_eq _ (threads s) i t) by done. by rewrite inbox_of_set, decide_True by done. }
  assert (forall j, j <> i -> kview_at s' k j = kview_at s k j) as Hj.
  { intros j Hne. unfold s'. rewrite kview_at_ne by done. unfold kview_at. by rewrite inbox_of_set, decide_False by done. }
  assert (kglobal_of clock store0 s' k = kglobal_of clock store0 s k) as Hg by done.
  assert (kview_at s k i = Some (view_of k (m :: rest) t)) as Hv.
  { unfold kview_at. by rewrite Hi, Hin. }
  destruct (decide (in_fd m = k)) as [E|Hne].
  - unfold view_of in Hv. rewrite filter_cons_True in Hv by done.
    eapply (client_inv_step clock store0 s s' k i); [exact H|done|exact Hv|done|].
    intros Hst. split; [|done]. eexists. split; [exact Hv'|]. rewrite Hg. unfold view_of.
    destruct m as [f|f r]; cbn in E, Heff; subst f.
    + apply (state_assign _ _ _ _ _ _ (filter (fun m => in_fd m = k) rest)) in Hst as [Hn Hst]; [|done]. subst t'.
      rewrite HandleAssign_sent, HandleAssign_outbox, HandleAssign_connections, Hn, lookup_insert_eq. exact Hst.
    + destruct (connections_ t !! k) as [c|] eqn:Hc.
      * rewrite <- Hc in Hst. pose proof (state_responses _ _ _ _ _ _ _ _ Hst) as Hresp.
        unfold kglobal_of in *.
        eapply state_conn_step in Hst as (ms' & O' & Hms' & Hst); [|exact Heff|by rewrite app_nil_r|by constructor].
        rewrite O', filter_app, (filter_out_all k ms') by done. rewrite app_nil_r in Hst.
        apply Hst; [done|]. by rewrite posted_own.
      * subst t'. rewrite Hc. by eapply state_drop_response.
  - eapply client_inv_frame; [exact H|done|done|]. intros j. destruct (decide (j = i)) as [->|]; [|by apply Hj].
    rewrite Hv', Hv. f_equal. eapply view_other; [exact Hne|done|done|done|]. by rewrite filter_cons_False.
Qed.

Lemma socket_client (s : async M) i t t' ev k : state_ok s -> client_ok s k ->
  threads s !! i = Some t -> event_okb (got s (socket_fd ev)) t ev = true ->
  run_event t (to_io_event ev) = Ok t' ->
  client_ok (mkAsync (srv s) (<[i := t']> (threads s)) (accepted s) (log s)
    (<[socket_fd ev := got s (socket_fd ev) ++ event_reads t ev]> (received s))) k.
Proof.
  intros Hinv H Hi Ha Hd. set (s' := mkAsync _ _ _ _ _).
  pose proof (Forall_lookup_1 _ _ _ _ (inv_io _ _ _ Hinv) Hi) as Hio.
  destruct (socket_thread t ev _ Hio Ha) as (t1 & Hd' & Hi' & Hk & Heff & ms & Ho & Hms).
  rewrite Hd in Hd'. injection Hd' as <-.
  assert (kview_at s' k i = Some (view_of k (inbox_of (srv s) i) t')) as Hv' by (by eapply kview_at_eq).
  assert (forall j, j <> i -> kview_at s' k j = kview_at s k j) as Hj by (intros; by apply kview_at_ne).
  assert (kview_at s k i = Some (view_of k (inbox_of (srv s) i) t)) as Hv by (unfold kview_at; by rewrite Hi).
  destruct (decide (socket_fd ev = k)) as [E|Hne].
  - assert (got s' k = got s k ++ event_reads t ev) as Hgot.
    { unfold got at 1. cbn. by rewrite E, lookup_insert_eq. }
    unfold socket_effect in Heff. rewrite E in *.
    destruct (connections_ t !! k) as [c|] eqn:Hc.
    + eapply (client_inv_step clock store0 s s' k i); [exact H|done|exact Hv|by unfold view_of; rewrite Hc|].
      intros Hst. split; [|done]. eexists. split; [exact Hv'|]. unfold kglobal_of in *. rewrite Hgot.
      pose proof (state_connected _ _ _ _ _ Hst Hc) as Hresp.
      eapply state_conn_step in Hst as (ms' & O' & Hms' & Hst);
        [|exact Heff|by apply event_reads_fit|exact Hresp].
      unfold view_of. rewrite O', filter_app, (filter_out_all k ms') by done. by apply Hst.
    + subst t'. eapply client_inv_frame; [exact H|done| |].
      * unfold kglobal_of. rewrite Hgot, event_reads_absent, app_nil_r by congruence. done.
      * intros j. destruct (decide (j = i)) as [->|]; [|by apply Hj]. by rewrite Hv', Hv.
  - eapply client_inv_frame; [exact H|done| |].
    + unfold kglobal_of. f_equal. unfold got. cbn. by rewrite lookup_insert_ne.
    + intros j. destruct (decide (j = i)) as [->|]; [|by apply Hj].
      rewrite Hv', Hv. f_equal. by eapply view_other.
Qed.

Lemma step_inv (s s' : async M) l : step clock s l = Some s' ->
  state_ok s -> (forall k, client_ok s k) -> state_ok s' /\ forall k, client_ok s' k.
Proof.
  intros Hstep Hinv Hcl. destruct l as [f|i|i sends|i ev|ev]; cbn [step] in Hstep.
  - injection Hstep as <-. split; [by apply accept_inv|]. intros k. by apply accept_client.
  - apply bind_Some in Hstep as (t & Hi & Hstep). destruct (outbox_ t) as [|m rest] eqn:Ho; [done|].
    destruct (process_msg clock (srv s) m) as [srv'| | |] eqn:Hp; try done. injection Hstep as <-.
    split; [by apply exec_inv|]. intros k. by apply exec_client.
  - apply bind_Some in Hstep as (t & Hi & Hstep). destruct (inbox_of (srv s) i) as [|m rest] eqn:Hin; [done|].
    destruct (inbox_answersb t m sends) eqn:Ha; [|done].
    destruct (DrainInbox t [(m, sends)]) as [t'| | |] eqn:Hd; try done. injection Hstep as <-.
    split; [|intros k; by eapply recv_client].
    destruct (recv_thread t m sends) as (t1 & Hd' & Hi' & _); [by apply (Forall_lookup_1 _ _ _ _ (inv_io _ _ _ Hinv) Hi)|done|].
    rewrite Hd in Hd'. injection Hd' as <-.
    eapply thread_inv; [done..| |by cbn; rewrite length_insert|done|done].
    pose proof (inv_routes _ _ _ Hinv) as [H1 H2]. split; cbn; by rewrite length_insert.
  - apply bind_Some in Hstep as (t & Hi & Hstep). destruct (event_okb _ t ev) eqn:Ha; [|done].
    destruct (run_event t (to_io_event ev)) as [t'| | |] eqn:Hd; try done. injection Hstep as <-.
    split; [|intros k; by eapply socket_client].
    destruct (socket_thread t ev _ (Forall_lookup_1 _ _ _ _ (inv_io _ _ _ Hinv) Hi) Ha) as (t1 & Hd' & Hi' & _).
    rewrite Hd in Hd'. injection Hd' as <-. eapply thread_inv; [done..| |done|done|done]. apply (inv_routes _ _ _ Hinv).
  - injection Hstep as <-. destruct Hinv as [Hr Ht Hio Hl He].
    assert (forall srv' : Server M, srv' = run_snapshot_event (srv s) ev ->
      routes_ok srv' /\ inboxes srv' = inboxes (srv s) /\ store_ srv' = store_ (srv s) /\ executed srv' = executed (srv s)
      /\ fd_to_thread_ srv' = fd_to_thread_ (srv s)) as Hsame.
    { intros srv' ->. destruct ev as [[|pid] pfd|pfd]; cbn; unfold ReapSnapshot; repeat case_match; done. }
    destruct (Hsame _ eq_refl) as (S1 & S2 & S3 & S4 & S5). split.
    + split; cbn [srv threads log]; [done|by rewrite S2|done|rewrite S3; exact Hl|by rewrite S4].
    + intros k. eapply client_inv_frame; [exact (Hcl k)|done| |].
      * unfold kglobal_of. cbn [srv]. by rewrite S5.
      * intros j. unfold kview_at, inbox_of. cbn [srv threads]. by rewrite S2.
Qed.

(** Strings stay within what a [std::string] can hold. *)
Definition fits (s : async M) : Prop :=
  (forall k, small_str (got s k)) /\ Forall (fun t => forall k, small_str (unparsed k t)) (threads s).

Lemma conn_step_fits k t t' data resp : conn_step k t t' data resp ->
  small_str (unparsed k t ++ data) -> small_str (unparsed k t').
Proof.
  intros (c & Hc & Hcase) Hs. unfold unparsed in *. rewrite Hc in Hs.
  destruct Hcase as [(c' & vs & -> & Hp & _)|[-> _]]; [|done].
  pose proof (parses_length _ _ _ Hs Hp). unfold small_str in *. lia.
Qed.

Lemma others_kept_fits f t t' : others_kept f t t' -> (forall k, small_str (unparsed k t)) ->
  small_str (unparsed f t') -> forall k, small_str (unparsed k t').
Proof.
  intros Ho Hs Hf k. destruct (decide (k = f)) as [->|Hne]; [done|]. unfold unparsed.
  destruct (Ho k Hne) as [-> _]. apply Hs.
Qed.

Lemma step_fits (s s' : async M) l : step clock s l = Some s' -> state_ok s -> fits s -> fits s'.
Proof.
  intros Hstep Hinv [Hg Ht]. destruct l as [f|i|i sends|i ev|ev]; cbn [step] in Hstep.
  - by injection Hstep as <-.
  - apply bind_Some in Hstep as (t & Hi & Hstep). destruct (outbox_ t) as [|m rest]; [done|]. case_match; try done.
    injection Hstep as <-. split; [done|]. apply Forall_insert; [done|]. exact (Forall_lookup_1 _ _ _ _ Ht Hi).
  - apply bind_Some in Hstep as (t & Hi & Hstep). destruct (inbox_of (srv s) i) as [|m rest]; [done|].
    destruct (inbox_answersb t m sends) eqn:Ha; [|done].
    destruct (DrainInbox t [(m, sends)]) as [t'| | |] eqn:Hd; try done. injection Hstep as <-.
    destruct (recv_thread t m sends) as (t1 & Hd' & _ & Ho & Heff & _); [by apply (Forall_lookup_1 _ _ _ _ (inv_io _ _ _ Hinv) Hi)|done|].
    rewrite Hd in Hd'. injection Hd' as <-. pose proof (Forall_lookup_1 _ _ _ _ Ht Hi) as Hti. cbn in Hti.
    split; [done|]. apply Forall_insert; [done|]. eapply others_kept_fits; [exact Ho|done|].
    destruct m as [f|f r]; cbn in Heff |- *.
    + subst t'. unfold unparsed. rewrite HandleAssign_connections. specialize (Hti f). unfold unparsed in Hti.
      destruct (connections_ t !! f) eqn:E; [by rewrite E|]. by rewrite lookup_insert_eq.
    + destruct (connections_ t !! f); [|subst; apply Hti]. eapply conn_step_fits; [exact Heff|]. rewrite app_nil_r. apply Hti.
  - apply bind_Some in Hstep as (t & Hi & Hstep). destruct (event_okb _ t ev) eqn:Ha; [|done].
    destruct (run_event t (to_io_event ev)) as [t'| | |] eqn:Hd; try done. injection Hstep as <-.
    destruct (socket_thread t ev _ (Forall_lookup_1 _ _ _ _ (inv_io _ _ _ Hinv) Hi) Ha) as (t1 & Hd' & _ & Ho & Heff & _).
    rewrite Hd in Hd'. injection Hd' as <-. pose proof (Forall_lookup_1 _ _ _ _ Ht Hi) as Hti. cbn in Hti.
    split; cbn.
    + intros k. unfold got. cbn. destruct (decide (socket_fd ev = k)) as [<-|Hne].
      * rewrite lookup_insert_eq. cbn. apply event_reads_fit; [exact Ha|apply Hg].
      * rewrite lookup_insert_ne by done. apply Hg.
    + apply Forall_insert; [done|]. eapply others_kept_fits; [exact Ho|done|].
      unfold socket_effect in Heff. destruct (connections_ t !! socket_fd ev) as [c|] eqn:Hc; [|subst; apply Hti].
      eapply conn_step_fits; [exact Heff|]. specialize (Hti (socket_fd ev)).
      assert (small_str (unparsed (socket_fd ev) t ++ [])) as Hn by (by rewrite app_nil_r).
      destruct ev as [f|f [r|] w]; cbn [event_reads event_okb socket_fd] in *; try done. rewrite Hc.
      apply andb_true_iff in Ha as [Ha _]. by apply andb_true_iff in Ha as [_ (_ & _ & ?)%readsb_spec].
  - by injection Hstep as <-.
Qed.

Lemma init_fits hardware : fits (async_init store0 hardware).
Proof. split; [done|]. by apply Forall_replicate. Qed.

Lemma run_fits ls : forall s s' : async M, run clock s ls = Some s' ->
  state_ok s -> (forall k, client_ok s k) -> fits s -> fits s'.
Proof.
  induction ls as [|l ls IH]; intros s s' Hrun Hinv Hcl Hf; cbn [run] in Hrun; [by injection Hrun as <-|].
  apply bind_Some in Hrun as (s1 & Hs & Hrun). destruct (step_inv s s1 l Hs Hinv Hcl).
  eapply IH; try done. by eapply step_fits.
Qed.

Lemma init_inv hardware : state_ok (async_init store0 hardware) /\ forall k, client_ok (async_init store0 hardware) k.
Proof.
  assert (0 < NumIoThreads hardware)%nat as Hn by (unfold NumIoThreads; case_match; reflect_bools; lia). split.
  - split; cbn; [|by rewrite !length_replicate|apply Forall_replicate; apply io_inv_init|done|done].
    split; cbn; [apply map_Forall_empty|by rewrite length_replicate].
  - intros k. split; [done|]. intros j v Hv. unfold kview_at in Hv. cbn in Hv.
    apply fmap_Some in Hv as (t & Ht & ->). apply lookup_replicate in Ht as [-> Hj].
    unfold inbox_of. cbn. by rewrite lookup_replicate_2.
Qed.

Lemma run_inv ls : forall s s' : async M, run clock s ls = Some s' ->
  state_ok s -> (forall k, client_ok s k) -> state_ok s' /\ forall k, client_ok s' k.
Proof.
  induction ls as [|l ls IH]; intros s s' Hrun Hinv Hcl; cbn [run] in Hrun; [by injection Hrun as <-|].
  apply bind_Some in Hrun as (s1 & Hs & Hrun). destruct (step_inv s s1 l Hs Hinv Hcl). by eapply IH.
Qed.


End Steps.

(** ** Theorem *)

Section Theorems.
Context {M : Type} {ops : MapOps bytes Entry M} {spec : MapSpec bytes Entry M}.
Context (clock : nat -> Z).

Lemma sessions (store : M) a hardware ls s :
  represents store a -> sane_store a ->
  run clock (async_init store hardware) ls = Some s ->
  Forall request_safe (timed clock 0 (log s).*2) ->
  let outcome := exec_all a (timed clock 0 (log s).*2) in
  represents (store_ (srv s)) (fst outcome)
  /\ forall k, times s k = 1%nat ->
     exists i t, threads s !! i = Some t
       /\ (exists vs, stream (got s k) vs /\ own_requests k (log s) `prefix_of` vs)
       /\ sent_to k t `prefix_of` replies_to k (log s).*1 (snd outcome)
       /\ forall c, connections_ t !! k = Some c ->
            parses (got s k) (own_requests k (log s) ++ requests_of k (outbox_ t)) (buffer_ (parse_queue c))
            /\ sent_to k t ++ out_buffer c ++ posted k (inbox_of (srv s) i)
               = replies_to k (log s).*1 (snd outcome).
Proof.
  intros Hrep Hsane Hrun Hsafe outcome.
  destruct (init_inv clock store hardware) as [H0 C0].
  destruct (run_inv clock store ls _ _ Hrun H0 C0) as [[_ _ _ Hlog _] Hcl].
  destruct (serve_refines _ store a Hrep Hsane Hsafe) as (d' & Hserve & Hd & _). fold outcome in Hserve, Hd.
  rewrite Hserve in Hlog. injection Hlog as Hst Hr. rewrite <- Hst. split; [done|].
  intros k Hk. specialize (Hcl k). unfold client_inv in Hcl. rewrite Hk in Hcl.
  destruct Hcl as (i & v & Hv & Hs & _). unfold kview_at in Hv. apply fmap_Some in Hv as (t & Ht & ->).
  exists i, t. split; [done|]. unfold kglobal_of in Hs. rewrite <- Hr in Hs.
  destruct Hs as [(_ & _ & Hn & Hsent & _ & Ho & Hg & _)|[(c & Hc & _ & _ & _ & _ & Hp & Hb)|(Hn & _ & _ & (vs & Hvs & Hpre) & Hsent)]];
    cbn in *; rewrite ?requests_of_filter, ?posted_filter in *.
  - rewrite Ho, Hg, Hsent. split_and!; [|apply prefix_nil|congruence].
    exists []. split; [|done]. exists []. left. by constructor.
  - split_and!.
    + eexists. split; [eexists; left; exact Hp|]. by apply prefix_app_r.
    + rewrite <- Hb. by apply prefix_app_r.
    + intros c' Hc'. rewrite Hc in Hc'. injection Hc' as <-. done.
  - split_and!; [|done|congruence]. exists vs. split; [done|]. etransitivity; [|exact Hpre]. by apply prefix_app_r.
Qed.

(** C3. Every interleaving of the threads is one sequential execution: however
    the main thread and any number of IO threads alternate, and whatever the
    kernel answers, if every request of the log was safe (at a clock value from
    1970 on and below 2^62 ms, and setting no deadline that is out of range or
    equal to the -1 that means none, nor given the null option of EXPIRE) the
    store is what the abstract store becomes when it
    executes the requests of the log one after the other.  For each client
    whose descriptor was accepted only once the log has its requests in the order
    in which it sent them and no others, the bytes written to it are a prefix
    of the replies to them in that order, and while it is connected nothing is
    missing on either way: the bytes read are the requests executed, those on
    the way to the main thread, and an incomplete rest; the bytes written,
    those waiting in the connection's buffer and those on the way back are all
    the replies. *)
Theorem interleavings_linearize (store : M) a hardware ls s :
  represents store a -> sane_store a ->
  run clock (async_init store hardware) ls = Some s ->
  Forall request_safe (timed clock 0 (log s).*2) ->
  let outcome := exec_all a (timed clock 0 (log s).*2) in
  represents (store_ (srv s)) (fst outcome)
  /\ forall k, times s k = 1%nat ->
     exists i t, threads s !! i = Some t
       /\ (exists vs, stream (got s k) vs /\ own_requests k (log s) `prefix_of` vs)
       /\ sent_to k t `prefix_of` replies_to k (log s).*1 (snd outcome)
       /\ forall c, connections_ t !! k = Some c ->
            parses (got s k) (own_requests k (log s) ++ requests_of k (outbox_ t)) (buffer_ (parse_queue c))
            /\ sent_to k t ++ out_buffer c ++ posted k (inbox_of (srv s) i)
               = replies_to k (log s).*1 (snd outcome).
Proof. apply sessions. Qed.

End Theorems.

(** *** Witness *)

#[local] Existing Instance std_ops.
#[local] Existing Instance std_spec.

(** Clients 5 and 6 on two threads; 5 sends SET and GET cut in the middle of
    GET, 6 overwrites the key before GET is executed, and 5 is written to one
    byte at a time. *)
Definition sample_input : bytes := flat_map Serialize [words ["SET"; "k"; "v"]; words ["GET"; "k"]].

Definition sample_labels : list label :=
  [Accept 5; Accept 6; Recv 0 []; Recv 1 [];
   Socket 0 (SockReady 5 (Some ([take 40 sample_input], RecvError EAGAIN)) None);
   Socket 1 (SockReady 6 (Some ([Serialize (words ["SET"; "k"; "w"])], RecvError EAGAIN)) None);
   Exec 0; Snap (Ticked (ForkParent 101) 20); Exec 1;
   Socket 0 (SockReady 5 (Some ([drop 40 sample_input], RecvError EINTR)) None);
   Recv 1 (SendCount 5 :: replicate 5 (SendError EAGAIN)); Exec 0;
   Recv 0 (SendCount 1 :: replicate 5 (SendError EAGAIN));
   Socket 0 (SockReady 5 None (Some (SendCount 1 :: replicate 5 (SendError EAGAIN))))].

#[local] Abbreviation sample_final :=
  (run (fun _ => 100) (async_init (∅ : gmap bytes Entry) 3) sample_labels).

Definition sample_log : list (Z * RespValue) :=
  [(5, words ["SET"; "k"; "v"]); (6, words ["SET"; "k"; "w"]); (5, words ["GET"; "k"])].

Lemma sample_final_checked : exists s, sample_final = Some s
  /\ bool_decide (log s = sample_log) && bool_decide (times s 5 = 1%nat) = true.
Proof. apply checked_some. vm_compute. reflexivity. Qed.

Lemma interleavings_linearize_witness :
  exists s, sample_final = Some s
  /\ represents (store_ (srv s)) {[lit "k" := (Some (lit "w"), None)]}
  /\ exists i t, threads s !! i = Some t
       /\ (exists vs, stream (got s 5) vs /\ own_requests 5 (log s) `prefix_of` vs)
       /\ sent_to 5 t `prefix_of` lit "+OK" ++ crlf ++ lit "$1" ++ crlf ++ lit "w" ++ crlf.
Proof.
  destruct sample_final_checked as (s & E & Hs). exists s. split; [exact E|].
  apply andb_true_iff in Hs as [Hlog Ht]. apply bool_decide_eq_true in Hlog, Ht.
  destruct (interleavings_linearize (fun _ => 100) (∅ : gmap bytes Entry) ∅ 3 sample_labels s) as [H1 H2].
  - split; [exact I|reflexivity].
  - intros k v t Hk. by rewrite lookup_empty in Hk.
  - exact E.
  - rewrite Hlog. repeat apply Forall_cons_2; try apply Forall_nil_2; (split; [cbn; lia|exact I]).
  - rewrite Hlog in H1, H2. split; [exact H1|].
    destruct (H2 5 Ht) as (i & t & T1 & T2 & T3 & _). exists i, t. rewrite <- Hlog in T2.
    split; [exact T1|]. split; [exact T2|]. exact T3.
Defined.
