(* ===== verification/Threads.v ===== *)
(** * The threads with their bounded queues and wake-ups

    The event loops of [v2/src/server/server.cc] ([Run], [ProcessCommands]) and
    [v2/src/server/io_thread.cc] ([Run], [DrainInbox], [Emit], [PostAssign],
    [PostResponse]) as threads that interleave at every access to something
    shared: a push to or a pop from a queue of bounded capacity, a [Notify] or
    a [Drain] of an eventfd, a call of [epoll_wait].  What a thread does
    between two such accesses touches only its own data and is the function of
    IoThread or Server.

    A thread that is not waiting has a list of things left to do: the pushes
    and notifications of the handler it has just run ([emitting], [posting]),
    then the rest of the events of its last [epoll_wait] ([tasks],
    [main_tasks]).  The queues are bounded lists ([fifo_step] of SpscQueue,
    which the ring buffer refines); a push to a full queue leaves the thread
    where it is, so retrying is taking the same step again.

    The system refines that of AsyncServer, in which the queues have no bound
    and nobody waits.  Beyond it: no wake-up is lost, so when nothing is left
    to do every message has been handled; without new input the threads stop
    after a bounded amount of work; and the one way in which they can fail to
    get there, a main thread and an IO thread that each wait for room in the
    other's queue, is reachable. *)

From S2P Require Import Prelude CxxString RespValue RespValueQueue MapInterface Store Handlers CommandSpec EventFd IoThread Server AsyncServer.

(** ** State *)

Definition kQueueCapacity : nat := 1024.
Definition kMaxEvents : nat := 64.

(** The rest of an [Emit]: the push, then the notification. *)
Inductive emit_op := EPush (m : OutboxMsg) | ENotify.

(** What an IO thread still has to do of the events it was given: drain the
    eventfd, go on popping the inbox, handle a socket. *)
Inductive io_task :=
| TDrain
| TPop
| TSocket (k : Z) (is_error readable writable : bool).

Record io_proc := mkProc {
  io : IoThread;
  emitting : list emit_op;
  tasks : list io_task;
  inbox : list InboxMsg;
  outbox : list OutboxMsg;
  inbox_event_ : EventFd
}.

(** The rest of a [PostAssign] or [PostResponse] to thread [i]. *)
Inductive post_op := PPush (i : nat) (m : InboxMsg) | PNotify (i : nat).

(** What the main thread still has to do: accept, drain the eventfd, go on
    popping the outbox of thread [i] and the ones after it, handle the timer,
    of which [read] returns [size], or a child. *)
Inductive main_task :=
| MAccept
| MDrain
| MPop (i : nat)
| MTimer (size : Z)
| MReap (pidfd : Z).

(** One entry of the answer of [epoll_wait], for each kind of thread. *)
Inductive io_ready := RInbox | RSocket (k : Z) (is_error readable writable : bool).
Inductive main_ready := RListen | RCommand | RTimer (size : Z) | RChild (pidfd : Z).

Definition io_ready_fd (r : io_ready) : option Z :=
  match r with RInbox => None | RSocket k _ _ _ => Some k end.

#[export] Instance main_ready_eq_dec : EqDecision main_ready.
Proof. solve_decision. Defined.

(** A socket that can be read and written is first read; what that emits is
    pushed before the write. *)
Definition expand_io (r : io_ready) : list io_task :=
  match r with
  | RInbox => [TDrain; TPop]
  | RSocket k false true true => [TSocket k false true false; TSocket k false false true]
  | RSocket k e rd wr => [TSocket k e rd wr]
  end.

Definition expand_main (r : main_ready) : list main_task :=
  match r with
  | RListen => [MAccept]
  | RCommand => [MDrain; MPop 0]
  | RTimer size => [MTimer size]
  | RChild pidfd => [MReap pidfd]
  end.

Definition is_inbox (r : io_ready) : bool := match r with RInbox => true | _ => false end.
Definition is_command (r : main_ready) : bool := match r with RCommand => true | _ => false end.

(** A level-triggered [epoll_wait] without timeout reports one to
    [kMaxEvents] descriptors, each once; a readable eventfd is left out only
    when so many others are reported. *)
Definition answer_ok (n : nat) (reports is_readable : bool) : bool :=
  (0 <? n)%nat && (n <=? kMaxEvents)%nat
  && implb reports is_readable && implb is_readable (reports || (kMaxEvents <=? n)%nat).

Definition io_answer_ok (p : io_proc) (evs : list io_ready) : bool :=
  answer_ok (length evs) (existsb is_inbox evs) (readable (inbox_event_ p))
  && bool_decide (NoDup (io_ready_fd <$> evs)).

(** A [read] of a timerfd that is readable returns eight bytes, as its manual
    says.  (With a snapshot interval of 0 the descriptor watched is no timer,
    [zero_interval_watches_stdin] of Server.) *)
Definition timer_ok (r : main_ready) : bool :=
  match r with RTimer size => size =? sizeof_expirations | _ => true end.

Definition main_answer_ok (e : EventFd) (evs : list main_ready) : bool :=
  answer_ok (length evs) (existsb is_command evs) (readable e) && bool_decide (NoDup evs)
  && forallb timer_ok evs.

Definition emits (l : list OutboxMsg) : list emit_op := flat_map (fun m => [EPush m; ENotify]) l.

Definition posts (l : list (nat * InboxMsg)) : list post_op :=
  flat_map (fun '(i, m) => [PPush i m; PNotify i]) l.

(** The messages a function of Server has put in its inboxes. *)
Definition staged (inboxes : list (list InboxMsg)) : list (nat * InboxMsg) :=
  concat (imap (fun i l => pair i <$> l) inboxes).

Section Threads.
Context {M : Type} {ops : MapOps bytes Entry M}.
Context (clock : nat -> Z) (cap : nat).

Record state := mkState {
  main : Server M;
  posting : list post_op;
  main_tasks : list main_task;
  command_event_ : EventFd;
  procs : list io_proc;
  accepts : list Z;
  history : list (Z * RespValue);
  inputs : gmap Z bytes
}.

Definition with_inboxes (s : Server M) (l : list (list InboxMsg)) : Server M :=
  mkServer (store_ s) (executed s) l (fd_to_thread_ s) (next_thread_ s)
    (snapshot_children_ s) (watching s) (reaped s).

Definition no_messages (s : Server M) : Server M :=
  with_inboxes s (replicate (length (inboxes s)) []).

(** [fds]: what [eventfd] returned for the command event and the inboxes. *)
Definition threads_init (store : M) (hardware : nat) (command_fd : Z) (inbox_fds : nat -> Z) : state :=
  mkState (server_init store hardware) [] [] (new_event_fd command_fd)
    (imap (fun i _ => mkProc io_init [] [] [] [] (new_event_fd (inbox_fds i)))
       (replicate (NumIoThreads hardware) tt))
    [] [] ∅.

Definition seen (s : state) (k : Z) : bytes := default [] (inputs s !! k).

(** *** The main thread *)

Definition set_main (s : state) (srv : Server M) (ops : list post_op) (ts : list main_task) : state :=
  mkState srv ops ts (command_event_ s) (procs s) (accepts s) (history s) (inputs s).

Definition set_proc (s : state) (i : nat) (p : io_proc) : state :=
  mkState (main s) (posting s) (main_tasks s) (command_event_ s) (<[i := p]> (procs s))
    (accepts s) (history s) (inputs s).

Definition set_command_event (s : state) (e : EventFd) : state :=
  mkState (main s) (posting s) (main_tasks s) e (procs s) (accepts s) (history s) (inputs s).

(** The messages in [srv] are posted next. *)
Definition post_all (s : state) (srv : Server M) (ts : list main_task) : state :=
  set_main s (no_messages srv) (posts (staged (inboxes srv))) ts.

Definition post_step (s : state) (op : post_op) (rest : list post_op) : option state :=
  match op with
  | PPush i m =>
      p ← procs s !! i;
      if (length (inbox p) <? cap)%nat then
        Some (set_proc (set_main s (main s) rest (main_tasks s)) i
                (mkProc (io p) (emitting p) (tasks p) (inbox p ++ [m]) (outbox p) (inbox_event_ p)))
      else Some s
  | PNotify i =>
      p ← procs s !! i;
      Some (set_proc (set_main s (main s) rest (main_tasks s)) i
              (mkProc (io p) (emitting p) (tasks p) (inbox p) (outbox p) (notified (inbox_event_ p))))
  end.

(** [accept_result]: what [accept] returns, if it is called; [forked] and
    [pidfd]: the results of [fork] and [pidfd_open]. *)
Definition task_step (s : state) (t : main_task) (ts : list main_task)
    (accept_result : option Z) (forked : fork_result) (pidfd : Z) : option state :=
  match t with
  | MAccept =>
      match accept_result with
      | None => Some (set_main s (main s) [] ts)
      | Some k =>
          let s' := post_all s (AssignToIoThread (main s) k) (MAccept :: ts) in
          Some (mkState (main s') (posting s') (main_tasks s') (command_event_ s') (procs s')
                  (accepts s ++ [k]) (history s) (inputs s))
      end
  | MDrain => Some (set_command_event (set_main s (main s) [] ts) (drained (command_event_ s)))
  | MPop i =>
      match procs s !! i with
      | None => Some (set_main s (main s) [] ts)
      | Some p =>
          match outbox p with
          | [] => Some (set_main s (main s) [] (MPop (S i) :: ts))
          | m :: rest =>
              match process_msg clock (main s) m with
              | Ok srv =>
                  let s' := set_proc (post_all s srv (MPop i :: ts)) i
                              (mkProc (io p) (emitting p) (tasks p) (inbox p) rest (inbox_event_ p)) in
                  Some (mkState (main s') (posting s') (main_tasks s') (command_event_ s') (procs s')
                          (accepts s) (history s ++ requests [m]) (inputs s))
              | _ => None
              end
          end
      end
  | MTimer size =>
      if size =? sizeof_expirations then Some (set_main s (run_snapshot_event (main s) (Ticked forked pidfd)) [] ts)
      else None (* the assertion fails *)
  | MReap fd => Some (set_main s (run_snapshot_event (main s) (Exited fd)) [] ts)
  end.

(** *** An IO thread *)

Definition emit_step (s : state) (i : nat) (p : io_proc) (op : emit_op) (rest : list emit_op) : state :=
  match op with
  | EPush m =>
      if (length (outbox p) <? cap)%nat then
        set_proc s i (mkProc (io p) rest (tasks p) (inbox p) (outbox p ++ [m]) (inbox_event_ p))
      else set_command_event s (notified (command_event_ s))
  | ENotify =>
      set_command_event (set_proc s i (mkProc (io p) rest (tasks p) (inbox p) (outbox p) (inbox_event_ p)))
        (notified (command_event_ s))
  end.

(** The state after a handler has left the thread in [t]: its messages are
    emitted next. *)
Definition after_handler (p : io_proc) (t : IoThread) (ts : list io_task) (l : list InboxMsg) : io_proc :=
  mkProc (set_outbox t []) (emits (outbox_ t)) ts l (outbox p) (inbox_event_ p).

Definition socket_of (k : Z) (is_error rd wr : bool) (reads : list bytes * recv_result)
    (sends : list send_result) : socket_event :=
  if is_error then SockError k
  else SockReady k (if rd then Some reads else None) (if wr then Some sends else None).

Definition io_task_step (s : state) (i : nat) (p : io_proc) (t : io_task) (ts : list io_task)
    (reads : list bytes * recv_result) (sends : list send_result) : option state :=
  match t with
  | TDrain =>
      Some (set_proc s i (mkProc (io p) [] ts (inbox p) (outbox p) (drained (inbox_event_ p))))
  | TPop =>
      match inbox p with
      | [] => Some (set_proc s i (mkProc (io p) [] ts [] (outbox p) (inbox_event_ p)))
      | m :: rest =>
          if inbox_answersb (io p) m sends then
            match DrainInbox (io p) [(m, sends)] with
            | Ok t' => Some (set_proc s i (after_handler p t' (TPop :: ts) rest))
            | _ => None
            end
          else None
      end
  | TSocket k e rd wr =>
      let ev := socket_of k e rd wr reads sends in
      if event_okb (seen s k) (io p) ev then
        match run_event (io p) (to_io_event ev) with
        | Ok t' =>
            let s' := set_proc s i (after_handler p t' ts (inbox p)) in
            Some (mkState (main s') (posting s') (main_tasks s') (command_event_ s') (procs s')
                    (accepts s) (history s) (<[k := seen s k ++ event_reads (io p) ev]> (inputs s)))
        | _ => None
        end
      else None
  end.

(** *** The whole system *)

Inductive move :=
| MainWake (evs : list main_ready)
| Main (accept_result : option Z) (forked : fork_result) (pidfd : Z)
| IoWake (i : nat) (evs : list io_ready)
| Io (i : nat) (reads : list bytes * recv_result) (sends : list send_result).

(** The answers of the kernel are not restricted beyond what the code relies
    on: [accept] may return any number, a socket of any number may be reported,
    and an event says what it is of instead of being told by its number.  So
    what holds of all runs here holds of those a kernel allows; the runs that
    are exhibited use descriptors that are free. *)
Definition tstep (s : state) (l : move) : option state :=
  match l with
  | MainWake evs =>
      match posting s, main_tasks s with
      | [], [] =>
          if main_answer_ok (command_event_ s) evs then
            Some (set_main s (main s) [] (flat_map expand_main evs))
          else None
      | _, _ => None
      end
  | Main accept_result forked pidfd =>
      match posting s with
      | op :: rest => post_step s op rest
      | [] =>
          match main_tasks s with
          | [] => None
          | t :: ts => task_step s t ts accept_result forked pidfd
          end
      end
  | IoWake i evs =>
      p ← procs s !! i;
      match emitting p, tasks p with
      | [], [] =>
          if io_answer_ok p evs then
            Some (set_proc s i (mkProc (io p) [] (flat_map expand_io evs) (inbox p) (outbox p) (inbox_event_ p)))
          else None
      | _, _ => None
      end
  | Io i reads sends =>
      p ← procs s !! i;
      match emitting p with
      | op :: rest => Some (emit_step s i p op rest)
      | [] =>
          match tasks p with
          | [] => None
          | t :: ts => io_task_step s i p t ts reads sends
          end
      end
  end.

Fixpoint trun (s : state) (ls : list move) : option state :=
  match ls with
  | [] => Some s
  | l :: ls => s ← tstep s l; trun s ls
  end.

End Threads.
Arguments state M : clear implicits.

(** ** The handlers do not look at their queues

    A handler that starts with messages [l] in front of its outbox does the
    same and leaves them in front. *)

Definition shift (l : list OutboxMsg) (t : IoThread) : IoThread := set_outbox t (l ++ outbox_ t).

Lemma Emit_shift l t m : Emit (shift l t) m = shift l (Emit t m).
Proof. unfold Emit, shift, set_outbox, call. cbn. by rewrite app_assoc. Qed.

Lemma CloseConnection_shift l t k b : CloseConnection (shift l t) k b = shift l (CloseConnection t k b).
Proof.
  unfold CloseConnection. cbn [shift set_outbox connections_]. destruct (connections_ t !! k); [|done].
  destruct b; [|done]. rewrite <- Emit_shift. done.
Qed.

Lemma HandleAssign_shift l t k : HandleAssign (shift l t) k = shift l (HandleAssign t k).
Proof. unfold HandleAssign. cbn. by destruct (connections_ t !! k). Qed.

Lemma EmitParsedCommands_shift l t c :
  EmitParsedCommands (shift l t) c
  = let '(t', c', r) := EmitParsedCommands t c in (shift l t', c', r).
Proof.
  unfold EmitParsedCommands. destruct (pop_all _) as [q [batch| | |]]; try done.
  case_bool_decide; [done|]. by rewrite Emit_shift.
Qed.

Lemma set_connections_shift l t m : set_connections (shift l t) m = shift l (set_connections t m).
Proof. done. Qed.

Lemma HandleReadable_shift l t k recvs :
  HandleReadable (shift l t) k recvs = shift l <$> HandleReadable t k recvs.
Proof.
  unfold HandleReadable. cbn [shift set_outbox connections_]. destruct (connections_ t !! k) as [c|]; [|done].
  destruct (ReadIntoParseQueue recvs _) as [q [alive| | |]]; try done. cbn [mbind res_bind].
  fold (shift l t). rewrite EmitParsedCommands_shift.
  destruct (EmitParsedCommands t _) as [[t' c'] r]. cbn [fst snd].
  rewrite set_connections_shift. cbn [shift set_outbox connections_].
  destruct r as [|[]| |]; cbn [mbind res_bind fmap res_fmap]; try done;
    (destruct (negb alive || negb _); cbn [fmap res_fmap]; [by rewrite <- CloseConnection_shift|done]).
Qed.

Lemma flush_loop_shift l sends : forall t c sent,
  flush_loop sends (shift l t) c sent = (fun '(t', e) => (shift l t', e)) <$> flush_loop sends t c sent.
Proof.
  induction sends as [|r sends IH]; intros t c sent; cbn [flush_loop]; (case_match; [|done]); [done|].
  destruct r as [n|e]; [|by case_match]. case_match; [|done]. rewrite <- IH. done.
Qed.

Lemma FlushOutBuffer_shift l t k c sends :
  FlushOutBuffer (shift l t) k c sends = shift l <$> FlushOutBuffer t k c sends.
Proof.
  unfold FlushOutBuffer. rewrite flush_loop_shift.
  destruct (flush_loop sends t c 0) as [[t' [n|]]| | |]; cbn; try done. by rewrite <- CloseConnection_shift.
Qed.

Lemma HandleWriteResponse_shift l t k r sends :
  HandleWriteResponse (shift l t) k r sends = shift l <$> HandleWriteResponse t k r sends.
Proof.
  unfold HandleWriteResponse. cbn [shift set_outbox connections_]. case_match; [|done]. apply FlushOutBuffer_shift.
Qed.

Lemma HandleWritable_shift l t k sends :
  HandleWritable (shift l t) k sends = shift l <$> HandleWritable t k sends.
Proof.
  unfold HandleWritable. cbn [shift set_outbox connections_]. case_match; [|done]. apply FlushOutBuffer_shift.
Qed.

Lemma DrainInbox_shift l t m sends :
  DrainInbox (shift l t) [(m, sends)] = shift l <$> DrainInbox t [(m, sends)].
Proof.
  destruct m as [k|k r]; cbn [DrainInbox]; [by rewrite HandleAssign_shift|].
  rewrite HandleWriteResponse_shift. by destruct (HandleWriteResponse t k r sends).
Qed.

Lemma run_event_shift l t ev :
  run_event (shift l t) (to_io_event ev) = shift l <$> run_event t (to_io_event ev).
Proof.
  destruct ev as [k|k reads sends]; cbn [to_io_event run_event]; [by rewrite CloseConnection_shift|].
  assert (match (fun r => burst (fst r) (snd r)) <$> reads with
          | Some recvs => HandleReadable (shift l t) k recvs | None => Ok (shift l t) end
        = shift l <$> match (fun r => burst (fst r) (snd r)) <$> reads with
          | Some recvs => HandleReadable t k recvs | None => Ok t end) as ->.
  { destruct reads; [|done]. apply HandleReadable_shift. }
  destruct (match _ with Some _ => _ | None => _ end) as [t1| | |]; cbn [mbind res_bind fmap res_fmap]; try done.
  destruct sends as [sends|]; [|done]. cbn [shift set_outbox connections_]. case_match; [|done].
  apply HandleWritable_shift.
Qed.

(** The same for the main thread: with messages [L] in front of the inboxes. *)
Section Posting.
Context {M : Type} {ops : MapOps bytes Entry M}.
Context (clock : nat -> Z).

Definition join (L P : list (list InboxMsg)) : list (list InboxMsg) := zip_with app L P.

Lemma join_nil L n : n = length L -> join L (replicate n []) = L.
Proof.
  intros ->. unfold join. induction L as [|l L IH]; [done|]. cbn. by rewrite IH, app_nil_r.
Qed.

Lemma join_alter L m i : forall P,
  join L (alter (fun l => l ++ [m]) i P) = alter (fun l => l ++ [m]) i (join L P).
Proof.
  revert i. induction L as [|l L IH]; intros i P; destruct P as [|p P]; destruct i as [|i]; try done; cbn.
  - by rewrite app_assoc.
  - f_equal. apply IH.
Qed.

Lemma length_join L P : length P = length L -> length (join L P) = length L.
Proof. intros H. unfold join. rewrite length_zip_with. lia. Qed.

Lemma AssignToIoThread_join (s : Server M) L k : length L = length (inboxes s) ->
  inboxes s = replicate (length L) [] ->
  AssignToIoThread (with_inboxes s L) k
  = with_inboxes (AssignToIoThread s k) (join L (inboxes (AssignToIoThread s k))).
Proof.
  intros Hl Hs. unfold AssignToIoThread, PostAssign, post, with_inboxes. cbn. f_equal.
  - rewrite Hs, join_alter, join_nil by done. done.
  - by rewrite Hl.
Qed.

Lemma process_msg_join (s : Server M) L m : inboxes s = replicate (length L) [] ->
  process_msg clock (with_inboxes s L) m
  = (fun s' => with_inboxes s' (join L (inboxes s'))) <$> process_msg clock s m.
Proof.
  intros Hs. destruct m as [f vs|f]; cbn [process_msg].
  - unfold ExecuteAndRespond. cbn [with_inboxes store_ executed].
    destruct (execute_batch clock (store_ s) (executed s) vs []) as [[[d n] r]| | |]; try done.
    cbn [mbind res_bind fd_to_thread_ with_inboxes inboxes].
    destruct (fd_to_thread_ s !! f); cbn [fmap res_fmap]; unfold PostResponse, post, with_inboxes; cbn; f_equal; f_equal.
    + by rewrite Hs, join_alter, join_nil.
    + by rewrite Hs, join_nil.
  - cbn. unfold forget_client, with_inboxes. cbn. by rewrite Hs, join_nil.
Qed.

End Posting.

(** ** The asynchronous system behind the threads *)

(** The messages of pushes that have not happened yet. *)
Definition posts_to (i : nat) (l : list post_op) : list InboxMsg :=
  flat_map (fun op => match op with PPush j m => if bool_decide (j = i) then [m] else [] | PNotify _ => [] end) l.

Definition emits_of (l : list emit_op) : list OutboxMsg :=
  flat_map (fun op => match op with EPush m => [m] | ENotify => [] end) l.

Lemma emits_of_emits l : emits_of (emits l) = l.
Proof. induction l as [|m l IH]; [done|]. cbn. f_equal. exact IH. Qed.

Lemma posts_to_app i a b : posts_to i (a ++ b) = posts_to i a ++ posts_to i b.
Proof. apply flat_map_app. Qed.

Lemma posts_app a b : posts (a ++ b) = posts a ++ posts b.
Proof. apply flat_map_app. Qed.

Lemma posts_to_pairs i j l : posts_to i (posts (pair j <$> l)) = if bool_decide (j = i) then l else [].
Proof.
  induction l as [|m l IH]; [by case_match|].
  change (posts (pair j <$> m :: l)) with ([PPush j m; PNotify j] ++ posts (pair j <$> l)).
  rewrite posts_to_app, IH. cbn. by case_bool_decide.
Qed.

Lemma posts_to_staged i P : posts_to i (posts (staged P)) = default [] (P !! i).
Proof.
  enough (forall n, posts_to i (posts (concat (imap (fun j l => pair (n + j)%nat <$> l) P)))
            = if (i <? n)%nat then [] else default [] (P !! (i - n)%nat)) as H.
  { specialize (H 0%nat). cbn in H. rewrite Nat.sub_0_r in H. exact H. }
  induction P as [|l P IH]; intros n; cbn [imap concat].
  { by destruct (i <? n)%nat. }
  rewrite posts_app, posts_to_app, posts_to_pairs, Nat.add_0_r.
  replace (imap _ P) with (imap (fun j l => pair (S n + j)%nat <$> l) P).
  2: { apply imap_ext. intros j l' _. cbn. by rewrite Nat.add_succ_r. }
  rewrite IH. case_bool_decide as E; destruct (i <? n)%nat eqn:E1, (i <? S n)%nat eqn:E2; reflect_bools; try lia; try done.
  - subst. rewrite Nat.sub_diag. by rewrite app_nil_r.
  - by replace (i - n)%nat with (S (i - S n))%nat by lia.
Qed.

Section Abstraction.
Context {M : Type} {ops : MapOps bytes Entry M}.
Context (clock : nat -> Z) (cap : nat).

Definition abs_thread (p : io_proc) : IoThread := set_outbox (io p) (outbox p ++ emits_of (emitting p)).

Definition abs_inboxes (l : list post_op) (ps : list io_proc) : list (list InboxMsg) :=
  imap (fun i p => inbox p ++ posts_to i l) ps.

#[local] Arguments abs_inboxes : simpl never.

Definition abs (s : state M) : async M :=
  mkAsync (with_inboxes (main s) (abs_inboxes (posting s) (procs s)))
    (abs_thread <$> procs s) (accepts s) (history s) (inputs s).

(** Messages are in the queues or about to be pushed, nowhere else. *)
Record clean (s : state M) : Prop := {
  clean_main : inboxes (main s) = replicate (length (procs s)) [];
  clean_io : Forall (fun p => outbox_ (io p) = []) (procs s)
}.

Lemma length_abs_inboxes l ps : length (abs_inboxes l ps) = length ps.
Proof. apply length_imap. Qed.

Lemma abs_inboxes_lookup l ps i :
  abs_inboxes l ps !! i = (fun p => inbox p ++ posts_to i l) <$> ps !! i.
Proof. apply list_lookup_imap. Qed.

(** A list of threads that differ from [ps] in nothing that matters. *)
Lemma abs_inboxes_ext l l' ps ps' :
  (forall i, (fun p => inbox p ++ posts_to i l) <$> ps !! i
           = (fun p => inbox p ++ posts_to i l') <$> ps' !! i) ->
  abs_inboxes l ps = abs_inboxes l' ps'.
Proof. intros H. apply list_eq. intros i. by rewrite !abs_inboxes_lookup. Qed.

Lemma abs_threads_ext (ps ps' : list io_proc) :
  (forall i, abs_thread <$> ps !! i = abs_thread <$> ps' !! i) -> abs_thread <$> ps = abs_thread <$> ps'.
Proof. intros H. apply list_eq. intros i. by rewrite !list_lookup_fmap. Qed.

(** Replacing a thread by one with the same messages. *)
Lemma abs_update l l' (ps : list io_proc) i p p' : ps !! i = Some p ->
  (forall j, j <> i -> posts_to j l' = posts_to j l) ->
  inbox p' ++ posts_to i l' = inbox p ++ posts_to i l ->
  abs_inboxes l' (<[i := p']> ps) = abs_inboxes l ps.
Proof.
  intros Hi Hj Hp. apply abs_inboxes_ext. intros j. destruct (decide (j = i)) as [->|Hne].
  - rewrite list_lookup_insert_eq by (by eapply lookup_lt_Some). rewrite Hi. cbn. by rewrite Hp.
  - rewrite list_lookup_insert_ne by done. by rewrite Hj.
Qed.

Lemma abs_update_threads (ps : list io_proc) i p p' : ps !! i = Some p ->
  abs_thread p' = abs_thread p -> abs_thread <$> <[i := p']> ps = abs_thread <$> ps.
Proof.
  intros Hi Hp. rewrite list_fmap_insert, Hp, list_insert_id; [done|]. by rewrite list_lookup_fmap, Hi.
Qed.

Lemma abs_post_all srv ps L : inboxes srv = L -> length L = length ps ->
  with_inboxes (no_messages (M := M) srv) (abs_inboxes (posts (staged L)) ps)
  = with_inboxes srv (join (inbox <$> ps) L).
Proof.
  intros HL Hl. unfold no_messages, with_inboxes. cbn. f_equal. apply list_eq. intros i.
  rewrite abs_inboxes_lookup, posts_to_staged. unfold join. rewrite lookup_zip_with, list_lookup_fmap.
  destruct (ps !! i) as [p|] eqn:Hi; cbn; [|done].
  destruct (lookup_lt_is_Some_2 L i) as [l ->]; [|done]. rewrite Hl. by eapply lookup_lt_Some.
Qed.

Lemma abs_inboxes_idle ps : abs_inboxes [] ps = inbox <$> ps.
Proof.
  apply list_eq. intros i. rewrite abs_inboxes_lookup, list_lookup_fmap. destruct (ps !! i); cbn; [|done].
  by rewrite app_nil_r.
Qed.

Lemma abs_thread_idle p : emitting p = [] -> outbox_ (io p) = [] -> abs_thread p = shift (outbox p) (io p).
Proof. intros He Ho. unfold abs_thread, shift. by rewrite He, Ho. Qed.

Lemma abs_after_handler p t ts l : abs_thread (after_handler p t ts l) = shift (outbox p) t.
Proof. unfold abs_thread, after_handler, shift. cbn. by rewrite emits_of_emits. Qed.

Lemma clean_update s i p p' : clean s -> procs s !! i = Some p ->
  outbox_ (io p') = [] -> Forall (fun p => outbox_ (io p) = []) (<[i := p']> (procs s)).
Proof. intros Hc Hi Hp. apply Forall_insert; [apply Hc|done]. Qed.

(** One step, seen from the asynchronous system. *)
Definition simulates (s s' : state M) : Prop :=
  abs s' = abs s \/ exists l, step clock (abs s) l = Some (abs s').

Lemma post_step_refines s op rest s' : clean s -> posting s = op :: rest ->
  post_step cap s op rest = Some s' -> clean s' /\ abs s' = abs s.
Proof.
  intros Hc Hp Hs. destruct op as [i m|i]; cbn [post_step] in Hs;
    apply bind_Some in Hs as (p & Hi & Hs); [case_match; [|by injection Hs as <-]|]; injection Hs as <-.
  - split; [split; cbn; [by rewrite length_insert, (clean_main _ Hc)|]|].
    + eapply clean_update; [done..|]. by apply (Forall_lookup_1 _ _ _ _ (clean_io _ Hc) Hi).
    + unfold abs. cbn. rewrite Hp. f_equal; [f_equal|].
      * eapply abs_update; [done| |].
        -- intros j Hne. cbn. by rewrite bool_decide_false.
        -- cbn. rewrite bool_decide_true by done. cbn. by rewrite <- app_assoc.
      * by eapply abs_update_threads.
  - split; [split; cbn; [by rewrite length_insert, (clean_main _ Hc)|]|].
    + eapply clean_update; [done..|]. by apply (Forall_lookup_1 _ _ _ _ (clean_io _ Hc) Hi).
    + unfold abs. cbn. rewrite Hp. f_equal; [f_equal; by eapply abs_update|by eapply abs_update_threads].
Qed.

Lemma abs_set_main s srv ts :
  abs (set_main s srv [] ts)
  = mkAsync (with_inboxes srv (inbox <$> procs s)) (abs_thread <$> procs s) (accepts s) (history s) (inputs s).
Proof. unfold abs. cbn [set_main main posting procs]. by rewrite abs_inboxes_idle. Qed.

Lemma snapshot_with_inboxes (srv : Server M) L ev :
  run_snapshot_event (with_inboxes srv L) ev = with_inboxes (run_snapshot_event srv ev) L
  /\ inboxes (run_snapshot_event srv ev) = inboxes srv.
Proof. destruct ev as [[|pid] pfd|pfd]; cbn; unfold ReapSnapshot; cbn; repeat case_match; done. Qed.

Lemma task_step_refines s t ts acc forked pidfd s' : clean s -> posting s = [] ->
  main_tasks s = t :: ts -> task_step clock s t ts acc forked pidfd = Some s' ->
  clean s' /\ simulates s s'.
Proof.
  intros Hc Hp Ht Hs.
  assert (length (inboxes (main s)) = length (procs s)) as Hlen by (by rewrite (clean_main _ Hc), length_replicate).
  assert (abs s = mkAsync (with_inboxes (main s) (inbox <$> procs s)) (abs_thread <$> procs s) (accepts s)
                    (history s) (inputs s)) as Habs.
  { unfold abs. by rewrite Hp, abs_inboxes_idle. }
  assert (inboxes (main s) = replicate (length (inbox <$> procs s)) []) as Hnil by (by rewrite length_fmap, (clean_main _ Hc)).
  assert (forall s1, clean s1 -> abs s1 = abs s -> clean s1 /\ simulates s s1) as Hstutter by (intros; split; [done|by left]).
  destruct t as [| |i|size|fd]; cbn [task_step] in Hs.
  - destruct acc as [k|]; injection Hs as <-; [|apply Hstutter; [by split; apply Hc|unfold abs; cbn; by rewrite Hp]].
    assert (length (inboxes (AssignToIoThread (main s) k)) = length (procs s)) as Hl.
    { unfold AssignToIoThread, PostAssign, post. cbn. by rewrite length_alter. }
    split; [split; [|exact (clean_io _ Hc)]|].
    { transitivity (replicate (length (inboxes (AssignToIoThread (main s) k))) (@nil InboxMsg)); [done|]. by rewrite Hl. }
    right. exists (Accept k). rewrite Habs. cbn [step srv threads accepted log received].
    rewrite AssignToIoThread_join by (rewrite ?length_fmap in *; congruence). f_equal.
    rewrite <- (abs_post_all (AssignToIoThread (main s) k) (procs s) _ eq_refl Hl). done.
  - injection Hs as <-. apply Hstutter; [by split; apply Hc|]. unfold abs. cbn. by rewrite Hp.
  - destruct (procs s !! i) as [p|] eqn:Hi; [|injection Hs as <-; apply Hstutter; [by split; apply Hc|unfold abs; cbn; by rewrite Hp]].
    destruct (outbox p) as [|m rest] eqn:Ho; [injection Hs as <-; apply Hstutter; [by split; apply Hc|unfold abs; cbn; by rewrite Hp]|].
    destruct (process_msg clock (main s) m) as [srv'| | |] eqn:Hm; try done. injection Hs as <-.
    assert (length (inboxes srv') = length (procs s)) as Hl.
    { apply process_msg_inv in Hm as (reps & _ & _ & _ & Hm). rewrite <- Hlen.
      destruct m as [f vs|f]; destruct Hm as [_ ->]; [|done]. case_match; [by rewrite length_alter|done]. }
    split.
    + split; cbn; [by rewrite length_insert, Hl|]. eapply clean_update; [done..|].
      by apply (Forall_lookup_1 _ _ _ _ (clean_io _ Hc) Hi).
    + right. exists (Exec i). rewrite Habs. cbn [step srv threads accepted log received].
      rewrite list_lookup_fmap, Hi. cbn [fmap option_fmap option_map mbind option_bind].
      unfold abs_thread at 1. cbn [outbox_ set_outbox]. rewrite Ho. cbn [app].
      rewrite process_msg_join by done. rewrite Hm. cbn [fmap res_fmap]. f_equal. unfold abs. cbn. f_equal.
      * rewrite <- (abs_post_all srv' (procs s) _ eq_refl Hl). f_equal. symmetry. by eapply abs_update.
      * by rewrite list_fmap_insert.
  - destruct (size =? _); [|done]. injection Hs as <-. destruct (snapshot_with_inboxes (main s) (inbox <$> procs s) (Ticked forked pidfd)) as [E1 E2].
    split; [split; [transitivity (inboxes (main s)); [exact E2|apply Hc]|apply Hc]|].
    right. exists (Snap (Ticked forked pidfd)). rewrite Habs, abs_set_main. unfold step. cbn [srv]. by rewrite E1.
  - injection Hs as <-. destruct (snapshot_with_inboxes (main s) (inbox <$> procs s) (Exited fd)) as [E1 E2].
    split; [split; [transitivity (inboxes (main s)); [exact E2|apply Hc]|apply Hc]|].
    right. exists (Snap (Exited fd)). rewrite Habs, abs_set_main. unfold step. cbn [srv]. by rewrite E1.
Qed.

Lemma emit_step_refines s i p op rest : clean s -> procs s !! i = Some p -> emitting p = op :: rest ->
  clean (emit_step cap s i p op rest) /\ abs (emit_step cap s i p op rest) = abs s.
Proof.
  intros Hc Hi He. pose proof (Forall_lookup_1 _ _ _ _ (clean_io _ Hc) Hi) as Ho.
  destruct op as [m|]; cbn [emit_step]; [case_match; [|split; [by split; apply Hc|done]]|].
  - split; [split; cbn; [by rewrite length_insert, (clean_main _ Hc)|by eapply clean_update]|].
    unfold abs. cbn. f_equal; [f_equal; by eapply abs_update|]. eapply abs_update_threads; [done|].
    unfold abs_thread. cbn. rewrite He. cbn. by rewrite <- app_assoc.
  - split; [split; cbn; [by rewrite length_insert, (clean_main _ Hc)|by eapply clean_update]|].
    unfold abs. cbn. f_equal; [f_equal; by eapply abs_update|]. eapply abs_update_threads; [done|].
    unfold abs_thread. cbn. by rewrite He.
Qed.

Lemma socket_of_fd k e rd wr reads sends : socket_fd (socket_of k e rd wr reads sends) = k.
Proof. unfold socket_of. by destruct e. Qed.

Lemma io_task_step_refines s i p t ts reads sends s' : clean s -> procs s !! i = Some p ->
  emitting p = [] -> tasks p = t :: ts -> io_task_step s i p t ts reads sends = Some s' ->
  clean s' /\ simulates s s'.
Proof.
  intros Hc Hi He Ht Hs. pose proof (Forall_lookup_1 _ _ _ _ (clean_io _ Hc) Hi) as Ho.
  assert (forall p', outbox_ (io p') = [] -> clean (set_proc s i p')) as Hclean.
  { intros p' Hp'. split; cbn; [by rewrite length_insert, (clean_main _ Hc)|by eapply clean_update]. }
  assert (threads (abs s) !! i = Some (shift (outbox p) (io p))) as Hth.
  { cbn. rewrite list_lookup_fmap, Hi. cbn. by rewrite abs_thread_idle. }
  destruct t as [| |k e rd wr]; cbn [io_task_step] in Hs.
  - injection Hs as <-. split; [by apply Hclean|]. left. unfold abs. cbn.
    f_equal; [f_equal; by eapply abs_update|]. eapply abs_update_threads; [done|]. unfold abs_thread. by rewrite He.
  - destruct (inbox p) as [|m rest] eqn:Hin.
    + injection Hs as <-. split; [by apply Hclean|]. left. unfold abs. cbn.
      f_equal; [f_equal; eapply abs_update; [done..|]; by cbn; rewrite Hin|].
      eapply abs_update_threads; [done|]. unfold abs_thread. by rewrite He.
    + destruct (inbox_answersb (io p) m sends) eqn:Ha; [|done].
      destruct (DrainInbox (io p) [(m, sends)]) as [t'| | |] eqn:Hd; try done. injection Hs as <-.
      split; [by apply Hclean|]. right. exists (Recv i sends). cbn [step]. rewrite Hth. cbn [mbind option_bind].
      assert (inbox_of (srv (abs s)) i = m :: rest ++ posts_to i (posting s)) as ->.
      { unfold inbox_of. cbn. rewrite abs_inboxes_lookup, Hi. cbn. by rewrite Hin. }
      replace (inbox_answersb (shift (outbox p) (io p)) m sends) with true by (by rewrite <- Ha; destruct m).
      rewrite DrainInbox_shift, Hd. cbn [fmap res_fmap]. f_equal. unfold abs. cbn. f_equal.
      * unfold set_inbox, with_inboxes. cbn. f_equal. apply list_eq. intros j.
        rewrite abs_inboxes_lookup. destruct (decide (j = i)) as [->|Hne].
        -- rewrite !list_lookup_insert_eq; [done|by eapply lookup_lt_Some|].
           rewrite length_abs_inboxes. by eapply lookup_lt_Some.
        -- by rewrite !list_lookup_insert_ne, abs_inboxes_lookup.
      * rewrite list_fmap_insert. by rewrite abs_after_handler.
  - set (ev := socket_of k e rd wr reads sends) in *.
    destruct (event_okb (seen s k) (io p) ev) eqn:Ha; [|done].
    destruct (run_event (io p) (to_io_event ev)) as [t'| | |] eqn:Hd; try done. injection Hs as <-.
    split; [split; cbn; [by rewrite length_insert, (clean_main _ Hc)|by eapply clean_update]|].
    right. exists (Socket i ev). cbn [step]. rewrite Hth. cbn [mbind option_bind].
    assert (socket_fd ev = k) as Hk by apply socket_of_fd. rewrite Hk.
    change (got (abs s) k) with (seen s k).
    replace (event_okb (seen s k) (shift (outbox p) (io p)) ev) with true by (by rewrite <- Ha; destruct ev).
    rewrite run_event_shift, Hd. cbn [fmap res_fmap]. f_equal. unfold abs. cbn. f_equal.
    + f_equal. symmetry. by eapply abs_update.
    + rewrite list_fmap_insert. by rewrite abs_after_handler.
Qed.

Lemma tstep_refines s l s' : clean s -> tstep clock cap s l = Some s' -> clean s' /\ simulates s s'.
Proof.
  intros Hc Hs. destruct l as [evs|acc forked pidfd|i evs|i reads sends]; cbn [tstep] in Hs.
  - destruct (posting s) eqn:Hp; [|done]. destruct (main_tasks s); [|done]. case_match; [|done]. injection Hs as <-.
    split; [by split; apply Hc|]. left. unfold abs. cbn. by rewrite Hp.
  - destruct (posting s) as [|op rest] eqn:Hp.
    + destruct (main_tasks s) as [|t ts] eqn:Ht; [done|]. by eapply task_step_refines.
    + destruct (post_step_refines s op rest s' Hc Hp Hs). split; [done|by left].
  - apply bind_Some in Hs as (p & Hi & Hs). destruct (emitting p) eqn:He; [|done].
    destruct (tasks p); [|done]. case_match; [|done]. injection Hs as <-.
    pose proof (Forall_lookup_1 _ _ _ _ (clean_io _ Hc) Hi) as Ho.
    split; [split; cbn; [by rewrite length_insert, (clean_main _ Hc)|by eapply clean_update]|]. left. unfold abs. cbn.
    f_equal; [f_equal; by eapply abs_update|]. eapply abs_update_threads; [done|]. unfold abs_thread. by rewrite He.
  - apply bind_Some in Hs as (p & Hi & Hs). destruct (emitting p) as [|op rest] eqn:He.
    + destruct (tasks p) as [|t ts] eqn:Ht; [done|]. by eapply io_task_step_refines.
    + injection Hs as <-. destruct (emit_step_refines s i p op rest Hc Hi He). split; [done|by left].
Qed.

Lemma trun_refines ls : forall s s', clean s -> trun clock cap s ls = Some s' ->
  clean s' /\ exists als, run clock (abs s) als = Some (abs s').
Proof.
  induction ls as [|l ls IH]; intros s s' Hc Hr; cbn [trun] in Hr.
  - injection Hr as <-. split; [done|]. by exists [].
  - apply bind_Some in Hr as (s1 & Hs & Hr). destruct (tstep_refines s l s1 Hc Hs) as [Hc1 Hsim].
    destruct (IH s1 s' Hc1 Hr) as [Hc2 [als Hals]]. split; [done|]. destruct Hsim as [E|[al Hal]].
    + exists als. by rewrite <- E.
    + exists (al :: als). cbn [run]. rewrite Hal. done.
Qed.

Lemma init_clean store hardware command_fd inbox_fds :
  clean (threads_init store hardware command_fd inbox_fds)
  /\ abs (threads_init store hardware command_fd inbox_fds) = async_init store hardware.
Proof.
  split; [split; cbn|].
  - by rewrite length_imap, length_replicate.
  - apply Forall_lookup_2. intros i p Hp. rewrite list_lookup_imap in Hp. by apply fmap_Some in Hp as (? & _ & ->).
  - unfold abs, async_init. cbn. f_equal.
    + unfold with_inboxes, server_init. cbn. f_equal. rewrite abs_inboxes_idle. apply list_eq. intros i.
      rewrite list_lookup_fmap, list_lookup_imap.
      destruct (decide (i < NumIoThreads hardware)%nat).
      * by rewrite !lookup_replicate_2.
      * rewrite !lookup_ge_None_2; [done|rewrite length_replicate; lia..].
    + apply list_eq. intros i. rewrite list_lookup_fmap, list_lookup_imap.
      destruct (decide (i < NumIoThreads hardware)%nat).
      * by rewrite !lookup_replicate_2.
      * rewrite !lookup_ge_None_2; [done|rewrite length_replicate; lia..].
Qed.

End Abstraction.

(** ** No wake-up is lost *)

(** Between two steps a thread is at the start of a push or of the
    notification that follows one. *)
Definition emitting_ok (l : list emit_op) : Prop :=
  exists ms, l = emits ms \/ l = ENotify :: emits ms.

Definition posting_ok (n : nat) (l : list post_op) : Prop :=
  exists ms, Forall (fun im => (fst im < n)%nat) ms
    /\ (l = posts ms \/ exists i, (i < n)%nat /\ l = PNotify i :: posts ms).

(** After draining its eventfd a thread looks at the queue. *)
Fixpoint tasks_ok (ts : list io_task) : Prop :=
  match ts with
  | [] => True
  | TDrain :: ts => TPop ∈ ts /\ tasks_ok ts
  | _ :: ts => tasks_ok ts
  end.

Fixpoint main_tasks_ok (ts : list main_task) : Prop :=
  match ts with
  | [] => True
  | MDrain :: ts => MPop 0 ∈ ts /\ main_tasks_ok ts
  | MTimer size :: ts => size = sizeof_expirations /\ main_tasks_ok ts
  | _ :: ts => main_tasks_ok ts
  end.

(** The main thread has yet to look at the outbox of thread [i]. *)
Definition covered (i : nat) (ts : list main_task) : Prop := exists j, (j <= i)%nat /\ MPop j ∈ ts.

Definition event_valid (e : EventFd) : Prop := 0 <= fd_ e /\ event_ok e.

(** A message in the inbox of thread [i] will be seen: its eventfd is
    readable, the thread is popping, or the notification comes next. *)
Definition wake_in (l : list post_op) (i : nat) (p : io_proc) : Prop :=
  inbox p = [] \/ readable (inbox_event_ p) = true \/ TPop ∈ tasks p \/ head l = Some (PNotify i).

Definition wake_out (e : EventFd) (ts : list main_task) (i : nat) (p : io_proc) : Prop :=
  outbox p = [] \/ readable e = true \/ covered i ts \/ head (emitting p) = Some ENotify.

Definition proc_ok (cap : nat) (p : io_proc) : Prop :=
  emitting_ok (emitting p) /\ tasks_ok (tasks p) /\ event_valid (inbox_event_ p)
  /\ (length (inbox p) <= cap)%nat /\ (length (outbox p) <= cap)%nat.

Record live {M : Type} (cap : nat) (s : state M) : Prop := {
  live_posting : posting_ok (length (procs s)) (posting s);
  live_tasks : main_tasks_ok (main_tasks s);
  live_event : event_valid (command_event_ s);
  live_procs : forall i p, procs s !! i = Some p ->
    proc_ok cap p /\ wake_in (posting s) i p /\ wake_out (command_event_ s) (main_tasks s) i p
}.

Lemma notified_valid e : event_valid e -> event_valid (notified e) /\ readable (notified e) = true.
Proof.
  intros [H1 H2]. split; [split|by apply notified_readable]; [by rewrite notified_fd|by apply notified_ok].
Qed.

Lemma drained_valid e : event_valid e -> event_valid (drained e).
Proof. intros [H1 H2]. split; [by rewrite drained_fd|by apply drained_ok]. Qed.

Lemma expand_io_ok evs : tasks_ok (flat_map expand_io evs).
Proof.
  induction evs as [|[|k [] [] []] evs IH]; try done. split; [left|done].
Qed.

Lemma expand_main_ok evs : forallb timer_ok evs = true -> main_tasks_ok (flat_map expand_main evs).
Proof.
  induction evs as [|r evs IH]; [done|]. cbn [forallb]. intros [Hr Hevs]%andb_prop. specialize (IH Hevs).
  destruct r as [| |size|fd]; try done; split; [left|done| |done]. by apply Z.eqb_eq.
Qed.

Lemma posting_head n op rest : posting_ok n (op :: rest) ->
  match op with
  | PPush i _ => (i < n)%nat /\ head rest = Some (PNotify i) /\ posting_ok n rest
  | PNotify i => (i < n)%nat /\ posting_ok n rest /\ forall j, head rest <> Some (PNotify j)
  end.
Proof.
  intros (ms & Hms & [E|(i & Hi & E)]).
  - destruct ms as [|[i m] ms]; [done|]. cbn in E. injection E as -> ->.
    apply Forall_cons in Hms as [Hi Hms]. split_and!; [done..|]. exists ms. split; [done|]. right. by exists i.
  - injection E as -> ->. split_and!; [done|exists ms; by split; [|left]|].
    intros j. destruct ms as [|[i' m] ms]; cbn; congruence.
Qed.

Lemma emitting_head op rest : emitting_ok (op :: rest) ->
  match op with
  | EPush _ => head rest = Some ENotify /\ emitting_ok rest
  | ENotify => emitting_ok rest /\ head rest <> Some ENotify
  end.
Proof.
  intros (ms & [E|E]).
  - destruct ms as [|m ms]; [done|]. cbn in E. injection E as -> ->. split; [done|]. exists ms. by right.
  - injection E as -> ->. split; [exists ms; by left|]. by destruct ms.
Qed.

Lemma emits_ok ms : emitting_ok (emits ms).
Proof. exists ms. by left. Qed.

Lemma posts_staged_ok n P : length P = n -> posting_ok n (posts (staged P)).
Proof.
  intros <-. exists (staged P). split; [|by left]. unfold staged. apply Forall_concat. apply Forall_lookup_2.
  intros i l Hl. rewrite list_lookup_imap in Hl. apply fmap_Some in Hl as (x & Hx & ->).
  apply Forall_fmap, Forall_true. intros m. cbn. by eapply lookup_lt_Some.
Qed.

Lemma wake_in_idle l i p : wake_in [] i p -> wake_in l i p.
Proof. unfold wake_in. intros [H|[H|[H|H]]]; auto. done. Qed.

Lemma covered_cons i t ts : covered i ts -> covered i (t :: ts).
Proof. intros (j & Hj & Hin). exists j. split; [done|]. by right. Qed.

Lemma wake_out_task e t ts ts' i p : wake_out e (t :: ts) i p ->
  (covered i (t :: ts) -> outbox p = [] \/ covered i ts') -> wake_out e ts' i p.
Proof. unfold wake_out. intros [H|[H|[H|H]]] Hc; auto. destruct (Hc H); auto. Qed.

(** A task that is no pop covers nothing. *)
Lemma covered_inv i t ts : covered i (t :: ts) -> (exists j, t = MPop j /\ (j <= i)%nat) \/ covered i ts.
Proof.
  intros (j & Hj & Hin). apply elem_of_cons in Hin as [<-|Hin]; [left|right]; by exists j.
Qed.

Section Live.
Context {M : Type} {ops : MapOps bytes Entry M}.
Context (clock : nat -> Z) (cap : nat).
Implicit Types s : state M.

Lemma length_assign (srv : Server M) k : length (inboxes (AssignToIoThread srv k)) = length (inboxes srv).
Proof. unfold AssignToIoThread, PostAssign, post. cbn. by rewrite length_alter. Qed.

Lemma length_process (srv srv' : Server M) m : process_msg clock srv m = Ok srv' ->
  length (inboxes srv') = length (inboxes srv).
Proof.
  intros Hm. apply process_msg_inv in Hm as (reps & _ & _ & _ & Hm).
  destruct m as [f vs|f]; destruct Hm as [_ ->]; [|done]. case_match; [by rewrite length_alter|done].
Qed.

Lemma length_clean s : clean s -> length (inboxes (main s)) = length (procs s).
Proof. intros Hc. by rewrite (clean_main _ Hc), length_replicate. Qed.

(** A step of the main thread that leaves the IO threads alone. *)
Lemma live_main s srv l ts e : live cap s ->
  posting_ok (length (procs s)) l -> main_tasks_ok ts -> event_valid e ->
  (forall i p, procs s !! i = Some p -> proc_ok cap p -> wake_in (posting s) i p ->
     wake_out (command_event_ s) (main_tasks s) i p -> wake_in l i p /\ wake_out e ts i p) ->
  live cap (set_command_event (set_main s srv l ts) e).
Proof.
  intros [_ _ _ Hp] Hl Ht He Hw. split; cbn; try done. intros i p Hi. destruct (Hp i p Hi) as (H1 & H2 & H3).
  destruct (Hw i p Hi H1 H2 H3). done.
Qed.

(** A step that replaces thread [i]. *)
Lemma live_update s l e i p p' : live cap s -> procs s !! i = Some p ->
  posting_ok (length (procs s)) l -> event_valid e -> proc_ok cap p' ->
  wake_in l i p' -> wake_out e (main_tasks s) i p' ->
  (forall j q, j <> i -> wake_in (posting s) j q -> wake_in l j q) ->
  (readable (command_event_ s) = true -> readable e = true) ->
  live cap (set_command_event (set_proc (set_main s (main s) l (main_tasks s)) i p') e).
Proof.
  intros [_ Ht _ Hp] Hi Hl He Hok Hin Hout Hj Hr. split; cbn; try done; [by rewrite length_insert|].
  intros j q Hq. apply list_lookup_insert_Some in Hq as [(<- & <- & _)|[Hne Hq]]; [done|].
  destruct (Hp j q Hq) as (H1 & H2 & H3). split_and!; [done|by apply Hj|].
  destruct H3 as [H3|[H3|[H3|H3]]]; unfold wake_out; auto.
Qed.

Lemma post_step_live s op rest s' : live cap s -> posting s = op :: rest ->
  post_step cap s op rest = Some s' -> live cap s'.
Proof.
  intros Hl Hp Hs. pose proof Hl as [Hpo _ Hev Hpr]. rewrite Hp in Hpo. apply posting_head in Hpo.
  destruct op as [i m|i]; cbn [post_step] in Hs; apply bind_Some in Hs as (p & Hi & Hs);
    destruct (Hpr i p Hi) as ((P1 & P2 & P3 & P4 & P5) & Win & Wout).
  - destruct Hpo as (_ & Hh & Hr). case_match eqn:Hfull; [|by injection Hs as <-]. injection Hs as <-. reflect_bools.
    apply (live_update s rest (command_event_ s) i p); try done.
    + split_and!; cbn; try done. rewrite length_app. cbn. lia.
    + by do 3 right.
    + intros j q Hne. rewrite Hp. intros [W|[W|[W|W]]]; unfold wake_in; auto. done.
  - destruct Hpo as (_ & Hr & Hh). injection Hs as <-. destruct (notified_valid _ P3) as [N1 N2].
    apply (live_update s rest (command_event_ s) i p); try done.
    + by right; left.
    + intros j q Hne. rewrite Hp. intros [W|[W|[W|W]]]; unfold wake_in; auto. cbn in W. congruence.
Qed.

Lemma task_step_live s t ts acc forked pidfd s' : clean s -> live cap s -> posting s = [] ->
  main_tasks s = t :: ts -> task_step clock s t ts acc forked pidfd = Some s' -> live cap s'.
Proof.
  intros Hc Hl Hp Ht Hs. pose proof Hl as [Hpo Hts Hev Hpr]. rewrite Ht in Hts. rewrite Hp in Hpo.
  pose proof (length_clean s Hc) as Hlen.
  assert (forall srv l ts', posting_ok (length (procs s)) l -> main_tasks_ok ts' ->
    (forall i p, procs s !! i = Some p -> covered i (t :: ts) -> outbox p = [] \/ covered i ts') ->
    live cap (set_main s srv l ts')) as Hmain.
  { intros srv l ts' H1 H2 H3. apply (live_main s srv l ts' (command_event_ s)); try done.
    intros i p Hi _ Win Wout. rewrite Hp in Win. rewrite Ht in Wout. split; [by apply wake_in_idle|].
    eapply wake_out_task; [exact Wout|]. by apply H3. }
  destruct t as [| |i|size|fd]; cbn [task_step main_tasks_ok] in *.
  - destruct acc as [k|]; injection Hs as <-.
    + assert (live cap (post_all s (AssignToIoThread (main s) k) (MAccept :: ts))) as [L1 L2 L3 L4].
      { apply Hmain; [|done|by intros; right]. apply posts_staged_ok. by rewrite length_assign. }
      by split.
    + apply Hmain; try done. intros i p Hi [(j & ? & _)|H]%covered_inv; [done|by right].
  - injection Hs as <-. destruct Hts as [Hin Hts]. apply (live_main s); try done; [by apply drained_valid|].
    intros i p Hi _ Win Wout. rewrite Hp in Win. split; [done|]. do 2 right. left. exists 0%nat. split; [lia|done].
  - destruct (procs s !! i) as [p|] eqn:Hi.
    + destruct (outbox p) as [|m rest] eqn:Ho.
      * injection Hs as <-. apply Hmain; try done. intros j q Hj [(j' & E & Hle)|H]%covered_inv; [|right; by apply covered_cons].
        injection E as <-. destruct (decide (j = i)) as [->|Hne]; [left; congruence|].
        right. exists (S i). split; [lia|left].
      * destruct (process_msg clock (main s) m) as [srv| | |] eqn:Hm; try done. injection Hs as <-.
        pose proof (length_process _ _ _ Hm) as Hl'. destruct (Hpr i p Hi) as ((P1 & P2 & P3 & P4 & P5) & Win & Wout).
        assert (live cap (post_all s srv (MPop i :: ts))) as HL.
        { apply Hmain; [|done|by intros; right]. apply posts_staged_ok. congruence. }
        assert (live cap (set_proc (post_all s srv (MPop i :: ts)) i
          (mkProc (io p) (emitting p) (tasks p) (inbox p) rest (inbox_event_ p)))) as [L1 L2 L3 L4].
        { apply (live_update (post_all s srv (MPop i :: ts)) _ (command_event_ s) i p _ HL); try done.
          - apply HL.
          - split_and!; cbn; try done. rewrite Ho in P5. cbn in P5. lia.
          - rewrite Hp in Win. by apply wake_in_idle.
          - do 2 right. left. exists i. split; [lia|left]. }
        by split.
    + injection Hs as <-. apply Hmain; try done. intros j q Hj [(j' & E & Hle)|H]%covered_inv; [|by right].
      injection E as <-. apply lookup_ge_None in Hi. apply lookup_lt_Some in Hj. lia.
  - destruct (size =? _); [|done]. destruct Hts as [_ Hts]. injection Hs as <-. apply Hmain; try done.
    intros i p Hi [(j & ? & _)|H]%covered_inv; [done|by right].
  - injection Hs as <-. apply Hmain; try done. intros i p Hi [(j & ? & _)|H]%covered_inv; [done|by right].
Qed.

(** Steps of an IO thread that leave the shared state alone. *)
Lemma live_io s i p p' : live cap s -> procs s !! i = Some p -> proc_ok cap p' ->
  wake_in (posting s) i p' -> wake_out (command_event_ s) (main_tasks s) i p' -> live cap (set_proc s i p').
Proof.
  intros Hl Hi Hok Hin Hout.
  assert (live cap (set_command_event (set_proc (set_main s (main s) (posting s) (main_tasks s)) i p')
    (command_event_ s))) as [L1 L2 L3 L4]; [|by split].
  eapply live_update; try done; apply Hl.
Qed.

Lemma emit_step_live s i p op rest : live cap s -> procs s !! i = Some p -> emitting p = op :: rest ->
  live cap (emit_step cap s i p op rest).
Proof.
  intros Hl Hi He. pose proof Hl as [Hpo Hts Hev Hpr].
  destruct (Hpr i p Hi) as ((P1 & P2 & P3 & P4 & P5) & Win & Wout). rewrite He in P1. apply emitting_head in P1.
  destruct (notified_valid _ Hev) as [N1 N2]. destruct op as [m|]; cbn [emit_step]; [case_match eqn:Hfull|]; reflect_bools.
  - eapply live_io; [done|done| |exact Win|].
    + destruct P1. split_and!; cbn; try done. rewrite length_app. cbn. lia.
    + do 3 right. by apply P1.
  - split; cbn; try done. intros j q Hq. destruct (Hpr j q Hq) as (Q1 & Q2 & Q3).
    split_and!; [done..|]. by right; left.
  - apply (live_update s (posting s) (notified (command_event_ s)) i p); try done.
    + destruct P1. by split_and!.
    + by right; left.
Qed.

Lemma io_task_step_live s i p t ts reads sends s' : live cap s -> procs s !! i = Some p ->
  emitting p = [] -> tasks p = t :: ts -> io_task_step s i p t ts reads sends = Some s' -> live cap s'.
Proof.
  intros Hl Hi He Ht Hs. pose proof Hl as [Hpo Hts Hev Hpr].
  destruct (Hpr i p Hi) as ((P1 & P2 & P3 & P4 & P5) & Win & Wout). rewrite Ht in P2.
  assert (forall p', outbox p' = outbox p -> wake_out (command_event_ s) (main_tasks s) i p') as Hout.
  { intros p' E. destruct Wout as [W|[W|[W|W]]]; unfold wake_out; rewrite E; auto. by rewrite He in W. }
  destruct t as [| |k e rd wr]; cbn [io_task_step tasks_ok] in *.
  - injection Hs as <-. destruct P2 as [Hin P2]. eapply live_io; try done; [|by right; right; left|by apply Hout].
    split_and!; cbn; try done; [apply (emits_ok [])|by apply drained_valid].
  - destruct (inbox p) as [|m rest] eqn:Hin.
    + injection Hs as <-. eapply live_io; try done; [|by left|by apply Hout].
      split_and!; cbn; try done. apply (emits_ok []).
    + case_match; [|done]. case_match; try done. injection Hs as <-.
      eapply live_io; try done; [|by right; right; left; left|by apply Hout].
      split_and!; cbn; try done; [apply emits_ok|cbn in P4; lia].
  - case_match; [|done]. case_match; try done. injection Hs as <-.
    assert (live cap (set_proc s i (after_handler p a ts (inbox p)))) as [L1 L2 L3 L4]; [|by split].
    eapply live_io; try done; [| |by apply Hout].
    + split_and!; cbn; try done. apply emits_ok.
    + destruct Win as [W|[W|[W|W]]]; unfold wake_in; auto. right. right. left. rewrite Ht in W.
      by apply elem_of_cons in W as [|].
Qed.

Lemma tstep_live s l s' : clean s -> live cap s -> tstep clock cap s l = Some s' -> live cap s'.
Proof.
  intros Hc Hl Hs. destruct l as [evs|acc forked pidfd|i evs|i reads sends]; cbn [tstep] in Hs.
  - destruct (posting s) eqn:Hp; [|done]. destruct (main_tasks s) eqn:Ht; [|done]. case_match; [|done]. injection Hs as <-.
    apply (live_main s (main s) [] (flat_map expand_main evs) (command_event_ s)); try done.
    + rewrite <- Hp. apply Hl.
    + apply expand_main_ok. match goal with H : main_answer_ok _ _ = true |- _ => by apply andb_prop in H as [_ ?] end.
    + apply Hl.
    + intros i p Hi _ Win Wout. rewrite Hp in Win. rewrite Ht in Wout. split; [done|].
      destruct Wout as [W|[W|[(j & _ & W)|W]]]; unfold wake_out; auto. by apply not_elem_of_nil in W.
  - destruct (posting s) as [|op rest] eqn:Hp.
    + destruct (main_tasks s) as [|t ts] eqn:Ht; [done|]. by eapply task_step_live.
    + by eapply post_step_live.
  - apply bind_Some in Hs as (p & Hi & Hs). destruct (emitting p) eqn:He; [|done].
    destruct (tasks p) eqn:Ht; [|done]. case_match; [|done]. injection Hs as <-.
    destruct (live_procs _ _ Hl i p Hi) as ((P1 & P2 & P3 & P4 & P5) & Win & Wout).
    eapply live_io; try done.
    + split_and!; cbn; try done; [apply (emits_ok [])|apply expand_io_ok].
    + destruct Win as [W|[W|[W|W]]]; unfold wake_in; auto. rewrite Ht in W. by apply not_elem_of_nil in W.
    + destruct Wout as [W|[W|[W|W]]]; unfold wake_out; auto. by rewrite He in W.
  - apply bind_Some in Hs as (p & Hi & Hs). destruct (emitting p) as [|op rest] eqn:He.
    + destruct (tasks p) as [|t ts] eqn:Ht; [done|]. by eapply io_task_step_live.
    + injection Hs as <-. by apply emit_step_live.
Qed.

End Live.

(** ** Reachable states *)

(** Every thread waits in [epoll_wait] and no eventfd is readable. *)
Definition settled {M} (s : state M) : Prop :=
  posting s = [] /\ main_tasks s = [] /\ readable (command_event_ s) = false
  /\ Forall (fun p => emitting p = [] /\ tasks p = [] /\ readable (inbox_event_ p) = false) (procs s).

Section Reached.
Context {M : Type} {ops : MapOps bytes Entry M}.
Context (clock : nat -> Z) (cap : nat).

Lemma init_live (store : M) hardware command_fd inbox_fds :
  0 <= command_fd -> (forall i, 0 <= inbox_fds i) ->
  live cap (threads_init store hardware command_fd inbox_fds).
Proof.
  intros Hc Hi. assert (forall fd, 0 <= fd -> event_valid (new_event_fd fd)) as Hnew.
  { intros fd Hfd. split; [done|]. unfold event_ok, counter_max. cbn. lia. }
  split; cbn; [|done|by apply Hnew|].
  - exists []. split; [done|]. by left.
  - intros i p Hp. rewrite list_lookup_imap in Hp. apply fmap_Some in Hp as (x & _ & ->).
    split; [|split; by left]. unfold proc_ok. cbn. split_and!; [apply (emits_ok [])|done|apply Hnew, Hi|lia|lia].
Qed.

Lemma trun_live ls : forall s s' : state M, clean s -> live cap s -> trun clock cap s ls = Some s' -> live cap s'.
Proof.
  induction ls as [|l ls IH]; intros s s' Hc Hl Hr; cbn [trun] in Hr; [by injection Hr as <-|].
  apply bind_Some in Hr as (s1 & Hs & Hr). destruct (tstep_refines clock cap s l s1 Hc Hs).
  apply (IH s1 s'); [done| |done]. exact (tstep_live clock cap s l s1 Hc Hl Hs).
Qed.

(** All that is known of a reachable state. *)
Lemma reached (store : M) hardware command_fd inbox_fds ls s :
  0 <= command_fd -> (forall i, 0 <= inbox_fds i) ->
  trun clock cap (threads_init store hardware command_fd inbox_fds) ls = Some s ->
  clean s /\ live cap s /\ async_inv clock store (abs s) /\ fits (abs s)
  /\ exists als, run clock (async_init store hardware) als = Some (abs s).
Proof.
  intros Hc Hi Hr. destruct (init_clean store hardware command_fd inbox_fds) as [C0 A0].
  destruct (trun_refines clock cap ls _ _ C0 Hr) as [C1 [als R1]]. rewrite A0 in R1.
  destruct (init_inv clock store hardware) as [I0 K0].
  destruct (run_inv clock store als _ _ R1 I0 K0) as [I1 _].
  split_and!; [done| |done| |by exists als].
  - eapply trun_live; [exact C0| |exact Hr]. by apply init_live.
  - eapply run_fits; try done. apply init_fits.
Qed.

Lemma settled_empty (s : state M) : live cap s -> settled s ->
  Forall (fun p => inbox p = [] /\ outbox p = []) (procs s).
Proof.
  intros Hl (Hp & Ht & He & Hall). apply Forall_lookup_2. intros i p Hi.
  destruct (live_procs _ _ Hl i p Hi) as (_ & Win & Wout).
  destruct (Forall_lookup_1 _ _ _ _ Hall Hi) as (E1 & E2 & E3). cbn in *. split.
  - destruct Win as [W|[W|[W|W]]]; [done|congruence| |by rewrite Hp in W].
    rewrite E2 in W. by apply not_elem_of_nil in W.
  - destruct Wout as [W|[W|[(j & _ & W)|W]]]; [done|congruence| |by rewrite E1 in W].
    rewrite Ht in W. by apply not_elem_of_nil in W.
Qed.

End Reached.

(** ** Theorems *)

Section Theorems.
Context {M : Type} {ops : MapOps bytes Entry M} {spec : MapSpec bytes Entry M}.
Context (clock : nat -> Z) (cap : nat).

(** C31. The threads implement asynchronous message passing: bounded queues,
    retries, eventfds and batches of epoll events, in any interleaving, do
    nothing that unbounded queues with one message handled at a time could
    not do, and the queues never exceed their capacity. *)
Theorem threads_refine_async (store : M) hardware command_fd inbox_fds ls s :
  0 <= command_fd -> (forall i, 0 <= inbox_fds i) ->
  trun clock cap (threads_init store hardware command_fd inbox_fds) ls = Some s ->
  (exists als, run clock (async_init store hardware) als = Some (abs s))
  /\ Forall (fun p => length (inbox p) <= cap /\ length (outbox p) <= cap)%nat (procs s).
Proof.
  intros Hc Hi Hr. destruct (reached clock cap store hardware command_fd inbox_fds ls s Hc Hi Hr)
    as (_ & Hl & _ & _ & Hals). split; [done|]. apply Forall_lookup_2. intros i p Hp.
  destruct (live_procs _ _ Hl i p Hp) as ((_ & _ & _ & ? & ?) & _). done.
Qed.

(** What a settled state holds of each client. *)
Lemma settled_session (store : M) a hardware command_fd inbox_fds ls s :
  0 <= command_fd -> (forall i, 0 <= inbox_fds i) ->
  represents store a -> sane_store a ->
  trun clock cap (threads_init store hardware command_fd inbox_fds) ls = Some s ->
  Forall request_safe (timed clock 0 (history s).*2) ->
  settled s ->
  let outcome := exec_all a (timed clock 0 (history s).*2) in
  Forall (fun p => inbox p = [] /\ outbox p = []) (procs s)
  /\ represents (store_ (main s)) (fst outcome)
  /\ forall k, length (filter (fun f => f = k) (accepts s)) = 1%nat ->
     exists i p, procs s !! i = Some p
     /\ sent_to k (io p) `prefix_of` replies_to k (history s).*1 (snd outcome)
     /\ forall c, connections_ (io p) !! k = Some c ->
          parses (seen s k) (own_requests k (history s)) (buffer_ (parse_queue c))
          /\ sent_to k (io p) ++ out_buffer c = replies_to k (history s).*1 (snd outcome).
Proof.
  intros Hc Hi Hrep Hsane Hr Hsafe Hset outcome.
  destruct (reached clock cap store hardware command_fd inbox_fds ls s Hc Hi Hr) as (_ & Hl & Hinv & _ & als & Hals).
  pose proof (settled_empty cap s Hl Hset) as Hempty. split; [done|].
  pose proof (sessions clock store a hardware als (abs s) Hrep Hsane Hals Hsafe) as [H1 H2].
  split; [exact H1|]. intros k Hk. destruct (H2 k Hk) as (i & t & Ht & _ & Hpre & Hconn).
  cbn [abs threads] in Ht. rewrite list_lookup_fmap in Ht. apply fmap_Some in Ht as (p & Hp & ->).
  exists i, p. split_and!; [done|exact Hpre|]. intros c Hck. destruct (Hconn c Hck) as [P1 P2].
  destruct Hset as (E1 & _ & _ & Hall). destruct (Forall_lookup_1 _ _ _ _ Hall Hp) as (E2 & _).
  destruct (Forall_lookup_1 _ _ _ _ Hempty Hp) as [E3 E4]. cbn in E2, E3, E4.
  cbn [abs abs_thread set_outbox outbox_] in P1. rewrite E4, E2 in P1. cbn in P1. rewrite app_nil_r in P1.
  unfold inbox_of in P2. cbn [abs srv with_inboxes inboxes] in P2. rewrite abs_inboxes_lookup, Hp in P2.
  cbn in P2. rewrite E3, E1 in P2. cbn in P2. rewrite app_nil_r in P2. done.
Qed.

(** C2. No wake-up is lost and no client is forgotten: whenever all threads
    wait and no eventfd is readable, after any interleaving, all queues are
    empty, the store is what the abstract store becomes when it executes the
    requests one after the other, and for each client still connected whose
    descriptor was accepted only once since the start (a number that is given
    out again can be silenced by the Disconnect of its previous owner) every
    complete request it sent has been executed, in the order it was sent, and
    every reply has been written to it or is in its buffer.  Provided that the
    eventfds could be created and that every request executed, of any client,
    was safe: at a clock value from 1970 on and below 2^62 ms, and setting no
    deadline that is out of range or equal to the -1 that means none, nor given
    the null option of EXPIRE. *)
Theorem settled_means_answered (store : M) a hardware command_fd inbox_fds ls s :
  0 <= command_fd -> (forall i, 0 <= inbox_fds i) ->
  represents store a -> sane_store a ->
  trun clock cap (threads_init store hardware command_fd inbox_fds) ls = Some s ->
  Forall request_safe (timed clock 0 (history s).*2) ->
  settled s ->
  let outcome := exec_all a (timed clock 0 (history s).*2) in
  Forall (fun p => inbox p = [] /\ outbox p = []) (procs s)
  /\ represents (store_ (main s)) (fst outcome)
  /\ forall k, length (filter (fun f => f = k) (accepts s)) = 1%nat ->
     exists i p, procs s !! i = Some p
     /\ sent_to k (io p) `prefix_of` replies_to k (history s).*1 (snd outcome)
     /\ forall c, connections_ (io p) !! k = Some c ->
          parses (seen s k) (own_requests k (history s)) (buffer_ (parse_queue c))
          /\ sent_to k (io p) ++ out_buffer c = replies_to k (history s).*1 (snd outcome).
Proof. apply settled_session. Qed.

End Theorems.

(** *** Witnesses *)

#[local] Existing Instance std_ops.
#[local] Existing Instance std_spec.

Definition nothing_read : list bytes * recv_result := ([], RecvError EAGAIN).
Definition main_go : move := Main None ForkFailed (-1).
Definition io_go : move := Io 0 nothing_read [].

(** Client [k] connects: accepted, assigned to thread 0, and known to it. *)
Definition connect_moves (k : Z) : list move :=
  [MainWake [RListen]; Main (Some k) ForkFailed (-1); main_go; main_go; main_go;
   IoWake 0 [RInbox]; io_go; io_go; io_go].

(** Thread 0, with a readable socket next, reads a PING and hands it over. *)
Definition ping_moves : list move := [Io 0 ([Serialize ping], RecvError EAGAIN) []; io_go; io_go].

(** The main thread wakes, executes one batch and waits again. *)
Definition serve_moves : list move := MainWake [RCommand] :: replicate 6 main_go.

Definition sample_moves : list move :=
  connect_moves 5 ++ IoWake 0 [RSocket 5 false true false] :: ping_moves ++ serve_moves
  ++ [IoWake 0 [RInbox]; io_go; Io 0 nothing_read (SendCount 7 :: replicate 7 (SendError EAGAIN)); io_go].

#[local] Abbreviation sample_state :=
  (trun (fun _ => 100) kQueueCapacity (threads_init (∅ : gmap bytes Entry) 1 3 (fun _ => 4)) sample_moves).

Definition settledb {M} (s : state M) : bool :=
  match posting s, main_tasks s with [], [] => true | _, _ => false end
  && negb (readable (command_event_ s))
  && forallb (fun p => match emitting p, tasks p with [], [] => true | _, _ => false end
                       && negb (readable (inbox_event_ p))) (procs s).

Lemma settledb_spec {M} (s : state M) : settledb s = true -> settled s.
Proof.
  unfold settledb, settled. rewrite !andb_true_iff, negb_true_iff, forallb_forall. intros [[H1 H2] H3].
  destruct (posting s), (main_tasks s); try done. split_and!; try done. apply Forall_forall.
  intros p Hp%list_elem_of_In%H3. apply andb_true_iff in Hp as [Hp1 Hp2%negb_true_iff].
  by destruct (emitting p), (tasks p).
Qed.

Lemma sample_state_checked : exists s, sample_state = Some s
  /\ bool_decide (history s = [(5, ping)]) && bool_decide (accepts s = [5]) && settledb s = true.
Proof. apply checked_some. vm_compute. reflexivity. Qed.

Lemma threads_refine_async_witness :
  exists s, sample_state = Some s
  /\ (exists als, run (fun _ => 100) (async_init (∅ : gmap bytes Entry) 1) als = Some (abs s))
  /\ Forall (fun p => length (inbox p) <= kQueueCapacity /\ length (outbox p) <= kQueueCapacity)%nat (procs s).
Proof.
  destruct sample_state_checked as (s & E & _). exists s. split; [exact E|].
  apply (threads_refine_async (fun _ => 100) kQueueCapacity (∅ : gmap bytes Entry) 1 3 (fun _ => 4) sample_moves s);
    [lia|intros; lia|exact E].
Defined.

Lemma settled_means_answered_witness :
  exists s, sample_state = Some s /\ history s = [(5, ping)]
  /\ Forall (fun p => inbox p = [] /\ outbox p = []) (procs s)
  /\ exists i p, procs s !! i = Some p /\ sent_to 5 (io p) `prefix_of` lit "+PONG" ++ crlf.
Proof.
  destruct sample_state_checked as (s & E & Hs). exists s. split; [exact E|].
  apply andb_true_iff in Hs as [Hs Hset%settledb_spec]. apply andb_true_iff in Hs as [Hh Ha].
  apply bool_decide_eq_true in Hh, Ha.
  destruct (settled_means_answered (fun _ => 100) kQueueCapacity (∅ : gmap bytes Entry) ∅ 1 3 (fun _ => 4)
              sample_moves s) as (H1 & _ & H3).
  - lia.
  - intros; lia.
  - split; [exact I|reflexivity].
  - intros k v t Hk. by rewrite lookup_empty in Hk.
  - exact E.
  - rewrite Hh. apply Forall_cons_2; [|apply Forall_nil_2]. split; [cbn; lia|exact I].
  - exact Hset.
  - split; [exact Hh|]. split; [exact H1|].
    destruct (H3 5) as (i & p & Hp & Hpre & _); [rewrite Ha; reflexivity|].
    exists i, p. split; [exact Hp|]. rewrite Hh in Hpre. exact Hpre.
Defined.
