(* ===== verification/Progress.v ===== *)
(** * Progress of the threads

    Can the threads of Threads always get their work done?  Three answers:

    - every step that is not a retry of a push to a full queue brings the
      system closer to being settled, measured by [work], and a retry changes
      nothing in that measure; so without new input only a bounded number of
      such steps is possible;
    - when no such step is possible, the system is settled, or a request with
      undefined behaviour is next, or the main thread and an IO thread each
      wait for room in a queue that only the other empties;
    - that last state is reachable, from clients that do nothing unusual, and
      it is final. *)

From S2P Require Import Prelude CxxString RespValue RespValueQueue MapInterface Store Handlers CommandSpec EventFd IoThread Server AsyncServer Threads.

#[local] Open Scope nat_scope.

(** ** Sums over the threads *)

Section Totals.
Context {A : Type}.

Definition total (f : nat -> A -> nat) (l : list A) : nat := sum_list (imap f l).

Lemma total_cons f x l : total f (x :: l) = f 0 x + total (fun i => f (S i)) l.
Proof. reflexivity. Qed.

Lemma total_update l : forall (f : nat -> A -> nat) i x y, l !! i = Some x ->
  total f (<[i := y]> l) + f i x = total f l + f i y.
Proof.
  induction l as [|a l IH]; intros f [|i] x y Hi; cbn in Hi; try done.
  - injection Hi as ->. cbn [list_insert insert]. rewrite !total_cons. lia.
  - change (<[S i := y]> (a :: l)) with (a :: <[i := y]> l). rewrite !total_cons.
    pose proof (IH (fun i => f (S i)) i x y Hi) as H. cbn in H. lia.
Qed.

Lemma total_mono l : forall f g : nat -> A -> nat,
  (forall i x, l !! i = Some x -> g i x <= f i x) -> total g l <= total f l.
Proof.
  induction l as [|a l IH]; intros f g H; [done|]. rewrite !total_cons.
  pose proof (H 0 a eq_refl). pose proof (IH (fun i => f (S i)) (fun i => g (S i)) (fun i x Hx => H (S i) x Hx)). lia.
Qed.

(** One thread gains [d], none loses. *)
Lemma total_gain l : forall (f g : nat -> A -> nat) d,
  (forall i x, l !! i = Some x -> g i x <= f i x) ->
  (exists i x, l !! i = Some x /\ g i x + d <= f i x) -> total g l + d <= total f l.
Proof.
  induction l as [|a l IH]; intros f g d H (i & x & Hi & Hd); [done|]. rewrite !total_cons.
  pose proof (H 0 a eq_refl). destruct i as [|i]; cbn in Hi.
  - injection Hi as ->.
    pose proof (total_mono l (fun i => f (S i)) (fun i => g (S i)) (fun i x Hx => H (S i) x Hx)). lia.
  - pose proof (IH (fun i => f (S i)) (fun i => g (S i)) d (fun i x Hx => H (S i) x Hx)
      (ex_intro _ i (ex_intro _ x (conj Hi Hd)))). lia.
Qed.

End Totals.

(** ** How much is left to do *)

(** What a pass of the main thread over [n] outboxes costs, with the wake-up. *)
Definition pass_cost (n : nat) : nat := n + 3.

Definition weigh_out_disconnect : nat := 1.
Definition weigh_notify_main (n : nat) : nat := pass_cost n + 1.

(** A push to the outbox: the message itself ([w]), the step, the pass it may
    cause by filling the queue, and the pass that will see the message. *)
Definition weigh_push (n w : nat) : nat := 1 + w + 2 * pass_cost n.

Definition weigh_in (n : nat) (m : InboxMsg) : nat :=
  match m with
  | AssignConnection _ => 1
  | WriteResponse _ _ => 1 + weigh_push n weigh_out_disconnect + weigh_notify_main n
  end.

Definition weigh_post (n : nat) (op : post_op) : nat :=
  match op with PPush _ m => 1 + weigh_in n m | PNotify _ => 4 end.

Definition weigh_out_batch (n : nat) : nat := 1 + (1 + weigh_in n (WriteResponse 0%Z [])) + 4.

Definition weigh_out (n : nat) (m : OutboxMsg) : nat :=
  match m with Disconnect _ => weigh_out_disconnect | CommandBatch _ _ => weigh_out_batch n end.

Definition weigh_emit (n : nat) (op : emit_op) : nat :=
  match op with EPush m => weigh_push n (weigh_out n m) | ENotify => weigh_notify_main n end.

Definition weigh_task (n : nat) (t : io_task) : nat :=
  match t with
  | TDrain | TPop => 1
  | TSocket _ _ _ _ => 1 + (weigh_push n (weigh_out_batch n) + weigh_notify_main n)
                       + (weigh_push n weigh_out_disconnect + weigh_notify_main n)
  end.

Definition weigh_main_task (n : nat) (t : main_task) : nat :=
  match t with MPop i => S (n - i) | _ => 1 end.

Definition coveredb (i : nat) (ts : list main_task) : bool :=
  existsb (fun t => match t with MPop j => (j <=? i)%nat | _ => false end) ts.

Definition draining (ts : list io_task) : bool :=
  existsb (fun t => match t with TDrain => true | _ => false end) ts.

Definition main_draining (ts : list main_task) : bool :=
  existsb (fun t => match t with MDrain => true | _ => false end) ts.

Definition sum_with {A} (f : A -> nat) (l : list A) : nat := sum_list_with f l.

(** One thread: its steps, its messages, the next pass over those messages
    that are not covered by the current one, and its wake-up. *)
Definition weigh_proc (n : nat) (ts : list main_task) (i : nat) (p : io_proc) : nat :=
  sum_with (weigh_emit n) (emitting p) + sum_with (weigh_task n) (tasks p)
  + sum_with (weigh_in n) (inbox p)
  + sum_with (fun m => weigh_out n m + if coveredb i ts then 0 else pass_cost n) (outbox p)
  + (if readable (inbox_event_ p) && negb (draining (tasks p)) then 3 else 0).

Definition full (cap : nat) (p : io_proc) : bool := (cap <=? length (outbox p))%nat.

(** The wake-up of the main thread; a thread that retries may cause it. *)
Definition weigh_wake_up (cap : nat) (e : EventFd) (ts : list main_task) (ps : list io_proc) : nat :=
  if (readable e && negb (main_draining ts)) || existsb (full cap) ps then pass_cost (length ps) else 0.

Definition measure (cap : nat) (l : list post_op) (ts : list main_task) (e : EventFd) (ps : list io_proc) : nat :=
  sum_with (weigh_post (length ps)) l + sum_with (weigh_main_task (length ps)) ts
  + total (weigh_proc (length ps) ts) ps + weigh_wake_up cap e ts ps.

Definition work {M} (cap : nat) (s : state M) : nat :=
  measure cap (posting s) (main_tasks s) (command_event_ s) (procs s).

(** Moves that bring no new input: a wake-up only by an eventfd, no client
    accepted. *)
Definition internal (l : move) : bool :=
  match l with
  | MainWake evs => match evs with [RCommand] => true | _ => false end
  | Main accept_result _ _ => match accept_result with None => true | Some _ => false end
  | IoWake _ evs => match evs with [RInbox] => true | _ => false end
  | Io _ _ _ => true
  end.

(** A push to a queue that is full. *)
Definition retries {M} (cap : nat) (s : state M) (l : move) : bool :=
  match l with
  | Main _ _ _ =>
      match posting s with
      | PPush i _ :: _ =>
          match procs s !! i with Some p => (cap <=? length (inbox p))%nat | None => false end
      | _ => false
      end
  | Io i _ _ =>
      match procs s !! i with
      | Some p => match emitting p with EPush _ :: _ => full cap p | _ => false end
      | None => false
      end
  | _ => false
  end.

(** ** What the handlers add *)

Lemma sum_with_app {A} (f : A -> nat) a b : sum_with f (a ++ b) = sum_with f a + sum_with f b.
Proof. apply sum_list_with_app. Qed.

Lemma sum_with_cons {A} (f : A -> nat) x l : sum_with f (x :: l) = f x + sum_with f l.
Proof. reflexivity. Qed.

Lemma sum_emits n ms : sum_with (weigh_emit n) (emits ms)
  = sum_with (fun m => weigh_push n (weigh_out n m) + weigh_notify_main n) ms.
Proof.
  induction ms as [|m ms IH]; [done|]. change (emits (m :: ms)) with ([EPush m; ENotify] ++ emits ms).
  rewrite sum_with_app, IH, !sum_with_cons. cbn. lia.
Qed.

Definition weigh_message (n : nat) (m : InboxMsg) : nat := 5 + weigh_in n m.

Lemma sum_posts_pairs n i l : sum_with (weigh_post n) (posts (pair i <$> l)) = sum_with (weigh_message n) l.
Proof.
  induction l as [|m l IH]; [done|].
  change (posts (pair i <$> m :: l)) with ([PPush i m; PNotify i] ++ posts (pair i <$> l)).
  rewrite sum_with_app, IH, !sum_with_cons. cbn. unfold weigh_message. lia.
Qed.

Lemma sum_posts_staged n P :
  sum_with (weigh_post n) (posts (staged P)) = sum_with (sum_with (weigh_message n)) P.
Proof.
  unfold staged.
  enough (forall h, sum_with (weigh_post n) (posts (concat (imap (fun i l => pair (h i) <$> l) P)))
    = sum_with (sum_with (weigh_message n)) P) as H by (apply (H (fun i => i))).
  induction P as [|l P IH]; intros h; [done|]. cbn [imap concat].
  rewrite posts_app, sum_with_app, sum_posts_pairs, sum_with_cons. f_equal. exact (IH (fun i => h (S i))).
Qed.

Lemma sum_one_message n i m : forall k,
  sum_with (sum_with (weigh_message n)) (alter (fun l => l ++ [m]) i (replicate k [])) <= weigh_message n m.
Proof.
  assert (forall k, sum_with (sum_with (weigh_message n)) (replicate k []) = 0) as Hz.
  { intros k. by induction k as [|k IH]. }
  induction i as [|i IH]; intros [|k]; try (cbn; lia).
  - change (alter _ 0 (replicate (S k) [])) with ([m] :: replicate k (@nil InboxMsg)).
    rewrite !sum_with_cons, Hz. cbn. lia.
  - change (alter ?f (S i) (replicate (S k) [])) with ([] :: alter f i (replicate k (@nil InboxMsg))).
    rewrite sum_with_cons. specialize (IH k). change (sum_with (weigh_message n) []) with 0. lia.
Qed.

Lemma sum_no_message n k : sum_with (sum_with (weigh_message n)) (replicate k []) = 0.
Proof. by induction k as [|k IH]. Qed.

(** A message of the inbox leads to at most one [Disconnect]. *)
Lemma recv_outbox t t' m sends : io_inv t -> outbox_ t = [] -> inbox_answersb t m sends = true ->
  DrainInbox t [(m, sends)] = Ok t' ->
  outbox_ t' = [] \/ exists f r, m = WriteResponse f r /\ outbox_ t' = [Disconnect f].
Proof.
  intros Hi Ho Ha Hd. destruct (recv_thread t m sends Hi Ha) as (t1 & Hd' & _ & _ & Heff & _).
  rewrite Hd in Hd'. injection Hd' as <-. destruct m as [f|f r]; cbn [inbox_effect] in *.
  - subst t'. rewrite HandleAssign_outbox, Ho. by left.
  - destruct (connections_ t !! f) as [c|] eqn:Hc; [|subst t'; by left].
    pose proof (map_Forall_lookup_1 _ _ _ _ Hi Hc) as (_ & _ & Hb).
    destruct Heff as (c' & Hc' & [(c2 & vs & _ & Hp & O & _)|(_ & vs & r2 & ms & O & Hp & _)]);
      rewrite Hc in Hc'; injection Hc' as <-; rewrite O, Ho; cbn [app].
    + apply parses_idle_inv in Hp as [-> _]; [by left|done].
    + destruct Hp as [[[-> _]%parses_idle_inv ->]|[Hm _]]; [|done|by apply malformed_idle in Hm]. right. by exists f, r.
Qed.

(** A socket event leads to at most one batch and one [Disconnect]. *)
Lemma socket_outbox t t' ev seen : io_inv t -> outbox_ t = [] -> event_okb seen t ev = true ->
  run_event t (to_io_event ev) = Ok t' ->
  exists batch last, outbox_ t' = batch ++ last
    /\ (batch = [] \/ exists vs, batch = batch_msg (socket_fd ev) vs) /\ (last = [] \/ last = [Disconnect (socket_fd ev)]).
Proof.
  intros Hi Ho Ha Hd. destruct (socket_thread t ev seen Hi Ha) as (t1 & Hd' & _ & _ & Heff & _).
  rewrite Hd in Hd'. injection Hd' as <-.
  unfold socket_effect in Heff. destruct (connections_ t !! socket_fd ev) as [c|]; [|subst t'; exists [], []; auto].
  destruct Heff as (c' & _ & [(c2 & vs & _ & _ & O & _)|(_ & vs & r2 & ms & O & Hp & _)]); rewrite O, Ho; cbn [app].
  - exists (batch_msg (socket_fd ev) vs), []. rewrite app_nil_r. split; [reflexivity|]. split; [right; by exists vs|by left].
  - eexists ms, _. split; [reflexivity|]. split; [|by right]. destruct Hp as [[_ ->]|[_ ->]]; [right; by eexists|by left].
Qed.

Section Emitted.
Context (n : nat).

Lemma recv_emitted t t' m sends : io_inv t -> outbox_ t = [] -> inbox_answersb t m sends = true ->
  DrainInbox t [(m, sends)] = Ok t' ->
  sum_with (weigh_emit n) (emits (outbox_ t')) + 1 <= weigh_in n m.
Proof.
  intros Hi Ho Ha Hd. rewrite sum_emits.
  destruct (recv_outbox t t' m sends Hi Ho Ha Hd) as [->|(f & r & -> & ->)]; [destruct m|]; cbn; lia.
Qed.

Lemma socket_emitted t t' ev seen : io_inv t -> outbox_ t = [] -> event_okb seen t ev = true ->
  run_event t (to_io_event ev) = Ok t' ->
  sum_with (weigh_emit n) (emits (outbox_ t')) + 1
  <= 1 + (weigh_push n (weigh_out_batch n) + weigh_notify_main n)
       + (weigh_push n weigh_out_disconnect + weigh_notify_main n).
Proof.
  intros Hi Ho Ha Hd. rewrite sum_emits.
  destruct (socket_outbox t t' ev seen Hi Ho Ha Hd) as (batch & last & -> & Hb & Hl). rewrite sum_with_app.
  assert (sum_with (fun m => weigh_push n (weigh_out n m) + weigh_notify_main n) batch
    <= weigh_push n (weigh_out_batch n) + weigh_notify_main n).
  { destruct Hb as [->|[vs ->]]; [cbn; lia|]. unfold batch_msg. case_bool_decide; cbn; lia. }
  assert (sum_with (fun m => weigh_push n (weigh_out n m) + weigh_notify_main n) last
    <= weigh_push n weigh_out_disconnect + weigh_notify_main n) by (destruct Hl as [->| ->]; cbn; lia).
  lia.
Qed.

End Emitted.

(** A message of the main thread leads to at most one response. *)
Lemma process_emitted {M} {ops : MapOps bytes Entry M} clock n k (s s' : Server M) m :
  inboxes s = replicate k [] -> process_msg clock s m = Ok s' ->
  sum_with (weigh_post n) (posts (staged (inboxes s'))) + 1 <= weigh_out n m.
Proof.
  intros Hs Hm. rewrite sum_posts_staged. apply process_msg_inv in Hm as (reps & _ & _ & _ & Hm).
  destruct m as [f vs|f]; destruct Hm as [_ ->]; rewrite Hs; cbn [weigh_out].
  - case_match.
    + etransitivity; [apply Nat.add_le_mono_r, sum_one_message|]. unfold weigh_message, weigh_out_batch. cbn. lia.
    + rewrite sum_no_message. unfold weigh_out_batch. lia.
  - rewrite sum_no_message. done.
Qed.

(** ** Every step is accounted for *)

Section Work.
Context {M : Type} {ops : MapOps bytes Entry M}.
Context (clock : nat -> Z) (cap : nat).
Implicit Types s : state M.

Lemma wake_up_le e ts ps : weigh_wake_up cap e ts ps <= pass_cost (length ps).
Proof. unfold weigh_wake_up. case_match; lia. Qed.

Lemma wake_up_full e ts ps : existsb (full cap) ps = true -> weigh_wake_up cap e ts ps = pass_cost (length ps).
Proof. unfold weigh_wake_up. intros ->. by rewrite orb_true_r. Qed.

Lemma wake_up_mono e ts ps e' ts' ps' : length ps' = length ps ->
  (readable e' && negb (main_draining ts') = true -> readable e && negb (main_draining ts) = true) ->
  (existsb (full cap) ps' = true -> existsb (full cap) ps = true) ->
  weigh_wake_up cap e' ts' ps' <= weigh_wake_up cap e ts ps.
Proof.
  intros Hl He Hf. unfold weigh_wake_up. rewrite Hl.
  destruct (_ || existsb (full cap) ps') eqn:E; [|lia]. apply orb_true_iff in E as [E|E].
  - by rewrite (He E).
  - rewrite (Hf E), orb_true_r. done.
Qed.

Lemma full_insert ps i p p' : ps !! i = Some p -> (full cap p' = true -> full cap p = true) ->
  existsb (full cap) (<[i := p']> ps) = true -> existsb (full cap) ps = true.
Proof.
  intros Hi Hp. rewrite !existsb_exists. intros (q & Hq & Hf). apply list_elem_of_In in Hq.
  apply list_elem_of_lookup in Hq as (j & Hj). apply list_lookup_insert_Some in Hj as [(<- & <- & _)|[_ Hj]].
  - exists p. split; [|by apply Hp]. apply list_elem_of_In. by eapply list_elem_of_lookup_2.
  - exists q. split; [|done]. apply list_elem_of_In. by eapply list_elem_of_lookup_2.
Qed.

Lemma full_at ps i p : ps !! i = Some p -> full cap p = true -> existsb (full cap) ps = true.
Proof.
  intros Hi Hf. rewrite existsb_exists. exists p. split; [|done]. apply list_elem_of_In. by eapply list_elem_of_lookup_2.
Qed.

(** *** One IO thread changes *)

Section Update.
Context (l l' : list post_op) (ts : list main_task) (e e' : EventFd) (ps : list io_proc).
Context (i : nat) (p p' : io_proc) (Hi : ps !! i = Some p).
Let n := length ps.

Lemma measure_update :
  measure cap l' ts e' (<[i := p']> ps)
    + (sum_with (weigh_post n) l + weigh_proc n ts i p + weigh_wake_up cap e ts ps)
  = measure cap l ts e ps
    + (sum_with (weigh_post n) l' + weigh_proc n ts i p' + weigh_wake_up cap e' ts (<[i := p']> ps)).
Proof.
  unfold measure. rewrite length_insert. fold n.
  pose proof (total_update ps (weigh_proc n ts) i p p' Hi). lia.
Qed.

Lemma measure_decr : (full cap p' = true -> full cap p = true) -> (readable e' = true -> readable e = true) ->
  sum_with (weigh_post n) l' + weigh_proc n ts i p' < sum_with (weigh_post n) l + weigh_proc n ts i p ->
  measure cap l' ts e' (<[i := p']> ps) < measure cap l ts e ps.
Proof.
  intros Hf He Hlt. pose proof measure_update as H.
  assert (weigh_wake_up cap e' ts (<[i := p']> ps) <= weigh_wake_up cap e ts ps); [|lia].
  apply wake_up_mono; [apply length_insert| |by eapply full_insert].
  rewrite !andb_true_iff. intros [H1 H2]. auto.
Qed.

(** The step may also wake the main thread. *)
Lemma measure_decr_wake :
  sum_with (weigh_post n) l' + weigh_proc n ts i p' + pass_cost n < sum_with (weigh_post n) l + weigh_proc n ts i p ->
  measure cap l' ts e' (<[i := p']> ps) < measure cap l ts e ps.
Proof.
  intros Hlt. pose proof measure_update as H.
  pose proof (wake_up_le e' ts (<[i := p']> ps)) as Hw. rewrite length_insert in Hw. fold n in Hw. lia.
Qed.

End Update.

Ltac weigh_state :=
  unfold work; cbn [set_proc set_main set_command_event post_all posting main_tasks command_event_ procs].

(** *** The main thread posts *)

Lemma post_step_work s op rest s' : posting s = op :: rest -> post_step cap s op rest = Some s' ->
  if retries cap s (Main None ForkFailed 0%Z) then s' = s else work cap s' < work cap s.
Proof.
  intros Hp Hs. cbn [retries]. rewrite Hp. destruct op as [i m|i]; cbn [post_step] in Hs;
    apply bind_Some in Hs as (p & Hi & Hs); rewrite ?Hi.
  - destruct (length (inbox p) <? cap)%nat eqn:E; reflect_bools.
    + rewrite (proj2 (Nat.leb_gt _ _)) by lia. injection Hs as <-. weigh_state.
      eapply measure_decr; [exact Hi|done|done|]. rewrite Hp, sum_with_cons. unfold weigh_proc.
      cbn [weigh_post emitting tasks inbox outbox inbox_event_]. rewrite sum_with_app, sum_with_cons.
      change (sum_with _ (@nil InboxMsg)) with 0. lia.
    + rewrite (proj2 (Nat.leb_le _ _)) by lia. by injection Hs.
  - injection Hs as <-. weigh_state. eapply measure_decr; [exact Hi|done|done|]. rewrite Hp, sum_with_cons.
    unfold weigh_proc. cbn [weigh_post emitting tasks inbox outbox inbox_event_]. repeat case_match; lia.
Qed.

(** *** An IO thread emits *)

Lemma emit_step_work s i p op rest : procs s !! i = Some p -> emitting p = op :: rest ->
  if retries cap s (Io i nothing_read []) then work cap (emit_step cap s i p op rest) = work cap s
  else work cap (emit_step cap s i p op rest) < work cap s.
Proof.
  intros Hi He. cbn [retries]. rewrite Hi, He. destruct op as [m|]; cbn [emit_step].
  - unfold full. destruct (length (outbox p) <? cap)%nat eqn:E; reflect_bools.
    + rewrite (proj2 (Nat.leb_gt _ _)) by lia. weigh_state.
      eapply measure_decr_wake; [exact Hi|]. unfold weigh_proc. rewrite He.
      cbn [emitting tasks inbox outbox inbox_event_]. rewrite sum_with_app, !sum_with_cons.
      change (sum_with _ (@nil OutboxMsg)) with 0. cbn [weigh_emit]. unfold weigh_push. case_match; lia.
    + rewrite (proj2 (Nat.leb_le _ _)) by lia. weigh_state. unfold measure.
      assert (existsb (full cap) (procs s) = true) as Hf.
      { eapply full_at; [exact Hi|]. unfold full. apply Nat.leb_le. lia. }
      by rewrite !wake_up_full.
  - weigh_state.
    eapply measure_decr_wake; [exact Hi|]. unfold weigh_proc. rewrite He. rewrite sum_with_cons.
    cbn [emitting tasks inbox outbox inbox_event_ weigh_emit]. unfold weigh_notify_main. lia.
Qed.

(** *** An IO thread goes on with its tasks *)

Lemma io_task_step_work s i p t ts reads sends s' : io_inv (io p) -> outbox_ (io p) = [] ->
  procs s !! i = Some p -> emitting p = [] -> tasks p = t :: ts ->
  io_task_step s i p t ts reads sends = Some s' -> work cap s' < work cap s.
Proof.
  intros Hio Ho Hi He Ht Hs. destruct t as [| |k er rd wr]; cbn [io_task_step] in Hs.
  - injection Hs as <-. weigh_state. eapply measure_decr; [exact Hi|done|done|]. unfold weigh_proc. rewrite He, Ht.
    cbn [emitting tasks inbox outbox inbox_event_ draining existsb]. rewrite sum_with_cons, drained_not_readable.
    cbn [weigh_task andb]. lia.
  - destruct (inbox p) as [|m rest] eqn:Hin.
    + injection Hs as <-. weigh_state. eapply measure_decr; [exact Hi|done|done|]. unfold weigh_proc. rewrite He, Ht, Hin.
      cbn [emitting tasks inbox outbox inbox_event_ draining existsb]. rewrite sum_with_cons. cbn [weigh_task orb]. lia.
    + destruct (inbox_answersb (io p) m sends) eqn:Ha; [|done].
      destruct (DrainInbox (io p) [(m, sends)]) as [t'| | |] eqn:Hd; try done. injection Hs as <-.
      pose proof (recv_emitted (length (procs s)) _ _ _ _ Hio Ho Ha Hd) as Hw.
      weigh_state. eapply measure_decr; [exact Hi|done|done|]. unfold weigh_proc, after_handler. rewrite He, Ht, Hin.
      cbn [emitting tasks inbox outbox inbox_event_]. rewrite (sum_with_cons (weigh_in _)).
      change (sum_with _ (@nil emit_op)) with 0. lia.
  - destruct (event_okb (seen s k) (io p) _) eqn:Ha; [|done].
    destruct (run_event (io p) _) as [t'| | |] eqn:Hd; try done. injection Hs as <-.
    pose proof (socket_emitted (length (procs s)) _ _ _ _ Hio Ho Ha Hd) as Hw.
    weigh_state. eapply measure_decr; [exact Hi|done|done|]. unfold weigh_proc, after_handler. rewrite He, Ht.
    cbn [emitting tasks inbox outbox inbox_event_ draining existsb]. rewrite (sum_with_cons (weigh_task _)).
    change (sum_with _ (@nil emit_op)) with 0. cbn [weigh_task orb]. lia.
Qed.

(** *** The main thread goes on with its tasks *)

Lemma weigh_proc_covered n ts ts' i p : coveredb i ts' = coveredb i ts \/ outbox p = [] ->
  weigh_proc n ts' i p = weigh_proc n ts i p.
Proof. unfold weigh_proc. by intros [-> | ->]. Qed.

Lemma measure_main l ts ts' e e' ps :
  (forall i p, ps !! i = Some p -> coveredb i ts' = coveredb i ts \/ outbox p = []) ->
  (readable e' && negb (main_draining ts') = true -> readable e && negb (main_draining ts) = true) ->
  sum_with (weigh_main_task (length ps)) ts' < sum_with (weigh_main_task (length ps)) ts ->
  measure cap l ts' e' ps < measure cap l ts e ps.
Proof.
  intros Hc He Hlt. unfold measure.
  assert (total (weigh_proc (length ps) ts') ps <= total (weigh_proc (length ps) ts) ps).
  { apply total_mono. intros i p Hi. rewrite (weigh_proc_covered _ ts ts') by (by eapply Hc). done. }
  pose proof (wake_up_mono e ts ps e' ts' ps eq_refl He (fun H => H)). lia.
Qed.

Lemma task_step_work s t ts forked pidfd s' : clean s -> posting s = [] -> main_tasks s = t :: ts ->
  task_step clock s t ts None forked pidfd = Some s' -> work cap s' < work cap s.
Proof.
  intros Hc Hp Ht Hs. destruct t as [| |i|size|fd]; cbn [task_step] in Hs.
  - injection Hs as <-. weigh_state. rewrite Hp, Ht. apply measure_main; [by left|done|]. rewrite sum_with_cons. cbn [weigh_main_task]. lia.
  - injection Hs as <-. weigh_state. rewrite Hp, Ht. apply measure_main; [by left| |rewrite sum_with_cons; cbn [weigh_main_task]; lia].
    by rewrite drained_not_readable.
  - destruct (procs s !! i) as [p|] eqn:Hi.
    + destruct (outbox p) as [|m rest] eqn:Ho.
      * injection Hs as <-. weigh_state. rewrite Hp, Ht. apply measure_main; [|done|].
        -- intros j q Hj. destruct (decide (j = i)) as [->|Hne]; [right; congruence|]. left. cbn [coveredb existsb].
           destruct (i <=? j)%nat eqn:E1, (S i <=? j)%nat eqn:E2; reflect_bools; lia || done.
        -- apply lookup_lt_Some in Hi. rewrite !sum_with_cons. cbn [weigh_main_task]. lia.
      * destruct (process_msg clock (main s) m) as [srv| | |] eqn:Hm; try done. injection Hs as <-.
        pose proof (process_emitted clock (length (procs s)) _ _ _ _ (clean_main _ Hc) Hm) as Hw.
        weigh_state. rewrite Hp, Ht. eapply measure_decr; [exact Hi| |done|].
        -- unfold full. cbn [outbox]. rewrite Ho, !Nat.leb_le. cbn. lia.
        -- unfold weigh_proc. cbn [emitting tasks inbox outbox inbox_event_ coveredb existsb].
           rewrite Ho, Nat.leb_refl, (sum_with_cons (fun m => _)). cbn [orb].
           change (sum_with _ (@nil post_op)) with 0. lia.
    + injection Hs as <-. weigh_state. rewrite Hp, Ht. apply measure_main; [|done|rewrite sum_with_cons; cbn [weigh_main_task]; lia].
      intros j q Hj. left. apply lookup_ge_None in Hi. apply lookup_lt_Some in Hj. cbn [coveredb existsb].
      by rewrite (proj2 (Nat.leb_gt i j)) by lia.
  - destruct (size =? _)%Z; [|done]. injection Hs as <-. weigh_state. rewrite Hp, Ht. apply measure_main; [by left|done|]. rewrite sum_with_cons. cbn [weigh_main_task]. lia.
  - injection Hs as <-. weigh_state. rewrite Hp, Ht. apply measure_main; [by left|done|]. rewrite sum_with_cons. cbn [weigh_main_task]. lia.
Qed.

(** *** Wake-ups *)

Lemma main_wake_work s : 0 < cap -> posting s = [] -> main_tasks s = [] ->
  readable (command_event_ s) = true ->
  work cap (set_main s (main s) [] [MDrain; MPop 0]) < work cap s.
Proof.
  intros Hcap Hp Ht Hr. weigh_state. rewrite Hp, Ht. unfold measure. set (n := length (procs s)).
  assert (forall i p, procs s !! i = Some p -> weigh_proc n [MDrain; MPop 0] i p <= weigh_proc n [] i p) as Hmono.
  { intros i p _. unfold weigh_proc. cbn [coveredb existsb Nat.leb orb].
    assert (sum_with (fun m => weigh_out n m + 0) (outbox p) <= sum_with (fun m => weigh_out n m + pass_cost n) (outbox p)); [|lia].
    induction (outbox p) as [|m l IH]; [done|]. rewrite !sum_with_cons. lia. }
  assert (sum_with (weigh_main_task n) [MDrain; MPop 0] = n + 2) as -> by (cbn; lia).
  change (sum_with (weigh_main_task n) []) with 0.
  destruct (existsb (full cap) (procs s)) eqn:Hf.
  - rewrite !wake_up_full by done. apply existsb_exists in Hf as (p & Hin%list_elem_of_In & Hf).
    apply list_elem_of_lookup in Hin as (i & Hi).
    assert (total (weigh_proc n [MDrain; MPop 0]) (procs s) + pass_cost n <= total (weigh_proc n []) (procs s)) as Hg.
    { apply total_gain; [done|]. exists i, p. split; [done|]. unfold weigh_proc. cbn [coveredb existsb Nat.leb orb].
      unfold full in Hf. apply Nat.leb_le in Hf. destruct (outbox p) as [|m l]; [cbn in Hf; lia|].
      rewrite !sum_with_cons.
      assert (sum_with (fun m => weigh_out n m + 0) l <= sum_with (fun m => weigh_out n m + pass_cost n) l); [|lia].
      clear. induction l as [|m' l IH]; [done|]. rewrite !sum_with_cons. lia. }
    unfold pass_cost in *. fold n. lia.
  - pose proof (total_mono (procs s) _ _ Hmono) as Hm. unfold weigh_wake_up. rewrite Hr, Hf. cbn. fold n. unfold pass_cost. lia.
Qed.

Lemma io_wake_work s i p : procs s !! i = Some p -> emitting p = [] -> tasks p = [] ->
  readable (inbox_event_ p) = true ->
  work cap (set_proc s i (mkProc (io p) [] [TDrain; TPop] (inbox p) (outbox p) (inbox_event_ p))) < work cap s.
Proof.
  intros Hi He Ht Hr. weigh_state. eapply measure_decr; [exact Hi|done|done|]. unfold weigh_proc.
  cbn [emitting tasks inbox outbox inbox_event_]. rewrite He, Ht, Hr, !sum_with_cons.
  cbn [draining existsb weigh_task negb andb orb]. change (sum_with _ (@nil io_task)) with 0. lia.
Qed.

(** *** All steps *)

Lemma tstep_work s l s' : 0 < cap -> clean s -> Forall (fun p => io_inv (io p)) (procs s) ->
  tstep clock cap s l = Some s' -> internal l = true ->
  if retries cap s l then work cap s' = work cap s else work cap s' < work cap s.
Proof.
  intros Hcap Hc Hio Hs Hint. destruct l as [evs|acc forked pidfd|i evs|i reads sends]; cbn [tstep] in Hs.
  - destruct evs as [|[| | |] [|]]; try done. destruct (posting s) eqn:Hp; [|done]. destruct (main_tasks s) eqn:Ht; [|done].
    destruct (main_answer_ok _ _) eqn:Ha; [|done]. injection Hs as <-. cbn [retries].
    apply main_wake_work; try done. unfold main_answer_ok, answer_ok in Ha. cbn in Ha.
    destruct (readable (command_event_ s)); done.
  - destruct acc; [done|]. destruct (posting s) as [|op rest] eqn:Hp.
    + cbn [retries]. rewrite Hp. destruct (main_tasks s) as [|t ts] eqn:Ht; [done|]. by eapply task_step_work.
    + pose proof (post_step_work s op rest s' Hp Hs) as H. cbn [retries] in *. destruct (match posting s with [] => _ | _ => _ end); [by subst|done].
  - destruct evs as [|[|] [|]]; try done. apply bind_Some in Hs as (p & Hi & Hs). cbn [retries].
    destruct (emitting p) eqn:He; [|done]. destruct (tasks p) eqn:Ht; [|done].
    destruct (io_answer_ok p _) eqn:Ha; [|done]. injection Hs as <-. apply io_wake_work; try done.
    unfold io_answer_ok, answer_ok in Ha. cbn in Ha. destruct (readable (inbox_event_ p)); done.
  - apply bind_Some in Hs as (p & Hi & Hs). destruct (emitting p) as [|op rest] eqn:He.
    + cbn [retries]. rewrite Hi, He. destruct (tasks p) as [|t ts] eqn:Ht; [done|].
      eapply io_task_step_work; try done; [by apply (Forall_lookup_1 _ _ _ _ Hio Hi)|
        by apply (Forall_lookup_1 _ _ _ _ (clean_io _ Hc) Hi)].
    + injection Hs as <-. exact (emit_step_work s i p op rest Hi He).
Qed.

End Work.

(** ** When nothing moves *)

(** The main thread waits for room in the inbox of thread [i], which waits for
    room in its outbox. *)
Definition deadlocked {M} (cap : nat) (s : state M) (i : nat) : Prop :=
  exists p m rest m' rest', procs s !! i = Some p
    /\ posting s = PPush i m :: rest /\ length (inbox p) = cap
    /\ emitting p = EPush m' :: rest' /\ length (outbox p) = cap.

Section Progress.
Context {M : Type} {ops : MapOps bytes Entry M}.
Context (clock : nat -> Z) (cap : nat).
Implicit Types s : state M.

(** The next message of the main thread has no defined outcome. *)
Definition undefined_request s : Prop :=
  exists i p m rest ts, posting s = [] /\ main_tasks s = MPop i :: ts /\ procs s !! i = Some p
    /\ outbox p = m :: rest /\ forall srv, process_msg clock (main s) m <> Ok srv.

(** Some step that needs no new input and is no retry. *)
Definition can_advance s : Prop :=
  exists l s', internal l = true /\ retries cap s l = false /\ tstep clock cap s l = Some s'.

Definition idle (p : io_proc) : Prop :=
  emitting p = [] /\ tasks p = [] /\ readable (inbox_event_ p) = false.

Definition blocked (p : io_proc) : Prop :=
  exists m rest, emitting p = EPush m :: rest /\ cap <= length (outbox p).

Definition sendable (n : nat) : list send_result := replicate n (SendError EAGAIN).

Lemma sendable_answers n : answersb n (sendable n) = true.
Proof.
  apply answersb_spec. split; [|unfold sendable; by rewrite length_replicate].
  destruct n; done.
Qed.

Lemma nothing_read_ok seen : small_str seen -> readsb seen nothing_read = true.
Proof. intros Hs. unfold readsb, nothing_read. cbn. rewrite app_nil_r. by apply Z.ltb_lt. Qed.

(** A thread with something left to do takes a step, or waits for room. *)
Lemma io_acts s i p : procs s !! i = Some p -> io_inv (io p) ->
  (forall k, small_str (seen s k)) -> (forall k, small_str (unparsed k (io p))) ->
  (emitting p = [] /\ tasks p = []) \/ blocked p
  \/ exists sends s', retries cap s (Io i nothing_read sends) = false
       /\ tstep clock cap s (Io i nothing_read sends) = Some s'.
Proof.
  intros Hi Hio Hseen Hun. cbn [retries tstep]. rewrite Hi. cbn [mbind option_bind].
  destruct (emitting p) as [|[m|] rest] eqn:He.
  - destruct (tasks p) as [|t ts] eqn:Ht; [by left|]. right. right. destruct t as [| |k er rd wr]; cbn [io_task_step].
    + by eexists [], _.
    + destruct (inbox p) as [|m l] eqn:Hin; [by eexists [], _|].
      set (sends := match m with AssignConnection _ => [] | WriteResponse k r => sendable (length (pending k (io p) ++ r)) end).
      assert (inbox_answersb (io p) m sends = true) as Ha.
      { destruct m as [f|f r]; [done|]. apply sendable_answers. }
      destruct (recv_thread (io p) m sends Hio Ha) as (t' & Hd & _). eexists sends, _. by rewrite Ha, Hd.
    + set (sends := sendable (length (pending k (io p)))).
      assert (event_okb (seen s k) (io p) (socket_of k er rd wr nothing_read sends) = true) as Ha.
      { unfold socket_of. destruct er; [done|]. cbn [event_okb].
        pose proof (nothing_read_ok _ (Hseen k)) as H1. pose proof (nothing_read_ok _ (Hun k)) as H2.
        pose proof (sendable_answers (length (pending k (io p)))) as H3. fold sends in H3.
        destruct rd, wr; by rewrite ?H1, ?H2, ?H3. }
      destruct (socket_thread (io p) _ _ Hio Ha) as (t' & Hd & _). eexists sends, _. by rewrite Ha, Hd.
  - right. destruct (full cap p) eqn:Hf; [left; exists m, rest; split; [done|by apply Nat.leb_le]|right].
    by eexists [], _.
  - right. right. by eexists [], _.
Qed.

Lemma io_advance s i p : procs s !! i = Some p -> io_inv (io p) ->
  (forall k, small_str (seen s k)) -> (forall k, small_str (unparsed k (io p))) ->
  can_advance s \/ idle p \/ blocked p.
Proof.
  intros Hi Hio Hseen Hun.
  destruct (io_acts s i p Hi Hio Hseen Hun) as [[He Ht]|[?|(sends & s' & Hr & Hs)]]; [|by do 2 right|left; by exists (Io i nothing_read sends), s'].
  destruct (readable (inbox_event_ p)) eqn:Hr; [left|by right; left].
  eexists (IoWake i [RInbox]), _. split; [done|]. split; [done|]. cbn [tstep]. rewrite Hi. cbn [mbind option_bind].
  rewrite He, Ht. unfold io_answer_ok, answer_ok. by rewrite Hr.
Qed.

Lemma main_advance s : live cap s ->
  can_advance s \/ undefined_request s
  \/ (posting s = [] /\ main_tasks s = [] /\ readable (command_event_ s) = false)
  \/ exists i p m rest, procs s !! i = Some p /\ posting s = PPush i m :: rest /\ cap <= length (inbox p).
Proof.
  intros Hl. pose proof (live_posting _ _ Hl) as Hok.
  assert (forall s', tstep clock cap s (Main None ForkFailed 0%Z) = Some s' ->
    retries cap s (Main None ForkFailed 0%Z) = false -> can_advance s) as Hgo.
  { intros s' Hs Hr. by exists (Main None ForkFailed 0%Z), s'. }
  cbn [tstep retries] in Hgo. destruct (posting s) as [|op rest] eqn:Hp.
  - destruct (main_tasks s) as [|t ts] eqn:Ht.
    + destruct (readable (command_event_ s)) eqn:Hr; [left|by right; right; left].
      eexists (MainWake [RCommand]), _. split; [done|]. split; [done|]. cbn [tstep]. rewrite Hp, Ht.
      unfold main_answer_ok, answer_ok. by rewrite Hr.
    + pose proof (live_tasks _ _ Hl) as Htasks. rewrite Ht in Htasks.
      destruct t as [| |i|size|fd]; cbn [task_step] in Hgo; try (left; by eapply Hgo).
      2:{ destruct Htasks as [-> _]. left. by eapply Hgo. }
      destruct (procs s !! i) as [p|] eqn:Hi; [|left; by eapply Hgo].
      destruct (outbox p) as [|m l] eqn:Ho; [left; by eapply Hgo|].
      destruct (process_msg clock (main s) m) as [srv| | |] eqn:Hm; [left; by eapply Hgo| | |];
        right; left; exists i, p, m, l, ts; (split_and!; [done..|]); intros srv E; congruence.
  - apply posting_head in Hok. destruct op as [i m|i]; destruct Hok as (Hi & _);
      destruct (lookup_lt_is_Some_2 _ _ Hi) as [p Hpi]; cbn [post_step] in Hgo; rewrite Hpi in Hgo; cbn [mbind option_bind] in Hgo.
    + destruct (cap <=? length (inbox p)) eqn:Hf; reflect_bools.
      * do 3 right. by exists i, p, m, rest.
      * left. rewrite (proj2 (Nat.ltb_lt _ _) Hf) in Hgo. by eapply Hgo.
    + left. by eapply Hgo.
Qed.

Lemma all_or {A} (P : A -> Prop) (Q : Prop) (l : list A) :
  (forall i x, l !! i = Some x -> Q \/ P x) -> Q \/ Forall P l.
Proof.
  induction l as [|x l IH]; intros H; [by right|].
  destruct (H 0 x eq_refl) as [?|Hx]; [by left|].
  destruct IH as [?|Hl]; [intros i y Hy; by apply (H (S i))|by left|right; by constructor].
Qed.

Lemma advance_or_stop s : 0 < cap -> live cap s -> Forall (fun p => io_inv (io p)) (procs s) -> fits (abs s) ->
  can_advance s \/ settled s \/ (exists i, deadlocked cap s i) \/ undefined_request s.
Proof.
  intros Hcap Hl Hio [Hseen Hun].
  destruct (all_or (fun p => idle p \/ blocked p) (can_advance s) (procs s)) as [?|Hall]; [|by left|].
  { intros i p Hi. apply (io_advance s i p Hi); [exact (Forall_lookup_1 _ _ _ _ Hio Hi)|exact Hseen|].
    assert (threads (abs s) !! i = Some (abs_thread p)) as Ht by (cbn; by rewrite list_lookup_fmap, Hi).
    exact (Forall_lookup_1 _ _ _ _ Hun Ht). }
  destruct (main_advance s Hl) as [?|[?|[(H1 & H2 & H3)|(i & p & m & rest & Hi & Hp & Hf)]]]; [by left|by do 3 right| |].
  - right. left. split_and!; [done..|]. apply Forall_lookup_2. intros i p Hi.
    destruct (Forall_lookup_1 _ _ _ _ Hall Hi) as [Hid|(m & rest & He & Hf)]; [exact Hid|].
    destruct (live_procs _ _ Hl i p Hi) as (_ & _ & [W|[W|[(j & _ & W)|W]]]).
    + rewrite W in Hf. cbn in Hf. lia.
    + congruence.
    + rewrite H2 in W. by apply not_elem_of_nil in W.
    + by rewrite He in W.
  - right. right. left. exists i. destruct (live_procs _ _ Hl i p Hi) as ((_ & _ & _ & P4 & P5) & Win & _).
    destruct (Forall_lookup_1 _ _ _ _ Hall Hi) as [(E1 & E2 & E3)|(m' & rest' & He & Ho)].
    + exfalso. destruct Win as [W|[W|[W|W]]].
      * rewrite W in Hf. cbn in Hf. lia.
      * congruence.
      * rewrite E2 in W. by apply not_elem_of_nil in W.
      * by rewrite Hp in W.
    + exists p, m, rest, m', rest'. split_and!; try done; lia.
Qed.

End Progress.

(** ** What a run can do without new input *)

Section Runs.
Context {M : Type} {ops : MapOps bytes Entry M}.
Context (clock : nat -> Z) (cap : nat).
Implicit Types s : state M.

(** The steps of a run that are not retries. *)
Fixpoint advances s (ls : list move) : nat :=
  match ls with
  | [] => 0
  | l :: ls =>
      (if retries cap s l then 0 else 1)
      + match tstep clock cap s l with Some s' => advances s' ls | None => 0 end
  end.

(** What every reachable state satisfies, as far as progress needs it. *)
Definition sound s : Prop :=
  clean s /\ live cap s /\ Forall (fun p => io_inv (io p)) (procs s) /\ fits (abs s).

Lemma trun_app s ls ls' : trun clock cap s (ls ++ ls') = trun clock cap s ls ≫= fun s' => trun clock cap s' ls'.
Proof.
  revert s. induction ls as [|l ls IH]; intros s; [done|]. cbn [app trun].
  destruct (tstep clock cap s l) as [s'|]; [apply IH|done].
Qed.

Lemma reached_sound (store : M) hardware command_fd inbox_fds ls s :
  (0 <= command_fd)%Z -> (forall i, 0 <= inbox_fds i)%Z ->
  trun clock cap (threads_init store hardware command_fd inbox_fds) ls = Some s -> sound s.
Proof.
  intros Hc Hi Hr. destruct (reached clock cap store hardware command_fd inbox_fds ls s Hc Hi Hr)
    as (H1 & H2 & H3 & H4 & _). split_and!; try done.
  apply Forall_lookup_2. intros i p Hp.
  assert (threads (abs s) !! i = Some (abs_thread p)) as Ht by (cbn; by rewrite list_lookup_fmap, Hp).
  exact (Forall_lookup_1 _ _ _ _ (inv_io _ _ _ H3) Ht).
Qed.

(** *** The deadlock is final *)

Lemma deadlocked_step s l s' i : deadlocked cap s i -> tstep clock cap s l = Some s' ->
  deadlocked cap s' i /\ main s' = main s /\ history s' = history s /\ accepts s' = accepts s.
Proof.
  intros (p & m & rest & m' & rest' & Hp & Hpost & Hin & He & Hout) Hs.
  assert (forall s2, posting s2 = posting s -> procs s2 !! i = procs s !! i -> deadlocked cap s2 i) as Hsame.
  { intros s2 E1 E2. exists p, m, rest, m', rest'. by rewrite E1, E2. }
  destruct l as [evs|acc forked pidfd|j evs|j reads sends]; cbn [tstep] in Hs; rewrite ?Hpost in Hs; [done| | |].
  - cbn [post_step] in Hs. rewrite Hp in Hs. cbn [mbind option_bind] in Hs.
    rewrite (proj2 (Nat.ltb_ge _ _)) in Hs by lia. injection Hs as <-. by split; [apply Hsame|].
  - apply bind_Some in Hs as (q & Hq & Hs). destruct (decide (j = i)) as [->|Hne].
    { rewrite Hp in Hq. injection Hq as <-. by rewrite He in Hs. }
    destruct (emitting q); [|done]. destruct (tasks q); [|done]. destruct (io_answer_ok q evs); [|done].
    injection Hs as <-. split; [|done]. apply Hsame; [done|]. by apply list_lookup_insert_ne.
  - apply bind_Some in Hs as (q & Hq & Hs). destruct (decide (j = i)) as [->|Hne].
    { rewrite Hp in Hq. injection Hq as <-. rewrite He in Hs. cbn [emit_step] in Hs.
      rewrite (proj2 (Nat.ltb_ge _ _)) in Hs by lia. injection Hs as <-. split; [by apply Hsame|done]. }
    destruct (emitting q) as [|op l].
    + destruct (tasks q) as [|t ts]; [done|]. destruct t as [| |k er rd wr]; cbn [io_task_step] in Hs;
        repeat case_match; simplify_eq; (split; [|done]); (apply Hsame; [done|]); by apply list_lookup_insert_ne.
    + injection Hs as <-. destruct op as [o|]; cbn [emit_step]; repeat case_match; (split; [|done]);
        (apply Hsame; [done|]); done || by apply list_lookup_insert_ne.
Qed.

Lemma deadlocked_forever ls : forall s s' i, deadlocked cap s i -> trun clock cap s ls = Some s' ->
  deadlocked cap s' i /\ main s' = main s /\ history s' = history s /\ accepts s' = accepts s.
Proof.
  induction ls as [|l ls IH]; intros s s' i Hd H; cbn [trun] in H; [by injection H as <-|].
  destruct (tstep clock cap s l) as [s1|] eqn:Hs; [|done]. cbn [mbind option_bind] in H.
  destruct (deadlocked_step _ _ _ _ Hd Hs) as (D & <- & <- & <-). by apply IH with (1 := D).
Qed.

(** *** From the start of the program *)

Context (store : M) (hardware : nat) (command_fd : Z) (inbox_fds : nat -> Z).
Context (Hcap : 0 < cap) (Hc : (0 <= command_fd)%Z) (Hi : forall i, (0 <= inbox_fds i)%Z).
Definition reachable s : Prop :=
  exists ls, trun clock cap (threads_init store hardware command_fd inbox_fds) ls = Some s.

Lemma reachable_trun s ls s' : reachable s -> trun clock cap s ls = Some s' -> reachable s'.
Proof. intros [l0 H0] H. exists (l0 ++ ls). by rewrite trun_app, H0. Qed.

Lemma reachable_sound s : reachable s -> sound s.
Proof. intros [ls Hr]. by eapply reached_sound. Qed.

Lemma advances_bounded ls : forall s s', reachable s -> forallb internal ls = true ->
  trun clock cap s ls = Some s' -> advances s ls + work cap s' <= work cap s.
Proof.
  induction ls as [|l ls IH]; intros s s' Hr Hint H; cbn [trun forallb advances] in *.
  - injection H as ->. lia.
  - apply andb_true_iff in Hint as [Hl Hls]. destruct (tstep clock cap s l) as [s1|] eqn:Hs; [|done].
    cbn [mbind option_bind] in H.
    assert (reachable s1) as Hr1 by (apply (reachable_trun s [l] s1 Hr); cbn; by rewrite Hs).
    specialize (IH s1 s' Hr1 Hls H). destruct (reachable_sound s Hr) as (C1 & _ & C3 & _).
    pose proof (tstep_work clock cap s l s1 Hcap C1 C3 Hs Hl) as Hw. destruct (retries cap s l); lia.
Qed.

Definition stopped s : Prop :=
  settled s \/ (exists i, deadlocked cap s i) \/ undefined_request clock s.

Lemma stops : forall n s, work cap s <= n -> reachable s ->
  exists ls s', forallb internal ls = true /\ trun clock cap s ls = Some s' /\ stopped s'.
Proof.
  induction n as [|n IH]; intros s Hn Hr; destruct (reachable_sound s Hr) as (C1 & C2 & C3 & C4);
    (destruct (advance_or_stop clock cap s Hcap C2 C3 C4) as [(l & s1 & Hl & Hret & Hs)|Hstop]; [|by exists [], s]);
    pose proof (tstep_work clock cap s l s1 Hcap C1 C3 Hs Hl) as Hw; rewrite Hret in Hw; [lia|].
  destruct (IH s1) as (ls & s2 & H1 & H2 & H3); [lia|apply (reachable_trun s [l] s1 Hr); cbn; by rewrite Hs|].
  exists (l :: ls), s2. cbn [forallb trun]. rewrite Hl, Hs. done.
Qed.

End Runs.

(** ** Theorems *)

Section Theorems.
Context {M : Type} {ops : MapOps bytes Entry M}.
Context (clock : nat -> Z) (cap : nat).

(** C4. Input is processed.  From any state the threads can reach, as long as
    nothing new comes in from outside, the steps other than retries of a push
    are bounded by the [work] the state holds, whatever the interleaving; and
    such a run exists after which nothing is left to do, or the main thread
    and an IO thread each wait for room in a queue that only the other
    empties, or the next request has undefined behaviour.  These are the only
    states in which the threads stop.  (The queues hold at least one message
    and the eventfds could be created.) *)
Theorem input_is_processed (store : M) hardware command_fd inbox_fds before s :
  0 < cap -> (0 <= command_fd)%Z -> (forall i, 0 <= inbox_fds i)%Z ->
  trun clock cap (threads_init store hardware command_fd inbox_fds) before = Some s ->
  (forall ls s', forallb internal ls = true -> trun clock cap s ls = Some s' ->
     advances clock cap s ls <= work cap s
     /\ (can_advance clock cap s' \/ stopped clock cap s'))
  /\ exists ls s', forallb internal ls = true /\ trun clock cap s ls = Some s' /\ stopped clock cap s'.
Proof.
  intros Hcap Hc Hi Hr.
  assert (reachable clock cap store hardware command_fd inbox_fds s) as Hs by (by exists before).
  split; [|by eapply stops].
  intros ls s' Hint H. split.
  - pose proof (advances_bounded clock cap store hardware command_fd inbox_fds Hcap Hc Hi ls s s' Hs Hint H). lia.
  - assert (sound cap s') as (_ & C2 & C3 & C4) by (eapply reachable_sound; [done..|by eapply reachable_trun]).
    by apply advance_or_stop.
Qed.

End Theorems.

#[local] Existing Instance std_ops.
#[local] Existing Instance std_spec.

(** *** A deadlock, from PINGs alone *)

(** The descriptor of client [k]: the ones before it are the standard streams
    (0 to 2) and the descriptors a server with one IO thread opens at its start
    (3 to 8, as in [timed_start] of SnapshotChildren). *)
Definition client_fd (k : nat) : Z := Z.of_nat (9 + k).

(** Thread 0 is told that [64] client sockets from client [k] on are readable. *)
Definition burst (k : nat) : move :=
  IoWake 0 ((fun j => RSocket (client_fd (k + j)) false true false) <$> seq 0 kMaxEvents).

(** 1024 clients are answered and the answers fill the inbox; the main thread
    takes one more PING and has no room for its answer; 1025 more PINGs fill
    the outbox, and the last has no room. *)
Definition deadlock_moves : list move :=
  concat ((fun k => connect_moves (client_fd k)) <$> seq 0 2112)
  ++ concat ((fun b => burst (b * kMaxEvents) :: concat (replicate kMaxEvents (ping_moves ++ serve_moves))) <$> seq 0 16)
  ++ burst 1024 :: ping_moves ++ MainWake [RCommand] :: replicate 3 main_go
  ++ concat (replicate 63 ping_moves)
  ++ concat ((fun b => burst (1088 + b * kMaxEvents) :: concat (replicate kMaxEvents ping_moves)) <$> seq 0 15)
  ++ burst 2048 :: ping_moves ++ [Io 0 ([Serialize ping], RecvError EAGAIN) []; io_go].

Definition deadlockedb {M} (cap : nat) (s : state M) (i : nat) : bool :=
  match procs s !! i, posting s with
  | Some p, PPush j _ :: _ =>
      (j =? i) && (length (inbox p) =? cap) && (length (outbox p) =? cap)
      && match emitting p with EPush _ :: _ => true | _ => false end
  | _, _ => false
  end.

Lemma deadlockedb_spec {M} cap (s : state M) i : deadlockedb cap s i = true -> deadlocked cap s i.
Proof.
  unfold deadlockedb, deadlocked. destruct (procs s !! i) as [p|]; [|done].
  destruct (posting s) as [|[j m|] rest]; [done| |done]. rewrite !andb_true_iff, !Nat.eqb_eq.
  intros [[[-> H1] H2] H3]. destruct (emitting p) as [|[m'|] rest'] eqn:He; try done.
  exists p, m, rest, m', rest'. done.
Qed.

(** The eventfd of the commands is 6, that of the inbox 8. *)
#[local] Abbreviation start := (threads_init (∅ : gmap bytes Entry) 1 6 (fun _ => 8%Z)).

(** C34. The main thread and an IO thread can wait for each other forever.
    With the queue capacity of the code and 2112 clients connected at once, each
    on a descriptor of its own that is none of the server's, which only send
    PING, there is an interleaving after which the main thread waits in [PostResponse] for
    room in an IO thread's inbox while that thread waits in [Emit] for room in
    its outbox, both queues being full; and whatever happens then, neither
    moves again: no further request is executed and no client is accepted. *)
Theorem queues_can_deadlock :
  exists s, trun (fun _ => 100%Z) kQueueCapacity start deadlock_moves = Some s
  /\ accepts s = client_fd <$> seq 0 2112
  /\ deadlocked kQueueCapacity s 0
  /\ forall ls s', trun (fun _ => 100%Z) kQueueCapacity s ls = Some s' ->
       deadlocked kQueueCapacity s' 0 /\ main s' = main s /\ history s' = history s /\ accepts s' = accepts s.
Proof.
  destruct (checked_some (trun (fun _ => 100%Z) kQueueCapacity start deadlock_moves)
              (fun s => deadlockedb kQueueCapacity s 0 && bool_decide (accepts s = client_fd <$> seq 0 2112))) as (s & E & Hd).
  { vm_compute. reflexivity. }
  apply andb_prop in Hd as [Hd%deadlockedb_spec Ha%bool_decide_eq_true].
  exists s. split; [exact E|]. split; [exact Ha|]. split; [exact Hd|]. clear E. intros ls s' H.
  exact (deadlocked_forever (fun _ => 100%Z) kQueueCapacity ls s s' 0 Hd H).
Qed.

(** *** Witness *)

Definition one_ping_moves : list move :=
  connect_moves 9 ++ IoWake 0 [RSocket 9 false true false] :: ping_moves.

Lemma input_is_processed_witness :
  exists s, trun (fun _ => 100%Z) kQueueCapacity start one_ping_moves = Some s
  /\ exists ls s', forallb internal ls = true /\ trun (fun _ => 100%Z) kQueueCapacity s ls = Some s'
       /\ stopped (fun _ => 100%Z) kQueueCapacity s'.
Proof.
  destruct (checked_some (trun (fun _ => 100%Z) kQueueCapacity start one_ping_moves)
              (fun s => negb (settledb s))) as (s & E & _).
  { vm_compute. reflexivity. }
  exists s. split; [exact E|].
  apply (input_is_processed (fun _ => 100%Z) kQueueCapacity (∅ : gmap bytes Entry) 1 6 (fun _ => 8%Z) one_ping_moves s);
    [apply Nat.ltb_lt; reflexivity|lia|intros; lia|exact E].
Defined.
