(* ===== verification/Shutdown.v ===== *)
(** * Stopping the IO threads while they run

    [Server::~Server] of [v2/src/server/server.cc] stops the IO threads one
    after the other while all of them go on with what they were doing:
    [IoThread::Stop] of [v2/src/server/io_thread.cc] clears [running_],
    notifies the inbox and joins the thread; [IoThread::Run] reads [running_]
    at the top of its loop only.  The destructor runs once [Server::Run] has
    returned, which after the start it does only when its [epoll_wait] fails,
    so the main thread posts nothing and takes nothing from an outbox any
    more.

    The state is that of Threads with the flag and the place in [Run] of each
    thread and the rest of the destructor's loop.  The steps of the stopper
    and of the threads interleave one at a time ([running_] is read and
    written as an atomic in one order, which is what the relaxed accesses of
    the source give together with the eventfd on the machines it runs on).

    A thread that was told to stop takes a bounded number of steps, retries of
    a push apart; the destructor gets to its end, with every thread out of its
    loop, or to a thread that waits for room in its outbox, and then it waits
    forever.  The second case is reachable. *)

From S2P Require Import Prelude CxxString RespValue RespValueQueue MapInterface Store Handlers CommandSpec EventFd IoThread Server AsyncServer Threads Progress.

#[local] Open Scope nat_scope.

(** ** State *)

(** Where a thread is in [Run]: in the body of the loop (or about to read
    [running_], when nothing is left of the body), in [epoll_wait], or out. *)
Inductive io_phase := InBody | InWait | Done.

(** What is left of the destructor's loop over [Stop]. *)
Inductive stop_op := StopStore (i : nat) | StopNotify (i : nat) | StopJoin (i : nat).

Definition Stop_ops (i : nat) : list stop_op := [StopStore i; StopNotify i; StopJoin i].

(** The threads from [i] on, of [n]. *)
Definition stop_from (i n : nat) : list stop_op := flat_map Stop_ops (seq i (n - i)).

Definition at_rest (p : io_proc) : bool :=
  match emitting p, tasks p with [], [] => true | _, _ => false end.

Definition notify_inbox (p : io_proc) : io_proc :=
  mkProc (io p) (emitting p) (tasks p) (inbox p) (outbox p) (notified (inbox_event_ p)).

Inductive cmove :=
| Stopper
| Loop (i : nat)
| Wake (i : nat) (evs : list io_ready)
| Interrupted (i : nat)
| Fails (i : nat)
| Act (i : nat) (reads : list bytes * recv_result) (sends : list send_result).

(** The IO thread a move is of. *)
Definition mover (l : cmove) : option nat :=
  match l with
  | Stopper => None
  | Loop i | Wake i _ | Interrupted i | Fails i | Act i _ _ => Some i
  end.

Section Shutdown.
Context {M : Type} {ops : MapOps bytes Entry M}.
Context (clock : nat -> Z) (cap : nat).

Record closing := mkClosing {
  sys : state M;
  running : list bool;
  phase : list io_phase;
  stops : list stop_op
}.

Definition with_sys (c : closing) (s : state M) : closing :=
  mkClosing s (running c) (phase c) (stops c).

Definition with_phase (c : closing) (i : nat) (f : io_phase) : closing :=
  mkClosing (sys c) (running c) (<[i := f]> (phase c)) (stops c).

(** The threads of [s] in the places [phases], the destructor at its start. *)
Definition close_init (s : state M) (phases : list io_phase) : closing :=
  mkClosing s (replicate (length (procs s)) true) phases (stop_from 0 (length (procs s))).

Definition stopper_step (c : closing) : option closing :=
  match stops c with
  | [] => None
  | StopStore i :: rest => Some (mkClosing (sys c) (<[i := false]> (running c)) (phase c) rest)
  | StopNotify i :: rest =>
      p ← procs (sys c) !! i;
      Some (mkClosing (set_proc (sys c) i (notify_inbox p)) (running c) (phase c) rest)
  | StopJoin i :: rest =>
      match phase c !! i with
      | Some Done => Some (mkClosing (sys c) (running c) (phase c) rest)
      | _ => None
      end
  end.

(** [running_.load] at the top of the loop. *)
Definition loop_step (c : closing) (i : nat) : option closing :=
  p ← procs (sys c) !! i;
  r ← running c !! i;
  match phase c !! i with
  | Some InBody =>
      if at_rest p then Some (with_phase c i (if r : bool then InWait else Done)) else None
  | _ => None
  end.

(** [epoll_wait] returns; [r]: its events, or -1 with [EINTR] or another
    error. *)
Definition wait_step (c : closing) (i : nat) (r : option (list io_ready)) (interrupted : bool) : option closing :=
  match phase c !! i with
  | Some InWait =>
      match r with
      | Some evs => s ← tstep clock cap (sys c) (IoWake i evs); Some (with_phase (with_sys c s) i InBody)
      | None => Some (with_phase c i (if interrupted then InBody else Done))
      end
  | _ => None
  end.

Definition body_step (c : closing) (i : nat) (reads : list bytes * recv_result) (sends : list send_result)
    : option closing :=
  match phase c !! i with
  | Some InBody => s ← tstep clock cap (sys c) (Io i reads sends); Some (with_sys c s)
  | _ => None
  end.

Definition cstep (c : closing) (l : cmove) : option closing :=
  match l with
  | Stopper => stopper_step c
  | Loop i => loop_step c i
  | Wake i evs => wait_step c i (Some evs) false
  | Interrupted i => wait_step c i None true
  | Fails i => wait_step c i None false
  | Act i reads sends => body_step c i reads sends
  end.

Fixpoint crun (c : closing) (ls : list cmove) : option closing :=
  match ls with
  | [] => Some c
  | l :: ls => c ← cstep c l; crun c ls
  end.

(** The place of a thread agrees with what it has left to do. *)
Definition place_ok (p : io_proc) (f : io_phase) : Prop := f = InBody \/ at_rest p = true.

(** The destructor's loop is over. *)
Definition ended (c : closing) : Prop := stops c = [].

(** The destructor waits for a thread that waits for room in its outbox. *)
Definition hung (c : closing) : Prop :=
  exists i rest p, stops c = StopJoin i :: rest /\ phase c !! i = Some InBody
    /\ procs (sys c) !! i = Some p /\ blocked cap p.

(** A push to a full outbox. *)
Definition spins (c : closing) (l : cmove) : bool :=
  match l with Act i reads sends => retries cap (sys c) (Io i reads sends) | _ => false end.

Definition of_thread (i : nat) (l : cmove) : bool := bool_decide (mover l = Some i).

(** The steps of thread [i] in a run, retries apart. *)
Fixpoint own_steps (i : nat) (c : closing) (ls : list cmove) : nat :=
  match ls with
  | [] => 0
  | l :: ls =>
      (if of_thread i l && negb (spins c l) then 1 else 0)
      + match cstep c l with Some c' => own_steps i c' ls | None => 0 end
  end.

(** *** A bound on the steps of a thread that is stopping *)

Definition task_steps (t : io_task) : nat := match t with TSocket _ _ _ _ => 5 | _ => 1 end.

Definition body_steps (p : io_proc) : nat :=
  length (emitting p) + sum_with task_steps (tasks p) + 3 * length (inbox p).

Definition steps_left (c : closing) (i : nat) : nat :=
  match phase c !! i, procs (sys c) !! i with
  | Some InBody, Some p => 1 + body_steps p
  | Some InWait, Some p => 2 + 10 * kMaxEvents + 3 * length (inbox p)
  | _, _ => 0
  end.

End Shutdown.
Arguments closing M : clear implicits.

(** ** Invariant *)

Section Invariant.
Context {M : Type} {ops : MapOps bytes Entry M}.
Context (clock : nat -> Z) (cap : nat) (store0 : M).
Implicit Types (s : state M) (c : closing M).

(** What the threads keep, shutting down or not. *)
Record steady s : Prop := {
  steady_clean : clean s;
  steady_live : live cap s;
  steady_inv : async_inv clock store0 (abs s);
  steady_clients : forall k, client_inv clock store0 (abs s) k;
  steady_fits : fits (abs s)
}.

Lemma init_steady hardware command_fd inbox_fds : (0 <= command_fd)%Z -> (forall i, 0 <= inbox_fds i)%Z ->
  steady (threads_init store0 hardware command_fd inbox_fds).
Proof.
  intros Hc Hi. destruct (init_clean store0 hardware command_fd inbox_fds) as [C A].
  destruct (init_inv clock store0 hardware) as [I K]. split; rewrite ?A; try done; [by apply init_live|apply init_fits].
Qed.

Lemma tstep_steady s l s' : steady s -> tstep clock cap s l = Some s' -> steady s'.
Proof.
  intros [H1 H2 H3 H4 H5] Hs. destruct (tstep_refines clock cap s l s' H1 Hs) as [H1' Hsim].
  pose proof (tstep_live clock cap s l s' H1 H2 Hs) as H2'. destruct Hsim as [E|[al Hal]].
  - by split; rewrite ?E.
  - destruct (step_inv clock store0 _ _ _ Hal H3 H4). split; try done. by eapply step_fits.
Qed.

Lemma trun_steady ls : forall s s', steady s -> trun clock cap s ls = Some s' -> steady s'.
Proof.
  induction ls as [|l ls IH]; intros s s' Hs Hr; cbn [trun] in Hr; [by injection Hr as <-|].
  apply bind_Some in Hr as (s1 & H1 & Hr). eapply IH; [|exact Hr]. by eapply tstep_steady.
Qed.

Lemma notify_steady s i p : steady s -> procs s !! i = Some p -> steady (set_proc s i (notify_inbox p)).
Proof.
  intros [H1 H2 H3 H4 H5] Hi.
  assert (abs (set_proc s i (notify_inbox p)) = abs s) as E.
  { unfold abs. cbn. f_equal; [f_equal; by eapply abs_update|by eapply abs_update_threads]. }
  destruct (live_procs _ _ H2 i p Hi) as ((P1 & P2 & P3 & P4 & P5) & Win & Wout).
  destruct (notified_valid _ P3) as [N1 N2]. split; rewrite ?E; try done.
  - split; cbn; [by rewrite length_insert, (clean_main _ H1)|]. eapply clean_update; [done..|].
    by apply (Forall_lookup_1 _ _ _ _ (clean_io _ H1) Hi).
  - eapply live_io; try done. by right; left.
Qed.

Lemma steady_io s i p : steady s -> procs s !! i = Some p ->
  io_inv (io p) /\ outbox_ (io p) = [] /\ (forall k, small_str (seen s k)) /\ forall k, small_str (unparsed k (io p)).
Proof.
  intros [H1 H2 H3 H4 [Hseen Hun]] Hi.
  assert (threads (abs s) !! i = Some (abs_thread p)) as Ht by (cbn; by rewrite list_lookup_fmap, Hi).
  split; [exact (Forall_lookup_1 _ _ _ _ (inv_io _ _ _ H3) Ht)|]. split; [apply (Forall_lookup_1 _ _ _ _ (clean_io _ H1) Hi)|].
  split; [exact Hseen|]. exact (Forall_lookup_1 _ _ _ _ Hun Ht).
Qed.

(** *** Steps of an IO thread *)

Lemma length_emits ms : length (emits ms) = 2 * length ms.
Proof. induction ms as [|m ms IH]; [done|]. change (length (emits (m :: ms))) with (2 + length (emits ms)). cbn [length]. lia. Qed.

Lemma sum_tasks_cons t ts : sum_with task_steps (t :: ts) = task_steps t + sum_with task_steps ts.
Proof. reflexivity. Qed.

Lemma recv_length t t' m sends : io_inv t -> outbox_ t = [] -> inbox_answersb t m sends = true ->
  DrainInbox t [(m, sends)] = Ok t' -> length (outbox_ t') <= 1.
Proof.
  intros Hi Ho Ha Hd. destruct (recv_outbox t t' m sends Hi Ho Ha Hd) as [->|(f & r & _ & ->)]; cbn; lia.
Qed.

Lemma socket_length t t' ev seen : io_inv t -> outbox_ t = [] -> event_okb seen t ev = true ->
  run_event t (to_io_event ev) = Ok t' -> length (outbox_ t') <= 2.
Proof.
  intros Hi Ho Ha Hd. destruct (socket_outbox t t' ev seen Hi Ho Ha Hd) as (batch & last & -> & Hb & Hl).
  rewrite length_app. assert (length batch <= 1).
  { destruct Hb as [->|[vs ->]]; [cbn; lia|]. unfold batch_msg. case_bool_decide; cbn; lia. }
  assert (length last <= 1) by (destruct Hl as [->| ->]; cbn; lia). lia.
Qed.

(** A step of the body replaces the thread by one with less to do, or is a
    retry and leaves it alone. *)
Lemma io_step_proc s i reads sends s' : steady s -> tstep clock cap s (Io i reads sends) = Some s' ->
  exists p p', procs s !! i = Some p /\ procs s' = <[i := p']> (procs s)
    /\ if retries cap s (Io i reads sends) then p' = p else body_steps p' < body_steps p.
Proof.
  intros Hst Hs. cbn [tstep retries] in *. apply bind_Some in Hs as (p & Hi & Hs). rewrite Hi.
  destruct (steady_io s i p Hst Hi) as (Hio & Ho & _). destruct (emitting p) as [|op rest] eqn:He.
  - destruct (tasks p) as [|t ts] eqn:Ht; [done|]. unfold body_steps. destruct t as [| |k er rd wr]; cbn [io_task_step] in Hs.
    + injection Hs as <-. eexists p, _. split; [done|]. split; [reflexivity|].
      rewrite He, Ht. cbn [emitting tasks inbox length]. rewrite sum_tasks_cons. cbn [task_steps]. lia.
    + destruct (inbox p) as [|m l] eqn:Hin.
      * injection Hs as <-. eexists p, _. split; [done|]. split; [reflexivity|].
        rewrite He, Ht, Hin. cbn [emitting tasks inbox length]. rewrite sum_tasks_cons. cbn [task_steps]. lia.
      * destruct (inbox_answersb (io p) m sends) eqn:Ha; [|done].
        destruct (DrainInbox (io p) [(m, sends)]) as [t'| | |] eqn:Hd; try done. injection Hs as <-.
        pose proof (recv_length _ _ _ _ Hio Ho Ha Hd). eexists p, _. split; [done|]. split; [reflexivity|].
        rewrite He, Ht, Hin. cbn [after_handler emitting tasks inbox]. rewrite length_emits. cbn [length]. lia.
    + destruct (event_okb (seen s k) (io p) _) eqn:Ha; [|done].
      destruct (run_event (io p) _) as [t'| | |] eqn:Hd; try done. injection Hs as <-.
      pose proof (socket_length _ _ _ _ Hio Ho Ha Hd). eexists p, _. split; [done|]. split; [reflexivity|].
      rewrite He, Ht. cbn [after_handler emitting tasks inbox]. rewrite length_emits, sum_tasks_cons. cbn [length task_steps]. lia.
  - injection Hs as <-. destruct op as [m|]; cbn [emit_step]; [unfold full; destruct (length (outbox p) <? cap) eqn:E; reflect_bools|].
    + rewrite (proj2 (Nat.leb_gt _ _)) by lia. eexists p, _. split; [done|]. split; [reflexivity|].
      unfold body_steps. rewrite He. cbn [emitting tasks inbox length]. lia.
    + rewrite (proj2 (Nat.leb_le _ _)) by lia. exists p, p. split; [done|]. split; [|done]. cbn. by rewrite list_insert_id.
    + eexists p, _. split; [done|]. split; [reflexivity|].
      unfold body_steps. rewrite He. cbn [emitting tasks inbox length]. lia.
Qed.

Lemma sum_expand evs : sum_with task_steps (flat_map expand_io evs) <= 10 * length evs.
Proof.
  induction evs as [|r evs IH]; [done|]. cbn [flat_map]. rewrite sum_with_app. cbn [length].
  assert (sum_with task_steps (expand_io r) <= 10) by (destruct r as [|k [] [] []]; cbn; lia). lia.
Qed.

Lemma io_wake_proc s i evs s' : tstep clock cap s (IoWake i evs) = Some s' ->
  exists p p', procs s !! i = Some p /\ procs s' = <[i := p']> (procs s)
    /\ body_steps p' <= 10 * kMaxEvents + 3 * length (inbox p).
Proof.
  intros Hs. cbn [tstep] in Hs. apply bind_Some in Hs as (p & Hi & Hs). destruct (emitting p) eqn:He; [|done].
  destruct (tasks p) eqn:Ht; [|done]. destruct (io_answer_ok p evs) eqn:Ha; [|done]. injection Hs as <-.
  eexists p, _. split; [done|]. split; [reflexivity|]. unfold body_steps. cbn [emitting tasks inbox length].
  unfold io_answer_ok, answer_ok in Ha. rewrite !andb_true_iff in Ha. destruct Ha as [[[[_ Ha] _] _] _].
  apply Nat.leb_le in Ha. pose proof (sum_expand evs). lia.
Qed.

(** *** Where the destructor is *)

(** The eventfd of a thread that was notified stays readable until it wakes. *)
Definition woken c (i : nat) : Prop :=
  phase c !! i = Some InWait -> exists p, procs (sys c) !! i = Some p /\ readable (inbox_event_ p) = true.

(** The destructor stops thread [j]: it has not begun, cleared the flag, or
    notified. *)
Definition stage c (j : nat) : Prop :=
  let n := length (procs (sys c)) in
  (j <= n /\ stops c = stop_from j n)
  \/ (j < n /\ running c !! j = Some false
      /\ (stops c = StopNotify j :: StopJoin j :: stop_from (S j) n
          \/ (stops c = StopJoin j :: stop_from (S j) n /\ woken c j))).

Record closing_ok c : Prop := {
  ok_sys : steady (sys c);
  ok_running : length (running c) = length (procs (sys c));
  ok_phase : Forall2 place_ok (procs (sys c)) (phase c);
  ok_stage : exists j, stage c j /\ forall k, k < j -> phase c !! k = Some Done
}.

Lemma stop_from_cons j n : j < n -> stop_from j n = Stop_ops j ++ stop_from (S j) n.
Proof. intros H. unfold stop_from. replace (n - j) with (S (n - S j)) by lia. reflexivity. Qed.

Lemma stop_from_end n : stop_from n n = [].
Proof. unfold stop_from. by rewrite Nat.sub_diag. Qed.

Lemma stop_from_head j n op rest : j <= n -> stop_from j n = op :: rest ->
  j < n /\ op = StopStore j /\ rest = StopNotify j :: StopJoin j :: stop_from (S j) n.
Proof.
  intros Hj H. destruct (decide (j = n)) as [->|]; [by rewrite stop_from_end in H|].
  rewrite stop_from_cons in H by lia. injection H as <- <-. split; [lia|done].
Qed.

Lemma init_closing s phases : steady s -> Forall2 place_ok (procs s) phases -> closing_ok (close_init s phases).
Proof.
  intros Hs Hp. split; cbn; [done|apply length_replicate|done|]. exists 0. split; [|lia]. left. cbn. split; [lia|done].
Qed.

(** A step of thread [i]: it alone changes, and goes to wait only when it was
    not told to stop. *)
Lemma thread_ok c i g s' p' f : closing_ok c -> steady s' -> phase c !! i = Some g -> g <> Done ->
  procs s' = <[i := p']> (procs (sys c)) -> place_ok p' f -> (f = InWait -> running c !! i <> Some false) ->
  closing_ok (with_phase (with_sys c s') i f).
Proof.
  intros [H1 H2 H3 (j & Hst & Hd)] Hs' Hg Hne E Hp Hw. split; cbn; [done| |rewrite E; by apply Forall2_insert|].
  { by rewrite E, length_insert. }
  exists j. split.
  - unfold stage, woken in *. cbn. rewrite E, length_insert.
    destruct Hst as [?|(Hj & Hr & [?|[Hst Ha]])]; [by left|by right; auto|right].
    split; [done|]. split; [done|]. right. split; [done|]. destruct (decide (j = i)) as [->|Hji].
    + rewrite list_lookup_insert_eq by (by eapply lookup_lt_Some). intros [= ->]. by destruct (Hw eq_refl).
    + by rewrite !list_lookup_insert_ne by done.
  - intros k Hk. destruct (decide (k = i)) as [->|Hki]; [|by rewrite list_lookup_insert_ne by done; apply Hd].
    specialize (Hd _ Hk). rewrite Hg in Hd. congruence.
Qed.

Lemma with_phase_id c s i f : phase c !! i = Some f -> with_sys c s = with_phase (with_sys c s) i f.
Proof. intros H. unfold with_phase, with_sys. cbn. by rewrite list_insert_id. Qed.

Lemma with_sys_id c i f : with_phase c i f = with_phase (with_sys c (sys c)) i f.
Proof. by destruct c. Qed.

Lemma at_rest_spec p : at_rest p = true <-> emitting p = [] /\ tasks p = [].
Proof. unfold at_rest. destruct (emitting p), (tasks p); intuition congruence. Qed.

Lemma stopper_ok c c' : closing_ok c -> stopper_step c = Some c' -> closing_ok c'.
Proof.
  intros [H1 H2 H3 (j & Hst & Hd)] Hs. unfold stopper_step in Hs. unfold stage in Hst. cbn zeta in Hst.
  destruct Hst as [[Hj Hst]|(Hj & Hr & [Hst|[Hst Ha]])].
  - destruct (stops c) as [|op rest] eqn:Hops; [done|].
    apply (eq_sym) in Hst. apply stop_from_head in Hst as (Hlt & -> & ->); [|done]. injection Hs as <-.
    split; cbn; [done|by rewrite length_insert|done|]. exists j. split; [|done]. right. cbn.
    split; [done|]. split; [apply list_lookup_insert_eq; lia|by left].
  - rewrite Hst in Hs. apply bind_Some in Hs as (p & Hp & Hs). injection Hs as <-.
    split; cbn; [by apply notify_steady|by rewrite length_insert| |].
    + rewrite <- (list_insert_id (phase c) j (default Done (phase c !! j))).
      * apply Forall2_insert; [done|]. destruct (Forall2_lookup_l _ _ _ _ _ H3 Hp) as (f & Hf & Hpl). by rewrite Hf.
      * destruct (Forall2_lookup_l _ _ _ _ _ H3 Hp) as (f & -> & _). done.
    + exists j. split; [|done]. right. cbn. rewrite length_insert. split; [done|]. split; [done|]. right. split; [done|].
      intros _. eexists. cbn. split; [by apply list_lookup_insert_eq|].
      destruct (live_procs _ _ (steady_live _ H1) j p Hp) as ((_ & _ & P3 & _) & _). by apply notified_valid.
  - rewrite Hst in Hs. destruct (phase c !! j) as [[| |]|] eqn:Hph; try done. injection Hs as <-.
    split; cbn; try done. exists (S j). split; [left; cbn; split; [lia|done]|].
    intros k Hk. destruct (decide (k = j)) as [->|]; [done|]. apply Hd. lia.
Qed.

(** A step of thread [k] changes that thread and its place only. *)
Lemma cstep_shape c l c' k : closing_ok c -> mover l = Some k -> cstep clock cap c l = Some c' ->
  exists f s' p', c' = with_phase (with_sys c s') k f /\ procs s' = <[k := p']> (procs (sys c)).
Proof.
  intros [H1 _ H3 _] Hm Hs.
  assert (forall i p, procs (sys c) !! i = Some p -> procs (sys c) = <[i := p]> (procs (sys c))) as Hid.
  { intros i p Hp. by rewrite list_insert_id. }
  destruct l as [|i|i evs|i|i|i reads sends]; cbn in Hm; [done|injection Hm as ->..]; cbn [cstep] in Hs.
  - unfold loop_step in Hs. apply bind_Some in Hs as (p & Hp & Hs). apply bind_Some in Hs as (r & Hr & Hs).
    repeat case_match; try done; injection Hs as <-; eexists _, (sys c), p; (split; [by rewrite with_sys_id|by apply Hid]).
  - unfold wait_step in Hs. repeat case_match; try done. apply bind_Some in Hs as (s & Ht & Hs). injection Hs as <-.
    apply io_wake_proc in Ht as (p & p' & Hp & E & _). by eexists _, s, p'.
  - unfold wait_step in Hs. destruct (phase c !! k) as [[| |]|] eqn:Hph; try done. injection Hs as <-.
    destruct (Forall2_lookup_r _ _ _ _ _ H3 Hph) as (p & Hp & _). eexists _, (sys c), p. split; [by rewrite with_sys_id|by apply Hid].
  - unfold wait_step in Hs. destruct (phase c !! k) as [[| |]|] eqn:Hph; try done. injection Hs as <-.
    destruct (Forall2_lookup_r _ _ _ _ _ H3 Hph) as (p & Hp & _). eexists _, (sys c), p. split; [by rewrite with_sys_id|by apply Hid].
  - unfold body_step in Hs. destruct (phase c !! k) as [[| |]|] eqn:Hph; try done.
    apply bind_Some in Hs as (s & Ht & Hs). injection Hs as <-.
    apply io_step_proc in Ht as (p & p' & Hp & E & _); [|done]. eexists InBody, s, p'. split; [by apply with_phase_id|done].
Qed.

Lemma cstep_ok c l c' : closing_ok c -> cstep clock cap c l = Some c' -> closing_ok c'.
Proof.
  intros Hok Hs. pose proof Hok as [H1 H2 H3 _].
  assert (forall i p, procs (sys c) !! i = Some p -> procs (sys c) = <[i := p]> (procs (sys c))) as Hid.
  { intros i p Hp. by rewrite list_insert_id. }
  destruct l as [|i|i evs|i|i|i reads sends]; cbn [cstep] in Hs; [by eapply stopper_ok| | | | |].
  - unfold loop_step in Hs. apply bind_Some in Hs as (p & Hp & Hs). apply bind_Some in Hs as (r & Hr & Hs).
    destruct (phase c !! i) as [[| |]|] eqn:Hph; try done. destruct (at_rest p) eqn:Ha; [|done]. injection Hs as <-.
    rewrite with_sys_id. eapply thread_ok; [done|done|exact Hph|done|by apply Hid|by right|]. rewrite Hr. by destruct r.
  - unfold wait_step in Hs. destruct (phase c !! i) as [[| |]|] eqn:Hph; try done.
    apply bind_Some in Hs as (s & Ht & Hs). injection Hs as <-. pose proof (tstep_steady _ _ _ H1 Ht) as Hst.
    apply io_wake_proc in Ht as (p & p' & Hp & E & _). eapply thread_ok; [done|done|exact Hph|done|exact E|by left|done].
  - unfold wait_step in Hs. destruct (phase c !! i) as [[| |]|] eqn:Hph; try done. injection Hs as <-. rewrite with_sys_id.
    destruct (Forall2_lookup_r _ _ _ _ _ H3 Hph) as (p & Hp & Hpl).
    eapply thread_ok; [done|done|exact Hph|done|by apply Hid|by left|done].
  - unfold wait_step in Hs. destruct (phase c !! i) as [[| |]|] eqn:Hph; try done. injection Hs as <-. rewrite with_sys_id.
    destruct (Forall2_lookup_r _ _ _ _ _ H3 Hph) as (p & Hp & [?|Hpl]); [done|].
    eapply thread_ok; [done|done|exact Hph|done|by apply Hid|by right|done].
  - unfold body_step in Hs. destruct (phase c !! i) as [[| |]|] eqn:Hph; try done.
    apply bind_Some in Hs as (s & Ht & Hs). injection Hs as <-. pose proof (tstep_steady _ _ _ H1 Ht) as Hst.
    apply io_step_proc in Ht as (p & p' & Hp & E & _); [|done]. rewrite (with_phase_id c s i InBody Hph).
    eapply thread_ok; [done|done|exact Hph|done|exact E|by left|done].
Qed.

Lemma crun_ok ls : forall c c', closing_ok c -> crun clock cap c ls = Some c' -> closing_ok c'.
Proof.
  induction ls as [|l ls IH]; intros c c' Hc Hr; cbn [crun] in Hr; [by injection Hr as <-|].
  apply bind_Some in Hr as (c1 & H1 & Hr). eapply IH; [|exact Hr]. by eapply cstep_ok.
Qed.

(** *** A thread that was told to stop *)

Lemma steps_left_eq c i f p : phase c !! i = Some f -> procs (sys c) !! i = Some p ->
  steps_left c i = match f with
                   | InBody => 1 + body_steps p
                   | InWait => 2 + 10 * kMaxEvents + 3 * length (inbox p)
                   | Done => 0
                   end.
Proof. unfold steps_left. intros -> ->. by destruct f. Qed.

Lemma other_left c s' k p' f i : i <> k -> procs s' = <[k := p']> (procs (sys c)) ->
  steps_left (with_phase (with_sys c s') k f) i = steps_left c i.
Proof. intros Hne E. unfold steps_left. cbn. rewrite E. by rewrite !list_lookup_insert_ne. Qed.

Lemma stopper_left c c' i : running c !! i = Some false -> stopper_step c = Some c' ->
  running c' !! i = Some false /\ steps_left c' i = steps_left c i.
Proof.
  intros Hr Hs. unfold stopper_step in Hs. destruct (stops c) as [|[j|j|j] rest]; [done| | |].
  - injection Hs as <-. cbn. split; [|done]. destruct (decide (i = j)) as [->|]; [|by rewrite list_lookup_insert_ne].
    apply list_lookup_insert_eq. by eapply lookup_lt_Some.
  - apply bind_Some in Hs as (p & Hp & Hs). injection Hs as <-. split; [done|]. unfold steps_left. cbn.
    destruct (decide (i = j)) as [->|]; [|by rewrite list_lookup_insert_ne].
    rewrite list_lookup_insert_eq by (by eapply lookup_lt_Some). by rewrite Hp.
  - destruct (phase c !! j) as [[| |]|]; try done. by injection Hs as <-.
Qed.

Lemma wait_rest c i r b c' : Forall2 place_ok (procs (sys c)) (phase c) -> wait_step clock cap c i r b = Some c' ->
  exists p, phase c !! i = Some InWait /\ procs (sys c) !! i = Some p
    /\ body_steps p = 3 * length (inbox p).
Proof.
  intros H. unfold wait_step. destruct (phase c !! i) as [[| |]|] eqn:Hph; try done. intros _.
  destruct (Forall2_lookup_r _ _ _ _ _ H Hph) as (p & Hp & [?|Hpl]); [done|]. exists p.
  apply at_rest_spec in Hpl as [He Ht]. unfold body_steps. by rewrite He, Ht.
Qed.

(** What a step of thread [i] does to its own bound. *)
Lemma thread_left c l c' i : closing_ok c -> running c !! i = Some false -> mover l = Some i ->
  cstep clock cap c l = Some c' ->
  steps_left c' i + (if spins cap c l then 0 else 1) <= steps_left c i.
Proof.
  intros [H1 _ H3 _] Hr Hm Hs. destruct l as [|j|j evs|j|j|j reads sends]; cbn in Hm; [done|injection Hm as ->..];
    cbn [cstep spins] in *.
  - unfold loop_step in Hs. apply bind_Some in Hs as (p & Hp & Hs). rewrite Hr in Hs. cbn [mbind option_bind] in Hs.
    destruct (phase c !! i) as [[| |]|] eqn:Hph; try done. destruct (at_rest p); [|done]. injection Hs as <-.
    rewrite (steps_left_eq c i InBody p Hph Hp). unfold steps_left. cbn.
    rewrite list_lookup_insert_eq by (by eapply lookup_lt_Some). lia.
  - unfold wait_step in Hs. destruct (phase c !! i) as [[| |]|] eqn:Hph; try done.
    apply bind_Some in Hs as (s & Ht & Hs). injection Hs as <-. apply io_wake_proc in Ht as (p & p' & Hp & E & Hle).
    rewrite (steps_left_eq c i InWait p Hph Hp), (steps_left_eq _ i InBody p'); [lia| |]; cbn; rewrite ?E;
      by apply list_lookup_insert_eq; eapply lookup_lt_Some.
  - destruct (wait_rest c i _ _ _ H3 Hs) as (p & Hph & Hp & Hb).
    unfold wait_step in Hs. rewrite Hph in Hs. injection Hs as <-.
    rewrite (steps_left_eq c i InWait p Hph Hp), (steps_left_eq _ i InBody p); [lia| |done].
    by apply list_lookup_insert_eq; eapply lookup_lt_Some.
  - destruct (wait_rest c i _ _ _ H3 Hs) as (p & Hph & Hp & Hb).
    unfold wait_step in Hs. rewrite Hph in Hs. injection Hs as <-.
    rewrite (steps_left_eq c i InWait p Hph Hp), (steps_left_eq _ i Done p); [lia| |done].
    by apply list_lookup_insert_eq; eapply lookup_lt_Some.
  - unfold body_step in Hs. destruct (phase c !! i) as [[| |]|] eqn:Hph; try done.
    apply bind_Some in Hs as (s & Ht & Hs). injection Hs as <-. apply io_step_proc in Ht as (p & p' & Hp & E & Hle); [|done].
    rewrite (steps_left_eq c i InBody p Hph Hp), (steps_left_eq _ i InBody p'); [|done|].
    + destruct (retries _ _ _); [subst|]; lia.
    + cbn. rewrite E. by apply list_lookup_insert_eq; eapply lookup_lt_Some.
Qed.

Lemma cstep_left c l c' i : closing_ok c -> running c !! i = Some false -> cstep clock cap c l = Some c' ->
  running c' !! i = Some false
  /\ (if of_thread i l && negb (spins cap c l) then 1 else 0) + steps_left c' i <= steps_left c i.
Proof.
  intros Hok Hr Hs. destruct (mover l) as [k|] eqn:Hm.
  - destruct (cstep_shape c l c' k Hok Hm Hs) as (f & s' & p' & -> & E). split; [done|].
    unfold of_thread. rewrite Hm. destruct (decide (k = i)) as [->|Hne].
    + pose proof (thread_left c l _ i Hok Hr Hm Hs). rewrite bool_decide_true by done. destruct (spins cap c l); cbn in *; lia.
    + rewrite bool_decide_false by congruence. cbn. erewrite other_left; [lia|congruence|exact E].
  - destruct l; try done. destruct (stopper_left c c' i Hr Hs) as [? ->]. split; [done|]. unfold of_thread. rewrite bool_decide_false by done. cbn. lia.
Qed.

Lemma own_steps_bounded ls : forall c c' i, closing_ok c -> running c !! i = Some false ->
  crun clock cap c ls = Some c' -> own_steps clock cap i c ls + steps_left c' i <= steps_left c i.
Proof.
  induction ls as [|l ls IH]; intros c c' i Hok Hr H; cbn [crun own_steps] in *; [injection H as ->; lia|].
  destruct (cstep clock cap c l) as [c1|] eqn:Hs; [|done]. cbn [mbind option_bind] in H.
  destruct (cstep_left c l c1 i Hok Hr Hs) as [Hr1 Hle]. pose proof (cstep_ok c l c1 Hok Hs) as Hok1.
  specialize (IH c1 c' i Hok1 Hr1 H). lia.
Qed.

(** *** The destructor gets on, or waits forever *)

(** A step of the stopper or, no retry, of a thread that was told to stop. *)
Definition stopping c (l : cmove) : Prop :=
  spins cap c l = false /\ forall i, mover l = Some i -> running c !! i = Some false.

(** What the thread the destructor waits for has left to do. *)
Definition awaited c : nat :=
  match stops c with StopJoin i :: _ => steps_left c i | _ => 0 end.

Lemma stop_progress c : closing_ok c ->
  ended c \/ hung cap c
  \/ exists l c', stopping c l /\ cstep clock cap c l = Some c'
      /\ (length (stops c') < length (stops c) \/ (stops c' = stops c /\ awaited c' < awaited c)).
Proof.
  intros Hok. pose proof Hok as [H1 H2 H3 (j & Hst & _)]. unfold stage in Hst. cbn zeta in Hst.
  assert (forall c', stopper_step c = Some c' -> length (stops c') < length (stops c) ->
    exists l c', stopping c l /\ cstep clock cap c l = Some c'
      /\ (length (stops c') < length (stops c) \/ (stops c' = stops c /\ awaited c' < awaited c))) as Hgo.
  { intros c' Hs Hlt. exists Stopper, c'. split; [by split|]. split; [done|by left]. }
  unfold stopper_step in Hgo.
  destruct Hst as [[Hj Hst]|(Hj & Hr & [Hst|[Hst Ha]])].
  - destruct (stops c) as [|op rest] eqn:Hops; [by left|]. right. right. symmetry in Hst.
    apply stop_from_head in Hst as (_ & -> & ->); [|done]. eapply Hgo; [reflexivity|cbn; lia].
  - right. right. rewrite Hst in *. destruct (lookup_lt_is_Some_2 _ _ Hj) as [p Hp]. rewrite Hp in Hgo.
    eapply Hgo; [reflexivity|cbn; lia].
  - right. destruct (lookup_lt_is_Some_2 _ _ Hj) as [p Hp].
    destruct (Forall2_lookup_l _ _ _ _ _ H3 Hp) as (f & Hph & Hpl).
    assert (forall l c', cstep clock cap c l = Some c' -> mover l = Some j -> spins cap c l = false ->
      exists l c', stopping c l /\ cstep clock cap c l = Some c'
        /\ (length (stops c') < length (stops c) \/ (stops c' = stops c /\ awaited c' < awaited c))) as Hown.
    { intros l c' Hs Hm Hsp. exists l, c'. split; [split; [done|by rewrite Hm; intros i [= <-]]|]. split; [done|]. right.
      destruct (cstep_shape c l c' j Hok Hm Hs) as (f' & s' & p' & E & _).
      assert (stops c' = stops c) as E' by (by subst). split; [done|]. unfold awaited. rewrite E', Hst.
      pose proof (thread_left c l c' j Hok Hr Hm Hs) as H. rewrite Hsp in H. lia. }
    destruct f.
    + destruct (steady_io _ _ _ H1 Hp) as (Hio & _ & Hseen & Hun).
      destruct (io_acts clock cap (sys c) j p Hp Hio Hseen Hun) as [Hrest|[Hbl|(sends & s' & Hret & Hs)]].
      * right. apply at_rest_spec in Hrest. eapply (Hown (Loop j)); [|done..].
        cbn [cstep]. unfold loop_step. rewrite Hp, Hr, Hph. cbn. by rewrite Hrest.
      * left. by exists j, (stop_from (S j) (length (procs (sys c)))), p.
      * right. eapply (Hown (Act j nothing_read sends)); [|done..]. cbn [cstep]. unfold body_step. by rewrite Hph, Hs.
    + right. destruct (Ha Hph) as (q & Hq & Hread). rewrite Hp in Hq. injection Hq as <-.
      destruct Hpl as [?|[He Ht]%at_rest_spec]; [done|].
      eapply (Hown (Wake j [RInbox])); [|done..]. cbn [cstep tstep]. unfold wait_step. rewrite Hph.
      cbn [tstep]. rewrite Hp. cbn [mbind option_bind]. rewrite He, Ht. unfold io_answer_ok, answer_ok. by rewrite Hread.
    + right. rewrite Hst in *. rewrite Hph in Hgo. eapply Hgo; [reflexivity|cbn; lia].
Qed.

(** A run in which every step is [stopping]. *)
Fixpoint stopping_run c (ls : list cmove) : Prop :=
  match ls with
  | [] => True
  | l :: ls => stopping c l /\ match cstep clock cap c l with Some c' => stopping_run c' ls | None => False end
  end.

Lemma stop_reaches : forall n m c, length (stops c) <= n -> awaited c <= m -> closing_ok c ->
  exists ls c', crun clock cap c ls = Some c' /\ stopping_run c ls /\ (ended c' \/ hung cap c').
Proof.
  induction n as [n IHn] using lt_wf_ind. induction m as [m IHm] using lt_wf_ind. intros c Hn Hm Hok.
  destruct (stop_progress c Hok) as [He|[Hh|(l & c1 & Hl & Hs & Hlt)]];
    [exists [], c; split_and!; [done..|by left]|exists [], c; split_and!; [done..|by right]|].
  pose proof (cstep_ok c l c1 Hok Hs) as Hok1.
  assert (exists ls c', crun clock cap c1 ls = Some c' /\ stopping_run c1 ls /\ (ended c' \/ hung cap c')) as (ls & c' & R1 & R2 & R3).
  { destruct Hlt as [Hlt|[E Hlt]].
    - eapply (IHn (length (stops c1))); [lia|done|reflexivity|done].
    - eapply (IHm (awaited c1)); [lia|by rewrite E|done|done]. }
  exists (l :: ls), c'. cbn [crun stopping_run]. by rewrite Hs.
Qed.

Lemma hung_step c l c' : closing_ok c -> hung cap c -> cstep clock cap c l = Some c' -> hung cap c' /\ stops c' = stops c.
Proof.
  intros Hok (i & rest & p & Hst & Hph & Hp & Hb) Hs. pose proof Hb as (m & r & He & Hf).
  assert (at_rest p = false) as Hr by (unfold at_rest; by rewrite He).
  destruct (decide (mover l = Some i)) as [Hm|Hm].
  - destruct l as [|j|j evs|j|j|j reads sends]; cbn in Hm; [done|injection Hm as ->..]; cbn [cstep] in Hs;
      unfold loop_step, wait_step, body_step in Hs; rewrite Hph in Hs; try done.
    + rewrite Hp in Hs. cbn in Hs. rewrite Hr in Hs. by destruct (running c !! i).
    + cbn [tstep] in Hs. rewrite Hp in Hs. cbn [mbind option_bind] in Hs. rewrite He in Hs. cbn [emit_step] in Hs.
      rewrite (proj2 (Nat.ltb_ge _ _) Hf) in Hs. injection Hs as <-. split; [by exists i, rest, p|done].
  - destruct (mover l) as [k|] eqn:Hl.
    + destruct (cstep_shape c l c' k Hok Hl Hs) as (f & s' & p' & -> & E). split; [|done].
      exists i, rest, p. cbn. rewrite E, !list_lookup_insert_ne by congruence. done.
    + destruct l; try done. cbn [cstep] in Hs. unfold stopper_step in Hs. by rewrite Hst, Hph in Hs.
Qed.

Lemma hung_forever ls : forall c c', closing_ok c -> hung cap c -> crun clock cap c ls = Some c' ->
  hung cap c' /\ stops c' = stops c.
Proof.
  induction ls as [|l ls IH]; intros c c' Hok Hh Hr; cbn [crun] in Hr; [by injection Hr as <-|].
  apply bind_Some in Hr as (c1 & H1 & Hr). destruct (hung_step c l c1 Hok Hh H1) as [Hh1 <-].
  eapply IH; [|exact Hh1|exact Hr]. by eapply cstep_ok.
Qed.

(** At the end every thread has left its loop, so none takes a step. *)
Lemma ended_all_done c : closing_ok c -> ended c ->
  (forall i p, procs (sys c) !! i = Some p -> phase c !! i = Some Done) /\ forall l, cstep clock cap c l = None.
Proof.
  intros Hok He. pose proof Hok as [H1 H2 H3 (j & Hst & Hd)].
  assert (length (procs (sys c)) <= j) as Hj.
  { unfold stage, ended in *. cbn zeta in Hst. rewrite He in Hst. destruct Hst as [[Hj Hst]|(_ & _ & [?|[? _]])]; [|done..].
    destruct (decide (j < length (procs (sys c)))); [|lia]. by rewrite stop_from_cons in Hst. }
  assert (forall i f, phase c !! i = Some f -> f = Done) as Hall.
  { intros i f Hf. destruct (Forall2_lookup_r _ _ _ _ _ H3 Hf) as (p & Hp & _). apply lookup_lt_Some in Hp.
    rewrite Hd in Hf by lia. congruence. }
  split; [intros i p Hp%lookup_lt_Some; apply Hd; lia|].
  intros [|i|i evs|i|i|i reads sends]; cbn [cstep]; unfold stopper_step, loop_step, wait_step, body_step;
    [by rewrite He|..]; try (destruct (phase c !! i) as [f|] eqn:Hf; [apply Hall in Hf as ->|]; done).
  destruct (phase c !! i) as [f|] eqn:Hf; [apply Hall in Hf as ->|]; by destruct (procs (sys c) !! i), (running c !! i).
Qed.

End Invariant.

(** ** Theorems *)

Section Theorems.
Context {M : Type} {ops : MapOps bytes Entry M}.
Context (clock : nat -> Z) (cap : nat).

Lemma reached_closing (store : M) hardware command_fd inbox_fds before s phases ls c :
  (0 <= command_fd)%Z -> (forall i, 0 <= inbox_fds i)%Z ->
  trun clock cap (threads_init store hardware command_fd inbox_fds) before = Some s ->
  Forall2 place_ok (procs s) phases -> crun clock cap (close_init s phases) ls = Some c ->
  closing_ok clock cap store c.
Proof.
  intros Hc Hi Hr Hp Hl. eapply crun_ok; [|exact Hl]. apply init_closing; [|done].
  eapply trun_steady; [|exact Hr]. by apply init_steady.
Qed.

(** C5. Stopping ends, or waits forever for a thread that waits for room.
    Start the destructor at any state the threads can reach, with each thread
    anywhere in its loop, and interleave it with the threads in any way.  Then
    at every moment: a thread whose [running_] is cleared takes at most
    [steps_left] more steps that are not retries of a push to its full outbox;
    by steps of the destructor and of such threads alone, either the loop over
    [Stop] comes to its end or the thread that is being joined waits for room
    in its outbox; at the end no thread takes a step any more, so the
    descriptors closed after it are in use by nobody; and a thread that waits for room
    while it is being joined does so in every later state, the destructor
    staying where it is. *)
Theorem stopping_ends_or_hangs (store : M) hardware command_fd inbox_fds before s phases ls c :
  (0 <= command_fd)%Z -> (forall i, 0 <= inbox_fds i)%Z ->
  trun clock cap (threads_init store hardware command_fd inbox_fds) before = Some s ->
  Forall2 place_ok (procs s) phases -> crun clock cap (close_init s phases) ls = Some c ->
  (forall i ls' c', running c !! i = Some false -> crun clock cap c ls' = Some c' ->
     own_steps clock cap i c ls' <= steps_left c i)
  /\ (exists ls' c', crun clock cap c ls' = Some c' /\ stopping_run clock cap c ls' /\ (ended c' \/ hung cap c'))
  /\ (ended c -> forall l, cstep clock cap c l = None)
  /\ (hung cap c -> forall ls' c', crun clock cap c ls' = Some c' -> hung cap c' /\ stops c' = stops c).
Proof.
  intros Hc Hi Hr Hp Hl. pose proof (reached_closing _ _ _ _ _ _ _ _ _ Hc Hi Hr Hp Hl) as Hok. split_and!.
  - intros i ls' c' Hf H. pose proof (own_steps_bounded _ _ _ _ _ _ i Hok Hf H). lia.
  - by eapply stop_reaches.
  - intros He. by apply (ended_all_done clock cap store c Hok He).
  - intros Hh ls' c' H. by eapply hung_forever.
Qed.

End Theorems.

#[local] Existing Instance std_ops.
#[local] Existing Instance std_spec.

(** *** A destructor that waits forever *)

(** Client 5 sends PING after PING, each read on its own, and the main thread
    does not get to run: the outbox fills and the next push finds no room. *)
Definition ping_again : list move := IoWake 0 [RSocket 5 false true false] :: ping_moves.

Definition full_outbox_moves : list move :=
  connect_moves 5 ++ concat (replicate kQueueCapacity ping_again)
  ++ [IoWake 0 [RSocket 5 false true false]; Io 0 ([Serialize ping], RecvError EAGAIN) []].

Definition hungb {M} (cap : nat) (c : closing M) : bool :=
  match stops c with
  | StopJoin i :: _ =>
      match phase c !! i, procs (sys c) !! i with
      | Some InBody, Some p =>
          (cap <=? length (outbox p)) && match emitting p with EPush _ :: _ => true | _ => false end
      | _, _ => false
      end
  | _ => false
  end.

Lemma hungb_spec {M} cap (c : closing M) : hungb cap c = true -> hung cap c.
Proof.
  unfold hungb, hung. destruct (stops c) as [|[i|i|i] rest]; try done.
  destruct (phase c !! i) as [[| |]|] eqn:Hph; try done. destruct (procs (sys c) !! i) as [p|] eqn:Hp; [|done].
  rewrite andb_true_iff, Nat.leb_le. intros [Hf He]. exists i, rest, p. split_and!; try done.
  destruct (emitting p) as [|[m|] r] eqn:E; try done. by exists m, r.
Qed.

#[local] Abbreviation start := (threads_init (∅ : gmap bytes Entry) 1 3 (fun _ => 4%Z)).
#[local] Abbreviation now := (fun _ : nat => 100%Z).

(** Where the destructor is after it has cleared the flag and notified, when
    the main thread has left [epoll_wait] with an error in [s]. *)
Definition stopped_at (s : state (gmap bytes Entry)) : option (closing (gmap bytes Entry)) :=
  match posting s, main_tasks s with
  | [], [] => crun now kQueueCapacity (close_init s [InBody]) [Stopper; Stopper]
  | _, _ => None
  end.

Lemma start_steady : steady now kQueueCapacity ∅ start.
Proof. apply init_steady; [lia|intros; lia]. Qed.

(** C35. The destructor can wait forever.  With the queue capacity of the code,
    one IO thread and one client that sends 1025 PINGs, when the main thread's
    [epoll_wait] fails at a moment at which it has not yet taken them from the
    outbox: the destructor clears [running_], notifies and joins, and whatever
    happens then it never gets further, the thread retrying a push for which
    nobody will make room. *)
Theorem stop_can_hang :
  exists s c, trun now kQueueCapacity start full_outbox_moves = Some s
  /\ stopped_at s = Some c
  /\ forall ls c', crun now kQueueCapacity c ls = Some c' -> hung kQueueCapacity c' /\ stops c' = [StopJoin 0].
Proof.
  destruct (checked_some (trun now kQueueCapacity start full_outbox_moves)
              (fun s => match stopped_at s with
                        | Some c => hungb kQueueCapacity c && bool_decide (length (stops c) = 1 /\ length (procs s) = 1)
                        | None => false
                        end)) as (s & E & Hd).
  { vm_compute. reflexivity. }
  destruct (stopped_at s) as [c|] eqn:Hs; [|done]. exists s, c. split; [exact E|]. split; [exact Hs|].
  apply andb_true_iff in Hd as [Hd%hungb_spec [Hlen Hprocs]%bool_decide_eq_true].
  unfold stopped_at in Hs. destruct (posting s); [|done]. destruct (main_tasks s); [|done].
  assert (closing_ok now kQueueCapacity ∅ c) as Hok.
  { eapply crun_ok; [|exact Hs]. apply init_closing; [exact (trun_steady _ _ _ _ _ _ start_steady E)|]. clear E Hs.
    destruct (procs s) as [|p [|]]; try discriminate Hprocs. constructor; [by left|constructor]. }
  assert (stops c = [StopJoin 0]) as <-.
  { clear Hd Hok E. unfold close_init in Hs. rewrite Hprocs in Hs. cbn in Hs.
    destruct (procs s !! 0); [|done]. by injection Hs as <-. }
  clear E Hs. intros ls c' H. eapply hung_forever; [exact Hok|exact Hd|exact H].
Qed.

(** *** Witness *)

(** Stopping while the thread has one PING to emit. *)
Lemma stopping_ends_or_hangs_witness :
  exists s c, trun now kQueueCapacity start one_ping_moves = Some s
  /\ crun now kQueueCapacity (close_init s [InBody]) [Stopper] = Some c
  /\ exists ls' c', crun now kQueueCapacity c ls' = Some c'
       /\ stopping_run now kQueueCapacity c ls' /\ (ended c' \/ hung kQueueCapacity c').
Proof.
  destruct (checked_some (trun now kQueueCapacity start one_ping_moves)
              (fun s => match procs s, crun now kQueueCapacity (close_init s [InBody]) [Stopper] with
                        | [_], Some _ => true
                        | _, _ => false
                        end)) as (s & E & H).
  { vm_compute. reflexivity. }
  destruct (crun now kQueueCapacity (close_init s [InBody]) [Stopper]) as [c|] eqn:Hs;
    [|destruct (procs s) as [|p [|]]; discriminate H].
  exists s, c. split; [exact E|]. split; [exact Hs|].
  apply (stopping_ends_or_hangs now kQueueCapacity (∅ : gmap bytes Entry) 1 3 (fun _ => 4%Z) one_ping_moves s [InBody] [Stopper] c);
    [clear; lia|clear; intros; lia|exact E| |exact Hs].
  clear E Hs. destruct (procs s) as [|p [|]]; try discriminate H. constructor; [by left|constructor].
Defined.
