(* ===== verification/Snapshotter.v ===== *)
(** * Snapshots on disk: [v2/src/snapshot/snapshotter.{h,cc}]

    One directory of files.  A file has contents and a flag that tells whether
    they have been forced to the device; the state of the directory after every
    system call is recorded, so that a theorem can speak about a crash at any
    point.  The kernel's answers are an argument.  Paths inside the output
    directory are their file names. *)

From S2P Require Import Prelude CxxString MapInterface Serialise Store StoreJson.

(** A file: its bytes, and whether they survive a crash. *)
Record file := mkFile {
  data : bytes;
  durable : bool
}.

Abbreviation directory := (gmap bytes file).

(** ** Finding the newest snapshot *)

Definition kSnapshotSuffix : bytes := lit ".snapshot.json".

(** The timestamp of a file name, if the loop body does not [continue].  With
    the prefix the server uses, ["dump-"], no name is so short that its prefix
    and its suffix overlap, so [first] is not behind [last]. *)
Definition snapshot_timestamp (prefix name : bytes) : option Z :=
  if negb (starts_with prefix name) || negb (ends_with kSnapshotSuffix name) then None
  else
    let first := length prefix in
    let last := (length name - length kSnapshotSuffix)%nat in
    let digits := take (last - first) (drop first name) in
    match from_chars digits with
    | FromCharsOk timestamp ptr => if (ptr =? length digits)%nat then Some timestamp else None
    | FromCharsInvalid | FromCharsRange _ => None
    end.

(** The loop: [best] and [best_timestamp]; an entry is a name and whether it is
    a regular file. *)
Fixpoint latest_loop (prefix : bytes) (entries : list (bytes * bool)) (best : option bytes)
    (best_timestamp : Z) : option bytes :=
  match entries with
  | [] => best
  | (name, is_regular_file) :: entries =>
      if negb is_regular_file then latest_loop prefix entries best best_timestamp
      else
        match snapshot_timestamp prefix name with
        | None => latest_loop prefix entries best best_timestamp
        | Some timestamp =>
            if best_timestamp <? timestamp then latest_loop prefix entries (Some name) timestamp
            else latest_loop prefix entries best best_timestamp
        end
  end.

Definition LatestSnapshot (prefix : bytes) (entries : list (bytes * bool)) : option bytes :=
  latest_loop prefix entries None (-1).

(** ** Writing durably *)

Inductive write_result := WroteCount (n : nat) | WriteInterrupted | WriteFailed.

(** What the kernel answers to the calls of one [DurableWrite]. *)
Record kernel_answers := mkAnswers {
  mkstemp_name : option bytes;
  writes : list write_result;
  fsync_ok : bool;
  close_ok : bool;
  rename_ok : bool;
  open_dir_ok : bool;
  fsync_dir_ok : bool;
  close_dir_ok : bool;
  unlink_ok : bool  (** of the handler *)
}.

(** The directory now and after each system call so far, newest first. *)
Record disk := mkDisk {
  files : directory;
  history : list directory
}.

Definition set_files (d : disk) (f : directory) : disk := mkDisk f (f :: history d).

(** [while (left > 0) write(...)]: [left_bytes] is what [output_ptr] points at. *)
Fixpoint write_loop (results : list write_result) (tmp : bytes) (left_bytes : bytes) (d : disk)
    : disk * res unit :=
  match left_bytes with
  | [] => (d, Ok tt)
  | _ =>
      match results with
      | [] => (d, NoFuel)
      | WriteInterrupted :: results => write_loop results tmp left_bytes d
      | WriteFailed :: _ => (d, Throw (RuntimeError "write failed"))
      | WroteCount n :: results =>
          let written := match files d !! tmp with Some f => data f | None => [] end in
          let f := mkFile (written ++ take n left_bytes) false in
          write_loop results tmp (drop n left_bytes) (set_files d (<[tmp := f]> (files d)))
      end
  end.

(** The calls on the directory, after the [rename]. *)
Definition sync_directory (ans : kernel_answers) : res unit :=
  if negb (open_dir_ok ans) then Throw (RuntimeError "open(dir) failed")
  else if negb (fsync_dir_ok ans) then Throw (RuntimeError "fsync(dir) failed")
  else if negb (close_dir_ok ans) then Throw (RuntimeError "close(dir) failed")
  else Ok tt.

(** The body of the [try]; on failure the handler unlinks the temporary. *)
Definition durable_write_body (ans : kernel_answers) (tmp output_path output : bytes) (d : disk)
    : disk * res unit :=
  let '(d, r) := write_loop (writes ans) tmp output d in
  match r with
  | Ok _ =>
      if negb (fsync_ok ans) then (d, Throw (RuntimeError "fsync(file) failed"))
      else
        let d := set_files d (alter (fun f => mkFile (data f) true) tmp (files d)) in
        if negb (close_ok ans) then (d, Throw (RuntimeError "close failed"))
        else if negb (rename_ok ans) then (d, Throw (RuntimeError "rename failed"))
        else
          let d := match files d !! tmp with
                   | Some f => set_files d (<[output_path := f]> (delete tmp (files d)))
                   | None => d
                   end in
          (d, sync_directory ans)
  | Throw e => (d, Throw e)
  | Undef w => (d, Undef w)
  | NoFuel => (d, NoFuel)
  end.

Definition DurableWrite (ans : kernel_answers) (output_path output : bytes) (d : disk)
    : disk * res unit :=
  match mkstemp_name ans with
  | None => (d, Throw (RuntimeError "mkstemp failed"))
  | Some tmp =>
      let d := set_files d (<[tmp := mkFile [] false]> (files d)) in
      let '(d, r) := durable_write_body ans tmp output_path output d in
      match r with
      | Throw e => (if unlink_ok ans then set_files d (delete tmp (files d)) else d, Throw e)
      | _ => (d, r)
      end
  end.

Definition snapshot_name (prefix : bytes) (timestamp : Z) : bytes :=
  prefix ++ to_string timestamp ++ kSnapshotSuffix.

Section Snapshotter.
Context {M : Type} {ops : MapOps bytes Entry M}.
Context (snapshot_file_prefix_ : bytes).

Definition Snapshot (ans : kernel_answers) (store : M) (timestamp : Z) (d : disk) : disk * res unit :=
  DurableWrite ans (snapshot_name snapshot_file_prefix_ timestamp) (SerialiseToJson store) d.

(** [entries] is the directory listing; [open_ok] tells whether the file could
    be opened. *)
Definition Restore (entries : list (bytes * bool)) (open_ok : bool) (d : disk) (store : M) : M * res bool :=
  match LatestSnapshot snapshot_file_prefix_ entries with
  | None => (store, Ok true)
  | Some path =>
      match (if open_ok then files d !! path else None) with
      | None => (store, Ok false)
      | Some f =>
          match DeserialiseFromJson store (data f) with
          | (store, Ok _) => (store, Ok true)
          | (store, Throw _) => (store, Ok false)
          | (store, Undef w) => (store, Undef w)
          | (store, NoFuel) => (store, NoFuel)
          end
      end
  end.

End Snapshotter.

(** ** Lemmas: names *)

Lemma ends_with_app suf s : ends_with suf (s ++ suf) = true.
Proof.
  unfold ends_with. rewrite length_app. apply andb_true_iff. split; [apply Nat.leb_le; lia|].
  apply bool_decide_eq_true_2. replace (length s + length suf - length suf)%nat with (length s) by lia.
  apply drop_app_length.
Qed.

Lemma snapshot_name_timestamp prefix t : in_int64 t = true ->
  snapshot_timestamp prefix (snapshot_name prefix t) = Some t.
Proof.
  intros Ht. unfold snapshot_timestamp, snapshot_name. rewrite starts_with_app.
  rewrite (app_assoc prefix), ends_with_app. cbn [negb orb].
  replace (length ((prefix ++ to_string t) ++ kSnapshotSuffix) - length kSnapshotSuffix - length prefix)%nat
    with (length (to_string t)) by (rewrite !length_app; lia).
  rewrite <- app_assoc, drop_app_length, take_app_length.
  pose proof (from_chars_to_string t [] Ht I) as Hf. rewrite app_nil_r in Hf. rewrite Hf.
  by rewrite Nat.eqb_refl.
Qed.

(** A regular file with a timestamp in its name. *)
Definition candidate (prefix : bytes) (entries : list (bytes * bool)) (name : bytes) (t : Z) : Prop :=
  (name, true) ∈ entries /\ snapshot_timestamp prefix name = Some t.

Lemma candidate_cons prefix e entries n t :
  candidate prefix (e :: entries) n t
  <-> (e = (n, true) /\ snapshot_timestamp prefix n = Some t) \/ candidate prefix entries n t.
Proof. unfold candidate. rewrite elem_of_cons. naive_solver. Qed.

Lemma latest_loop_spec prefix entries : forall best bt,
  (latest_loop prefix entries best bt = best /\ (forall n t, candidate prefix entries n t -> t <= bt))
  \/ (exists n t, latest_loop prefix entries best bt = Some n /\ candidate prefix entries n t
        /\ bt < t /\ (forall n' t', candidate prefix entries n' t' -> t' <= t)).
Proof.
  induction entries as [|[name reg] entries IH]; intros best bt; cbn [latest_loop].
  - left. split; [done|]. by intros n t [?%not_elem_of_nil _].
  - setoid_rewrite candidate_cons.
    assert (forall n t, snapshot_timestamp prefix n = Some t -> (name, reg) = (n, true) ->
              snapshot_timestamp prefix name = Some t /\ reg = true) as Hinv by naive_solver.
    destruct reg; cbn [negb].
    + destruct (snapshot_timestamp prefix name) as [ts|] eqn:Hts.
      * destruct (bt <? ts) eqn:Hlt; reflect_bools.
        -- destruct (IH (Some name) ts) as [[-> H]|(n & t & -> & Hc & Hlt' & H)].
           ++ right. exists name, ts. split_and!; [done|by left|done|naive_solver lia].
           ++ right. exists n, t. split_and!; [done|by right|lia|naive_solver lia].
        -- destruct (IH best bt) as [[-> H]|(n & t & -> & Hc & Hlt' & H)].
           ++ left. split; [done|naive_solver lia].
           ++ right. exists n, t. split_and!; [done|by right|done|naive_solver lia].
      * destruct (IH best bt) as [[-> H]|(n & t & -> & Hc & Hlt' & H)]; [left|right; exists n, t];
          naive_solver congruence.
    + destruct (IH best bt) as [[-> H]|(n & t & -> & Hc & Hlt' & H)]; [left|right; exists n, t];
        naive_solver congruence.
Qed.

Lemma LatestSnapshot_candidate prefix entries n :
  LatestSnapshot prefix entries = Some n -> exists t, candidate prefix entries n t.
Proof.
  unfold LatestSnapshot.
  destruct (latest_loop_spec prefix entries None (-1)) as [[-> H]|(n' & t & -> & Hc & _)]; [done|].
  intros [= <-]. by exists t.
Qed.

(** ** Lemmas: the disk *)

(** What a crash may leave: apart from the temporary file, the old directory,
    or the old directory with the complete, durable new file. *)
Definition crash_safe (old : directory) (tmp path output : bytes) (f : directory) : Prop :=
  (forall n, n <> tmp -> n <> path -> f !! n = old !! n)
  /\ (f !! path = old !! path \/ f !! path = Some (mkFile output true)).

(** Before the rename, nothing but the temporary has changed. *)
Definition untouched (old : directory) (tmp : bytes) (f : directory) : Prop :=
  forall n, n <> tmp -> f !! n = old !! n.

Lemma untouched_crash_safe old tmp path output f :
  tmp <> path -> untouched old tmp f -> crash_safe old tmp path output f.
Proof. intros Hne Hf. split; [intros n Hn _; by apply Hf|left; apply Hf; congruence]. Qed.

Lemma untouched_insert old tmp f x : untouched old tmp f -> untouched old tmp (<[tmp := x]> f).
Proof. intros Hf n Hn. rewrite lookup_insert_ne by congruence. by apply Hf. Qed.

Lemma untouched_alter old tmp f g : untouched old tmp f -> untouched old tmp (alter g tmp f).
Proof. intros Hf n Hn. rewrite lookup_alter_ne by congruence. by apply Hf. Qed.

Lemma untouched_delete old tmp f : untouched old tmp f -> untouched old tmp (delete tmp f).
Proof. intros Hf n Hn. rewrite lookup_delete_ne by congruence. by apply Hf. Qed.

Definition disk_untouched (old : directory) (tmp : bytes) (d : disk) : Prop :=
  untouched old tmp (files d) /\ Forall (untouched old tmp) (history d).

Lemma disk_untouched_set old tmp d f :
  disk_untouched old tmp d -> untouched old tmp f -> disk_untouched old tmp (set_files d f).
Proof. intros [H1 H2] Hf. split; [done|]. by constructor. Qed.

(** The loop keeps everything but the temporary, which holds what was written;
    when it returns normally that is all of the output. *)
Lemma write_loop_spec results tmp old : forall left_bytes d written,
  disk_untouched old tmp d -> (exists b, files d !! tmp = Some (mkFile written b)) ->
  let '(d', r) := write_loop results tmp left_bytes d in
  disk_untouched old tmp d'
  /\ (r = Ok tt -> exists b, files d' !! tmp = Some (mkFile (written ++ left_bytes) b))
  /\ (r = Ok tt \/ (exists w, r = Throw (RuntimeError w)) \/ r = NoFuel).
Proof.
  induction results as [|x results IH]; intros left_bytes d written Hd Ht;
    (destruct left_bytes as [|c left_bytes]; cbn [write_loop];
     [split_and!; [done|intros _; by rewrite app_nil_r|by left]|]).
  - split_and!; [done|done|by right; right].
  - destruct x as [n| |].
    + destruct Ht as [b Ht]. rewrite Ht. cbn [data].
      specialize (IH (drop n (c :: left_bytes)) (set_files d (<[tmp := mkFile (written ++ take n (c :: left_bytes)) false]> (files d)))
        (written ++ take n (c :: left_bytes))).
      destruct (write_loop _ _ _ _) as [d' r]. destruct IH as (H1 & H2 & H3).
      { apply disk_untouched_set; [done|]. by apply untouched_insert, Hd. }
      { exists false. cbn. apply lookup_insert_eq. }
      split_and!; [done| |done]. intros Hr. rewrite <- app_assoc, take_drop in H2. by apply H2.
    + by apply IH.
    + split_and!; [done|done|right; left; by eexists].
Qed.

(** Every state of a [DurableWrite] is safe to crash in. *)
Definition disk_safe (old : directory) (tmp path output : bytes) (d : disk) : Prop :=
  crash_safe old tmp path output (files d) /\ Forall (crash_safe old tmp path output) (history d).

Lemma disk_untouched_safe old tmp path output d :
  tmp <> path -> disk_untouched old tmp d -> disk_safe old tmp path output d.
Proof.
  intros Hne [H1 H2]. split; [by apply untouched_crash_safe|].
  eapply Forall_impl; [exact H2|]. intros f. by apply untouched_crash_safe.
Qed.

(** The directory with the output in place of the temporary. *)
Lemma renamed_safe old tmp path output f : tmp <> path -> untouched old tmp f ->
  crash_safe old tmp path output (<[path := mkFile output true]> (delete tmp f)).
Proof.
  intros Hne Hf. split; [|right; apply lookup_insert_eq].
  intros n Hn Hp. rewrite lookup_insert_ne, lookup_delete_ne by congruence. by apply Hf.
Qed.

Lemma durable_write_body_spec ans tmp path output old d :
  tmp <> path -> disk_untouched old tmp d -> files d !! tmp = Some (mkFile [] false) ->
  let '(d', r) := durable_write_body ans tmp path output d in
  disk_safe old tmp path output d'
  /\ (r = Ok tt -> exists f, files d' = <[path := mkFile output true]> (delete tmp f) /\ untouched old tmp f)
  /\ (r = Ok tt \/ (exists w, r = Throw (RuntimeError w)) \/ r = NoFuel).
Proof.
  intros Hne Hd Ht. unfold durable_write_body.
  pose proof (write_loop_spec (writes ans) tmp old output d [] Hd (ex_intro _ false Ht)) as Hw.
  destruct (write_loop (writes ans) tmp output d) as [d1 r]. destruct Hw as (Hd1 & Hok & Hr).
  pose proof (disk_untouched_safe old tmp path output d1 Hne Hd1) as Hs1.
  destruct r as [[]|e|w|]; [|split_and!; done..]. destruct (Hok eq_refl) as [b Hf1]. cbn [app] in Hf1.
  destruct (fsync_ok ans); cbn [negb]; [|split_and!; [done|done|right; left; by eexists]].
  set (d2 := set_files d1 _).
  assert (disk_untouched old tmp d2) as Hd2
    by (apply disk_untouched_set; [done|]; by apply untouched_alter, Hd1).
  assert (files d2 !! tmp = Some (mkFile output true)) as Hf2
    by (cbn; by rewrite lookup_alter_eq, Hf1).
  pose proof (disk_untouched_safe old tmp path output d2 Hne Hd2) as Hs2.
  destruct (close_ok ans); cbn [negb]; [|split_and!; [done|done|right; left; by eexists]].
  destruct (rename_ok ans); cbn [negb]; [|split_and!; [done|done|right; left; by eexists]].
  rewrite Hf2. set (d3 := set_files d2 _).
  assert (disk_safe old tmp path output d3) as Hs3.
  { pose proof (renamed_safe old tmp path output (files d2) Hne (proj1 Hd2)).
    split; [done|]. constructor; [done|]. apply Hs2. }
  split; [done|]. split; [|unfold sync_directory; repeat case_match; (by left) || (right; left; by eexists)]. intros _. exists (files d2). split; [done|apply Hd2].
Qed.

Lemma crash_safe_delete old tmp path output f : tmp <> path ->
  crash_safe old tmp path output f -> crash_safe old tmp path output (delete tmp f).
Proof.
  intros Hne [H1 H2]. split.
  - intros n Hn Hp. rewrite lookup_delete_ne by congruence. by apply H1.
  - by rewrite lookup_delete_ne by congruence.
Qed.

Lemma DurableWrite_spec ans tmp path output old :
  mkstemp_name ans = Some tmp -> tmp <> path -> old !! tmp = None ->
  let '(d', r) := DurableWrite ans path output (mkDisk old []) in
  disk_safe old tmp path output d'
  /\ (r = Ok tt -> files d' = <[path := mkFile output true]> old)
  /\ (forall e, r = Throw e -> unlink_ok ans = true -> files d' !! tmp = None)
  /\ (r = Ok tt \/ (exists w, r = Throw (RuntimeError w)) \/ r = NoFuel).
Proof.
  intros Hm Hne Hold. unfold DurableWrite. rewrite Hm.
  pose proof (durable_write_body_spec ans tmp path output old
    (set_files (mkDisk old []) (<[tmp := mkFile [] false]> old)) Hne) as Hb. cbn [files] in *.
  destruct (durable_write_body _ _ _ _ _) as [d r]. destruct Hb as (Hs & Hok & Hr).
  { apply disk_untouched_set; [done|]. by apply untouched_insert. }
  { cbn. apply lookup_insert_eq. }
  destruct r as [[]|e|w|].
  - split; [done|]. split; [|split; [done|by left]]. intros _.
    destruct (Hok eq_refl) as (f & -> & Hf). f_equal. apply map_eq. intros n.
    destruct (decide (n = tmp)) as [->|Hn]; [by rewrite lookup_delete_eq|].
    rewrite lookup_delete_ne by congruence. by apply Hf.
  - split; [|split; [done|split; [|done]]].
    + destruct (unlink_ok ans); [|done].
      destruct Hs as [H1 H2]. split; [by apply crash_safe_delete|]. constructor; [by apply crash_safe_delete|done].
    + intros e' _ ->. cbn. apply lookup_delete_eq.
  - by destruct Hr as [|[[? ?]|]].
  - split; [done|]. split_and!; [done|done|done].
Qed.

(** *** When no call fails *)

(** The counts add up to [n] bytes and no call fails before that. *)
Fixpoint writes_cover (results : list write_result) (n : nat) : Prop :=
  match n, results with
  | O, _ => True
  | _, [] => False
  | _, WriteInterrupted :: results => writes_cover results n
  | _, WriteFailed :: _ => False
  | _, WroteCount k :: results => writes_cover results (n - k)
  end.

Definition answers_ok (ans : kernel_answers) (n : nat) : Prop :=
  writes_cover (writes ans) n /\ fsync_ok ans = true /\ close_ok ans = true /\ rename_ok ans = true
  /\ open_dir_ok ans = true /\ fsync_dir_ok ans = true /\ close_dir_ok ans = true.

Lemma write_loop_covers results tmp : forall left_bytes d,
  writes_cover results (length left_bytes) -> snd (write_loop results tmp left_bytes d) = Ok tt.
Proof.
  induction results as [|x results IH]; intros [|c left_bytes] d Hc; cbn [write_loop]; try done.
  destruct x as [n| |]; [|by apply IH|done]. apply IH. rewrite length_drop. exact Hc.
Qed.

Lemma DurableWrite_ok ans tmp path output old :
  mkstemp_name ans = Some tmp -> tmp <> path -> old !! tmp = None -> answers_ok ans (length output) ->
  exists h, DurableWrite ans path output (mkDisk old []) = (mkDisk (<[path := mkFile output true]> old) h, Ok tt).
Proof.
  intros Hm Hne Hold (Hw & H1 & H2 & H3 & H4 & H5 & H6).
  pose proof (DurableWrite_spec ans tmp path output old Hm Hne Hold) as Hs.
  assert (snd (DurableWrite ans path output (mkDisk old [])) = Ok tt) as Hok.
  { unfold DurableWrite. rewrite Hm. unfold durable_write_body.
    match goal with |- context [write_loop ?r ?t ?l ?d] =>
      pose proof (write_loop_covers r t l d Hw) as Hl; destruct (write_loop r t l d) as [d1 r1] end.
    cbn [snd] in Hl. subst r1. unfold sync_directory. by rewrite H1, H2, H3, H4, H5, H6. }
  destruct (DurableWrite _ _ _ _) as [[f h] r]. cbn [snd files] in *. subst r.
  destruct Hs as (_ & Hf & _). exists h. by rewrite <- (Hf eq_refl).
Qed.

(** ** Theorems *)

(** [LatestSnapshot] finds the newest snapshot: of the regular files named
    prefix, timestamp, suffix, it returns one with the numerically largest
    timestamp, and nothing only when there is none (timestamps are counted
    from 1970, so they are not negative); names it writes itself are such
    names. *)
Theorem LatestSnapshot_newest (prefix : bytes) (entries : list (bytes * bool)) :
  match LatestSnapshot prefix entries with
  | Some n => exists t, candidate prefix entries n t /\ 0 <= t
                /\ forall n' t', candidate prefix entries n' t' -> t' <= t
  | None => forall n t, candidate prefix entries n t -> t < 0
  end
  /\ forall t, in_int64 t = true -> snapshot_timestamp prefix (snapshot_name prefix t) = Some t.
Proof.
  split; [|intros t; apply snapshot_name_timestamp]. unfold LatestSnapshot.
  destruct (latest_loop_spec prefix entries None (-1)) as [[-> H]|(n & t & -> & Hc & Hlt & H)].
  - intros n t Hc. specialize (H n t Hc). lia.
  - exists t. split_and!; [done|lia|done].
Qed.

(** The directory the server writes to uses the prefix ["dump-"]; [mkstemp]
    names start with [".tmp-"]. *)
Definition kSnapshotPrefix : bytes := lit "dump-".
Definition tmp_name (x : bytes) : bytes := lit ".tmp-" ++ x.

Lemma tmp_not_candidate entries x t : ~ candidate kSnapshotPrefix entries (tmp_name x) t.
Proof. intros [_ H]. discriminate H. Qed.

Section Theorems.
Context {M : Type} {ops : MapOps bytes Entry M} {spec : MapSpec bytes Entry M}.

(** C14. A snapshot can be interrupted at any point: whatever the kernel
    answers (short writes, interrupts, failures), provided [mkstemp] draws a
    name that is not in the directory, in every state of the
    directory between two system calls the other files are untouched and the
    new snapshot is either absent or complete and on the device; so a restart
    after a crash at that moment never restores from a partial file.  When the
    call reports an error, its temporary file is gone, unless it could not be
    unlinked. *)
Theorem snapshot_crash_safe (ans : kernel_answers) (store : M) (t : Z) (old : directory) (x : bytes) :
  mkstemp_name ans = Some (tmp_name x) -> old !! tmp_name x = None ->
  let '(d', r) := Snapshot kSnapshotPrefix ans store t (mkDisk old []) in
  let path := snapshot_name kSnapshotPrefix t in
  let new := mkFile (SerialiseToJson store) true in
  (forall h, h ∈ files d' :: history d' ->
     (forall n, n <> tmp_name x -> n <> path -> h !! n = old !! n)
     /\ (forall entries n f, LatestSnapshot kSnapshotPrefix entries = Some n -> h !! n = Some f ->
           old !! n = Some f \/ (n = path /\ f = new)))
  /\ (forall e, r = Throw e -> unlink_ok ans = true -> files d' !! tmp_name x = None).
Proof.
  intros Hm Hold. unfold Snapshot.
  pose proof (DurableWrite_spec ans (tmp_name x) (snapshot_name kSnapshotPrefix t) (SerialiseToJson store)
    old Hm ltac:(done) Hold) as Hs.
  destruct (DurableWrite _ _ _ _) as [d' r]. destruct Hs as ([Hc Hh] & _ & Hthrow & _). split; [|done].
  intros h Hin. assert (crash_safe old (tmp_name x) (snapshot_name kSnapshotPrefix t) (SerialiseToJson store) h)
    as [H1 H2].
  { apply elem_of_cons in Hin as [->|Hin]; [done|]. rewrite Forall_forall in Hh. by apply Hh. }
  split; [done|]. intros entries n f Hl Hf.
  destruct (LatestSnapshot_candidate kSnapshotPrefix entries n Hl) as (t' & Hcand).
  assert (n <> tmp_name x) by (intros ->; by eapply tmp_not_candidate).
  destruct (decide (n = snapshot_name kSnapshotPrefix t)) as [->|]; [|left; by rewrite <- H1].
  destruct H2 as [H2|H2]; rewrite H2 in Hf; [by left|right]. split; [done|congruence].
Qed.

Lemma snapshot_restored (ans : kernel_answers) (store : M) (t : Z) (old : directory) (x : bytes)
    (entries : list (bytes * bool)) :
  map_inv store -> deadlines_fit store -> in_int64 t = true -> 0 <= t ->
  mkstemp_name ans = Some (tmp_name x) -> old !! tmp_name x = None ->
  answers_ok ans (length (SerialiseToJson store)) ->
  let path := snapshot_name kSnapshotPrefix t in
  (path, true) ∈ entries ->
  (forall n t', candidate kSnapshotPrefix entries n t' -> n <> path -> t' < t) ->
  exists h d', Snapshot kSnapshotPrefix ans store t (mkDisk old [])
      = (mkDisk (<[path := mkFile (SerialiseToJson store) true]> old) h, Ok tt)
    /\ Restore kSnapshotPrefix entries true
         (mkDisk (<[path := mkFile (SerialiseToJson store) true]> old) h) EmptyMap = (d', Ok true)
    /\ map_inv d' /\ map_abs d' = map_abs store.
Proof.
  intros Hi Hfit Ht Hpos Hm Hold Hans path Hin Hnew.
  destruct (DurableWrite_ok ans (tmp_name x) path (SerialiseToJson store) old Hm ltac:(done) Hold Hans) as [h Hw].
  destruct (restore_snapshot store Hi Hfit) as (d' & Hd & Hi' & Ha').
  exists h, d'. split; [exact Hw|]. split; [|done]. unfold Restore.
  assert (candidate kSnapshotPrefix entries path t) as Hc by (split; [done|by apply snapshot_name_timestamp]).
  assert (LatestSnapshot kSnapshotPrefix entries = Some path) as ->.
  { unfold LatestSnapshot.
    destruct (latest_loop_spec kSnapshotPrefix entries None (-1)) as [[_ H]|(n & t' & -> & Hn & _ & H)].
    - specialize (H _ _ Hc). lia.
    - f_equal. destruct (decide (n = path)) as [|Hne]; [done|].
      specialize (Hnew n t' Hn Hne). specialize (H _ _ Hc). lia. }
  cbn [files]. rewrite lookup_insert_eq. cbn [data]. by rewrite Hd.
Qed.

(** C15. What was saved is restored: after a successful [Snapshot] that is newer
    than every snapshot in the directory, [Restore] into an empty store
    succeeds and gives exactly the contents of the saved store. *)
Theorem snapshot_restore (ans : kernel_answers) (store : M) (t : Z) (old : directory) (x : bytes)
    (entries : list (bytes * bool)) :
  map_inv store -> deadlines_fit store -> in_int64 t = true -> 0 <= t ->
  mkstemp_name ans = Some (tmp_name x) -> old !! tmp_name x = None ->
  answers_ok ans (length (SerialiseToJson store)) ->
  let path := snapshot_name kSnapshotPrefix t in
  (path, true) ∈ entries ->
  (forall n t', candidate kSnapshotPrefix entries n t' -> n <> path -> t' < t) ->
  exists h d', Snapshot kSnapshotPrefix ans store t (mkDisk old [])
      = (mkDisk (<[path := mkFile (SerialiseToJson store) true]> old) h, Ok tt)
    /\ Restore kSnapshotPrefix entries true
         (mkDisk (<[path := mkFile (SerialiseToJson store) true]> old) h) EmptyMap = (d', Ok true)
    /\ map_inv d' /\ map_abs d' = map_abs store.
Proof. apply snapshot_restored. Qed.

End Theorems.

(** *** Witnesses, on [StandardMap] *)

#[local] Existing Instance std_ops.
#[local] Existing Instance std_spec.

(** An old snapshot, and a kernel that writes one byte, is interrupted, writes
    the rest and then fails to rename. *)
Definition old_directory : directory :=
  {[ snapshot_name kSnapshotPrefix 5 := mkFile (lit "{}") true ]}.

Definition failing_answers : kernel_answers :=
  mkAnswers (Some (tmp_name (lit "Ab3"))) [WroteCount 1; WriteInterrupted; WroteCount 4000] true true false true true true true.

Definition good_answers : kernel_answers :=
  mkAnswers (Some (tmp_name (lit "Ab3"))) [WroteCount 1; WriteInterrupted; WroteCount 4000] true true true true true true true.

Lemma snapshot_crash_safe_witness :
  let '(d', r) := Snapshot kSnapshotPrefix failing_answers sample_snapshot 12 (mkDisk old_directory []) in
  let path := snapshot_name kSnapshotPrefix 12 in
  let new := mkFile (SerialiseToJson sample_snapshot) true in
  (forall h, h ∈ files d' :: history d' ->
     (forall n, n <> tmp_name (lit "Ab3") -> n <> path -> h !! n = old_directory !! n)
     /\ (forall entries n f, LatestSnapshot kSnapshotPrefix entries = Some n -> h !! n = Some f ->
           old_directory !! n = Some f \/ (n = path /\ f = new)))
  /\ (forall e, r = Throw e -> unlink_ok failing_answers = true -> files d' !! tmp_name (lit "Ab3") = None).
Proof.
  apply (snapshot_crash_safe failing_answers sample_snapshot 12 old_directory (lit "Ab3"));
    [reflexivity|vm_compute; reflexivity].
Defined.

Lemma snapshot_restore_witness :
  let path := snapshot_name kSnapshotPrefix 12 in
  exists h d', Snapshot kSnapshotPrefix good_answers sample_snapshot 12 (mkDisk old_directory [])
      = (mkDisk (<[path := mkFile (SerialiseToJson sample_snapshot) true]> old_directory) h, Ok tt)
    /\ Restore kSnapshotPrefix [(path, true); (snapshot_name kSnapshotPrefix 5, true)] true
         (mkDisk (<[path := mkFile (SerialiseToJson sample_snapshot) true]> old_directory) h) EmptyMap
       = (d', Ok true)
    /\ map_inv d' /\ map_abs d' = map_abs sample_snapshot.
Proof.
  apply (snapshot_restore good_answers sample_snapshot 12 old_directory (lit "Ab3")
           [(snapshot_name kSnapshotPrefix 12, true); (snapshot_name kSnapshotPrefix 5, true)]).
  - exact I.
  - exact sample_snapshot_fits.
  - reflexivity.
  - lia.
  - reflexivity.
  - vm_compute. reflexivity.
  - split_and!; [vm_compute; exact I|reflexivity..].
  - left.
  - intros n t [Hin Ht] Hne. apply elem_of_cons in Hin as [Hin|Hin]; [injection Hin as Hn; by destruct Hne|].
    apply elem_of_cons in Hin as [Hin|Hin]; [|by apply not_elem_of_nil in Hin].
    injection Hin as ->. vm_compute in Ht. injection Ht as <-. lia.
Defined.
