(* ===== verification/Startup.v ===== *)
(** * Start-up, restart and tear-down

    [v2/src/server/server.cc] ([CreateListenSocket], the constructor, the start
    of [Run], the destructor), [v2/src/server/io_thread.cc] (constructor,
    [Start], [Stop], destructor) and [v2/src/server/main.cc].

    The state is the process: its open descriptors, the ports its sockets are
    bound to, and what it printed.  What the kernel returns is an argument; a
    new descriptor is one that is not open, so an answer that is already open
    is no execution ([None]).  The loop that [Run] enters once it is serving is
    the one of Threads. *)

From S2P Require Import Prelude CxxString RespValue RespValueQueue MapInterface Store StoreJson Handlers CommandSpec EventFd IoThread Server AsyncServer Threads Snapshotter.

(** ** The process *)

Record process := mkProcess {
  open_fds : gset Z;
  ports : gmap Z Z;  (** the port each bound socket is bound to *)
  printed : list bytes
}.

Definition opened (p : process) (answer : Z) : option process :=
  if answer <? 0 then Some p
  else if bool_decide (answer ∈ open_fds p) then None
  else Some (mkProcess ({[answer]} ∪ open_fds p) (ports p) (printed p)).

Definition close_fd (p : process) (fd : Z) : process :=
  mkProcess (open_fds p ∖ {[fd]}) (delete fd (ports p)) (printed p).

Definition close_if_open (p : process) (fd : Z) : process := if 0 <=? fd then close_fd p fd else p.

Definition bound_to (p : process) (fd port : Z) : process :=
  mkProcess (open_fds p) (<[fd := port]> (ports p)) (printed p).

Definition print (p : process) (s : bytes) : process :=
  mkProcess (open_fds p) (ports p) (printed p ++ [s]).

(** ** The listening socket *)

(** [htons(static_cast<std::uint16_t>(port))] *)
Definition port_of (port : Z) : Z := port mod 2 ^ 16.

(** [socket_result], [bind_result], [listen_result]: what the calls return.  The
    results of [setsockopt] and [fcntl] are not looked at. *)
Definition CreateListenSocket (p : process) (port socket_result bind_result listen_result : Z)
    : option (Z * process) :=
  p ← opened p socket_result;
  if socket_result <? 0 then Some (-1, print p (lit "socket"))
  else if negb (bind_result =? 0) then Some (-1, close_fd (print p (lit "bind")) socket_result)
  else
    let p := bound_to p socket_result (port_of port) in
    if negb (listen_result =? 0) then Some (-1, close_fd (print p (lit "listen")) socket_result)
    else Some (socket_result, p).

(** ** IO threads as objects *)

Record IoHandle := mkIoHandle {
  io_epoll_fd : Z;
  inbox_fd : Z;  (** [inbox_event_.Fd()] *)
  registered : list Z;  (** passed to [epoll_ctl] with [EPOLL_CTL_ADD] *)
  running_ : bool;
  joinable : bool;  (** [thread_.joinable()] *)
  clients : list Z  (** the keys of [connections_] *)
}.

(** [answers]: of [epoll_create1] and [eventfd], in the order of the members. *)
Definition new_io_thread (p : process) (answers : Z * Z) : option (IoHandle * process) :=
  p ← opened p (fst answers);
  p ← opened p (snd answers);
  Some (mkIoHandle (fst answers) (snd answers) [snd answers] false false [], p).

Definition Start (t : IoHandle) : IoHandle :=
  mkIoHandle (io_epoll_fd t) (inbox_fd t) (registered t) true true (clients t).

(** [join] returns once [Run] of the thread has seen [running_] cleared. *)
Definition Stop (t : IoHandle) : IoHandle :=
  mkIoHandle (io_epoll_fd t) (inbox_fd t) (registered t) false false (clients t).

(** [~IoThread], with the destructor of the member [inbox_event_]. *)
Definition destroy_io_thread (p : process) (t : IoHandle) : process :=
  let t := Stop t in
  let p := fold_left close_fd (clients t) p in
  let p := close_if_open p (io_epoll_fd t) in
  close_if_open p (inbox_fd t).

(** ** The server as an object *)

Record ServerConfig := mkConfig { port : Z; snapshot_interval_ms : Z }.

Record ServerHandle := mkHandle {
  epoll_fd_ : Z;
  listen_fd_ : Z;
  snapshot_fd_ : Z;
  command_fd : Z;  (** [command_event_.Fd()] *)
  io_threads_ : list IoHandle;
  watched : list Z  (** passed to [epoll_ctl] with [EPOLL_CTL_ADD] *)
}.

(** What the system calls of the constructor return. *)
Record start_answers := mkStart {
  epoll_result : Z;
  socket_result : Z;
  bind_result : Z;
  listen_result : Z;
  timer_result : Z;
  settime_result : Z;
  command_result : Z;
  io_results : nat -> Z * Z
}.

(** The loop of the constructor. *)
Fixpoint make_io_threads (results : nat -> Z * Z) (n : nat) (p : process) : option (list IoHandle * process) :=
  match n with
  | O => Some ([], p)
  | S n =>
      '(ts, p) ← make_io_threads results n p;
      '(t, p) ← new_io_thread p (results n);
      Some (ts ++ [t], p)
  end.

(** The timer is opened only for a positive interval. *)
Definition opened_timer (p : process) (interval timer_fd : Z) : option process :=
  if interval <=? 0 then Some p else opened p timer_fd.

Definition new_server (config : ServerConfig) (hardware : nat) (ans : start_answers) (p : process)
    : option (process * exits ServerHandle) :=
  p ← opened p (epoll_result ans);
  '(listen_fd, p) ← CreateListenSocket p (port config) (socket_result ans) (bind_result ans) (listen_result ans);
  p ← opened_timer p (snapshot_interval_ms config) (timer_result ans);
  match CreateTimerIntervalFd (snapshot_interval_ms config) (timer_result ans) (settime_result ans) with
  | Exits status => Some (p, Exits status)
  | Returns (snapshot_fd, _) =>
      p ← opened p (command_result ans);
      '(ts, p) ← make_io_threads (io_results ans) (NumIoThreads hardware) p;
      let h := mkHandle (epoll_result ans) listen_fd snapshot_fd (command_result ans) ts in
      if (epoll_result ans <? 0) || (listen_fd <? 0) then Some (p, Returns (h []))
      else Some (p, Returns (h (watched_fds listen_fd (command_result ans) snapshot_fd)))
  end.

(** [~Server]: its body, then the members in reverse order. *)
Definition destroy_server (p : process) (h : ServerHandle) : process :=
  let ts := Stop <$> io_threads_ h in
  let p := close_if_open p (listen_fd_ h) in
  let p := close_if_open p (epoll_fd_ h) in
  let p := fold_left destroy_io_thread ts p in
  close_if_open p (command_fd h).

(** ** [Run] up to its loop, and [main] *)

Definition EXIT_FAILURE : Z := 1.

Section Run.
Context {M : Type} {ops : MapOps bytes Entry M}.

Inductive run_result :=
| Returned (status : Z)
| Serving (h : ServerHandle) (store : M).

(** [entries], [open_ok] and [d]: the directory, as for [Restore]. *)
Definition Run (h : ServerHandle) (p : process) (entries : list (bytes * bool)) (open_ok : bool)
    (d : disk) (store : M) : process * res run_result :=
  if (epoll_fd_ h <? 0) || (listen_fd_ h <? 0) then
    (print p (lit "Server failed to initialise"), Ok (Returned EXIT_FAILURE))
  else
    match Restore kSnapshotPrefix entries open_ok d store with
    | (_, Ok false) => (print p (lit "Server failed to restore snapshot"), Ok (Returned EXIT_FAILURE))
    | (store, Ok true) =>
        let ts := Start <$> io_threads_ h in
        let h := mkHandle (epoll_fd_ h) (listen_fd_ h) (snapshot_fd_ h) (command_fd h) ts (watched h) in
        (print p (lit "Server listening with " ++ to_string (Z.of_nat (length ts)) ++ lit " IO thread(s)"),
         Ok (Serving h store))
    | (_, Throw e) => (p, Throw e)
    | (_, Undef w) => (p, Undef w)
    | (_, NoFuel) => (p, NoFuel)
    end.

Inductive main_result :=
| Exited (status : Z)
| Runs (h : ServerHandle) (store : M).

(** [main] after its options are parsed; when [Run] returns, the server is
    destroyed. *)
Definition main (config : ServerConfig) (hardware : nat) (ans : start_answers)
    (entries : list (bytes * bool)) (open_ok : bool) (d : disk) (p : process)
    : option (process * res main_result) :=
  '(p, r) ← new_server config hardware ans p;
  match r with
  | Exits status => Some (p, Ok (Exited status))
  | Returns h =>
      let '(p, r) := Run h p entries open_ok d Store.init in
      match r with
      | Ok (Returned status) => Some (destroy_server p h, Ok (Exited status))
      | Ok (Serving h store) => Some (p, Ok (Runs h store))
      | Throw e => Some (p, Throw e)
      | Undef w => Some (p, Undef w)
      | NoFuel => Some (p, NoFuel)
      end
  end.

(** The threads once [Run] is in its loop. *)
Definition serving_threads (h : ServerHandle) (hardware : nat) (store : M) : state M :=
  threads_init store hardware (command_fd h)
    (fun i => match io_threads_ h !! i with Some t => inbox_fd t | None => -1 end).

End Run.
Arguments run_result M : clear implicits.
Arguments main_result M : clear implicits.

(** ** Descriptors opened and closed *)

Definition fd_set (fd : Z) : gset Z := if 0 <=? fd then {[fd]} else ∅.

Lemma opened_fds p fd p' : opened p fd = Some p' ->
  open_fds p' = fd_set fd ∪ open_fds p /\ fd_set fd ## open_fds p /\ ports p' = ports p.
Proof.
  unfold opened, fd_set. destruct (fd <? 0) eqn:E; reflect_bools.
  - intros [= <-]. rewrite (proj2 (Z.leb_gt 0 fd)) by lia. split_and!; [set_solver..|done].
  - rewrite (proj2 (Z.leb_le 0 fd)) by lia. case_bool_decide as Hin; [done|]. intros [= <-].
    cbn. split_and!; [done|set_solver|done].
Qed.

Lemma close_if_open_fds p fd : open_fds (close_if_open p fd) = open_fds p ∖ fd_set fd.
Proof. unfold close_if_open, fd_set. destruct (0 <=? fd); cbn; set_solver. Qed.

Lemma opened_timer_fds p interval fd p' : opened_timer p interval fd = Some p' ->
  let T := if interval <=? 0 then ∅ else fd_set fd in
  open_fds p' = T ∪ open_fds p /\ T ## open_fds p /\ ports p' = ports p.
Proof.
  unfold opened_timer. destruct (interval <=? 0); [|apply opened_fds].
  intros [= <-]. cbn. split_and!; [set_solver..|done].
Qed.

(** A descriptor comes back only when the socket is bound and listening; a
    failure leaves nothing open. *)
Lemma CreateListenSocket_spec p port s b l fd p' : CreateListenSocket p port s b l = Some (fd, p') ->
  open_fds p' = fd_set fd ∪ open_fds p /\ fd_set fd ## open_fds p
  /\ (0 <= fd -> fd = s /\ b = 0 /\ l = 0 /\ ports p' !! fd = Some (port_of port)).
Proof.
  unfold CreateListenSocket. intros H. apply bind_Some in H as (p1 & Ho & H).
  pose proof (opened_fds _ _ _ Ho) as (F1 & F2 & F3). unfold fd_set in *.
  destruct (s <? 0) eqn:Es; reflect_bools.
  { injection H as <- <-. rewrite (proj2 (Z.leb_gt 0 s)) in F1 by lia. cbn.
    split_and!; [set_solver..|lia]. }
  rewrite (proj2 (Z.leb_le 0 s)) in F1, F2 by lia.
  destruct (b =? 0) eqn:Eb; cbn [negb] in H; reflect_bools.
  2: { injection H as <- <-. cbn. split_and!; [set_solver..|lia]. }
  destruct (l =? 0) eqn:El; cbn [negb] in H; reflect_bools; injection H as <- <-; cbn.
  - rewrite (proj2 (Z.leb_le 0 s)) by lia. split_and!; [set_solver..|]. intros _. split_and!; [done..|apply lookup_insert_eq].
  - split_and!; [set_solver..|lia].
Qed.

Definition io_fds (ts : list IoHandle) : gset Z :=
  ⋃ ((fun t => fd_set (io_epoll_fd t) ∪ fd_set (inbox_fd t)) <$> ts).

Lemma io_fds_app ts ts' : io_fds (ts ++ ts') = io_fds ts ∪ io_fds ts'.
Proof. unfold io_fds. by rewrite fmap_app, union_list_app_L. Qed.

Lemma io_fds_one t : io_fds [t] = fd_set (io_epoll_fd t) ∪ fd_set (inbox_fd t).
Proof. unfold io_fds. cbn. set_solver. Qed.

Lemma make_io_threads_spec results n : forall p ts p', make_io_threads results n p = Some (ts, p') ->
  open_fds p' = io_fds ts ∪ open_fds p /\ io_fds ts ## open_fds p /\ ports p' = ports p
  /\ length ts = n /\ Forall (fun t => clients t = []) ts.
Proof.
  induction n as [|n IH]; intros p ts p' H; cbn [make_io_threads] in H.
  { injection H as <- <-. unfold io_fds. cbn. split_and!; [set_solver..|done|done|constructor]. }
  apply bind_Some in H as ([ts1 p1] & H1 & H). destruct (IH _ _ _ H1) as (I1 & I2 & I3 & I4 & I5).
  apply bind_Some in H as ([t p2] & H2 & H). injection H as <- <-. unfold new_io_thread in H2.
  apply bind_Some in H2 as (q1 & O1 & H2). apply bind_Some in H2 as (q2 & O2 & H2). injection H2 as <- <-.
  destruct (opened_fds _ _ _ O1) as (A1 & A2 & A3). destruct (opened_fds _ _ _ O2) as (B1 & B2 & B3).
  rewrite io_fds_app, io_fds_one. cbn [io_epoll_fd inbox_fd].
  split_and!; [rewrite B1, A1, I1; set_solver|set_solver|congruence|rewrite length_app; cbn; lia|].
  apply Forall_app. split; [done|]. by repeat constructor.
Qed.

Lemma destroy_io_threads_fds ts : forall p, Forall (fun t => clients t = []) ts ->
  open_fds (fold_left destroy_io_thread (Stop <$> ts) p) = open_fds p ∖ io_fds ts.
Proof.
  induction ts as [|t ts IH]; intros p Hc; [unfold io_fds; cbn; set_solver|].
  apply Forall_cons in Hc as [Ht Hc]. cbn [fmap list_fmap fold_left]. rewrite IH by done.
  unfold destroy_io_thread. cbn [Stop clients io_epoll_fd inbox_fd]. rewrite Ht. cbn [fold_left].
  rewrite !close_if_open_fds. change (t :: ts) with ([t] ++ ts). rewrite io_fds_app, io_fds_one. set_solver.
Qed.

(** Descriptors opened one after the other are disjoint. *)
Lemma opened_in_turn (F A B C D E : gset Z) :
  A ## F -> B ## A ∪ F -> C ## B ∪ (A ∪ F) -> D ## C ∪ (B ∪ (A ∪ F)) -> E ## D ∪ (C ∪ (B ∪ (A ∪ F))) ->
  let S := A ∪ B ∪ D ∪ E in
  E ∪ (D ∪ (C ∪ (B ∪ (A ∪ F)))) = S ∪ C ∪ F /\ S ## C /\ S ## F /\ C ## F.
Proof.
  rewrite !disjoint_union_r. intros H1 (H2 & H3) (H4 & H5 & H6) (H7 & H8 & H9 & H10) (H11 & H12 & H13 & H14 & H15).
  cbv zeta. split; [clear; set_solver|]. rewrite !disjoint_union_l. split_and!; done.
Qed.

(** What a constructed server owns. *)
Definition timer_fds (interval fd : Z) : gset Z := if interval <=? 0 then ∅ else fd_set fd.

Definition server_fds (h : ServerHandle) : gset Z :=
  fd_set (epoll_fd_ h) ∪ fd_set (listen_fd_ h) ∪ fd_set (command_fd h) ∪ io_fds (io_threads_ h).

Lemma new_server_spec config hardware ans p p' h :
  new_server config hardware ans p = Some (p', Returns h) ->
  let T := timer_fds (snapshot_interval_ms config) (snapshot_fd_ h) in
  open_fds p' = server_fds h ∪ T ∪ open_fds p
  /\ server_fds h ## T /\ server_fds h ## open_fds p /\ T ## open_fds p
  /\ length (io_threads_ h) = NumIoThreads hardware
  /\ Forall (fun t => clients t = []) (io_threads_ h)
  /\ (0 <= listen_fd_ h -> ports p' !! listen_fd_ h = Some (port_of (port config)))
  /\ (0 <= epoll_fd_ h -> 0 <= listen_fd_ h ->
      watched h = watched_fds (listen_fd_ h) (command_fd h) (snapshot_fd_ h)).
Proof.
  unfold new_server, server_fds. cbv zeta. intros H. apply bind_Some in H as (p1 & O1 & H). destruct (opened_fds _ _ _ O1) as (A1 & A2 & A3).
  apply bind_Some in H as ([lfd p2] & H2 & H). destruct (CreateListenSocket_spec _ _ _ _ _ _ _ H2) as (B1 & B2 & B3).
  apply bind_Some in H as (p3 & O3 & H). destruct (opened_timer_fds _ _ _ _ O3) as (C1 & C2 & C3). cbv zeta in C1, C2.
  destruct (CreateTimerIntervalFd _ _ _) as [[sfd per]|] eqn:Ht; [|done].
  assert ((if snapshot_interval_ms config <=? 0 then ∅ else fd_set (timer_result ans))
    = timer_fds (snapshot_interval_ms config) sfd) as ET.
  { unfold CreateTimerIntervalFd in Ht. unfold timer_fds. destruct (_ <=? 0); [done|].
    by repeat case_match; simplify_eq. }
  rewrite ET in C1, C2.
  apply bind_Some in H as (p4 & O4 & H). destruct (opened_fds _ _ _ O4) as (D1 & D2 & D3).
  apply bind_Some in H as ([ts p5] & H5 & H). destruct (make_io_threads_spec _ _ _ _ _ H5) as (E1 & E2 & E3 & E4 & E5).
  assert (p' = p5 /\ epoll_fd_ h = epoll_result ans /\ listen_fd_ h = lfd /\ snapshot_fd_ h = sfd
          /\ command_fd h = command_result ans /\ io_threads_ h = ts
          /\ (0 <= epoll_result ans -> 0 <= lfd -> watched h = watched_fds lfd (command_result ans) sfd))
    as (-> & -> & -> & -> & -> & -> & Hw).
  { destruct (_ || _) eqn:E; simplify_eq; (split_and!; [done..|]); [|done]. intros.
    apply orb_true_iff in E as [E|E]; reflect_bools; lia. }
  rewrite A1 in B1, B2. rewrite B1 in C1, C2. rewrite C1 in D1, D2.
  rewrite D1 in E1, E2. rewrite E1. destruct (opened_in_turn _ _ _ _ _ _ A2 B2 C2 D2 E2) as (-> & ? & ? & ?).
  split_and!; try done. intros Hl. rewrite E3, D3, C3. by apply B3.
Qed.

Lemma new_server_exits config hardware ans p p' status :
  new_server config hardware ans p = Some (p', Exits status) ->
  status = 1 /\ 0 < snapshot_interval_ms config.
Proof.
  unfold new_server. intros H. apply bind_Some in H as (p1 & _ & H). apply bind_Some in H as ([lfd p2] & _ & H).
  apply bind_Some in H as (p3 & _ & H). destruct (CreateTimerIntervalFd _ _ _) as [[sfd per]|] eqn:Ht.
  - apply bind_Some in H as (p4 & _ & H). apply bind_Some in H as ([ts p5] & _ & H). by destruct (_ || _).
  - injection H as <- <-. unfold CreateTimerIntervalFd in Ht.
    destruct (_ <=? 0) eqn:E; reflect_bools; [done|]. split; [|done]. by repeat case_match; simplify_eq.
Qed.

(** Destroying a server closes all it owns but the timer. *)
Lemma destroy_server_fds p h : Forall (fun t => clients t = []) (io_threads_ h) ->
  open_fds (destroy_server p h) = open_fds p ∖ server_fds h.
Proof.
  intros Hc. unfold destroy_server, server_fds.
  rewrite close_if_open_fds, destroy_io_threads_fds, !close_if_open_fds by done. set_solver.
Qed.

Section Runs.
Context {M : Type} {ops : MapOps bytes Entry M} {spec : MapSpec bytes Entry M}.

Lemma Run_fds (h : ServerHandle) p entries open_ok d (store : M) :
  open_fds (fst (Run h p entries open_ok d store)) = open_fds p
  /\ ports (fst (Run h p entries open_ok d store)) = ports p.
Proof. unfold Run. by repeat case_match. Qed.

Lemma Restore_decides entries open_ok d (store : M) : map_inv store ->
  exists store' b, Restore kSnapshotPrefix entries open_ok d store = (store', Ok b) /\ map_inv store'.
Proof.
  intros Hi. unfold Restore. destruct (LatestSnapshot _ _) as [path|]; [|by exists store, true].
  destruct (if open_ok then _ else _) as [f|]; [|by exists store, false].
  pose proof (DeserialiseFromJson_parsed store (data f)) as [Hs (l & Hl & _)].
  destruct (DeserialiseFromJson store (data f)) as [store' r]. cbn [fst snd] in *.
  assert (map_inv store') as Hi' by (subst; by apply insert_all_inv).
  destruct r as [[]|e| |]; try done; [by exists store', true|by exists store', false].
Qed.

Lemma Run_decides (h : ServerHandle) p entries open_ok d (store : M) : map_inv store ->
  exists r, snd (Run h p entries open_ok d store) = Ok r
  /\ match r with
     | Returned status => status = EXIT_FAILURE
     | Serving h' store' => 0 <= epoll_fd_ h /\ 0 <= listen_fd_ h /\ map_inv store'
         /\ h' = mkHandle (epoll_fd_ h) (listen_fd_ h) (snapshot_fd_ h) (command_fd h) (Start <$> io_threads_ h) (watched h)
         /\ Restore kSnapshotPrefix entries open_ok d store = (store', Ok true)
     end.
Proof.
  intros Hi. unfold Run. destruct (_ || _) eqn:E; [by eexists|]. apply orb_false_iff in E as [E1 E2]. reflect_bools.
  destruct (Restore_decides entries open_ok d store Hi) as (store' & [] & HR & Hi'); rewrite HR.
  - eexists. split; [done|]. split_and!; try done; lia.
  - by eexists.
Qed.

End Runs.

(** ** Theorems *)

Section Theorems.
Context {M : Type} {ops : MapOps bytes Entry M} {spec : MapSpec bytes Entry M}.

(** C9. The server starts completely or not at all.  Whatever the kernel
    answers and the directory contains, [main] ends with status 1 or gets to
    its loop.  If it ends and no timer was asked for, every descriptor it
    opened is closed again.  If it gets to its loop, it listens on the
    configured port (modulo 2^16), has one running IO thread per core but the
    first, watches its descriptors, and the newest snapshot was restored. *)
Theorem start_or_release config hardware ans entries open_ok d p p' (r : res (main_result M)) :
  main config hardware ans entries open_ok d p = Some (p', r) ->
  exists r', r = Ok r'
  /\ match r' with
     | Exited status =>
         status = EXIT_FAILURE /\ (snapshot_interval_ms config <= 0 -> open_fds p' = open_fds p)
     | Runs h store =>
         listen_fd_ h ∈ open_fds p' /\ ports p' !! listen_fd_ h = Some (port_of (port config))
         /\ watched h = watched_fds (listen_fd_ h) (command_fd h) (snapshot_fd_ h)
         /\ length (io_threads_ h) = NumIoThreads hardware
         /\ Forall (fun t => running_ t = true /\ joinable t = true) (io_threads_ h)
         /\ Restore kSnapshotPrefix entries open_ok d Store.init = (store, Ok true)
     end.
Proof.
  unfold main. intros H. apply bind_Some in H as ([p1 r1] & Hn & H).
  destruct r1 as [h|status].
  2: { injection H as <- <-. eexists. split; [done|]. apply new_server_exits in Hn as [-> Hi]. split; [done|lia]. }
  destruct (new_server_spec _ _ _ _ _ _ Hn) as (F1 & F2 & F3 & F4 & F5 & F6 & F7 & F8). cbv zeta in F1, F2, F4.
  destruct (Run_fds h p1 entries open_ok d (Store.init : M)) as [G1 G2].
  destruct (Run_decides h p1 entries open_ok d (Store.init : M) EmptyMap_inv) as (r1 & Hr & Hd).
  destruct (Run h p1 entries open_ok d Store.init) as [p2 r2]. cbn [fst snd] in *. subst r2.
  destruct r1 as [status|h' store].
  - injection H as <- <-. eexists. split; [done|]. split; [done|]. intros Hle.
    rewrite destroy_server_fds, G1, F1 by done. unfold timer_fds. rewrite (proj2 (Z.leb_le _ _)) by done.
    clear -F3. set_solver.
  - injection H as <- <-. eexists. split; [done|]. destruct Hd as (D1 & D2 & _ & -> & D3). cbn.
    rewrite G1, G2, F1. split_and!; [|by apply F7|by apply F8|by rewrite length_fmap| |done].
    + unfold server_fds, fd_set at 2. rewrite (proj2 (Z.leb_le 0 (listen_fd_ h))) by done. clear. set_solver.
    + apply Forall_fmap, Forall_true. done.
Qed.

Lemma store_after clock cap (store : M) a hardware cfd ifds ls s :
  represents store a -> sane_store a ->
  trun clock cap (threads_init store hardware cfd ifds) ls = Some s ->
  Forall request_safe (timed clock 0 (Threads.history s).*2) ->
  represents (store_ (Threads.main s)) (fst (exec_all a (timed clock 0 (Threads.history s).*2)))
  /\ sane_store (fst (exec_all a (timed clock 0 (Threads.history s).*2))).
Proof.
  intros Hr Ha Hrun Hsafe. destruct (init_clean store hardware cfd ifds) as [C0 A0].
  destruct (trun_refines clock cap ls _ _ C0 Hrun) as [_ [als R1]]. rewrite A0 in R1.
  pose proof (sessions clock store a hardware als (abs s) Hr Ha R1 Hsafe) as [H1 _]. split; [exact H1|].
  by destruct (serve_refines _ store a Hr Ha Hsafe) as (_ & _ & _ & ?).
Qed.

Lemma represents_fits (d : M) a : represents d a -> sane_store a -> deadlines_fit d.
Proof.
  intros [Hi ->] Ha k e He. specialize (Ha k). rewrite lookup_fmap, He in Ha. cbn in Ha.
  unfold view, view_deadline in Ha. destruct (expiry_ e =? NO_EXPIRY) eqn:E; reflect_bools; [by rewrite E|].
  destruct (Ha _ _ eq_refl). apply in_int64_spec. unfold int64_min, int64_max. lia.
Qed.

(** The system calls of the constructor succeed. *)
Definition start_ok (config : ServerConfig) (ans : start_answers) : Prop :=
  0 <= epoll_result ans /\ 0 <= socket_result ans /\ bind_result ans = 0 /\ listen_result ans = 0
  /\ (0 < snapshot_interval_ms config -> timer_result ans <> -1 /\ settime_result ans <> -1).

Lemma start_ok_fds config hardware ans p p' r : start_ok config ans ->
  new_server config hardware ans p = Some (p', r) ->
  exists h, r = Returns h /\ 0 <= epoll_fd_ h /\ 0 <= listen_fd_ h.
Proof.
  intros (O1 & O2 & O3 & O4 & O5) H. unfold new_server in H.
  apply bind_Some in H as (p1 & _ & H). apply bind_Some in H as ([lfd p2] & H2 & H).
  apply bind_Some in H as (p3 & _ & H).
  assert (lfd = socket_result ans) as ->.
  { unfold CreateListenSocket in H2. apply bind_Some in H2 as (q & _ & H2).
    rewrite (proj2 (Z.ltb_ge (socket_result ans) 0)), O3, O4 in H2 by done. by injection H2 as <- <-. }
  destruct (CreateTimerIntervalFd _ _ _) as [[sfd per]|] eqn:Ht.
  - apply bind_Some in H as (p4 & _ & H). apply bind_Some in H as ([ts p5] & _ & H).
    rewrite (proj2 (Z.ltb_ge (epoll_result ans) 0)), (proj2 (Z.ltb_ge (socket_result ans) 0)) in H by done.
    injection H as <- <-. by eexists.
  - exfalso. unfold CreateTimerIntervalFd in Ht. destruct (_ <=? 0) eqn:E; reflect_bools; [done|].
    destruct (O5 ltac:(lia)) as [N1 N2]. apply Z.eqb_neq in N1, N2. by rewrite N1, N2 in Ht.
Qed.

(** What [main] serves is what was restored. *)
Lemma main_restored config hardware ans entries open_ok d p p' h (store : M) :
  main config hardware ans entries open_ok d p = Some (p', Ok (Runs h store)) ->
  Restore kSnapshotPrefix entries open_ok d Store.init = (store, Ok true).
Proof.
  unfold main. intros H. apply bind_Some in H as ([p1 r1] & _ & H). destruct r1 as [h1|status]; [|done].
  destruct (Run_decides h1 p1 entries open_ok d (Store.init : M) EmptyMap_inv) as (r & Hr & Hd).
  destruct (Run h1 p1 entries open_ok d Store.init) as [p2 r2]. cbn [snd] in Hr. subst r2.
  destruct r as [status|h' store']; [done|]. injection H as -> <- <-. apply Hd.
Qed.

Lemma main_restores config hardware ans entries d p p' (r : res (main_result M)) (store' : M) :
  start_ok config ans -> main config hardware ans entries true d p = Some (p', r) ->
  Restore kSnapshotPrefix entries true d Store.init = (store', Ok true) ->
  exists h, r = Ok (Runs h store').
Proof.
  intros Hok Hmain HR. unfold main in Hmain. apply bind_Some in Hmain as ([p1 r1] & Hn & H).
  destruct (start_ok_fds _ _ _ _ _ _ Hok Hn) as (h & -> & Hep & Hli).
  unfold Run in H. rewrite (proj2 (Z.ltb_ge (epoll_fd_ h) 0)), (proj2 (Z.ltb_ge (listen_fd_ h) 0)) in H by done.
  cbn [orb] in H. rewrite HR in H. injection H as <- <-. by eexists.
Qed.

(** A restart loses nothing that was saved.  A server serves clients in
    any interleaving; a snapshot of its store is written; a new process starts
    in that directory.  Then the new process gets to its loop, and whatever its
    threads do there, its store is what the abstract store becomes when it
    executes the requests of the first process and then those of the second
    one after the other, as if there had been one process. *)
Theorem restart_is_transparent
    (* the first process *) clock cap (store : M) a hardware cfd ifds ls s
    (* its snapshot *) ans t old x entries
    (* the second process *) config hardware' ans' p p' (r : res (main_result M)) :
  represents store a -> sane_store a ->
  trun clock cap (threads_init store hardware cfd ifds) ls = Some s ->
  let first := timed clock 0 (Threads.history s).*2 in
  Forall request_safe first ->
  in_int64 t = true -> 0 <= t -> mkstemp_name ans = Some (tmp_name x) -> old !! tmp_name x = None ->
  answers_ok ans (length (SerialiseToJson (store_ (Threads.main s)))) ->
  let path := snapshot_name kSnapshotPrefix t in
  (path, true) ∈ entries ->
  (forall n t', candidate kSnapshotPrefix entries n t' -> n <> path -> t' < t) ->
  let d := fst (Snapshot kSnapshotPrefix ans (store_ (Threads.main s)) t (mkDisk old [])) in
  start_ok config ans' -> main config hardware' ans' entries true d p = Some (p', r) ->
  exists h store', r = Ok (Runs h store')
  /\ forall clock' cap' ls' s',
       trun clock' cap' (serving_threads h hardware' store') ls' = Some s' ->
       let second := timed clock' 0 (Threads.history s').*2 in
       Forall request_safe second ->
       represents (store_ (Threads.main s')) (fst (exec_all a (first ++ second))).
Proof.
  intros Hr Ha Hrun first Hsafe Ht Ht0 Hm Hold Hans path Hin Hnew d Hok Hmain.
  destruct (store_after _ _ _ _ _ _ _ _ _ Hr Ha Hrun Hsafe) as [Hr1 Ha1]. fold first in Hr1, Ha1.
  destruct (snapshot_restored ans (store_ (Threads.main s)) t old x entries (proj1 Hr1)
              (represents_fits _ _ Hr1 Ha1) Ht Ht0 Hm Hold Hans Hin Hnew) as (hist & d' & Hs & HR & Hi' & Habs').
  assert (represents d' (fst (exec_all a first))) as Hr'.
  { split; [done|]. rewrite Habs'. apply Hr1. }
  destruct (main_restores _ _ _ _ _ _ _ _ d' Hok Hmain) as [h ->]; [unfold d; by rewrite Hs|].
  exists h, d'. split; [done|]. intros clock' cap' ls' s' Hrun' second Hsafe'.
  unfold serving_threads in Hrun'. rewrite exec_all_app. cbn [fst].
  by destruct (store_after _ _ _ _ _ _ _ _ _ Hr' Ha1 Hrun' Hsafe').
Qed.

End Theorems.

(** *** Witnesses, on [StandardMap] *)

#[local] Existing Instance std_ops.
#[local] Existing Instance std_spec.

Definition shell : process := mkProcess {[0; 1; 2]} ∅ [].

Definition sample_start : start_answers := mkStart 3 4 0 0 (-1) 0 5 (fun i => (6 + 2 * Z.of_nat i, 7 + 2 * Z.of_nat i)).

(** Port in use. *)
Definition refused_start : start_answers := mkStart 3 4 (-1) 0 (-1) 0 5 (fun i => (6 + 2 * Z.of_nat i, 7 + 2 * Z.of_nat i)).

#[local] Abbreviation refused :=
  (main (mkConfig 6379 0) 2 refused_start [] true (mkDisk ∅ []) shell
    : option (process * res (main_result (gmap bytes Entry)))).

Lemma start_or_release_witness :
  exists p' r, refused = Some (p', Ok r)
  /\ match r with
     | Exited status => status = EXIT_FAILURE /\ (0 <= 0 -> open_fds p' = {[0; 1; 2]})
     | Runs _ _ => True
     end.
Proof.
  destruct (checked_some refused (fun _ => true)) as ([p' r] & E & _); [vm_compute; reflexivity|].
  destruct (start_or_release (mkConfig 6379 0) 2 refused_start [] true (mkDisk ∅ []) shell p' r E)
    as (r' & -> & H).
  exists p', r'. split; [exact E|]. destruct r' as [status|h st]; [exact H|exact I].
Defined.

(** One client stores a key; the process is stopped after the snapshot. *)
Definition store_moves : list move :=
  connect_moves 5 ++ IoWake 0 [RSocket 5 false true false]
  :: [Io 0 ([Serialize (words ["SET"; "k"; "v"])], RecvError EAGAIN) []; io_go; io_go] ++ serve_moves.

#[local] Abbreviation first_process :=
  (trun (fun _ => 100) kQueueCapacity (threads_init (∅ : gmap bytes Entry) 1 3 (fun _ => 4)) store_moves).

Definition second_process (s : state (gmap bytes Entry)) : option (process * res (main_result (gmap bytes Entry))) :=
  main (mkConfig 6379 0) 2 sample_start [(snapshot_name kSnapshotPrefix 12, true)] true
    (fst (Snapshot kSnapshotPrefix good_answers (store_ (Threads.main s)) 12 (mkDisk ∅ []))) shell.

Definition saved_bytes (s : state (gmap bytes Entry)) : nat := length (SerialiseToJson (store_ (Threads.main s))).

Lemma restart_is_transparent_witness :
  exists s p' h store', first_process = Some s /\ Threads.history s = [(5, words ["SET"; "k"; "v"])]
  /\ second_process s = Some (p', Ok (Runs h store'))
  /\ forall clock' cap' ls' s',
       trun clock' cap' (serving_threads h 2 store') ls' = Some s' ->
       Forall request_safe (timed clock' 0 (Threads.history s').*2) ->
       represents (store_ (Threads.main s'))
         (fst (exec_all ∅ ((100, words ["SET"; "k"; "v"]) :: timed clock' 0 (Threads.history s').*2))).
Proof.
  destruct (checked_some first_process (fun s =>
    bool_decide (Threads.history s = [(5, words ["SET"; "k"; "v"])]) && (saved_bytes s =? 31)%nat
    && match second_process s with Some _ => true | None => false end)) as (s & E & H).
  { vm_compute. reflexivity. }
  apply andb_true_iff in H as [H H2]. apply andb_true_iff in H as [Hh%bool_decide_eq_true Hw%Nat.eqb_eq].
  destruct (second_process s) as [[p' r]|] eqn:E2; [|discriminate H2].
  destruct (restart_is_transparent (fun _ => 100) kQueueCapacity (∅ : gmap bytes Entry) ∅ 1 3 (fun _ => 4)
    store_moves s good_answers 12 ∅ (lit "Ab3") [(snapshot_name kSnapshotPrefix 12, true)]
    (mkConfig 6379 0) 2 sample_start shell p' r) as (h & store' & -> & Hall).
  - split; [exact I|reflexivity].
  - exact empty_sane.
  - exact E.
  - rewrite Hh. apply Forall_cons_2; [|apply Forall_nil_2]. split; [cbn; lia|exact I].
  - reflexivity.
  - lia.
  - reflexivity.
  - reflexivity.
  - fold (saved_bytes s). rewrite Hw. split_and!; [vm_compute; exact I|reflexivity..].
  - left.
  - intros n t [Hin _] Hne. apply list_elem_of_singleton in Hin.
    exfalso. apply Hne. exact (f_equal fst Hin).
  - clear. split_and!; [cbn; lia..|]. cbn. lia.
  - exact E2.
  - exists s, p', h, store'. split_and!; [exact E|exact Hh|exact E2|]. intros clock' cap' ls' s' Hr Hs.
    specialize (Hall clock' cap' ls' s' Hr Hs). rewrite Hh in Hall. exact Hall.
Defined.
