(* ===== verification/FileSystem.v ===== *)
(** * Snapshot children and the file system they share

    [v2/src/snapshot/snapshotter.cc] as a process among others.  Every tick of
    the snapshot timer forks a child, and nothing keeps a second child from
    being forked while the first is still writing, so several of them can work
    in the directory at once.  Here a child is a program counter that advances
    by one system call at a time, on a file system with inodes: a descriptor
    names an inode, a directory entry names an inode, and a name that is
    removed leaves the descriptor valid.

    The directory is kept with the states it has been in since it was last
    forced to the device: after a power loss each name may be found as any of
    them had it, and a file that was not forced may hold anything.

    A child that runs alone does what [DurableWrite] of Snapshotter does. *)

From S2P Require Import Prelude CxxString MapInterface Serialise Store StoreJson Snapshotter.

(** ** The file system *)

Record filesystem := mkFs {
  inodes : list file;  (** by inode number *)
  names : gmap bytes nat;  (** the directory *)
  earlier : list (gmap bytes nat)  (** its states since it was last forced, newest first *)
}.

(** What the directory may be on the device. *)
Definition possible (fs : filesystem) : list (gmap bytes nat) := names fs :: earlier fs.

(** The files as a process sees them. *)
Definition contents (fs : filesystem) : directory := omap (fun i => inodes fs !! i) (names fs).

Definition set_names (fs : filesystem) (m : gmap bytes nat) : filesystem :=
  mkFs (inodes fs) m (possible fs).

Definition set_inode (fs : filesystem) (i : nat) (f : file) : filesystem :=
  mkFs (<[i := f]> (inodes fs)) (names fs) (earlier fs).

(** [mkstemp], once it has found a name that is free. *)
Definition create (fs : filesystem) (name : bytes) : filesystem :=
  mkFs (inodes fs ++ [mkFile [] false]) (<[name := length (inodes fs)]> (names fs)) (possible fs).

Definition append (fs : filesystem) (fd : nat) (b : bytes) : filesystem :=
  match inodes fs !! fd with
  | Some f => set_inode fs fd (mkFile (data f ++ b) false)
  | None => fs
  end.

Definition fsync_file (fs : filesystem) (fd : nat) : filesystem :=
  match inodes fs !! fd with
  | Some f => set_inode fs fd (mkFile (data f) true)
  | None => fs
  end.

(** [rename] fails when the old name does not exist. *)
Definition rename (fs : filesystem) (old new : bytes) : option filesystem :=
  i ← names fs !! old;
  Some (set_names fs (<[new := i]> (delete old (names fs)))).

Definition unlink (fs : filesystem) (name : bytes) : filesystem :=
  set_names fs (delete name (names fs)).

Definition fsync_directory (fs : filesystem) : filesystem := mkFs (inodes fs) (names fs) [].

(** What a power loss may leave. *)
Record survives (fs fs' : filesystem) : Prop := {
  survive_names : forall n, exists m, m ∈ possible fs /\ names fs' !! n = m !! n;
  survive_data : forall i f, inodes fs !! i = Some f -> durable f = true -> inodes fs' !! i = Some f
}.

(** ** A child *)

(** The local variables of [DurableWrite]; [output_path] is given by the time
    stamp in it. *)
Record writer := mkWriter {
  stamp : Z;
  output : bytes;
  tmp_file : bytes;
  temp_fd : nat
}.

Definition output_path (w : writer) : bytes := snapshot_name kSnapshotPrefix (stamp w).

(** The next thing a child does: serialise the store and read the clock, or a
    system call of [DurableWrite]; [AtUnlink] is its exception handler.  [Done]
    is [_exit(0)], [Aborted] the end of the process by the exception. *)
Inductive child_pc :=
| AtSerialise
| AtMkstemp (timestamp : Z) (json : bytes)
| AtWrite (w : writer) (left_bytes : bytes)
| AtFsync (w : writer)
| AtClose (w : writer)
| AtRename (w : writer)
| AtOpenDir (w : writer)
| AtFsyncDir (w : writer)
| AtCloseDir (w : writer)
| AtUnlink (w : writer)
| Done (w : writer)
| Aborted (timestamp : option Z).

(** What the clock and the kernel answer. *)
Inductive answer :=
| Stamped (t : Z)
| Mkstemp (name : option bytes)
| Wrote (r : write_result)
| Returned (ok : bool).

(** [while (left > 0)]: the state at the head of the loop. *)
Definition loop_head (w : writer) (left_bytes : bytes) : child_pc :=
  match left_bytes with [] => AtFsync w | _ => AtWrite w left_bytes end.

(** A call that must not fail: on failure the handler runs. *)
Definition checked (ok : bool) (w : writer) (fs fs' : filesystem) (next : child_pc)
    : filesystem * child_pc :=
  if ok then (fs', next) else (fs, AtUnlink w).

Section Child.
Context {M : Type} {ops : MapOps bytes Entry M}.

(** One step.  [None]: the answer does not fit, the clock is before 1970, or
    the name from [mkstemp] is taken (it promises a name that is not in the
    directory, no more), is not made from the template, or the old name of a
    successful [rename] does not exist. *)
Definition child_step (memory : M) (fs : filesystem) (p : child_pc) (a : answer)
    : option (filesystem * child_pc) :=
  match p, a with
  | AtSerialise, Stamped t =>
      if in_int64 t && (0 <=? t) then Some (fs, AtMkstemp t (SerialiseToJson memory)) else None
  | AtMkstemp t json, Mkstemp None => Some (fs, Aborted (Some t))
  | AtMkstemp t json, Mkstemp (Some x) =>
      match names fs !! tmp_name x with
      | Some _ => None
      | None =>
          let w := mkWriter t json (tmp_name x) (length (inodes fs)) in
          Some (create fs (tmp_name x), loop_head w json)
      end
  | AtWrite w left_bytes, Wrote (WroteCount n) =>
      Some (append fs (temp_fd w) (take n left_bytes), loop_head w (drop n left_bytes))
  | AtWrite w left_bytes, Wrote WriteInterrupted => Some (fs, AtWrite w left_bytes)
  | AtWrite w left_bytes, Wrote WriteFailed => Some (fs, AtUnlink w)
  | AtFsync w, Returned ok => Some (checked ok w fs (fsync_file fs (temp_fd w)) (AtClose w))
  | AtClose w, Returned ok => Some (checked ok w fs fs (AtRename w))
  | AtRename w, Returned false => Some (fs, AtUnlink w)
  | AtRename w, Returned true =>
      fs' ← rename fs (tmp_file w) (output_path w);
      Some (fs', AtOpenDir w)
  | AtOpenDir w, Returned ok => Some (checked ok w fs fs (AtFsyncDir w))
  | AtFsyncDir w, Returned ok => Some (checked ok w fs (fsync_directory fs) (AtCloseDir w))
  | AtCloseDir w, Returned ok => Some (checked ok w fs fs (Done w))
  | AtUnlink w, Returned ok =>
      Some (if ok then unlink fs (tmp_file w) else fs, Aborted (Some (stamp w)))
  | _, _ => None
  end.

Fixpoint run_child (memory : M) (fs : filesystem) (p : child_pc) (l : list answer)
    : option (filesystem * child_pc) :=
  match l with
  | [] => Some (fs, p)
  | a :: l => '(fs, p) ← child_step memory fs p a; run_child memory fs p l
  end.

End Child.

Definition finished (p : child_pc) : bool :=
  match p with Done _ | Aborted _ => true | _ => false end.

(** ** What one step leaves alone *)

(** Seen from outside, a step of the child whose temporary file is [x], with
    inode [i], changes no other file: names that are not those of snapshots
    stay, so do inodes, names of snapshots do not go away, and what is possible
    on the device was possible before or is the present directory. *)
Record step_frame (x : bytes) (i : nat) (fs fs' : filesystem) : Prop := {
  frame_names : forall n, n <> x -> snapshot_timestamp kSnapshotPrefix n = None ->
    names fs' !! n = names fs !! n;
  frame_inodes : forall j f, j <> i -> inodes fs !! j = Some f -> inodes fs' !! j = Some f;
  frame_kept : forall n t, snapshot_timestamp kSnapshotPrefix n = Some t ->
    is_Some (names fs !! n) -> is_Some (names fs' !! n);
  frame_possible : forall m, m ∈ possible fs' -> m = names fs' \/ m ∈ possible fs
}.

Ltac fs_cbn := cbn [names inodes set_names create unlink set_inode fsync_directory].

Lemma step_frame_refl x i fs : step_frame x i fs fs.
Proof. split; try done. by right. Qed.

Lemma tmp_name_not_snapshot x : snapshot_timestamp kSnapshotPrefix (tmp_name x) = None.
Proof. done. Qed.

Lemma snapshot_not_tmp n t x : snapshot_timestamp kSnapshotPrefix n = Some t -> n <> tmp_name x.
Proof. intros H ->. done. Qed.

#[local] Hint Resolve step_frame_refl : core.

Lemma create_frame fs x : step_frame (tmp_name x) (length (inodes fs)) fs (create fs (tmp_name x)).
Proof.
  split; fs_cbn.
  - intros n Hn _. by rewrite lookup_insert_ne.
  - intros j f _ Hj. by apply lookup_app_l_Some.
  - intros n t Hn Hs. rewrite lookup_insert_ne; [done|]. intros <-. done.
  - intros m Hm. by apply elem_of_cons in Hm.
Qed.

Lemma set_inode_frame fs x i f : step_frame x i fs (set_inode fs i f).
Proof. split; fs_cbn; try done; [|by right]. intros j g Hj Hg. by rewrite list_lookup_insert_ne. Qed.

Lemma append_frame fs x i b : step_frame x i fs (append fs i b).
Proof. unfold append. destruct (inodes fs !! i); [apply set_inode_frame|done]. Qed.

Lemma fsync_file_frame fs x i : step_frame x i fs (fsync_file fs i).
Proof. unfold fsync_file. destruct (inodes fs !! i); [apply set_inode_frame|done]. Qed.

Lemma rename_frame fs x new t i fs' :
  snapshot_timestamp kSnapshotPrefix new = Some t -> rename fs (tmp_name x) new = Some fs' ->
  step_frame (tmp_name x) i fs fs'.
Proof.
  intros Ht H. unfold rename in H. apply bind_Some in H as (j & Hj & [= <-]). split; fs_cbn.
  - intros n Hn Hs. rewrite lookup_insert_ne by congruence. by rewrite lookup_delete_ne.
  - done.
  - intros n t' Hn Hs. destruct (decide (n = new)) as [->|]; [by rewrite lookup_insert_eq|].
    rewrite lookup_insert_ne, lookup_delete_ne; [done|intros <-; done|done].
  - intros m Hm. by apply elem_of_cons in Hm.
Qed.

Lemma unlink_frame fs x i : step_frame (tmp_name x) i fs (unlink fs (tmp_name x)).
Proof.
  split; fs_cbn.
  - intros n Hn _. by rewrite lookup_delete_ne.
  - done.
  - intros n t Hn Hs. rewrite lookup_delete_ne; [done|]. intros <-. done.
  - intros m Hm. by apply elem_of_cons in Hm.
Qed.

Lemma fsync_directory_frame fs x i : step_frame x i fs (fsync_directory fs).
Proof. split; fs_cbn; try done. intros m Hm. apply list_elem_of_singleton in Hm. by left. Qed.

(** ** The invariant of the children *)

(** The temporary file of a child, while it may still use the name, and its
    inode, while it may still write to it. *)
Definition writer_of (p : child_pc) : option writer :=
  match p with
  | AtWrite w _ | AtFsync w | AtClose w | AtRename w | AtOpenDir w | AtFsyncDir w
  | AtCloseDir w | AtUnlink w => Some w
  | _ => None
  end.

Definition owner_of (p : child_pc) : option writer :=
  match p with
  | AtWrite w _ | AtFsync w | AtClose w | AtRename w => Some w
  | _ => None
  end.

Definition stamp_of (p : child_pc) : option Z :=
  match p with
  | AtSerialise => None
  | AtMkstemp t _ => Some t
  | Done w => Some (stamp w)
  | Aborted t => t
  | _ => stamp <$> writer_of p
  end.

Section Invariant.
Context {M : Type} {ops : MapOps bytes Entry M}.

(** A child: its process id, how many requests the server had executed when it
    was forked, and its copy of the store. *)
Record child := mkChild {
  pid : Z;
  moment : nat;
  memory : M;
  pc : child_pc
}.

Definition with_pc (c : child) (p : child_pc) : child := mkChild (pid c) (moment c) (memory c) p.

Definition stamp_ok (t : Z) : Prop := in_int64 t = true /\ 0 <= t.

Definition writer_ok (c : child) (w : writer) : Prop :=
  output w = SerialiseToJson (memory c) /\ stamp_ok (stamp w) /\ exists x, tmp_file w = tmp_name x.

Definition holds (fs : filesystem) (w : writer) (P : file -> Prop) : Prop :=
  names fs !! tmp_file w = Some (temp_fd w) /\ exists f, inodes fs !! temp_fd w = Some f /\ P f.

(** What is true of the file system where a child is. *)
Definition child_ok (fs : filesystem) (c : child) : Prop :=
  match pc c with
  | AtSerialise => True
  | AtMkstemp t json => json = SerialiseToJson (memory c) /\ stamp_ok t
  | AtWrite w left_bytes => writer_ok c w /\ holds fs w (fun f => data f ++ left_bytes = output w)
  | AtFsync w => writer_ok c w /\ holds fs w (fun f => data f = output w)
  | AtClose w | AtRename w => writer_ok c w /\ holds fs w (fun f => f = mkFile (output w) true)
  | AtOpenDir w | AtFsyncDir w => writer_ok c w /\ is_Some (names fs !! output_path w)
  | AtCloseDir w | Done w => writer_ok c w /\ forall m, m ∈ possible fs -> is_Some (m !! output_path w)
  | AtUnlink w => writer_ok c w
  | Aborted _ => True
  end.

(** Two children do not share a temporary file. *)
Definition apart (c c' : child) : Prop :=
  (forall w w', writer_of (pc c) = Some w -> writer_of (pc c') = Some w' -> tmp_file w <> tmp_file w')
  /\ (forall w w', owner_of (pc c) = Some w -> owner_of (pc c') = Some w' -> temp_fd w <> temp_fd w').

(** A snapshot in the directory: it was there before, or a child wrote it. *)
Definition good (old : directory) (cs : list child) (n : bytes) (f : file) : Prop :=
  old !! n = Some f
  \/ exists c t, c ∈ cs /\ stamp_of (pc c) = Some t /\ stamp_ok t
       /\ n = snapshot_name kSnapshotPrefix t /\ f = mkFile (SerialiseToJson (memory c)) true.

Record fs_inv (old : directory) (used : list bytes) (fs : filesystem) (cs : list child) : Prop := {
  inv_children : forall c, c ∈ cs -> child_ok fs c;
  inv_apart : forall i j c c', i <> j -> cs !! i = Some c -> cs !! j = Some c' -> apart c c';
  inv_used : forall c w, c ∈ cs -> writer_of (pc c) = Some w -> tmp_file w ∈ used;
  inv_good : forall m n t i, m ∈ possible fs -> snapshot_timestamp kSnapshotPrefix n = Some t ->
    m !! n = Some i -> exists f, inodes fs !! i = Some f /\ durable f = true /\ good old cs n f
      /\ forall c w, c ∈ cs -> owner_of (pc c) = Some w -> temp_fd w <> i;
  inv_old : forall m n t, m ∈ possible fs -> snapshot_timestamp kSnapshotPrefix n = Some t ->
    is_Some (old !! n) -> is_Some (m !! n)
}.

Lemma path_is_snapshot t : stamp_ok t ->
  snapshot_timestamp kSnapshotPrefix (snapshot_name kSnapshotPrefix t) = Some t.
Proof. intros [H _]. by apply snapshot_name_timestamp. Qed.

Lemma frame_all x i fs fs' n t : step_frame x i fs fs' ->
  snapshot_timestamp kSnapshotPrefix n = Some t ->
  (forall m, m ∈ possible fs -> is_Some (m !! n)) -> forall m, m ∈ possible fs' -> is_Some (m !! n).
Proof.
  intros HF Hn H m Hm. destruct (frame_possible _ _ _ _ HF m Hm) as [->|]; [|by apply H].
  eapply frame_kept; [done..|]. apply H. apply elem_of_cons. by left.
Qed.

Lemma holds_frame x i fs fs' w P : step_frame x i fs fs' -> (exists y, tmp_file w = tmp_name y) ->
  tmp_file w <> x -> temp_fd w <> i -> holds fs w P -> holds fs' w P.
Proof.
  intros HF [y Hy] Hx Hi [H1 (f & H2 & H3)]. split.
  - rewrite (frame_names _ _ _ _ HF); [done|done|]. by rewrite Hy.
  - exists f. split; [|done]. by eapply frame_inodes.
Qed.

(** A step of another child does not disturb this one. *)
Lemma child_ok_frame x i fs fs' c : step_frame x i fs fs' ->
  (forall w, writer_of (pc c) = Some w -> tmp_file w <> x) ->
  (forall w, owner_of (pc c) = Some w -> temp_fd w <> i) ->
  child_ok fs c -> child_ok fs' c.
Proof.
  intros HF Hx Hi. unfold child_ok. destruct (pc c) as [|t json|w l|w|w|w|w|w|w|w|w|t]; cbn in *; try done;
    intros [Hw H]; (split; [done|]);
    try (eapply holds_frame; [done|apply Hw|by apply Hx|by apply Hi|done]).
  - eapply frame_kept; [done|apply path_is_snapshot, Hw|done].
  - eapply frame_kept; [done|apply path_is_snapshot, Hw|done].
  - eapply frame_all; [done|apply path_is_snapshot, Hw|done].
  - eapply frame_all; [done|apply path_is_snapshot, Hw|done].
Qed.

(** What a step does, from the point of view of its own child. *)
Record step_effect (c : child) (a : answer) (fs fs' : filesystem) (p' : child_pc) : Prop := {
  effect_frame : fs' = fs \/ exists x k, step_frame x k fs fs'
    /\ ((exists w, writer_of (pc c) = Some w /\ tmp_file w = x) \/ (exists y, a = Mkstemp (Some y) /\ x = tmp_name y))
    /\ ((exists w, owner_of (pc c) = Some w /\ temp_fd w = k) \/ k = length (inodes fs));
  effect_own : child_ok fs' (with_pc c p');
  effect_writer : forall w', writer_of p' = Some w' ->
    (exists w, writer_of (pc c) = Some w /\ tmp_file w = tmp_file w')
    \/ (exists y, a = Mkstemp (Some y) /\ tmp_file w' = tmp_name y);
  effect_owner : forall w', owner_of p' = Some w' ->
    (exists w, owner_of (pc c) = Some w /\ temp_fd w = temp_fd w') \/ temp_fd w' = length (inodes fs);
  effect_stamp : forall t, stamp_of (pc c) = Some t -> stamp_of p' = Some t;
  effect_possible : forall m n t i, m ∈ possible fs' -> snapshot_timestamp kSnapshotPrefix n = Some t ->
    m !! n = Some i ->
    (exists m0, m0 ∈ possible fs /\ m0 !! n = Some i)
    \/ (exists w, pc c = AtRename w /\ p' = AtOpenDir w /\ n = output_path w /\ i = temp_fd w
          /\ inodes fs' = inodes fs)
}.

(** A step that leaves the file system as it is. *)
Lemma quiet_effect c a fs p' : child_ok fs (with_pc c p') ->
  (forall w, writer_of p' = Some w -> writer_of (pc c) = Some w) ->
  (forall w, owner_of p' = Some w -> owner_of (pc c) = Some w) ->
  (forall t, stamp_of (pc c) = Some t -> stamp_of p' = Some t) ->
  step_effect c a fs fs p'.
Proof. intros H1 H2 H3 H4. split; try done; naive_solver. Qed.

(** A step that changes names and inodes but adds no snapshot. *)
Lemma busy_effect c a fs fs' p' x k : step_frame x k fs fs' ->
  (exists w, writer_of (pc c) = Some w /\ tmp_file w = x) \/ (exists y, a = Mkstemp (Some y) /\ x = tmp_name y) ->
  (exists w, owner_of (pc c) = Some w /\ temp_fd w = k) \/ k = length (inodes fs) ->
  (forall w, writer_of p' = Some w -> tmp_file w = x) ->
  (forall w, owner_of p' = Some w -> temp_fd w = k) ->
  child_ok fs' (with_pc c p') ->
  (forall t, stamp_of (pc c) = Some t -> stamp_of p' = Some t) ->
  (forall n t, snapshot_timestamp kSnapshotPrefix n = Some t -> names fs' !! n = names fs !! n) ->
  step_effect c a fs fs' p'.
Proof.
  intros HF Hx Hk Hw Ho Hc Ht Hn. split; try done.
  - right. by exists x, k.
  - intros w' Hw'. apply Hw in Hw'. subst x. naive_solver.
  - intros w' Hw'. apply Ho in Hw'. subst k. naive_solver.
  - intros m n t i Hm Hts Hi. left. destruct (frame_possible _ _ _ _ HF m Hm) as [->|]; [|by exists m].
    exists (names fs). rewrite <- (Hn n t Hts). split; [|done]. apply elem_of_cons. by left.
Qed.

Lemma loop_head_owner w l : owner_of (loop_head w l) = Some w /\ writer_of (loop_head w l) = Some w
  /\ stamp_of (loop_head w l) = Some (stamp w).
Proof. by destruct l. Qed.

Lemma loop_head_ok c fs w l : writer_ok c w -> holds fs w (fun f => data f ++ l = output w) ->
  child_ok fs (with_pc c (loop_head w l)).
Proof.
  intros Hw Hh. destruct l; cbn; [|done]. split; [done|].
  destruct Hh as [H1 (f & H2 & H3)]. split; [done|]. exists f. by rewrite app_nil_r in H3.
Qed.

Lemma holds_set_inode fs w f g (P Q : file -> Prop) : holds fs w P ->
  inodes fs !! temp_fd w = Some f -> Q g -> holds (set_inode fs (temp_fd w) g) w Q.
Proof.
  intros [H1 _] Hf Hg. split; [done|]. exists g. split; [|done]. cbn.
  apply list_lookup_insert_eq. by eapply lookup_lt_Some.
Qed.

Lemma mkstemp_effect c fs t x : child_ok fs c -> pc c = AtMkstemp t (SerialiseToJson (memory c)) ->
  stamp_ok t ->
  let w := mkWriter t (SerialiseToJson (memory c)) (tmp_name x) (length (inodes fs)) in
  step_effect c (Mkstemp (Some x)) fs (create fs (tmp_name x)) (loop_head w (output w)).
Proof.
  intros Hc Hpc Ht w. destruct (loop_head_owner w (output w)) as (L1 & L2 & L3).
  eapply (busy_effect _ _ _ _ _ (tmp_name x) (length (inodes fs))); [apply create_frame|..].
  - right. by exists x.
  - by right.
  - intros w'. rewrite L2. by intros [= <-].
  - intros w'. rewrite L1. by intros [= <-].
  - apply loop_head_ok; [by split; [|split; [|exists x]]|]. split; [apply lookup_insert_eq|].
    exists (mkFile [] false). split; [|done]. cbn. by apply list_lookup_middle.
  - rewrite Hpc, L3. by intros t' [= <-].
  - intros n t' Hn. cbn [names create]. apply lookup_insert_ne. intros <-. done.
Qed.

Lemma write_effect c fs w l n : child_ok fs c -> pc c = AtWrite w l ->
  step_effect c (Wrote (WroteCount n)) fs (append fs (temp_fd w) (take n l)) (loop_head w (drop n l)).
Proof.
  intros Hc Hpc. unfold child_ok in Hc. rewrite Hpc in Hc. destruct Hc as [Hw Hh].
  destruct (loop_head_owner w (drop n l)) as (L1 & L2 & L3).
  eapply (busy_effect _ _ _ _ _ (tmp_file w) (temp_fd w)); [apply append_frame|..]; rewrite ?Hpc.
  - left. by exists w.
  - left. by exists w.
  - intros w'. rewrite L2. by intros [= <-].
  - intros w'. rewrite L1. by intros [= <-].
  - apply loop_head_ok; [done|]. unfold append. pose proof Hh as [H1 (f & Hf & Hd)]. rewrite Hf.
    eapply holds_set_inode; [exact Hh|done|]. cbn. by rewrite <- app_assoc, take_drop.
  - rewrite L3. by intros t' [= <-].
  - intros m t' _. unfold append. by destruct (inodes fs !! temp_fd w).
Qed.

Lemma fsync_effect c fs w a : child_ok fs c -> pc c = AtFsync w ->
  step_effect c a fs (fsync_file fs (temp_fd w)) (AtClose w).
Proof.
  intros Hc Hpc. unfold child_ok in Hc. rewrite Hpc in Hc. destruct Hc as [Hw Hh].
  eapply (busy_effect _ _ _ _ _ (tmp_file w) (temp_fd w)); [apply fsync_file_frame|..]; rewrite ?Hpc.
  - left. by exists w.
  - left. by exists w.
  - by intros w' [= <-].
  - by intros w' [= <-].
  - cbn. split; [done|]. unfold fsync_file. pose proof Hh as [H1 (f & Hf & Hd)]. rewrite Hf.
    eapply holds_set_inode; [exact Hh|done|]. cbn. by rewrite Hd.
  - done.
  - intros m t' _. unfold fsync_file. by destruct (inodes fs !! temp_fd w).
Qed.

Lemma rename_effect c fs w a fs' : child_ok fs c -> pc c = AtRename w ->
  rename fs (tmp_file w) (output_path w) = Some fs' -> step_effect c a fs fs' (AtOpenDir w).
Proof.
  intros Hc Hpc Hr. unfold child_ok in Hc. rewrite Hpc in Hc. destruct Hc as [Hw [Hn _]].
  destruct Hw as (Hout & Hst & [x Hx]). pose proof (path_is_snapshot _ Hst) as Hp. rewrite Hx in Hr.
  pose proof (rename_frame fs x _ _ (length (inodes fs)) fs' Hp Hr) as HF.
  unfold rename in Hr. rewrite <- Hx, Hn in Hr. injection Hr as <-. split; rewrite ?Hpc; try done.
  - right. exists (tmp_name x), (length (inodes fs)). split; [done|]. split; [|by right]. left. by exists w.
  - cbn. split; [by split; [|split; [|exists x]]|]. by rewrite lookup_insert_eq.
  - intros w' [= <-]. left. by exists w.
  - intros m n t i Hm Hts Hi. apply elem_of_cons in Hm as [->|Hm]; [|by left; exists m].
    cbn [names set_names] in Hi. destruct (decide (n = output_path w)) as [->|Hne].
    + right. exists w. rewrite lookup_insert_eq in Hi. by injection Hi as <-.
    + left. exists (names fs). rewrite lookup_insert_ne in Hi by done. apply lookup_delete_Some in Hi as [_ Hi].
      split; [|done]. apply elem_of_cons. by left.
Qed.

Lemma fsync_directory_effect c fs w a : child_ok fs c -> pc c = AtFsyncDir w ->
  step_effect c a fs (fsync_directory fs) (AtCloseDir w).
Proof.
  intros Hc Hpc. unfold child_ok in Hc. rewrite Hpc in Hc. destruct Hc as [Hw Hs].
  eapply (busy_effect _ _ _ _ _ (tmp_file w) (length (inodes fs))); [apply fsync_directory_frame|..]; rewrite ?Hpc; try done.
  - left. by exists w.
  - by right.
  - by intros w' [= <-].
  - split; [done|]. intros m Hm. by apply list_elem_of_singleton in Hm as ->.
Qed.

Lemma unlink_effect c fs w a : child_ok fs c -> pc c = AtUnlink w ->
  step_effect c a fs (unlink fs (tmp_file w)) (Aborted (Some (stamp w))).
Proof.
  intros Hc Hpc. unfold child_ok in Hc. rewrite Hpc in Hc. destruct Hc as (Hout & Hst & [x Hx]).
  eapply (busy_effect _ _ _ _ _ (tmp_file w) (length (inodes fs))); rewrite ?Hpc; try done.
  - rewrite Hx. apply unlink_frame.
  - left. by exists w.
  - by right.
  - intros n t' Hn. cbn [names unlink set_names]. apply lookup_delete_ne. rewrite Hx. intros <-. done.
Qed.

Lemma child_step_effect c a fs fs' p' : child_ok fs c ->
  child_step (memory c) fs (pc c) a = Some (fs', p') -> step_effect c a fs fs' p'.
Proof.
  intros Hc H. pose proof Hc as Hc'. unfold child_ok in Hc'.
  destruct (pc c) as [|t json|w l|w|w|w|w|w|w|w|w|t] eqn:Hpc, a as [t'|[x|]|[n| |]|[]]; try discriminate H;
    cbn [child_step checked] in H;
    try (injection H as <- <-; apply quiet_effect; rewrite ?Hpc; try done; cbn; intuition done).
  - destruct (_ && _) eqn:E; [|done]. apply andb_true_iff in E as [E1 E2]. reflect_bools. injection H as <- <-.
    apply quiet_effect; rewrite ?Hpc; try done.
  - destruct (names fs !! tmp_name x) as [i|] eqn:Hx; [done|]. destruct Hc' as [-> Ht]. injection H as <- <-.
    by apply mkstemp_effect.
  - injection H as <- <-. by apply write_effect.
  - injection H as <- <-. by apply fsync_effect.
  - apply bind_Some in H as (fs1 & Hr & H). injection H as <- <-. by apply rename_effect.
  - injection H as <- <-. by apply fsync_directory_effect.
  - injection H as <- <-. by apply unlink_effect.
Qed.

(** The temporary name an answer gives away. *)
Definition drawn (a : answer) : list bytes :=
  match a with Mkstemp (Some x) => [tmp_name x] | _ => [] end.

(** The child that steps, and the others. *)
Section Step.
Context (old : directory) (used : list bytes) (fs : filesystem) (cs : list child).
Context (i : nat) (c : child) (a : answer) (fs' : filesystem) (p' : child_pc).
Hypothesis Hinv : fs_inv old used fs cs.
Hypothesis Hi : cs !! i = Some c.
Hypothesis Heff : step_effect c a fs fs' p'.
Hypothesis Hnew : forall x, x ∈ drawn a -> x ∉ used.

#[local] Abbreviation cs' := (<[i := with_pc c p']> cs).

Lemma stepped_in : c ∈ cs.
Proof. by eapply list_elem_of_lookup_2. Qed.

Lemma stepped_cases j c' : cs' !! j = Some c' -> (j = i /\ c' = with_pc c p') \/ (j <> i /\ cs !! j = Some c').
Proof.
  intros H. apply list_lookup_insert_Some in H. naive_solver.
Qed.

Lemma stepped_elem c' : c' ∈ cs' -> c' = with_pc c p' \/ exists j, j <> i /\ cs !! j = Some c'.
Proof. intros [j H]%list_elem_of_lookup_1. apply stepped_cases in H. naive_solver. Qed.

Lemma owned_exists c' w : c' ∈ cs -> owner_of (pc c') = Some w -> (temp_fd w < length (inodes fs))%nat.
Proof.
  intros Hc' Ho. pose proof (inv_children _ _ _ _ Hinv c' Hc') as Hok. unfold child_ok in Hok.
  destruct (pc c'); try discriminate Ho; injection Ho as ->; destruct Hok as [_ [_ (f & Hf & _)]];
    by eapply lookup_lt_Some.
Qed.

Lemma other_tmp j c' w x : j <> i -> cs !! j = Some c' -> writer_of (pc c') = Some w ->
  (exists w0, writer_of (pc c) = Some w0 /\ tmp_file w0 = x) \/ (exists y, a = Mkstemp (Some y) /\ x = tmp_name y) ->
  tmp_file w <> x.
Proof.
  intros Hj Hc' Hw [(w0 & Hw0 & <-)|(y & Ha & ->)] E.
  - destruct (inv_apart _ _ _ _ Hinv j i c' c Hj Hc' Hi) as [Hap _]. by apply (Hap w w0).
  - apply (Hnew (tmp_name y)); [rewrite Ha; by left|]. rewrite <- E.
    eapply inv_used; [done| |done]. by eapply list_elem_of_lookup_2.
Qed.

Lemma other_fd j c' w k : j <> i -> cs !! j = Some c' -> owner_of (pc c') = Some w ->
  (exists w0, owner_of (pc c) = Some w0 /\ temp_fd w0 = k) \/ k = length (inodes fs) -> temp_fd w <> k.
Proof.
  intros Hj Hc' Hw [(w0 & Hw0 & <-)| ->].
  - destruct (inv_apart _ _ _ _ Hinv j i c' c Hj Hc' Hi) as [_ Hap]. by apply (Hap w w0).
  - apply list_elem_of_lookup_2 in Hc'. pose proof (owned_exists c' w Hc' Hw). lia.
Qed.

Lemma stepped_children c' : c' ∈ cs' -> child_ok fs' c'.
Proof.
  intros [->|(j & Hj & Hc')]%stepped_elem; [apply Heff|].
  assert (child_ok fs c') as Hok by (eapply inv_children; [done|by eapply list_elem_of_lookup_2]).
  destruct (effect_frame _ _ _ _ _ Heff) as [->|(x & k & HF & Hx & Hk)]; [done|].
  eapply child_ok_frame; [done| | |done]; intros w Hw.
  - by eapply other_tmp.
  - by eapply other_fd.
Qed.

Lemma stepped_apart_other j c' : j <> i -> cs !! j = Some c' -> apart c' (with_pc c p').
Proof.
  intros Hj Hc'. split; intros w w' Hw Hw'; cbn in Hw'.
  - eapply other_tmp; [done..|]. destruct (effect_writer _ _ _ _ _ Heff w' Hw') as [|]; [by left|by right].
  - eapply other_fd; [done..|]. by eapply effect_owner.
Qed.

Lemma stepped_unowned k : (k < length (inodes fs))%nat ->
  (forall c' w, c' ∈ cs -> owner_of (pc c') = Some w -> temp_fd w <> k) ->
  forall c' w, c' ∈ cs' -> owner_of (pc c') = Some w -> temp_fd w <> k.
Proof.
  intros Hk H c' w [->|(j & Hj & Hc')]%stepped_elem Hw.
  - destruct (effect_owner _ _ _ _ _ Heff w Hw) as [(w0 & Hw0 & <-)| ->]; [|lia].
    eapply H; [apply stepped_in|done].
  - eapply H; [by eapply list_elem_of_lookup_2|done].
Qed.

Lemma stepped_good n f : good old cs n f -> good old cs' n f.
Proof.
  intros [|(c0 & t & Hc0 & Ht & Hrest)]; [by left|right]. apply list_elem_of_lookup_1 in Hc0 as [j Hj].
  destruct (decide (j = i)) as [->|Hne].
  - rewrite Hi in Hj. injection Hj as <-. exists (with_pc c p'), t.
    split; [apply list_elem_of_insert; by eapply lookup_lt_Some|].
    split; [by eapply effect_stamp|done].
  - exists c0, t. split; [|done]. apply (list_elem_of_lookup_2 _ j). by rewrite list_lookup_insert_ne.
Qed.

Lemma stepped_inode k f : inodes fs !! k = Some f ->
  (forall c' w, c' ∈ cs -> owner_of (pc c') = Some w -> temp_fd w <> k) -> inodes fs' !! k = Some f.
Proof.
  intros Hk H. destruct (effect_frame _ _ _ _ _ Heff) as [->|(x & k' & HF & _ & Hk')]; [done|].
  eapply frame_inodes; [done| |done]. destruct Hk' as [(w & Hw & <-)| ->].
  - intros ->. by eapply H; [apply stepped_in|..].
  - apply lookup_lt_Some in Hk. lia.
Qed.

(** The snapshot a [rename] puts into place. *)
Lemma renamed_good n k : (exists w, pc c = AtRename w /\ p' = AtOpenDir w /\ n = output_path w /\ k = temp_fd w
    /\ inodes fs' = inodes fs) ->
  exists f, inodes fs' !! k = Some f /\ durable f = true /\ good old cs' n f
    /\ forall c' w, c' ∈ cs' -> owner_of (pc c') = Some w -> temp_fd w <> k.
Proof.
  intros (w & Hpc & Hp' & -> & -> & ->).
  pose proof (inv_children _ _ _ _ Hinv c stepped_in) as Hok. unfold child_ok in Hok. rewrite Hpc in Hok.
  destruct Hok as [(Hout & Hst & _) [_ (f & Hf & ->)]]. exists (mkFile (output w) true).
  split_and!; [done..| |].
  - right. exists (with_pc c p'), (stamp w). rewrite Hp'. cbn. rewrite Hout. split_and!; try done.
    apply list_elem_of_insert. by eapply lookup_lt_Some.
  - intros c' w' [->|(j & Hj & Hc')]%stepped_elem Hw'; [by rewrite Hp' in Hw'|].
    eapply other_fd; [done..|]. left. exists w. by rewrite Hpc.
Qed.

End Step.

Lemma apart_sym c c' : apart c c' -> apart c' c.
Proof. intros [H1 H2]. split; intros w w' Hw Hw' E; [by eapply H1|by eapply H2]. Qed.

(** Every system call of every child keeps the invariant, as long as [mkstemp]
    does not draw the same name twice. *)
Lemma child_step_inv old used fs cs i c a fs' p' : fs_inv old used fs cs -> cs !! i = Some c ->
  child_step (memory c) fs (pc c) a = Some (fs', p') -> (forall x, x ∈ drawn a -> x ∉ used) ->
  fs_inv old (used ++ drawn a) fs' (<[i := with_pc c p']> cs).
Proof.
  intros Hinv Hi Hstep Hnew.
  assert (child_ok fs c) as Hok by (eapply inv_children; [done|by eapply list_elem_of_lookup_2]).
  pose proof (child_step_effect c a fs fs' p' Hok Hstep) as Heff. split.
  - by eapply stepped_children.
  - intros j k c1 c2 Hjk H1 H2. apply (stepped_cases _ _ _ _ Hi) in H1 as [[-> ->]|[Hj H1]];
      apply (stepped_cases _ _ _ _ Hi) in H2 as [[-> ->]|[Hk H2]]; try done.
    + apply apart_sym. by eapply stepped_apart_other.
    + by eapply stepped_apart_other.
    + by eapply (inv_apart _ _ _ _ Hinv j k).
  - intros c' w Hc' Hw. apply elem_of_app. apply (stepped_elem _ _ _ _ Hi) in Hc' as [->|(j & Hj & Hc')].
    + destruct (effect_writer _ _ _ _ _ Heff w Hw) as [(w0 & Hw0 & <-)|(y & -> & ->)]; [left|right; by left].
      eapply inv_used; [done|by eapply list_elem_of_lookup_2|done].
    + left. eapply inv_used; [done|by eapply list_elem_of_lookup_2|done].
  - intros m n t k Hm Ht Hk. destruct (effect_possible _ _ _ _ _ Heff m n t k Hm Ht Hk) as [(m0 & Hm0 & Hk0)|Hr].
    + destruct (inv_good _ _ _ _ Hinv m0 n t k Hm0 Ht Hk0) as (f & Hf & Hd & Hg & Hno).
      exists f. split; [by eapply stepped_inode|]. split; [done|]. split; [by eapply stepped_good|].
      eapply stepped_unowned; [done..|by eapply lookup_lt_Some|done].
    + by eapply renamed_good.
  - intros m n t Hm Ht Hs. destruct (effect_frame _ _ _ _ _ Heff) as [->|(x & k & HF & _)].
    + by eapply inv_old.
    + eapply frame_all; [done..| |done]. intros m' Hm'. by eapply inv_old.
Qed.

(** A fork. *)
Lemma fork_inv old used fs cs c : fs_inv old used fs cs -> pc c = AtSerialise -> fs_inv old used fs (cs ++ [c]).
Proof.
  intros [I1 I2 I3 I4 I5] Hpc. split.
  - intros c' [Hc'| ->%list_elem_of_singleton]%elem_of_app; [by apply I1|]. unfold child_ok. by rewrite Hpc.
  - assert (forall j c', (cs ++ [c]) !! j = Some c' -> cs !! j = Some c' \/ c' = c) as Hcase.
    { intros j c' [|[_ H]]%lookup_app_Some; [by left|]. right. by apply list_lookup_singleton_Some in H as [_ <-]. }
    assert (forall c', apart c c') as Hc by (intros c'; split; rewrite Hpc; done).
    intros j k c1 c2 Hjk H1 H2. destruct (Hcase _ _ H1) as [H1'| ->], (Hcase _ _ H2) as [H2'| ->]; try done.
    + by eapply I2.
    + by apply apart_sym.
  - intros c' w [Hc'| ->%list_elem_of_singleton]%elem_of_app; [by apply I3|]. by rewrite Hpc.
  - intros m n t i Hm Ht Hi. destruct (I4 m n t i Hm Ht Hi) as (f & Hf & Hd & Hg & Hno). exists f.
    split_and!; [done..| |].
    + destruct Hg as [|(c0 & t0 & Hin & Hrest)]; [by left|right]. exists c0, t0. split; [|done].
      apply elem_of_app. by left.
    + intros c' w [Hc'| ->%list_elem_of_singleton]%elem_of_app; [by apply Hno|]. by rewrite Hpc.
  - done.
Qed.

(** A directory at rest: nothing is waiting to be forced, and the snapshots in
    it are on the device. *)
Definition at_rest (fs : filesystem) : Prop :=
  earlier fs = []
  /\ forall n t i, snapshot_timestamp kSnapshotPrefix n = Some t -> names fs !! n = Some i ->
       exists f, inodes fs !! i = Some f /\ durable f = true.

Lemma fresh_fs_inv fs : at_rest fs -> fs_inv (contents fs) [] fs [].
Proof.
  intros [He Hd]. split; try (by intros; set_solver); unfold possible; rewrite He.
  - intros m n t i ->%list_elem_of_singleton Ht Hi. destruct (Hd n t i Ht Hi) as (f & Hf & Hdur). exists f.
    split_and!; try done; [|set_solver]. left. unfold contents. by rewrite lookup_omap, Hi.
  - intros m n t ->%list_elem_of_singleton Ht [f Hf]. unfold contents in Hf. rewrite lookup_omap in Hf.
    by destruct (names fs !! n).
Qed.

(** After a power loss every snapshot is complete: it was there before, or it
    is the store of some child; and none is missing that was there or was
    written by a child that ended well. *)
Lemma survives_good old used fs cs fs' n t f : fs_inv old used fs cs -> survives fs fs' ->
  snapshot_timestamp kSnapshotPrefix n = Some t -> contents fs' !! n = Some f -> good old cs n f.
Proof.
  intros Hinv [Hn Hd] Ht Hf. unfold contents in Hf. rewrite lookup_omap in Hf.
  destruct (Hn n) as (m & Hm & E). rewrite E in Hf. destruct (m !! n) as [i|] eqn:Hi; [|done]. cbn in Hf.
  destruct (inv_good _ _ _ _ Hinv m n t i Hm Ht Hi) as (g & Hg & Hdur & Hgood & _).
  rewrite (Hd i g Hg Hdur) in Hf. by injection Hf as <-.
Qed.

Lemma survives_present old used fs cs fs' n t : fs_inv old used fs cs -> survives fs fs' ->
  snapshot_timestamp kSnapshotPrefix n = Some t -> (forall m, m ∈ possible fs -> is_Some (m !! n)) ->
  is_Some (contents fs' !! n).
Proof.
  intros Hinv [Hn Hd] Ht H. unfold contents. rewrite lookup_omap.
  destruct (Hn n) as (m & Hm & ->). destruct (H m Hm) as [i Hi]. rewrite Hi. cbn.
  destruct (inv_good _ _ _ _ Hinv m n t i Hm Ht Hi) as (g & Hg & Hdur & _). by rewrite (Hd i g Hg Hdur).
Qed.

End Invariant.
Arguments child M : clear implicits.

(** ** A child alone *)

(** Every name has an inode. *)
Definition linked (fs : filesystem) : Prop :=
  forall n i, names fs !! n = Some i -> (i < length (inodes fs))%nat.

(** The temporary file of [w] is there, with contents [f], under its name only. *)
Definition sole (fs : filesystem) (w : writer) (f : file) : Prop :=
  names fs !! tmp_file w = Some (temp_fd w) /\ inodes fs !! temp_fd w = Some f
  /\ forall n, names fs !! n = Some (temp_fd w) -> n = tmp_file w.

Lemma contents_lookup fs n : contents fs !! n = names fs !! n ≫= fun i => inodes fs !! i.
Proof. apply lookup_omap. Qed.

Lemma contents_create fs x : linked fs ->
  contents (create fs x) = <[x := mkFile [] false]> (contents fs).
Proof.
  intros Hl. apply map_eq. intros n. rewrite contents_lookup. cbn [create names inodes].
  destruct (decide (n = x)) as [->|Hn].
  - rewrite !lookup_insert_eq. cbn. by apply list_lookup_middle.
  - rewrite !lookup_insert_ne, contents_lookup by done. destruct (names fs !! n) as [i|] eqn:Hi; [|done]. cbn.
    apply lookup_app_l. by eapply Hl.
Qed.

Lemma create_sole fs t out x : linked fs ->
  sole (create fs x) (mkWriter t out x (length (inodes fs))) (mkFile [] false).
Proof.
  intros Hl. split_and!; cbn; [apply lookup_insert_eq|by apply list_lookup_middle|].
  intros n. destruct (decide (n = x)) as [->|Hn]; [done|]. rewrite lookup_insert_ne by done.
  intros Hi%Hl. lia.
Qed.

Lemma contents_set_inode fs w f g : sole fs w f ->
  contents (set_inode fs (temp_fd w) g) = <[tmp_file w := g]> (contents fs).
Proof.
  intros (H1 & H2 & H3). apply map_eq. intros n. rewrite contents_lookup. cbn [set_inode names inodes].
  destruct (decide (n = tmp_file w)) as [->|Hn].
  - rewrite H1, lookup_insert_eq. cbn. apply list_lookup_insert_eq. by eapply lookup_lt_Some.
  - rewrite lookup_insert_ne, contents_lookup by done. destruct (names fs !! n) as [i|] eqn:Hi; [|done]. cbn.
    apply list_lookup_insert_ne. intros <-. by apply Hn, H3.
Qed.

Lemma set_inode_sole fs w f g : sole fs w f -> sole (set_inode fs (temp_fd w) g) w g.
Proof.
  intros (H1 & H2 & H3). split_and!; [done| |done]. cbn. apply list_lookup_insert_eq. by eapply lookup_lt_Some.
Qed.

Lemma contents_rename fs w f new : sole fs w f ->
  exists fs', rename fs (tmp_file w) new = Some fs'
  /\ contents fs' = <[new := f]> (delete (tmp_file w) (contents fs)).
Proof.
  intros (H1 & H2 & H3). unfold rename. rewrite H1. eexists. split; [done|]. apply map_eq. intros n.
  rewrite contents_lookup. cbn [set_names names inodes]. destruct (decide (n = new)) as [->|Hn].
  - by rewrite !lookup_insert_eq.
  - rewrite !lookup_insert_ne by done. destruct (decide (n = tmp_file w)) as [->|Hn'].
    + by rewrite !lookup_delete_eq.
    + by rewrite !lookup_delete_ne, contents_lookup.
Qed.

Lemma contents_unlink fs x : contents (unlink fs x) = delete x (contents fs).
Proof.
  apply map_eq. intros n. rewrite contents_lookup. cbn [unlink set_names names inodes].
  destruct (decide (n = x)) as [->|Hn]; [by rewrite !lookup_delete_eq|].
  by rewrite !lookup_delete_ne, contents_lookup.
Qed.

Lemma contents_alter fs w f g : sole fs w f ->
  alter g (tmp_file w) (contents fs) = <[tmp_file w := g f]> (contents fs).
Proof.
  intros (H1 & H2 & _). apply map_eq. intros n. destruct (decide (n = tmp_file w)) as [->|Hn].
  - rewrite lookup_alter_eq, lookup_insert_eq, contents_lookup, H1. cbn. by rewrite H2.
  - by rewrite lookup_alter_ne, lookup_insert_ne.
Qed.

Section Alone.
Context {M : Type} {ops : MapOps bytes Entry M} (store : M).

#[local] Abbreviation ends fs p l fs' p' := (run_child store fs p l = Some (fs', p') /\ finished p' = true).

Lemma ended_stays fs p l fs' p' : finished p = true -> ends fs p l fs' p' -> fs' = fs /\ p' = p.
Proof. intros Hf [H _]. destruct p; try done; destruct l as [|[] l]; cbn in H; by simplify_eq. Qed.

(** The handler. *)
Lemma unlink_ends fs w l fs' p' : ends fs (AtUnlink w) l fs' p' ->
  exists b t, p' = Aborted t
    /\ contents fs' = if b : bool then delete (tmp_file w) (contents fs) else contents fs.
Proof.
  intros [H Hf]. destruct l as [|[t|x|r|b] l]; cbn in H; [by simplify_eq|done..|].
  destruct (ended_stays (if b then unlink fs (tmp_file w) else fs) (Aborted (Some (stamp w))) l fs' p') as [-> ->]; [done..|].
  exists b, (Some (stamp w)). split; [done|]. destruct b; [apply contents_unlink|done].
Qed.

(** The loop and the calls after it answer for each other: from the same
    directory the child and [write_loop] get to the same directory. *)
Lemma loop_ends w l : forall fs left_bytes f d fs' p', ends fs (loop_head w left_bytes) l fs' p' ->
  sole fs w f -> files d = contents fs ->
  exists results d' fs1 l1,
    (write_loop results (tmp_file w) left_bytes d = (d', Ok tt) /\ (exists f1, sole fs1 w f1)
       /\ files d' = contents fs1 /\ ends fs1 (AtFsync w) l1 fs' p')
    \/ (write_loop results (tmp_file w) left_bytes d = (d', Throw (RuntimeError "write failed"))
       /\ files d' = contents fs1 /\ ends fs1 (AtUnlink w) l1 fs' p').
Proof.
  induction l as [|a l IH]; intros fs left_bytes f d fs' p' H Hs Hd;
    (destruct left_bytes as [|b left_bytes];
     [exists [], d, fs; eexists; left; split_and!; [done|by exists f|done|exact (proj1 H)|exact (proj2 H)]|]).
  - destruct H as [H Hf]. cbn in H. by simplify_eq.
  - destruct H as [H Hf]. cbn [loop_head] in H. destruct a as [t|x|[n| |]|ok]; try done; cbn in H.
    + unfold append in H. rewrite (proj1 (proj2 Hs)) in H.
      set (g := mkFile (data f ++ take n (b :: left_bytes)) false) in H.
      destruct (IH _ (drop n (b :: left_bytes)) g (set_files d (<[tmp_file w := g]> (files d))) fs' p'
                  (conj H Hf) (set_inode_sole _ _ _ _ Hs)) as (rs & d' & fs1 & l1 & Hor).
      { cbn [files set_files]. by rewrite Hd, (contents_set_inode _ _ _ _ Hs). }
      exists (WroteCount n :: rs), d', fs1, l1. cbn [write_loop].
      assert (files d !! tmp_file w = Some f) as ->; [|exact Hor].
      rewrite Hd, contents_lookup. destruct Hs as (-> & Hf0 & _). exact Hf0.
    + destruct (IH fs (b :: left_bytes) f d fs' p' (conj H Hf) Hs Hd) as (rs & d' & fs1 & l1 & Hor).
      by exists (WriteInterrupted :: rs), d', fs1, l1.
    + exists [WriteFailed], d, fs, l. right. done.
Qed.

Ltac next_answer H :=
  match type of H with
  | run_child _ _ _ ?l = Some _ =>
      destruct l as [|[?|?|?|[]] ?]; cbn [run_child child_step checked mbind option_bind] in H; try discriminate H; try (by simplify_eq)
  end.

(** A call that fails runs the handler, which decides the last answer.  [d] is
    the directory at that moment. *)
Definition outcome (w : writer) (fs' : filesystem) (p' : child_pc) (b7 : bool) (d : disk) (r : res unit) : Prop :=
  match p' with
  | Done _ => r = Ok tt /\ contents fs' = files d
  | _ => (exists e, r = Throw e) /\ contents fs' = if b7 then delete (tmp_file w) (files d) else files d
  end.

Lemma failed_ends fs w l fs' p' d e : ends fs (AtUnlink w) l fs' p' -> files d = contents fs ->
  exists b7, outcome w fs' p' b7 d (Throw e).
Proof.
  intros H Hd. destruct (unlink_ends fs w l fs' p' H) as (b7 & t & -> & Hc). exists b7. cbn.
  rewrite Hd. split; [by eexists|done].
Qed.

(** After the [rename]. *)
Lemma directory_ends fs w l fs' p' d name results b1 b2 b3 : ends fs (AtOpenDir w) l fs' p' -> files d = contents fs ->
  exists b4 b5 b6 b7, outcome w fs' p' b7 d (sync_directory (mkAnswers name results b1 b2 b3 b4 b5 b6 b7)).
Proof.
  intros [H Hf] Hd. unfold sync_directory. cbn [open_dir_ok fsync_dir_ok close_dir_ok].
  next_answer H.
  2: { destruct (failed_ends _ _ _ _ _ d (RuntimeError "open(dir) failed") (conj H Hf) Hd) as [b7 Hb].
       by exists false, true, true, b7. }
  next_answer H.
  2: { destruct (failed_ends _ _ _ _ _ d (RuntimeError "fsync(dir) failed") (conj H Hf) Hd) as [b7 Hb].
       by exists true, false, true, b7. }
  next_answer H.
  2: { destruct (failed_ends _ _ _ _ _ d (RuntimeError "close(dir) failed") (conj H Hf) Hd) as [b7 Hb].
       by exists true, true, false, b7. }
  destruct (ended_stays (fsync_directory fs) (Done w) l fs' p' eq_refl (conj H Hf)) as [-> ->].
  exists true, true, true, true. by split.
Qed.

(** After the loop. *)
Lemma body_ends fs w f l fs' p' results d0 d name : ends fs (AtFsync w) l fs' p' -> sole fs w f ->
  write_loop results (tmp_file w) (output w) d0 = (d, Ok tt) -> files d = contents fs ->
  exists b1 b2 b3 b4 b5 b6 b7,
    let ans := mkAnswers name results b1 b2 b3 b4 b5 b6 b7 in
    let '(d', r) := durable_write_body ans (tmp_file w) (output_path w) (output w) d0 in
    outcome w fs' p' b7 d' r.
Proof.
  intros [H Hf] Hs Hw Hd. unfold durable_write_body. cbn [writes fsync_ok close_ok rename_ok]. rewrite Hw.
  next_answer H.
  2: { destruct (failed_ends _ _ _ _ _ d (RuntimeError "fsync(file) failed") (conj H Hf) Hd) as [b7 Hb].
       by exists false, true, true, true, true, true, b7. }
  unfold fsync_file in H. rewrite (proj1 (proj2 Hs)) in H. set (g := mkFile (data f) true) in H.
  set (d1 := set_files d (alter (fun f => mkFile (data f) true) (tmp_file w) (files d))).
  pose proof (set_inode_sole _ _ _ g Hs) as Hs1.
  assert (files d1 = contents (set_inode fs (temp_fd w) g)) as Hd1.
  { unfold d1. cbn [files set_files]. rewrite (contents_set_inode _ _ _ _ Hs), Hd. by apply (contents_alter fs w f (fun f => mkFile (data f) true) Hs). }
  next_answer H.
  2: { destruct (failed_ends _ _ _ _ _ d1 (RuntimeError "close failed") (conj H Hf) Hd1) as [b7 Hb].
       by exists true, false, true, true, true, true, b7. }
  next_answer H.
  2: { destruct (failed_ends _ _ _ _ _ d1 (RuntimeError "rename failed") (conj H Hf) Hd1) as [b7 Hb].
       by exists true, true, false, true, true, true, b7. }
  destruct (contents_rename _ _ _ (output_path w) Hs1) as (fs2 & Hr & Hc2). rewrite Hr in H. cbn [mbind option_bind] in H.
  set (d2 := set_files d1 (<[output_path w := g]> (delete (tmp_file w) (files d1)))).
  destruct (directory_ends fs2 w _ fs' p' d2 name results true true true (conj H Hf)) as (b4 & b5 & b6 & b7 & Hb).
  { unfold d2. cbn [files set_files]. by rewrite Hc2, Hd1. }
  exists true, true, true, b4, b5, b6, b7. cbn [negb].
  assert (files d1 !! tmp_file w = Some g) as ->; [|exact Hb].
  rewrite Hd1, contents_lookup. destruct Hs1 as (-> & Hg & _). exact Hg.
Qed.

End Alone.

(** ** Theorem *)

Section Theorems.
Context {M : Type} {ops : MapOps bytes Entry M}.

(** The two renderings of the code agree: a child that is not disturbed does
    what the sequential [Snapshot] does.  Take any sequence of
    system calls of one child, from the clock reading to its end, with any
    answers.  There are answers to the calls of [Snapshot] for which it leaves
    the same directory, returns when the child exits with 0 and throws when it
    does not. *)
Theorem child_alone_is_snapshot (store : M) fs t l fs' p' : linked fs ->
  run_child store fs AtSerialise (Stamped t :: l) = Some (fs', p') -> finished p' = true ->
  exists ans, let '(d, r) := Snapshot kSnapshotPrefix ans store t (mkDisk (contents fs) []) in
    files d = contents fs'
    /\ match p' with Done _ => r = Ok tt | _ => exists e, r = Throw e end.
Proof.
  intros Hl H Hf. cbn [run_child child_step] in H. destruct (in_int64 t && (0 <=? t)); [|discriminate H].
  cbn [mbind option_bind] in H.
  destruct l as [|[?|[x|]|?|?] l]; cbn [run_child child_step mbind option_bind] in H; try discriminate H; [by simplify_eq| |].
  2: { destruct (ended_stays store fs (Aborted (Some t)) l fs' p' eq_refl (conj H Hf)) as [-> ->].
       exists (mkAnswers None [] true true true true true true true). cbn. split; [done|by eexists]. }
  destruct (names fs !! tmp_name x); [discriminate H|]. cbn [mbind option_bind] in H.
  set (w := mkWriter t (SerialiseToJson store) (tmp_name x) (length (inodes fs))) in H.
  set (d0 := set_files (mkDisk (contents fs) []) (<[tmp_name x := mkFile [] false]> (contents fs))).
  destruct (loop_ends store w l _ _ _ d0 fs' p' (conj H Hf) (create_sole fs t _ _ Hl))
    as (rs & d' & fs1 & l1 & [(Hw & (f1 & Hs1) & Hd & He)|(Hw & Hd & He)]).
  { symmetry. by apply contents_create. }
  - destruct (body_ends store fs1 w f1 l1 fs' p' rs d0 d' (Some (tmp_name x)) He Hs1 Hw Hd)
      as (b1 & b2 & b3 & b4 & b5 & b6 & b7 & Hb).
    exists (mkAnswers (Some (tmp_name x)) rs b1 b2 b3 b4 b5 b6 b7). unfold Snapshot, DurableWrite. cbn [mkstemp_name].
    change (set_files _ (<[_ := _]> _)) with d0. change (tmp_file w) with (tmp_name x) in Hb. change (output w) with (SerialiseToJson store) in Hb.
    change (output_path w) with (snapshot_name kSnapshotPrefix t) in Hb. cbv zeta in Hb |- *.
    destruct (durable_write_body _ _ _ _ d0) as [d2 r]. cbn [unlink_ok].
    unfold outcome in Hb. destruct p'; try discriminate Hf; destruct Hb as [Hr Hc].
    + by rewrite Hr, Hc.
    + destruct Hr as [e ->]. rewrite Hc. split; [by destruct b7|by eexists].
  - destruct (failed_ends store fs1 w l1 fs' p' d' (RuntimeError "write failed") He Hd) as [b7 Hb].
    exists (mkAnswers (Some (tmp_name x)) rs true true true true true true b7).
    unfold Snapshot, DurableWrite. cbn [mkstemp_name].
    change (set_files _ (<[_ := _]> _)) with d0. unfold durable_write_body. cbn [writes].
    change (write_loop rs (tmp_name x) (SerialiseToJson store) d0 = (d', Throw (RuntimeError "write failed"))) in Hw.
    rewrite Hw. cbn [unlink_ok]. unfold outcome in Hb. destruct p'; try discriminate Hf; destruct Hb as [Hr Hc]; [done|].
    rewrite Hc. split; [by destruct b7|done].
Qed.

End Theorems.

(** *** Witness, on [StandardMap] *)

#[local] Existing Instance std_ops.
#[local] Existing Instance std_spec.

(** One old snapshot; the child writes in two parts and is interrupted between
    them, and the directory cannot be opened. *)
Definition sample_fs : filesystem :=
  mkFs [mkFile (lit "{}") true] {[ snapshot_name kSnapshotPrefix 5 := 0%nat ]} [].

Definition sample_calls : list answer :=
  [Mkstemp (Some (lit "Ab3")); Wrote (WroteCount 1); Wrote WriteInterrupted; Wrote (WroteCount 4000);
   Returned true; Returned true; Returned true; Returned false; Returned false].

Lemma child_alone_is_snapshot_witness :
  exists fs' p', run_child sample_snapshot sample_fs AtSerialise (Stamped 12 :: sample_calls) = Some (fs', p')
  /\ exists ans, let '(d, r) := Snapshot kSnapshotPrefix ans sample_snapshot 12 (mkDisk (contents sample_fs) []) in
    files d = contents fs'
    /\ match p' with Done _ => r = Ok tt | _ => exists e, r = Throw e end.
Proof.
  destruct (checked_some (run_child sample_snapshot sample_fs AtSerialise (Stamped 12 :: sample_calls))
    (fun r => finished r.2)) as ([fs' p'] & E & H); [vm_compute; reflexivity|].
  exists fs', p'. split; [exact E|].
  apply (child_alone_is_snapshot sample_snapshot sample_fs 12 sample_calls fs' p'); [|exact E|exact H].
  intros n i Hn. unfold sample_fs in Hn. cbn [names] in Hn. apply lookup_singleton_Some in Hn as [_ <-].
  cbn. lia.
Defined.
