(* ===== verification/SnapshotChildren.v ===== *)
(** * The server, its snapshot children and power loss

    The threads of Threads together with the processes they fork:
    [CreateSnapshot] of [v2/src/server/server.cc] makes a child that has a copy
    of the store as it was at that moment, and the children of FileSystem write
    it to disk, one system call at a time and in any interleaving with each
    other and with the threads, which go on executing requests.  The main
    thread waits for a child only in [waitpid]: in [ReapSnapshot], or at once
    when there is no pidfd.

    The machine can stop at any moment.  What a new process then restores is
    the store as it was when some snapshot was begun.  It is the newest one
    only if the children read the clock in the order in which they were
    forked, which nothing in the code enforces. *)

From stdpp Require Import sorting.
From S2P Require Import Prelude CxxString RespValue RespValueQueue MapInterface Store StoreJson Handlers CommandSpec EventFd IoThread Server AsyncServer Threads Progress Snapshotter Startup FileSystem.

(** ** State and steps *)

Section World.
Context {M : Type} {ops : MapOps bytes Entry M}.
Context (clock : nat -> Z) (cap : nat).

Record world := mkWorld {
  server : state M;
  disk_of : filesystem;
  children : list (child M);  (** in the order of the forks *)
  waiting : option Z  (** the process the main thread waits for *)
}.

Definition world_init (s : state M) (fs : filesystem) : world := mkWorld s fs [] None.

(** The process a move of the main thread creates, and the one it then waits
    for. *)
Definition forks (s : state M) (l : move) : option Z :=
  match l, posting s, main_tasks s with
  | Main _ (ForkParent pid) _, [], MTimer _ :: _ => Some pid
  | _, _, _ => None
  end.

Definition waits (s : state M) (l : move) : option Z :=
  match l, posting s, main_tasks s with
  | Main _ (ForkParent pid) pidfd, [], MTimer _ :: _ => if pidfd =? -1 then Some pid else None
  | Main _ _ _, [], MReap fd :: _ => snapshot_children_ (Threads.main s) !! fd
  | _, _, _ => None
  end.

Definition of_main (l : move) : bool :=
  match l with MainWake _ | Main _ _ _ => true | _ => false end.

(** Process ids are given again once a process has ended: a number means the
    child that was last given it. *)
Definition holder (cs : list (child M)) (p : Z) : option (child M) :=
  last (filter (fun c => pid c = p) cs).

Definition ended (cs : list (child M)) (p : Z) : bool :=
  match holder cs p with Some c => finished (pc c) | None => true end.

Definition may_move (w : world) (l : move) : bool :=
  match waiting w with
  | Some p => negb (of_main l) || ended (children w) p
  | None => true
  end
  && match forks (server w) l with Some p => ended (children w) p | None => true end.

Inductive world_move :=
| ServerMove (l : move)
| ChildMove (i : nat) (a : answer).

Definition wstep (w : world) (m : world_move) : option world :=
  match m with
  | ServerMove l =>
      if may_move w l then
        s ← tstep clock cap (server w) l;
        Some (mkWorld s (disk_of w)
          (match forks (server w) l with
           | Some p => children w ++ [mkChild p (length (Threads.history (server w)))
                                        (store_ (Threads.main (server w))) AtSerialise]
           | None => children w
           end)
          (if of_main l then waits (server w) l else waiting w))
      else None
  | ChildMove i a =>
      c ← children w !! i;
      '(fs, p) ← child_step (memory c) (disk_of w) (pc c) a;
      Some (mkWorld (server w) fs (<[i := with_pc c p]> (children w)) (waiting w))
  end.

Fixpoint wrun (w : world) (ms : list world_move) : option world :=
  match ms with
  | [] => Some w
  | m :: ms => w ← wstep w m; wrun w ms
  end.

(** The temporary names [mkstemp] has given in a run. *)
Definition drawn_by (m : world_move) : list bytes :=
  match m with ChildMove _ a => drawn a | ServerMove _ => [] end.

End World.
Arguments world M : clear implicits.

(** The listing of a directory. *)
Definition lists (entries : list (bytes * bool)) (d : directory) : Prop :=
  forall n, (n, true) ∈ entries <-> is_Some (d !! n).

Definition listing (d : directory) : list (bytes * bool) := (fun e => (e.1, true)) <$> map_to_list d.

Lemma lists_listing d : lists (listing d) d.
Proof.
  intros n. unfold listing. rewrite list_elem_of_fmap. split.
  - intros ([n' f] & [= ->] & Hin). apply elem_of_map_to_list in Hin. by exists f.
  - intros [f Hf]. exists (n, f). split; [done|]. by apply elem_of_map_to_list.
Qed.

(** The snapshots have the names the server gives them: no leading zeros. *)
Definition named_by_server (d : directory) : Prop :=
  forall n t, is_Some (d !! n) -> snapshot_timestamp kSnapshotPrefix n = Some t ->
    n = snapshot_name kSnapshotPrefix t.

(** ** What the children have *)

Section Invariant.
Context {M : Type} {ops : MapOps bytes Entry M} {spec : MapSpec bytes Entry M}.
Context (clock : nat -> Z) (cap : nat).

Lemma tstep_history (s s' : state M) l : tstep clock cap s l = Some s' ->
  exists h, Threads.history s' = Threads.history s ++ h.
Proof.
  assert (forall s' : state M, Threads.history s' = Threads.history s ->
            exists h, Threads.history s' = Threads.history s ++ h) as Hsame
    by (intros ? ->; exists []; by rewrite app_nil_r).
  destruct l as [evs|acc forked pidfd|i evs|i reads sends]; cbn [tstep]; intros H.
  - apply Hsame. repeat case_match; try done. by injection H as <-.
  - unfold post_step, task_step in H. repeat (case_match; try discriminate H);
      rewrite ?bind_Some in H; destruct_and?; simplify_eq; try (by apply Hsame); try (by eexists).
    + destruct H as (? & _ & H). by case_match; injection H as <-; apply Hsame.
    + destruct H as (? & _ & H). injection H as <-. by apply Hsame.
  - apply bind_Some in H as (p & _ & H). apply Hsame. repeat case_match; try done. by injection H as <-.
  - apply bind_Some in H as (p & _ & H). apply Hsame. unfold io_task_step, emit_step in H.
    repeat (case_match; try discriminate H); by injection H as <-.
Qed.

Context (store0 : M) (a : Abstract.store) (hardware : nat) (cfd : Z) (ifds : nat -> Z) (old : directory).
Hypothesis Hstore : represents store0 a.
Hypothesis Hsane : sane_store a.

#[local] Abbreviation done s := (timed clock 0 (Threads.history s).*2).

(** The store a child has is the one the requests executed before the fork
    have left. *)
Definition remembers (s : state M) (c : child M) : Prop :=
  (moment c <= length (Threads.history s))%nat
  /\ (Forall request_safe (take (moment c) (done s)) ->
      represents (memory c) (fst (exec_all a (take (moment c) (done s))))
      /\ sane_store (fst (exec_all a (take (moment c) (done s))))).

Record world_inv (used : list bytes) (w : world M) : Prop := {
  wi_server : exists ls, trun clock cap (threads_init store0 hardware cfd ifds) ls = Some (server w);
  wi_fs : fs_inv old used (disk_of w) (children w);
  wi_memory : forall c, c ∈ children w -> remembers (server w) c;
  wi_order : forall i j c c', (i < j)%nat -> children w !! i = Some c -> children w !! j = Some c' ->
    (moment c <= moment c')%nat
}.

Lemma remembers_later s s' c h : Threads.history s' = Threads.history s ++ h ->
  remembers s c -> remembers s' c.
Proof.
  intros E [H1 H2]. unfold remembers. rewrite E, length_app, fmap_app, timed_app.
  rewrite take_app_le by (rewrite length_timed, length_fmap; done). split; [lia|done].
Qed.

Lemma remembers_with_pc s c p : remembers s c -> remembers s (with_pc c p).
Proof. done. Qed.

Lemma forked_remembers s p : (exists ls, trun clock cap (threads_init store0 hardware cfd ifds) ls = Some s) ->
  remembers s (mkChild p (length (Threads.history s)) (store_ (Threads.main s)) AtSerialise).
Proof.
  intros [ls Hrun]. split; [done|]. cbn [moment memory].
  rewrite take_ge by (rewrite length_timed, length_fmap; done). intros Hsafe.
  by eapply store_after.
Qed.

Lemma with_fork_inv used w p : world_inv used w ->
  let c := mkChild p (length (Threads.history (server w))) (store_ (Threads.main (server w))) AtSerialise in
  world_inv used (mkWorld (server w) (disk_of w) (children w ++ [c]) (waiting w)).
Proof.
  intros [W1 W2 W3 W4] c. split; cbn; [done|by apply fork_inv|..].
  - intros c' [Hc'| ->%list_elem_of_singleton]%elem_of_app; [by apply W3|by apply forked_remembers].
  - intros i j c1 c2 Hij [H1|[H1 H1']]%lookup_app_Some [H2|[H2 H2']]%lookup_app_Some.
    + by eapply W4.
    + apply list_lookup_singleton_Some in H2' as [_ <-]. apply list_elem_of_lookup_2 in H1. by apply W3.
    + apply lookup_lt_Some in H2. lia.
    + apply list_lookup_singleton_Some in H1' as [? <-], H2' as [? <-]. lia.
Qed.

Lemma wstep_inv used w m w' : world_inv used w -> wstep clock cap w m = Some w' ->
  (forall x, x ∈ drawn_by m -> x ∉ used) -> world_inv (used ++ drawn_by m) w'.
Proof.
  intros Hw H Hnew. destruct m as [l|i ans]; cbn [wstep drawn_by] in *.
  - destruct (may_move w l); [|done]. apply bind_Some in H as (s & Hs & [= <-]). rewrite app_nil_r.
    assert (world_inv used (mkWorld (server w) (disk_of w)
      (match forks (server w) l with
       | Some p => children w ++ [mkChild p (length (Threads.history (server w)))
                                    (store_ (Threads.main (server w))) AtSerialise]
       | None => children w end) (waiting w))) as [W1 W2 W3 W4].
    { destruct (forks (server w) l); [by apply with_fork_inv|]. by destruct w. }
    cbn in W1, W2, W3, W4. destruct (tstep_history _ _ _ Hs) as [h Hh]. split; cbn; try done.
    + destruct W1 as [ls Hrun]. exists (ls ++ [l]). rewrite trun_app, Hrun. cbn. by rewrite Hs.
    + intros c Hc. eapply remembers_later; [done|]. by apply W3.
  - apply bind_Some in H as (c & Hc & H). apply bind_Some in H as ([fs p] & Hs & [= <-]).
    destruct Hw as [W1 W2 W3 W4]. split; cbn; [done|by eapply child_step_inv|..].
    + intros c' Hc'. apply (stepped_elem _ _ _ _ Hc) in Hc' as [->|(j & _ & Hj)].
      * apply remembers_with_pc, W3. by eapply list_elem_of_lookup_2.
      * apply W3. by eapply list_elem_of_lookup_2.
    + intros j k c1 c2 Hjk H1 H2. apply (stepped_cases _ _ _ _ Hc) in H1 as [[-> ->]|[_ H1]];
        apply (stepped_cases _ _ _ _ Hc) in H2 as [[-> ->]|[_ H2]]; cbn; [lia|by eapply W4..].
Qed.

Lemma wrun_inv ms : forall used w w', world_inv used w -> wrun clock cap w ms = Some w' ->
  NoDup (used ++ flat_map drawn_by ms) -> exists used', world_inv used' w'.
Proof.
  induction ms as [|m ms IH]; intros used w w' Hw H Hnd; cbn in H; [injection H as <-; by exists used|].
  apply bind_Some in H as (w1 & H1 & H). cbn [flat_map] in Hnd. rewrite app_assoc in Hnd.
  eapply IH; [eapply wstep_inv; [done..|]|done|done].
  apply NoDup_app in Hnd as (Hnd & _ & _). apply NoDup_app in Hnd as (_ & Hnd & _). set_solver.
Qed.

Lemma world_init_inv fs : at_rest fs -> old = contents fs ->
  world_inv [] (world_init (threads_init store0 hardware cfd ifds) fs).
Proof.
  intros Hr E. split; cbn; [by exists []|rewrite E; by apply fresh_fs_inv|set_solver|done].
Qed.

(** ** What a new process finds *)

(** The children read the clock in the order of the forks, and after the
    snapshots that were there. *)
Definition in_order (w : world M) : Prop :=
  (forall c t n t0, c ∈ children w -> stamp_of (pc c) = Some t -> is_Some (old !! n) ->
     snapshot_timestamp kSnapshotPrefix n = Some t0 -> t0 < t)
  /\ (forall i j c c' t t', (i < j)%nat -> children w !! i = Some c -> children w !! j = Some c' ->
        stamp_of (pc c) = Some t -> stamp_of (pc c') = Some t' -> t < t').

(** [store'] is as recent as every snapshot that was completed. *)
Definition recovered (w : world M) (store' : M) : Prop :=
  exists j, (j <= length (done (server w)))%nat
  /\ represents store' (fst (exec_all a (take j (done (server w)))))
  /\ sane_store (fst (exec_all a (take j (done (server w)))))
  /\ (in_order w -> forall c wr, c ∈ children w -> pc c = Done wr -> (moment c <= j)%nat).

Section Crash.
Context (used : list bytes) (w : world M) (fs' : filesystem) (entries entries' : list (bytes * bool)).
Hypothesis Hinv : world_inv used w.
Hypothesis Hsafe : Forall request_safe (done (server w)).
Hypothesis Hcrash : survives (disk_of w) fs'.
Hypothesis Hentries : lists entries old.
Hypothesis Hentries' : lists entries' (contents fs').
Hypothesis Hnamed : named_by_server old.
Hypothesis Hfirst : forall h, Restore kSnapshotPrefix entries true (mkDisk old h) Store.init = (store0, Ok true).

Lemma old_listed n t : candidate kSnapshotPrefix entries n t -> candidate kSnapshotPrefix entries' n t.
Proof.
  intros [Hin Ht]. split; [|done]. apply Hentries'. apply Hentries in Hin.
  eapply survives_present; [apply Hinv|done..|]. intros m Hm. eapply inv_old; [apply Hinv|done..].
Qed.

Lemma completed_listed c wr : c ∈ children w -> pc c = Done wr ->
  candidate kSnapshotPrefix entries' (output_path wr) (stamp wr) /\ 0 <= stamp wr.
Proof.
  intros Hc Hpc. pose proof (inv_children _ _ _ _ (wi_fs _ _ Hinv) c Hc) as Hok.
  unfold child_ok in Hok. rewrite Hpc in Hok. destruct Hok as [(_ & Hst & _) Hall].
  pose proof (path_is_snapshot _ Hst) as Hp. split; [|apply Hst]. split; [|done]. apply Hentries'.
  eapply survives_present; [apply Hinv|done..].
Qed.

(** Nothing is found: nothing was there at the start either. *)
Lemma nothing_recovered : LatestSnapshot kSnapshotPrefix entries' = None -> recovered w Store.init.
Proof.
  intros Hl. pose proof (proj1 (LatestSnapshot_newest kSnapshotPrefix entries')) as Hn. rewrite Hl in Hn.
  pose proof (proj1 (LatestSnapshot_newest kSnapshotPrefix entries)) as Hn0.
  destruct (LatestSnapshot kSnapshotPrefix entries) as [n|] eqn:Hl0.
  - destruct Hn0 as (t & Hc & Ht & _). apply old_listed, Hn in Hc. lia.
  - specialize (Hfirst []). unfold Restore in Hfirst. rewrite Hl0 in Hfirst. injection Hfirst as Hst.
    exists 0%nat. rewrite take_0. cbn. rewrite Hst. split_and!; [lia|done..|].
    intros _ c wr Hc Hpc. destruct (completed_listed c wr Hc Hpc) as [Hcand H0]. apply Hn in Hcand. lia.
Qed.

(** The newest is one that was there: the one the first process restored. *)
Lemma old_recovered n t f : LatestSnapshot kSnapshotPrefix entries' = Some n ->
  candidate kSnapshotPrefix entries' n t -> 0 <= t ->
  (forall n' t', candidate kSnapshotPrefix entries' n' t' -> t' <= t) ->
  old !! n = Some f ->
  DeserialiseFromJson Store.init (data f) = (store0, Ok tt) /\ recovered w store0.
Proof.
  intros Hl [Hin Ht] Ht0 Hmax Hf.
  assert (candidate kSnapshotPrefix entries n t) as Hc by (split; [apply Hentries; by rewrite Hf|done]).
  pose proof (proj1 (LatestSnapshot_newest kSnapshotPrefix entries)) as Hn0.
  destruct (LatestSnapshot kSnapshotPrefix entries) as [n0|] eqn:Hl0; [|apply Hn0 in Hc; lia].
  destruct Hn0 as (t0 & Hc0 & _ & Hmax0).
  assert (t0 = t) as -> by (pose proof (Hmax0 _ _ Hc); pose proof (Hmax _ _ (old_listed _ _ Hc0)); lia).
  assert (n0 = n) as ->.
  { rewrite (Hnamed n t); [|by rewrite Hf|done]. apply Hnamed; [by apply Hentries, Hc0|apply Hc0]. }
  split.
  - specialize (Hfirst []). unfold Restore in Hfirst. rewrite Hl0 in Hfirst. cbn [files] in Hfirst.
    rewrite Hf in Hfirst. by destruct (DeserialiseFromJson Store.init (data f)) as [st [[]|e|u|]]; injection Hfirst as ->.
  - exists 0%nat. rewrite take_0. cbn. split_and!; [lia|done..|]. intros [Hord _] c wr Hcin Hpc.
    destruct (completed_listed c wr Hcin Hpc) as [Hcand _]. apply Hmax in Hcand.
    assert (t < stamp wr); [|lia]. eapply (Hord c); [done|by rewrite Hpc|by rewrite Hf|done].
Qed.

(** The newest is one that a child wrote. *)
Lemma child_recovered t c : c ∈ children w -> stamp_of (pc c) = Some t ->
  (forall n' t', candidate kSnapshotPrefix entries' n' t' -> t' <= t) ->
  exists store', DeserialiseFromJson Store.init (SerialiseToJson (memory c)) = (store', Ok tt) /\ recovered w store'.
Proof.
  intros Hc Ht Hmax. destruct (wi_memory _ _ Hinv c Hc) as [Hmom Hrep].
  destruct Hrep as [Hrep Hsn]; [by apply Forall_take|].
  destruct (restore_snapshot (memory c) (proj1 Hrep) (represents_fits _ _ Hrep Hsn)) as (d' & Hd & Hi' & Ha').
  exists d'. split; [done|]. exists (moment c). rewrite length_timed, length_fmap. split_and!; try done.
  - split; [done|]. rewrite Ha'. apply Hrep.
  - intros [_ Hord] c2 wr Hc2 Hpc2. destruct (completed_listed c2 wr Hc2 Hpc2) as [Hcand _]. apply Hmax in Hcand.
    apply list_elem_of_lookup_1 in Hc as [i Hi], Hc2 as [k Hk].
    destruct (decide (k < i)%nat) as [|]; [by eapply wi_order|].
    destruct (decide (k = i)) as [->|]; [rewrite Hi in Hk; by injection Hk as <-|].
    assert (t < stamp wr); [|lia]. eapply (Hord i k); [lia|done..|by rewrite Hpc2].
Qed.

Lemma crash_recovered h : exists store',
  Restore kSnapshotPrefix entries' true (mkDisk (contents fs') h) Store.init = (store', Ok true)
  /\ recovered w store'.
Proof.
  unfold Restore. pose proof (proj1 (LatestSnapshot_newest kSnapshotPrefix entries')) as Hn.
  destruct (LatestSnapshot kSnapshotPrefix entries') as [n|] eqn:Hl.
  - destruct Hn as (t & Hc & Ht0 & Hmax). cbn [files].
    destruct (proj1 (Hentries' n) (proj1 Hc)) as [f Hf]. rewrite Hf.
    destruct (survives_good _ _ _ _ _ _ _ _ (wi_fs _ _ Hinv) Hcrash (proj2 Hc) Hf)
      as [Hold|(c & t' & Hcin & Hst & Hok & -> & ->)].
    + destruct (old_recovered n t f Hl Hc Ht0 Hmax Hold) as [-> Hr]. by exists store0.
    + assert (t' = t) as -> by (pose proof (path_is_snapshot _ Hok); destruct Hc; congruence).
      destruct (child_recovered t c Hcin Hst Hmax) as (store' & Hd & Hr). exists store'.
      cbn [data]. by rewrite Hd.
  - exists Store.init. split; [done|]. by apply nothing_recovered.
Qed.

End Crash.

End Invariant.

(** ** When the children are in order *)

Section Order.
Context {M : Type} {ops : MapOps bytes Entry M} (clock : nat -> Z) (cap : nat).

(** The times children read in a run. *)
Definition stamps_read (m : world_move) : list Z :=
  match m with ChildMove _ (Stamped t) => [t] | _ => [] end.

(** Every child has read the clock before the next one is forked. *)
Fixpoint forks_apart (w : world M) (ms : list world_move) : Prop :=
  match ms with
  | [] => True
  | m :: ms =>
      match m with
      | ServerMove l => is_Some (forks (server w) l) -> forall c, c ∈ children w -> is_Some (stamp_of (pc c))
      | ChildMove _ _ => True
      end
      /\ match wstep clock cap w m with Some w' => forks_apart w' ms | None => True end
  end.

(** All children but the last have read the clock, in the order of the forks;
    [ts] holds their times. *)
Record ordered (ts : list Z) (cs : list (child M)) : Prop := {
  ordered_read : forall c t, c ∈ cs -> stamp_of (pc c) = Some t -> t ∈ ts;
  ordered_lt : forall i j c c' t t', (i < j)%nat -> cs !! i = Some c -> cs !! j = Some c' ->
    stamp_of (pc c) = Some t -> stamp_of (pc c') = Some t' -> t < t';
  ordered_last : forall i j c c', (i < j)%nat -> cs !! i = Some c -> cs !! j = Some c' ->
    is_Some (stamp_of (pc c))
}.

Lemma child_step_stamp (m : M) fs p a fs' p' : child_step m fs p a = Some (fs', p') ->
  stamp_of p' = match p, a with AtSerialise, Stamped t => Some t | _, _ => stamp_of p end.
Proof.
  intros H. destruct p, a as [t'|[x|]|[n| |]|[]]; try discriminate H; cbn [child_step checked] in H;
    try (by injection H as _ <-).
  - destruct (_ && _); [|done]. by injection H as _ <-.
  - destruct (names fs !! _); [done|]. injection H as _ <-. by destruct json.
  - injection H as _ <-. by destruct (drop n left_bytes).
  - apply bind_Some in H as (? & _ & H). by injection H as _ <-.
Qed.

Lemma ordered_fork ts cs c : ordered ts cs -> stamp_of (pc c) = None ->
  (forall c, c ∈ cs -> is_Some (stamp_of (pc c))) -> ordered ts (cs ++ [c]).
Proof.
  intros [O1 O2 O3] Hc Hall.
  assert (forall j c', (cs ++ [c]) !! j = Some c' -> cs !! j = Some c' \/ (j = length cs /\ c' = c)) as Hcase.
  { intros j c' [|[Hj H]]%lookup_app_Some; [by left|]. apply list_lookup_singleton_Some in H as [? <-]. right.
    split; [lia|done]. }
  split.
  - intros c' t [Hin| ->%list_elem_of_singleton]%elem_of_app Ht; [by eapply O1|congruence].
  - intros i j c1 c2 t t' Hij [H1|[-> ->]]%Hcase [H2|[-> ->]]%Hcase T1 T2; try congruence. by eapply (O2 i j).
  - intros i j c1 c2 Hij [H1|[-> ->]]%Hcase H2.
    + apply Hall. by eapply list_elem_of_lookup_2.
    + apply lookup_lt_Some in H2. rewrite length_app in H2. cbn in H2. lia.
Qed.

Lemma ordered_child ts cs i c p : ordered ts cs -> cs !! i = Some c -> stamp_of p = stamp_of (pc c) ->
  ordered ts (<[i := with_pc c p]> cs).
Proof.
  intros [O1 O2 O3] Hi Hp.
  assert (forall j c', <[i := with_pc c p]> cs !! j = Some c' ->
            exists c0, cs !! j = Some c0 /\ stamp_of (pc c') = stamp_of (pc c0)) as Hcase.
  { intros j c' [[-> ->]|[_ H]]%(stepped_cases _ _ _ _ Hi); [by exists c|by exists c']. }
  split.
  - intros c' t [j Hj]%list_elem_of_lookup_1 Ht. destruct (Hcase j c' Hj) as (c0 & H0 & E).
    apply (O1 c0); [by eapply list_elem_of_lookup_2|congruence].
  - intros j k c1 c2 t t' Hjk (d1 & H1 & E1)%Hcase (d2 & H2 & E2)%Hcase T1 T2.
    apply (O2 j k d1 d2); congruence.
  - intros j k c1 c2 Hjk (d1 & H1 & E1)%Hcase (d2 & H2 & E2)%Hcase. rewrite E1. by eapply (O3 j k).
Qed.

Lemma ordered_stamp ts cs i c p t : ordered ts cs -> cs !! i = Some c -> stamp_of (pc c) = None ->
  stamp_of p = Some t -> (forall t0, t0 ∈ ts -> t0 < t) -> ordered (ts ++ [t]) (<[i := with_pc c p]> cs).
Proof.
  intros [O1 O2 O3] Hi Hc Hp Hlt.
  assert (forall j c', cs !! j = Some c' -> (j <= i)%nat) as Hlast.
  { intros j c' Hj. destruct (decide (i < j)%nat) as [Hij|]; [|lia].
    destruct (O3 i j c c' Hij Hi Hj) as [? ?]. congruence. }
  split.
  - intros c' t' [j Hj]%list_elem_of_lookup_1 Ht. apply elem_of_app.
    apply (stepped_cases _ _ _ _ Hi) in Hj as [[-> ->]|[_ Hj]].
    + right. cbn in Ht. rewrite Hp in Ht. injection Ht as <-. by left.
    + left. apply (O1 c'); [by eapply list_elem_of_lookup_2|done].
  - intros j k c1 c2 t1 t2 Hjk H1 H2 T1 T2.
    apply (stepped_cases _ _ _ _ Hi) in H1 as [[-> ->]|[_ H1]];
      apply (stepped_cases _ _ _ _ Hi) in H2 as [[-> ->]|[_ H2]].
    + lia.
    + apply Hlast in H2. lia.
    + cbn in T2. rewrite Hp in T2. injection T2 as <-. apply Hlt. apply (O1 c1); [by eapply list_elem_of_lookup_2|done].
    + by eapply (O2 j k).
  - intros j k c1 c2 Hjk H1 H2. apply (stepped_cases _ _ _ _ Hi) in H1 as [[-> ->]|[Hne H1]].
    + cbn. by rewrite Hp.
    + apply (stepped_cases _ _ _ _ Hi) in H2 as [[-> ->]|[_ H2]]; by eapply (O3 j).
Qed.

Lemma wrun_ordered ms : forall ts (w w' : world M), ordered ts (children w) ->
  wrun clock cap w ms = Some w' -> forks_apart w ms ->
  StronglySorted Z.lt (ts ++ flat_map stamps_read ms) ->
  ordered (ts ++ flat_map stamps_read ms) (children w').
Proof.
  induction ms as [|m ms IH]; intros ts w w' Ho H Hf Hs; cbn [wrun flat_map forks_apart] in *.
  { injection H as <-. by rewrite app_nil_r. }
  apply bind_Some in H as (w1 & H1 & H). rewrite H1 in Hf. destruct Hf as [Hm Hf].
  rewrite app_assoc in Hs |- *. apply (IH _ w1); try done. clear IH H Hf.
  destruct m as [l|i a]; cbn [wstep stamps_read] in *.
  - destruct (may_move w l); [|done]. apply bind_Some in H1 as (s & _ & [= <-]). rewrite app_nil_r. cbn [children].
    destruct (forks (server w) l); [|done]. apply ordered_fork; [done..|]. by apply Hm.
  - apply bind_Some in H1 as (c & Hc & H1). apply bind_Some in H1 as ([fs p] & Hst & [= <-]). cbn [children].
    pose proof (child_step_stamp _ _ _ _ _ _ Hst) as E.
    assert (stamp_of p = stamp_of (pc c) -> stamps_read (ChildMove i a) = [] ->
      ordered (ts ++ stamps_read (ChildMove i a)) (<[i := with_pc c p]> (children w))) as Hkeep.
    { intros Ep ->. rewrite app_nil_r. by apply ordered_child. }
    destruct a as [t|x|r|ok]; try (apply Hkeep; [|done]; by destruct (pc c)).
    destruct (pc c) eqn:Hpc; try discriminate Hst. cbn [stamps_read].
    eapply ordered_stamp; [done..|by rewrite Hpc|done|]. intros t0 Ht0.
    apply StronglySorted_app_1_l in Hs. eapply StronglySorted_app_1_elem_of; [exact Hs|done|by left].
Qed.

(** Then the children are in order, if the clock has passed the time of the
    snapshots that were there. *)
Lemma apart_in_order old s fs ms w : wrun clock cap (world_init s fs) ms = Some w ->
  forks_apart (world_init s fs) ms -> StronglySorted Z.lt (flat_map stamps_read ms) ->
  (forall t n t0, t ∈ flat_map stamps_read ms -> is_Some (old !! n) ->
     snapshot_timestamp kSnapshotPrefix n = Some t0 -> t0 < t) ->
  in_order old w.
Proof.
  intros H Hf Hs Hold.
  assert (ordered [] ([] : list (child M))) as H0 by (split; [set_solver|done..]).
  destruct (wrun_ordered ms [] (world_init s fs) w H0 H Hf Hs) as [O1 O2 _]. split; [|exact O2].
  intros c t n t0 Hc Ht. apply Hold. by eapply O1.
Qed.

End Order.

(** ** Theorems *)

Section Theorems.
Context {M : Type} {ops : MapOps bytes Entry M} {spec : MapSpec bytes Entry M}.


End Theorems.

(** *** Concrete runs, on [StandardMap] *)

#[local] Existing Instance std_ops.
#[local] Existing Instance std_spec.

(** The client on descriptor 9 stores a value; its reply is left unsent. *)
Definition set_moves (value : string) : list world_move :=
  ServerMove <$> IoWake 0 [RSocket 9 false true false]
    :: [Io 0 ([Serialize (words ["SET"; "k"; value])], RecvError EAGAIN) []; io_go; io_go]
    ++ serve_moves ++ [IoWake 0 [RInbox]; io_go; Io 0 nothing_read (SendCount 5 :: replicate 5 (SendError EAGAIN)); io_go].

(** The timer ticks and the main thread forks. *)
Definition tick_moves (pid pidfd : Z) : list world_move :=
  [ServerMove (MainWake [RTimer 8]); ServerMove (Main None (ForkParent pid) pidfd)].

(** Child [i] reads the clock and writes to [x] up to its [n]th call after the
    writes. *)
Definition write_moves (i : nat) (t : Z) (x : string) (n : nat) : list world_move :=
  ChildMove i <$> [Stamped t; Mkstemp (Some (lit x)); Wrote (WroteCount 4000)] ++ replicate n (Returned true).

Definition empty_fs : filesystem := mkFs [] ∅ [].

(** The kernel gives out the lowest free descriptor: 3 to 8 at the start, then 9
    to the client and 10 and 11 to the snapshot children. *)
Definition timed_start : start_answers :=
  mkStart 3 4 0 0 5 0 6 (fun i => (7 + 2 * Z.of_nat i, 8 + 2 * Z.of_nat i)).

#[local] Abbreviation start fs :=
  (main (mkConfig 6379 100) 1 timed_start (listing (contents fs)) true (mkDisk (contents fs) []) shell : option (process * res (main_result (gmap bytes Entry)))).

Definition overlapping_moves : list world_move :=
  (ServerMove <$> connect_moves 9)
  ++ set_moves "old" ++ tick_moves 101 10 ++ set_moves "new" ++ tick_moves 102 11
  ++ write_moves 1 1000 "newer" 6 ++ write_moves 0 1001 "older" 6.

Definition value_of (store : gmap bytes Entry) : option bytes := Store.Get store 100 (lit "k").

(** A process is started in an empty directory and runs, then another is
    started in what [crash] leaves. *)
Record two_processes := mkTwo {
  started : process;
  handle : ServerHandle;
  first_store : gmap bytes Entry;
  reached : world (gmap bytes Entry);
  restarted : process;
  handle' : ServerHandle;
  second_store : gmap bytes Entry
}.

Definition run_twice (ms : list world_move) (crash : filesystem -> filesystem)
    : option two_processes :=
  match start empty_fs with
  | Some (p, Ok (Runs h store)) =>
      w ← wrun (fun _ => 100) kQueueCapacity (world_init (serving_threads h 1 store) empty_fs) ms;
      match start (crash (disk_of w)) with
      | Some (p', Ok (Runs h' store')) => Some (mkTwo p h store w p' h' store')
      | _ => None
      end
  | _ => None
  end.

Lemma run_twice_runs ms crash r : run_twice ms crash = Some r ->
  start empty_fs = Some (started r, Ok (Runs (handle r) (first_store r)))
  /\ wrun (fun _ => 100) kQueueCapacity (world_init (serving_threads (handle r) 1 (first_store r)) empty_fs) ms
     = Some (reached r)
  /\ start (crash (disk_of (reached r))) = Some (restarted r, Ok (Runs (handle' r) (second_store r))).
Proof.
  unfold run_twice. intros H. destruct (start empty_fs) as [[p [[|h store]|e|u|]]|]; try discriminate H.
  apply bind_Some in H as (w & Hw & H).
  destruct (start (crash (disk_of w))) as [[p' [[|h' store']|e|u|]]|] eqn:E; try discriminate H.
  injection H as <-. cbn. done.
Qed.

Definition is_done (p : child_pc) : bool := match p with Done _ => true | _ => false end.

(** C33. A snapshot of an older store can take the place of a newer one.  A
    child reads the clock that names its file after it has serialised its copy
    of the store, and a second child can be forked before that.  In this run a
    process with its descriptors 0 to 8 open accepts a client on 9, which stores
    a value, a snapshot begins (pidfd 10), the value is replaced and a second
    snapshot begins (pidfd 11); both children end well, the second one first.  The
    process that is started next restores the value that was replaced,
    although a complete snapshot with the new one is in the directory. *)
Theorem overlapping_snapshots_restore_older :
  exists p h store w p' h' store' c c',
    start empty_fs = Some (p, Ok (Runs h store))
    /\ wrun (fun _ => 100) kQueueCapacity (world_init (serving_threads h 1 store) empty_fs) overlapping_moves = Some w
    /\ open_fds p = list_to_set (seqZ 0 9) /\ accepts (server w) = [9]
    /\ dom (snapshot_children_ (Threads.main (server w))) = {[10; 11]}
    /\ children w = [c; c'] /\ is_done (pc c) = true /\ is_done (pc c') = true
    /\ value_of (memory c') = Some (lit "new")
    /\ value_of (store_ (Threads.main (server w))) = Some (lit "new")
    /\ start (disk_of w) = Some (p', Ok (Runs h' store'))
    /\ value_of store' = Some (lit "old").
Proof.
  destruct (checked_some (run_twice overlapping_moves id) (fun r =>
    match children (reached r) with
    | [c; c'] => is_done (pc c) && is_done (pc c') && bool_decide (value_of (memory c') = Some (lit "new"))
    | _ => false
    end
    && bool_decide (value_of (store_ (Threads.main (server (reached r)))) = Some (lit "new"))
    && bool_decide (value_of (second_store r) = Some (lit "old"))
    && (bool_decide (open_fds (started r) = list_to_set (seqZ 0 9)) && bool_decide (accepts (server (reached r)) = [9])
        && bool_decide (dom (snapshot_children_ (Threads.main (server (reached r)))) = {[10; 11]})))) as (r & E & H);
    [vm_compute; reflexivity|].
  apply run_twice_runs in E as (E1 & E2 & E3).
  destruct (children (reached r)) as [|c [|c' [|? ?]]] eqn:Ec; try discriminate H.
  rewrite !andb_true_iff, !bool_decide_eq_true in H. destruct H as [[[[[H1 H2] H3] H4] H5] [[H6 H7] H8]].
  by exists (started r), (handle r), (first_store r), (reached r), (restarted r), (handle' r), (second_store r), c, c'.
Qed.

(** A snapshot is completed; a second one is renamed, but the directory is not
    forced before the power is lost, and the old directory comes back. *)
Definition interrupted_moves : list world_move :=
  (ServerMove <$> connect_moves 9)
  ++ set_moves "old" ++ tick_moves 101 10 ++ write_moves 0 1000 "older" 6
  ++ set_moves "new" ++ tick_moves 102 11 ++ write_moves 1 1001 "newer" 3.

Definition rename_undone (fs : filesystem) : filesystem := mkFs (inodes fs) (hd (names fs) (earlier fs)) [].

Lemma rename_undone_survives fs : survives fs (rename_undone fs).
Proof.
  split; [|done]. intros n. exists (hd (names fs) (earlier fs)). split; [|done].
  unfold possible. destruct (earlier fs); cbn; [by left|right; by left].
Qed.


(** Why [mkstemp] must not draw a name twice: the handler unlinks its temporary
    name also when it has already been renamed.  The first child renames, fails
    to open the directory and unlinks what is by then the temporary file of
    the second child; the third draws the name again, and the second renames
    the empty file of the third. *)
Definition reused_moves : list world_move :=
  tick_moves 101 10 ++ tick_moves 102 11 ++ tick_moves 103 12
  ++ write_moves 0 1000 "same" 3 ++ [ChildMove 0 (Returned false)]
  ++ write_moves 1 1001 "same" 0 ++ [ChildMove 0 (Returned true)]
  ++ (ChildMove 2 <$> [Stamped 1002; Mkstemp (Some (lit "same"))])
  ++ (ChildMove 1 <$> replicate 6 (Returned true)).

Lemma reused_name_breaks_snapshot :
  exists w c, wrun (fun _ => 100) kQueueCapacity
      (world_init (threads_init (∅ : gmap bytes Entry) 1 3 (fun _ => 4)) empty_fs) reused_moves = Some w
    /\ children w !! 1%nat = Some c /\ is_done (pc c) = true
    /\ contents (disk_of w) !! snapshot_name kSnapshotPrefix 1001 = Some (mkFile [] false).
Proof.
  destruct (checked_some (wrun (fun _ => 100) kQueueCapacity
      (world_init (threads_init (∅ : gmap bytes Entry) 1 3 (fun _ => 4)) empty_fs) reused_moves) (fun w =>
    match children w !! 1%nat with Some c => is_done (pc c) | None => false end
    && match contents (disk_of w) !! snapshot_name kSnapshotPrefix 1001 with
       | Some (mkFile [] false) => true | _ => false end)) as (w & E & H); [vm_compute; reflexivity|].
  apply andb_true_iff in H as [H1 H2]. destruct (children w !! 1%nat) as [c|] eqn:Ec; [|discriminate H1].
  exists w, c. split; [exact E|]. split; [exact Ec|]. split; [exact H1|].
  destruct (contents (disk_of w) !! snapshot_name kSnapshotPrefix 1001) as [[[|] []]|]; try discriminate H2. reflexivity.
Qed.
