(* ===== verification/Client.v ===== *)
(** * The command-line client: [v2/src/client/], [v2/src/network/send_all.cc]

    Splitting an input line into words and joining quoted ones
    ([string_helpers.cc]), the request built from them and its transmission
    ([SenderWorker], [SendAll]), and the receiver ([ReceiverWorker]), which
    prints replies with [Show].  What the kernel answers is an argument. *)

From S2P Require Import Prelude CxxString RespValue RespValueQueue Serialise Handlers CommandSpec IoThread.

Abbreviation NUL := (Ascii.Ascii false false false false false false false false).

(** ** [string_helpers.cc] *)

(** The loop of [Split], with the position [current]; the fuel bounds the
    number of pieces. *)
Fixpoint split_loop (fuel : nat) (delimiter input : bytes) (current : nat) : res (list bytes) :=
  match fuel with
  | O => NoFuel
  | S f =>
      if (current <? length input)%nat then
        match find delimiter input current with
        | None =>
            piece ← substr input current (length input);
            rest ← split_loop f delimiter input (length input);
            Ok (piece :: rest)
        | Some next =>
            piece ← substr input current (next - current);
            rest ← split_loop f delimiter input (next + length delimiter);
            Ok (piece :: rest)
        end
      else Ok []
  end.

Definition Split (delimiter input : bytes) : res (list bytes) :=
  split_loop (S (S (length input))) delimiter input 0.

(** The last character of [acc], which is not empty, is a double quote. *)
Definition ends_with_quote (acc : bytes) : bool :=
  match last acc with Some c => Ascii.eqb c quote | None => false end.

(** The loop of [JoinDelimitedStrings] with [acc] and [result]. *)
Fixpoint join_loop (input : list bytes) (acc : bytes) (result : list bytes) : list bytes :=
  match input with
  | [] => if bool_decide (acc = []) then result else result ++ [acc]
  | word :: input =>
      if negb (bool_decide (acc = [])) then
        let acc := acc ++ lit " " ++ word in
        if ends_with_quote acc then
          (* acc.substr(1, acc.size() - 2) *)
          join_loop input [] (result ++ [take (length acc - 2) (drop 1 acc)])
        else join_loop input acc result
      else if match word with c :: _ => Ascii.eqb c quote | [] => false end then
        join_loop input word result
      else join_loop input acc (result ++ [word])
  end.

Definition JoinDelimitedStrings (input : list bytes) : list bytes := join_loop input [] [].

(** ** Sending *)

(** What [SendAll] returns, and the bytes the kernel took. *)
Fixpoint SendAll (sends : list send_result) (remaining : bytes) (len : Z) (taken : bytes) : res (Z * bytes) :=
  match remaining with
  | [] => Ok (len, taken)
  | _ =>
      match sends with
      | [] => NoFuel
      | SendCount n :: sends =>
          if (0 <? n)%nat then SendAll sends (drop n remaining) len (taken ++ take n remaining)
          else Ok (len - Z.of_nat (length remaining), taken)
      | SendError EINTR :: sends => SendAll sends remaining len taken
      | SendError EAGAIN :: _ | SendError EWOULDBLOCK :: _ => Ok (-2, taken)
      | SendError EOTHER :: _ => Ok (-1, taken)
      end
  end.

(** One round of the loop of [SenderWorker] on an input line: [None] to leave
    on [exit], otherwise the bytes to send. *)
Definition sender_message (input : bytes) : res (option bytes) :=
  if bool_decide (input = lit "exit") then Ok None
  else
    pieces ← Split (lit " ") input;
    let split_input := JoinDelimitedStrings pieces in
    let resp_values := (fun value => BulkString (Some value)) <$> split_input in
    let message := Array resp_values in
    Ok (Some (Serialize message)).

(** The whole round: whether to go on, and the bytes the kernel took. *)
Definition SenderWorker_round (input : bytes) (sends : list send_result) : res (bool * bytes) :=
  message ← sender_message input;
  match message with
  | None => Ok (false, [])
  | Some serialised_message =>
      '(n, taken) ← SendAll sends serialised_message (Z.of_nat (length serialised_message)) [];
      Ok (n =? Z.of_nat (length serialised_message), taken)
  end.

(** ** Receiving *)

Definition kBufferSize : nat := 1024.

(** [std::array<char, kBufferSize> buffer{}]. *)
Definition zeroed_buffer : bytes := replicate kBufferSize NUL.

(** [recv(sock, buffer.data(), buffer.size(), 0)] writes over the front; it
    never returns more than the size of the buffer. *)
Definition recv_into (buffer data : bytes) : bytes := data ++ drop (length data) buffer.

(** [strlen]: there is no answer when the array has no NUL. *)
Fixpoint strlen (s : bytes) : option nat :=
  match s with
  | [] => None
  | c :: s => if Ascii.eqb c NUL then Some O else S <$> strlen s
  end.

(** [std::string(buffer.data(), 0, num_bytes)].  Of the constructors with a
    position and a length this takes the one from anything that converts to
    [std::string_view]; the view of a [char*] ends before its first NUL. *)
Definition buffer_string (buffer : bytes) (num_bytes : nat) : res bytes :=
  match strlen buffer with
  | Some len => substr (take len buffer) 0 num_bytes
  | None => Undef "strlen past the end of the array"
  end.

(** What [ReceiverWorker] does with the answer of [recv]: [None] to leave. *)
Definition receive (r : recv_result) (buffer : bytes) (q : RespValueQueue) : res (option (bytes * RespValueQueue)) :=
  match r with
  | Received data =>
      if bool_decide (data = []) then Ok None
      else
        let buffer := recv_into buffer data in
        str ← buffer_string buffer (length data);
        Ok (Some (buffer, PushString q str))
  | RecvZero => Ok None
  | RecvError EINTR => Ok (Some (buffer, q))
  | RecvError _ => Ok None
  end.

(** [perror("recv")] *)
Definition complaint (r : recv_result) : list bytes := match r with RecvError _ => [lit "recv"] | _ => [] end.

(** The loop of [ReceiverWorker]: what it prints, until the connection ends. *)
Fixpoint ReceiverWorker (recvs : list recv_result) (buffer : bytes) (q : RespValueQueue) (printed : list bytes)
    : res (list bytes) :=
  match recvs with
  | [] => NoFuel
  | r :: recvs =>
      next ← receive r buffer q;
      match next with
      | None => Ok (printed ++ complaint r)
      | Some (buffer, q) =>
          match pop_all q with
          | (q, Ok values) => ReceiverWorker recvs buffer q (printed ++ (Show <$> values))
          | (_, Throw e) => Throw e
          | (_, Undef w) => Undef w
          | (_, NoFuel) => NoFuel
          end
      end
  end.

(** ** Lemmas: words *)

Abbreviation space := (" "%char).

(** Words with single spaces between them. *)
Fixpoint join_words (l : list bytes) : bytes :=
  match l with
  | [] => []
  | [w] => w
  | w :: l => w ++ space :: join_words l
  end.

Lemma join_words_cons w w' l : join_words (w :: w' :: l) = w ++ space :: join_words (w' :: l).
Proof. done. Qed.

Lemma find_sub_space_app w r : space ∉ w -> find_sub (lit " ") (w ++ space :: r) = Some (length w).
Proof.
  induction w as [|c w IH]; intros Hw; [done|]. rewrite not_elem_of_cons in Hw. destruct Hw as [Hc Hw].
  change ((c :: w) ++ space :: r) with (c :: (w ++ space :: r)). cbn [find_sub lit list_ascii_of_string starts_with].
  rewrite (proj2 (Ascii.eqb_neq _ _) Hc). cbn [andb].
  change [space] with (lit " "). by rewrite (IH Hw).
Qed.

Lemma find_sub_space_absent w : space ∉ w -> find_sub (lit " ") w = None.
Proof.
  induction w as [|c w IH]; intros Hw; [done|]. rewrite not_elem_of_cons in Hw. destruct Hw as [Hc Hw].
  cbn [find_sub lit list_ascii_of_string starts_with]. rewrite (proj2 (Ascii.eqb_neq _ _) Hc). cbn [andb].
  change [space] with (lit " "). by rewrite (IH Hw).
Qed.

(** Reading the words back, from the position where they start. *)
Lemma split_loop_words l : forall fuel input current,
  Forall (fun w => space ∉ w) l -> last l <> Some [] -> (length l < fuel)%nat ->
  (current <= length input)%nat -> drop current input = join_words l ->
  split_loop fuel (lit " ") input current = Ok l.
Proof.
  induction l as [|w l IH]; intros fuel input current Hw Hlast Hf Hc Hd;
    (destruct fuel as [|fuel]; [lia|]); cbn [split_loop].
  - cbn in Hd. apply (f_equal length) in Hd. rewrite length_drop in Hd. cbn in Hd.
    by rewrite (proj2 (Nat.ltb_ge _ _)) by lia.
  - apply Forall_cons in Hw as [Hw Hl]. pose proof (f_equal length Hd) as Hlen. rewrite length_drop in Hlen.
    destruct l as [|w' l].
    + cbn [join_words] in *. assert (0 < length w)%nat by (destruct w; [done|cbn; lia]).
      rewrite (proj2 (Nat.ltb_lt _ _)) by lia. unfold find. rewrite (proj2 (Nat.leb_le _ _)) by done.
      rewrite Hd, find_sub_space_absent by done. cbn [fmap option_fmap option_map].
      rewrite substr_ok by done. cbn [mbind res_bind]. rewrite Hd, take_ge by lia.
      rewrite (IH fuel input (length input)); [done|done|done|cbn in *; lia|lia|by rewrite drop_all].
    + rewrite join_words_cons in *. rewrite length_app in Hlen. cbn [length] in Hlen.
      rewrite (proj2 (Nat.ltb_lt _ _)) by lia. unfold find. rewrite (proj2 (Nat.leb_le _ _)) by done.
      rewrite Hd, find_sub_space_app by done. cbn [fmap option_fmap option_map].
      rewrite substr_ok by done. cbn [mbind res_bind].
      replace (current + length w - current)%nat with (length w) by lia. rewrite Hd, take_app_length.
      change (length (lit " ")) with 1%nat.
      rewrite (IH fuel input (current + length w + 1)%nat); [done|done|done|cbn in *; lia|lia|].
      rewrite <- Nat.add_assoc, <- drop_drop, Hd. change (w ++ space :: ?r) with (w ++ [space] ++ r).
      rewrite app_assoc. apply drop_app_eq. rewrite length_app. done.
Qed.

Lemma join_words_length l : (length l <= S (length (join_words l)))%nat.
Proof.
  induction l as [|w l IH]; [cbn; lia|]. destruct l as [|w' l]; [cbn; lia|].
  rewrite join_words_cons, length_app. cbn [length] in *. lia.
Qed.

Lemma Split_words l : Forall (fun w => space ∉ w) l -> last l <> Some [] ->
  Split (lit " ") (join_words l) = Ok l.
Proof.
  intros Hw Hl. apply split_loop_words; [done|done| |lia|done]. pose proof (join_words_length l). lia.
Qed.

(** ** Lemmas: quotes *)

Definition plain (w : bytes) : Prop := head w <> Some quote.

Lemma join_loop_plain l : forall result rest, Forall plain l ->
  join_loop (l ++ rest) [] result = join_loop rest [] (result ++ l).
Proof.
  induction l as [|w l IH]; intros result rest Hl; cbn [app join_loop]; [by rewrite app_nil_r|].
  apply Forall_cons in Hl as [Hw Hl]. rewrite bool_decide_true by done. cbn [negb].
  assert (match w with c :: _ => Ascii.eqb c quote | [] => false end = false) as ->.
  { destruct w as [|c w]; [done|]. apply Ascii.eqb_neq. intros ->. by destruct Hw. }
  rewrite IH by done. by rewrite <- app_assoc.
Qed.

(** Words until one that ends with a quote. *)
Lemma join_loop_quoted ws w : forall acc result rest,
  acc <> [] -> Forall (fun w => ends_with_quote (space :: w) = false) ws ->
  join_loop (ws ++ (w ++ [quote]) :: rest) acc result
  = let acc := acc ++ flat_map (fun w => space :: w) ws ++ space :: w ++ [quote] in
    join_loop rest [] (result ++ [take (length acc - 2) (drop 1 acc)]).
Proof.
  induction ws as [|x ws IH]; intros acc result rest Hacc Hws; cbn [app join_loop flat_map];
    rewrite bool_decide_false by done; cbn [negb]; cbv zeta.
  - assert (forall a, ends_with_quote (a ++ lit " " ++ w ++ [quote]) = true) as Hq.
    { intros a. unfold ends_with_quote. rewrite !app_assoc, last_snoc. apply Ascii.eqb_refl. }
    rewrite Hq. cbn [app]. done.
  - apply Forall_cons in Hws as [Hx Hws].
    assert (ends_with_quote (acc ++ lit " " ++ x) = false) as ->.
    { unfold ends_with_quote in *. rewrite last_app.
      change (lit " " ++ x) with (space :: x). destruct (last (space :: x)) eqn:E; [done|].
      by apply last_None in E. }
    rewrite IH by (done || by destruct acc). cbv zeta. by rewrite <- !app_assoc.
Qed.

(** ** Lemmas: sending *)

(** The answers that are not interruptions. *)
Definition progress (sends : list send_result) : nat :=
  length (List.filter (fun r => match r with SendError EINTR => false | _ => true end) sends).

(** Whatever the kernel answers, the bytes taken are a prefix, and all of them
    when the length is returned. *)
Lemma SendAll_spec sends : forall remaining taken len,
  (length remaining <= progress sends)%nat -> Z.of_nat (length remaining) <= len ->
  exists n p, SendAll sends remaining len taken = Ok (n, taken ++ p) /\ p `prefix_of` remaining
    /\ (n = len <-> p = remaining).
Proof.
  induction sends as [|r sends IH]; intros remaining taken len Hp Hl;
    (destruct remaining as [|c remaining]; cbn [SendAll];
     [exists len, []; rewrite app_nil_r; by split_and!|]); [cbn in Hp; lia|].
  set (rem := c :: remaining) in *. assert (0 < length rem)%nat as Hrem by (cbn; lia). clearbody rem.
  assert (forall n, n <> len -> exists n0 p, Ok (n, taken) = Ok (n0, taken ++ p) /\ p `prefix_of` rem
            /\ (n0 = len <-> p = rem)) as Hstop.
  { intros n Hn. exists n, []. rewrite app_nil_r. split_and!; [done|apply prefix_nil|].
    split; [done|]. intros <-. cbn in Hrem. lia. }
  destruct r as [n|[]]; cbn in Hp; try (apply Hstop; lia); [|by apply IH].
  destruct (0 <? n)%nat eqn:Hn; reflect_bools; [|apply Hstop; lia].
  destruct (IH (drop n rem) (taken ++ take n rem) len) as (m & p & E & Hpre & Hm).
  { rewrite length_drop. cbn in *. unfold progress. lia. }
  { rewrite length_drop. lia. }
  exists m, (take n rem ++ p). rewrite E, app_assoc. split_and!; [done| |].
  - rewrite <- (take_drop n rem) at 2. by apply prefix_app.
  - rewrite Hm. split; [intros ->; apply take_drop|]. intros Ht.
    rewrite <- (take_drop n rem) in Ht at 2. by apply app_inv_head in Ht.
Qed.

(** The request for a line of plain words. *)
Lemma sender_message_words ws : ws <> [] -> Forall (fun w => space ∉ w) ws -> Forall plain ws ->
  last ws <> Some [] -> join_words ws <> lit "exit" ->
  sender_message (join_words ws) = Ok (Some (Serialize (command_line (Some <$> ws)))).
Proof.
  intros Hne Hw Hp Hl Hexit. unfold sender_message. rewrite bool_decide_false by done.
  rewrite Split_words by done. cbn [mbind res_bind]. unfold JoinDelimitedStrings.
  pose proof (join_loop_plain ws [] [] Hp) as Hj. rewrite app_nil_r in Hj. rewrite Hj. cbn [join_loop app].
  rewrite bool_decide_true by done. unfold command_line, Array, BulkString. by rewrite <- list_fmap_compose.
Qed.

(** ** Lemmas: receiving *)

(** A piece the receiver reads as it is: shorter than its buffer, without a
    NUL byte. *)
Definition intact (c : bytes) : Prop := c <> [] /\ (length c < kBufferSize)%nat /\ NUL ∉ c.

Definition intactb (c : bytes) : bool :=
  negb (bool_decide (c = [])) && (length c <? kBufferSize)%nat && bool_decide (NUL ∉ c).

Lemma intactb_spec l : forallb intactb l = true -> Forall intact l.
Proof.
  rewrite forallb_forall, List.Forall_forall. intros H c Hc. specialize (H c Hc). unfold intactb in H.
  rewrite !andb_true_iff, negb_true_iff, bool_decide_eq_false, Nat.ltb_lt, bool_decide_eq_true in H.
  by destruct H as [[]].
Qed.

(** The last byte of the buffer was never written. *)
Definition sealed (buffer : bytes) : Prop := exists front, buffer = front ++ [NUL] /\ length buffer = kBufferSize.

Lemma strlen_app w rest : NUL ∉ w -> strlen (w ++ rest) = Nat.add (length w) <$> strlen rest.
Proof.
  induction w as [|c w IH]; intros Hw; cbn [app strlen length]; [by destruct (strlen rest)|].
  rewrite not_elem_of_cons in Hw. destruct Hw as [Hc Hw]. rewrite (proj2 (Ascii.eqb_neq _ _)) by congruence.
  rewrite IH by done. by destruct (strlen rest).
Qed.

Lemma strlen_None s : NUL ∉ s -> strlen s = None.
Proof. intros Hs. pose proof (strlen_app s [] Hs) as H. by rewrite app_nil_r in H. Qed.

Lemma strlen_Some s : NUL ∈ s -> exists n, strlen s = Some n.
Proof.
  induction s as [|c s IH]; intros Hs; [by apply not_elem_of_nil in Hs|]. cbn [strlen].
  destruct (Ascii.eqb c NUL) eqn:E; [by eexists|]. apply Ascii.eqb_neq in E.
  apply elem_of_cons in Hs as [?|Hs]; [congruence|]. destruct (IH Hs) as [n ->]. by eexists.
Qed.

(** The string read from a buffer in which the bytes [w] come first: they are
    followed by a NUL, or all of them were received now. *)
Lemma buffer_string_front w rest len : NUL ∉ w -> strlen rest = Some len -> len = O ->
  forall n, (length w <= n)%nat -> buffer_string (w ++ rest) n = Ok w.
Proof.
  intros Hw Hr -> n Hn. unfold buffer_string. rewrite strlen_app, Hr by done. cbn [fmap option_fmap option_map].
  rewrite Nat.add_0_r, take_app_length, substr_ok by lia. by rewrite drop_0, take_ge.
Qed.

Lemma buffer_string_all w rest len : NUL ∉ w -> strlen rest = Some len ->
  buffer_string (w ++ rest) (length w) = Ok w.
Proof.
  intros Hw Hr. unfold buffer_string. rewrite strlen_app, Hr by done. cbn [fmap option_fmap option_map].
  rewrite substr_ok by lia. rewrite drop_0, take_take, Nat.min_l, take_app_length by lia. done.
Qed.

Lemma zeroed_sealed : sealed zeroed_buffer.
Proof. exists (replicate 1023 NUL). split; [reflexivity|apply length_replicate]. Qed.

Lemma recv_sealed buffer c : sealed buffer -> intact c ->
  sealed (recv_into buffer c) /\ buffer_string (recv_into buffer c) (length c) = Ok c.
Proof.
  intros (front & -> & Hl) (Hne & Hlen & Hnul). unfold recv_into. rewrite length_app in Hl. cbn in Hl.
  rewrite drop_app_le by lia. split.
  - exists (c ++ drop (length c) front). split; [by rewrite app_assoc|].
    rewrite !length_app, length_drop. cbn. lia.
  - destruct (strlen_Some (drop (length c) front ++ [NUL])) as [n Hn]; [apply elem_of_app; right; left|].
    by eapply buffer_string_all.
Qed.

Lemma ReceiverWorker_feed chunks : forall buffer q printed q' vs, sealed buffer -> Forall intact chunks ->
  feed q chunks = (q', Ok vs) ->
  ReceiverWorker ((Received <$> chunks) ++ [RecvZero]) buffer q printed = Ok (printed ++ (Show <$> vs)).
Proof.
  induction chunks as [|c chunks IH]; intros buffer q printed q' vs Hb Hc Hf; cbn [fmap list_fmap app ReceiverWorker feed] in *.
  - by injection Hf as <- <-.
  - apply Forall_cons in Hc as [Hi Hc]. destruct (recv_sealed buffer c Hb Hi) as [Hb' Hs]. cbn [receive].
    rewrite bool_decide_false by apply Hi. rewrite Hs. cbn [mbind res_bind].
    destruct (pop_all (PushString q c)) as [q1 [vs1|e|w|]]; try done.
    destruct (feed q1 chunks) as [q2 [vs2|e|w|]] eqn:E; try done. cbn in Hf. injection Hf as <- <-.
    rewrite (IH _ _ _ _ _ Hb' Hc E). by rewrite <- app_assoc, fmap_app.
Qed.

(** ** Theorems *)

(** A line typed at the client arrives as the command it spells: words
    without spaces or leading quotes, separated by single spaces, are sent as
    the array of those words; however the kernel cuts the writes, what it
    takes is a prefix of that request, and the client goes on exactly when all
    of it was taken; the server's parser reads it as the request of the
    words. *)
Theorem client_line_sends_command (ws : list bytes) (sends : list send_result) :
  ws <> [] -> Forall (fun w => space ∉ w) ws -> Forall plain ws -> last ws <> Some [] ->
  join_words ws <> lit "exit" ->
  let request := command_line (Some <$> ws) in
  (length (Serialize request) <= progress sends)%nat -> small_str (Serialize request) ->
  exists go_on taken, SenderWorker_round (join_words ws) sends = Ok (go_on, taken)
    /\ taken `prefix_of` Serialize request
    /\ (go_on = true <-> taken = Serialize request)
    /\ FromString (Serialize request) = Ok (request, length (Serialize request)).
Proof.
  intros Hne Hw Hp Hl Hexit request Hprog Hsmall. unfold SenderWorker_round.
  rewrite sender_message_words by done. cbn [mbind res_bind]. fold request.
  destruct (SendAll_spec sends (Serialize request) [] (Z.of_nat (length (Serialize request))) Hprog ltac:(lia))
    as (n & p & -> & Hpre & Hn). cbn [mbind res_bind app].
  eexists _, p. split; [done|]. split_and!; [done| |].
  - by rewrite Z.eqb_eq.
  - pose proof (FromString_reads_back request []) as Hr. rewrite app_nil_r in Hr. apply Hr; [|done].
    apply serializable_array. apply Forall_fmap. apply Forall_true. done.
Qed.

(** Quoted arguments: plain words, then several words the first of which
    starts with a quote and the last of which is the first to end with one,
    become one argument without the quotes (not with them, as the comment in
    the source has it). *)
Theorem quoted_words_joined (ws inner : list bytes) (first last_word : bytes) (rest : list bytes) :
  Forall plain ws -> Forall (fun w => ends_with_quote (space :: w) = false) inner -> Forall plain rest ->
  JoinDelimitedStrings (ws ++ (quote :: first) :: inner ++ (last_word ++ [quote]) :: rest)
  = ws ++ join_words (first :: inner ++ [last_word]) :: rest.
Proof.
  intros Hws Hin Hrest. unfold JoinDelimitedStrings. rewrite join_loop_plain by done. cbn [app join_loop].
  rewrite bool_decide_true by done. cbn [negb]. change (Ascii.eqb quote quote) with true. cbn iota.
  rewrite join_loop_quoted by done. cbv zeta.
  set (acc := (quote :: first) ++ _).
  assert (acc = quote :: join_words (first :: inner ++ [last_word]) ++ [quote]) as ->.
  { unfold acc. cbn [app]. f_equal. clear acc. revert first. induction inner as [|x inner IH]; intros first; cbn [flat_map app].
    - rewrite join_words_cons. cbn [join_words]. by rewrite <- app_assoc.
    - apply Forall_cons in Hin as [_ Hin]. rewrite join_words_cons, <- !app_assoc.
      rewrite (IH Hin x). done. }
  cbn [length drop]. rewrite length_app. cbn [length].
  replace (S (length (join_words (first :: inner ++ [last_word])) + 1) - 2)%nat
    with (length (join_words (first :: inner ++ [last_word]))) by lia.
  rewrite drop_0, take_app_length.
  pose proof (join_loop_plain rest (ws ++ [join_words (first :: inner ++ [last_word])]) [] Hrest) as Hj.
  rewrite app_nil_r in Hj. rewrite Hj. cbn [join_loop]. rewrite bool_decide_true by done.
  by rewrite <- app_assoc.
Qed.

(** The client prints every reply once and in order: however the bytes of
    the replies are cut into pieces shorter than its buffer, when none of them
    is NUL, the lines printed by the time the server closes the connection are
    [Show] of each reply. *)
Theorem receiver_prints_replies (chunks : list bytes) (replies : list RespValue) :
  Forall intact chunks -> Forall serializable replies ->
  concat chunks = flat_map Serialize replies -> small_str (concat chunks) ->
  ReceiverWorker ((Received <$> chunks) ++ [RecvZero]) zeroed_buffer empty_queue [] = Ok (Show <$> replies).
Proof.
  intros Hc Hr Hb Hs. apply (ReceiverWorker_feed chunks zeroed_buffer empty_queue [] empty_queue replies zeroed_sealed Hc).
  apply feed_parses; [done|done|]. cbn [app]. rewrite Hb in *. by apply parses_serialized.
Qed.

(** C27. The client reads what it receives as a C string.  Of the bytes [recv]
    has put into the buffer the parser gets all when none is NUL and a NUL
    comes later in the buffer; when one is NUL, those before the first, so the
    rest of the read is lost; and when the whole buffer is without a NUL, as
    after a read that fills it, the behaviour is undefined. *)
Theorem receiver_reads_c_string (buffer data : bytes) (q : RespValueQueue) :
  data <> [] -> (length data <= kBufferSize)%nat -> length buffer = kBufferSize ->
  let buffer' := recv_into buffer data in
  (NUL ∉ data -> NUL ∈ drop (length data) buffer ->
     receive (Received data) buffer q = Ok (Some (buffer', PushString q data)))
  /\ (forall w rest, data = w ++ NUL :: rest -> NUL ∉ w ->
       receive (Received data) buffer q = Ok (Some (buffer', PushString q w)))
  /\ (NUL ∉ data -> NUL ∉ drop (length data) buffer ->
       receive (Received data) buffer q = Undef "strlen past the end of the array")
  /\ (length data = kBufferSize -> drop (length data) buffer = []).
Proof.
  intros Hd Hl Hb buffer'. cbn [receive]. rewrite bool_decide_false by done. fold buffer'. split_and!.
  - intros Hn [len Hlen]%strlen_Some. unfold buffer', recv_into. by erewrite buffer_string_all.
  - intros w rest -> Hw. unfold buffer', recv_into. rewrite <- app_assoc. cbn [app].
    erewrite buffer_string_front; [done|done|reflexivity|done|]. rewrite length_app. lia.
  - intros Hn Hr. unfold buffer', recv_into, buffer_string. rewrite strlen_app, strlen_None by done. done.
  - intros E. apply drop_ge. lia.
Qed.

(** *** Witnesses *)

Lemma client_line_sends_command_witness :
  let request := command_line (Some <$> [lit "GET"; lit "k"]) in
  exists go_on taken, SenderWorker_round (lit "GET k") (SendError EINTR :: replicate 30 (SendCount 3)) = Ok (go_on, taken)
    /\ taken `prefix_of` Serialize request
    /\ (go_on = true <-> taken = Serialize request)
    /\ FromString (Serialize request) = Ok (request, length (Serialize request)).
Proof.
  apply (client_line_sends_command [lit "GET"; lit "k"] (SendError EINTR :: replicate 30 (SendCount 3))).
  - discriminate.
  - repeat constructor; apply (bool_decide_unpack _); vm_compute; exact I.
  - repeat constructor; discriminate.
  - discriminate.
  - discriminate.
  - vm_compute. lia.
  - reflexivity.
Defined.

Lemma quoted_words_joined_witness :
  JoinDelimitedStrings [lit "test"; quote :: lit "hello"; lit "world" ++ [quote]]
  = [lit "test"; lit "hello world"].
Proof.
  apply (quoted_words_joined [lit "test"] [] (lit "hello") (lit "world") []);
    repeat constructor; discriminate.
Defined.

Lemma receiver_prints_replies_witness :
  ReceiverWorker ((Received <$> [lit ":1" ++ [CR]; LF :: lit "+OK"; crlf]) ++ [RecvZero]) zeroed_buffer empty_queue []
  = Ok (Show <$> [RespInteger 1; RespSimpleString (lit "OK")]).
Proof.
  apply (receiver_prints_replies [lit ":1" ++ [CR]; LF :: lit "+OK"; crlf]
           [RespInteger 1; RespSimpleString (lit "OK")]);
    [apply intactb_spec; reflexivity|repeat constructor|reflexivity|reflexivity].
Defined.

(** The value ["a", NUL, "b"] of a key: the parser is left in the middle of
    it. *)
Lemma receiver_reads_c_string_witness :
  receive (Received (lit "$3" ++ crlf ++ lit "a" ++ NUL :: lit "b" ++ crlf)) zeroed_buffer empty_queue
  = Ok (Some (recv_into zeroed_buffer (lit "$3" ++ crlf ++ lit "a" ++ NUL :: lit "b" ++ crlf),
              PushString empty_queue (lit "$3" ++ crlf ++ lit "a"))).
Proof.
  destruct (receiver_reads_c_string zeroed_buffer (lit "$3" ++ crlf ++ lit "a" ++ NUL :: lit "b" ++ crlf) empty_queue)
    as (_ & H & _); [discriminate|vm_compute; lia|reflexivity|].
  apply (H (lit "$3" ++ crlf ++ lit "a") (lit "b" ++ crlf)); [reflexivity|].
  apply (bool_decide_unpack _). vm_compute. exact I.
Defined.
