(* ===== verification/Terminal.v ===== *)
(** * A session at the terminal: [v2/src/client/main.cc], [connect.cc], [worker.cc]

    The client program as a whole: [Connect] over the addresses of a host, the
    two threads that share the socket, and the process around them, with the
    open descriptors as in Startup.  Then the client and the server of Threads
    together: the network carries the bytes one side has sent to the other, in
    order and in any pieces. *)

From S2P Require Import Prelude CxxString RespValue RespValueQueue Serialise MapInterface Store Handlers CommandSpec EventFd IoThread Server EndToEnd AsyncServer Threads Startup Client.

(** ** [connect.cc] *)

(** An address of the host: what [socket] and [connect] return for it. *)
Record address := mkAddress { socket_answer : Z; connect_answer : Z }.

(** The loop over the addresses. *)
Fixpoint try_addresses (p : process) (res : list address) : option (Z * process) :=
  match res with
  | [] => Some (-1, p)
  | resolved_address :: res =>
      let sock := socket_answer resolved_address in
      p ← opened p sock;
      if sock =? -1 then try_addresses (print p (lit "socket")) res
      else if connect_answer resolved_address =? 0 then Some (sock, p)
      else try_addresses (close_fd p sock) res
  end.

(** [gai_strerror] is the text of [getaddrinfo_result]. *)
Definition Connect (p : process) (hostname port : bytes) (getaddrinfo_result : Z) (gai_strerror : bytes)
    (res : list address) : option (Z * process) :=
  if negb (getaddrinfo_result =? 0) then
    Some (-1, print p (lit "getaddrinfo('" ++ hostname ++ lit "', '" ++ port ++ lit "'): " ++ gai_strerror))
  else try_addresses p res.

(** ** The threads *)

(** The loop of [SenderWorker], a round for every line [getline] gave, with what
    the kernel answered to the writes: whether it is still reading lines, and
    the bytes the kernel took. *)
Fixpoint SenderWorker (rounds : list (bytes * list send_result)) (sent : bytes) : res (bool * bytes) :=
  match rounds with
  | [] => Ok (true, sent)
  | (input, sends) :: rounds =>
      round ← SenderWorker_round input sends;
      let '(go_on, taken) := (round : bool * bytes) in
      if go_on then SenderWorker rounds (sent ++ taken) else Ok (false, sent ++ taken)
  end.

(** ** [main] *)

(** What is outside the program: the host, the user and the connection. *)
Record surroundings := mkSurroundings {
  getaddrinfo_answer : Z;
  gai_text : bytes;
  addresses : list address;
  typed : list (bytes * list send_result);
  arriving : list recv_result
}.

(** [main] after its options are parsed: its exit status, if the program has
    ended.  The threads are joined, so it ends when both have returned; a
    receiver without an answer is waiting in [recv].  There is no result when
    an answer of the kernel is impossible. *)
Definition client_main (p : process) (hostname : bytes) (port : Z) (w : surroundings)
    : option (process * res (option Z)) :=
  '(sock, p) ← Connect p hostname (to_string port) (getaddrinfo_answer w) (gai_text w) (addresses w);
  if sock =? -1 then
    Some (print p (lit "Failed to connect to " ++ hostname ++ lit ":" ++ to_string port), Ok (Some EXIT_FAILURE))
  else
    let p := print p (lit "Successfully connected to: " ++ hostname ++ lit ":" ++ to_string port) in
    match SenderWorker (typed w) [] with
    | Ok (reading, _) =>
        match ReceiverWorker (arriving w) zeroed_buffer empty_queue [] with
        | Ok lines =>
            let p := fold_left print lines p in
            if reading then Some (p, Ok None) else Some (close_fd p sock, Ok (Some 0))
        | NoFuel => Some (p, Ok None)
        | Throw e => Some (p, Throw e)
        | Undef why => Some (p, Undef why)
        end
    | NoFuel => Some (p, Ok None)
    | Throw e => Some (p, Throw e)
    | Undef why => Some (p, Undef why)
    end.

(** ** Lemmas: connecting *)

(** The address does not answer. *)
Definition refuses (a : address) : Prop := socket_answer a = -1 \/ connect_answer a <> 0.

Lemma opened_answer p answer p' : opened p answer = Some p' -> printed p' = printed p
  /\ ((answer < 0 /\ open_fds p' = open_fds p)
     \/ (0 <= answer /\ answer ∉ open_fds p /\ open_fds p' = {[answer]} ∪ open_fds p)).
Proof.
  unfold opened. destruct (answer <? 0) eqn:E; reflect_bools; [intros [= <-]; auto|].
  case_bool_decide; [done|]. intros [= <-]. cbn. auto with lia.
Qed.

Lemma try_addresses_spec l : forall p sock p', Forall (fun a => -1 <= socket_answer a) l ->
  try_addresses p l = Some (sock, p') ->
  (sock = -1 /\ open_fds p' = open_fds p /\ Forall refuses l)
  \/ (0 <= sock /\ sock ∉ open_fds p /\ open_fds p' = {[sock]} ∪ open_fds p
      /\ exists before a after, l = before ++ a :: after /\ Forall refuses before
           /\ socket_answer a = sock /\ connect_answer a = 0).
Proof.
  induction l as [|a l IH]; intros p sock p' Hl Ht; cbn [try_addresses] in Ht.
  { injection Ht as <- <-. by left. }
  apply Forall_cons in Hl as [Ha Hl]. apply bind_Some in Ht as (p1 & Ho & Ht).
  apply opened_answer in Ho as [_ Ho].
  assert (forall p2, open_fds p2 = open_fds p -> refuses a -> try_addresses p2 l = Some (sock, p') ->
    (sock = -1 /\ open_fds p' = open_fds p /\ Forall refuses (a :: l))
    \/ (0 <= sock /\ sock ∉ open_fds p /\ open_fds p' = {[sock]} ∪ open_fds p
        /\ exists before a0 after, a :: l = before ++ a0 :: after /\ Forall refuses before
             /\ socket_answer a0 = sock /\ connect_answer a0 = 0)) as Hnext.
  { intros p2 Hp2 Hr Ht2. destruct (IH p2 sock p' Hl Ht2) as [(H1 & H2 & H3)|(H1 & H2 & H3 & b & a0 & c & -> & H4 & H5)].
    - left. rewrite H2. split_and!; [done|done|by constructor].
    - right. rewrite <- Hp2. split_and!; [done|done|done|]. exists (a :: b), a0, c. split_and!; [done|by constructor|apply H5..]. }
  destruct (socket_answer a =? -1) eqn:E1; reflect_bools.
  - apply (Hnext (print p1 (lit "socket"))); [|by left|done]. cbn. destruct Ho as [[_ ->]|[? _]]; [done|lia].
  - destruct Ho as [[? _]|(H0 & Hn & Ho)]; [lia|]. destruct (connect_answer a =? 0) eqn:E2; reflect_bools.
    + injection Ht as <- <-. right. split_and!; [done|done|done|]. exists [], a, l. by split_and!.
    + apply (Hnext (close_fd p1 (socket_answer a))); [|by right|done]. cbn. rewrite Ho. set_solver.
Qed.

Lemma fold_print_fds lines : forall p, open_fds (fold_left print lines p) = open_fds p.
Proof. induction lines as [|l lines IH]; intros p; [done|]. cbn [fold_left]. by rewrite IH. Qed.

(** ** Lemmas: lines and requests *)

(** The arguments a line spells. *)
Definition line_args (input : bytes) : list bytes :=
  match Split (lit " ") input with Ok pieces => JoinDelimitedStrings pieces | _ => [] end.

Definition line_request (input : bytes) : RespValue := command_line (Some <$> line_args input).

Lemma split_loop_total f : forall input current, (length input - current < f)%nat -> (current <= length input)%nat ->
  exists pieces, split_loop f (lit " ") input current = Ok pieces.
Proof.
  induction f as [|f IH]; intros input current Hf Hc; [lia|]. cbn [split_loop].
  destruct (current <? length input)%nat eqn:E; reflect_bools; [|by eexists].
  destruct (find (lit " ") input current) as [n|] eqn:Hn.
  - apply find_bound in Hn as [H1 H2]. change (length (lit " ")) with 1%nat in *. rewrite substr_ok by done.
    cbn [mbind res_bind]. destruct (IH input (n + 1)%nat) as [ps ->]; [lia|lia|]. by eexists.
  - rewrite substr_ok by done. cbn [mbind res_bind]. destruct (IH input (length input)) as [ps ->]; [lia|lia|]. by eexists.
Qed.

Lemma sender_message_request input : input <> lit "exit" ->
  sender_message input = Ok (Some (Serialize (line_request input))).
Proof.
  intros Hi. unfold sender_message, line_request, line_args, Split. rewrite bool_decide_false by done.
  destruct (split_loop_total (S (S (length input))) input 0) as [ps ->]; [lia|lia|]. cbn [mbind res_bind].
  unfold command_line, Array, BulkString. by rewrite <- list_fmap_compose.
Qed.

Lemma line_request_serializable input : serializable (line_request input).
Proof. apply serializable_array, Forall_fmap, Forall_true. done. Qed.

(** The kernel answers every write until it is done. *)
Definition answered (r : bytes * list send_result) : Prop :=
  (length (Serialize (line_request (fst r))) <= progress (snd r))%nat.

Lemma SenderWorker_sent rounds : forall sent sent', Forall answered rounds ->
  SenderWorker rounds sent = Ok (true, sent') ->
  sent' = sent ++ flat_map Serialize (line_request <$> rounds.*1).
Proof.
  induction rounds as [|[input sends] rounds IH]; intros sent sent' Ha Hs; cbn [SenderWorker] in Hs.
  { injection Hs as <-. cbn. by rewrite app_nil_r. }
  apply Forall_cons in Ha as [H1 Ha]. unfold SenderWorker_round in Hs.
  destruct (decide (input = lit "exit")) as [->|Hi]; [done|].
  rewrite sender_message_request in Hs by done. cbn [mbind res_bind] in Hs.
  set (b := Serialize (line_request input)) in *. cbn [fst] in H1.
  destruct (SendAll_spec sends b [] (Z.of_nat (length b)) H1 ltac:(lia)) as (n & q & E & _ & Hn).
  rewrite E in Hs. cbn [mbind res_bind app] in Hs. destruct (n =? Z.of_nat (length b)) eqn:En; reflect_bools; [|done].
  rewrite (IH _ _ Ha Hs), (proj1 Hn) by done. cbn. by rewrite <- app_assoc.
Qed.

(** What a stream contains is determined. *)
Lemma parses_unique b vs r : parses b vs r -> forall vs' r', parses b vs' r' -> vs' = vs /\ r' = r.
Proof.
  induction 1 as [b Hb|b v n vs r Hv Hp IH]; intros vs' r' H'; inversion H' as [? Hb'|? v' n' vs2 ? Hv' Hp']; subst.
  - done.
  - by rewrite Hv' in Hb.
  - by rewrite Hv in Hb'.
  - rewrite Hv in Hv'. injection Hv' as <- <-. by destruct (IH _ _ Hp') as [-> ->].
Qed.

Lemma exec_all_length l : forall a, length (snd (exec_all a l)) = length l.
Proof.
  induction l as [|[now r] l IH]; intros a; cbn [exec_all]; [done|].
  destruct (exec a now (recognise r)) as [a1 reply]. specialize (IH a1). destruct (exec_all a1 l). cbn in *. by rewrite IH.
Qed.

Lemma timed_length clock l : forall n, length (timed clock n l) = length l.
Proof. induction l as [|r l IH]; intros n; cbn; [done|]. by rewrite IH. Qed.

Lemma own_length {A} k (h : list (Z * RespValue)) : forall l : list A, length l = length h ->
  length (own k h.*1 l) = length (own_requests k h).
Proof.
  induction h as [|[f v] h IH]; intros [|x l] Hl; try done. cbn in *. rewrite !length_app, IH by lia. by case_bool_decide.
Qed.

(** ** Theorems *)

(** C25. The client program ends as it should: it connects to the first address
    that answers; when none does, or the host is unknown, it says so and exits
    with a failure; when it runs and both threads have returned, it exits with
    success.  Whenever it has ended, every descriptor it opened is closed
    again, also those of the addresses that refused; while it runs it holds
    exactly the one of the connection. *)
Theorem client_main_releases (p p' : process) hostname port w r :
  Forall (fun a => -1 <= socket_answer a) (addresses w) ->
  client_main p hostname port w = Some (p', r) ->
  ((getaddrinfo_answer w <> 0 \/ Forall refuses (addresses w))
   /\ r = Ok (Some EXIT_FAILURE) /\ open_fds p' = open_fds p
   /\ last (printed p') = Some (lit "Failed to connect to " ++ hostname ++ lit ":" ++ to_string port))
  \/ exists before a after,
       getaddrinfo_answer w = 0 /\ addresses w = before ++ a :: after /\ Forall refuses before /\ ~ refuses a
       /\ socket_answer a ∉ open_fds p
       /\ match r with
          | Ok (Some status) => status = 0 /\ open_fds p' = open_fds p
          | _ => open_fds p' = {[socket_answer a]} ∪ open_fds p
          end.
Proof.
  intros Hw Hm. unfold client_main, Connect in Hm. destruct (getaddrinfo_answer w =? 0) eqn:Eg; reflect_bools; cbn [negb] in Hm.
  2: { cbn in Hm. injection Hm as <- <-. left. split_and!; [by left|done|done|unfold print; cbn [printed]; by rewrite last_snoc]. }
  apply bind_Some in Hm as ([sock p1] & Ht & Hm).
  destruct (try_addresses_spec _ _ _ _ Hw Ht) as [(-> & Hf & Hr)|(H0 & Hn & Hf & b & a & c & Ha & Hb & Hs & Hc)].
  - injection Hm as <- <-. left. split_and!; [by right|done|done|unfold print; cbn [printed]; by rewrite last_snoc].
  - right. exists b, a, c. rewrite (proj2 (Z.eqb_neq _ _)) in Hm by lia.
    split_and!; [done|done|done|intros [?|?]; [lia|done]|by rewrite Hs|]. rewrite Hs.
    destruct (SenderWorker (typed w) []) as [[reading sent]| | |]; [|injection Hm as <- <-; exact Hf..].
    destruct (ReceiverWorker (arriving w) zeroed_buffer empty_queue []) as [lines| | |]; [|injection Hm as <- <-; exact Hf..].
    destruct reading; injection Hm as <- <-; cbn [open_fds close_fd]; rewrite fold_print_fds; [exact Hf|].
    split; [done|]. cbn [open_fds print]. rewrite Hf. set_solver.
Qed.

Section Session.
Context {M : Type} {ops : MapOps bytes Entry M} {spec : MapSpec bytes Entry M}.
Context (clock : nat -> Z) (cap : nat).

(** C1. From the keyboard to the screen.  A user types lines at the client,
    which sends them through any writes; the server, with all its threads and
    queues and any other clients, in any interleaving, reads them in any
    pieces, and comes to rest with the connection still open and nothing left
    in its buffer; the client receives what the server wrote in any pieces
    shorter than its own buffer, no byte being NUL.  Then the server executed
    exactly the requests the lines spell, in the order they were typed, and the
    client has printed one reply for each line, in order: the reply of the
    abstract store, which executed the requests of all clients one after the
    other.  Provided that the eventfds of the server could be created, that the
    descriptor of the client was accepted only once since the server started,
    and that every request executed, of any client, was safe: read at a clock
    value from 1970 on and below 2^62 ms, and setting no deadline that is out of
    range or equal to the -1 that means none, nor given the null option of
    EXPIRE. *)
Theorem terminal_session (store : M) a hardware command_fd inbox_fds ls s k rounds sent chunks :
  0 <= command_fd -> (forall i, 0 <= inbox_fds i) -> represents store a -> sane_store a ->
  trun clock cap (threads_init store hardware command_fd inbox_fds) ls = Some s ->
  Forall request_safe (timed clock 0 (history s).*2) -> settled s ->
  length (filter (fun f => f = k) (accepts s)) = 1%nat ->
  Forall answered rounds -> SenderWorker rounds [] = Ok (true, sent) ->
  seen s k = sent -> small_str sent ->
  Forall intact chunks -> small_str (concat chunks) ->
  let replies := own k (history s).*1 (snd (exec_all a (timed clock 0 (history s).*2))) in
  exists i p, procs s !! i = Some p
  /\ forall c, connections_ (io p) !! k = Some c -> out_buffer c = [] -> concat chunks = sent_to k (io p) ->
       own_requests k (history s) = line_request <$> rounds.*1
       /\ length replies = length rounds
       /\ ReceiverWorker ((Received <$> chunks) ++ [RecvZero]) zeroed_buffer empty_queue [] = Ok (Show <$> replies).
Proof.
  intros Hc Hi Hrep Hsane Hr Hsafe Hset Hk Hans Hsend Hseen Hsmall Hne Hsc replies.
  destruct (settled_session clock cap store a hardware command_fd inbox_fds ls s Hc Hi Hrep Hsane Hr Hsafe Hset)
    as (_ & _ & Hcl). destruct (Hcl k Hk) as (i & p & Hp & _ & Hconn). exists i, p. split; [exact Hp|].
  intros c Hck Hout Hch. destruct (Hconn c Hck) as [Hparse Hsent]. clear Hcl Hconn Hr Hset.
  pose proof (SenderWorker_sent rounds [] sent Hans Hsend) as Hb. cbn [app] in Hb.
  assert (own_requests k (history s) = line_request <$> rounds.*1) as Hreq.
  { rewrite Hseen in Hparse. pose proof (parses_serialized (line_request <$> rounds.*1)) as Hps.
    rewrite <- Hb in Hps. apply Hps in Hsmall; [|apply Forall_fmap, Forall_true; intros; apply line_request_serializable].
    exact (proj1 (parses_unique _ _ _ Hsmall _ _ Hparse)). }
  split; [exact Hreq|]. split.
  - unfold replies. rewrite own_length by (by rewrite exec_all_length, timed_length, length_fmap).
    by rewrite Hreq, !length_fmap.
  - rewrite Hout, app_nil_r, replies_to_own in Hsent. rewrite Hsent in Hch.
    apply (ReceiverWorker_feed chunks zeroed_buffer empty_queue [] empty_queue replies zeroed_sealed Hne).
    apply feed_parses; [exact Hsc|reflexivity|]. cbn [app]. rewrite Hch in *. apply parses_serialized; [|exact Hsc].
    by apply own_Forall, exec_all_serializable.
Qed.

End Session.

(** *** Witnesses *)

#[local] Existing Instance std_ops.
#[local] Existing Instance std_spec.

(** The first address refuses, the second answers; the user types PING and
    leaves. *)
Definition ping_at_terminal : surroundings :=
  mkSurroundings 0 [] [mkAddress 3 (-1); mkAddress 4 0]
    [(lit "PING", [SendCount 10; SendError EINTR; SendCount 4]); (lit "exit", [])]
    [Received (lit "+PO"); Received (lit "NG" ++ crlf); RecvZero].

Lemma client_main_releases_witness :
  exists p', client_main shell (lit "localhost") 6379 ping_at_terminal = Some (p', Ok (Some 0))
  /\ printed p' = [lit "Successfully connected to: localhost:6379"; quote :: lit "PONG" ++ [quote]]
  /\ open_fds p' = {[0; 1; 2]}.
Proof.
  destruct (checked_some (client_main shell (lit "localhost") 6379 ping_at_terminal) (fun r =>
      match snd r with Ok (Some status) => status =? 0 | _ => false end
      && bool_decide (printed (fst r) = [lit "Successfully connected to: localhost:6379"; quote :: lit "PONG" ++ [quote]])))
    as ([p' r] & E & H); [vm_compute; reflexivity|].
  apply andb_prop in H as [Hr Hp]. apply bool_decide_eq_true in Hp. cbn [fst snd] in Hr, Hp.
  destruct r as [[status|]| | |]; try discriminate. apply Z.eqb_eq in Hr as ->.
  exists p'. split; [exact E|]. split; [exact Hp|].
  destruct (client_main_releases shell p' (lit "localhost") 6379 ping_at_terminal (Ok (Some 0)))
    as [(_ & Hx & _)|(b & a & c & _ & _ & _ & _ & _ & _ & H)].
  - repeat constructor; discriminate.
  - exact E.
  - discriminate Hx.
  - exact H.
Defined.

#[local] Abbreviation ping_state :=
  (trun (fun _ => 100) kQueueCapacity (threads_init (∅ : gmap bytes Entry) 1 3 (fun _ => 4)) sample_moves).

Definition idle_for_5 (p : io_proc) : bool :=
  match connections_ (io p) !! 5 with
  | Some c => bool_decide (out_buffer c = []) && bool_decide (sent_to 5 (io p) = lit "+PONG" ++ crlf)
  | None => false
  end.

Lemma terminal_session_witness :
  exists s, ping_state = Some s
  /\ own_requests 5 (history s) = [line_request (lit "PING")]
  /\ ReceiverWorker [Received (lit "+PO"); Received (lit "NG" ++ crlf); RecvZero] zeroed_buffer empty_queue [] = Ok [quote :: lit "PONG" ++ [quote]].
Proof.
  destruct (checked_some ping_state (fun s => bool_decide (history s = [(5, ping)]) && bool_decide (accepts s = [5])
      && settledb s && bool_decide (seen s 5 = Serialize ping) && forallb idle_for_5 (procs s)))
    as (s & E & Hs); [vm_compute; reflexivity|].
  exists s. split; [exact E|]. rewrite !andb_true_iff in Hs. destruct Hs as [[[[Hh Ha] Hset%settledb_spec] Hseen] Hidle].
  apply bool_decide_eq_true in Hh, Ha, Hseen.
  destruct (terminal_session (fun _ => 100) kQueueCapacity (∅ : gmap bytes Entry) ∅ 1 3 (fun _ => 4) sample_moves s 5
              [(lit "PING", [SendCount 10; SendError EINTR] ++ replicate 20 (SendCount 4))] (Serialize ping)
              [lit "+PO"; lit "NG" ++ crlf]) as (i & p & Hp & H).
  - lia.
  - intros; lia.
  - split; [exact I|reflexivity].
  - intros k v t Hk. by rewrite lookup_empty in Hk.
  - exact E.
  - rewrite Hh. apply Forall_cons_2; [|apply Forall_nil_2]. split; [cbn; lia|exact I].
  - exact Hset.
  - rewrite Ha. reflexivity.
  - apply Forall_cons_2; [|apply Forall_nil_2]. unfold answered. vm_compute. lia.
  - vm_compute. reflexivity.
  - exact Hseen.
  - reflexivity.
  - apply intactb_spec. reflexivity.
  - reflexivity.
  - assert (idle_for_5 p = true) as Hi.
    { rewrite forallb_forall in Hidle. apply Hidle, list_elem_of_In. eapply list_elem_of_lookup_2. exact Hp. }
    unfold idle_for_5 in Hi. destruct (connections_ (io p) !! 5) as [c|] eqn:Hc; [|discriminate].
    apply andb_prop in Hi as [H1 H2]. apply bool_decide_eq_true in H1, H2.
    destruct (H c eq_refl H1) as (R1 & _ & R2); [rewrite H2; reflexivity|].
    split; [exact R1|]. rewrite Hh in R2. exact R2.
Defined.
