(* ===== verification/V1RespValue.v ===== *)
(** * RESP in the threaded server: [v1/src/respvalue/]

    The first server has its own copy of the RESP code.  It is translated here
    closer to the text than the second server's in RespValue: the position is
    the variable [size_t& pos] that the parsers share and change, also when
    they throw; output strings are built by appending; the queue runs the same
    steps in the same order.  Theorem: on every input the two servers parse,
    print, and cut streams into values in the same way, so what is proved of
    the second server's protocol holds of the first. *)

From S2P Require Import Prelude CxxString RespValue RespValueQueue.

(** ** Code that changes [pos] *)

Definition cursor (A : Type) : Type := nat -> res A * nat.

#[export] Instance cursor_ret : MRet cursor := fun A a pos => (Ok a, pos).

#[export] Instance cursor_bind : MBind cursor := fun A B k m pos =>
  match m pos with
  | (Ok a, pos) => k a pos
  | (Throw e, pos) => (Throw e, pos)
  | (Undef w, pos) => (Undef w, pos)
  | (NoFuel, pos) => (NoFuel, pos)
  end.

Definition get_pos : cursor nat := fun pos => (Ok pos, pos).
Definition set_pos (p : nat) : cursor unit := fun _ => (Ok tt, p).
Definition call {A} (r : res A) : cursor A := fun pos => (r, pos).
Definition throw {A} (e : exn) : cursor A := call (Throw e).

(** ** [RespValue.cpp]: parsing *)

Definition parseSimpleString (str : bytes) : cursor bytes :=
  pos ← get_pos;
  match find crlf str (pos + 1) with
  | None => throw (OutOfRange "Missing CRLF for simple string")
  | Some endPos =>
      simpleString ← call (substr str (pos + 1) (endPos - pos - 1));
      _ ← set_pos (endPos + 2);
      mret simpleString
  end.

Definition parseSimpleError (str : bytes) : cursor bytes :=
  pos ← get_pos;
  match find crlf str (pos + 1) with
  | None => throw (OutOfRange "Missing CRLF for simple error")
  | Some endPos =>
      errorMessage ← call (substr str (pos + 1) (endPos - pos - 1));
      _ ← set_pos (endPos + 2);
      mret errorMessage
  end.

Definition parseInteger (str : bytes) : cursor Z :=
  pos ← get_pos;
  match find crlf str (pos + 1) with
  | None => throw (OutOfRange "Missing CRLF for integer")
  | Some endPos =>
      integerString ← call (substr str (pos + 1) (endPos - pos - 1));
      integerValue ← call (stoll integerString);
      _ ← set_pos (endPos + 2);
      mret integerValue
  end.

Definition parseBulkString (str : bytes) : cursor (option bytes) :=
  pos ← get_pos;
  match find crlf str (pos + 1) with
  | None => throw (OutOfRange "Missing CRLF after bulk-string length")
  | Some endOfLength =>
      lengthString ← call (substr str (pos + 1) (endOfLength - pos - 1));
      bulkStringLength ← call (stoll lengthString);
      _ ← set_pos (endOfLength + 2);
      if bulkStringLength =? -1 then mret None
      else if bulkStringLength <=? -2 then
        throw (InvalidArgument "Bulk string has a negative length and is not null bulk string")
      else
        pos ← get_pos;
        if (bulkStringLength <? 0)
           || (Z.of_nat (length str) <? wrap64 (wrap64 (Z.of_nat pos + bulkStringLength) + 2)) then
          throw (OutOfRange "Bulk string payload truncated or missing CRLF")
        else
          let payloadEnd := Z.to_nat (wrap64 (Z.of_nat pos + bulkStringLength)) in
          c ← call (RespValue.index str payloadEnd);
          if negb (Ascii.eqb c CR) then throw (OutOfRange "Bulk string missing terminating CRLF")
          else
            c ← call (RespValue.index str (payloadEnd + 1));
            if negb (Ascii.eqb c LF) then throw (OutOfRange "Bulk string missing terminating CRLF")
            else
              bulkString ← call (substr str pos (Z.to_nat bulkStringLength));
              _ ← set_pos (pos + (Z.to_nat bulkStringLength + 2));
              mret (Some bulkString)
  end.

(** The fuel bounds the depth of the calls, as in RespValue. *)
Fixpoint parseVariant (fuel : nat) (str : bytes) : cursor RespValue :=
  match fuel with
  | O => call NoFuel
  | S f =>
      pos ← get_pos;
      if (length str <=? pos)%nat then
        throw (OutOfRange "Unexpected end of input while parsing RESP value")
      else
        c ← call (RespValue.index str pos);
        if Ascii.eqb c "+" then s ← parseSimpleString str; mret (RespSimpleString s)
        else if Ascii.eqb c "-" then m ← parseSimpleError str; mret (RespSimpleError m)
        else if Ascii.eqb c ":" then n ← parseInteger str; mret (RespInteger n)
        else if Ascii.eqb c "$" then o ← parseBulkString str; mret (RespBulkString o)
        else if Ascii.eqb c "*" then l ← parseArray f str; mret (RespArray l)
        else throw (InvalidArgument "Invalid resp type prefix")
  end
with parseArray (fuel : nat) (str : bytes) : cursor (list RespValue) :=
  match fuel with
  | O => call NoFuel
  | S f =>
      pos ← get_pos;
      match find crlf str (pos + 1) with
      | None => throw (OutOfRange "Missing CRLF after array length")
      | Some endOfLength =>
          lengthString ← call (substr str (pos + 1) (endOfLength - pos - 1));
          arrayLength ← call (stoll lengthString);
          _ ← set_pos (endOfLength + 2);
          if arrayLength <? 0 then throw (InvalidArgument "Negative array length not allowed")
          else parseElements f str 0 arrayLength []
      end
  end
with parseElements (fuel : nat) (str : bytes) (i arrayLength : Z) (output : list RespValue)
    : cursor (list RespValue) :=
  match fuel with
  | O => call NoFuel
  | S f =>
      if i <? arrayLength then
        pos ← get_pos;
        if (length str <=? pos)%nat then throw (OutOfRange "Array element missing/truncated")
        else
          v ← parseVariant f str;
          parseElements f str (i + 1) arrayLength (output ++ [v])
      else mret output
  end.

(** [pos] starts at 0 and is read after the call. *)
Definition FromString (str : bytes) : res (RespValue * nat) :=
  let '(r, pos) := parseVariant (RespValue.parse_fuel str) str 0%nat in
  v ← r; Ok (v, pos).

(** ** [RespValue.cpp]: printing *)

(** [result += element.serialize()] for every element. *)
Fixpoint serialize (v : RespValue) : bytes :=
  match v with
  | RespSimpleString val => lit "+" ++ val ++ crlf
  | RespSimpleError message => lit "-" ++ message ++ crlf
  | RespInteger val => lit ":" ++ to_string val ++ crlf
  | RespBulkString None => lit "$-1" ++ crlf
  | RespBulkString (Some str) => lit "$" ++ to_string (Z.of_nat (length str)) ++ crlf ++ str ++ crlf
  | RespArray val =>
      (fix append (result : bytes) (val : list RespValue) : bytes :=
         match val with
         | [] => result
         | element :: val => append (result ++ serialize element) val
         end) (lit "*" ++ to_string (Z.of_nat (length val)) ++ crlf) val
  end.

(** The loop over the indices [i] of the array. *)
Fixpoint show (v : RespValue) : bytes :=
  match v with
  | RespSimpleString val => [chr 34] ++ val ++ [chr 34]
  | RespSimpleError message => lit "error: " ++ message
  | RespInteger val => to_string val
  | RespBulkString None => lit "(NIL)"
  | RespBulkString (Some str) => [chr 34] ++ str ++ [chr 34]
  | RespArray val =>
      (fix append (i : Z) (result : bytes) (val : list RespValue) : bytes :=
         match val with
         | [] => result
         | element :: val =>
             let result := if negb (i =? 0) then result ++ [LF] else result in
             append (i + 1) (result ++ to_string (i + 1) ++ lit ") " ++ show element) val
         end) 0 [] val
  end.

(** ** [RespValues.cpp] *)

Definition NullBulkString : RespValue := RespBulkString None.
Definition BulkString (string : option bytes) : RespValue := RespBulkString string.
Definition Integer (num : Z) : RespValue := RespInteger num.
Definition Error (message : bytes) : RespValue := RespSimpleError message.
Definition Array (resp_values : list RespValue) : RespValue := RespArray resp_values.

(** ** [RespValueQueue.cpp] *)

Record RespValueQueue := mkQueue {
  buffer_ : bytes;
  values_ : list RespValue
}.

Definition PushString (q : RespValueQueue) (str : bytes) : RespValueQueue :=
  mkQueue (buffer_ q ++ str) (values_ q).

(** The loop inside the [try] block, and the exception that ended it. *)
Fixpoint parse_buffer (fuel : nat) (q : RespValueQueue) : RespValueQueue * res exn :=
  match fuel with
  | O => (q, NoFuel)
  | S f =>
      match FromString (buffer_ q) with
      | Ok (val, pos) =>
          let values := values_ q ++ [val] in
          let buffer := if (pos <? length (buffer_ q))%nat then drop pos (buffer_ q) else [] in
          parse_buffer f (mkQueue buffer values)
      | Throw e => (q, Ok e)
      | Undef w => (q, Undef w)
      | NoFuel => (q, NoFuel)
      end
  end.

Definition PopValue (q : RespValueQueue) : RespValueQueue * res (option RespValue) :=
  let '(q, r) := parse_buffer (S (length (buffer_ q))) q in
  match r with
  | Ok (OutOfRange _) =>
      match values_ q with
      | [] => (q, Ok None)
      | value :: values => (mkQueue (buffer_ q) values, Ok (Some value))
      end
  | Ok e => (q, Throw e)
  | Throw e => (q, Throw e)
  | Undef w => (q, Undef w)
  | NoFuel => (q, NoFuel)
  end.

(** ** Agreement with the second server *)

(** What the caller sees of the position: nothing, when the call threw. *)
Definition outcome {A} (r : res A * nat) : res (A * nat) :=
  let '(r, pos) := r in a ← r; Ok (a, pos).

Lemma outcome_bind {A B} (m : cursor A) (k : A -> cursor B) pos :
  outcome ((m ≫= k) pos) = '(a, p) ← outcome (m pos); outcome (k a p).
Proof. unfold mbind at 1, cursor_bind. destruct (m pos) as [[a|e|w|] p]; done. Qed.

Lemma outcome_get {B} (k : nat -> cursor B) pos : outcome ((get_pos ≫= k) pos) = outcome (k pos pos).
Proof. done. Qed.

Lemma outcome_set {B} p (k : unit -> cursor B) pos : outcome ((set_pos p ≫= k) pos) = outcome (k tt p).
Proof. done. Qed.

Lemma outcome_call {A B} (r : res A) (k : A -> cursor B) pos :
  outcome ((call r ≫= k) pos) = a ← r; outcome (k a pos).
Proof. by destruct r. Qed.

Lemma outcome_then {A B} (m : cursor A) (f : A -> B) pos r : outcome (m pos) = r ->
  outcome ((a ← m; mret (f a)) pos) = '(a, p) ← r; Ok (f a, p).
Proof. intros <-. rewrite outcome_bind. by destruct (outcome (m pos)) as [[]| | |]. Qed.

Ltac same_outcome :=
  repeat first
    [ rewrite outcome_get | rewrite outcome_set | rewrite outcome_call
    | match goal with |- mbind _ ?m = mbind _ ?m => destruct m; cbn [mbind res_bind]; try reflexivity end
    | case_match; try reflexivity ].

Lemma parseSimpleString_agrees str pos :
  outcome (parseSimpleString str pos) = RespValue.ParseSimpleString str pos.
Proof. unfold parseSimpleString, RespValue.ParseSimpleString. by same_outcome. Qed.

Lemma parseSimpleError_agrees str pos :
  outcome (parseSimpleError str pos) = RespValue.ParseSimpleError str pos.
Proof. unfold parseSimpleError, RespValue.ParseSimpleError. by same_outcome. Qed.

Lemma parseInteger_agrees str pos :
  outcome (parseInteger str pos) = RespValue.ParseInteger str pos.
Proof. unfold parseInteger, RespValue.ParseInteger. by same_outcome. Qed.

Lemma parseBulkString_agrees str pos :
  outcome (parseBulkString str pos) = RespValue.ParseBulkString str pos.
Proof. unfold parseBulkString, RespValue.ParseBulkString. cbv zeta. by same_outcome. Qed.

Lemma parse_agrees str f :
  (forall pos, outcome (parseVariant f str pos) = RespValue.ParseVariant f str pos)
  /\ (forall pos, outcome (parseArray f str pos) = RespValue.ParseArray f str pos)
  /\ (forall i n output pos, outcome (parseElements f str i n output pos) = RespValue.ParseElements f str i n pos output).
Proof.
  induction f as [|f (IHv & IHa & IHe)]; [done|]. split_and!.
  - intros pos. cbn [parseVariant RespValue.ParseVariant]. rewrite outcome_get. destruct (length str <=? pos)%nat; [done|].
    rewrite outcome_call. destruct (RespValue.index str pos) as [c| | |]; try done. cbn [mbind res_bind].
    repeat (destruct (Ascii.eqb c _); [by apply outcome_then; auto using parseSimpleString_agrees,
      parseSimpleError_agrees, parseInteger_agrees, parseBulkString_agrees|]). done.
  - intros pos. cbn [parseArray RespValue.ParseArray]. rewrite outcome_get. destruct (find _ _ _); [|done].
    rewrite outcome_call. destruct (substr _ _ _); try done. cbn [mbind res_bind].
    rewrite outcome_call. destruct (stoll _); try done. cbn [mbind res_bind]. rewrite outcome_set.
    destruct (_ <? 0); [done|]. apply IHe.
  - intros i n output pos. cbn [parseElements RespValue.ParseElements]. destruct (i <? n); [|done].
    rewrite outcome_get. destruct (length str <=? pos)%nat; [done|]. rewrite outcome_bind, IHv.
    destruct (RespValue.ParseVariant f str pos) as [[v p]| | |]; try done. apply IHe.
Qed.

Lemma FromString_agrees str : FromString str = RespValue.FromString str.
Proof. destruct (parse_agrees str (RespValue.parse_fuel str)) as (H & _). exact (H 0%nat). Qed.

Lemma serialize_agrees v : serialize v = RespValue.Serialize v.
Proof.
  induction v as [s|m|n|[b|]|l IH] using RespValue_rect'; try done. cbn [serialize RespValue.Serialize].
  match goal with |- ?f _ l = _ => set (append := f) end.
  assert (forall result, append result l = result ++ flat_map RespValue.Serialize l) as H.
  { induction IH as [|e l He _ IHl]; intros result; cbn; [by rewrite app_nil_r|].
    fold append. rewrite IHl, He. by rewrite <- app_assoc. }
  rewrite H. by rewrite <- !app_assoc.
Qed.

Lemma show_agrees v : show v = RespValue.Show v.
Proof.
  induction v as [s|m|n|[b|]|l IH] using RespValue_rect'; try done. cbn [show RespValue.Show].
  match goal with |- ?f 0 [] l = ?g 0 l => set (append := f); set (show_from := g) end.
  enough (forall i result, append i result l = result ++ show_from i l) as H by (apply (H 0 [])).
  induction IH as [|e l He _ IHl]; intros i result; cbn; [by rewrite app_nil_r|].
  fold append show_from. rewrite IHl, He. destruct (i =? 0); cbn [negb app]; by rewrite <- !app_assoc.
Qed.

Definition same_queue (q : RespValueQueue) : RespValueQueue.RespValueQueue :=
  RespValueQueue.mkQueue (buffer_ q) (values_ q).

Lemma parse_buffer_agrees f : forall q,
  RespValueQueue.parse_loop f (same_queue q)
  = (same_queue (fst (parse_buffer f q)),
     match snd (parse_buffer f q) with
     | Ok (OutOfRange _) => Ok tt
     | Ok e => Throw e
     | Throw e => Throw e
     | Undef w => Undef w
     | NoFuel => NoFuel
     end).
Proof.
  induction f as [|f IH]; intros q; [done|]. cbn [parse_buffer RespValueQueue.parse_loop].
  rewrite FromString_agrees. cbn [same_queue RespValueQueue.buffer_ RespValueQueue.values_].
  destruct (RespValue.FromString (buffer_ q)) as [[v pos]|[]| |]; try done.
  apply (IH (mkQueue _ _)).
Qed.

Lemma PopValue_agrees q :
  RespValueQueue.PopValue (same_queue q) = (same_queue (fst (PopValue q)), snd (PopValue q)).
Proof.
  unfold PopValue, RespValueQueue.PopValue.
  change (RespValueQueue.buffer_ (same_queue q)) with (buffer_ q).
  rewrite parse_buffer_agrees. destruct (parse_buffer _ q) as [q' [[]| | |]]; cbn; try done.
  destruct q' as [b [|v vs]]; done.
Qed.

(** ** Theorem *)

(** C30. The two servers speak the same protocol: on every string the parser of
    the first gives the value, the position or the exception of the second's,
    every value is serialized and shown as the same bytes, and a queue in the
    same state yields the same value and is left in the same state. *)
Theorem v1_speaks_same_protocol :
  (forall str, FromString str = RespValue.FromString str)
  /\ (forall v, serialize v = RespValue.Serialize v)
  /\ (forall v, show v = RespValue.Show v)
  /\ (forall q str, RespValueQueue.PushString (same_queue q) str = same_queue (PushString q str))
  /\ (forall q, RespValueQueue.PopValue (same_queue q) = (same_queue (fst (PopValue q)), snd (PopValue q))).
Proof.
  split_and!; [apply FromString_agrees|apply serialize_agrees|apply show_agrees|done|apply PopValue_agrees].
Qed.
