(* ===== verification/V1Client.v ===== *)
(** * The first client: [v1/src/client/], [v1/src/network/SendAll.cpp]

    The client that came with the first server, translated closer to the text
    than the second one in Client and Terminal: positions and lengths are the
    64-bit [size_t] of the source with their wrap-around, [npos] is a number,
    [SendAll] moves a pointer and compares signed with unsigned results, the
    receiver prints as it goes.  Theorem: for inputs and messages that fit in
    memory, and a kernel that takes no more than it is given, the two programs
    do the same. *)

From S2P Require Import Prelude CxxString RespValue RespValueQueue Serialise Handlers CommandSpec IoThread Server Startup Client Terminal V1RespValue.

(** ** [StringHelpers.cpp] *)

Definition npos : Z := 2 ^ 64 - 1.

Definition size (s : bytes) : Z := Z.of_nat (length s).

(** [input.find(delimiter, current)] with its answer as a [size_t]. *)
Definition find_from (delimiter input : bytes) (current : Z) : Z :=
  match find delimiter input (Z.to_nat current) with Some n => Z.of_nat n | None => npos end.

(** [input.substr(pos, count)]; a [count] beyond the end is cut. *)
Definition substr_at (input : bytes) (pos count : Z) : res bytes :=
  substr input (Z.to_nat pos) (Z.to_nat (Z.min count (size input))).

Fixpoint split_while (fuel : nat) (delimiter input : bytes) (current : Z) (split_up_strings : list bytes)
    : res (list bytes) :=
  match fuel with
  | O => NoFuel
  | S f =>
      if current <? size input then
        let next := find_from delimiter input current in
        piece ← substr_at input current (wrap64 (next - current));
        let current := if next =? npos then size input else wrap64 (next + size delimiter) in
        split_while f delimiter input current (split_up_strings ++ [piece])
      else Ok split_up_strings
  end.

(** Each round but the last gets past at least one byte of the input. *)
Definition Split (delimiter input : bytes) : res (list bytes) :=
  split_while (S (S (length input))) delimiter input 0 [].

(** [word[0]], on a word that is not empty. *)
Definition starts_quoted (word : bytes) : res bool :=
  if bool_decide (word = []) then Ok false else c ← index word 0; Ok (Ascii.eqb c quote).

Fixpoint join_for (input : list bytes) (acc : bytes) (result : list bytes) : res (list bytes) :=
  match input with
  | [] => Ok (if negb (bool_decide (acc = [])) then result ++ [acc] else result)
  | word :: input =>
      if negb (bool_decide (acc = [])) then
        let acc := acc ++ lit " " ++ word in
        last_char ← index acc (Z.to_nat (wrap64 (size acc - 1)));
        if Ascii.eqb last_char quote then
          joined ← substr_at acc 1 (wrap64 (size acc - 2));
          join_for input [] (result ++ [joined])
        else join_for input acc result
      else
        quoted ← starts_quoted word;
        if quoted : bool then join_for input word result else join_for input acc (result ++ [word])
  end.

Definition JoinDelimitedStrings (input : list bytes) : res (list bytes) := join_for input [] [].

(** ** [SendAll.cpp] *)

(** What [send] returns, as a [ssize_t], and [errno] after it. *)
Definition send_return (r : send_result) : Z := match r with SendCount n => Z.of_nat n | SendError _ => -1 end.
Definition send_errno (r : send_result) : errno := match r with SendCount _ => EOTHER | SendError e => e end.

(** A [size_t] returned as a [ssize_t]. *)
Definition to_ssize (n : Z) : Z := if n <? 2 ^ 63 then n else n - 2 ^ 64.

(** [p]: the offset of the pointer in [buf]; the bytes the kernel takes are
    recorded. *)
Fixpoint send_while (sends : list send_result) (buf : bytes) (len p remaining : Z) (taken : bytes) : res (Z * bytes) :=
  if 0 <? remaining then
    match sends with
    | [] => NoFuel
    | r :: sends =>
        let n := send_return r in
        if 0 <? n then
          send_while sends buf len (p + n) (wrap64 (remaining - n))
            (taken ++ take (Z.to_nat n) (drop (Z.to_nat p) buf))
        else if n =? 0 then Ok (to_ssize (wrap64 (len - remaining)), taken)
        else if n =? -1 then
          match send_errno r with
          | EINTR => send_while sends buf len p remaining taken
          | EAGAIN | EWOULDBLOCK => Ok (-2, taken)
          | EOTHER => Ok (-1, taken)
          end
        else send_while sends buf len p remaining taken
    end
  else Ok (to_ssize len, taken).

Definition SendAll (sends : list send_result) (buf : bytes) (len : Z) : res (Z * bytes) :=
  send_while sends buf len 0 len [].

(** ** [Worker.cpp] *)

(** The round for one line of input: whether to go on, and what was sent.  The
    comparison with the size converts the result of [SendAll] to [size_t]. *)
Definition SenderWorker_round (input : bytes) (sends : list send_result) : res (bool * bytes) :=
  if bool_decide (input = lit "exit") then Ok (false, [])
  else
    pieces ← Split (lit " ") input;
    split_input ← JoinDelimitedStrings pieces;
    let resp_values := (fun value => BulkString (Some value)) <$> split_input in
    let message := Array resp_values in
    let serialised_message := serialize message in
    '(n, taken) ← SendAll sends serialised_message (size serialised_message);
    Ok (wrap64 n =? size serialised_message, taken).

Fixpoint SenderWorker (rounds : list (bytes * list send_result)) (sent : bytes) : res (bool * bytes) :=
  match rounds with
  | [] => Ok (true, sent)
  | (input, sends) :: rounds =>
      round ← SenderWorker_round input sends;
      let '(go_on, taken) := (round : bool * bytes) in
      if go_on then SenderWorker rounds (sent ++ taken) else Ok (false, sent ++ taken)
  end.

Definition num_bytes (r : recv_result) : Z :=
  match r with Received data => size data | RecvZero => 0 | RecvError _ => -1 end.

(** What a [recv] wrote, and [errno] after it. *)
Definition recv_data (r : recv_result) : bytes := match r with Received data => data | _ => [] end.
Definition recv_errno (r : recv_result) : errno := match r with RecvError e => e | _ => EOTHER end.

(** The [if] around [recv]: [None] to [break]. *)
Definition receive (r : recv_result) (buffer : bytes) (q : V1RespValue.RespValueQueue)
    : res (option (bytes * V1RespValue.RespValueQueue)) :=
  let buffer := recv_into buffer (recv_data r) in
  if 0 <? num_bytes r then
    str ← buffer_string buffer (Z.to_nat (num_bytes r));
    Ok (Some (buffer, V1RespValue.PushString q str))
  else if num_bytes r =? 0 then Ok None
  else match recv_errno r with EINTR => Ok (Some (buffer, q)) | _ => Ok None end.

(** The inner loop: [show] of every value, until [PopValue] has none. *)
Fixpoint print_values (fuel : nat) (q : V1RespValue.RespValueQueue) (printed : list bytes)
    : V1RespValue.RespValueQueue * (list bytes * res unit) :=
  match fuel with
  | O => (q, (printed, NoFuel))
  | S f =>
      match V1RespValue.PopValue q with
      | (q, Ok (Some value)) => print_values f q (printed ++ [show value])
      | (q, Ok None) => (q, (printed, Ok tt))
      | (q, Throw e) => (q, (printed, Throw e))
      | (q, Undef w) => (q, (printed, Undef w))
      | (q, NoFuel) => (q, (printed, NoFuel))
      end
  end.

(** The lines printed and how the loop ended: there is no fuel left when it
    waits in [recv]. *)
Fixpoint ReceiverWorker (recvs : list recv_result) (buffer : bytes) (resp_value_queue : V1RespValue.RespValueQueue)
    (printed : list bytes) : list bytes * res unit :=
  match recvs with
  | [] => (printed, NoFuel)
  | r :: recvs =>
      match receive r buffer resp_value_queue with
      | Ok None => (printed ++ complaint r, Ok tt)
      | Ok (Some (buffer, q)) =>
          match print_values (S (length (V1RespValue.values_ q) + length (V1RespValue.buffer_ q))) q printed with
          | (q, (printed, Ok tt)) => ReceiverWorker recvs buffer q printed
          | (_, stopped) => stopped
          end
      | Throw e => (printed, Throw e)
      | Undef w => (printed, Undef w)
      | NoFuel => (printed, NoFuel)
      end
  end.

(** ** [Connect.cpp] *)

(** The loop with its variable [sock]. *)
Fixpoint connect_for (p : process) (sock : Z) (res : list address) : option (Z * process) :=
  match res with
  | [] => Some (sock, p)
  | resolved_address :: res =>
      let sock := socket_answer resolved_address in
      p ← opened p sock;
      if sock =? -1 then connect_for (print p (lit "socket")) sock res
      else if connect_answer resolved_address =? 0 then Some (sock, p)
      else connect_for (close_fd p sock) (-1) res
  end.

Definition Connect (p : process) (hostname port : bytes) (getaddrinfo_result : Z) (gai_strerror : bytes)
    (res : list address) : option (Z * process) :=
  if negb (getaddrinfo_result =? 0) then
    Some (-1, print p (lit "getaddrinfo('" ++ hostname ++ lit "', '" ++ port ++ lit "'): " ++ gai_strerror))
  else connect_for p (-1) res.

(** ** [main.cpp] *)

(** As [Terminal.client_main]; the lines are printed also when the receiver
    does not return. *)
Definition client_main (p : process) (hostname : bytes) (port : Z) (w : surroundings)
    : option (process * res (option Z)) :=
  '(sock, p) ← Connect p hostname (to_string port) (getaddrinfo_answer w) (gai_text w) (addresses w);
  if sock =? -1 then
    Some (print p (lit "Failed to connect to " ++ hostname ++ lit ":" ++ to_string port), Ok (Some EXIT_FAILURE))
  else
    let p := print p (lit "Successfully connected to: " ++ hostname ++ lit ":" ++ to_string port) in
    match SenderWorker (typed w) [] with
    | Ok (reading, _) =>
        let '(lines, received) := ReceiverWorker (arriving w) zeroed_buffer (V1RespValue.mkQueue [] []) [] in
        let p := fold_left print lines p in
        match received with
        | Ok _ => if reading then Some (p, Ok None) else Some (close_fd p sock, Ok (Some 0))
        | NoFuel => Some (p, Ok None)
        | Throw e => Some (p, Throw e)
        | Undef why => Some (p, Undef why)
        end
    | NoFuel => Some (p, Ok None)
    | Throw e => Some (p, Throw e)
    | Undef why => Some (p, Undef why)
    end.

(** ** Agreement: words *)

Lemma size_small s : small_str s -> 0 <= size s < 2 ^ 63 - 2.
Proof. unfold small_str, size. lia. Qed.

Lemma split_while_agrees f : forall delimiter input current acc,
  small_str input -> (current <= length input)%nat ->
  split_while f delimiter input (Z.of_nat current) acc
  = pieces ← split_loop f delimiter input current; Ok (acc ++ pieces).
Proof.
  induction f as [|f IH]; intros delimiter input current acc Hs Hc; [done|]. cbn [split_while split_loop].
  pose proof (size_small _ Hs) as Hsz. unfold size at 1.
  destruct (current <? length input)%nat eqn:E; reflect_bools;
    [rewrite (proj2 (Z.ltb_lt _ _)) by lia|rewrite (proj2 (Z.ltb_ge _ _)) by lia; cbn; by rewrite app_nil_r].
  unfold find_from, substr_at. rewrite Nat2Z.id. destruct (find delimiter input current) as [n|] eqn:Hn.
  - apply find_bound in Hn as [H1 H2]. unfold size in *. cbv zeta.
    rewrite (wrap64_small (Z.of_nat n - _)) by lia. rewrite Z.min_l by lia.
    replace (Z.to_nat (Z.of_nat n - Z.of_nat current)) with (n - current)%nat by lia.
    rewrite substr_ok by done. cbn [mbind res_bind]. unfold npos. rewrite (proj2 (Z.eqb_neq _ _)) by lia.
    rewrite wrap64_small by lia. replace (Z.of_nat n + Z.of_nat (length delimiter)) with (Z.of_nat (n + length delimiter)) by lia.
    rewrite IH by (done || lia). destruct (split_loop f delimiter input _); cbn; try done. by rewrite <- app_assoc.
  - cbv zeta. rewrite (wrap64_small (npos - _)), Z.min_r by (unfold npos, size in *; lia).
    rewrite Z.eqb_refl. unfold size. rewrite Nat2Z.id, substr_ok by done. cbn [mbind res_bind]. rewrite IH by (done || lia).
    destruct (split_loop f delimiter input _); cbn; try done. by rewrite <- app_assoc.
Qed.

(** The words and the blanks between them are no longer than the line. *)
Definition words_size (l : list bytes) : nat := sum_list_with (fun w => S (length w)) l.

Lemma split_loop_size f : forall input current pieces, (current <= length input)%nat ->
  split_loop f (lit " ") input current = Ok pieces -> (words_size pieces <= length input - current + 1)%nat.
Proof.
  induction f as [|f IH]; intros input current pieces Hc Hs; cbn [split_loop] in Hs; [done|].
  destruct (current <? length input)%nat eqn:E; reflect_bools; [|injection Hs as <-; cbn; lia].
  destruct (find (lit " ") input current) as [n|] eqn:Hn.
  - apply find_bound in Hn as [H1 H2]. change (length (lit " ")) with 1%nat in *. rewrite substr_ok in Hs by done.
    cbn [mbind res_bind] in Hs. destruct (split_loop f _ input (n + 1)) as [ps| | |] eqn:Hp; try done. injection Hs as <-.
    apply IH in Hp; [|lia]. unfold words_size in *. cbn [sum_list_with]. rewrite length_take, length_drop. lia.
  - rewrite substr_ok in Hs by done. cbn [mbind res_bind] in Hs.
    destruct (split_loop f _ input (length input)) as [ps| | |] eqn:Hp; try done. injection Hs as <-.
    destruct f as [|f']; [done|]. cbn [split_loop] in Hp. rewrite Nat.ltb_irrefl in Hp. injection Hp as <-.
    unfold words_size. cbn [sum_list_with]. rewrite length_take, length_drop. lia.
Qed.

Lemma last_index s : s <> [] -> exists c, index s (length s - 1) = Ok c /\ last s = Some c.
Proof.
  intros Hs. unfold index. rewrite last_lookup. replace (pred (length s)) with (length s - 1)%nat by lia.
  destruct (lookup_lt_is_Some_2 s (length s - 1)) as [c ->]; [destruct s; [done|cbn; lia]|]. by exists c.
Qed.

Lemma join_for_agrees input : forall acc result,
  Z.of_nat (length acc + words_size input) < 2 ^ 64 ->
  join_for input acc result = Ok (join_loop input acc result).
Proof.
  induction input as [|word input IH]; intros acc result Hs; cbn [join_for join_loop].
  { by case_bool_decide. }
  unfold words_size in *. cbn [sum_list_with] in Hs. case_bool_decide as Ha; cbn [negb].
  - subst acc. assert (starts_quoted word = Ok (match word with c :: _ => Ascii.eqb c quote | [] => false end)) as ->.
    { by destruct word. }
    cbn [mbind res_bind]. case_match; rewrite IH by (cbn; lia); done.
  - set (acc' := acc ++ lit " " ++ word).
    assert (length acc' = length acc + S (length word))%nat as Hl by (unfold acc'; rewrite !length_app; done).
    assert (0 < length acc)%nat by (destruct acc; [done|cbn; lia]).
    unfold size. rewrite !wrap64_small by lia. replace (Z.to_nat (Z.of_nat (length acc') - 1)) with (length acc' - 1)%nat by lia.
    destruct (last_index acc') as (c & -> & Hc); [intros E; rewrite E in Hl; cbn in Hl; lia|].
    unfold ends_with_quote. rewrite Hc. cbn [mbind res_bind]. destruct (Ascii.eqb c quote).
    + unfold substr_at, size. rewrite Z.min_l by lia. change (Z.to_nat 1) with 1%nat. rewrite substr_ok by lia.
      cbn [mbind res_bind]. replace (Z.to_nat (Z.of_nat (length acc') - 2)) with (length acc' - 2)%nat by lia.
      rewrite IH by (cbn; lia). done.
    + rewrite IH by lia. done.
Qed.

Lemma line_words_agree input : small_str input ->
  exists pieces, Split (lit " ") input = Ok pieces /\ JoinDelimitedStrings pieces = Ok (line_args input).
Proof.
  intros Hs. unfold Split, line_args, Client.Split.
  destruct (split_loop_total (S (S (length input))) input 0) as [ps E]; [lia|lia|].
  change 0 with (Z.of_nat 0). rewrite split_while_agrees by (done || lia). rewrite E. cbn [mbind res_bind app].
  exists ps. split; [done|]. apply join_for_agrees. apply split_loop_size in E; [|lia].
  unfold small_str in Hs. cbn [length]. lia.
Qed.

(** ** Agreement: sending *)

(** The kernel takes no more bytes than it is given. *)
Fixpoint plausible (sends : list send_result) (remaining : nat) : bool :=
  match sends with
  | [] => true
  | SendCount n :: sends => (n <=? remaining)%nat && plausible sends (remaining - n)
  | SendError _ :: sends => plausible sends remaining
  end.

Lemma send_while_agrees sends : forall buf p remaining taken, small_str buf ->
  (p + remaining = length buf)%nat -> plausible sends remaining = true ->
  send_while sends buf (size buf) (Z.of_nat p) (Z.of_nat remaining) taken
  = Client.SendAll sends (drop p buf) (size buf) taken.
Proof.
  intros buf p remaining taken Hs. pose proof (size_small _ Hs) as Hsz.
  assert (to_ssize (size buf) = size buf) as Hto by (unfold to_ssize; by rewrite (proj2 (Z.ltb_lt _ _)) by lia).
  revert p remaining taken. induction sends as [|r sends IH]; intros p remaining taken Hp Hpl.
  - cbn [send_while Client.SendAll]. destruct (drop p buf) as [|c l] eqn:E; apply (f_equal length) in E;
      rewrite length_drop in E; cbn in E.
    + rewrite (proj2 (Z.ltb_ge _ _)) by lia. by rewrite Hto.
    + by rewrite (proj2 (Z.ltb_lt _ _)) by lia.
  - cbn [send_while Client.SendAll]. destruct (drop p buf) as [|c l] eqn:E; pose proof (f_equal length E) as El;
      rewrite length_drop in El; cbn [length] in El.
    + rewrite (proj2 (Z.ltb_ge _ _)) by lia. by rewrite Hto.
    + rewrite (proj2 (Z.ltb_lt _ _)) by lia. rewrite <- E. clear c l E El.
      destruct r as [n|e]; cbn [send_return send_errno plausible] in *.
      * apply andb_prop in Hpl as [Hn Hpl]. reflect_bools. destruct (0 <? n)%nat eqn:E0; reflect_bools.
        -- rewrite (proj2 (Z.ltb_lt _ _)) by lia. cbn [plausible] in *. rewrite !Nat2Z.id.
           unfold size in *. rewrite wrap64_small by lia.
           replace (Z.of_nat p + Z.of_nat n) with (Z.of_nat (p + n)) by lia.
           replace (Z.of_nat remaining - Z.of_nat n) with (Z.of_nat (remaining - n)) by lia.
           rewrite (IH (p + n)%nat (remaining - n)%nat) by (done || lia). by rewrite drop_drop.
        -- replace n with 0%nat by lia. cbn [Z.of_nat]. rewrite Z.ltb_irrefl, Z.eqb_refl, length_drop.
           unfold size in *. rewrite wrap64_small by lia. unfold to_ssize. rewrite (proj2 (Z.ltb_lt _ _)) by lia. do 2 f_equal. lia.
      * destruct e; try done. by apply IH.
Qed.

Lemma SendAll_range sends : forall remaining taken len n b, Z.of_nat (length remaining) <= len ->
  Client.SendAll sends remaining len taken = Ok (n, b) -> -2 <= n <= len.
Proof.
  induction sends as [|r sends IH]; intros remaining taken len n b Hl H; cbn [Client.SendAll] in H;
    destruct remaining as [|c l]; try done; try (injection H as <- _; lia).
  destruct r as [m|[]]; try (injection H as <- _; cbn [length] in Hl; lia).
  - destruct (0 <? m)%nat; [|cbn [length] in *; injection H as <- _; lia]. eapply IH; [|exact H]. rewrite length_drop. lia.
  - by eapply IH in H.
Qed.

(** A line, its answers and its message fit. *)
Definition round_ok (r : bytes * list send_result) : Prop :=
  small_str (fst r) /\ small_str (Serialize (line_request (fst r)))
  /\ plausible (snd r) (length (Serialize (line_request (fst r)))) = true.

Lemma round_agrees input sends : round_ok (input, sends) ->
  SenderWorker_round input sends = Client.SenderWorker_round input sends.
Proof.
  intros (H1 & H2 & H3). cbn [fst snd] in *. unfold SenderWorker_round, Client.SenderWorker_round.
  destruct (decide (input = lit "exit")) as [->|Hne]; [done|]. rewrite sender_message_request by done.
  rewrite bool_decide_false by done. destruct (line_words_agree input H1) as (ps & -> & E). cbn [mbind res_bind].
  rewrite E. cbn [mbind res_bind].
  assert (serialize (Array ((fun value => BulkString (Some value)) <$> line_args input)) = Serialize (line_request input)) as ->.
  { rewrite serialize_agrees. unfold line_request, command_line. by rewrite <- list_fmap_compose. }
  set (m := Serialize (line_request input)) in *. unfold SendAll. pose proof (size_small _ H2) as Hsz.
  pose proof (send_while_agrees sends m 0 (length m) [] H2 eq_refl H3) as Hs. fold (size m) in Hs.
  change (Z.of_nat 0) with 0 in Hs. rewrite Hs, drop_0. fold (size m).
  destruct (Client.SendAll sends m (size m) []) as [[n b]| | |] eqn:Hn; try done. cbn [mbind res_bind].
  apply SendAll_range in Hn; [|done]. f_equal. f_equal.
  destruct (decide (0 <= n)); [by rewrite wrap64_small by lia|].
  unfold wrap64. rewrite <- (Zmod_unique n (2 ^ 64) (-1) (n + 2 ^ 64)) by lia.
  by rewrite !(proj2 (Z.eqb_neq _ _)) by lia.
Qed.

Lemma SenderWorker_agrees rounds : forall sent, Forall round_ok rounds ->
  SenderWorker rounds sent = Terminal.SenderWorker rounds sent.
Proof.
  induction rounds as [|[input sends] rounds IH]; intros sent H; [done|]. apply Forall_cons in H as [H1 H].
  cbn [SenderWorker Terminal.SenderWorker]. rewrite round_agrees by done.
  destruct (Client.SenderWorker_round input sends) as [[[] b]| | |]; cbn [mbind res_bind]; auto.
Qed.

(** ** Agreement: receiving *)

Definition same_next (next : option (bytes * V1RespValue.RespValueQueue)) : option (bytes * RespValueQueue.RespValueQueue) :=
  match next with Some (buffer, q) => Some (buffer, same_queue q) | None => None end.

Lemma receive_agrees r buffer q : Client.receive r buffer (same_queue q) = same_next <$> receive r buffer q.
Proof.
  unfold receive, Client.receive. destruct r as [data| |e]; cbn [num_bytes recv_data recv_errno].
  - unfold size. case_bool_decide as Hd.
    + subst. done.
    + assert (0 < length data)%nat by (destruct data; [done|cbn; lia]). rewrite (proj2 (Z.ltb_lt _ _)), Nat2Z.id by lia.
      destruct (buffer_string _ _); done.
  - done.
  - assert (recv_into buffer [] = buffer) as -> by (unfold recv_into; cbn; by rewrite drop_0). by destruct e.
Qed.

Lemma print_values_agrees f : forall q printed batch,
  exists q' vs r, print_values f q printed = (q', (printed ++ (Show <$> vs), r))
  /\ pop_all_from f (same_queue q) batch = (same_queue q', (fun _ : unit => batch ++ vs) <$> r).
Proof.
  induction f as [|f IH]; intros q printed batch; cbn [print_values pop_all_from].
  { exists q, [], NoFuel. rewrite app_nil_r. done. }
  rewrite PopValue_agrees. destruct (V1RespValue.PopValue q) as [q1 [[v|]|e|w|]]; cbn [fst snd].
  2: { exists q1, [], (Ok tt). cbn. by rewrite !app_nil_r. }
  2: { exists q1, [], (Throw e). cbn. by rewrite app_nil_r. }
  2: { exists q1, [], (Undef w). cbn. by rewrite app_nil_r. }
  2: { exists q1, [], NoFuel. cbn. by rewrite app_nil_r. }
  destruct (IH q1 (printed ++ [show v]) (batch ++ [v])) as (q' & vs & r & -> & ->).
  exists q', (v :: vs), r. rewrite show_agrees. cbn [fmap list_fmap]. by rewrite <- !app_assoc.
Qed.

Lemma ReceiverWorker_agrees recvs : forall buffer q printed,
  exists lines r, ReceiverWorker recvs buffer q printed = (lines, r)
  /\ Client.ReceiverWorker recvs buffer (same_queue q) printed = (fun _ : unit => lines) <$> r.
Proof.
  induction recvs as [|x recvs IH]; intros buffer q printed; cbn [ReceiverWorker Client.ReceiverWorker].
  { by exists printed, NoFuel. }
  rewrite receive_agrees. destruct (receive x buffer q) as [[[buffer' q']|]|e|w|]; cbn [mbind res_bind fmap res_fmap same_next].
  - unfold pop_all. cbn [same_queue RespValueQueue.buffer_ RespValueQueue.values_].
    destruct (print_values_agrees (S (length (V1RespValue.values_ q') + length (V1RespValue.buffer_ q'))) q' printed [])
      as (q2 & vs & r & -> & E).
    change (RespValueQueue.mkQueue (V1RespValue.buffer_ q') (V1RespValue.values_ q')) with (same_queue q').
    rewrite E. destruct r as [[]|e|w|]; cbn [fmap res_fmap app].
    + apply IH.
    + by eexists _, (Throw e).
    + by eexists _, (Undef w).
    + by eexists _, NoFuel.
  - by exists (printed ++ complaint x), (Ok tt).
  - by exists printed, (Throw e).
  - by exists printed, (Undef w).
  - by exists printed, NoFuel.
Qed.

(** ** Agreement: connecting *)

Lemma connect_for_agrees l : forall p sock, (l = [] -> sock = -1) -> connect_for p sock l = try_addresses p l.
Proof.
  induction l as [|a l IH]; intros p sock Hs; cbn [connect_for try_addresses]; [by rewrite Hs|].
  destruct (opened p (socket_answer a)) as [p1|]; [|done]. cbn [mbind option_bind].
  destruct (socket_answer a =? -1) eqn:E; reflect_bools; [by apply IH|].
  destruct (connect_answer a =? 0); [done|]. by apply IH.
Qed.

Lemma Connect_agrees p hostname port r text l :
  Connect p hostname port r text l = Terminal.Connect p hostname port r text l.
Proof. unfold Connect, Terminal.Connect. case_match; [done|]. by apply connect_for_agrees. Qed.

(** ** Theorem *)

(** C26. The two clients do the same.  In any surroundings in which the lines
    and the requests they spell fit in memory and the kernel takes no more
    than it is given: the first client connects to the same address as the
    second, sends the same bytes for every line, has the same outcome (an exit
    status, still running, an exception or undefined behaviour) and has the
    same descriptors open; and when it has ended it has printed the same
    lines. *)
Theorem v1_client_agrees (p : process) hostname port w :
  Forall round_ok (typed w) ->
  (forall input sends, round_ok (input, sends) ->
     SenderWorker_round input sends = Client.SenderWorker_round input sends)
  /\ match Terminal.client_main p hostname port w with
     | None => client_main p hostname port w = None
     | Some (p2, r) =>
         exists p1, client_main p hostname port w = Some (p1, r) /\ open_fds p1 = open_fds p2
           /\ (forall status, r = Ok (Some status) -> p1 = p2)
     end.
Proof.
  intros Hw. split; [apply round_agrees|]. unfold client_main, Terminal.client_main. rewrite Connect_agrees.
  destruct (Terminal.Connect p hostname _ _ _ _) as [[sock p1]|]; [|done]. cbn [mbind option_bind].
  destruct (sock =? -1); [by eexists|]. cbv zeta. rewrite SenderWorker_agrees by done.
  destruct (Terminal.SenderWorker (typed w) []) as [[reading sent]| | |]; [|by eexists..].
  destruct (ReceiverWorker_agrees (arriving w) zeroed_buffer (V1RespValue.mkQueue [] []) []) as (lines & r & -> & E).
  change (same_queue (V1RespValue.mkQueue [] [])) with empty_queue in E. rewrite E.
  destruct r as [[]| | |]; cbn [fmap res_fmap].
  - destruct reading; by eexists.
  - eexists. split; [done|]. by rewrite fold_print_fds.
  - eexists. split; [done|]. by rewrite fold_print_fds.
  - eexists. split; [done|]. by rewrite fold_print_fds.
Qed.

(** *** Witness *)

(** The session of Terminal: the lines are typed, the socket answers at the
    second address. *)
Lemma v1_client_agrees_witness :
  exists p1 p2, client_main shell (lit "localhost") 6379 ping_at_terminal = Some (p1, Ok (Some 0))
  /\ Terminal.client_main shell (lit "localhost") 6379 ping_at_terminal = Some (p2, Ok (Some 0)) /\ p1 = p2.
Proof.
  assert (Forall round_ok (typed ping_at_terminal)) as Hok.
  { repeat constructor. }
  destruct (v1_client_agrees shell (lit "localhost") 6379 ping_at_terminal Hok) as [_ H].
  destruct (checked_some (Terminal.client_main shell (lit "localhost") 6379 ping_at_terminal)
              (fun r => match snd r with Ok (Some status) => status =? 0 | _ => false end)) as ([p2 r] & E & Hr);
    [vm_compute; reflexivity|].
  rewrite E in H. cbn [snd] in Hr. destruct r as [[status|]| | |]; try discriminate Hr. apply Z.eqb_eq in Hr as ->.
  destruct H as (p1 & E1 & _ & E2). exists p1, p2. split; [exact E1|]. split; [exact E|]. by eapply E2.
Defined.
