(* ===== verification/V1Requests.v ===== *)
(** * Requests of the threaded server: [v1/src/server/requests/]

    The first server decodes a request twice: a handler is chosen by a static
    [IsRequest] and then constructs the request object from the same value,
    with a constructor that throws.  One Module per class, each with its
    constructor, its getters and its [IsRequest].

    Theorems: for the requests of fixed arity the two decoders agree on every
    value, so a chosen handler never throws, and the getters give the
    arguments of the array; for the requests of variable arity they do not
    agree, and exactly the requests with an argument that is not a non-empty
    bulk string are accepted by the first and rejected by the second. *)

From S2P Require Import Prelude CxxString RespValue.

(** [holds_alternative<RespBulkString>(v) && get<RespBulkString>(v) == s]; an
    empty optional differs from every string. *)
Definition is_keyword (v : RespValue) (s : string) : bool :=
  match v with
  | RespBulkString (Some t) => bool_decide (t = lit s)
  | _ => false
  end.

(** [holds_alternative<RespBulkString>(v)] *)
Definition is_bulk (v : RespValue) : bool :=
  match v with RespBulkString _ => true | _ => false end.

(** [get<RespBulkString>(v)]: throws [std::bad_variant_access] on another
    alternative; the code asks only after [is_bulk]. *)
Definition get_bulk (v : RespValue) : res (option bytes) :=
  match v with
  | RespBulkString o => Ok o
  | _ => Throw (RuntimeError "bad_variant_access")
  end.

(** [!o.has_value() || o->empty()] *)
Definition missing (o : option bytes) : bool :=
  match o with Some s => bool_decide (s = []) | None => true end.

(** [o.value()]: throws [std::bad_optional_access] when empty. *)
Definition opt_value (o : option bytes) : res bytes :=
  match o with Some s => Ok s | None => Throw (RuntimeError "bad_optional_access") end.

(** [if (cond) throw std::invalid_argument(what)] *)
Definition throw_if (cond : bool) (what : string) : res () :=
  if cond then Throw (InvalidArgument what) else Ok ().

Notation "'guard!' c , w ; k" := (_ ← throw_if c w; k)
  (at level 20, c at level 99, w at level 99, k at level 200, only parsing) : bytes_scope.

(** [get<RespArray>(v)] after [holds_alternative<RespArray>(v)]. *)
Definition get_array (v : RespValue) (what : string) : res (list RespValue) :=
  match v with RespArray l => Ok l | _ => Throw (InvalidArgument what) end.

(** ** [OneArgRequest] *)

Module OneArgRequest.

Record t := mk { first_arg_ : bytes; request_type_ : string }.

Definition usage (request_type : string) : string :=
  String.append request_type
    (String.append " request resp must be an array containing "
      (String.append request_type " and then the <key>")).

Definition make (resp_value : RespValue) (request_type : string) : res t :=
  request_array ← get_array resp_value (usage request_type);
  match request_array with
  | [get; key] =>
      guard! negb (is_keyword get request_type), usage request_type;
      guard! negb (is_bulk key), "Key is not a bulk string";
      first_arg_string ← get_bulk key;
      guard! missing first_arg_string, "Key is not a valid key";
      first_arg ← opt_value first_arg_string;
      Ok (mk first_arg request_type)
  | _ => Throw (InvalidArgument (usage request_type))
  end.

(** The constructor that only carries the keyword, for [IsRequest]. *)
Definition checker (request_type : string) : t := mk [] request_type.

Definition getFirstArg (r : t) : res bytes :=
  if negb (bool_decide (first_arg_ r = [])) then Ok (first_arg_ r)
  else Throw (RuntimeError "Cannot get argument of IsRequest checker").

Definition IsRequest (r : t) (resp_value : RespValue) : bool :=
  match resp_value with
  | RespArray [get; key] =>
      if negb (is_keyword get (request_type_ r)) then false
      else match key with
           | RespBulkString key_string => negb (missing key_string)
           | _ => false
           end
  | _ => false
  end.

End OneArgRequest.

Module GetRequest.
Definition make (resp_value : RespValue) : res OneArgRequest.t := OneArgRequest.make resp_value "GET".
Definition getKey (r : OneArgRequest.t) : res bytes := OneArgRequest.getFirstArg r.
Definition IsRequest (resp_value : RespValue) : bool :=
  OneArgRequest.IsRequest (OneArgRequest.checker "GET") resp_value.
End GetRequest.

Module DelRequest.
Definition make (resp_value : RespValue) : res OneArgRequest.t := OneArgRequest.make resp_value "DEL".
Definition getKey (r : OneArgRequest.t) : res bytes := OneArgRequest.getFirstArg r.
Definition IsRequest (resp_value : RespValue) : bool :=
  OneArgRequest.IsRequest (OneArgRequest.checker "DEL") resp_value.
End DelRequest.

(** ** [SetRequest] *)

Module SetRequest.

Record t := mk { key_ : bytes; value_ : option bytes }.

Definition usage : string := "Get request resp must be an array containing SET and then the <key>".

Definition make (resp_value : RespValue) : res t :=
  request_array ← get_array resp_value usage;
  match request_array with
  | [set; key; value] =>
      guard! negb (is_keyword set "SET"), usage;
      guard! negb (is_bulk key && is_bulk value), "Key is not a bulk string";
      key_string ← get_bulk key;
      guard! missing key_string, "Key is not a valid key";
      key_ ← opt_value key_string;
      value_ ← get_bulk value;
      Ok (mk key_ value_)
  | _ => Throw (InvalidArgument usage)
  end.

Definition getKey (r : t) : bytes := key_ r.
Definition getValue (r : t) : option bytes := value_ r.

Definition IsRequest (resp_value : RespValue) : bool :=
  match resp_value with
  | RespArray [set; key; value] =>
      if negb (is_keyword set "SET") then false
      else if negb (is_bulk key && is_bulk value) then false
      else match key with
           | RespBulkString key_optional_string => negb (missing key_optional_string)
           | _ => false
           end
  | _ => false
  end.

End SetRequest.

(** ** [PublishRequest] *)

Module PublishRequest.

Record t := mk { channel_ : bytes; message_ : bytes }.

Definition make (resp_value : RespValue) : res t :=
  request_array ← get_array resp_value "Publish must be an array of values";
  match request_array with
  | [publish; channel; message] =>
      guard! negb (is_keyword publish "PUBLISH"), "Resp value is not a PUBLISH request";
      guard! negb (is_bulk channel && is_bulk message), "Arguments are not strings";
      channel_optional_string ← get_bulk channel;
      guard! missing channel_optional_string, "Channel argument is empty";
      message_optional_string ← get_bulk message;
      guard! missing message_optional_string, "Message argument is empty";
      channel_ ← opt_value channel_optional_string;
      message_ ← opt_value message_optional_string;
      Ok (mk channel_ message_)
  | _ => Throw (InvalidArgument
           "Publish must have exactly three elements: PUBLISH, channel, and message")
  end.

Definition getChannel (r : t) : bytes := channel_ r.
Definition getMessage (r : t) : bytes := message_ r.

Definition IsRequest (resp_value : RespValue) : bool :=
  match resp_value with
  | RespArray [publish; channel; message] =>
      if negb (is_keyword publish "PUBLISH") then false
      else match channel, message with
           | RespBulkString channel_optional_string, RespBulkString message_optional_string =>
               if missing channel_optional_string then false
               else negb (missing message_optional_string)
           | _, _ => false
           end
  | _ => false
  end.

End PublishRequest.

(** ** [VarArgRequest] *)

Module VarArgRequest.

Record t := mk { args_ : list bytes; request_type_ : string }.

(** The message of the first three checks is built from the parameter
    [request_type] after it was moved into [request_type_]; what a moved-from
    string holds is unspecified, the model takes it to be empty.  No theorem
    depends on the text. *)
Definition usage : string := " request resp must be an array containing  and then the arguments".

(** The loop over the elements after the keyword. *)
Fixpoint read_args (l : list RespValue) : res (list bytes) :=
  match l with
  | [] => Ok []
  | value :: l =>
      guard! negb (is_bulk value), "Element is not a bulk string";
      value_string ← get_bulk value;
      guard! missing value_string, "Empty argument not allowed";
      arg ← opt_value value_string;
      args ← read_args l;
      Ok (arg :: args)
  end.

Definition make (resp_value : RespValue) (request_type : string) : res t :=
  request_array ← get_array resp_value usage;
  match request_array with
  | get :: ((_ :: _) as rest) =>
      guard! negb (is_keyword get request_type), usage;
      args_ ← read_args rest;
      Ok (mk args_ request_type)
  | _ => Throw (InvalidArgument usage)
  end.

Definition checker (request_type : string) : t := mk [] request_type.

(** [static_cast<int>] *)
Definition numArgs (r : t) : Z := cast_int32 (Z.of_nat (length (args_ r))).

Definition getArg (r : t) (index : Z) : res bytes :=
  if (index <? 0) || (numArgs r <=? index) then Throw (OutOfRange "Index out of range")
  else match args_ r !! Z.to_nat index with
       | Some arg => Ok arg
       | None => Undef "vector index"
       end.

Definition IsRequest (r : t) (resp_value : RespValue) : bool :=
  match resp_value with
  | RespArray (get :: _ :: _) => is_keyword get (request_type_ r)
  | _ => false
  end.

End VarArgRequest.

Module SubscribeRequest.
Definition make (resp_value : RespValue) : res VarArgRequest.t := VarArgRequest.make resp_value "SUBSCRIBE".
Definition numChannels (r : VarArgRequest.t) : Z := VarArgRequest.numArgs r.
Definition getChannel (r : VarArgRequest.t) (index : Z) : res bytes := VarArgRequest.getArg r index.
Definition IsRequest (resp_value : RespValue) : bool :=
  VarArgRequest.IsRequest (VarArgRequest.checker "SUBSCRIBE") resp_value.
End SubscribeRequest.

Module UnsubscribeRequest.
Definition make (resp_value : RespValue) : res VarArgRequest.t := VarArgRequest.make resp_value "UNSUBSCRIBE".
Definition numChannels (r : VarArgRequest.t) : Z := VarArgRequest.numArgs r.
Definition getChannel (r : VarArgRequest.t) (index : Z) : res bytes := VarArgRequest.getArg r index.
Definition IsRequest (resp_value : RespValue) : bool :=
  VarArgRequest.IsRequest (VarArgRequest.checker "UNSUBSCRIBE") resp_value.
End UnsubscribeRequest.

(** ** The grammar of requests

    What a client writes: a keyword and arguments, all bulk strings. *)

Definition request (keyword : string) (args : list (option bytes)) : RespValue :=
  RespArray (RespBulkString (Some (lit keyword)) :: map RespBulkString args).

(** [accepts IsRequest make args r]: the value is recognised and its object is [r]. *)
Definition accepted {A} (recognised : bool) (made : res A) (r : A) : Prop :=
  recognised = true /\ made = Ok r.

(** Not recognised, and the constructor would throw [std::invalid_argument]. *)
Definition rejected {A} (recognised : bool) (made : res A) : Prop :=
  recognised = false /\ exists w, made = Throw (InvalidArgument w).

(** ** Lemmas *)

Lemma is_keyword_spec v s : is_keyword v s = true <-> v = RespBulkString (Some (lit s)).
Proof.
  destruct v as [| | |[t|]|]; cbn; rewrite ?bool_decide_eq_true; split; intros; simplify_eq; done.
Qed.

Lemma missing_spec o : missing o = false <-> exists s, o = Some s /\ s <> [].
Proof.
  destruct o as [s|]; cbn; [rewrite bool_decide_eq_false|]; split; try done.
  - eauto.
  - by intros (? & [= <-] & ?).
  - by intros (? & ? & ?).
Qed.

(** Finds the test a decoder branches on and decides it. *)
Ltac decide_tests :=
  repeat match goal with
  | |- context [is_keyword ?v ?s] =>
      let E := fresh "Hkw" in destruct (is_keyword v s) eqn:E; cbn;
      [apply is_keyword_spec in E; subst|]
  | |- context [missing ?o] =>
      let E := fresh "Hm" in destruct (missing o) eqn:E; cbn;
      [|apply missing_spec in E as (? & -> & ?)]
  end.

Lemma OneArgRequest_decodes request_type v :
  (exists k, k <> [] /\ v = request request_type [Some k]
     /\ accepted (OneArgRequest.IsRequest (OneArgRequest.checker request_type) v)
          (OneArgRequest.make v request_type) (OneArgRequest.mk k request_type))
  \/ rejected (OneArgRequest.IsRequest (OneArgRequest.checker request_type) v)
       (OneArgRequest.make v request_type).
Proof.
  unfold accepted, rejected, OneArgRequest.make.
  destruct v as [| | | |[|get [|key [|? ?]]]]; cbn; try by (right; eauto).
  destruct key; cbn; decide_tests; try by (right; eauto). left. eexists. done.
Qed.

Lemma SetRequest_decodes v :
  (exists k o, k <> [] /\ v = request "SET" [Some k; o]
     /\ accepted (SetRequest.IsRequest v) (SetRequest.make v) (SetRequest.mk k o))
  \/ rejected (SetRequest.IsRequest v) (SetRequest.make v).
Proof.
  unfold accepted, rejected, SetRequest.make.
  destruct v as [| | | |[|set [|key [|value [|? ?]]]]]; cbn; try by (right; eauto).
  destruct key, value; cbn; decide_tests; try by (right; eauto). left. do 2 eexists. done.
Qed.

Lemma PublishRequest_decodes v :
  (exists c m, c <> [] /\ m <> [] /\ v = request "PUBLISH" [Some c; Some m]
     /\ accepted (PublishRequest.IsRequest v) (PublishRequest.make v) (PublishRequest.mk c m))
  \/ rejected (PublishRequest.IsRequest v) (PublishRequest.make v).
Proof.
  unfold accepted, rejected, PublishRequest.make.
  destruct v as [| | | |[|publish [|channel [|message [|? ?]]]]]; cbn; try by (right; eauto).
  destruct channel, message; cbn; decide_tests; try by (right; eauto).
  left. do 2 eexists. by split_and!; [|eassumption|reflexivity|..].
Qed.

(** An argument the variable-arity constructor takes. *)
Definition good_arg (v : RespValue) : bool := is_bulk v && match v with RespBulkString o => negb (missing o) | _ => true end.

Lemma read_args_good args :
  Forall (fun a => a <> []) args ->
  VarArgRequest.read_args (map (fun a => RespBulkString (Some a)) args) = Ok args.
Proof.
  induction 1 as [|a args Ha _ IH]; [done|]. cbn.
  rewrite (bool_decide_eq_false_2 (a = [])) by done. cbn. by rewrite IH.
Qed.

Lemma read_args_bad l : forallb good_arg l = false ->
  exists w, VarArgRequest.read_args l = Throw (InvalidArgument w).
Proof.
  induction l as [|v l IH]; [done|]. unfold good_arg at 1. destruct v as [| | |o|]; cbn; eauto.
  destruct (missing o) eqn:E; cbn; [eauto|]. intros Hl. destruct (IH Hl) as [w ->].
  apply missing_spec in E as (s & -> & _). cbn. eauto.
Qed.

Lemma good_args_strings l : forallb good_arg l = true ->
  exists args, Forall (fun a => a <> []) args /\ l = map (fun a => RespBulkString (Some a)) args.
Proof.
  induction l as [|v l IH]; [by exists []|]. cbn [forallb]. intros [Hv Hl]%andb_true_iff.
  destruct (IH Hl) as (args & Hargs & ->). unfold good_arg in Hv.
  destruct v as [| | |o|]; cbn in Hv; try done. apply negb_true_iff, missing_spec in Hv as (s & -> & Hs).
  exists (s :: args). by split; [constructor|].
Qed.

Lemma bad_arg_found l :
  (exists a, a ∈ l /\ forall s, s <> [] -> a <> RespBulkString (Some s)) -> forallb good_arg l = false.
Proof.
  intros (a & Ha & Hbad). apply not_true_is_false. intros (args & Hargs & ->)%good_args_strings.
  apply list_elem_of_In, in_map_iff in Ha as (s & <- & Hs%list_elem_of_In).
  rewrite Forall_forall in Hargs. by apply (Hbad s); [apply Hargs|].
Qed.

Lemma bad_arg_given l : forallb good_arg l = false ->
  exists a, a ∈ l /\ forall s, s <> [] -> a <> RespBulkString (Some s).
Proof.
  induction l as [|v l IH]; [done|]. cbn [forallb]. intros [Hv|Hl]%andb_false_iff.
  - exists v. split; [left|]. intros s Hs ->. cbn in Hv. by rewrite bool_decide_eq_false_2 in Hv.
  - destruct (IH Hl) as (a & Ha & Hbad). exists a. split; [by right|done].
Qed.

(** What the variable-arity recogniser and constructor do with every value. *)
Lemma VarArgRequest_decodes request_type v :
  (exists args, args <> [] /\ Forall (fun a => a <> []) args /\ v = request request_type (map Some args)
     /\ accepted (VarArgRequest.IsRequest (VarArgRequest.checker request_type) v)
          (VarArgRequest.make v request_type) (VarArgRequest.mk args request_type))
  \/ rejected (VarArgRequest.IsRequest (VarArgRequest.checker request_type) v)
       (VarArgRequest.make v request_type)
  \/ (exists rest, v = RespArray (RespBulkString (Some (lit request_type)) :: rest)
        /\ rest <> [] /\ forallb good_arg rest = false
        /\ VarArgRequest.IsRequest (VarArgRequest.checker request_type) v = true
        /\ exists w, VarArgRequest.make v request_type = Throw (InvalidArgument w)).
Proof.
  unfold accepted, rejected, VarArgRequest.make.
  destruct v as [| | | |[|get [|a rest]]]; try by (right; left; cbn; eauto).
  cbn [get_array VarArgRequest.IsRequest VarArgRequest.checker VarArgRequest.request_type_ mbind res_bind].
  destruct (is_keyword get request_type) eqn:Hkw; [|right; left; cbn; eauto].
  apply is_keyword_spec in Hkw as ->. cbn [negb throw_if mbind res_bind].
  destruct (forallb good_arg (a :: rest)) eqn:Hg.
  - left. apply good_args_strings in Hg as (args & Hargs & He). exists args.
    assert (args <> []) by (by intros ->). rewrite He.
    rewrite read_args_good by done. unfold request. rewrite map_map. cbn [mbind res_bind].
    by split_and!.
  - right; right. exists (a :: rest). destruct (read_args_bad _ Hg) as [w ->]. eauto 10.
Qed.

Lemma getArg_lookup r i a : VarArgRequest.args_ r !! i = Some a ->
  Z.of_nat (length (VarArgRequest.args_ r)) < 2 ^ 31 -> VarArgRequest.getArg r (Z.of_nat i) = Ok a.
Proof.
  intros Ha Hl. unfold VarArgRequest.getArg, VarArgRequest.numArgs.
  rewrite cast_int32_small by lia. pose proof (lookup_lt_Some _ _ _ Ha).
  rewrite (proj2 (Z.ltb_ge _ _)), (proj2 (Z.leb_gt _ _)) by lia. cbn. by rewrite Nat2Z.id, Ha.
Qed.

Lemma getFirstArg_mk k request_type : k <> [] ->
  OneArgRequest.getFirstArg (OneArgRequest.mk k request_type) = Ok k.
Proof. intros Hk. unfold OneArgRequest.getFirstArg. cbn. by rewrite bool_decide_eq_false_2. Qed.

(** ** Theorems *)

(** The two decoders of the fixed-arity requests agree on every value:
    it is recognised exactly when it is the keyword followed by the arguments
    (the key, the channel and the message non-empty), the constructor then
    returns an object whose getters give those arguments, and on every other
    value the constructor throws [std::invalid_argument]. *)
Theorem fixed_requests_agree v :
  ((exists k r, k <> [] /\ v = request "GET" [Some k]
      /\ accepted (GetRequest.IsRequest v) (GetRequest.make v) r /\ GetRequest.getKey r = Ok k)
   \/ rejected (GetRequest.IsRequest v) (GetRequest.make v))
  /\ ((exists k r, k <> [] /\ v = request "DEL" [Some k]
      /\ accepted (DelRequest.IsRequest v) (DelRequest.make v) r /\ DelRequest.getKey r = Ok k)
   \/ rejected (DelRequest.IsRequest v) (DelRequest.make v))
  /\ ((exists k o r, k <> [] /\ v = request "SET" [Some k; o]
      /\ accepted (SetRequest.IsRequest v) (SetRequest.make v) r
      /\ SetRequest.getKey r = k /\ SetRequest.getValue r = o)
   \/ rejected (SetRequest.IsRequest v) (SetRequest.make v))
  /\ ((exists c m r, c <> [] /\ m <> [] /\ v = request "PUBLISH" [Some c; Some m]
      /\ accepted (PublishRequest.IsRequest v) (PublishRequest.make v) r
      /\ PublishRequest.getChannel r = c /\ PublishRequest.getMessage r = m)
   \/ rejected (PublishRequest.IsRequest v) (PublishRequest.make v)).
Proof.
  split_and!.
  - destruct (OneArgRequest_decodes "GET" v) as [(k & Hk & Hv & Ha)|]; [left|by right].
    exists k. eexists. split_and!; [done..|exact Ha|by apply getFirstArg_mk].
  - destruct (OneArgRequest_decodes "DEL" v) as [(k & Hk & Hv & Ha)|]; [left|by right].
    exists k. eexists. split_and!; [done..|exact Ha|by apply getFirstArg_mk].
  - destruct (SetRequest_decodes v) as [(k & o & Hk & Hv & Ha)|]; [left|by right].
    exists k, o. eexists. split_and!; [done..|exact Ha|done|done].
  - destruct (PublishRequest_decodes v) as [(c & m & Hc & Hm & Hv & Ha)|]; [left|by right].
    exists c, m. eexists. split_and!; [done..|exact Ha|done|done].
Qed.

(** The two decoders of SUBSCRIBE do not agree: a request with at least
    one argument is recognised whatever the arguments are, so its handler is
    chosen; the constructor returns the arguments when all of them are
    non-empty bulk strings, and throws [std::invalid_argument] as soon as one
    is not.  UNSUBSCRIBE is the same class with another keyword. *)
Lemma variable_requests_disagree rest :
  rest <> [] ->
  let subscribe := RespArray (RespBulkString (Some (lit "SUBSCRIBE")) :: rest) in
  SubscribeRequest.IsRequest subscribe = true
  /\ (forall args, Forall (fun a => a <> []) args -> rest = map (fun a => RespBulkString (Some a)) args ->
        SubscribeRequest.make subscribe = Ok (VarArgRequest.mk args "SUBSCRIBE"))
  /\ ((exists a, a ∈ rest /\ forall s, s <> [] -> a <> RespBulkString (Some s)) ->
        exists w, SubscribeRequest.make subscribe = Throw (InvalidArgument w)).
Proof.
  intros Hrest subscribe. subst subscribe. split_and!; [by destruct rest|..].
  - intros args Hargs ->. unfold SubscribeRequest.make, VarArgRequest.make. cbn [get_array mbind res_bind].
    pose proof (read_args_good args Hargs) as Hr. destruct (map _ args); [done|]. cbn [throw_if is_keyword].
    rewrite bool_decide_eq_true_2 by done. cbn [negb mbind res_bind]. by rewrite Hr.
  - intros Hbad%bad_arg_found. destruct (read_args_bad _ Hbad) as [w Hw]. exists w.
    unfold SubscribeRequest.make, VarArgRequest.make. destruct rest; [done|]. cbn [get_array mbind res_bind].
    cbn [throw_if is_keyword]. rewrite bool_decide_eq_true_2 by done. cbn [negb mbind res_bind]. by rewrite Hw.
Qed.
