(* ===== verification/V1Logger.v ===== *)
(** * Logging of the threaded server: [v1/src/server/logger/FileLogger.cpp]

    [FileLogger] writes one line per message: the level, a time stamp, and the
    message with its control characters, quotes and backslashes escaped.  The
    text of the time stamp comes from the platform's clock and locale
    ([GetTimeStamp]) and is an argument.  Theorem: the log is one line per
    message whatever bytes the messages hold, and the messages can be read
    back from it. *)

From S2P Require Import Prelude CxxString.

(** ** The code *)

Definition escape_delimited (c : ascii) : bytes :=
  match Ascii.nat_of_ascii c with
  | 10 => lit "\n"
  | 13 => lit "\r"
  | 9 => lit "\t"
  | 11 => lit "\v"
  | 12 => lit "\f"
  | 7 => lit "\a"
  | 8 => lit "\b"
  | 92 => lit "\\"
  | 34 => [chr 92; chr 34]
  | 39 => [chr 92; chr 39]
  | _ => [c]
  end%nat.

(** [output += ...] for every character of [input]. *)
Definition EscapeDelimitedChars (input : bytes) : bytes := flat_map escape_delimited input.

Inductive level := LOG | DEBUG | ERROR.

Definition level_name (l : level) : bytes :=
  match l with LOG => lit "LOG" | DEBUG => lit "DEBUG" | ERROR => lit "ERROR" end.

Definition write_line (l : level) (timestamp message : bytes) : bytes :=
  level_name l ++ lit " [" ++ timestamp ++ lit "]: " ++ EscapeDelimitedChars message ++ [LF].

Definition Log (timestamp message : bytes) : bytes := write_line LOG timestamp message.
Definition Debug (timestamp message : bytes) : bytes := write_line DEBUG timestamp message.
Definition Error (timestamp message : bytes) : bytes := write_line ERROR timestamp message.

(** ** A reader of the log *)

(** The lines of a text whose every line ends with a newline. *)
Fixpoint lines (acc text : bytes) : list bytes :=
  match text with
  | [] => []
  | c :: text => if decide (c = LF) then rev acc :: lines [] text else lines (c :: acc) text
  end.

Definition unescape_letter (c : ascii) : option ascii :=
  match Ascii.nat_of_ascii c with
  | 110 => Some (chr 10)
  | 114 => Some (chr 13)
  | 116 => Some (chr 9)
  | 118 => Some (chr 11)
  | 102 => Some (chr 12)
  | 97 => Some (chr 7)
  | 98 => Some (chr 8)
  | 92 | 34 | 39 => Some c
  | _ => None
  end%nat.

Fixpoint unescape (s : bytes) : option bytes :=
  match s with
  | [] => Some []
  | c :: s =>
      if decide (c = chr 92) then
        match s with
        | e :: s => d ← unescape_letter e; t ← unescape s; Some (d :: t)
        | [] => None
        end
      else t ← unescape s; Some (c :: t)
  end.

(** ** Lemmas *)

Lemma unescape_escape_delimited c s : unescape (escape_delimited c ++ s) = t ← unescape s; Some (c :: t).
Proof. destruct c as [[] [] [] [] [] [] [] []]; reflexivity. Qed.

Lemma unescape_EscapeDelimitedChars s : unescape (EscapeDelimitedChars s) = Some s.
Proof.
  induction s as [|c s IH]; [done|]. cbn [EscapeDelimitedChars flat_map].
  rewrite unescape_escape_delimited. fold (EscapeDelimitedChars s). by rewrite IH.
Qed.

Lemma escape_delimited_no_newline c : LF ∉ escape_delimited c.
Proof. apply (bool_decide_unpack _). by destruct c as [[] [] [] [] [] [] [] []]. Qed.

Lemma escaped_no_newline s : LF ∉ EscapeDelimitedChars s.
Proof.
  induction s as [|c s IH]; cbn; [apply not_elem_of_nil|].
  rewrite elem_of_app. intros [H|H]; [by apply escape_delimited_no_newline in H|done].
Qed.

Lemma lines_one acc l text : LF ∉ l -> lines acc (l ++ LF :: text) = (rev acc ++ l) :: lines [] text.
Proof.
  revert acc. induction l as [|c l IH]; intros acc Hl.
  - cbn [app lines]. rewrite decide_True by done. by rewrite app_nil_r.
  - apply not_elem_of_cons in Hl as [Hc Hl]. cbn [app lines]. rewrite decide_False by congruence.
    rewrite IH by done. cbn [rev]. by rewrite <- app_assoc.
Qed.

Lemma level_name_no_newline l : LF ∉ level_name l.
Proof. apply (bool_decide_unpack _). by destruct l. Qed.

(** The line of a message, without its newline. *)
Definition line_of (entry : level * bytes * bytes) : bytes :=
  let '(l, timestamp, message) := entry in
  level_name l ++ lit " [" ++ timestamp ++ lit "]: " ++ EscapeDelimitedChars message.

Lemma line_of_no_newline l ts m : LF ∉ ts -> LF ∉ line_of (l, ts, m).
Proof.
  intros Hts. unfold line_of. rewrite !not_elem_of_app. split_and!;
    [apply level_name_no_newline| |done| |apply escaped_no_newline];
    by apply (bool_decide_unpack _).
Qed.

(** ** Theorem *)

(** What the logger writes for a sequence of messages is exactly one line
    per message, in order, for messages with arbitrary bytes (newlines
    included), as long as the platform's time stamps hold no newline; and the
    end of each line, unescaped, is the message. *)
Theorem log_lines_recover (entries : list (level * bytes * bytes)) :
  Forall (fun e => LF ∉ snd (fst e)) entries ->
  lines [] (flat_map (fun '(l, ts, m) => write_line l ts m) entries) = map line_of entries
  /\ forall l ts m, unescape (drop (length (level_name l ++ lit " [" ++ ts ++ lit "]: "))
                                   (line_of (l, ts, m))) = Some m.
Proof.
  intros Hts. split.
  - induction Hts as [|[[l ts] m] entries Hn _ IH]; [done|]. cbn [flat_map map].
    unfold write_line at 1. rewrite <- !app_assoc. cbn [app].
    transitivity (lines [] (line_of (l, ts, m) ++ LF :: flat_map (fun '(l, ts, m) => write_line l ts m) entries)).
    { f_equal. unfold line_of. by rewrite <- !app_assoc. }
    rewrite lines_one by (by apply line_of_no_newline). by rewrite IH.
  - intros l ts m. unfold line_of. rewrite !app_assoc. rewrite drop_app_length.
    apply unescape_EscapeDelimitedChars.
Qed.

Lemma log_lines_recover_witness :
  lines [] (Log (lit "now") (lit "+OK" ++ crlf) ++ Error (lit "now") (lit "gone"))
  = [lit "LOG [now]: +OK\r\n"; lit "ERROR [now]: gone"].
Proof.
  destruct (log_lines_recover [(LOG, lit "now", lit "+OK" ++ crlf); (ERROR, lit "now", lit "gone")]
              ltac:(repeat constructor; by apply (bool_decide_unpack _))) as [H _].
  exact H.
Defined.
