(* ===== verification/Clock.v ===== *)
(** * Reading the clock: [v2/src/time/timenow.h], [v1/src/server/logger/FileLogger.cpp]

    The system clock counts nanoseconds since 1970; it is an argument here, as
    everywhere.  [TimeNow::NowMs] cuts it to milliseconds for the store's
    deadlines; [GetTimeStamp] makes the time stamp of a log line of it, with
    [std::localtime] and [std::put_time] of the standard library.  The offset
    of the local time from UTC is an argument too.

    Theorem: time stamps have one fixed form and sort as the times they stand
    for, so that the lines of a log can be ordered by comparing their text. *)

From S2P Require Import Prelude CxxString V1Logger.

(** ** Durations *)

(** [std::chrono::duration_cast] to a coarser unit of [n] nanoseconds: towards
    zero. *)
Definition duration_cast (n now : Z) : Z := Z.quot now n.

(** [TimeNow::NowMs] *)
Definition NowMs (now : Z) : Z := duration_cast 1000000 now.

(** ** Calendar *)

Definition date : Type := Z * Z * Z.

Definition is_leap (year : Z) : bool :=
  (year mod 4 =? 0) && (negb (year mod 100 =? 0) || (year mod 400 =? 0)).

Definition days_in_month (year month : Z) : Z :=
  if month =? 2 then if is_leap year then 29 else 28
  else if (month =? 4) || (month =? 6) || (month =? 9) || (month =? 11) then 30
  else 31.

Definition next_day (d : date) : date :=
  let '(year, month, day) := d in
  if day <? days_in_month year month then (year, month, day + 1)
  else if month <? 12 then (year, month + 1, 1)
  else (year + 1, 1, 1).

(** The date [n] days after the 1st of January 1970. *)
Definition date_of (n : nat) : date := Nat.iter n next_day (1970, 1, 1).

(** [std::tm], as far as it is printed. *)
Record tm := mkTm {
  tm_date : date;
  tm_hour : Z;
  tm_min : Z;
  tm_sec : Z
}.

(** [std::localtime], for times from 1970 on; [gmtoff]: seconds east of UTC. *)
Definition localtime (gmtoff time : Z) : tm :=
  let local := time + gmtoff in
  let of_day := local mod 86400 in
  mkTm (date_of (Z.to_nat (local / 86400))) (of_day / 3600) (of_day / 60 mod 60) (of_day mod 60).

(** ** Formatting *)

(** [std::setw(width) << std::setfill('0')] before a number. *)
Definition padded (width : nat) (n : Z) : bytes :=
  replicate (width - length (to_string n)) "0"%char ++ to_string n.

(** [std::put_time(tm_ptr, "%Y-%m-%d %H:%M:%S")] *)
Definition put_time (t : tm) : bytes :=
  let '(year, month, day) := tm_date t in
  to_string year ++ lit "-" ++ padded 2 month ++ lit "-" ++ padded 2 day ++ lit " "
  ++ padded 2 (tm_hour t) ++ lit ":" ++ padded 2 (tm_min t) ++ lit ":" ++ padded 2 (tm_sec t).

Definition GetTimeStamp (gmtoff now : Z) : bytes :=
  let now_time := duration_cast 1000000000 now in
  let tm_ptr := localtime gmtoff now_time in
  let seconds := duration_cast 1000000000 now in
  let microseconds := duration_cast 1000 now - seconds * 1000000 in
  let nanoseconds := now - seconds * 1000000000 in
  put_time tm_ptr ++ lit "." ++ padded 6 microseconds ++ lit "." ++ padded 9 nanoseconds.

(** ** Order of strings *)

(** [l1 < l2] as [std::string] compares, when neither is a prefix of the
    other. *)
Definition sorts_before (l1 l2 : bytes) : Prop :=
  exists p a b r1 r2, l1 = p ++ a :: r1 /\ l2 = p ++ b :: r2 /\ code a < code b.

Lemma sorts_before_prefix p l1 l2 : sorts_before l1 l2 -> sorts_before (p ++ l1) (p ++ l2).
Proof. intros (q & a & b & r1 & r2 & -> & -> & H). exists (p ++ q), a, b, r1, r2. by rewrite <- !app_assoc. Qed.

Lemma sorts_before_app l1 l2 s1 s2 : sorts_before l1 l2 -> sorts_before (l1 ++ s1) (l2 ++ s2).
Proof.
  intros (q & a & b & r1 & r2 & -> & -> & H). exists q, a, b, (r1 ++ s1), (r2 ++ s2). by rewrite <- !app_assoc.
Qed.

Lemma sorts_before_irrefl l : ~ sorts_before l l.
Proof.
  intros (p & a & b & r1 & r2 & E1 & E2 & H). rewrite E1 in E2. apply app_inv_head in E2. injection E2 as -> _. lia.
Qed.

(** *** Numbers of a fixed width *)

Fixpoint fixed (width : nat) (n : Z) : bytes :=
  match width with
  | O => []
  | S w => fixed w (n / 10) ++ [chr (48 + n mod 10)]
  end.

Lemma length_fixed w : forall n, length (fixed w n) = w.
Proof. induction w as [|w IH]; intros n; cbn; [done|]. rewrite length_app, IH. cbn. lia. Qed.

Lemma fixed_zero w : fixed w 0 = replicate w "0"%char.
Proof. induction w as [|w IH]; [done|]. cbn [fixed]. change (0 / 10) with 0. rewrite IH, replicate_S_end. done. Qed.

Lemma code_digit d : 0 <= d < 10 -> code (chr (48 + d)) = 48 + d.
Proof.
  intros Hd. assert (d ∈ [0; 1; 2; 3; 4; 5; 6; 7; 8; 9]) as H.
  { rewrite !elem_of_cons. lia. }
  rewrite !elem_of_cons, elem_of_nil in H. repeat destruct H as [->|H]; reflexivity || done.
Qed.

Lemma fixed_lt w : forall n1 n2, 0 <= n1 < n2 -> n2 < 10 ^ Z.of_nat w -> sorts_before (fixed w n1) (fixed w n2).
Proof.
  induction w as [|w IH]; intros n1 n2 Hn Hw; [cbn in Hw; lia|]. cbn [fixed].
  rewrite Nat2Z.inj_succ, Z.pow_succ_r in Hw by lia.
  pose proof (Z.div_mod n1 10) as D1. pose proof (Z.div_mod n2 10) as D2.
  pose proof (Z.mod_pos_bound n1 10) as B1. pose proof (Z.mod_pos_bound n2 10) as B2.
  destruct (decide (n1 / 10 = n2 / 10)) as [E|E].
  - rewrite E. apply sorts_before_prefix. exists [], (chr (48 + n1 mod 10)), (chr (48 + n2 mod 10)), [], [].
    split; [done|]. split; [done|]. rewrite !code_digit by lia. lia.
  - apply sorts_before_app, IH; [|apply Z.div_lt_upper_bound; lia]. split; [apply Z.div_pos; lia|].
    assert (n1 / 10 <= n2 / 10) by (apply Z.div_le_mono; lia). lia.
Qed.

Lemma digits_fixed w : forall f n, 0 <= n < 10 ^ Z.of_nat w -> n < 10 ^ Z.of_nat f -> (0 < w)%nat -> (0 < f)%nat ->
  replicate (w - length (digits_fuel f n)) "0"%char ++ digits_fuel f n = fixed w n /\ (length (digits_fuel f n) <= w)%nat.
Proof.
  induction w as [|w IH]; intros f n Hn Hf Hw Hf0; [lia|]. destruct f as [|f]; [lia|]. cbn [digits_fuel fixed].
  rewrite Nat2Z.inj_succ, Z.pow_succ_r in Hn, Hf by lia.
  destruct (n <? 10) eqn:E; reflect_bools.
  - rewrite Z.div_small, Z.mod_small, fixed_zero by lia. cbn [length]. rewrite Nat.sub_succ, Nat.sub_0_r. split; [done|lia].
  - rewrite length_app. cbn [length].
    assert (0 < n / 10) by (apply Z.div_str_pos; lia).
    assert (0 <= n / 10 < 10 ^ Z.of_nat w) as Hq by (split; [lia|apply Z.div_lt_upper_bound; lia]).
    assert (n / 10 < 10 ^ Z.of_nat f) as Hqf by (apply Z.div_lt_upper_bound; lia).
    assert (0 < w)%nat by (destruct w; [cbn in Hq; lia|lia]). assert (0 < f)%nat by (destruct f; [cbn in Hqf; lia|lia]).
    destruct (IH f (n / 10) Hq Hqf) as [IH1 IH2]; [done..|]. rewrite <- IH1.
    replace (S w - (length (digits_fuel f (n / 10)) + 1))%nat with (w - length (digits_fuel f (n / 10)))%nat by lia.
    rewrite app_assoc. split; [done|lia].
Qed.

Lemma log2_digits n : 0 <= n -> n < 10 ^ Z.of_nat (S (Z.to_nat (Z.log2 n))).
Proof.
  intros Hn. destruct (decide (n = 0)) as [->|Hne]; [done|]. pose proof (Z.log2_spec n ltac:(lia)) as [_ H].
  pose proof (Z.log2_nonneg n). rewrite Nat2Z.inj_succ, Z2Nat.id by lia.
  eapply Z.lt_le_trans; [exact H|]. apply Z.pow_le_mono_l. lia.
Qed.

Lemma padded_fixed w n : 0 <= n < 10 ^ Z.of_nat w -> (0 < w)%nat -> padded w n = fixed w n.
Proof.
  intros Hn Hw. unfold padded, to_string. rewrite (proj2 (Z.ltb_ge n 0)) by lia.
  destruct (digits_fixed w (S (Z.to_nat (Z.log2 n))) n Hn) as [H _]; [by apply log2_digits; lia|done|lia|exact H].
Qed.

Lemma year_fixed y : 1000 <= y <= 9999 -> to_string y = fixed 4 y.
Proof.
  intros Hy. rewrite <- padded_fixed by (cbn; lia). unfold padded.
  assert (length (to_string y) = 4)%nat as ->; [|done].
  unfold to_string. rewrite (proj2 (Z.ltb_ge y 0)) by lia.
  unfold digits. pose proof (log2_digits y ltac:(lia)) as Hf.
  set (f := S (Z.to_nat (Z.log2 y))) in *. assert (Z.log2 1000 <= Z.log2 y) as Hlog by (apply Z.log2_le_mono; lia).
  change (Z.log2 1000) with 9 in Hlog. assert (4 < f)%nat as Hf4 by (unfold f; lia). clearbody f.
  do 4 (destruct f as [|f]; [lia|]).
  assert (y / 10 < 1000 /\ 100 <= y / 10) as [? ?] by (split; [apply Z.div_lt_upper_bound|apply Z.div_le_lower_bound]; lia).
  assert (y / 10 / 10 < 100 /\ 10 <= y / 10 / 10) as [? ?] by (split; [apply Z.div_lt_upper_bound|apply Z.div_le_lower_bound]; lia).
  assert (y / 10 / 10 / 10 < 10 /\ 1 <= y / 10 / 10 / 10) as [? ?] by (split; [apply Z.div_lt_upper_bound|apply Z.div_le_lower_bound]; lia).
  cbn [digits_fuel]. rewrite !(proj2 (Z.ltb_ge _ 10)) by lia. rewrite (proj2 (Z.ltb_lt _ 10)) by lia. done.
Qed.

(** *** Order of dates *)

Definition valid_date (d : date) : Prop :=
  let '(year, month, day) := d in 1 <= month <= 12 /\ 1 <= day <= days_in_month year month.

Definition date_lt (d1 d2 : date) : Prop :=
  let '(y1, m1, n1) := d1 in
  let '(y2, m2, n2) := d2 in
  y1 < y2 \/ (y1 = y2 /\ (m1 < m2 \/ (m1 = m2 /\ n1 < n2))).

Lemma days_in_month_range y m : 28 <= days_in_month y m <= 31.
Proof. unfold days_in_month. repeat case_match; lia. Qed.

Lemma next_day_valid d : valid_date d -> valid_date (next_day d) /\ date_lt d (next_day d).
Proof.
  destruct d as [[y m] n]. cbn. intros [Hm Hn]. pose proof (days_in_month_range y (m + 1)).
  pose proof (days_in_month_range (y + 1) 1). repeat case_match; reflect_bools; cbn; lia.
Qed.

Lemma date_of_valid n : valid_date (date_of n).
Proof. induction n as [|n IH]; [by vm_compute|]. cbn. by apply next_day_valid. Qed.

Lemma date_lt_trans d1 d2 d3 : date_lt d1 d2 -> date_lt d2 d3 -> date_lt d1 d3.
Proof. destruct d1 as [[??]?], d2 as [[??]?], d3 as [[??]?]. cbn. lia. Qed.

Lemma date_of_lt n1 n2 : (n1 < n2)%nat -> date_lt (date_of n1) (date_of n2).
Proof.
  induction 1 as [|n2 _ IH]; [apply next_day_valid, date_of_valid|].
  eapply date_lt_trans; [exact IH|]. apply next_day_valid, date_of_valid.
Qed.

(** *** The fields of a time stamp *)

Definition layout : list (nat * bytes) :=
  [(4%nat, lit "-"); (2%nat, lit "-"); (2%nat, lit " "); (2%nat, lit ":"); (2%nat, lit ":"); (2%nat, lit ".");
   (6%nat, lit "."); (9%nat, [])].

Fixpoint render (l : list (nat * bytes)) (fields : list Z) : bytes :=
  match l, fields with
  | (w, separator) :: l, n :: fields => fixed w n ++ separator ++ render l fields
  | _, _ => []
  end.

Fixpoint fields_lt (l1 l2 : list Z) : Prop :=
  match l1, l2 with
  | x :: l1, y :: l2 => x < y \/ (x = y /\ fields_lt l1 l2)
  | _, _ => False
  end.

Definition in_width (f : nat * bytes) (n : Z) : Prop := 0 <= n < 10 ^ Z.of_nat (fst f).

Lemma render_lt l : forall f1 f2, Forall2 in_width l f1 -> Forall2 in_width l f2 -> fields_lt f1 f2 ->
  sorts_before (render l f1) (render l f2).
Proof.
  induction l as [|[w s] l IH]; intros f1 f2 H1 H2 Hlt; inversion H1; inversion H2; subst; [done|]. cbn [render fields_lt] in *.
  unfold in_width in *. cbn [fst] in *. destruct Hlt as [Hlt|[-> Hlt]].
  - apply sorts_before_app, fixed_lt; lia.
  - by apply sorts_before_prefix, sorts_before_prefix, IH.
Qed.

Lemma length_render l : forall fields, Forall2 in_width l fields ->
  length (render l fields) = sum_list_with (fun f => fst f + length (snd f))%nat l.
Proof.
  induction l as [|[w s] l IH]; intros fields Hf; inversion Hf; subst; [done|]. cbn [render sum_list_with fst snd].
  rewrite !length_app, length_fixed, IH by done. lia.
Qed.

Lemma fixed_no_newline w : forall n, LF ∉ fixed w n.
Proof.
  induction w as [|w IH]; intros n; cbn [fixed]; [apply not_elem_of_nil|]. rewrite not_elem_of_app. split; [apply IH|].
  rewrite list_elem_of_singleton. intros E. pose proof (Z.mod_pos_bound n 10 ltac:(lia)) as Hb. apply (f_equal code) in E.
  rewrite code_digit in E by done. change (code LF) with 10 in E. lia.
Qed.

Lemma render_no_newline fields : LF ∉ render layout fields.
Proof.
  assert (forall l f, Forall (fun x => LF ∉ snd x) l -> LF ∉ render l f) as H.
  { induction l as [|[w s] l IH]; intros [|n f] Hl; cbn [render]; try apply not_elem_of_nil.
    apply Forall_cons in Hl as [Hs Hl]. rewrite !not_elem_of_app. split_and!; [apply fixed_no_newline|done|by apply IH]. }
  apply H. repeat constructor; apply (bool_decide_unpack _); by vm_compute.
Qed.

Definition stamp_fields (gmtoff now : Z) : list Z :=
  let local := now / 1000000000 + gmtoff in
  let '(year, month, day) := date_of (Z.to_nat (local / 86400)) in
  let of_day := local mod 86400 in
  [year; month; day; of_day / 3600; of_day / 60 mod 60; of_day mod 60;
   now mod 1000000000 / 1000; now mod 1000000000].

(** A moment of the local years 1970 to 9999. *)
Definition datable (gmtoff now : Z) : Prop :=
  0 <= now /\ 0 <= now / 1000000000 + gmtoff
  /\ fst (fst (date_of (Z.to_nat ((now / 1000000000 + gmtoff) / 86400)))) <= 9999.

Lemma date_of_year n : 1970 <= fst (fst (date_of n)).
Proof.
  destruct n as [|n]; [by vm_compute|]. pose proof (date_of_lt 0 (S n) ltac:(lia)) as H.
  destruct (date_of (S n)) as [[y m] d]. cbn in *. lia.
Qed.

Lemma stamp_fields_fit gmtoff now : datable gmtoff now -> Forall2 in_width layout (stamp_fields gmtoff now).
Proof.
  intros (H1 & H2 & H3). unfold stamp_fields.
  pose proof (date_of_year (Z.to_nat ((now / 1000000000 + gmtoff) / 86400))) as Hy.
  pose proof (date_of_valid (Z.to_nat ((now / 1000000000 + gmtoff) / 86400))) as Hv.
  destruct (date_of _) as [[y m] d]. cbn in Hy, Hv, H3. pose proof (days_in_month_range y m).
  unfold layout, in_width. repeat constructor; cbn [fst]; change (10 ^ Z.of_nat 4) with 10000;
    change (10 ^ Z.of_nat 2) with 100; change (10 ^ Z.of_nat 6) with 1000000; change (10 ^ Z.of_nat 9) with 1000000000;
    Z.to_euclidean_division_equations; lia.
Qed.

Lemma GetTimeStamp_render gmtoff now : datable gmtoff now ->
  GetTimeStamp gmtoff now = render layout (stamp_fields gmtoff now).
Proof.
  intros Hd. pose proof (stamp_fields_fit gmtoff now Hd) as Hf. destruct Hd as (H1 & H2 & H3).
  unfold GetTimeStamp, duration_cast, stamp_fields, localtime, put_time in *. cbn [tm_date tm_hour tm_min tm_sec] in *.
  rewrite !Z.quot_div_nonneg by lia.
  pose proof (date_of_year (Z.to_nat ((now / 1000000000 + gmtoff) / 86400))) as Hy.
  destruct (date_of _) as [[y m] d]. cbn in H3, Hy.
  replace (now / 1000 - now / 1000000000 * 1000000) with (now mod 1000000000 / 1000)
    by (Z.to_euclidean_division_equations; lia).
  replace (now - now / 1000000000 * 1000000000) with (now mod 1000000000) by (Z.to_euclidean_division_equations; lia).
  unfold layout in *. repeat match goal with H : Forall2 _ (_ :: _) (_ :: _) |- _ => apply Forall2_cons in H as [? ?] end.
  unfold in_width in *. cbn [fst] in *. cbn [render]. rewrite year_fixed by lia. rewrite !padded_fixed by (done || lia).
  rewrite <- !app_assoc. by rewrite app_nil_r.
Qed.

Lemma stamp_fields_lt gmtoff now1 now2 : datable gmtoff now1 -> now1 < now2 ->
  fields_lt (stamp_fields gmtoff now1) (stamp_fields gmtoff now2).
Proof.
  intros (H1 & H2 & _) Hlt. unfold stamp_fields.
  set (l1 := now1 / 1000000000 + gmtoff) in *. set (l2 := now2 / 1000000000 + gmtoff).
  assert (l1 < l2 \/ (l1 = l2 /\ now1 mod 1000000000 < now2 mod 1000000000)) as Hl
    by (unfold l1, l2; Z.to_euclidean_division_equations; lia).
  assert (now1 mod 1000000000 < now2 mod 1000000000 ->
    now1 mod 1000000000 / 1000 <= now2 mod 1000000000 / 1000) as Hus by (intros; apply Z.div_le_mono; lia).
  clearbody l1 l2. destruct Hl as [Hl|[<- Hns]].
  - assert (l1 / 86400 < l2 / 86400 \/ (l1 / 86400 = l2 / 86400 /\ l1 mod 86400 < l2 mod 86400)) as [Hd|[-> Hd]]
      by (Z.to_euclidean_division_equations; lia).
    + pose proof (date_of_lt (Z.to_nat (l1 / 86400)) (Z.to_nat (l2 / 86400))) as Hdate.
      assert (0 <= l1 / 86400) by (apply Z.div_pos; lia). specialize (Hdate ltac:(lia)).
      destruct (date_of _) as [[y m] d], (date_of (Z.to_nat (l2 / 86400))) as [[y' m'] d']. cbn in *. lia.
    + destruct (date_of _) as [[y m] d]. cbn. do 3 (right; split; [done|]).
      clear -Hd. set (a := l1 mod 86400) in *. set (b := l2 mod 86400) in *. clearbody a b.
      Z.to_euclidean_division_equations; lia.
  - destruct (date_of _) as [[y m] d]. cbn. do 6 (right; split; [done|]). specialize (Hus Hns). lia.
Qed.

(** ** Theorems *)

(** The clock of the store never goes back when the system's does not, and
    fits in 64 bits as the count of nanoseconds does. *)
Theorem NowMs_monotone now1 now2 : 0 <= now1 <= now2 -> in_int64 now2 = true ->
  0 <= NowMs now1 <= NowMs now2 /\ in_int64 (NowMs now2) = true.
Proof.
  intros H1 [_ H2]%in_int64_spec. unfold NowMs, duration_cast. rewrite !Z.quot_div_nonneg by lia.
  pose proof (Z.div_pos now2 1000000). pose proof (Z.div_pos now1 1000000).
  pose proof (Z.div_le_mono now1 now2 1000000). pose proof (Z.div_le_upper_bound now2 1000000 now2).
  split; [lia|]. apply in_int64_spec. unfold int64_min. lia.
Qed.

(** Time stamps sort as the times they stand for: for two moments of the
    local years 1970 to 9999, with the same offset from UTC, the stamp of the
    earlier one is the smaller string; every stamp has 36 characters and no
    newline, so the lines of a log are one per message, and comparing the text
    of two stamps compares the times to the nanosecond. *)
Theorem timestamps_sort_chronologically gmtoff now1 now2 :
  datable gmtoff now1 -> datable gmtoff now2 ->
  (now1 < now2 -> sorts_before (GetTimeStamp gmtoff now1) (GetTimeStamp gmtoff now2))
  /\ (GetTimeStamp gmtoff now1 = GetTimeStamp gmtoff now2 -> now1 = now2)
  /\ length (GetTimeStamp gmtoff now1) = 36%nat /\ LF ∉ GetTimeStamp gmtoff now1.
Proof.
  intros H1 H2. pose proof (stamp_fields_fit _ _ H1) as F1. pose proof (stamp_fields_fit _ _ H2) as F2.
  assert (forall a b, datable gmtoff a -> datable gmtoff b -> a < b ->
    sorts_before (GetTimeStamp gmtoff a) (GetTimeStamp gmtoff b)) as Hlt.
  { intros a b Ha Hb Hab. rewrite !GetTimeStamp_render by done.
    apply render_lt; [by apply stamp_fields_fit..|by apply stamp_fields_lt]. }
  split_and!; [by apply Hlt| |by rewrite GetTimeStamp_render, length_render by done|].
  - intros E. destruct (Z.lt_trichotomy now1 now2) as [L|[L|L]]; [|done|]; exfalso.
    + apply (Hlt now1 now2) in L; [|done..]. rewrite E in L. by apply sorts_before_irrefl in L.
    + apply (Hlt now2 now1) in L; [|done..]. rewrite E in L. by apply sorts_before_irrefl in L.
  - rewrite GetTimeStamp_render by done. by apply render_no_newline.
Qed.

(** *** Witness *)

(** A nanosecond apart, over midnight before a leap day. *)
Lemma timestamps_sort_chronologically_witness :
  GetTimeStamp 0 1709164799999999999 = lit "2024-02-28 23:59:59.999999.999999999"
  /\ sorts_before (GetTimeStamp 0 1709164799999999999) (GetTimeStamp 0 1709164800000000000).
Proof.
  split; [vm_compute; reflexivity|].
  apply (timestamps_sort_chronologically 0 1709164799999999999 1709164800000000000);
    [vm_compute; repeat split; discriminate|vm_compute; repeat split; discriminate|reflexivity].
Defined.
