(* ===== verification/V1PubSub.v ===== *)
(** * Publish and subscribe: [v1/src/server/pubsub/], [v1/src/server/store/MapBasedSet.h]

    [SetOps]/[SetSpec] are the abstract class [Set<V>] and what an
    implementation promises; [MapBasedSet] discharges it over any map.
    [PubSubChannels] keeps a set of clients per channel and a counter per
    client, in two maps; it is proved against [MapSpec] and [SetSpec].  What
    the code sends and logs is a trace of events.

    Theorems: after any history of subscriptions a message reaches exactly the
    subscribed clients, once each; the count reported to a client is the
    number of its channels for every history that never repeats a subscription
    nor cancels one that does not exist, and drifts from it otherwise. *)

From S2P Require Import Prelude CxxString RespValue V1RespValue MapInterface.

#[local] Set Warnings "-clear-no-such-hyp".

(** ** Sets *)

Class SetOps (V S : Type) := {
  CreateSet : S;
  SetContains : S -> V -> bool;
  SetInsert : S -> V -> S;
  SetRemove : S -> V -> S;
  (** the calls [action(value)] of [ForEach], in order *)
  SetForEach : S -> list V
}.

Class SetSpec (V S : Type) `{Countable V} {ops : SetOps V S} := {
  set_inv : S -> Prop;
  set_abs : S -> gset V;
  CreateSet_inv : set_inv CreateSet;
  CreateSet_abs : set_abs CreateSet = ∅;
  SetContains_abs s v : set_inv s -> SetContains s v = bool_decide (v ∈ set_abs s);
  SetInsert_inv s v : set_inv s -> set_inv (SetInsert s v);
  SetInsert_abs s v : set_inv s -> set_abs (SetInsert s v) = {[v]} ∪ set_abs s;
  SetRemove_inv s v : set_inv s -> set_inv (SetRemove s v);
  SetRemove_abs s v : set_inv s -> set_abs (SetRemove s v) = set_abs s ∖ {[v]};
  SetForEach_abs s : set_inv s -> SetForEach s ≡ₚ elements (set_abs s)
}.

Module MapBasedSet.
Section MapBasedSet.
Context {V M : Type} {map_ops : MapOps V () M}.

Definition Contains (map_ : M) (element : V) : bool :=
  match LookUp map_ element with Some _ => true | None => false end.
Definition Insert (map_ : M) (element : V) : M := MapInterface.Insert map_ element tt.
Definition Remove (map_ : M) (element : V) : M := MapInterface.Remove map_ element.
Definition ForEach (map_ : M) : list V := (MapInterface.ForEach map_).*1.

#[export] Instance ops : SetOps V M := {
  CreateSet := EmptyMap;
  SetContains := Contains;
  SetInsert := Insert;
  SetRemove := Remove;
  SetForEach := ForEach
}.

Context `{Countable V} {map_spec : MapSpec V () M}.

#[refine] Instance spec : SetSpec V M := {
  set_inv := map_inv;
  set_abs := fun m => dom (map_abs m)
}.
Proof.
  - apply EmptyMap_inv.
  - cbn. rewrite EmptyMap_abs. apply dom_empty_L.
  - intros m v Hm. cbn. unfold Contains. rewrite LookUp_abs by done.
    destruct (map_abs m !! v) eqn:E; symmetry.
    + apply bool_decide_eq_true. by apply elem_of_dom_2 in E.
    + apply bool_decide_eq_false. by apply not_elem_of_dom.
  - intros m v Hm. by apply Insert_inv.
  - intros m v Hm. cbn. unfold Insert. rewrite Insert_abs by done. apply dom_insert_L.
  - intros m v Hm. by apply Remove_inv.
  - intros m v Hm. cbn. unfold Remove. rewrite Remove_abs by done. apply dom_delete_L.
  - intros m Hm. cbn. unfold ForEach. rewrite ForEach_abs by done.
    apply NoDup_Permutation; [apply NoDup_fst_map_to_list|apply NoDup_elements|].
    intros v. rewrite elem_of_elements, elem_of_dom, list_elem_of_fmap. split.
    + intros ([? ?] & -> & Hin%elem_of_map_to_list). cbn. eauto.
    + intros [u Hu]. exists (v, u). by rewrite elem_of_map_to_list.
Defined.

End MapBasedSet.
End MapBasedSet.

(** ** Effects *)

(** What the server does besides changing its state, in order: writing to the
    log and sending to a client's socket. *)
Inductive event :=
| Logged (message : bytes)
| Sent (client_fd : Z) (message : bytes).

Definition SendResponse (client_fd : Z) (message : bytes) : list event :=
  [Logged (lit "Sending: " ++ message); Sent client_fd message].

(** What the clients receive. *)
Definition sends (trace : list event) : list (Z * bytes) :=
  omap (fun e => match e with Sent fd m => Some (fd, m) | Logged _ => None end) trace.

Definition PubSubResponse (action channel : bytes) (contents : RespValue) : RespValue :=
  Array [BulkString (Some action); BulkString (Some channel); contents].

(** ** [PubSubChannels] *)

(** What the channels stand for: a set of pairs of a client and a channel. *)
Abbreviation subscriptions := (gset (Z * bytes)).

Section PubSubChannels.
Context {CS CM NM : Type}.
Context {set_ops : SetOps Z CS} {channel_ops : MapOps bytes CS CM} {count_ops : MapOps Z Z NM}.

Record PubSubChannels := mkChannels {
  channel_to_client_fds_ : CM;
  client_fd_to_connection_ : NM
}.

Definition no_channels : PubSubChannels := mkChannels EmptyMap EmptyMap.

Definition Subscribe (st : PubSubChannels) (client_fd : Z) (channel : bytes)
    : res (PubSubChannels * Z) :=
  let channels :=
    match LookUp (channel_to_client_fds_ st) channel with
    | None => Insert (channel_to_client_fds_ st) channel (SetInsert CreateSet client_fd)
    | Some set => AssignRef (channel_to_client_fds_ st) channel (SetInsert set client_fd)
    end in
  match LookUp (client_fd_to_connection_ st) client_fd with
  | None => Ok (mkChannels channels (Insert (client_fd_to_connection_ st) client_fd 1), 1)
  | Some current_connections =>
      count ← checked32 (current_connections + 1);
      Ok (mkChannels channels (AssignRef (client_fd_to_connection_ st) client_fd count), count)
  end.

(** The action of [ForEach] in [Publish], for each client. *)
Fixpoint publish_to (channel message : bytes) (clients : list Z) (number_clients_published_to : Z)
    : res (list event * Z) :=
  match clients with
  | [] => Ok ([], number_clients_published_to)
  | client_fd :: clients =>
      number ← checked32 (number_clients_published_to + 1);
      '(trace, total) ← publish_to channel message clients number;
      Ok (SendResponse client_fd
            (serialize (PubSubResponse (lit "message") channel (BulkString (Some message)))) ++ trace,
          total)
  end.

Definition Publish (st : PubSubChannels) (channel message : bytes) : res (list event * Z) :=
  match LookUp (channel_to_client_fds_ st) channel with
  | None => Ok ([], 0)
  | Some set => publish_to channel message (SetForEach set) 0
  end.

Definition Unsubscribe (st : PubSubChannels) (client_fd : Z) (channel : bytes)
    : res (PubSubChannels * Z) :=
  match LookUp (client_fd_to_connection_ st) client_fd with
  | None => Ok (st, 0)
  | Some current_connections =>
      match LookUp (channel_to_client_fds_ st) channel with
      | None => Ok (st, current_connections)
      | Some set =>
          let channels := AssignRef (channel_to_client_fds_ st) channel (SetRemove set client_fd) in
          count ← checked32 (current_connections - 1);
          Ok (mkChannels channels (AssignRef (client_fd_to_connection_ st) client_fd count), count)
      end
  end.

(** ** Abstract specification *)

Definition subscribers (a : subscriptions) (channel : bytes) : gset Z :=
  set_map fst (filter (fun p => p.2 = channel) a).

(** The number of channels of a client. *)
Definition channels_of (a : subscriptions) (client_fd : Z) : Z :=
  Z.of_nat (size (filter (fun p : Z * bytes => p.1 = client_fd) a)).

Lemma elem_of_subscribers a channel fd : fd ∈ subscribers a channel <-> (fd, channel) ∈ a.
Proof.
  unfold subscribers. rewrite elem_of_map. split.
  - intros ([fd' ch] & -> & [He Hin]%elem_of_filter). cbn in *. by subst.
  - intros Hin. exists (fd, channel). split; [done|]. by apply elem_of_filter.
Qed.

Context {set_spec : SetSpec Z CS} {channel_spec : MapSpec bytes CS CM} {count_spec : MapSpec Z Z NM}.

Record represents (st : PubSubChannels) (a : subscriptions) : Prop := {
  rep_channels : map_inv (channel_to_client_fds_ st);
  rep_counts : map_inv (client_fd_to_connection_ st);
  rep_set ch set : map_abs (channel_to_client_fds_ st) !! ch = Some set ->
    set_inv set /\ set_abs set = subscribers a ch;
  rep_none ch : map_abs (channel_to_client_fds_ st) !! ch = None -> subscribers a ch = ∅;
  rep_known fd ch : (fd, ch) ∈ a -> is_Some (map_abs (client_fd_to_connection_ st) !! fd)
}.

(** The counters, as a function of the client. *)
Definition count_of (st : PubSubChannels) (fd : Z) : Z :=
  default 0 (map_abs (client_fd_to_connection_ st) !! fd).

Lemma represents_none : represents no_channels ∅.
Proof.
  constructor; cbn; try apply EmptyMap_inv.
  - intros ch set. rewrite EmptyMap_abs, lookup_empty. done.
  - done.
  - intros fd ch. set_solver.
Qed.

(** ** Lemmas *)

Lemma subscribers_add a fd ch ch' :
  subscribers ({[(fd, ch)]} ∪ a) ch'
  = if decide (ch' = ch) then {[fd]} ∪ subscribers a ch' else subscribers a ch'.
Proof.
  apply set_eq. intros x. rewrite elem_of_subscribers. case_decide; subst;
    rewrite ?elem_of_union, ?elem_of_singleton, elem_of_subscribers; naive_solver.
Qed.

Lemma subscribers_remove a fd ch ch' :
  subscribers (a ∖ {[(fd, ch)]}) ch'
  = if decide (ch' = ch) then subscribers a ch' ∖ {[fd]} else subscribers a ch'.
Proof.
  apply set_eq. intros x. rewrite elem_of_subscribers. case_decide; subst;
    rewrite ?elem_of_difference, ?elem_of_singleton, elem_of_subscribers; naive_solver.
Qed.

(** One channel of the map changes with the subscriptions of that channel. *)
Lemma represents_channel st a a' ch set channels counts :
  represents st a -> map_inv channels -> map_inv counts ->
  map_abs channels = <[ch := set]> (map_abs (channel_to_client_fds_ st)) ->
  set_inv set -> set_abs set = subscribers a' ch ->
  (forall ch', ch' <> ch -> subscribers a' ch' = subscribers a ch') ->
  (forall fd ch', (fd, ch') ∈ a' -> is_Some (map_abs counts !! fd)) ->
  represents (mkChannels channels counts) a'.
Proof.
  intros [Hc Hn Hset Hnone Hk] Hc' Hn' Habs Hi Hs Hother Hk'. constructor; cbn; [done..| | |done].
  - intros ch' set'. rewrite Habs. destruct (decide (ch' = ch)) as [->|Hne].
    + rewrite lookup_insert_eq. intros [= <-]. done.
    + rewrite lookup_insert_ne by done. intros Hl. rewrite Hother by done. by apply Hset.
  - intros ch'. rewrite Habs. destruct (decide (ch' = ch)) as [->|Hne].
    + by rewrite lookup_insert_eq.
    + rewrite lookup_insert_ne by done. rewrite Hother by done. apply Hnone.
Qed.

(** The set of a channel after [Subscribe]. *)
Lemma subscribe_channel st a fd ch : represents st a ->
  exists set channels,
    match LookUp (channel_to_client_fds_ st) ch with
    | None => Insert (channel_to_client_fds_ st) ch (SetInsert CreateSet fd)
    | Some set => AssignRef (channel_to_client_fds_ st) ch (SetInsert set fd)
    end = channels
    /\ map_inv channels
    /\ map_abs channels = <[ch := set]> (map_abs (channel_to_client_fds_ st))
    /\ set_inv set /\ set_abs set = subscribers ({[(fd, ch)]} ∪ a) ch.
Proof.
  intros [Hc Hn Hset Hnone Hk]. rewrite subscribers_add, decide_True by done.
  rewrite LookUp_abs by done. destruct (map_abs _ !! ch) as [set|] eqn:E.
  - destruct (Hset _ _ E) as [Hi Ha]. exists (SetInsert set fd). eexists. split; [done|].
    rewrite AssignRef_abs, SetInsert_abs, Ha by (done || rewrite LookUp_abs, E; eauto).
    split_and!; try done.
    + apply AssignRef_inv; [done|]. rewrite LookUp_abs, E; eauto.
    + by apply SetInsert_inv.
  - exists (SetInsert CreateSet fd). eexists. split; [done|].
    rewrite Insert_abs, SetInsert_abs, CreateSet_abs by (done || apply CreateSet_inv).
    rewrite (Hnone _ E). split_and!; try done; [by apply Insert_inv|].
    apply SetInsert_inv, CreateSet_inv.
Qed.

Lemma Subscribe_spec st a fd ch : represents st a -> in_int32 (count_of st fd + 1) = true ->
  exists st', Subscribe st fd ch = Ok (st', count_of st fd + 1)
    /\ represents st' ({[(fd, ch)]} ∪ a)
    /\ forall fd', count_of st' fd' = if decide (fd' = fd) then count_of st fd + 1 else count_of st fd'.
Proof.
  intros Hr Hc. destruct (subscribe_channel st a fd ch Hr) as (set & channels & He & Hci & Hca & Hsi & Hsa).
  unfold Subscribe. rewrite He. unfold count_of in *. rewrite LookUp_abs by apply Hr.
  assert (forall counts, map_inv counts -> (forall fd' ch', (fd', ch') ∈ {[(fd, ch)]} ∪ a ->
            is_Some (map_abs counts !! fd')) -> represents (mkChannels channels counts) ({[(fd, ch)]} ∪ a)) as Hrep.
  { intros counts Hni Hk. eapply represents_channel; eauto.
    intros ch' Hne. by rewrite subscribers_add, decide_False. }
  assert (forall n fd' ch', (fd', ch') ∈ {[(fd, ch)]} ∪ a ->
            is_Some (<[fd := n]> (map_abs (client_fd_to_connection_ st)) !! fd')) as Hk.
  { intros n fd' ch'. rewrite elem_of_union, elem_of_singleton. rewrite lookup_insert_is_Some.
    intros [[= -> ->]|Hin]; [by left|]. destruct (decide (fd = fd')); [by left|right].
    split; [done|]. by eapply rep_known. }
  destruct (map_abs (client_fd_to_connection_ st) !! fd) as [n|] eqn:En; cbn in Hc |- *.
  - unfold checked32. rewrite Hc. cbn. eexists. split; [done|].
    assert (is_Some (LookUp (client_fd_to_connection_ st) fd)) as Hs by (rewrite LookUp_abs, En; eauto; apply Hr).
    split; [apply Hrep; [apply AssignRef_inv; [apply Hr|done]|]; rewrite AssignRef_abs by (done || apply Hr); apply Hk|].
    intros fd'. cbn. rewrite AssignRef_abs by (done || apply Hr).
    case_decide; subst; [by rewrite lookup_insert_eq|by rewrite lookup_insert_ne].
  - eexists. split; [done|].
    split; [apply Hrep; [apply Insert_inv, Hr|]; rewrite Insert_abs by apply Hr; apply Hk|].
    intros fd'. cbn. rewrite Insert_abs by apply Hr.
    case_decide; subst; [by rewrite lookup_insert_eq|by rewrite lookup_insert_ne].
Qed.

Lemma Unsubscribe_spec st a fd ch : represents st a -> in_int32 (count_of st fd - 1) = true ->
  exists st', Unsubscribe st fd ch = Ok (st', count_of st' fd)
    /\ represents st' (a ∖ {[(fd, ch)]})
    /\ (forall fd', fd' <> fd -> count_of st' fd' = count_of st fd')
    /\ count_of st fd - 1 <= count_of st' fd <= count_of st fd
    /\ (subscribers a ch <> ∅ -> (exists ch', (fd, ch') ∈ a) -> count_of st' fd = count_of st fd - 1).
Proof.
  intros Hr Hc. unfold Unsubscribe. rewrite !LookUp_abs by apply Hr. unfold count_of in *.
  assert ((fd, ch) ∉ a -> a ∖ {[(fd, ch)]} = a) as Hsame by set_solver.
  destruct (map_abs (client_fd_to_connection_ st) !! fd) as [n|] eqn:En; cbn in Hc |- *.
  2:{ assert (forall ch', (fd, ch') ∉ a) as Hnot.
      { intros ch' Hin. destruct (rep_known _ _ Hr _ _ Hin) as [? ?]. congruence. }
      exists st. rewrite Hsame, En by done. cbn. split_and!; try done; [lia..|].
      by intros _ [ch' []%Hnot]. }
  destruct (map_abs (channel_to_client_fds_ st) !! ch) as [set|] eqn:Es.
  2:{ assert ((fd, ch) ∉ a) as Hnot.
      { rewrite <- elem_of_subscribers, (rep_none _ _ Hr _ Es). set_solver. }
      exists st. rewrite Hsame, En by done. cbn. split_and!; try done; [lia..|].
      by intros []%(fun H => H (rep_none _ _ Hr _ Es)). }
  unfold checked32. rewrite Hc. cbn. destruct (rep_set _ _ Hr _ _ Es) as [Hsi Hsa].
  assert (is_Some (LookUp (client_fd_to_connection_ st) fd)) as Hs1 by (rewrite LookUp_abs, En; eauto; apply Hr).
  assert (is_Some (LookUp (channel_to_client_fds_ st) ch)) as Hs2 by (rewrite LookUp_abs, Es; eauto; apply Hr).
  exists (mkChannels (AssignRef (channel_to_client_fds_ st) ch (SetRemove set fd))
                     (AssignRef (client_fd_to_connection_ st) fd (n - 1))).
  cbn. rewrite AssignRef_abs, lookup_insert_eq by (done || apply Hr). cbn. split_and!; try done; try lia.
  - eapply (represents_channel st a _ ch (SetRemove set fd)); eauto using SetRemove_inv.
    + apply AssignRef_inv; [apply Hr|done].
    + apply AssignRef_inv; [apply Hr|done].
    + by apply AssignRef_abs; [apply Hr|].
    + by rewrite SetRemove_abs, Hsa, subscribers_remove, decide_True.
    + intros ch' Hne. by rewrite subscribers_remove, decide_False.
    + intros fd' ch' [Hin _]%elem_of_difference. rewrite AssignRef_abs by (done || apply Hr).
      rewrite lookup_insert_is_Some. destruct (decide (fd = fd')); [by left|right].
      split; [done|]. by eapply rep_known.
  - intros fd' Hne. by rewrite lookup_insert_ne.
Qed.

Lemma publish_to_spec channel message clients n :
  0 <= n -> n + Z.of_nat (length clients) < 2 ^ 31 ->
  publish_to channel message clients n
  = Ok (flat_map (fun fd => SendResponse fd
          (serialize (PubSubResponse (lit "message") channel (BulkString (Some message))))) clients,
        n + Z.of_nat (length clients)).
Proof.
  revert n. induction clients as [|fd clients IH]; intros n Hn Hl.
  - cbn. by rewrite Z.add_0_r.
  - cbn [publish_to flat_map length]. cbn [length] in Hl. unfold checked32, in_int32.
    rewrite (proj2 (Z.leb_le _ _)), (proj2 (Z.ltb_lt _ _)) by lia. cbn [andb mbind res_bind].
    rewrite IH by lia. cbn [mbind res_bind]. do 2 f_equal. lia.
Qed.

Lemma sends_responses (f : Z -> bytes) clients :
  sends (flat_map (fun fd => SendResponse fd (f fd)) clients) = map (fun fd => (fd, f fd)) clients.
Proof. induction clients as [|fd clients IH]; [done|]. cbn. by f_equal. Qed.

Lemma Publish_spec st a channel message : represents st a ->
  Z.of_nat (size (subscribers a channel)) < 2 ^ 31 ->
  exists targets, targets ≡ₚ elements (subscribers a channel)
    /\ Publish st channel message
       = Ok (flat_map (fun fd => SendResponse fd
               (serialize (PubSubResponse (lit "message") channel (BulkString (Some message))))) targets,
             Z.of_nat (size (subscribers a channel))).
Proof.
  intros Hr Hsz. unfold Publish. rewrite LookUp_abs by apply Hr.
  destruct (map_abs (channel_to_client_fds_ st) !! channel) as [set|] eqn:E.
  - destruct (rep_set _ _ Hr _ _ E) as [Hi Ha]. exists (SetForEach set).
    pose proof (SetForEach_abs set Hi) as Hp. rewrite Ha in Hp. split; [done|].
    assert (length (SetForEach set) = size (subscribers a channel)) as Hl by (by rewrite Hp).
    rewrite publish_to_spec by lia. by rewrite Hl, Z.add_0_l.
  - exists []. rewrite (rep_none _ _ Hr _ E), elements_empty, size_empty. done.
Qed.

(** ** Histories *)

Inductive sub_op := OpSubscribe (fd : Z) (ch : bytes) | OpUnsubscribe (fd : Z) (ch : bytes).

Definition run_sub_op (st : PubSubChannels) (op : sub_op) : res (PubSubChannels * Z) :=
  match op with
  | OpSubscribe fd ch => Subscribe st fd ch
  | OpUnsubscribe fd ch => Unsubscribe st fd ch
  end.

(** The state after a history, and the counts it reported. *)
Fixpoint run_sub (st : PubSubChannels) (history : list sub_op) : res (PubSubChannels * list Z) :=
  match history with
  | [] => Ok (st, [])
  | op :: history =>
      '(st, n) ← run_sub_op st op;
      '(st, ns) ← run_sub st history;
      Ok (st, n :: ns)
  end.

Definition abstract_sub (a : subscriptions) (op : sub_op) : subscriptions :=
  match op with
  | OpSubscribe fd ch => {[(fd, ch)]} ∪ a
  | OpUnsubscribe fd ch => a ∖ {[(fd, ch)]}
  end.

Definition op_client (op : sub_op) : Z :=
  match op with OpSubscribe fd _ | OpUnsubscribe fd _ => fd end.

(** The counter of each client that ever subscribed, and the channels anybody
    ever subscribed to. *)
Record sub_counters := mkCounters {
  told : gmap Z Z;
  named : gset bytes
}.

Definition no_counters : sub_counters := mkCounters ∅ ∅.

(** The count a client is told: one more with every subscription, one less with
    every cancellation, whether or not they change anything, but for the
    cancellations of a client that never subscribed or of a channel nobody ever
    subscribed to. *)
Definition abstract_count (c : sub_counters) (op : sub_op) : sub_counters * Z :=
  match op with
  | OpSubscribe fd ch =>
      let n := default 0 (told c !! fd) + 1 in (mkCounters (<[fd := n]> (told c)) ({[ch]} ∪ named c), n)
  | OpUnsubscribe fd ch =>
      match told c !! fd with
      | None => (c, 0)
      | Some n =>
          if bool_decide (ch ∈ named c) then (mkCounters (<[fd := n - 1]> (told c)) (named c), n - 1) else (c, n)
      end
  end.

Fixpoint abstract_counts (c : sub_counters) (history : list sub_op) : sub_counters * list Z :=
  match history with
  | [] => (c, [])
  | op :: history =>
      let '(c, n) := abstract_count c op in
      let '(c, ns) := abstract_counts c history in
      (c, n :: ns)
  end.

(** The counts a client should be told: the number of its channels. *)
Fixpoint true_counts (a : subscriptions) (history : list sub_op) : list Z :=
  match history with
  | [] => []
  | op :: history =>
      let a := abstract_sub a op in channels_of a (op_client op) :: true_counts a history
  end.

(** No subscription is repeated and none is cancelled that does not exist. *)
Fixpoint disciplined (a : subscriptions) (history : list sub_op) : bool :=
  match history with
  | [] => true
  | op :: history =>
      match op with
      | OpSubscribe fd ch => bool_decide ((fd, ch) ∉ a)
      | OpUnsubscribe fd ch => bool_decide ((fd, ch) ∈ a)
      end && disciplined (abstract_sub a op) history
  end.

Definition counts_within (st : PubSubChannels) (n : Z) : Prop :=
  forall fd, - n <= count_of st fd <= n.

Lemma in_int32_spec z : - 2 ^ 31 <= z < 2 ^ 31 -> in_int32 z = true.
Proof. intros Hz. unfold in_int32. apply andb_true_iff. rewrite Z.leb_le, Z.ltb_lt. lia. Qed.

Lemma run_sub_op_spec st a op n : represents st a -> counts_within st n -> n + 1 < 2 ^ 31 ->
  exists st', run_sub_op st op = Ok (st', count_of st' (op_client op))
    /\ represents st' (abstract_sub a op) /\ counts_within st' (n + 1)
    /\ (forall fd, fd <> op_client op -> count_of st' fd = count_of st fd)
    /\ match op with
       | OpSubscribe fd ch => count_of st' fd = count_of st fd + 1
       | OpUnsubscribe fd ch => subscribers a ch <> ∅ -> (exists ch', (fd, ch') ∈ a) ->
                                count_of st' fd = count_of st fd - 1
       end.
Proof.
  intros Hr Hw Hn. destruct op as [fd ch|fd ch]; cbn [run_sub_op op_client abstract_sub].
  - destruct (Subscribe_spec st a fd ch Hr) as (st' & -> & Hr' & Hc).
    { apply in_int32_spec. specialize (Hw fd). lia. }
    exists st'. rewrite (Hc fd), decide_True by done. split_and!; try done.
    + intros fd'. rewrite Hc. specialize (Hw fd'). case_decide; subst; lia.
    + intros fd' Hne. by rewrite Hc, decide_False.
  - destruct (Unsubscribe_spec st a fd ch Hr) as (st' & -> & Hr' & Ho & Hb & Hin).
    { apply in_int32_spec. specialize (Hw fd). lia. }
    exists st'. split_and!; try done.
    intros fd'. specialize (Hw fd'). destruct (decide (fd' = fd)) as [->|Hne]; [lia|].
    rewrite Ho by done. lia.
Qed.

Definition counters_of (st : PubSubChannels) : sub_counters :=
  mkCounters (map_abs (client_fd_to_connection_ st)) (dom (map_abs (channel_to_client_fds_ st))).

Lemma checked32_value z n : checked32 z = Ok n -> n = z.
Proof. unfold checked32. case_match; [by intros [= <-]|done]. Qed.

Lemma run_sub_op_counters st a op st' n : represents st a -> run_sub_op st op = Ok (st', n) ->
  abstract_count (counters_of st) op = (counters_of st', n).
Proof.
  intros Hr. destruct op as [fd ch|fd ch]; cbn [run_sub_op abstract_count counters_of told named].
  - destruct (subscribe_channel st a fd ch Hr) as (set & channels & He & _ & Hca & _). unfold Subscribe.
    rewrite He, LookUp_abs by apply Hr. destruct (map_abs (client_fd_to_connection_ st) !! fd) as [m|] eqn:Em.
    + destruct (checked32 (m + 1)) as [c| | |] eqn:Ec; try done. apply checked32_value in Ec as ->. intros [= <- <-].
      unfold counters_of. cbn. by rewrite AssignRef_abs, Hca, dom_insert_L by (apply Hr || rewrite LookUp_abs, Em by apply Hr; eauto).
    + intros [= <- <-]. unfold counters_of. cbn. by rewrite Insert_abs, Hca, dom_insert_L by apply Hr.
  - unfold Unsubscribe. rewrite !LookUp_abs by apply Hr.
    destruct (map_abs (client_fd_to_connection_ st) !! fd) as [m|] eqn:Em; [|by intros [= <- <-]].
    destruct (map_abs (channel_to_client_fds_ st) !! ch) as [set|] eqn:Es.
    + rewrite bool_decide_true by (by eapply elem_of_dom_2).
      destruct (checked32 (m - 1)) as [c| | |] eqn:Ec; try done. apply checked32_value in Ec as ->. intros [= <- <-].
      unfold counters_of. cbn. rewrite !AssignRef_abs by (apply Hr || (rewrite LookUp_abs, ?Em, ?Es by apply Hr; eauto)).
      rewrite dom_insert_L. do 2 f_equal. apply elem_of_dom_2 in Es. set_solver.
    + rewrite bool_decide_false by (by apply not_elem_of_dom). by intros [= <- <-].
Qed.

Lemma run_sub_spec history st a n : represents st a -> counts_within st n ->
  n + Z.of_nat (length history) < 2 ^ 31 ->
  exists st' ns, run_sub st history = Ok (st', ns) /\ represents st' (fold_left abstract_sub history a).
Proof.
  revert st a n. induction history as [|op history IH]; intros st a n Hr Hw Hn; cbn [run_sub fold_left length] in *.
  - eauto.
  - destruct (run_sub_op_spec st a op n Hr Hw ltac:(lia)) as (st' & -> & Hr' & Hw' & _).
    cbn [mbind res_bind]. destruct (IH st' _ (n + 1) Hr' Hw' ltac:(lia)) as (st'' & ns & -> & Hr''). cbn. eauto.
Qed.

Lemma channels_of_add a fd ch fd' : (fd, ch) ∉ a ->
  channels_of ({[(fd, ch)]} ∪ a) fd' = channels_of a fd' + if decide (fd' = fd) then 1 else 0.
Proof.
  intros Hnot. unfold channels_of. rewrite filter_union_L by apply _. case_decide; subst.
  - rewrite filter_singleton_L by apply _. cbn [fst]. rewrite decide_True by done. rewrite size_union.
    + rewrite size_singleton. lia.
    + intros x ->%elem_of_singleton [_ Hin]%elem_of_filter. done.
  - rewrite filter_singleton_L by apply _. cbn [fst]. rewrite decide_False by congruence. rewrite (left_id_L ∅ (∪)). lia.
Qed.

Lemma channels_of_remove a fd ch fd' : (fd, ch) ∈ a ->
  channels_of (a ∖ {[(fd, ch)]}) fd' = channels_of a fd' - if decide (fd' = fd) then 1 else 0.
Proof.
  intros Hin. assert (a = {[(fd, ch)]} ∪ a ∖ {[(fd, ch)]}) as Ha.
  { apply set_eq. intros x. destruct (decide (x = (fd, ch))); set_solver. }
  pose proof (channels_of_add (a ∖ {[(fd, ch)]}) fd ch fd' ltac:(set_solver)) as H.
  rewrite <- Ha in H. lia.
Qed.

Lemma run_sub_counts history st a n : represents st a -> counts_within st n ->
  n + Z.of_nat (length history) < 2 ^ 31 -> (forall fd, count_of st fd = channels_of a fd) ->
  disciplined a history = true ->
  exists st', run_sub st history = Ok (st', true_counts a history).
Proof.
  revert st a n. induction history as [|op history IH]; intros st a n Hr Hw Hn Hc Hd;
    cbn [run_sub true_counts length disciplined] in *; [eauto|].
  apply andb_true_iff in Hd as [Hop Hd].
  destruct (run_sub_op_spec st a op n Hr Hw ltac:(lia)) as (st' & -> & Hr' & Hw' & Ho & Hcl).
  assert (forall fd, count_of st' fd = channels_of (abstract_sub a op) fd) as Hc'.
  { intros fd'. destruct op as [fd ch|fd ch]; cbn [abstract_sub op_client] in *; reflect_bools.
    - rewrite channels_of_add by done. case_decide; subst; [by rewrite Hcl, Hc|].
      rewrite Ho, Hc by done. lia.
    - rewrite channels_of_remove by done. case_decide; subst.
      { rewrite Hcl, Hc; [done| |eauto]. intros He. by apply (not_elem_of_empty (C := gset Z) fd); rewrite <- He, elem_of_subscribers. }
      rewrite Ho, Hc by done. lia. }
  cbn [mbind res_bind]. destruct (IH st' _ (n + 1) Hr' Hw' ltac:(lia) Hc' Hd) as [st'' ->]. cbn. rewrite Hc'. eauto.
Qed.

Lemma counts_within_none : counts_within no_channels 0.
Proof. intros fd. unfold count_of. cbn. rewrite EmptyMap_abs, lookup_empty. cbn. lia. Qed.

Lemma size_subscribers history a ch :
  (size (subscribers (fold_left abstract_sub history a) ch) <= size (subscribers a ch) + length history)%nat.
Proof.
  revert a. induction history as [|op history IH]; intros a; cbn [fold_left length]; [lia|].
  rewrite (IH (abstract_sub a op)).
  assert (size (subscribers (abstract_sub a op) ch) <= S (size (subscribers a ch)))%nat; [|lia].
  destruct op as [fd c|fd c]; cbn [abstract_sub].
  - rewrite subscribers_add. case_decide; [|lia]. rewrite size_union_alt, size_singleton.
    assert (size (subscribers a ch ∖ {[fd]}) <= size (subscribers a ch))%nat; [|lia].
    apply subseteq_size. set_solver.
  - rewrite subscribers_remove. case_decide; [|lia].
    assert (size (subscribers a ch ∖ {[fd]}) <= size (subscribers a ch))%nat; [|lia].
    apply subseteq_size. set_solver.
Qed.

(** One request, from a state with small counters. *)
Ltac sub_step st op st' :=
  match goal with Hr : represents st ?x, Hw : counts_within st ?n |- _ =>
    let E := fresh "Hstep" in let C := fresh "Hcount" in
    destruct (run_sub_op_spec st x op n Hr Hw ltac:(lia)) as (st' & E & ? & ? & ? & C);
    cbn [abstract_sub op_client] in *; cbn [run_sub]; rewrite E; cbn [mbind res_bind]
  end.

Lemma subscribers_nonempty a fd ch : (fd, ch) ∈ a -> subscribers a ch <> ∅.
Proof. rewrite <- elem_of_subscribers. set_solver. Qed.

Lemma channels_of_empty fd : channels_of ∅ fd = 0.
Proof. unfold channels_of. rewrite filter_empty_L by apply _. by rewrite size_empty. Qed.

Lemma count_of_none fd : count_of no_channels fd = 0.
Proof. pose proof (counts_within_none fd). lia. Qed.

(** ** Theorems *)

(** After any history of subscriptions and cancellations (fewer than 2^31
    of them), [Publish] sends the message exactly once to each client whose
    last request for the channel was a subscription, to nobody else, and
    returns their number. *)
Theorem publish_reaches_subscribers history channel message :
  Z.of_nat (length history) < 2 ^ 31 ->
  let subscribed := subscribers (fold_left abstract_sub history ∅) channel in
  exists st ns trace targets,
    run_sub no_channels history = Ok (st, ns)
    /\ Publish st channel message = Ok (trace, Z.of_nat (size subscribed))
    /\ targets ≡ₚ elements subscribed
    /\ sends trace
       = map (fun fd => (fd, serialize (RespArray [RespBulkString (Some (lit "message"));
                RespBulkString (Some channel); RespBulkString (Some message)]))) targets.
Proof.
  intros Hl subscribed.
  destruct (run_sub_spec history _ _ 0 represents_none counts_within_none ltac:(lia)) as (st & ns & Hrun & Hr).
  destruct (Publish_spec st _ channel message Hr) as (targets & Hp & Hpub).
  { pose proof (size_subscribers history ∅ channel) as Hs.
    replace (size (subscribers ∅ channel)) with 0%nat in Hs by done. lia. }
  exists st, ns. eexists. exists targets. split_and!; [done|exact Hpub|done|].
  rewrite (sends_responses (fun _ => serialize (PubSubResponse (lit "message") channel (BulkString (Some message))))).
  done.
Qed.

(** For a history in which no client repeats a subscription or cancels
    one it does not have, the count reported after each request is the number
    of channels the client is subscribed to. *)
Theorem subscription_counts_exact history :
  Z.of_nat (length history) < 2 ^ 31 -> disciplined ∅ history = true ->
  exists st, run_sub no_channels history = Ok (st, true_counts ∅ history).
Proof.
  intros Hl Hd. apply (run_sub_counts history _ _ 0 represents_none counts_within_none); [lia| |done].
  intros fd. pose proof (counts_within_none fd). unfold channels_of. rewrite filter_empty_L by apply _. rewrite size_empty. lia.
Qed.

(** Otherwise the counts drift.  A client that subscribes twice to a
    channel is told 2, and is told 1 after leaving its only channel.  A client
    that leaves a channel of another client is told one channel fewer than it
    has, and a negative number when it does so again. *)
Theorem subscription_counts_drift a b news sport :
  a <> b -> news <> sport ->
  let twice := [OpSubscribe a news; OpSubscribe a news; OpUnsubscribe a news] in
  let foreign := [OpSubscribe a news; OpSubscribe b sport; OpUnsubscribe a sport; OpUnsubscribe a sport] in
  (exists st, run_sub no_channels twice = Ok (st, [1; 2; 1]))
  /\ (exists st, run_sub no_channels foreign = Ok (st, [1; 1; 0; -1]))
  /\ subscribers (fold_left abstract_sub twice ∅) news = ∅
  /\ subscribers (fold_left abstract_sub foreign ∅) news = {[a]}.
Proof.
  intros Hab Hns twice foreign. subst twice foreign.
  pose proof represents_none as Hr. pose proof counts_within_none as Hw.
  pose proof (count_of_none a) as Ha. pose proof (count_of_none b) as Hb. split_and!.
  - sub_step no_channels (OpSubscribe a news) st1. sub_step st1 (OpSubscribe a news) st2.
    sub_step st2 (OpUnsubscribe a news) st3. exists st3.
    rewrite Hcount1; [|apply (subscribers_nonempty _ a); set_solver|exists news; set_solver].
    by rewrite Hcount0, Hcount, Ha.
  - sub_step no_channels (OpSubscribe a news) st1. sub_step st1 (OpSubscribe b sport) st2.
    sub_step st2 (OpUnsubscribe a sport) st3. sub_step st3 (OpUnsubscribe a sport) st4. exists st4.
    rewrite Hcount2, Hcount1.
    + by rewrite Hcount0, (H4 a), (H1 b), Hcount, Ha, Hb by done.
    + apply (subscribers_nonempty _ b). set_solver.
    + exists news. set_solver.
    + apply (subscribers_nonempty _ b). set_solver.
    + exists news. set_solver.
  - cbn [fold_left abstract_sub]. rewrite subscribers_remove, !subscribers_add, !decide_True by done. set_solver.
  - cbn [fold_left abstract_sub]. rewrite !subscribers_remove, !subscribers_add.
    destruct (decide (news = sport)); [done|]. rewrite decide_True by done.
    change (subscribers ∅ news) with (∅ : gset Z). by rewrite (right_id_L ∅ (∪)).
Qed.

End PubSubChannels.
Arguments PubSubChannels CM NM : clear implicits.

(** ** Witnesses, over the standard map *)

Section Witnesses.
#[local] Instance channel_map : MapOps bytes (gmap Z ()) (gmap bytes (gmap Z ())) := StandardMap.ops map_to_list.
#[local] Instance count_map : MapOps Z Z (gmap Z Z) := StandardMap.ops map_to_list.
#[local] Instance client_map : MapOps Z () (gmap Z ()) := StandardMap.ops map_to_list.
#[local] Instance channel_map_spec : MapSpec bytes (gmap Z ()) (gmap bytes (gmap Z ())) :=
  StandardMap.spec map_to_list (fun _ => reflexivity _).
#[local] Instance count_map_spec : MapSpec Z Z (gmap Z Z) :=
  StandardMap.spec map_to_list (fun _ => reflexivity _).
#[local] Instance client_map_spec : MapSpec Z () (gmap Z ()) :=
  StandardMap.spec map_to_list (fun _ => reflexivity _).
#[local] Existing Instance MapBasedSet.ops.
#[local] Existing Instance MapBasedSet.spec.

#[local] Abbreviation clients := (gmap Z ()).
#[local] Abbreviation std_channels := (PubSubChannels (gmap bytes clients) (gmap Z Z)).

Lemma publish_reaches_subscribers_witness :
  let history := [OpSubscribe 4 (lit "news"); OpSubscribe 5 (lit "news"); OpUnsubscribe 4 (lit "news")] in
  exists (st : std_channels) ns trace,
    run_sub (CS := clients) no_channels history = Ok (st, ns)
    /\ Publish (CS := clients) st (lit "news") (lit "hi") = Ok (trace, 1)
    /\ sends trace = [(5, lit "*3" ++ crlf ++ lit "$7" ++ crlf ++ lit "message" ++ crlf
                         ++ lit "$4" ++ crlf ++ lit "news" ++ crlf ++ lit "$2" ++ crlf ++ lit "hi" ++ crlf)].
Proof.
  intros history.
  destruct (publish_reaches_subscribers (CS := clients) (CM := gmap bytes clients) (NM := gmap Z Z)
              history (lit "news") (lit "hi") ltac:(vm_compute; reflexivity))
    as (st & ns & trace & targets & Hrun & Hpub & Hp & Hs).
  exists st, ns, trace. split_and!; [exact Hrun|exact Hpub|].
  assert (elements (subscribers (fold_left abstract_sub history ∅) (lit "news")) = [5]) as He
    by (vm_compute; reflexivity).
  rewrite He in Hp. apply Permutation_singleton_r in Hp as ->. rewrite Hs. vm_compute. reflexivity.
Defined.

Lemma subscription_counts_exact_witness :
  let history := [OpSubscribe 4 (lit "news"); OpSubscribe 4 (lit "sport"); OpUnsubscribe 4 (lit "news")] in
  exists st : std_channels,
    run_sub (CS := clients) no_channels history = Ok (st, [1; 2; 1]).
Proof.
  intros history.
  destruct (subscription_counts_exact (CS := clients) (CM := gmap bytes clients) (NM := gmap Z Z) history
              ltac:(vm_compute; reflexivity) ltac:(vm_compute; reflexivity)) as [st Hst].
  exists st. rewrite Hst. vm_compute. reflexivity.
Defined.

Lemma subscription_counts_drift_witness :
  exists st : std_channels,
    run_sub (CS := clients) no_channels [OpSubscribe 4 (lit "news"); OpSubscribe 5 (lit "sport");
                         OpUnsubscribe 4 (lit "sport"); OpUnsubscribe 4 (lit "sport")]
    = Ok (st, [1; 1; 0; -1]).
Proof.
  destruct (subscription_counts_drift (CS := clients) (CM := gmap bytes clients) (NM := gmap Z Z) 4 5
              (lit "news") (lit "sport") ltac:(done) ltac:(done)) as (_ & H & _). exact H.
Defined.

End Witnesses.
