(* ===== verification/V1Handlers.v ===== *)
(** * Handlers of the threaded server: [v1/src/server/handler/]

    One Module per handler class, the chain built by [ServerApp]'s constructor
    and [HandlerDispatcher::DispatchRequest].  The handlers share the store and
    the channels, which the model threads as one state; what they send and log
    is a trace.  The maps are used through [MapSpec], the client sets through
    [SetSpec].

    Theorem: dispatching a request does what the command means, on the finite
    map of the store and the set of subscriptions, and every client that
    should hear of it is sent exactly the replies due; the only requests that
    throw are the subscriptions with an argument that is not a non-empty bulk
    string. *)

From S2P Require Import Prelude CxxString RespValue V1RespValue MapInterface V1Requests V1PubSub.

#[local] Set Warnings "-clear-no-such-hyp".

Definition INTERNAL_ERROR_RESP : bytes := lit "-ERR internal error" ++ crlf.
Definition OK_RESP : bytes := lit "+OK" ++ crlf.

Section Handlers.
Context {SM CS CM NM : Type}.
Context {store_ops : MapOps bytes (option bytes) SM}.
Context {set_ops : SetOps Z CS} {channel_ops : MapOps bytes CS CM} {count_ops : MapOps Z Z NM}.

(** The objects the handlers share. *)
Record ServerState := mkServer {
  data_ : SM;
  pub_sub_channels_ : PubSubChannels CM NM
}.

(** The interface [Handler]. *)
Record Handler := mkHandler {
  IsHandler : RespValue -> bool;
  Handle : ServerState -> Z -> RespValue -> res (ServerState * list event)
}.

Definition get_handle (st : ServerState) (client_fd : Z) (resp_value : RespValue)
    : res (ServerState * list event) :=
  request ← GetRequest.make resp_value;
  key ← GetRequest.getKey request;
  match LookUp (data_ st) key with
  | None => Ok (st, SendResponse client_fd (serialize NullBulkString))
  | Some value =>
      match value with
      | None => Ok (st, SendResponse client_fd (serialize NullBulkString))
      | Some _ => Ok (st, SendResponse client_fd (serialize (BulkString value)))
      end
  end.

Definition GetRequestHandler : Handler := mkHandler GetRequest.IsRequest get_handle.

(** The [catch] around [Insert] is for an allocation failure, which is not
    modelled. *)
Definition set_handle (st : ServerState) (client_fd : Z) (resp_value : RespValue)
    : res (ServerState * list event) :=
  request ← SetRequest.make resp_value;
  Ok (mkServer (Insert (data_ st) (SetRequest.getKey request) (SetRequest.getValue request))
        (pub_sub_channels_ st),
      SendResponse client_fd OK_RESP).

Definition SetRequestHandler : Handler := mkHandler SetRequest.IsRequest set_handle.

(** [getKey] is called inside the [try] block: what it throws is caught. *)
Definition del_handle (st : ServerState) (client_fd : Z) (resp_value : RespValue)
    : res (ServerState * list event) :=
  request ← DelRequest.make resp_value;
  match DelRequest.getKey request with
  | Throw _ => Ok (st, SendResponse client_fd INTERNAL_ERROR_RESP)
  | outcome =>
      key ← outcome;
      Ok (mkServer (Remove (data_ st) key) (pub_sub_channels_ st),
          SendResponse client_fd (serialize (Integer 1)))
  end.

Definition DelRequestHandler : Handler := mkHandler DelRequest.IsRequest del_handle.

(** The loop [for (int i = 0; i < request.numChannels(); i++)] of the two
    subscription handlers; [n] iterations remain. *)
Fixpoint channel_loop (action : bytes)
    (operation : PubSubChannels CM NM -> Z -> bytes -> res (PubSubChannels CM NM * Z))
    (request : VarArgRequest.t) (client_fd : Z) (n : nat) (i : Z) (st : PubSubChannels CM NM)
    : res (PubSubChannels CM NM * list event) :=
  match n with
  | O => Ok (st, [])
  | S n =>
      channel ← VarArgRequest.getArg request i;
      '(st, num_channels) ← operation st client_fd channel;
      '(st, trace) ← channel_loop action operation request client_fd n (i + 1) st;
      Ok (st, SendResponse client_fd (serialize (PubSubResponse action channel (Integer num_channels)))
                ++ trace)
  end.

Definition subscribe_handle (st : ServerState) (client_fd : Z) (resp_value : RespValue)
    : res (ServerState * list event) :=
  request ← SubscribeRequest.make resp_value;
  '(channels, trace) ← channel_loop (lit "subscribe") Subscribe request client_fd
                         (Z.to_nat (SubscribeRequest.numChannels request)) 0 (pub_sub_channels_ st);
  Ok (mkServer (data_ st) channels, trace).

Definition SubscribeRequestHandler : Handler := mkHandler SubscribeRequest.IsRequest subscribe_handle.

Definition publish_handle (st : ServerState) (client_fd : Z) (resp_value : RespValue)
    : res (ServerState * list event) :=
  request ← PublishRequest.make resp_value;
  '(trace, num_published_to) ← Publish (pub_sub_channels_ st) (PublishRequest.getChannel request)
                                 (PublishRequest.getMessage request);
  Ok (st, trace ++ SendResponse client_fd (serialize (Integer num_published_to))).

Definition PublishRequestHandler : Handler := mkHandler PublishRequest.IsRequest publish_handle.

Definition unsubscribe_handle (st : ServerState) (client_fd : Z) (resp_value : RespValue)
    : res (ServerState * list event) :=
  request ← UnsubscribeRequest.make resp_value;
  '(channels, trace) ← channel_loop (lit "unsubscribe") Unsubscribe request client_fd
                         (Z.to_nat (UnsubscribeRequest.numChannels request)) 0 (pub_sub_channels_ st);
  Ok (mkServer (data_ st) channels, trace).

Definition UnsubscribeRequestHandler : Handler := mkHandler UnsubscribeRequest.IsRequest unsubscribe_handle.

Definition unknown_handle (st : ServerState) (client_fd : Z) (resp_value : RespValue)
    : res (ServerState * list event) :=
  Ok (st, SendResponse client_fd (serialize (Error (lit "Unknown subcommand or command")))).

Definition UnknownRequestHandler : Handler := mkHandler (fun _ => true) unknown_handle.

(** The vector [ServerApp]'s constructor fills. *)
Definition handlers_ : list Handler :=
  [GetRequestHandler; SetRequestHandler; DelRequestHandler; SubscribeRequestHandler;
   PublishRequestHandler; UnsubscribeRequestHandler; UnknownRequestHandler].

(** The loop of [DispatchRequest]: the first handler that recognises the request. *)
Fixpoint dispatch_loop (handlers : list Handler) (st : ServerState) (client_fd : Z)
    (resp_value : RespValue) : res (ServerState * list event) :=
  match handlers with
  | [] => Ok (st, [])
  | handler :: handlers =>
      if IsHandler handler resp_value then Handle handler st client_fd resp_value
      else dispatch_loop handlers st client_fd resp_value
  end.

Definition DispatchRequest (st : ServerState) (client_fd : Z) (resp_value : RespValue)
    : res (ServerState * list event) :=
  '(st, trace) ← dispatch_loop handlers_ st client_fd resp_value;
  Ok (st, Logged (lit "Received: " ++ serialize resp_value) :: trace).

(** ** What the commands mean *)

Record v1_model := mkModel {
  kv : gmap bytes (option bytes);
  subs : subscriptions;
  counters : sub_counters
}.

Definition empty_model : v1_model := mkModel ∅ ∅ no_counters.

(** A value never stored and a stored null are the same to a reader. *)
Definition value_reply (a : v1_model) (key : bytes) : RespValue :=
  RespBulkString (kv a !! key ≫= id).

Definition confirmation (action : string) (client_fd : Z) (channel : bytes) (n : Z) : Z * bytes :=
  (client_fd, serialize (RespArray [RespBulkString (Some (lit action));
                                    RespBulkString (Some channel); RespInteger n])).

Definition message_to (channel message : bytes) (client_fd : Z) : Z * bytes :=
  (client_fd, serialize (RespArray [RespBulkString (Some (lit "message"));
                                    RespBulkString (Some channel); RespBulkString (Some message)])).

(** The requests the server knows. *)
Inductive well_formed : RespValue -> Prop :=
| wf_key keyword key : keyword = "GET"%string \/ keyword = "DEL"%string -> key <> [] ->
    well_formed (request keyword [Some key])
| wf_set key value : key <> [] -> well_formed (request "SET" [Some key; value])
| wf_publish channel message : channel <> [] -> message <> [] ->
    well_formed (request "PUBLISH" [Some channel; Some message])
| wf_channels keyword channels : keyword = "SUBSCRIBE"%string \/ keyword = "UNSUBSCRIBE"%string ->
    channels <> [] -> Forall (fun c => c <> []) channels ->
    well_formed (request keyword (map Some channels)).

(** A subscription or cancellation with an argument that is no non-empty bulk string. *)
Definition bad_subscription (v : RespValue) : Prop :=
  exists keyword rest, (keyword = "SUBSCRIBE"%string \/ keyword = "UNSUBSCRIBE"%string)
    /\ v = RespArray (RespBulkString (Some (lit keyword)) :: rest)
    /\ exists arg, arg ∈ rest /\ forall s, s <> [] -> arg <> RespBulkString (Some s).

(** [v1_exec a fd request a' out]: the request of client [fd] changes the
    state from [a] to [a'] and the clients are sent [out].  The count in the
    confirmation of a subscription or cancellation is that of [abstract_counts];
    it is the number of the client's channels as long as it repeats no
    subscription and cancels none it does not have ([subscription_counts_exact]
    and [subscription_counts_drift] of V1PubSub). *)
Inductive v1_exec (a : v1_model) (fd : Z) : RespValue -> v1_model -> list (Z * bytes) -> Prop :=
| exec_get key : key <> [] ->
    v1_exec a fd (request "GET" [Some key]) a [(fd, serialize (value_reply a key))]
| exec_set key value : key <> [] ->
    v1_exec a fd (request "SET" [Some key; value])
      (mkModel (<[key := value]> (kv a)) (subs a) (counters a)) [(fd, OK_RESP)]
| exec_del key : key <> [] ->
    v1_exec a fd (request "DEL" [Some key])
      (mkModel (delete key (kv a)) (subs a) (counters a)) [(fd, serialize (RespInteger 1))]
| exec_publish channel message targets : channel <> [] -> message <> [] ->
    targets ≡ₚ elements (subscribers (subs a) channel) ->
    v1_exec a fd (request "PUBLISH" [Some channel; Some message]) a
      (map (message_to channel message) targets
         ++ [(fd, serialize (RespInteger (Z.of_nat (length targets))))])
| exec_subscribe channels c counts :
    channels <> [] -> Forall (fun ch => ch <> []) channels ->
    abstract_counts (counters a) (map (OpSubscribe fd) channels) = (c, counts) ->
    v1_exec a fd (request "SUBSCRIBE" (map Some channels))
      (mkModel (kv a) (subs a ∪ list_to_set (map (pair fd) channels)) c)
      (zip_with (confirmation "subscribe" fd) channels counts)
| exec_unsubscribe channels c counts :
    channels <> [] -> Forall (fun ch => ch <> []) channels ->
    abstract_counts (counters a) (map (OpUnsubscribe fd) channels) = (c, counts) ->
    v1_exec a fd (request "UNSUBSCRIBE" (map Some channels))
      (mkModel (kv a) (subs a ∖ list_to_set (map (pair fd) channels)) c)
      (zip_with (confirmation "unsubscribe" fd) channels counts)
| exec_unknown v :
    ~ well_formed v -> ~ bad_subscription v ->
    v1_exec a fd v a [(fd, serialize (RespSimpleError (lit "Unknown subcommand or command")))].

(** ** Lemmas *)

Context {store_spec : MapSpec bytes (option bytes) SM}.
Context {set_spec : SetSpec Z CS} {channel_spec : MapSpec bytes CS CM} {count_spec : MapSpec Z Z NM}.

(** The state stands for the model, after at most [n] subscriptions and cancellations. *)
Record server_represents (st : ServerState) (a : v1_model) (n : Z) : Prop := {
  sr_inv : map_inv (data_ st);
  sr_data : map_abs (data_ st) = kv a;
  sr_subs : represents (pub_sub_channels_ st) (subs a);
  sr_counts : counts_within (pub_sub_channels_ st) n;
  sr_told : counters_of (pub_sub_channels_ st) = counters a;
  sr_size channel : Z.of_nat (size (subscribers (subs a) channel)) <= n
}.

Lemma server_represents_weaken st a n n' : server_represents st a n -> n <= n' -> server_represents st a n'.
Proof.
  intros [H1 H2 H3 H4 H6 H5] Hn. constructor; try done.
  - intros fd. specialize (H4 fd). lia.
  - intros channel. specialize (H5 channel). lia.
Qed.

Lemma sends_app t1 t2 : sends (t1 ++ t2) = sends t1 ++ sends t2.
Proof. apply omap_app. Qed.

Lemma getArg_middle pre channel rest rt :
  Z.of_nat (length (pre ++ channel :: rest)) < 2 ^ 31 ->
  VarArgRequest.getArg (VarArgRequest.mk (pre ++ channel :: rest) rt) (Z.of_nat (length pre)) = Ok channel.
Proof. intros Hl. apply getArg_lookup; cbn [VarArgRequest.args_]; [by rewrite list_lookup_middle|done]. Qed.

(** The loop over the channels performs the operations in order and confirms each. *)
Lemma channel_loop_spec (mk : Z -> bytes -> sub_op) action fd rt channels pre st a n :
  (forall ch, op_client (mk fd ch) = fd) ->
  represents st a -> counts_within st n ->
  n + Z.of_nat (length channels) < 2 ^ 31 -> Z.of_nat (length (pre ++ channels)) < 2 ^ 31 ->
  exists st' counts trace,
    abstract_counts (counters_of st) (map (mk fd) channels) = (counters_of st', counts)
    /\ channel_loop (lit action) (fun st fd ch => run_sub_op st (mk fd ch)) (VarArgRequest.mk (pre ++ channels) rt)
      fd (length channels) (Z.of_nat (length pre)) st = Ok (st', trace)
    /\ sends trace = zip_with (confirmation action fd) channels counts
    /\ represents st' (fold_left abstract_sub (map (mk fd) channels) a)
    /\ counts_within st' (n + Z.of_nat (length channels)).
Proof.
  intros Hcl. revert pre st a n. induction channels as [|ch channels IH]; intros pre st a n Hr Hw Hn Hl.
  - exists st, [], []. cbn. split_and!; try done. by rewrite Z.add_0_r.
  - cbn [length channel_loop map fold_left] in *. rewrite getArg_middle by done. cbn [mbind res_bind].
    destruct (run_sub_op_spec st a (mk fd ch) n Hr Hw ltac:(lia)) as (st1 & E1 & Hr1 & Hw1 & _).
    pose proof (run_sub_op_counters _ _ _ _ _ Hr E1) as Ec1. rewrite E1. cbn [mbind res_bind].
    destruct (IH (pre ++ [ch]) st1 _ (n + 1) Hr1 Hw1 ltac:(lia)) as (st2 & counts & trace & Hc2 & Hloop & Hs & Hr2 & Hw2).
    { by rewrite <- app_assoc. }
    rewrite <- app_assoc, length_app in Hloop. cbn [app length] in Hloop.
    replace (Z.of_nat (length pre) + 1) with (Z.of_nat (length pre + 1)) by lia. rewrite Hloop.
    exists st2, (count_of st1 (op_client (mk fd ch)) :: counts). eexists.
    split_and!; [cbn [abstract_counts]; by rewrite Ec1, Hc2|reflexivity| |done|].
    + cbn [zip_with]. rewrite sends_app. cbn [sends SendResponse omap list_omap app]. fold (sends trace).
      by rewrite Hs.
    + by replace (n + Z.of_nat (S (length channels))) with (n + 1 + Z.of_nat (length channels)) by lia.
Qed.

Lemma fold_subscribe fd channels a :
  fold_left abstract_sub (map (OpSubscribe fd) channels) a = a ∪ list_to_set (map (pair fd) channels).
Proof.
  revert a. induction channels as [|ch channels IH]; intros a; cbn; [set_solver|]. rewrite IH. set_solver.
Qed.

Lemma fold_unsubscribe fd channels a :
  fold_left abstract_sub (map (OpUnsubscribe fd) channels) a = a ∖ list_to_set (map (pair fd) channels).
Proof.
  revert a. induction channels as [|ch channels IH]; intros a; cbn; [set_solver|]. rewrite IH. set_solver.
Qed.

(** A subscription request or a cancellation, as its handler performs it. *)
Lemma channels_handled (mk : Z -> bytes -> sub_op) action fd rt channels st a n :
  (forall ch, op_client (mk fd ch) = fd) ->
  server_represents st a n -> n + Z.of_nat (length channels) < 2 ^ 31 -> 0 <= n ->
  exists ps c counts trace,
    let a' := mkModel (kv a) (fold_left abstract_sub (map (mk fd) channels) (subs a)) c in
    abstract_counts (counters a) (map (mk fd) channels) = (c, counts)
    /\ channel_loop (lit action) (fun st fd ch => run_sub_op st (mk fd ch)) (VarArgRequest.mk channels rt) fd
      (Z.to_nat (VarArgRequest.numArgs (VarArgRequest.mk channels rt))) 0 (pub_sub_channels_ st) = Ok (ps, trace)
    /\ sends trace = zip_with (confirmation action fd) channels counts
    /\ server_represents (mkServer (data_ st) ps) a' (n + Z.of_nat (length channels)).
Proof.
  intros Hcl [H1 H2 H3 H4 H6 H5] Hn H0.
  destruct (channel_loop_spec mk action fd rt channels [] _ _ _ Hcl H3 H4 Hn ltac:(cbn; lia))
    as (ps & counts & trace & Hc & Hloop & Hs & Hr & Hw).
  rewrite H6 in Hc. exists ps, (counters_of ps), counts, trace. cbv zeta. unfold VarArgRequest.numArgs. cbn [VarArgRequest.args_].
  rewrite cast_int32_small, Nat2Z.id by lia. split_and!; [done..|].
  constructor; try done. intros channel. cbn [subs].
  pose proof (size_subscribers (map (mk fd) channels) (subs a) channel) as Hsz.
  rewrite length_map in Hsz. specialize (H5 channel). lia.
Qed.

(** ** One request *)

(** The number of elements of a request. *)
Definition request_size (v : RespValue) : Z :=
  match v with RespArray l => Z.of_nat (length l) | _ => 0 end.

Lemma well_formed_recognised v : well_formed v ->
  existsb (fun h => IsHandler h v) (take 6 handlers_) = true.
Proof.
  assert (forall k : bytes, k <> [] -> bool_decide (k = []) = false) as Hk.
  { intros k. apply bool_decide_eq_false_2. }
  destruct 1 as [keyword key [->| ->] Hkey|key value Hkey|c m Hc Hm|keyword chs [->| ->] Hne Hall]; cbn;
    rewrite ?Hk by done; try done.
  all: destruct chs; [done|]; cbn; by rewrite ?orb_true_r.
Qed.

Lemma bad_subscription_recognised v : bad_subscription v ->
  existsb (fun h => IsHandler h v) (take 6 handlers_) = true.
Proof.
  intros (keyword & rest & Hkw & -> & arg & Harg & _).
  destruct rest as [|x rest]; [by apply not_elem_of_nil in Harg|].
  destruct Hkw as [->| ->]; cbn; by rewrite ?orb_true_r.
Qed.

(** The outcome of handling a request is the one its command means. *)
Definition serves (outcome : res (ServerState * list event)) (a : v1_model) (fd : Z) (v : RespValue) (n : Z)
    : Prop :=
  exists st a' trace, outcome = Ok (st, trace)
    /\ v1_exec a fd v a' (sends trace) /\ server_represents st a' (n + request_size v).

Lemma request_size_nonneg v : 0 <= request_size v.
Proof. destruct v; cbn; lia. Qed.

Lemma get_serves st a n fd k r : server_represents st a n -> k <> [] ->
  GetRequest.make (request "GET" [Some k]) = Ok r -> GetRequest.getKey r = Ok k ->
  serves (get_handle st fd (request "GET" [Some k])) a fd (request "GET" [Some k]) n.
Proof.
  intros Hr Hk Hm Hg. unfold get_handle. rewrite Hm. cbn [mbind res_bind]. rewrite Hg. cbn [mbind res_bind].
  exists st, a. exists (SendResponse fd (serialize (value_reply a k))). split_and!.
  - unfold value_reply. rewrite LookUp_abs, (sr_data _ _ _ Hr) by apply Hr.
    by destruct (kv a !! k) as [[]|].
  - by apply exec_get.
  - eapply server_represents_weaken; [done|]. cbn. lia.
Qed.

Lemma set_serves st a n fd k o : server_represents st a n -> k <> [] ->
  SetRequest.make (request "SET" [Some k; o]) = Ok (SetRequest.mk k o) ->
  serves (set_handle st fd (request "SET" [Some k; o])) a fd (request "SET" [Some k; o]) n.
Proof.
  intros Hr Hk Hm. unfold set_handle. rewrite Hm. cbn [mbind res_bind SetRequest.getKey SetRequest.getValue
    SetRequest.key_ SetRequest.value_].
  do 3 eexists. split_and!; [done|by apply exec_set|]. destruct Hr as [H1 H2 H3 H4 H6 H5].
  eapply (server_represents_weaken _ _ n); [|cbn; lia]. constructor; cbn; try done.
  - by apply Insert_inv.
  - by rewrite Insert_abs, H2.
Qed.

Lemma del_serves st a n fd k r : server_represents st a n -> k <> [] ->
  DelRequest.make (request "DEL" [Some k]) = Ok r -> DelRequest.getKey r = Ok k ->
  serves (del_handle st fd (request "DEL" [Some k])) a fd (request "DEL" [Some k]) n.
Proof.
  intros Hr Hk Hm Hg. unfold del_handle. rewrite Hm. cbn [mbind res_bind]. rewrite Hg. cbn [mbind res_bind].
  do 3 eexists. split_and!; [done|by apply exec_del|]. destruct Hr as [H1 H2 H3 H4 H6 H5].
  eapply (server_represents_weaken _ _ n); [|cbn; lia]. constructor; cbn; try done.
  - by apply Remove_inv.
  - by rewrite Remove_abs, H2.
Qed.

Lemma publish_serves st a n fd c m : server_represents st a n -> n < 2 ^ 31 -> c <> [] -> m <> [] ->
  PublishRequest.make (request "PUBLISH" [Some c; Some m]) = Ok (PublishRequest.mk c m) ->
  serves (publish_handle st fd (request "PUBLISH" [Some c; Some m])) a fd
    (request "PUBLISH" [Some c; Some m]) n.
Proof.
  intros Hr Hn Hc Hm Hmake. unfold publish_handle. rewrite Hmake. cbn [mbind res_bind PublishRequest.getChannel
    PublishRequest.getMessage PublishRequest.channel_ PublishRequest.message_].
  destruct (Publish_spec _ _ c m (sr_subs _ _ _ Hr)) as (targets & Hp & ->).
  { pose proof (sr_size _ _ _ Hr c). lia. }
  cbn [mbind res_bind]. do 3 eexists. split_and!; [done| |].
  - rewrite sends_app.
    rewrite (sends_responses (fun _ => serialize (PubSubResponse (lit "message") c (BulkString (Some m))))).
    cbn [sends SendResponse omap list_omap].
    replace (size (subscribers (subs a) c)) with (length targets) by (by rewrite Hp).
    by apply (exec_publish a fd c m targets).
  - eapply server_represents_weaken; [done|]. cbn. lia.
Qed.

Lemma subscribe_serves st a n fd chs : server_represents st a n -> 0 <= n ->
  let v := request "SUBSCRIBE" (map Some chs) in
  n + request_size v < 2 ^ 31 -> chs <> [] -> Forall (fun c => c <> []) chs ->
  SubscribeRequest.make v = Ok (VarArgRequest.mk chs "SUBSCRIBE") ->
  serves (subscribe_handle st fd v) a fd v n.
Proof.
  intros Hr H0 v Hn Hne Hall Hmake. unfold subscribe_handle. rewrite Hmake. cbn [mbind res_bind].
  assert (request_size v = Z.of_nat (length chs) + 1) as Hsz.
  { cbn. rewrite !length_map. lia. }
  destruct (channels_handled OpSubscribe "subscribe" fd "SUBSCRIBE" chs st a n (fun _ => eq_refl) Hr ltac:(lia) H0)
    as (ps & c & counts & trace & Hc & Hloop & Hs & Hr').
  cbv [SubscribeRequest.numChannels]. cbn [run_sub_op] in Hloop. setoid_rewrite Hloop. cbn [mbind res_bind].
  do 3 eexists. split_and!; [done| |].
  - rewrite Hs. by apply exec_subscribe.
  - rewrite <- fold_subscribe. eapply server_represents_weaken; [exact Hr'|lia].
Qed.

Lemma unsubscribe_serves st a n fd chs : server_represents st a n -> 0 <= n ->
  let v := request "UNSUBSCRIBE" (map Some chs) in
  n + request_size v < 2 ^ 31 -> chs <> [] -> Forall (fun c => c <> []) chs ->
  UnsubscribeRequest.make v = Ok (VarArgRequest.mk chs "UNSUBSCRIBE") ->
  serves (unsubscribe_handle st fd v) a fd v n.
Proof.
  intros Hr H0 v Hn Hne Hall Hmake. unfold unsubscribe_handle. rewrite Hmake. cbn [mbind res_bind].
  assert (request_size v = Z.of_nat (length chs) + 1) as Hsz.
  { cbn. rewrite !length_map. lia. }
  destruct (channels_handled OpUnsubscribe "unsubscribe" fd "UNSUBSCRIBE" chs st a n (fun _ => eq_refl) Hr
              ltac:(lia) H0) as (ps & c & counts & trace & Hc & Hloop & Hs & Hr').
  cbv [UnsubscribeRequest.numChannels]. cbn [run_sub_op] in Hloop. setoid_rewrite Hloop. cbn [mbind res_bind].
  do 3 eexists. split_and!; [done| |].
  - rewrite Hs. by apply exec_unsubscribe.
  - rewrite <- fold_unsubscribe. eapply server_represents_weaken; [exact Hr'|lia].
Qed.

(** A subscription request meets its handler: it is served, skipped or throws. *)
Lemma var_arg_cases keyword v : keyword = "SUBSCRIBE"%string \/ keyword = "UNSUBSCRIBE"%string ->
  (exists chs, v = request keyword (map Some chs) /\ chs <> [] /\ Forall (fun c => c <> []) chs
     /\ VarArgRequest.IsRequest (VarArgRequest.checker keyword) v = true
     /\ VarArgRequest.make v keyword = Ok (VarArgRequest.mk chs keyword))
  \/ VarArgRequest.IsRequest (VarArgRequest.checker keyword) v = false
  \/ (VarArgRequest.IsRequest (VarArgRequest.checker keyword) v = true /\ bad_subscription v
      /\ exists w, VarArgRequest.make v keyword = Throw (InvalidArgument w)).
Proof.
  intros Hkw. destruct (VarArgRequest_decodes keyword v)
    as [(chs & Hne & Hall & Hv & Hi & Hm)|[[Hi _]|(rest & Hv & _ & Hg & Hi & Hm)]]; [left|right; by left|right; right].
  - exists chs. by split_and!.
  - split_and!; [done| |done]. exists keyword, rest. split_and!; [done..|]. by apply bad_arg_given.
Qed.

Lemma dispatch_loop_spec st a n fd v :
  server_represents st a n -> 0 <= n -> n + request_size v < 2 ^ 31 ->
  serves (dispatch_loop handlers_ st fd v) a fd v n
  \/ (bad_subscription v /\ exists w, dispatch_loop handlers_ st fd v = Throw (InvalidArgument w)).
Proof.
  intros Hr H0 Hn. pose proof (request_size_nonneg v) as Hsz.
  pose proof (well_formed_recognised v) as Hwf. pose proof (bad_subscription_recognised v) as Hbad.
  unfold handlers_ in *. cbn [dispatch_loop take existsb IsHandler Handle GetRequestHandler SetRequestHandler
    DelRequestHandler SubscribeRequestHandler PublishRequestHandler UnsubscribeRequestHandler
    UnknownRequestHandler] in *.
  destruct (OneArgRequest_decodes "GET" v) as [(k & Hk & -> & Hi & Hm)|[Hget _]].
  { setoid_rewrite Hi. left. eapply get_serves; eauto using getFirstArg_mk. }
  destruct (SetRequest_decodes v) as [(k & o & Hk & -> & Hi & Hm)|[Hset _]].
  { setoid_rewrite Hget. rewrite Hi. left. eapply set_serves; eauto. }
  destruct (OneArgRequest_decodes "DEL" v) as [(k & Hk & -> & Hi & Hm)|[Hdel _]].
  { setoid_rewrite Hget. rewrite Hset. setoid_rewrite Hi. left. eapply del_serves; eauto using getFirstArg_mk. }
  setoid_rewrite Hget. rewrite Hset. setoid_rewrite Hdel.
  setoid_rewrite Hget in Hwf. setoid_rewrite Hset in Hwf. setoid_rewrite Hdel in Hwf.
  setoid_rewrite Hget in Hbad. setoid_rewrite Hset in Hbad. setoid_rewrite Hdel in Hbad.
  destruct (var_arg_cases "SUBSCRIBE" v) as [(chs & -> & Hne & Hall & Hi & Hm)|[Hsub|(Hi & Hb & w & Hm)]]; [by left|..].
  { setoid_rewrite Hi. left. eapply subscribe_serves; eauto. }
  2:{ setoid_rewrite Hi. right. split; [done|]. exists w. unfold subscribe_handle. by setoid_rewrite Hm. }
  setoid_rewrite Hsub. setoid_rewrite Hsub in Hwf. setoid_rewrite Hsub in Hbad.
  destruct (PublishRequest_decodes v) as [(c & m & Hc & Hm & -> & Hi & Hmk)|[Hpub _]].
  { rewrite Hi. left. eapply publish_serves; eauto. lia. }
  rewrite Hpub. rewrite Hpub in Hwf, Hbad.
  destruct (var_arg_cases "UNSUBSCRIBE" v) as [(chs & -> & Hne & Hall & Hi & Hm)|[Huns|(Hi & Hb & w & Hm)]]; [by right|..].
  { setoid_rewrite Hi. left. eapply unsubscribe_serves; eauto. }
  2:{ setoid_rewrite Hi. right. split; [done|]. exists w. unfold unsubscribe_handle. by setoid_rewrite Hm. }
  setoid_rewrite Huns. setoid_rewrite Huns in Hwf. setoid_rewrite Huns in Hbad. left.
  exists st, a. eexists. split_and!; [done| |by apply (server_represents_weaken _ _ n); [|lia]].
  cbn. apply exec_unknown; [by intros ?%Hwf|by intros ?%Hbad].
Qed.

(** ** Sequences of requests *)

Definition init_server : ServerState := mkServer EmptyMap no_channels.

Fixpoint serve (st : ServerState) (requests : list (Z * RespValue)) : res (ServerState * list event) :=
  match requests with
  | [] => Ok (st, [])
  | (fd, v) :: requests =>
      '(st, trace) ← DispatchRequest st fd v;
      '(st, rest) ← serve st requests;
      Ok (st, trace ++ rest)
  end.

Inductive v1_execs : v1_model -> list (Z * RespValue) -> v1_model -> list (Z * bytes) -> Prop :=
| execs_nil a : v1_execs a [] a []
| execs_cons a fd v a1 out requests a2 outs :
    v1_exec a fd v a1 out -> v1_execs a1 requests a2 outs ->
    v1_execs a ((fd, v) :: requests) a2 (out ++ outs).

Fixpoint total_size (requests : list (Z * RespValue)) : Z :=
  match requests with
  | [] => 0
  | (_, v) :: requests => request_size v + total_size requests
  end.

Lemma total_size_nonneg requests : 0 <= total_size requests.
Proof.
  induction requests as [|[fd v] requests IH]; cbn; [done|]. pose proof (request_size_nonneg v). lia.
Qed.

Lemma serve_spec requests st a n :
  server_represents st a n -> 0 <= n -> n + total_size requests < 2 ^ 31 ->
  Forall (fun r => ~ bad_subscription (snd r)) requests ->
  exists st' a' trace, serve st requests = Ok (st', trace) /\ v1_execs a requests a' (sends trace)
    /\ server_represents st' a' (n + total_size requests).
Proof.
  revert st a n. induction requests as [|[fd v] requests IH]; intros st a n Hr H0 Hn Hgood;
    cbn [total_size serve] in *.
  - exists st, a, []. split_and!; [done|constructor|by rewrite Z.add_0_r].
  - apply Forall_cons in Hgood as [Hv Hgood]. pose proof (total_size_nonneg requests).
    pose proof (request_size_nonneg v).
    destruct (dispatch_loop_spec st a n fd v Hr H0 ltac:(lia)) as [(st1 & a1 & t1 & E & Hx & Hr1)|[[]%Hv _]].
    destruct (IH st1 a1 _ Hr1 ltac:(lia) ltac:(lia) Hgood) as (st2 & a2 & t2 & E2 & Hxs & Hr2).
    unfold DispatchRequest. rewrite E. cbn [mbind res_bind]. rewrite E2. cbn [mbind res_bind].
    do 3 eexists. split_and!; [done| |by rewrite Z.add_assoc].
    rewrite sends_app. by eapply (execs_cons a fd v a1 (sends t1)).
Qed.

Lemma init_represents : server_represents init_server empty_model 0.
Proof.
  constructor; cbn; [apply EmptyMap_inv|apply EmptyMap_abs|apply represents_none|apply counts_within_none| |done].
  unfold counters_of. cbn. by rewrite !EmptyMap_abs, dom_empty_L.
Qed.

(** A subscription is not a request of fixed arity. *)
Lemma other_handlers_skip keyword x rest :
  keyword = "SUBSCRIBE"%string \/ keyword = "UNSUBSCRIBE"%string ->
  let v := RespArray (RespBulkString (Some (lit keyword)) :: x :: rest) in
  GetRequest.IsRequest v = false /\ SetRequest.IsRequest v = false
  /\ DelRequest.IsRequest v = false /\ PublishRequest.IsRequest v = false.
Proof. intros [->| ->]; destruct rest as [|y [|z rest]]; done. Qed.

(** ** Theorems *)

(** C17. A server that dispatches a sequence of requests from several clients,
    none of them a subscription with an unacceptable argument, executes every
    one of them in order as its command means: GET, SET and DEL on a finite
    map, SUBSCRIBE and UNSUBSCRIBE on a set of subscriptions, PUBLISH to
    exactly the subscribers of the channel, an error for every other value;
    and what is sent to the clients is exactly the replies due, in order.  The
    count in the confirmation of a subscription or cancellation is the counter
    of the client: one more for each channel it subscribed to, one less for
    each it cancelled (cancellations by a client that never subscribed, or of a
    channel nobody ever subscribed to, not counted), whether or not that
    changed its subscriptions.  The total length of the requests stays below
    2^31, the range of the counters. *)
Theorem v1_requests_served requests :
  total_size requests < 2 ^ 31 ->
  Forall (fun r => ~ bad_subscription (snd r)) requests ->
  exists st a trace, serve init_server requests = Ok (st, trace)
    /\ v1_execs empty_model requests a (sends trace)
    /\ forall key, LookUp (data_ st) key = kv a !! key.
Proof.
  intros Hn Hgood.
  destruct (serve_spec requests _ _ 0 init_represents ltac:(lia) ltac:(lia) Hgood) as (st & a & trace & E & Hx & Hr).
  exists st, a, trace. split_and!; [done..|]. intros key. rewrite <- (sr_data _ _ _ Hr). apply LookUp_abs, Hr.
Qed.

Lemma bad_subscription_rejected st fd v :
  bad_subscription v ->
  exists w, DispatchRequest st fd v = Throw (InvalidArgument w).
Proof.
  intros (keyword & rest & Hkw & -> & Hbad). pose proof (bad_arg_found rest Hbad) as Hg.
  destruct (read_args_bad _ Hg) as [w Hw]. exists w. unfold DispatchRequest.
  destruct rest as [|x rest]; [done|].
  destruct (other_handlers_skip keyword x rest Hkw) as (Hget & Hset & Hdel & Hpub).
  unfold handlers_. cbn [dispatch_loop IsHandler Handle GetRequestHandler SetRequestHandler
    DelRequestHandler SubscribeRequestHandler PublishRequestHandler UnsubscribeRequestHandler].
  rewrite Hget, Hset, Hdel, Hpub. destruct Hkw as [->| ->].
  - unfold subscribe_handle, SubscribeRequest.make, VarArgRequest.make.
    cbn -[VarArgRequest.read_args]. by rewrite Hw.
  - unfold unsubscribe_handle, UnsubscribeRequest.make, VarArgRequest.make.
    cbn -[VarArgRequest.read_args]. by rewrite Hw.
Qed.

(** A subscription with an unacceptable argument makes the dispatcher
    throw, in every state: the exception leaves the worker thread and ends the
    server. *)
Theorem bad_subscription_throws st fd v :
  bad_subscription v ->
  exists w, DispatchRequest st fd v = Throw (InvalidArgument w).
Proof. apply bad_subscription_rejected. Qed.

End Handlers.
Arguments ServerState SM CM NM : clear implicits.

(** ** Witnesses, over the standard map *)

Section Witnesses.
#[local] Abbreviation clients := (gmap Z ()).
#[local] Abbreviation std_server := (ServerState (gmap bytes (option bytes)) (gmap bytes clients) (gmap Z Z)).
#[local] Instance std_map {K V} `{Countable K} : MapOps K V (gmap K V) := StandardMap.ops map_to_list.
#[local] Instance std_map_spec {K V} `{Countable K} : MapSpec K V (gmap K V) :=
  StandardMap.spec map_to_list (fun _ => reflexivity _).
#[local] Existing Instance MapBasedSet.ops.
#[local] Existing Instance MapBasedSet.spec.

Lemma v1_requests_served_witness :
  let requests := [(4, request "SUBSCRIBE" [Some (lit "news")]); (5, request "SET" [Some (lit "k"); Some (lit "v")]);
                   (5, request "GET" [Some (lit "k")]); (5, request "PUBLISH" [Some (lit "news"); Some (lit "hi")])] in
  exists (st : std_server) a trace, serve (CS := clients) init_server requests = Ok (st, trace)
    /\ v1_execs empty_model requests a (sends trace).
Proof.
  intros requests.
  destruct (v1_requests_served (SM := gmap bytes (option bytes)) (CS := clients) (CM := gmap bytes clients)
              (NM := gmap Z Z) requests ltac:(vm_compute; reflexivity)) as (st & a & trace & E & Hx & _).
  { subst requests. repeat (apply Forall_cons; split); [..|apply Forall_nil; done];
      intros (keyword & rest & [-> | ->] & He & arg & Harg & Hbad);
      try (vm_compute in He; discriminate He).
    injection He as <-. apply list_elem_of_singleton in Harg as ->. by apply (Hbad (lit "news")). }
  exists st, a, trace. split; [exact E|exact Hx].
Defined.

Lemma bad_subscription_throws_witness :
  exists w, DispatchRequest (CS := clients) (init_server : std_server) 4
              (request "SUBSCRIBE" [Some (lit "news"); Some []]) = Throw (InvalidArgument w).
Proof.
  apply bad_subscription_throws. exists "SUBSCRIBE"%string. eexists. split_and!; [by left|reflexivity|].
  exists (RespBulkString (Some [])). split; [right; left|]. intros s Hs [= <-]. by apply Hs.
Defined.

End Witnesses.
