(* ===== verification/V1LinkedListHashmap.v ===== *)
(** * The chained hash map with its pointers: [v1/src/server/store/LinkedListHashmap.h]

    The first server's copy of the chained map, at the level of the pointers:
    entries are cells of a heap, a [unique_ptr] is the address of a cell or
    null, [make_unique] allocates, and assigning to a [unique_ptr] that owns an
    entry frees that entry.  Reading or writing through null or through the
    address of a freed entry is undefined behaviour.

    [owns] says that the buckets hold disjoint chains which together are the
    whole heap.  Theorem: every operation keeps that, so no entry is used
    after it was freed, none is owned twice and none is leaked, and does to
    the chains what the map of LinkedListHashmap does; that one is proved to
    be a finite map. *)

From S2P Require Import Prelude MapInterface LinkedListHashmap.

#[local] Open Scope nat_scope.

Module V1LinkedListHashmap.
Section V1LinkedListHashmap.
Context {K V : Type} `{Countable K}.
Context (hash_ : K -> Z) (load_factor_ : Z * Z).

(** ** The heap *)

Record Entry := mkEntry {
  key_ : K;
  value_ : V;
  next : option positive
}.

#[local] Abbreviation heap := (gmap positive Entry).

(** [p->...] *)
Definition deref (h : heap) (p : option positive) : res Entry :=
  match p with
  | None => Undef "null pointer"
  | Some a => match h !! a with Some e => Ok e | None => Undef "dangling pointer" end
  end.

(** [std::make_unique<Entry>(key, value)] *)
Definition make_entry (h : heap) (key : K) (value : V) : positive * heap :=
  let a := fresh (dom h) in (a, <[a := mkEntry key value None]> h).

Definition store (h : heap) (a : positive) (e : Entry) : heap := <[a := e]> h.

(** The destructor of a [unique_ptr]: the entry and all it owns.  The fuel
    bounds the length of the chain. *)
Fixpoint destroy (fuel : nat) (h : heap) (p : option positive) : res heap :=
  match p with
  | None => Ok h
  | Some a =>
      match fuel with
      | O => NoFuel
      | S f => e ← deref h p; destroy f (delete a h) (next e)
      end
  end.

(** ** The map *)

Record map := mkMap {
  cells : heap;
  size_ : nat;
  entries_ : list (option positive)
}.

(** Every chain is shorter than the heap. *)
Definition enough (h : heap) : nat := S (size h).

Definition init : map := mkMap ∅ 0 (replicate kDefaultCapacity None).

(** [hash_(key) % entries_.size()]; the remainder by zero is undefined. *)
Definition bucket (m : map) (key : K) : res nat :=
  match entries_ m with
  | [] => Undef "remainder by zero"
  | _ => Ok (LinkedListHashmap.bucket_index hash_ key (length (entries_ m)))
  end.

Definition at_bucket (m : map) (i : nat) : res (option positive) :=
  match entries_ m !! i with Some p => Ok p | None => Undef "vector index" end.

(** [while (curr->next != nullptr && curr->key != key) curr = curr->next.get();] *)
Fixpoint walk_insert (fuel : nat) (h : heap) (key : K) (curr : positive) : res (positive * Entry) :=
  match fuel with
  | O => NoFuel
  | S f =>
      e ← deref h (Some curr);
      match next e with
      | None => Ok (curr, e)
      | Some n => if decide (key_ e = key) then Ok (curr, e) else walk_insert f h key n
      end
  end.

Definition InsertWithoutResize (m : map) (key : K) (value : V) : res map :=
  bucket_index ← bucket m key;
  p ← at_bucket m bucket_index;
  match p with
  | None =>
      let '(a, h) := make_entry (cells m) key value in
      Ok (mkMap h (S (size_ m)) (<[bucket_index := Some a]> (entries_ m)))
  | Some first =>
      '(curr, e) ← walk_insert (enough (cells m)) (cells m) key first;
      if decide (key_ e = key) then
        Ok (mkMap (store (cells m) curr (mkEntry (key_ e) value (next e))) (size_ m) (entries_ m))
      else if bool_decide (next e = None) then
        let '(a, h) := make_entry (cells m) key value in
        Ok (mkMap (store h curr (mkEntry (key_ e) (value_ e) (Some a))) (S (size_ m)) (entries_ m))
      else Undef "assertion failed"
  end.

(** [while (curr) { ...; curr = curr->next.get(); }] *)
Fixpoint read_chain (fuel : nat) (h : heap) (p : option positive) : res (list (K * V)) :=
  match p with
  | None => Ok []
  | Some _ =>
      match fuel with
      | O => NoFuel
      | S f => e ← deref h p; rest ← read_chain f h (next e); Ok ((key_ e, value_ e) :: rest)
      end
  end.

Fixpoint read_buckets (h : heap) (ps : list (option positive)) : res (list (K * V)) :=
  match ps with
  | [] => Ok []
  | p :: ps => l ← read_chain (enough h) h p; rest ← read_buckets h ps; Ok (l ++ rest)
  end.

(** [entries_.clear()] *)
Fixpoint destroy_all (h : heap) (ps : list (option positive)) : res heap :=
  match ps with
  | [] => Ok h
  | p :: ps => h ← destroy (enough h) h p; destroy_all h ps
  end.

Fixpoint insert_all (m : map) (flat_entries : list (K * V)) : res map :=
  match flat_entries with
  | [] => Ok m
  | (key, value) :: rest => m ← InsertWithoutResize m key value; insert_all m rest
  end.

Definition Resize (m : map) : res map :=
  flat_entries ← read_buckets (cells m) (entries_ m);
  h ← destroy_all (cells m) (entries_ m);
  insert_all (mkMap h 0 (replicate (Nat.max 2 (size_ m * 2)) None)) flat_entries.

(** [while (curr != nullptr && curr->key != key) curr = curr->next.get();] *)
Fixpoint walk_lookup (fuel : nat) (h : heap) (key : K) (curr : option positive) : res (option positive) :=
  match curr with
  | None => Ok None
  | Some _ =>
      match fuel with
      | O => NoFuel
      | S f =>
          e ← deref h curr;
          if decide (key_ e = key) then Ok curr else walk_lookup f h key (next e)
      end
  end.

Definition LookUp (m : map) (key : K) : res (option V) :=
  if decide (entries_ m = []) then Ok None
  else
    i ← bucket m key;
    p ← at_bucket m i;
    curr ← walk_lookup (enough (cells m)) (cells m) key p;
    match curr with
    | None => Ok None
    | Some _ => e ← deref (cells m) curr; Ok (Some (value_ e))
    end.

(** [size_ > entries_.size() * load_factor_] *)
Definition overloaded (m : map) : bool :=
  (Z.of_nat (length (entries_ m)) * fst load_factor_ <? Z.of_nat (size_ m) * snd load_factor_)%Z.

Definition Insert (m : map) (key : K) (value : V) : res map :=
  m ← (if bool_decide (entries_ m = []) || overloaded m then Resize m else Ok m);
  InsertWithoutResize m key value.

(** [while (curr->next != nullptr && curr->next->key != key) curr = curr->next.get();] *)
Fixpoint walk_remove (fuel : nat) (h : heap) (key : K) (curr : positive) : res (positive * Entry) :=
  match fuel with
  | O => NoFuel
  | S f =>
      e ← deref h (Some curr);
      match next e with
      | None => Ok (curr, e)
      | Some n =>
          e' ← deref h (next e);
          if decide (key_ e' = key) then Ok (curr, e) else walk_remove f h key n
      end
  end.

(** [p = std::move(p->next)] for the owner [p] of entry [a]: the new value of
    the owner, and the heap without the entry, whose own [next] is null by
    then. *)
Definition unlink (h : heap) (a : positive) : res (option positive * heap) :=
  e ← deref h (Some a);
  h' ← destroy 1 (store h a (mkEntry (key_ e) (value_ e) None)) (Some a);
  Ok (next e, h').

Definition Remove (m : map) (key : K) : res map :=
  if decide (entries_ m = []) then Ok m
  else
    i ← bucket m key;
    p ← at_bucket m i;
    match p with
    | None => Ok m
    | Some first =>
        e ← deref (cells m) p;
        if decide (key_ e = key) then
          '(n, h) ← unlink (cells m) first;
          Ok (mkMap h (size_ m - 1) (<[i := n]> (entries_ m)))
        else
          '(curr, e) ← walk_remove (enough (cells m)) (cells m) key first;
          match next e with
          | None => Ok m
          | Some a =>
              '(n, h) ← unlink (cells m) a;
              Ok (mkMap (store h curr (mkEntry (key_ e) (value_ e) n)) (size_ m - 1) (entries_ m))
          end
    end.

(** The entries given to [action], in order. *)
Definition ForEach (m : map) : res (list (K * V)) := read_buckets (cells m) (entries_ m).

(** ** Ownership *)

(** [p] owns the chain of the entries [l], at the addresses [as_]. *)
Fixpoint segment (h : heap) (p : option positive) (as_ : list positive) (l : list (K * V)) : Prop :=
  match as_, l with
  | [], [] => p = None
  | a :: as_, (k, v) :: l => p = Some a /\ exists n, h !! a = Some (mkEntry k v n) /\ segment h n as_ l
  | _, _ => False
  end.

(** The buckets own disjoint chains, and nothing else is in the heap. *)
Record owns (m : map) (As : list (list positive)) (L : list (list (K * V))) : Prop := {
  own_chains : forall i p, entries_ m !! i = Some p ->
    exists as_ l, As !! i = Some as_ /\ L !! i = Some l /\ segment (cells m) p as_ l;
  own_buckets : length As = length (entries_ m);
  own_lists : length L = length (entries_ m);
  own_disjoint : NoDup (concat As);
  own_all : dom (cells m) = list_to_set (concat As)
}.

(** The map stands for the map of chains [c]. *)
Definition stands_for (m : map) (c : LinkedListHashmap.map) : Prop :=
  exists As, owns m As (LinkedListHashmap.entries_ c) /\ size_ m = LinkedListHashmap.size_ c.

(** ** Lemmas: one chain *)

Lemma segment_length h as_ : forall p l, segment h p as_ l -> length as_ = length l.
Proof.
  induction as_ as [|a as_ IH]; intros p [|[k v] l] Hs; cbn in Hs; try done.
  destruct Hs as (_ & n & _ & Hs). cbn. by rewrite (IH n l).
Qed.

Lemma segment_frame h h' as_ : forall p l, (forall a, a ∈ as_ -> h' !! a = h !! a) ->
  segment h p as_ l -> segment h' p as_ l.
Proof.
  induction as_ as [|a as_ IH]; intros p [|[k v] l] Hf Hs; cbn in *; try done.
  destruct Hs as (-> & n & Ha & Hs). split; [done|]. exists n. rewrite Hf by left. split; [done|].
  apply IH; [|done]. intros b Hb. apply Hf. by right.
Qed.

(** Changing a chain from one of its entries on. *)
Lemma segment_change h h' as1 a as2 as2' l2 l2' k v k' v' n' : forall p l1, length as1 = length l1 ->
  (forall b, b ∈ as1 -> h' !! b = h !! b) -> h' !! a = Some (mkEntry k' v' n') -> segment h' n' as2' l2' ->
  segment h p (as1 ++ a :: as2) (l1 ++ (k, v) :: l2) ->
  segment h' p (as1 ++ a :: as2') (l1 ++ (k', v') :: l2').
Proof.
  induction as1 as [|b as1 IH]; intros p [|[k0 v0] l1] Hl Hf Ha H2 Hs; cbn in Hl; try done; cbn [app segment] in *.
  - destruct Hs as (-> & n & _ & _). split; [done|]. by exists n'.
  - destruct Hs as (-> & n & Hb & Hs). split; [done|]. exists n. rewrite Hf by left. split; [done|].
    apply IH; try done; [lia|]. intros c Hc. apply Hf. by right.
Qed.

Lemma segment_dom h as_ : forall p l a, segment h p as_ l -> a ∈ as_ -> a ∈ dom h.
Proof.
  induction as_ as [|b as_ IH]; intros p [|[k v] l] a Hs Hin; cbn in Hs; try done; [by apply not_elem_of_nil in Hin|].
  destruct Hs as (_ & n & Hb & Hs). apply elem_of_cons in Hin as [->|Hin]; [|by eapply IH].
  apply elem_of_dom. eauto.
Qed.

Lemma chain_short (h : heap) as_ : NoDup as_ -> list_to_set as_ ⊆ dom h -> length as_ <= size h.
Proof.
  intros Hn Hs. rewrite <- (size_list_to_set (C := gset positive)) by done. rewrite <- (size_dom (D := gset positive) h). by apply subseteq_size.
Qed.

(** Where the loops stop. *)

Lemma walk_insert_spec h key as_ : forall f first l, segment h (Some first) as_ l -> length as_ <= f ->
  exists as1 curr as2 l1 k v l2 n, walk_insert f h key first = Ok (curr, mkEntry k v n)
    /\ as_ = as1 ++ curr :: as2 /\ l = l1 ++ (k, v) :: l2 /\ length as1 = length l1
    /\ Forall (fun kv => fst kv <> key) l1 /\ segment h n as2 l2 /\ (k = key \/ (l2 = [] /\ as2 = [] /\ n = None)).
Proof.
  induction as_ as [|a as_ IH]; intros f first [|[k v] l] Hs Hf; cbn in Hs; try done.
  destruct Hs as ([= ->] & n & Ha & Hs). destruct f as [|f]; [cbn in Hf; lia|]. cbn [walk_insert deref]. rewrite Ha.
  cbn [mbind res_bind next]. destruct n as [n|].
  - cbn [key_]. destruct (decide (k = key)) as [->|Hne].
    + exists [], a, as_, [], key, v, l, (Some n). split_and!; try done. by left.
    + destruct (IH f n l Hs) as (as1 & curr & as2 & l1 & k' & v' & l2 & n' & E & -> & -> & E1 & E2 & E3 & E4); [cbn in Hf; lia|].
      exists (a :: as1), curr, as2, ((k, v) :: l1), k', v', l2, n'. split_and!; try done; [cbn; lia|by constructor].
  - destruct as_, l as [|[]]; cbn in Hs; try done; [|by destruct Hs].
    exists [], a, [], [], k, v, [], None. split_and!; try done. by right.
Qed.

Lemma walk_lookup_spec h key as_ : forall f p l, segment h p as_ l -> length as_ <= f ->
  (exists a v n, walk_lookup f h key p = Ok (Some a) /\ h !! a = Some (mkEntry key v n)
     /\ LinkedListHashmap.chain_lookup key l = Some v)
  \/ (walk_lookup f h key p = Ok None /\ LinkedListHashmap.chain_lookup key l = None).
Proof.
  induction as_ as [|a as_ IH]; intros f p [|[k v] l] Hs Hf; cbn in Hs; try done.
  - subst p. right. by destruct f.
  - destruct Hs as (-> & n & Ha & Hs). destruct f as [|f]; [cbn in Hf; lia|]. cbn [walk_lookup deref]. rewrite Ha.
    cbn [mbind res_bind key_ next LinkedListHashmap.chain_lookup]. destruct (decide (k = key)) as [->|Hne].
    + left. exists a, v, n. done.
    + apply IH; [done|cbn in Hf; lia].
Qed.

Lemma walk_remove_spec h key as_ : forall f first l, segment h (Some first) as_ l -> length as_ <= f ->
  (exists v n, h !! first = Some (mkEntry key v n)) \/
  exists as1 curr as2 l1 k v l2 n, walk_remove f h key first = Ok (curr, mkEntry k v n)
    /\ as_ = as1 ++ curr :: as2 /\ l = l1 ++ (k, v) :: l2 /\ length as1 = length l1
    /\ Forall (fun kv => fst kv <> key) (l1 ++ [(k, v)]) /\ segment h n as2 l2
    /\ (l2 = [] /\ as2 = [] /\ n = None \/ exists v2 l2', l2 = (key, v2) :: l2').
Proof.
  induction as_ as [|a as_ IH]; intros f first [|[k v] l] Hs Hf; cbn in Hs; try done.
  destruct Hs as ([= ->] & n & Ha & Hs). destruct (decide (k = key)) as [->|Hne]; [left; by eauto|right].
  destruct f as [|f]; [cbn in Hf; lia|]. cbn [walk_remove deref]. rewrite Ha. cbn [mbind res_bind next].
  destruct n as [n|].
  - destruct as_ as [|b as_], l as [|[k2 v2] l]; cbn in Hs; try done. pose proof Hs as ([= ->] & n' & Hb & Hs').
    cbn [deref]. rewrite Hb. cbn [mbind res_bind key_]. destruct (decide (k2 = key)) as [->|Hne2].
    + exists [], a, (b :: as_), [], k, v, ((key, v2) :: l), (Some b). split_and!; try done; [by repeat constructor|].
      right. by exists v2, l.
    + destruct (IH f b ((k2, v2) :: l)) as [(v' & n2 & Hb')|(as1 & curr & as2 & l1 & k' & v' & l2 & n2 & E & -> & -> & E1 & E2 & E3 & E4)];
        [done|cbn in Hf |- *; lia|congruence|].
      exists (a :: as1), curr, as2, ((k, v) :: l1), k', v', l2, n2. split_and!; try done; [cbn; lia|by constructor].
  - destruct as_, l as [|[]]; cbn in Hs; try done; [|by destruct Hs].
    exists [], a, [], [], k, v, [], None. split_and!; try done; [by repeat constructor|by left].
Qed.

Lemma read_chain_spec h as_ : forall f p l, segment h p as_ l -> length as_ <= f -> read_chain f h p = Ok l.
Proof.
  induction as_ as [|a as_ IH]; intros f p [|[k v] l] Hs Hf; cbn in Hs; try done.
  - subst p. by destruct f.
  - destruct Hs as (-> & n & Ha & Hs). destruct f as [|f]; [cbn in Hf; lia|]. cbn [read_chain deref]. rewrite Ha.
    cbn [mbind res_bind next key_ value_]. rewrite (IH f n l Hs) by (cbn in Hf; lia). done.
Qed.

Lemma destroy_spec as_ : forall f h p l, segment h p as_ l -> NoDup as_ -> length as_ <= f ->
  exists h', destroy f h p = Ok h' /\ (forall a, h' !! a = if decide (a ∈ as_) then None else h !! a).
Proof.
  induction as_ as [|a as_ IH]; intros f h p [|[k v] l] Hs Hn Hf; cbn in Hs; try done.
  - subst p. exists h. split; [by destruct f|]. intros a. by rewrite decide_False by apply not_elem_of_nil.
  - destruct Hs as (-> & n & Ha & Hs). apply NoDup_cons in Hn as [Hna Hn]. destruct f as [|f]; [cbn in Hf; lia|].
    cbn [destroy deref]. rewrite Ha. cbn [mbind res_bind next].
    destruct (IH f (delete a h) n l) as (h' & E & Hh); [|done|cbn in Hf; lia|].
    + eapply segment_frame; [|exact Hs]. intros b Hb. apply lookup_delete_ne. by intros ->.
    + exists h'. split; [exact E|]. intros b. rewrite Hh. destruct (decide (b = a)) as [->|Hne].
      * rewrite (decide_True (P := a ∈ a :: as_)) by left. destruct (decide (a ∈ as_)); [done|]. apply lookup_delete_eq.
      * rewrite lookup_delete_ne by done. destruct (decide (b ∈ as_)) as [Hin|Hin].
        -- by rewrite decide_True by (by right).
        -- rewrite decide_False; [done|]. by intros [->|?]%elem_of_cons.
Qed.

(** ** Lemmas: one bucket among the others *)

Lemma concat_insert {A} (Ls : list (list A)) : forall i l l', Ls !! i = Some l ->
  exists rest, concat Ls ≡ₚ l ++ rest /\ concat (<[i := l']> Ls) ≡ₚ l' ++ rest
    /\ forall j m, j <> i -> Ls !! j = Some m -> m ⊆ rest.
Proof.
  induction Ls as [|x Ls IH]; intros [|i] l l' Hi; cbn in Hi; try done.
  - injection Hi as ->. exists (concat Ls). change (<[0 := l']> (l :: Ls)) with (l' :: Ls). split_and!; [done..|].
    intros [|j] m Hj Hm; [done|]. cbn in Hm. intros b Hb. apply list_elem_of_In, in_concat. exists m.
    split; apply list_elem_of_In; [by eapply list_elem_of_lookup_2|done].
  - destruct (IH i l l' Hi) as (rest & H1 & H2 & H3). exists (x ++ rest).
    change (<[S i := l']> (x :: Ls)) with (x :: <[i := l']> Ls). cbn [concat]. split_and!.
    + rewrite H1. by rewrite !app_assoc, (Permutation_app_comm x).
    + rewrite H2. by rewrite !app_assoc, (Permutation_app_comm x).
    + intros [|j] m Hj Hm; cbn in Hm; [injection Hm as ->; set_solver|].
      specialize (H3 j m ltac:(congruence) Hm). set_solver.
Qed.

(** A bucket's chain is replaced; the other chains are left alone. *)
Lemma owns_update m As L i p as_ as' l' h' p' sz : owns m As L -> entries_ m !! i = Some p -> As !! i = Some as_ ->
  segment h' p' as' l' -> NoDup as' -> (forall a, a ∈ as' -> a ∈ as_ \/ a ∉ dom (cells m)) ->
  (forall a, a ∉ as_ -> a ∉ as' -> h' !! a = cells m !! a) ->
  (forall a, a ∈ as_ -> a ∉ as' -> h' !! a = None) ->
  owns (mkMap h' sz (<[i := p']> (entries_ m))) (<[i := as']> As) (<[i := l']> L).
Proof.
  intros Ho Hi Ha Hs Hn Hnew Hframe Hgone.
  destruct (concat_insert As i as_ as' Ha) as (rest & P1 & P2 & P3).
  pose proof (own_disjoint _ _ _ Ho) as HN. rewrite P1 in HN. apply NoDup_app in HN as (N1 & N2 & N3).
  pose proof (own_all _ _ _ Ho) as Hdom. rewrite P1 in Hdom.
  assert (forall a, a ∈ dom (cells m) <-> a ∈ as_ \/ a ∈ rest) as Hd.
  { intros a. rewrite Hdom, elem_of_list_to_set. apply elem_of_app. }
  assert (forall a, a ∈ rest -> a ∉ as') as Hfresh.
  { intros a Hr Ha'. destruct (Hnew a Ha') as [Hin|Hin]; [by apply (N2 a)|]. apply Hin, Hd. by right. }
  constructor; cbn [entries_ cells].
  - intros j q Hj. apply list_lookup_insert_Some in Hj as [(<- & <- & Hlt)|[Hne Hj]].
    + exists as', l'. split_and!; [| |done]; apply list_lookup_insert_eq.
      * by rewrite (own_buckets _ _ _ Ho).
      * by rewrite (own_lists _ _ _ Ho).
    + destruct (own_chains _ _ _ Ho j q Hj) as (bs & l & B1 & B2 & B3). exists bs, l.
      rewrite !list_lookup_insert_ne by done. split_and!; [done..|]. eapply segment_frame; [|exact B3].
      intros a Hin. assert (a ∈ rest) as Hr by (by apply (P3 j bs)). apply Hframe; [|by apply Hfresh].
      intros ?. by apply (N2 a).
  - rewrite !length_insert. apply Ho.
  - rewrite !length_insert. apply Ho.
  - rewrite P2. apply NoDup_app. split_and!; [done| |done]. intros a Ha' Hr. by apply (Hfresh a).
  - apply set_eq. intros a. rewrite P2, elem_of_list_to_set, elem_of_app, elem_of_dom.
    destruct (decide (a ∈ as')) as [Hin|Hin].
    + split; [by left|]. intros _. apply elem_of_dom. by eapply segment_dom.
    + destruct (decide (a ∈ as_)) as [Hin2|Hin2].
      * rewrite (Hgone a Hin2 Hin). split; [by intros [? ?]|]. intros [?|Hr]; [done|]. exfalso. by apply (N2 a).
      * rewrite (Hframe a Hin2 Hin). rewrite <- elem_of_dom, Hd. naive_solver.
Qed.

Lemma insert_same (m : map) i p : entries_ m !! i = Some p -> <[i := p]> (entries_ m) = entries_ m.
Proof. apply list_insert_id. Qed.

Lemma own_chain_facts m As L i p as_ l : owns m As L -> entries_ m !! i = Some p ->
  As !! i = Some as_ -> segment (cells m) p as_ l ->
  NoDup as_ /\ length as_ <= size (cells m) /\ (forall a, a ∈ as_ -> a ∈ dom (cells m)).
Proof.
  intros Ho Hi Ha Hs. destruct (concat_insert As i as_ as_ Ha) as (rest & P1 & _ & _).
  pose proof (own_disjoint _ _ _ Ho) as HN. rewrite P1 in HN. apply NoDup_app in HN as (N1 & _ & _).
  assert (forall a, a ∈ as_ -> a ∈ dom (cells m)) as Hd.
  { intros a Hin. rewrite (own_all _ _ _ Ho), elem_of_list_to_set, P1. apply elem_of_app. by left. }
  split_and!; [done| |done]. apply chain_short; [done|]. intros a. rewrite elem_of_list_to_set. apply Hd.
Qed.

(** ** Lemmas: what the chain functions do at the place the loops stop *)

Lemma chain_insert_at (key : K) (value : V) l1 k v l2 : Forall (fun kv => fst kv <> key) l1 ->
  LinkedListHashmap.chain_insert key value (l1 ++ (k, v) :: l2)
  = if decide (k = key) then (l1 ++ (k, value) :: l2, false)
    else let '(rest, added) := LinkedListHashmap.chain_insert key value l2 in (l1 ++ (k, v) :: rest, added).
Proof.
  induction 1 as [|[k1 v1] l1 Hne _ IH]; cbn [app LinkedListHashmap.chain_insert].
  - by destruct (decide (k = key)).
  - rewrite decide_False by done. rewrite IH. destruct (decide (k = key)); [done|].
    by destruct (LinkedListHashmap.chain_insert key value l2).
Qed.

Lemma chain_remove_at (key : K) (l1 l2 : list (K * V)) : Forall (fun kv => fst kv <> key) l1 ->
  LinkedListHashmap.chain_remove key (l1 ++ l2)
  = let '(rest, removed) := LinkedListHashmap.chain_remove key l2 in (l1 ++ rest, removed).
Proof.
  induction 1 as [|[k1 v1] l1 Hne _ IH]; cbn [app LinkedListHashmap.chain_remove].
  - by destruct (LinkedListHashmap.chain_remove key l2).
  - rewrite decide_False by done. rewrite IH. by destruct (LinkedListHashmap.chain_remove key l2).
Qed.

(** ** The operations *)

(** The bucket of a key, in a map that has buckets. *)
Lemma bucket_found m c key : stands_for m c -> entries_ m <> [] ->
  let i := LinkedListHashmap.bucket_index hash_ key (length (LinkedListHashmap.entries_ c)) in
  exists As p as_ l, owns m As (LinkedListHashmap.entries_ c) /\ size_ m = LinkedListHashmap.size_ c
    /\ bucket m key = Ok i /\ at_bucket m i = Ok p /\ entries_ m !! i = Some p
    /\ As !! i = Some as_ /\ LinkedListHashmap.entries_ c !! i = Some l /\ segment (cells m) p as_ l
    /\ NoDup as_ /\ length as_ <= enough (cells m) /\ (forall a, a ∈ as_ -> a ∈ dom (cells m)).
Proof.
  intros (As & Ho & Hsz) Hne i.
  assert (i < length (entries_ m)) as Hlt.
  { unfold i. rewrite (own_lists _ _ _ Ho). apply LinkedListHashmap.bucket_index_lt.
    destruct (entries_ m); [done|cbn; lia]. }
  destruct (lookup_lt_is_Some_2 _ _ Hlt) as [p Hp].
  destruct (own_chains _ _ _ Ho i p Hp) as (as_ & l & Ha & Hl & Hs).
  destruct (own_chain_facts _ _ _ _ _ _ _ Ho Hp Ha Hs) as (F1 & F2 & F3).
  exists As, p, as_, l. unfold enough. split_and!; try done; [| |lia].
  - unfold bucket, i. rewrite (own_lists _ _ _ Ho). by destruct (entries_ m).
  - unfold at_bucket. by rewrite Hp.
Qed.

Lemma fresh_cell (h : heap) : fresh (dom h) ∉ dom h.
Proof. apply is_fresh. Qed.

(** The three ways to insert: into an empty bucket, over the value of the key,
    and at the end of the chain. *)

Section Replace.
Context (m : map) (As : list (list positive)) (L : list (list (K * V))) (i : nat) (p : option positive).
Context (Ho : owns m As L) (Hp : entries_ m !! i = Some p).

Lemma insert_first key value : As !! i = Some [] -> p = None ->
  let '(a, h) := make_entry (cells m) key value in
  owns (mkMap h (S (size_ m)) (<[i := Some a]> (entries_ m))) (<[i := [a]]> As) (<[i := [(key, value)]]> L).
Proof.
  intros Ha Hn. unfold make_entry. set (a := fresh (dom (cells m))).
  eapply (owns_update _ _ _ _ _ _ [a]); [exact Ho|exact Hp|exact Ha| |apply NoDup_singleton| | |].
  - cbn. split; [done|]. exists None. split; [apply lookup_insert_eq|done].
  - intros b ->%list_elem_of_singleton. right. apply fresh_cell.
  - intros b _ Hin. apply lookup_insert_ne. intros <-. apply Hin. by left.
  - intros b Hin. by apply not_elem_of_nil in Hin.
Qed.

Context (as1 : list positive) (curr : positive) (as2 : list positive) (l1 l2 : list (K * V)) (k : K) (v : V).
Context (n : option positive).
Context (Ha : As !! i = Some (as1 ++ curr :: as2)) (Hs : segment (cells m) p (as1 ++ curr :: as2) (l1 ++ (k, v) :: l2)).
Context (Hl : length as1 = length l1) (Hn : segment (cells m) n as2 l2).

Lemma chain_apart : NoDup as1 /\ curr ∉ as1 /\ curr ∉ as2 /\ NoDup as2 /\ (forall a, a ∈ as1 -> a ∉ as2)
  /\ (forall a, a ∈ as1 ++ curr :: as2 -> a ∈ dom (cells m)).
Proof.
  destruct (own_chain_facts _ _ _ _ _ _ _ Ho Hp Ha Hs) as (N & _ & D).
  apply NoDup_app in N as (N1 & N2 & N3). apply NoDup_cons in N3 as [N3 N4]. split_and!; try done.
  - intros Hin. apply (N2 _ Hin). by left.
  - intros a Hin Hin2. apply (N2 _ Hin). by right.
Qed.

Lemma overwrite_value value :
  owns (mkMap (store (cells m) curr (mkEntry k value n)) (size_ m) (entries_ m))
    (<[i := as1 ++ curr :: as2]> As) (<[i := l1 ++ (k, value) :: l2]> L).
Proof.
  destruct chain_apart as (N1 & N2 & N3 & N4 & N5 & D). rewrite <- (insert_same m i p Hp).
  eapply (owns_update _ _ _ _ _ _ (as1 ++ curr :: as2)); [exact Ho|exact Hp|exact Ha| | |by left| |done].
  - eapply segment_change; [done| |apply lookup_insert_eq| |exact Hs].
    + intros b Hb'. apply lookup_insert_ne. by intros <-.
    + eapply segment_frame; [|exact Hn]. intros b Hb'. apply lookup_insert_ne. by intros <-.
  - by destruct (own_chain_facts _ _ _ _ _ _ _ Ho Hp Ha Hs).
  - intros a Ha' _. apply lookup_insert_ne. intros <-. apply Ha', elem_of_app. right. by left.
Qed.

Lemma append_entry key value : as2 = [] ->
  let '(a, h) := make_entry (cells m) key value in
  owns (mkMap (store h curr (mkEntry k v (Some a))) (S (size_ m)) (entries_ m))
    (<[i := as1 ++ [curr; a]]> As) (<[i := l1 ++ [(k, v); (key, value)]]> L).
Proof.
  destruct chain_apart as (N1 & N2 & N3 & N4 & N5 & D). intros E. rewrite E in Ha, D.
  unfold make_entry. set (a := fresh (dom (cells m))). pose proof (fresh_cell (cells m)) as Hfr. fold a in Hfr.
  assert (a <> curr) as Hac. { intros E'. apply Hfr. rewrite E'. apply D, elem_of_app. right. by left. }
  assert (a ∉ as1) as Ha1. { intros Hin. apply Hfr, D, elem_of_app. by left. }
  rewrite <- (insert_same m i p Hp).
  eapply (owns_update _ _ _ _ _ _ (as1 ++ [curr; a])); [exact Ho|exact Hp|exact Ha| | | | |]; unfold store.
  - eapply segment_change; [done| |apply lookup_insert_eq| |exact Hs].
    + intros b Hb'. rewrite !lookup_insert_ne; [done|by intros <-..].
    + cbn. split; [done|]. exists None. split; [|done]. rewrite lookup_insert_ne by done. apply lookup_insert_eq.
  - apply NoDup_app. split_and!; [done| |].
    + intros b Hb' Hin. apply elem_of_cons in Hin as [->|Hin]; [done|]. by apply list_elem_of_singleton in Hin as ->.
    + apply NoDup_cons. split; [by intros ?%list_elem_of_singleton|apply NoDup_singleton].
  - intros b. rewrite !elem_of_app, !elem_of_cons. intros [Hin|[->|[->|Hin]]]; [by left; left|by left; right; left|by right|].
    by apply not_elem_of_nil in Hin.
  - intros b _. rewrite elem_of_app, !elem_of_cons. intros Hin. rewrite !lookup_insert_ne; [done|intros <-; tauto..].
  - intros b. rewrite !elem_of_app, !elem_of_cons. tauto.
Qed.

End Replace.

Lemma InsertWithoutResize_refines m c key value : stands_for m c -> entries_ m <> [] ->
  exists m', InsertWithoutResize m key value = Ok m'
    /\ stands_for m' (LinkedListHashmap.InsertWithoutResize hash_ c key value) /\ entries_ m' <> [].
Proof.
  intros Hst Hne. destruct (bucket_found m c key Hst Hne)
    as (As & p & as_ & l & Ho & Hsz & Hb & Hat & Hp & Ha & Hl & Hs & Hnd & Hf & Hd). cbv zeta in *.
  set (i := LinkedListHashmap.bucket_index _ _ _) in *.
  unfold InsertWithoutResize, LinkedListHashmap.InsertWithoutResize. rewrite Hb. cbn [mbind res_bind].
  rewrite Hat. cbn [mbind res_bind]. fold i. rewrite Hl. destruct p as [first|].
  - destruct (walk_insert_spec _ key as_ (enough (cells m)) first l Hs Hf)
      as (as1 & curr & as2 & l1 & k & v & l2 & n & -> & -> & -> & E1 & E2 & E3 & E4). cbn [mbind res_bind key_ next value_].
    rewrite chain_insert_at by done. destruct (decide (k = key)) as [->|Hk].
    + eexists. split; [done|]. split; [|done]. eexists. split; [by eapply overwrite_value|done].
    + destruct E4 as [->|(-> & -> & ->)]; [done|]. rewrite bool_decide_eq_true_2 by done.
      pose proof (append_entry _ _ _ _ _ Ho Hp _ _ _ _ _ _ _ Ha Hs E1 key value eq_refl) as Hown.
      destruct (make_entry (cells m) key value) as [a h]. eexists. split; [done|]. split; [|done].
      eexists. split; [exact Hown|]. cbn. by rewrite Hsz.
  - destruct as_ as [|a0 as_], l as [|[k0 v0] l]; cbn in Hs; try done; [|by destruct Hs].
    pose proof (insert_first _ _ _ _ _ Ho Hp key value Ha eq_refl) as Hown.
    destruct (make_entry (cells m) key value) as [a h]. eexists. split; [done|]. split.
    + eexists. split; [exact Hown|]. cbn. by rewrite Hsz.
    + cbn. intros E. apply (f_equal length) in E. rewrite length_insert in E. by destruct (entries_ m).
Qed.

Lemma same_emptiness m c : stands_for m c -> entries_ m = [] <-> LinkedListHashmap.entries_ c = [].
Proof. intros (As & Ho & _). rewrite <- !length_zero_iff_nil, (own_lists _ _ _ Ho). done. Qed.

Lemma LookUp_refines m c key : stands_for m c -> LookUp m key = Ok (LinkedListHashmap.LookUp hash_ c key).
Proof.
  intros Hst. unfold LookUp, LinkedListHashmap.LookUp. pose proof (same_emptiness m c Hst) as He.
  destruct (decide (entries_ m = [])) as [E|Hne]; [by rewrite decide_True by (by apply He)|].
  rewrite decide_False by (by intros ?%He).
  destruct (bucket_found m c key Hst Hne) as (As & p & as_ & l & Ho & Hsz & Hb & Hat & Hp & Ha & Hl & Hs & Hnd & Hf & Hd).
  cbv zeta in *. rewrite Hb. cbn [mbind res_bind]. rewrite Hat. cbn [mbind res_bind]. rewrite Hl.
  destruct (walk_lookup_spec _ key as_ _ p l Hs Hf) as [(a & v & n & -> & Hv & ->)|[-> ->]]; [|done].
  cbn [mbind res_bind deref]. by rewrite Hv.
Qed.

(** All chains of a list of buckets. *)
Fixpoint segments (h : heap) (ps : list (option positive)) (As : list (list positive)) (L : list (list (K * V))) : Prop :=
  match ps, As, L with
  | [], [], [] => True
  | p :: ps, as_ :: As, l :: L => segment h p as_ l /\ segments h ps As L
  | _, _, _ => False
  end.

Lemma segments_of h ps : forall As L, length As = length ps -> length L = length ps ->
  (forall i p, ps !! i = Some p -> exists as_ l, As !! i = Some as_ /\ L !! i = Some l /\ segment h p as_ l) ->
  segments h ps As L.
Proof.
  induction ps as [|p ps IH]; intros [|as_ As] [|l L] H1 H2 Hc; cbn in H1, H2; try done. split.
  - destruct (Hc 0 p eq_refl) as (? & ? & [= <-] & [= <-] & Hs). exact Hs.
  - apply IH; [lia|lia|]. intros i q Hq. exact (Hc (S i) q Hq).
Qed.

Lemma owns_segments m As L : owns m As L -> segments (cells m) (entries_ m) As L.
Proof. intros Ho. apply segments_of; [apply Ho|apply Ho|apply Ho]. Qed.

Lemma segments_length h ps : forall As L, segments h ps As L -> length (concat As) = length (concat L).
Proof.
  induction ps as [|p ps IH]; intros [|as_ As] [|l L] Hs; cbn in Hs; try done.
  destruct Hs as [H1 H2]. cbn. by rewrite !length_app, (segment_length _ _ _ _ H1), (IH As L).
Qed.

Lemma segment_short h p as_ l : segment h p as_ l -> NoDup as_ -> length as_ <= enough h.
Proof.
  intros Hs Hn. unfold enough. apply Nat.le_le_succ_r, chain_short; [done|]. intros a.
  rewrite elem_of_list_to_set. by eapply segment_dom.
Qed.

Lemma read_buckets_spec h ps : forall As L, segments h ps As L -> NoDup (concat As) -> read_buckets h ps = Ok (concat L).
Proof.
  induction ps as [|p ps IH]; intros [|as_ As] [|l L] Hs Hn; cbn in Hs; try done. destruct Hs as [Hs Hss].
  cbn in Hn. apply NoDup_app in Hn as (N1 & _ & N3). cbn [read_buckets concat].
  rewrite (read_chain_spec h as_ _ p l Hs) by (by eapply segment_short). cbn [mbind res_bind].
  by rewrite (IH As L).
Qed.

Lemma segments_frame h h' ps : forall As L, (forall a, a ∈ concat As -> h' !! a = h !! a) ->
  segments h ps As L -> segments h' ps As L.
Proof.
  induction ps as [|p ps IH]; intros [|as_ As] [|l L] Hf Hs; cbn in Hs; try done. destruct Hs as [Hs Hss]. split.
  - eapply segment_frame; [|exact Hs]. intros a Ha. apply Hf. cbn. apply elem_of_app. by left.
  - eapply IH; [|exact Hss]. intros a Ha. apply Hf. cbn. apply elem_of_app. by right.
Qed.

Lemma destroy_all_spec ps : forall h As L, segments h ps As L -> NoDup (concat As) ->
  exists h', destroy_all h ps = Ok h' /\ forall a, h' !! a = if decide (a ∈ concat As) then None else h !! a.
Proof.
  induction ps as [|p ps IH]; intros h [|as_ As] [|l L] Hs Hn; cbn in Hs; try done.
  - exists h. split; [done|]. intros a. by rewrite decide_False by apply not_elem_of_nil.
  - destruct Hs as [Hs Hss]. cbn in Hn. apply NoDup_app in Hn as (N1 & N2 & N3). cbn [destroy_all concat].
    destruct (destroy_spec as_ (enough h) h p l Hs N1) as (h1 & -> & H1); [by eapply segment_short|].
    cbn [mbind res_bind]. destruct (IH h1 As L) as (h2 & -> & H2); [|done|].
    { eapply segments_frame; [|exact Hss]. intros a Ha. rewrite H1. rewrite decide_False; [done|].
      intros Hin. by apply (N2 a). }
    exists h2. split; [done|]. intros a. rewrite H2, H1.
    destruct (decide (a ∈ concat As)) as [D|D], (decide (a ∈ as_)) as [D'|D'], (decide (a ∈ as_ ++ concat As)) as [D2|D2];
      try done; exfalso; apply elem_of_app in D2 || (apply D2, elem_of_app); tauto.
Qed.

Lemma new_table_stands n : stands_for (mkMap ∅ 0 (replicate n None)) (LinkedListHashmap.mkMap 0 (replicate n [])).
Proof.
  exists (replicate n []). split; [|done]. constructor; cbn.
  - intros i p Hi. apply lookup_replicate in Hi as [-> Hlt]. exists [], [].
    split_and!; [by apply lookup_replicate_2..|done].
  - by rewrite !length_replicate.
  - by rewrite !length_replicate.
  - assert (concat (replicate n (@nil positive)) = []) as -> by (clear; by induction n). constructor.
  - assert (concat (replicate n (@nil positive)) = []) as -> by (clear; by induction n). apply dom_empty_L.
Qed.

Lemma insert_all_refines l : forall m c, stands_for m c -> entries_ m <> [] ->
  exists m', insert_all m l = Ok m'
    /\ stands_for m' (fold_left (fun c kv => LinkedListHashmap.InsertWithoutResize hash_ c (fst kv) (snd kv)) l c)
    /\ entries_ m' <> [].
Proof.
  induction l as [|[k v] l IH]; intros m c Hst Hne; cbn [insert_all fold_left fst snd]; [by exists m|].
  destruct (InsertWithoutResize_refines m c k v Hst Hne) as (m1 & -> & H1 & H2). cbn [mbind res_bind]. by apply IH.
Qed.

Lemma Resize_refines m c : stands_for m c ->
  exists m', Resize m = Ok m' /\ stands_for m' (LinkedListHashmap.Resize hash_ c) /\ entries_ m' <> [].
Proof.
  intros (As & Ho & Hsz). unfold Resize, LinkedListHashmap.Resize. pose proof (owns_segments _ _ _ Ho) as Hs.
  rewrite (read_buckets_spec _ _ _ _ Hs) by apply Ho. cbn [mbind res_bind].
  destruct (destroy_all_spec _ _ _ _ Hs (own_disjoint _ _ _ Ho)) as (h' & -> & Hh). cbn [mbind res_bind].
  assert (h' = ∅) as ->.
  { apply map_eq. intros a. rewrite Hh, lookup_empty. case_decide as D; [done|]. apply not_elem_of_dom.
    rewrite (own_all _ _ _ Ho), elem_of_list_to_set. done. }
  rewrite Hsz. apply insert_all_refines; [apply new_table_stands|]. cbn [entries_]. by destruct (Nat.max 2 _) eqn:E; [lia|].
Qed.

Lemma Insert_refines m c key value : stands_for m c ->
  exists m', Insert m key value = Ok m' /\ stands_for m' (LinkedListHashmap.Insert hash_ load_factor_ c key value).
Proof.
  intros Hst. unfold Insert, LinkedListHashmap.Insert. pose proof (same_emptiness m c Hst) as He.
  assert (overloaded m = LinkedListHashmap.overloaded load_factor_ c) as Hov.
  { destruct Hst as (As & Ho & Hsz). unfold overloaded, LinkedListHashmap.overloaded. by rewrite Hsz, (own_lists _ _ _ Ho). }
  rewrite Hov. destruct (Resize_refines m c Hst) as (m1 & E1 & S1 & N1).
  assert (exists m', (if bool_decide (entries_ m = []) || LinkedListHashmap.overloaded load_factor_ c then Resize m else Ok m) = Ok m'
    /\ stands_for m' (if decide (LinkedListHashmap.entries_ c = []) then LinkedListHashmap.Resize hash_ c
                      else if LinkedListHashmap.overloaded load_factor_ c then LinkedListHashmap.Resize hash_ c else c)
    /\ entries_ m' <> []) as (m' & -> & Hs & Hne).
  { case_bool_decide as D.
    - rewrite decide_True by (by apply He). by exists m1.
    - rewrite decide_False by (by intros ?%He). destruct (LinkedListHashmap.overloaded load_factor_ c); [by exists m1|by exists m]. }
  cbn [mbind res_bind]. destruct (InsertWithoutResize_refines m' _ key value Hs Hne) as (m2 & -> & H2 & _). by exists m2.
Qed.

(** Taking entry [a] out of the heap. *)
Lemma unlink_spec (h : heap) a k v n : h !! a = Some (mkEntry k v n) -> unlink h a = Ok (n, delete a h).
Proof.
  intros Ha. unfold unlink, store. cbn [deref]. rewrite Ha. cbn [mbind res_bind destroy deref].
  rewrite lookup_insert_eq. cbn [mbind res_bind next destroy]. by rewrite delete_insert_eq.
Qed.

Section Unlink.
Context (m : map) (As : list (list positive)) (L : list (list (K * V))) (i : nat) (p : option positive).
Context (Ho : owns m As L) (Hp : entries_ m !! i = Some p) (sz : nat).

(** The first entry of a bucket. *)
Lemma unlink_first a as_ k v l n : As !! i = Some (a :: as_) -> segment (cells m) p (a :: as_) ((k, v) :: l) ->
  segment (cells m) n as_ l ->
  owns (mkMap (delete a (cells m)) sz (<[i := n]> (entries_ m))) (<[i := as_]> As) (<[i := l]> L).
Proof.
  intros Ha Hs Hn. destruct (own_chain_facts _ _ _ _ _ _ _ Ho Hp Ha Hs) as (N & _ & D). apply NoDup_cons in N as [N1 N2].
  eapply (owns_update _ _ _ _ _ _ as_); [exact Ho|exact Hp|exact Ha| |done| | |].
  - eapply segment_frame; [|exact Hn]. intros b Hb. apply lookup_delete_ne. by intros <-.
  - intros b Hb. left. by right.
  - intros b Hb _. apply lookup_delete_ne. intros <-. apply Hb. by left.
  - intros b Hb Hn'. apply elem_of_cons in Hb as [->|?]; [apply lookup_delete_eq|done].
Qed.

(** An entry [b] behind another, [curr]. *)
Lemma unlink_later as1 curr b as2 l1 k v k2 v2 l2 n :
  As !! i = Some (as1 ++ curr :: b :: as2) ->
  segment (cells m) p (as1 ++ curr :: b :: as2) (l1 ++ (k, v) :: (k2, v2) :: l2) -> length as1 = length l1 ->
  segment (cells m) n as2 l2 ->
  owns (mkMap (store (delete b (cells m)) curr (mkEntry k v n)) sz (entries_ m))
    (<[i := as1 ++ curr :: as2]> As) (<[i := l1 ++ (k, v) :: l2]> L).
Proof.
  intros Ha Hs Hl Hn. destruct (chain_apart _ _ _ _ _ Ho Hp _ _ _ _ _ _ _ Ha Hs) as (N1 & N2 & N3 & N4 & N5 & D).
  apply NoDup_cons in N4 as [N4 N4']. apply not_elem_of_cons in N3 as [N3 N3'].
  assert (b ∉ as1) as N6. { intros Hin. apply (N5 _ Hin). by left. }
  rewrite <- (insert_same m i p Hp).
  eapply (owns_update _ _ _ _ _ _ (as1 ++ curr :: as2)); [exact Ho|exact Hp|exact Ha| | | | |]; unfold store.
  - eapply segment_change; [done| |apply lookup_insert_eq| |exact Hs].
    + intros d Hd. rewrite lookup_insert_ne, lookup_delete_ne; [done|by intros <-..].
    + eapply segment_frame; [|exact Hn]. intros d Hd. rewrite lookup_insert_ne, lookup_delete_ne; [done|by intros <-..].
  - apply NoDup_app. split_and!; [done| |by apply NoDup_cons]. intros d Hd Hin.
    apply elem_of_cons in Hin as [->|Hin]; [done|]. apply (N5 _ Hd). by right.
  - intros d. rewrite !elem_of_app, !elem_of_cons. tauto.
  - intros d. rewrite elem_of_app, !elem_of_cons. intros Hd _. rewrite lookup_insert_ne, lookup_delete_ne; [done|intros <-; tauto..].
  - intros d. rewrite !elem_of_app, !elem_of_cons. intros Hd Hd'. rewrite lookup_insert_ne by (intros <-; tauto).
    destruct (decide (d = b)) as [->|Hne]; [apply lookup_delete_eq|tauto].
Qed.

End Unlink.

Lemma Remove_refines m c key : stands_for m c ->
  exists m', Remove m key = Ok m' /\ stands_for m' (LinkedListHashmap.Remove hash_ c key).
Proof.
  intros Hst. unfold Remove, LinkedListHashmap.Remove. pose proof (same_emptiness m c Hst) as He.
  destruct (decide (entries_ m = [])) as [E|Hne]; [rewrite decide_True by (by apply He); by exists m|].
  rewrite decide_False by (by intros ?%He).
  destruct (bucket_found m c key Hst Hne) as (As & p & as_ & l & Ho & Hsz & Hb & Hat & Hp & Ha & Hl & Hs & Hnd & Hf & Hd).
  cbv zeta in *. set (i := LinkedListHashmap.bucket_index _ _ _) in *.
  rewrite Hb. cbn [mbind res_bind]. rewrite Hat. cbn [mbind res_bind]. rewrite Hl.
  destruct as_ as [|first as_], l as [|[k0 v0] l]; try (by destruct p, Hs).
  - cbn in Hs. subst p. cbn [LinkedListHashmap.chain_remove]. rewrite list_insert_id by done. exists m. split; [done|]. by exists As.
  - pose proof Hs as (-> & n0 & H0 & Hs0). cbn [deref]. rewrite H0. cbn [mbind res_bind key_].
    destruct (decide (k0 = key)) as [->|Hk].
    + rewrite (unlink_spec _ first _ _ _ H0). cbn [mbind res_bind LinkedListHashmap.chain_remove]. rewrite decide_True by done.
      eexists. split; [done|]. eexists. split; [by eapply unlink_first|cbn; rewrite Hsz; lia].
    + destruct (walk_remove_spec _ key _ (enough (cells m)) first _ Hs Hf)
        as [(v' & n' & H')|(as1 & curr & as2 & l1 & k & v & l2 & n & -> & Eas & El & E1 & E2 & E3 & E4)]; [congruence|].
      cbn [mbind res_bind next key_ value_]. rewrite El, Eas in *.
      apply Forall_app in E2 as [E2 E2']. apply Forall_cons in E2' as [E2' _]. cbn [fst] in E2'.
      rewrite chain_remove_at by done. cbn [LinkedListHashmap.chain_remove]. rewrite (decide_False (P := k = key)) by done.
      destruct E4 as [(-> & -> & ->)|(v2 & l2' & ->)].
      * exists m. split; [done|]. cbn [LinkedListHashmap.chain_remove]. rewrite list_insert_id by done. by exists As.
      * destruct as2 as [|b as2]; [done|]. destruct E3 as (-> & n2 & Hb2 & Hs2).
        rewrite (unlink_spec _ b _ _ _ Hb2). cbn [mbind res_bind LinkedListHashmap.chain_remove].
        rewrite (decide_True (P := key = key)) by done.
        eexists. split; [done|]. eexists. split; [by eapply unlink_later|cbn; rewrite Hsz; lia].
Qed.

Lemma ForEach_refines m c : stands_for m c -> ForEach m = Ok (LinkedListHashmap.ForEach c).
Proof.
  intros (As & Ho & _). unfold ForEach. apply (read_buckets_spec _ _ As); [by apply owns_segments|apply Ho].
Qed.

(** ** Sequences of operations *)

Inductive op := OInsert (key : K) (value : V) | ORemove (key : K).

Definition run_op (m : map) (o : op) : res map :=
  match o with OInsert key value => Insert m key value | ORemove key => Remove m key end.

Fixpoint run_ops (m : map) (l : list op) : res map :=
  match l with
  | [] => Ok m
  | o :: l => m ← run_op m o; run_ops m l
  end.

Definition finite_op (f : gmap K V) (o : op) : gmap K V :=
  match o with OInsert key value => <[key := value]> f | ORemove key => delete key f end.

Definition chain_op (c : LinkedListHashmap.map) (o : op) : LinkedListHashmap.map :=
  match o with
  | OInsert key value => LinkedListHashmap.Insert hash_ load_factor_ c key value
  | ORemove key => LinkedListHashmap.Remove hash_ c key
  end.

Lemma run_ops_refines l : forall m c f, stands_for m c -> LinkedListHashmap.inv hash_ c -> LinkedListHashmap.abs c = f ->
  exists m', run_ops m l = Ok m' /\ stands_for m' (fold_left chain_op l c)
    /\ LinkedListHashmap.inv hash_ (fold_left chain_op l c)
    /\ LinkedListHashmap.abs (fold_left chain_op l c) = fold_left finite_op l f.
Proof.
  induction l as [|o l IH]; intros m c f Hst Hi Hf; cbn [run_ops fold_left]; [by exists m|].
  assert (exists m1, run_op m o = Ok m1 /\ stands_for m1 (chain_op c o) /\ LinkedListHashmap.inv hash_ (chain_op c o)
    /\ LinkedListHashmap.abs (chain_op c o) = finite_op f o) as (m1 & -> & S1 & I1 & A1); [|cbn [mbind res_bind]; by apply IH].
  destruct o as [k v|k]; cbn [run_op chain_op finite_op].
  - destruct (Insert_refines m c k v Hst) as (m1 & E & S1).
    destruct (LinkedListHashmap.Insert_spec hash_ load_factor_ c k v Hi) as [I1 A1]. exists m1. by rewrite A1, Hf.
  - destruct (Remove_refines m c k Hst) as (m1 & E & S1).
    destruct (LinkedListHashmap.Remove_spec hash_ c k Hi) as [I1 A1]. exists m1. by rewrite A1, Hf.
Qed.

End V1LinkedListHashmap.

(** ** Theorem *)

(** C22. The chained map with pointers is memory safe and a finite map: after
    any sequence of insertions and removals, with any hash function and load
    factor, no operation has read or written through a null or freed pointer;
    the entries on the heap are exactly those the buckets own, each owned
    once, and as many as there are keys, so none is leaked; and [LookUp],
    [ForEach] and [size_] are those of the finite map. *)
Theorem pointers_refine_finite_map {K V} `{Countable K} (hash_ : K -> Z) (load_factor_ : Z * Z)
    (l : list (op (K := K) (V := V))) :
  exists m, run_ops hash_ load_factor_ init l = Ok m
  /\ (exists As L, owns m As L) /\ size (cells m) = size (fold_left finite_op l (∅ : gmap K V))
  /\ (forall key, LookUp hash_ m key = Ok (fold_left finite_op l ∅ !! key))
  /\ (exists es, ForEach m = Ok es /\ es ≡ₚ map_to_list (fold_left finite_op l (∅ : gmap K V)))
  /\ size_ m = size (fold_left finite_op l (∅ : gmap K V)).
Proof.
  destruct (LinkedListHashmap.replicate_inv (V := V) hash_ kDefaultCapacity) as [I0 A0]; [unfold kDefaultCapacity; lia|].
  destruct (run_ops_refines hash_ load_factor_ l init _ ∅ (new_table_stands _) I0 A0) as (m & E & Hst & Hi & Ha).
  exists m. split; [done|]. pose proof (LinkedListHashmap.spec (V := V) hash_ load_factor_) as Hsp.
  set (c := fold_left _ l _) in *.
  assert (LinkedListHashmap.ForEach c ≡ₚ map_to_list (fold_left finite_op l (∅ : gmap K V))) as Hp.
  { rewrite <- Ha. unfold LinkedListHashmap.ForEach, LinkedListHashmap.abs. symmetry. apply map_to_list_to_map.
    by apply LinkedListHashmap.NoDup_keys with (1 := Hi). }
  assert (size_ m = size (fold_left finite_op l (∅ : gmap K V))) as Hsize.
  { destruct Hst as (As & Ho & ->). rewrite (LinkedListHashmap.inv_size _ _ Hi).
    apply Permutation_length in Hp. by rewrite length_map_to_list in Hp. }
  pose proof Hst as (As & Ho & Hs).
  split_and!; [by exists As, (LinkedListHashmap.entries_ c)| | | |done].
  - rewrite <- Hsize, Hs, (LinkedListHashmap.inv_size _ _ Hi), <- (size_dom (D := gset positive)), (own_all _ _ _ Ho).
    rewrite size_list_to_set by apply Ho. by apply (segments_length (cells m) (entries_ m)), owns_segments.
  - intros key. rewrite (LookUp_refines hash_ m c key Hst), (LinkedListHashmap.LookUp_spec hash_ c key Hi). by rewrite Ha.
  - exists (LinkedListHashmap.ForEach c). split; [by apply ForEach_refines|done].
Qed.

End V1LinkedListHashmap.
