(* ===== verification/V1LinearProbingHashmap.v ===== *)
(** * The open-addressing map at machine width: [v1/src/server/store/LinearProbingHashmap.h]

    The first server's copy of the probing map.  Here the indices are what the
    code computes with: [size_t], that is integers modulo 2^64, for the probes,
    and the [int] that [InternalFind] returns, with -1 for a key that is not
    found.  The copy and move members, which act on two objects that may be
    the same one, are operations on a store of objects.

    Theorem: as long as a table has at most 2^31 slots the operations do what
    those of LinearProbingHashmap do, whose indices are natural numbers; the
    conversion to [int] is what the bound is for. *)

From S2P Require Import Prelude MapInterface Objects LinearProbingHashmap.
Import LinearProbingHashmap.

Module V1LinearProbingHashmap.
Section V1LinearProbingHashmap.
Context {K V : Type} `{Countable K}.
Context (hash_ : K -> Z) (load_factor_ : Z * Z).

(** ** Indices *)

(** [hash_(key) % entries_.size()] *)
Definition bucket_index (es : list (Entry K V)) (k : K) : res Z :=
  if Z.of_nat (length es) =? 0 then Undef "modulo by zero" else Ok (hash_ k mod Z.of_nat (length es)).

(** [(bucketIndex + 1) % entries_.size()] *)
Definition next (es : list (Entry K V)) (i : Z) : Z := wrap64 (i + 1) mod Z.of_nat (length es).

(** ** [InternalFind] *)

Fixpoint find_loop (fuel : nat) (es : list (Entry K V)) (k : K) (initial_bucket_index bucketIndex : Z) : res Z :=
  match fuel with
  | O => NoFuel
  | S f =>
      e ← slot es bucketIndex;
      if bool_decide (state e = DELETED) || other_element e k then
        let bucketIndex := next es bucketIndex in
        if bucketIndex =? initial_bucket_index then Ok (-1) else find_loop f es k initial_bucket_index bucketIndex
      else if bool_decide (state e = ELEMENT) then Ok (cast_int32 bucketIndex) else Ok (-1)
  end.

Definition InternalFind (es : list (Entry K V)) (k : K) : res Z :=
  bucketIndex ← bucket_index es k; find_loop (length es) es k bucketIndex bucketIndex.

Definition LookUp (m : map K V) (k : K) : res (option V) :=
  value_bucket_index ← InternalFind (entries_ m) k;
  if negb (value_bucket_index =? -1) then
    e ← slot (entries_ m) value_bucket_index;
    match value e with Some v => Ok (Some v) | None => Undef "value() of std::nullopt" end
  else Ok None.

Definition Remove (m : map K V) (k : K) : res (map K V) :=
  bucket_index ← InternalFind (entries_ m) k;
  if negb (bucket_index =? -1) then
    e ← slot (entries_ m) bucket_index;
    Ok (mkMap (<[Z.to_nat bucket_index := mkEntry DELETED (key e) (value e)]> (entries_ m)) (size_ m))
  else Ok m.

Fixpoint ForEach (es : list (Entry K V)) : res (list (K * V)) :=
  match es with
  | [] => Ok []
  | e :: es =>
      if negb (bool_decide (state e = ELEMENT)) then ForEach es
      else
        match key e, value e with
        | Some k, Some v => rest ← ForEach es; Ok ((k, v) :: rest)
        | _, _ => Undef "assertion failed"
        end
  end.

(** ** Insertion *)

Fixpoint insert_loop (fuel : nat) (es : list (Entry K V)) (k : K) (bucket_index : Z) : res Z :=
  match fuel with
  | O => NoFuel
  | S f =>
      e ← slot es bucket_index;
      if other_element e k then insert_loop f es k (next es bucket_index) else Ok bucket_index
  end.

(** [std::max(2, old_entries.size() * 2)] *)
Definition doubled (n : nat) : nat := Z.to_nat (Z.max 2 (wrap64 (Z.of_nat n * 2))).

(** As in LinearProbingHashmap, the fuel bounds the depth of the calls between
    [InsertWithoutSize] and [Resize]. *)
Fixpoint InsertWithoutSize (fuel : nat) (m : map K V) (k : K) (v : V) : res (map K V) :=
  match fuel with
  | O => NoFuel
  | S f =>
      m ← (if overloaded load_factor_ m then
             reinsert (InsertWithoutSize f) (entries_ m)
               (mkMap (replicate (doubled (length (entries_ m))) empty_entry) (size_ m))
           else Ok m);
      bucket_index ← bucket_index (entries_ m) k;
      bucket_index ← insert_loop (length (entries_ m)) (entries_ m) k bucket_index;
      Ok (mkMap (<[Z.to_nat bucket_index := mkEntry ELEMENT (Some k) (Some v)]> (entries_ m)) (size_ m))
  end.

Definition Insert (fuel : nat) (m : map K V) (k : K) (v : V) : res (map K V) :=
  m ← InsertWithoutSize fuel m k v; Ok (mkMap (entries_ m) (Z.to_nat (wrap64 (Z.of_nat (size_ m) + 1)))).

(** ** Agreement *)

Lemma next_nat es (i : nat) : table_fits es -> (i < length es)%nat ->
  next es (Z.of_nat i) = Z.of_nat (LinearProbingHashmap.next es i).
Proof.
  unfold table_fits, next, LinearProbingHashmap.next. intros Hf Hi. rewrite wrap64_small by lia.
  rewrite Nat2Z.inj_mod. f_equal. lia.
Qed.

Lemma next_lt (es : list (Entry K V)) i : (i < length es)%nat -> (LinearProbingHashmap.next es i < length es)%nat.
Proof. intros Hi. unfold LinearProbingHashmap.next. apply Nat.mod_upper_bound. lia. Qed.

Lemma find_loop_agrees es k (initial : nat) f : forall i : nat, table_fits es -> (i < length es)%nat ->
  find_loop f es k (Z.of_nat initial) (Z.of_nat i) = as_int (LinearProbingHashmap.find_loop f es k initial i).
Proof.
  induction f as [|f IH]; intros i Hf Hi; [done|]. cbn [find_loop LinearProbingHashmap.find_loop].
  rewrite slot_nat. destruct (es !! i) as [e|]; [|done]. cbn [mbind res_bind].
  rewrite next_nat by done. destruct (bool_decide (state e = DELETED) || other_element e k).
  - destruct (LinearProbingHashmap.next es i =? initial)%nat eqn:E; reflect_bools.
    + by rewrite (proj2 (Z.eqb_eq _ _)) by lia.
    + rewrite (proj2 (Z.eqb_neq _ _)) by lia. apply IH; [done|by apply next_lt].
  - unfold table_fits in Hf. case_bool_decide; [|done]. cbn. rewrite cast_int32_small by lia. done.
Qed.

Lemma bucket_index_agrees es k :
  bucket_index es k = (i ← LinearProbingHashmap.bucket_index hash_ es k; Ok (Z.of_nat i)).
Proof.
  unfold bucket_index, LinearProbingHashmap.bucket_index. destruct es as [|e es]; [done|].
  cbn -[Z.of_nat Z.modulo]. rewrite (proj2 (Z.eqb_neq _ _)) by lia. rewrite Z2Nat.id; [done|]. apply Z.mod_pos_bound. lia.
Qed.

Lemma bucket_index_range es k i : LinearProbingHashmap.bucket_index hash_ es k = Ok i -> (i < length (es : list (Entry K V)))%nat.
Proof.
  unfold LinearProbingHashmap.bucket_index. destruct (length es =? 0)%nat eqn:E; reflect_bools; [done|]. intros [= <-].
  pose proof (Z.mod_pos_bound (hash_ k) (Z.of_nat (length es)) ltac:(lia)). lia.
Qed.

Lemma InternalFind_agrees es k : table_fits es ->
  InternalFind es k = LinearProbingHashmap.InternalFind hash_ es k.
Proof.
  intros Hf. rewrite InternalFind_int by done. unfold InternalFind, find_slot. rewrite bucket_index_agrees.
  destruct (LinearProbingHashmap.bucket_index hash_ es k) as [i| | |] eqn:Hb; try done. cbn [mbind res_bind].
  apply find_loop_agrees; [done|]. by eapply bucket_index_range.
Qed.

Lemma LookUp_agrees m k : table_fits (entries_ m) -> LookUp m k = LinearProbingHashmap.LookUp hash_ m k.
Proof. intros Hf. unfold LookUp, LinearProbingHashmap.LookUp. by rewrite InternalFind_agrees. Qed.

Lemma Remove_agrees m k : table_fits (entries_ m) ->
  Remove m k = LinearProbingHashmap.Remove hash_ m k.
Proof. intros Hf. unfold Remove, LinearProbingHashmap.Remove. by rewrite InternalFind_agrees. Qed.

Lemma insert_loop_agrees es k f : forall i : nat, table_fits es -> (i < length es)%nat ->
  insert_loop f es k (Z.of_nat i) = (j ← LinearProbingHashmap.insert_loop f es k i; Ok (Z.of_nat j)).
Proof.
  induction f as [|f IH]; intros i Hf Hi; [done|]. cbn [insert_loop LinearProbingHashmap.insert_loop].
  rewrite slot_nat. destruct (es !! i) as [e|]; [|done]. cbn [mbind res_bind]. rewrite next_nat by done.
  destruct (other_element e k); [|done]. apply IH; [done|by apply next_lt].
Qed.

Lemma doubled_agrees n : Z.of_nat n <= 2 ^ 31 -> doubled n = LinearProbingHashmap.doubled n.
Proof. intros Hn. unfold doubled, LinearProbingHashmap.doubled. rewrite wrap64_small by lia. lia. Qed.

(** What an insertion leaves of the table's size. *)
Definition keeps (n s : nat) (r : res (map K V)) : Prop :=
  forall m, r = Ok m -> length (entries_ m) = n /\ size_ m = s.

Lemma probe_and_store_agrees (m : map K V) k v : table_fits (entries_ m) ->
  (bucket_index ← bucket_index (entries_ m) k;
   bucket_index ← insert_loop (length (entries_ m)) (entries_ m) k bucket_index;
   Ok (mkMap (<[Z.to_nat bucket_index := mkEntry ELEMENT (Some k) (Some v)]> (entries_ m)) (size_ m)))
  = (i ← LinearProbingHashmap.bucket_index hash_ (entries_ m) k;
     i ← LinearProbingHashmap.insert_loop (length (entries_ m)) (entries_ m) k i;
     Ok (mkMap (<[i := mkEntry ELEMENT (Some k) (Some v)]> (entries_ m)) (size_ m)))
  /\ keeps (length (entries_ m)) (size_ m)
      (i ← LinearProbingHashmap.bucket_index hash_ (entries_ m) k;
       i ← LinearProbingHashmap.insert_loop (length (entries_ m)) (entries_ m) k i;
       Ok (mkMap (<[i := mkEntry ELEMENT (Some k) (Some v)]> (entries_ m)) (size_ m))).
Proof.
  intros Hf. rewrite bucket_index_agrees.
  destruct (LinearProbingHashmap.bucket_index hash_ (entries_ m) k) as [i| | |] eqn:Hb; try done.
  cbn [mbind res_bind]. rewrite insert_loop_agrees; [|done|by eapply bucket_index_range].
  destruct (LinearProbingHashmap.insert_loop _ _ _ i) as [j| | |]; try done.
  cbn [mbind res_bind]. rewrite Nat2Z.id. split; [done|]. intros m' [= <-]. cbn. by rewrite length_insert.
Qed.

Lemma machine_InsertWithoutSize_S f m k v :
  InsertWithoutSize (S f) m k v =
    (m ← (if overloaded load_factor_ m then
             reinsert (InsertWithoutSize f) (entries_ m)
               (mkMap (replicate (doubled (length (entries_ m))) empty_entry) (size_ m))
           else Ok m);
     bucket_index ← bucket_index (entries_ m) k;
     bucket_index ← insert_loop (length (entries_ m)) (entries_ m) k bucket_index;
     Ok (mkMap (<[Z.to_nat bucket_index := mkEntry ELEMENT (Some k) (Some v)]> (entries_ m)) (size_ m))).
Proof. reflexivity. Qed.

Lemma InsertWithoutSize_plain f m k v : overloaded load_factor_ m = false -> table_fits (entries_ m) ->
  InsertWithoutSize (S f) m k v = LinearProbingHashmap.InsertWithoutSize hash_ load_factor_ (S f) m k v
  /\ keeps (length (entries_ m)) (size_ m) (LinearProbingHashmap.InsertWithoutSize hash_ load_factor_ (S f) m k v).
Proof.
  intros Ho Hf. rewrite InsertWithoutSize_S, machine_InsertWithoutSize_S, Ho. cbn [mbind res_bind].
  by apply probe_and_store_agrees.
Qed.

Lemma overloaded_keeps (m m' : map K V) : length (entries_ m') = length (entries_ m) -> size_ m' = size_ m ->
  overloaded load_factor_ m' = overloaded load_factor_ m.
Proof. unfold overloaded. by intros -> ->. Qed.

Lemma reinsert_agrees f old : forall m, overloaded load_factor_ m = false -> table_fits (entries_ m) ->
  reinsert (InsertWithoutSize (S f)) old m
    = reinsert (LinearProbingHashmap.InsertWithoutSize hash_ load_factor_ (S f)) old m
  /\ keeps (length (entries_ m)) (size_ m) (reinsert (LinearProbingHashmap.InsertWithoutSize hash_ load_factor_ (S f)) old m).
Proof.
  induction old as [|e old IH]; intros m Ho Hf.
  - split; [done|]. by intros m' [= <-].
  - cbn [reinsert]. case_bool_decide; [|by apply IH].
    destruct (key e) as [k|]; [|done]. destruct (value e) as [v|]; [|done].
    destruct (InsertWithoutSize_plain f m k v Ho Hf) as [-> Hk].
    destruct (LinearProbingHashmap.InsertWithoutSize hash_ load_factor_ (S f) m k v) as [m1| | |]; try done.
    destruct (Hk m1 eq_refl) as [Hl Hs]. cbn [mbind res_bind]. rewrite <- Hl, <- Hs. apply IH.
    + by rewrite <- Ho; apply overloaded_keeps.
    + unfold table_fits in *. by rewrite Hl.
Qed.

(** The table after a possible [Resize]. *)
Definition resized (m : map K V) : nat :=
  if overloaded load_factor_ m then LinearProbingHashmap.doubled (length (entries_ m)) else length (entries_ m).

Lemma InsertWithoutSize_agrees f m k v : table_fits (entries_ m) -> Z.of_nat (resized m) <= 2 ^ 31 ->
  overloaded load_factor_ (mkMap (replicate (resized m) (@empty_entry K V)) (size_ m)) = false ->
  InsertWithoutSize (S (S f)) m k v = LinearProbingHashmap.InsertWithoutSize hash_ load_factor_ (S (S f)) m k v
  /\ keeps (resized m) (size_ m) (LinearProbingHashmap.InsertWithoutSize hash_ load_factor_ (S (S f)) m k v).
Proof.
  intros Hf Hg Hno. unfold resized in *. destruct (overloaded load_factor_ m) eqn:Ho; [|by apply InsertWithoutSize_plain].
  rewrite InsertWithoutSize_S, machine_InsertWithoutSize_S, Ho, doubled_agrees by done.
  set (m0 := mkMap (replicate (LinearProbingHashmap.doubled (length (entries_ m))) empty_entry) (size_ m)) in *.
  destruct (reinsert_agrees f (entries_ m) m0) as [E Hk]; [done|unfold table_fits; cbn; by rewrite length_replicate|].
  rewrite E.
  destruct (reinsert (LinearProbingHashmap.InsertWithoutSize _ _ _) (entries_ m) m0) as [m1| | |]; try done.
  destruct (Hk m1 eq_refl) as [Hl Hs]. cbn [m0 entries_ size_] in Hl, Hs. rewrite length_replicate in Hl.
  cbn [mbind res_bind]. rewrite <- Hl, <- Hs. apply probe_and_store_agrees. unfold table_fits. by rewrite Hl.
Qed.

End V1LinearProbingHashmap.

(** ** Objects: construction, copying and moving *)

Section Objects.
Context {K V : Type} `{Countable K}.
Context (h : K -> Z) (left : option (K -> Z)).

Record object := mkObject {
  hash_ : option (K -> Z);
  load_factor_ : Z * Z;
  table : map K V
}.

#[local] Abbreviation objects := (gmap positive object).

(** The source of a move: the vector is empty, [hash_] is as the library leaves
    it ([left]), the numbers stay. *)
Definition moved_from (o : object) : object := mkObject left (load_factor_ o) (mkMap [] (size_ (table o))).

Definition construct (os : objects) (this : positive) (load_factor : Z * Z) (hash : K -> Z) (initial_capacity : nat) : objects :=
  <[this := mkObject (Some hash) load_factor (init initial_capacity)]> os.

Definition copy_construct (os : objects) (this other : positive) : res objects :=
  o ← object_at os other;
  Ok (<[this := mkObject (hash_ o) (load_factor_ o) (mkMap (entries_ (table o)) (size_ (table o)))]> os).

Definition move_construct (os : objects) (this other : positive) : res objects :=
  o ← object_at os other; Ok (<[this := o]> (<[other := moved_from o]> os)).

Definition copy_assign (os : objects) (this other : positive) : res objects :=
  if bool_decide (this = other) then Ok os
  else
    o ← object_at os other;
    Ok (<[this := mkObject (hash_ o) (load_factor_ o) (mkMap (entries_ (table o)) (size_ (table o)))]> os).

Definition move_assign (os : objects) (this other : positive) : res objects :=
  if bool_decide (this = other) then Ok os
  else o ← object_at os other; Ok (<[this := o]> (<[other := moved_from o]> os)).

(** The members that use [hash_]. *)
Definition with_table (o : object) (m : map K V) : object := mkObject (hash_ o) (load_factor_ o) m.

Definition insert_into (o : object) (k : K) (v : V) : res object :=
  h ← call_hash (hash_ o); m ← Insert h (load_factor_ o) 2 (table o) k v; Ok (with_table o m).

Definition remove_from (o : object) (k : K) : res object :=
  h ← call_hash (hash_ o); m ← Remove h (table o) k; Ok (with_table o m).

Definition lookup_in (o : object) (k : K) : res (option V) := h ← call_hash (hash_ o); LookUp h (table o) k.

#[export] Instance object_ops : ObjectOps K V object := {
  construct_object os this n := construct os this kDefaultLoadFactor h n;
  copy_construct_object := copy_construct;
  move_construct_object := move_construct;
  copy_assign_object := copy_assign;
  move_assign_object := move_assign;
  insert_object := insert_into;
  remove_object := remove_from;
  lookup_object := lookup_in;
  foreach_object o := ForEach (entries_ (table o))
}.

(** *** The promise *)

Definition stands_for (n : nat) (o : object) (x : option (gmap K V)) : Prop :=
  match x with
  | None => True
  | Some m =>
      hash_ o = Some h /\ load_factor_ o = kDefaultLoadFactor /\ table_ok h (table o)
      /\ abs (entries_ (table o)) = m /\ table_fits (entries_ (table o)) /\ (size_ (table o) <= n)%nat
  end.

Lemma stands_for_mono n n' o x : (n <= n')%nat -> stands_for n o x -> stands_for n' o x.
Proof. intros Hn. destruct x; [|done]. cbn. intros (? & ? & ? & ? & ? & ?). split_and!; try done. lia. Qed.

Lemma copied_object o : mkObject (hash_ o) (load_factor_ o) (mkMap (entries_ (table o)) (size_ (table o))) = o.
Proof. by destruct o as [? ? []]. Qed.

Lemma construct_stands_for c : (2 <= c)%nat -> (Z.of_nat c <= 2 ^ 31)%Z ->
  stands_for 0 (mkObject (Some h) kDefaultLoadFactor (init c)) (Some ∅).
Proof.
  intros Hc Hf. cbn. split_and!; try done.
  - by apply table_ok_init.
  - change (abs (replicate c (@empty_entry K V)) = ∅). unfold abs. by rewrite elements_empty.
  - unfold table_fits. cbn. by rewrite length_replicate.
Qed.

(** One insertion more: the table is doubled only when it has fewer than four
    thirds as many slots as there have been insertions. *)
Lemma Insert_stands n o m k v : stands_for n o (Some m) -> m !! k = None -> 3 * (Z.of_nat (S n)) <= 2 ^ 31 ->
  exists t, Insert h (load_factor_ o) 2 (table o) k v = Ok t /\ stands_for (S n) (with_table o t) (Some (<[k := v]> m)).
Proof.
  intros (Hh & Hlf & Hok & <- & Hf & Hn) Hk Hb. rewrite Hlf.
  destruct (probe_Insert_spec h (table o) k v Hok Hk) as (t & E & Hok' & Ha & _). unfold LinearProbingHashmap.Insert in E.
  pose proof Hok as (_ & _ & H2 & H4). unfold table_fits in Hf.
  assert (Z.of_nat (resized kDefaultLoadFactor (table o)) <= 2 ^ 31
          /\ overloaded kDefaultLoadFactor (mkMap (replicate (resized kDefaultLoadFactor (table o)) (@empty_entry K V)) (size_ (table o))) = false) as [Hg Hno].
  { rewrite overloaded_default. cbn [entries_ size_]. rewrite length_replicate. unfold resized. rewrite overloaded_default.
    unfold LinearProbingHashmap.doubled. destruct (3 * length (entries_ (table o)) <? 4 * size_ (table o))%nat eqn:Eo;
      reflect_bools; (split; [lia|apply Nat.ltb_ge; lia]). }
  destruct (InsertWithoutSize_agrees h kDefaultLoadFactor 0 (table o) k v Hf Hg Hno) as [Eq Hk'].
  unfold Insert. rewrite Eq. destruct (LinearProbingHashmap.InsertWithoutSize _ _ _ _ _ _) as [m1| | |]; try done.
  destruct (Hk' m1 eq_refl) as [Hl Hs]. cbn [mbind res_bind] in E |- *. injection E as <-.
  rewrite wrap64_small by lia. replace (Z.to_nat (Z.of_nat (size_ m1) + 1)) with (size_ m1 + 1)%nat by lia.
  eexists. split; [done|]. cbn. split_and!; try done; [unfold table_fits; by rewrite Hl|lia].
Qed.

Lemma Remove_stands n o m k : stands_for n o (Some m) ->
  exists t, Remove h (table o) k = Ok t /\ stands_for n (with_table o t) (Some (delete k m)).
Proof.
  intros (Hh & Hlf & (Hi & Hel & Hcap & Hsz) & <- & Hf & Hn). rewrite Remove_agrees by done.
  destruct (probe_Remove_spec h (table o) k Hi Hf) as (t & E & Hi1 & Ha1 & Hs1 & Hl1 & Hc1).
  exists t. split; [done|]. cbn. unfold table_ok, table_fits in *. rewrite Hs1, Hl1. split_and!; try done; lia.
Qed.

Lemma ForEach_agrees es : inv h es -> ForEach es = Ok (elements (es : list (Entry K V))).
Proof.
  intros Hi. pose proof (inv_wf _ _ Hi) as Hw. clear Hi. induction es as [|e es IH]; [done|].
  assert (forall j e', es !! j = Some e' -> state e' = ELEMENT ->
            exists k v, e' = mkEntry ELEMENT (Some k) (Some v)) as Hw' by (intros j; apply (Hw (S j))).
  specialize (IH Hw'). cbn [ForEach]. unfold elements in *. cbn [omap list_omap]. destruct (bool_decide (state e = ELEMENT)) eqn:Hs.
  - cbn [negb]. apply bool_decide_eq_true in Hs. destruct (Hw 0%nat e eq_refl Hs) as (k & v & ->). cbn [key value].
    rewrite IH. done.
  - cbn [negb]. exact IH.
Qed.

#[refine] Instance object_spec : ObjectSpec K V object := {
  copyable := true;
  overwrites := false;
  capacity_ok c := (2 <=? c)%nat && (Z.of_nat c <=? 2 ^ 31);
  calls_ok n := 3 * Z.of_nat n <= 2 ^ 31;
  stands := stands_for
}.
Proof.
  - lia.
  - apply stands_for_mono.
  - intros os this c Hc. reflect_bools. eexists. split; [reflexivity|]. by apply construct_stands_for.
  - intros os this other o _ Ho. cbn. unfold copy_construct. rewrite (object_at_Some _ _ _ Ho). cbn. by rewrite copied_object.
  - intros os this other o _ Ho. cbn. unfold copy_assign. case_bool_decide as E; [subst; by rewrite insert_id|].
    rewrite (object_at_Some _ _ _ Ho). cbn. by rewrite copied_object.
  - intros os this other o Ho. cbn. unfold move_construct. rewrite (object_at_Some _ _ _ Ho). by eexists.
  - intros os this other o Ho Hne. cbn. unfold move_assign. rewrite bool_decide_false, (object_at_Some _ _ _ Ho) by done. by eexists.
  - intros os this. cbn. unfold move_assign. by rewrite bool_decide_true.
  - intros n o m k v Hn Ho [E|E]; [done|]. cbn. destruct (Insert_stands n o m k v Ho E Hn) as (t & Et & Ht).
    unfold insert_into, call_hash. destruct Ho as (-> & _). cbn [mbind res_bind]. rewrite Et. by eexists.
  - intros n o m k Ho. cbn. destruct (Remove_stands n o m k Ho) as (t & Et & Ht).
    unfold remove_from, call_hash. destruct Ho as (-> & _). cbn [mbind res_bind]. rewrite Et. by eexists.
  - intros n o m k (Hh & _ & (Hi & _) & Ha & Hf & _). cbn. unfold lookup_in, call_hash. rewrite Hh. cbn [mbind res_bind].
    rewrite LookUp_agrees, (probe_LookUp_spec h) by done. by rewrite Ha.
  - intros n o m (_ & _ & (Hi & _) & Ha & _). cbn. rewrite ForEach_agrees by done. eexists. split; [done|].
    rewrite <- Ha. unfold abs. symmetry. apply map_to_list_to_map, (inv_nodup h _ Hi).
Defined.

(** ** Theorem *)

(** C24. Machine integers are wide enough: in a program of at most 2^31 / 3
    member calls, on any number of tables that are constructed with the default
    load factor and between 2 and 2^31 slots, copied, moved, assigned (to
    themselves too), inserted into, no table being given a key it has already
    and none that has been moved from, and removed from, no index computed in 64 bits wraps and no index is lost when
    [InternalFind] returns it as an [int] with -1 for "not found".  Every call
    returns, and every table that has not been moved from holds the finite map
    that the same program gives its variable: copies are independent, a moved
    map is in the target whatever the move leaves of the source. *)
Theorem machine_indices_suffice (l : list (member K V)) a :
  3 * Z.of_nat (length l) <= 2 ^ 31 -> promised_all (spec := object_spec) ∅ l = Some a ->
  exists os : objects, run_members ∅ l = Ok os /\ dom os = dom a
    /\ forall this m, a !! this = Some (Some m) ->
         (forall k, lookup_at os this k = Ok (m !! k))
         /\ exists visited, foreach_at os this = Ok visited /\ visited ≡ₚ map_to_list m.
Proof. intros Hl Hp. destruct (objects_hold_variables (spec := object_spec) l a Hl Hp) as (os & H1 & H2 & _ & H3). eauto. Qed.

End Objects.

(** Two tables: a copy is changed without its original, the original is moved
    to a third object, and a self-assignment does nothing. *)
#[local] Abbreviation example_members :=
  [Construct 1 2; CallInsert 1 0%Z 10%Z; CallInsert 1 2%Z 12%Z; CopyConstruct 2 1; CallRemove 2 0%Z;
   CallInsert 2 4%Z 14%Z; MoveConstruct 3 1; CopyAssign 2 2; MoveAssign 3 3; CopyAssign 1 2].

Lemma machine_indices_suffice_witness :
  exists os : gmap positive (object (K := Z) (V := Z)),
    run_members (ops := object_ops (fun k : Z => k) None) ∅ example_members = Ok os
    /\ lookup_at (ops := object_ops (fun k : Z => k) None) os 1%positive 4%Z = Ok (Some 14%Z)
    /\ lookup_at (ops := object_ops (fun k : Z => k) None) os 3%positive 0%Z = Ok (Some 10%Z).
Proof.
  destruct (checked_some (promised_all (spec := object_spec (fun k : Z => k) None) ∅ example_members) (fun a =>
      bool_decide (a !! 1%positive = Some (Some {[2%Z := 12%Z; 4%Z := 14%Z]}))
      && bool_decide (a !! 3%positive = Some (Some {[0%Z := 10%Z; 2%Z := 12%Z]})))) as (a & Ha & Hv); [reflexivity|].
  apply andb_prop in Hv as [H1 H3]. apply bool_decide_eq_true in H1, H3.
  destruct (machine_indices_suffice (fun k : Z => k) None example_members a) as (os & E & _ & Hl);
    [vm_compute; discriminate|exact Ha|].
  exists os. split; [exact E|]. split.
  - rewrite (proj1 (Hl 1%positive _ H1)). reflexivity.
  - rewrite (proj1 (Hl 3%positive _ H3)). reflexivity.
Defined.

End V1LinearProbingHashmap.
