(* ===== verification/V1StripedHashmap.v ===== *)
(** * The striped hash map: [v1/src/server/store/StripedHashmap.h]

    The chained hash map of [LinkedListHashmap.h] with a vector of mutexes: an
    operation on a key holds the mutex [hash % locks_.size()], a resize and a
    [ForEach] hold all of them.  The code of the table is, line for line, the
    code of [LinkedListHashmap], whose definitions are reused; what is new is
    who may run it at the same time.  Threads are a list of program counters, a
    lock is held by the thread whose counter says so, and [step] is one step of
    one thread: taking a lock, or running a critical section to its end.

    Theorems: no two threads hold a lock, a resize and a [ForEach] work alone,
    and while the number of buckets is a multiple of the number of locks no two
    threads work on one bucket, so that a critical section can be taken as one
    step.  In runs in which critical sections do not overlap, the map is the
    finite map built by the operations in their order, through the window in
    which [Insert] gives its lock up to resize.  But a resize leaves
    [size_ * 2] buckets, which need not be such a multiple, and then two
    threads do reach one bucket under different locks; and two insertions under
    different locks always write [size_] together. *)

From S2P Require Import Prelude MapInterface LinkedListHashmap.

#[local] Open Scope nat_scope.

Module StripedHashmap.
Section StripedHashmap.
Context {K V : Type} `{Countable K}.
Context (hash_ : K -> Z) (load_factor_ : Z * Z) (num_locks : nat).

Abbreviation table := (@LinkedListHashmap.map K V).

(** ** The code *)

Definition GetBucketIndex (m : table) (key : K) : nat :=
  LinkedListHashmap.bucket_index hash_ key (length (LinkedListHashmap.entries_ m)).

Definition GetLockIndex (key : K) : nat := Z.to_nat (hash_ key mod Z.of_nat num_locks).

Definition InsertWithoutResize : table -> K -> V -> table := LinkedListHashmap.InsertWithoutResize hash_.
Definition Resize : table -> table := LinkedListHashmap.Resize hash_.
Definition init : table := LinkedListHashmap.init.

(** The bodies of the critical sections. *)
Definition LookUp_body : table -> K -> option V := LinkedListHashmap.LookUp hash_.
Definition Remove_body : table -> K -> table := LinkedListHashmap.Remove hash_.
Definition ForEach_body : table -> list (K * V) := LinkedListHashmap.ForEach.

(** [entries_.empty() || size_ > entries_.size() * load_factor_] *)
Definition must_resize (m : table) : bool :=
  bool_decide (LinkedListHashmap.entries_ m = []) || LinkedListHashmap.overloaded load_factor_ m.

(** ** Threads *)

Inductive op := OpLookUp (key : K) | OpInsert (key : K) (value : V) | OpRemove (key : K) | OpForEach.

Inductive pc :=
| Idle
| LookUpLocked (key : K)                     (* in LookUp, lock held *)
| RemoveLocked (key : K)                     (* in Remove, lock held *)
| InsertLocked (key : K) (value : V)         (* in Insert, before the load check *)
| InResize (key : K) (value : V) (n : nat)   (* in Resize, the first n locks held *)
| InsertRelock (key : K) (value : V)         (* back in Insert, before lock.lock() *)
| Inserting (key : K) (value : V)            (* lock held, before InsertWithoutResize *)
| InForEach (n : nat)                        (* in ForEach, the first n locks held *)
| DividedByZero.                             (* in GetLockIndex, with no locks: undefined behaviour *)

(** What a critical section did. *)
Inductive commit :=
| DidLookUp (key : K) (found : option V)
| DidInsert (key : K) (value : V)
| DidRemove (key : K)
| DidForEach (visited : list (K * V)).

Record state := mkState {
  entries : table;
  threads : list pc;
  commits : list commit   (* latest first *)
}.

(** The locks a thread holds. *)
Definition holds (p : pc) (i : nat) : bool :=
  match p with
  | LookUpLocked key | RemoveLocked key | InsertLocked key _ | Inserting key _ => i =? GetLockIndex key
  | InResize _ _ n | InForEach n => i <? n
  | Idle | InsertRelock _ _ | DividedByZero => false
  end.

(** Nobody holds the lock. *)
Definition free (st : state) (i : nat) : bool := forallb (fun p => negb (holds p i)) (threads st).

Definition goto (st : state) (t : nat) (p : pc) : state :=
  mkState (entries st) (<[t := p]> (threads st)) (commits st).

(** A critical section ends: the table changes and the locks are released. *)
Definition finish (st : state) (t : nat) (m : table) (c : commit) : state :=
  mkState m (<[t := Idle]> (threads st)) (c :: commits st).

(** Taking lock [i], when it is free. *)
Definition acquire (st : state) (t i : nat) (p : pc) : option state :=
  if free st i then Some (goto st t p) else None.

(** Taking the lock of a key, at the beginning of an operation. *)
Definition acquire_key (st : state) (t : nat) (key : K) (p : pc) : option state :=
  if num_locks =? 0 then Some (goto st t DividedByZero) else acquire st t (GetLockIndex key) p.

(** One step of thread [t]; an idle thread calls [o].  A critical section is
    one step, but its thread is first at a program point inside it
    ([LookUpLocked], [Inserting], ...): two threads that are inside critical
    sections in one state run them at the same time ([touches] says on which
    bucket). *)
Definition step (st : state) (t : nat) (o : op) : option state :=
  match threads st !! t with
  | None => None
  | Some p =>
      match p with
      | Idle =>
          match o with
          | OpLookUp key => acquire_key st t key (LookUpLocked key)
          | OpRemove key => acquire_key st t key (RemoveLocked key)
          | OpInsert key value => acquire_key st t key (InsertLocked key value)
          | OpForEach => Some (goto st t (InForEach 0))
          end
      | LookUpLocked key =>
          Some (finish st t (entries st) (DidLookUp key (LookUp_body (entries st) key)))
      | RemoveLocked key => Some (finish st t (Remove_body (entries st) key) (DidRemove key))
      | InsertLocked key value =>
          if must_resize (entries st) then Some (goto st t (InResize key value 0))
          else Some (goto st t (Inserting key value))
      | InResize key value n =>
          if n <? num_locks then acquire st t n (InResize key value (S n))
          else Some (mkState (Resize (entries st)) (<[t := InsertRelock key value]> (threads st)) (commits st))
      | InsertRelock key value => acquire st t (GetLockIndex key) (Inserting key value)
      | Inserting key value =>
          Some (finish st t (InsertWithoutResize (entries st) key value) (DidInsert key value))
      | InForEach n =>
          if n <? num_locks then acquire st t n (InForEach (S n))
          else Some (finish st t (entries st) (DidForEach (ForEach_body (entries st))))
      | DividedByZero => None
      end
  end.

Definition start (num_threads : nat) : state := mkState init (replicate num_threads Idle) [].

Inductive reachable (num_threads : nat) : state -> Prop :=
| reach_start : reachable num_threads (start num_threads)
| reach_step st t o st' : reachable num_threads st -> step st t o = Some st' -> reachable num_threads st'.

(** Running a schedule of threads and calls. *)
Fixpoint run_schedule (st : state) (schedule : list (nat * op)) : option state :=
  match schedule with
  | [] => Some st
  | (t, o) :: schedule => st ← step st t o; run_schedule st schedule
  end.

(** The bucket whose chain a thread reads or writes in its critical section. *)
Definition touches (st : state) (p : pc) (bucket : nat) : bool :=
  match p with
  | LookUpLocked key | RemoveLocked key | Inserting key _ => bucket =? GetBucketIndex (entries st) key
  | InResize _ _ n | InForEach n => num_locks <=? n
  | Idle | InsertLocked _ _ | InsertRelock _ _ | DividedByZero => false
  end.

(** A thread inside a critical section of an operation on [key]. *)
Definition inside (key : K) (p : pc) : bool :=
  match p with
  | LookUpLocked k | RemoveLocked k | InsertLocked k _ | Inserting k _ => bool_decide (k = key)
  | InResize _ _ n | InForEach n => num_locks <=? n
  | Idle | InsertRelock _ _ | DividedByZero => false
  end.

(** A thread that has taken all the locks. *)
Definition alone (p : pc) : bool :=
  match p with
  | InResize _ _ n | InForEach n => num_locks <=? n
  | _ => false
  end.

(** ** Exclusion *)

Definition exclusive (st : state) : Prop := forall t t' p p' i,
  threads st !! t = Some p -> threads st !! t' = Some p' ->
  holds p i = true -> holds p' i = true -> t = t'.

Lemma free_spec st i t p : free st i = true -> threads st !! t = Some p -> holds p i = false.
Proof.
  unfold free. rewrite forallb_forall. intros Hf Ht. apply negb_true_iff, Hf.
  apply list_elem_of_In. by eapply list_elem_of_lookup_2.
Qed.

(** A thread that moves keeps its locks or takes free ones. *)
Lemma exclusive_move st t p p' m cs : exclusive st -> threads st !! t = Some p ->
  (forall i, holds p' i = true -> holds p i = true \/ free st i = true) ->
  exclusive (mkState m (<[t := p']> (threads st)) cs).
Proof.
  intros Hx Ht Hp t1 t2 p1 p2 i. cbn [threads]. rewrite !list_lookup_insert_Some.
  intros [(<- & <- & _)|[Hne1 H1]] [(<- & <- & _)|[Hne2 H2]] Hh1 Hh2; [done| | |by eapply Hx].
  - destruct (Hp i Hh1) as [Ho|Hf]; [by eapply Hx|].
    pose proof (free_spec _ _ _ _ Hf H2). congruence.
  - destruct (Hp i Hh2) as [Ho|Hf]; [by eapply Hx|].
    pose proof (free_spec _ _ _ _ Hf H1). congruence.
Qed.

Lemma acquire_spec st t i p st' : acquire st t i p = Some st' -> free st i = true /\ st' = goto st t p.
Proof. unfold acquire. destruct (free st i); [|done]. by intros [= <-]. Qed.

Ltac step_cases Hs o :=
  unfold step, acquire_key in Hs;
  destruct (threads _ !! _) as [p|] eqn:Ht in Hs; [|done];
  destruct p as [|key|key|key value|key value n|key value|key value|n|]; [destruct o as [key|key value|key|]|..];
  try case_match; reflect_bools; try (apply acquire_spec in Hs as [Hfree ->]); simplify_eq.

Lemma step_exclusive st t o st' : exclusive st -> step st t o = Some st' -> exclusive st'.
Proof.
  intros Hx Hs. step_cases Hs o; (eapply exclusive_move; [done|done|]); cbn; intros i Hi; reflect_bools; subst;
    try done; try (by right); try (by left; apply Nat.eqb_refl); try (by apply Nat.ltb_lt in Hi; lia).
  all: try (destruct (decide (i = n)) as [->|]; [by right|left; apply Nat.ltb_lt; lia]).
Qed.

Lemma reachable_exclusive num_threads st : reachable num_threads st -> exclusive st.
Proof.
  induction 1 as [|st t o st' _ IH Hs]; [|by eapply step_exclusive].
  intros t t' p p' i [-> _]%lookup_replicate. done.
Qed.

(** ** Buckets *)

(** Equal buckets have equal locks when the number of locks divides the number of buckets. *)
Lemma bucket_determines_lock m k k' : 0 < num_locks ->
  (length (LinkedListHashmap.entries_ m) mod num_locks = 0) -> LinkedListHashmap.entries_ m <> [] ->
  GetBucketIndex m k = GetBucketIndex m k' -> GetLockIndex k = GetLockIndex k'.
Proof.
  intros Hl Hdiv Hne. unfold GetBucketIndex, LinkedListHashmap.bucket_index, GetLockIndex.
  set (n := length (LinkedListHashmap.entries_ m)) in *.
  assert (0 < n) as Hn by (subst n; destruct (LinkedListHashmap.entries_ m); [done|cbn; lia]).
  apply Nat.Div0.mod_divides in Hdiv as [q Hq].
  assert (forall z, z mod Z.of_nat num_locks = (z mod Z.of_nat n) mod Z.of_nat num_locks)%Z as Hmod.
  { intros z. rewrite Hq, Nat2Z.inj_mul. rewrite Z.rem_mul_r by nia.
    rewrite Z.mul_comm, Z_mod_plus_full. by rewrite Zmod_mod. }
  intros He. rewrite (Hmod (hash_ k)), (Hmod (hash_ k')).
  pose proof (Z.mod_pos_bound (hash_ k) (Z.of_nat n) ltac:(lia)).
  pose proof (Z.mod_pos_bound (hash_ k') (Z.of_nat n) ltac:(lia)).
  by replace (hash_ k mod Z.of_nat n)%Z with (hash_ k' mod Z.of_nat n)%Z by lia.
Qed.

Lemma GetLockIndex_lt key : 0 < num_locks -> GetLockIndex key < num_locks.
Proof.
  intros Hl. unfold GetLockIndex. pose proof (Z.mod_pos_bound (hash_ key) (Z.of_nat num_locks) ltac:(lia)). lia.
Qed.

(** A thread at work on a bucket holds the lock of any key of the bucket. *)
Lemma touches_holds st p key : 0 < num_locks ->
  length (LinkedListHashmap.entries_ (entries st)) mod num_locks = 0 -> LinkedListHashmap.entries_ (entries st) <> [] ->
  touches st p (GetBucketIndex (entries st) key) = true -> holds p (GetLockIndex key) = true.
Proof.
  intros Hl Hdiv Hne. pose proof (GetLockIndex_lt key Hl).
  destruct p as [|k|k|k v|k v n|k v|k v|n|]; cbn; intros Ht; reflect_bools; try done;
    try (apply Nat.eqb_eq; by apply (bucket_determines_lock (entries st)));
    apply Nat.ltb_lt; lia.
Qed.

Lemma inside_holds key p : 0 < num_locks -> inside key p = true -> holds p (GetLockIndex key) = true.
Proof.
  intros Hl. pose proof (GetLockIndex_lt key Hl).
  destruct p as [|k|k|k v|k v n|k v|k v|n|]; cbn; intros Hi; reflect_bools; subst; try done;
    try apply Nat.eqb_refl; apply Nat.ltb_lt; lia.
Qed.

Lemma alone_holds key p : 0 < num_locks -> alone p = true -> holds p (GetLockIndex key) = true.
Proof.
  intros Hl Ha. pose proof (GetLockIndex_lt key Hl).
  destruct p as [|k|k|k v|k v n|k v|k v|n|]; cbn in *; try done; reflect_bools; apply Nat.ltb_lt; lia.
Qed.

(** ** The finite map of the critical sections *)

Definition apply_commit (a : gmap K V) (c : commit) : gmap K V :=
  match c with
  | DidInsert key value => <[key := value]> a
  | DidRemove key => delete key a
  | DidLookUp _ _ | DidForEach _ => a
  end.

(** The map after a list of critical sections, the latest first. *)
Definition replay (cs : list commit) : gmap K V := foldr (fun c a => apply_commit a c) ∅ cs.

(** Every reader saw the map of that moment. *)
Fixpoint observed (cs : list commit) : Prop :=
  match cs with
  | [] => True
  | c :: cs =>
      match c with
      | DidLookUp key found => found = replay cs !! key
      | DidForEach visited => visited ≡ₚ map_to_list (replay cs)
      | _ => True
      end /\ observed cs
  end.

Definition table_ok (st : state) : Prop :=
  LinkedListHashmap.inv hash_ (entries st)
  /\ LinkedListHashmap.abs (entries st) = replay (commits st) /\ observed (commits st).

Lemma step_table_ok st t o st' : table_ok st -> step st t o = Some st' -> table_ok st'.
Proof.
  intros (Hi & Ha & Ho) Hs. step_cases Hs o; try (by split_and!).
  - split_and!; cbn; try done. rewrite <- Ha. split; [|done]. by apply LinkedListHashmap.LookUp_spec.
  - destruct (LinkedListHashmap.Remove_spec hash_ (entries st) key Hi) as [Hi' Ha'].
    split_and!; cbn; [done| |done]. unfold Remove_body. by rewrite Ha', Ha.
  - destruct (LinkedListHashmap.Resize_spec hash_ (entries st) Hi) as [Hi' Ha'].
    split_and!; cbn; [done| |done]. unfold Resize. by rewrite Ha', Ha.
  - destruct (LinkedListHashmap.InsertWithoutResize_spec hash_ (entries st) key value Hi) as (Hi' & Ha' & _).
    split_and!; cbn; [done| |done]. unfold InsertWithoutResize. by rewrite Ha', Ha.
  - split_and!; cbn; try done. rewrite <- Ha. split; [|done].
    symmetry. apply map_to_list_to_map. by eapply LinkedListHashmap.NoDup_keys.
Qed.

Lemma reachable_table_ok num_threads st : reachable num_threads st -> table_ok st.
Proof.
  induction 1 as [|st t o st' _ IH Hs]; [|by eapply step_table_ok].
  destruct (LinkedListHashmap.replicate_inv (V := V) hash_ kDefaultCapacity) as [Hi Ha];
    [unfold kDefaultCapacity; lia|]. by split_and!.
Qed.

Lemma run_schedule_reachable num_threads schedule st st' :
  reachable num_threads st -> run_schedule st schedule = Some st' -> reachable num_threads st'.
Proof.
  revert st. induction schedule as [|[t o] schedule IH]; intros st Hr; cbn.
  - by intros [= <-].
  - destruct (step st t o) as [st1|] eqn:E; [|done]. cbn. intros Hs. eapply IH; [|done]. by eapply reach_step.
Qed.

(** ** Theorems *)

(** C38. The locks keep the critical sections apart, as far as they do.  With at
    least one lock, in every reachable state of any number of threads, two
    different threads are never inside critical sections of operations on the
    same key; while one has taken all the locks to resize the table or to visit
    it, no other is inside a critical section; and, as long as the number of
    buckets is a multiple of the number of locks, no two are at work on one
    bucket. *)
Theorem striped_locks_exclude num_threads st t t' p p' :
  0 < num_locks -> reachable num_threads st ->
  threads st !! t = Some p -> threads st !! t' = Some p' -> t <> t' ->
  (forall key, inside key p = true -> inside key p' = false)
  /\ (alone p = true -> forall key, inside key p' = false)
  /\ (length (LinkedListHashmap.entries_ (entries st)) mod num_locks = 0 ->
      forall key, touches st p (GetBucketIndex (entries st) key) = true ->
                  touches st p' (GetBucketIndex (entries st) key) = false).
Proof.
  intros Hl Hr Ht Ht' Hne.
  assert (forall i, holds p i = true -> holds p' i = true -> False) as Hx.
  { intros i Hp Hp'. by apply Hne, (reachable_exclusive _ _ Hr t t' p p' i). }
  split_and!.
  - intros key Hp. apply not_true_is_false. intros Hp'. by eapply Hx; apply inside_holds.
  - intros Ha key. apply not_true_is_false. intros Hp'.
    apply (Hx (GetLockIndex key)); [by apply alone_holds|by apply inside_holds].
  - intros Hdiv key Hp. apply not_true_is_false. intros Hp'.
    destruct (reachable_table_ok _ _ Hr) as ([Hb _ _] & _). by eapply Hx; eapply (touches_holds st).
Qed.

(** What the table's code does in runs in which critical sections do not
    overlap (the locks, which see to that only in part, play no role here): in every reachable state the table is
    well formed and holds the finite map built by the insertions and removals
    committed so far, also when other threads work in the window in which an
    [Insert] has released its lock to resize; and every [LookUp] and [ForEach]
    saw the finite map of its moment. *)
Theorem striped_map_linearizes num_threads st :
  reachable num_threads st ->
  LinkedListHashmap.inv hash_ (entries st)
  /\ (forall key, LookUp_body (entries st) key = replay (commits st) !! key)
  /\ observed (commits st).
Proof.
  intros Hr. destruct (reachable_table_ok _ _ Hr) as (Hi & Ha & Ho). split_and!; [done| |done].
  intros key. unfold LookUp_body. rewrite LinkedListHashmap.LookUp_spec by done. by rewrite Ha.
Qed.

End StripedHashmap.
End StripedHashmap.

(** ** The map of the server: integer keys, 16 locks *)

Import StripedHashmap.

(** [int_hash]: the key as a [size_t]. *)
Definition int_hash (key : Z) : Z := wrap64 key.

(** One insertion of thread 0: lock, load check, insert. *)
Definition insert_steps (key : Z) : list (nat * @op Z Z) := replicate 3 (0, OpInsert key 0%Z).

(** Thirteen keys, then a fourteenth insertion, which resizes to 26 buckets
    (lock, check, sixteen locks, resize, relock, insert), and finally threads
    0 and 1 inserting the keys 0 and 26, up to the writes. *)
Definition race_schedule : list (nat * @op Z Z) :=
  concat (map insert_steps (seqZ 0 13))
  ++ replicate 21 (0, OpInsert 13%Z 0%Z)
  ++ replicate 2 (0, OpInsert 0%Z 0%Z) ++ replicate 2 (1, OpInsert 26%Z 0%Z).

(** C39. The stripes do not protect the table.  From the start, two threads
    insert at the same time under different locks, and both write [size_].
    After a resize, the buckets (twice the number of entries) need not be a
    multiple of the locks: with 16 locks and 26 buckets the keys 0 and 26 share
    bucket 0 and not the lock, and two threads reach the point where both
    write the chain of that bucket. *)
Theorem striped_bucket_race :
  (exists st, reachable int_hash (3, 4)%Z 16 2 st
     /\ threads st = [Inserting 0%Z 0%Z; Inserting 1%Z 0%Z])
  /\ exists st, reachable int_hash (3, 4)%Z 16 2 st
     /\ threads st = [Inserting 0%Z 0%Z; Inserting 26%Z 0%Z]
     /\ GetLockIndex int_hash 16 0%Z <> GetLockIndex int_hash 16 26%Z
     /\ GetBucketIndex int_hash (entries st) 0%Z = GetBucketIndex int_hash (entries st) 26%Z.
Proof.
  split.
  - destruct (run_schedule int_hash (3, 4)%Z 16 (start 2)
                [(0, OpInsert 0%Z 0%Z); (0, OpInsert 0%Z 0%Z); (1, OpInsert 1%Z 0%Z); (1, OpInsert 1%Z 0%Z)])
      as [st|] eqn:E; [|vm_compute in E; done].
    exists st. split; [eapply run_schedule_reachable; [constructor|exact E]|].
    vm_compute in E. by injection E as <-.
  - destruct (run_schedule int_hash (3, 4)%Z 16 (start 2) race_schedule) as [st|] eqn:E; [|vm_compute in E; done].
    exists st. split; [eapply run_schedule_reachable; [constructor|exact E]|].
    vm_compute in E. injection E as <-. split_and!; vm_compute; done.
Qed.

(** Thread 0 inserts the key 0 while thread 1 looks up the key 1, in another
    bucket. *)
Lemma striped_locks_exclude_witness :
  exists st : @state Z Z, reachable int_hash (3, 4)%Z 16 2 st /\ threads st = [Inserting 0%Z 5%Z; LookUpLocked 1%Z]
    /\ touches int_hash 16 st (Inserting 0%Z 5%Z) 0 = true /\ touches int_hash 16 st (LookUpLocked 1%Z) 0 = false.
Proof.
  pose (st := mkState (@init Z Z) [Inserting 0%Z 5%Z; LookUpLocked 1%Z] []).
  assert (reachable int_hash (3, 4)%Z 16 2 st) as Hr.
  { eapply (run_schedule_reachable _ _ _ _ [(0, OpInsert 0%Z 5%Z); (0, OpInsert 0%Z 5%Z); (1, OpLookUp 1%Z)] (start 2)); [constructor|].
    vm_compute. reflexivity. }
  exists st. split_and!; [exact Hr|reflexivity|vm_compute; reflexivity|].
  destruct (striped_locks_exclude int_hash (3, 4)%Z 16 2 st 0 1 (Inserting 0%Z 5%Z) (LookUpLocked 1%Z)) as (_ & _ & H);
    [lia|exact Hr|reflexivity..|lia|].
  apply (H eq_refl 0%Z). vm_compute. reflexivity.
Defined.

Lemma striped_map_linearizes_witness :
  exists st, reachable int_hash (3, 4)%Z 16 1 st /\ commits st = [DidInsert 7%Z 1%Z]
    /\ LookUp_body int_hash (entries st) 7%Z = Some 1%Z.
Proof.
  destruct (run_schedule int_hash (3, 4)%Z 16 (start 1) (replicate 3 (0, OpInsert 7%Z 1%Z))) as [st|] eqn:E;
    [|vm_compute in E; discriminate].
  assert (reachable int_hash (3, 4)%Z 16 1 st) as Hr.
  { eapply run_schedule_reachable; [constructor|exact E]. }
  assert (commits st = [DidInsert 7%Z 1%Z]) as Hc by (vm_compute in E; injection E as <-; reflexivity).
  exists st. split_and!; [exact Hr|exact Hc|].
  destruct (striped_map_linearizes int_hash (3, 4)%Z 16 1 st Hr) as (_ & H & _). rewrite H, Hc. reflexivity.
Defined.
