(* ===== verification/V1References.v ===== *)
(** * References into the maps of the first server

    [LookUp] of [v1/src/server/store/StripedHashmap.h] and
    [LinkedListHashmap.h] returns a reference to the value inside the entry,
    which the caller uses after the map's lock is released
    ([RequestExecutor::Worker] hands it to [HandleConnection]).  On the map
    with pointers of V1LinkedListHashmap, whose table code is that of both
    classes, a reference is the address of the entry.

    A reference shows the current value of its key as long as no insertion
    resizes the table and the key is not removed; a resize frees every entry,
    so that afterwards no reference is valid.  [StandardMap.h] is the contrast:
    the nodes of [std::unordered_map] stay where they are, and a reference is
    valid until its key is removed. *)

From S2P Require Import Prelude MapInterface LinkedListHashmap V1LinkedListHashmap V1StripedHashmap.

#[local] Open Scope nat_scope.

(** ** References into a chained table *)

Module References.
Import V1LinkedListHashmap.
Section References.
Context {K V : Type} `{Countable K}.
Context (hash_ : K -> Z) (load_factor_ : Z * Z).

(** [std::cref(currEntry->value)] *)
Definition LookUpRef (m : map (K := K) (V := V)) (key : K) : res (option positive) :=
  if decide (entries_ m = []) then Ok None
  else
    i ← bucket hash_ m key;
    p ← at_bucket m i;
    walk_lookup (enough (cells m)) (cells m) key p.

(** [ref.get()] *)
Definition read_ref (m : map (K := K) (V := V)) (a : positive) : res V :=
  e ← deref (cells m) (Some a); Ok (value_ e).

(** The insertion resizes the table. *)
Definition resizes (m : map (K := K) (V := V)) (o : op (K := K) (V := V)) : bool :=
  match o with
  | OInsert _ _ => bool_decide (entries_ m = []) || overloaded load_factor_ m
  | ORemove _ => false
  end.

(** Neither a resize nor a removal of [key] happens along the operations. *)
Fixpoint quiet (key : K) (m : map (K := K) (V := V)) (l : list (op (K := K) (V := V))) : bool :=
  match l with
  | [] => true
  | o :: l =>
      negb (resizes m o) && match o with ORemove k => negb (bool_decide (k = key)) | _ => true end
      && match run_op hash_ load_factor_ m o with Ok m' => quiet key m' l | _ => false end
  end.

(** The entry at [a] is there and is that of [key]. *)
Definition refers (m : map (K := K) (V := V)) (a : positive) (key : K) : Prop :=
  exists e, cells m !! a = Some e /\ key_ e = key.

(** *** Lemmas: the heap *)

Lemma deref_Some (h : gmap positive (Entry (K := K) (V := V))) a e : deref h (Some a) = Ok e -> h !! a = Some e.
Proof. cbn. destruct (h !! a); [by intros [= ->]|done]. Qed.

Lemma walk_lookup_result f : forall (h : gmap positive (Entry (K := K) (V := V))) key p a,
  walk_lookup f h key p = Ok (Some a) -> exists e, h !! a = Some e /\ key_ e = key.
Proof.
  induction f as [|f IH]; intros h key [b|] a Hw; cbn [walk_lookup] in Hw; try done.
  destruct (deref h (Some b)) as [e| | |] eqn:He; try done. cbn [mbind res_bind] in Hw. case_decide as D.
  - injection Hw as <-. exists e. by apply deref_Some in He.
  - by eapply IH.
Qed.

Lemma walk_insert_result f : forall (h : gmap positive (Entry (K := K) (V := V))) key curr a e,
  walk_insert f h key curr = Ok (a, e) -> h !! a = Some e.
Proof.
  induction f as [|f IH]; intros h key curr a e Hw; cbn [walk_insert] in Hw; [done|].
  destruct (deref h (Some curr)) as [e'| | |] eqn:He; try done. cbn [mbind res_bind] in Hw. apply deref_Some in He.
  destruct (next e'); [case_decide|]; try (injection Hw as <- <-; done). by eapply IH.
Qed.

Lemma walk_remove_result f : forall (h : gmap positive (Entry (K := K) (V := V))) key curr a e,
  walk_remove f h key curr = Ok (a, e) ->
  h !! a = Some e /\ forall n, next e = Some n -> exists e', h !! n = Some e' /\ key_ e' = key.
Proof.
  induction f as [|f IH]; intros h key curr a e Hw; cbn [walk_remove] in Hw; [done|].
  destruct (deref h (Some curr)) as [e1| | |] eqn:He; try done. cbn [mbind res_bind] in Hw. apply deref_Some in He.
  destruct (next e1) as [n|] eqn:Hn; [|injection Hw as <- <-; split; [done|]; intros n; by rewrite Hn].
  destruct (deref h (Some n)) as [e2| | |] eqn:He2; try done. cbn [mbind res_bind] in Hw. case_decide as D; [|by eapply IH].
  injection Hw as <- <-. split; [done|]. intros n'. rewrite Hn. intros [= <-]. exists e2. by apply deref_Some in He2.
Qed.

Lemma refers_insert (h : gmap positive (Entry (K := K) (V := V))) a key b e0 e : h !! b = Some e0 -> key_ e = key_ e0 ->
  (exists x, h !! a = Some x /\ key_ x = key) -> exists x, <[b := e]> h !! a = Some x /\ key_ x = key.
Proof.
  intros Hb Hk (x & Hx & Hkx). destruct (decide (b = a)) as [->|Hne].
  - exists e. rewrite lookup_insert_eq. rewrite Hb in Hx. injection Hx as ->. split; [done|congruence].
  - exists x. by rewrite lookup_insert_ne.
Qed.

Lemma refers_fresh (h : gmap positive (Entry (K := K) (V := V))) a key e :
  (exists x, h !! a = Some x /\ key_ x = key) -> exists x, <[fresh (dom h) := e]> h !! a = Some x /\ key_ x = key.
Proof.
  intros (x & Hx & Hk). exists x. rewrite lookup_insert_ne; [done|]. intros E.
  apply (is_fresh (dom h)). rewrite E. by apply elem_of_dom_2 in Hx.
Qed.

Lemma refers_delete (h : gmap positive (Entry (K := K) (V := V))) a key b e0 : h !! b = Some e0 -> key_ e0 <> key ->
  (exists x, h !! a = Some x /\ key_ x = key) -> exists x, delete b h !! a = Some x /\ key_ x = key.
Proof.
  intros Hb Hk (x & Hx & Hkx). exists x. rewrite lookup_delete_ne; [done|]. intros ->. congruence.
Qed.

(** *** Lemmas: the operations *)

Lemma insert_keeps_refs m k v m' a key : InsertWithoutResize hash_ m k v = Ok m' -> refers m a key -> refers m' a key.
Proof.
  unfold InsertWithoutResize, refers. intros Hi Hr. destruct (bucket hash_ m k) as [i| | |]; try done. cbn [mbind res_bind] in Hi.
  destruct (at_bucket m i) as [[first|]| | |]; try done; cbn [mbind res_bind] in Hi.
  - destruct (walk_insert _ _ _ _) as [[curr e]| | |] eqn:Hw; try done. cbn [mbind res_bind] in Hi.
    apply walk_insert_result in Hw. case_decide.
    + injection Hi as <-. cbn [cells store]. by eapply refers_insert.
    + case_bool_decide; [|done]. injection Hi as <-. cbn [cells]. unfold store.
      eapply refers_insert with (e0 := e); [|done|by apply refers_fresh]. rewrite lookup_insert_ne; [done|].
      intros E. apply (is_fresh (dom (cells m))). rewrite E. by apply elem_of_dom_2 in Hw.
  - injection Hi as <-. cbn [cells]. by apply refers_fresh.
Qed.

Lemma remove_keeps_refs m k m' a key : Remove hash_ m k = Ok m' -> k <> key -> refers m a key -> refers m' a key.
Proof.
  unfold Remove, refers. intros Hi Hk Hr. case_decide; [by injection Hi as <-|].
  destruct (bucket hash_ m k) as [i| | |]; try done. cbn [mbind res_bind] in Hi.
  destruct (at_bucket m i) as [[first|]| | |]; try done; cbn [mbind res_bind] in Hi; [|by injection Hi as <-].
  destruct (deref (cells m) (Some first)) as [[k1 v1 n1]| | |] eqn:He; try done. cbn [mbind res_bind key_] in Hi. apply deref_Some in He.
  case_decide.
  - rewrite (unlink_spec _ _ _ _ _ He) in Hi. injection Hi as <-. cbn [cells]. eapply refers_delete; [exact He|cbn; congruence|done].
  - destruct (walk_remove _ _ _ _) as [[curr [k2 v2 n2]]| | |] eqn:Hw; try done. cbn [mbind res_bind next] in Hi.
    apply walk_remove_result in Hw as [Hc Hn]. cbn [next] in Hn. destruct n2 as [n|]; [|by injection Hi as <-].
    destruct (Hn n eq_refl) as ([k3 v3 n3] & Hn3 & Hk3). cbn in Hk3. subst k3. rewrite (unlink_spec _ _ _ _ _ Hn3) in Hi.
    injection Hi as <-. cbn [cells key_ value_]. unfold store. destruct (decide (curr = n)) as [->|Hcn].
    { destruct Hr as (x & Hx & Hkx). exists x. rewrite insert_delete_eq, lookup_insert_ne; [done|]. intros ->.
      rewrite Hx in Hn3. injection Hn3 as ->. cbn in Hkx. congruence. }
    eapply refers_insert with (e0 := mkEntry k2 v2 (Some n)); [by rewrite lookup_delete_ne|done|].
    eapply refers_delete; [exact Hn3|done|done].
Qed.

Lemma quiet_keeps_refs l : forall m m' a key, quiet key m l = true -> run_ops hash_ load_factor_ m l = Ok m' ->
  refers m a key -> refers m' a key.
Proof.
  induction l as [|o l IH]; intros m m' a key Hq Hr Hf; cbn [quiet run_ops] in *; [by injection Hr as <-|].
  apply andb_prop in Hq as [[Hres Hk]%andb_prop Hq]. destruct (run_op hash_ load_factor_ m o) as [m1| | |] eqn:Ho; try done.
  cbn [mbind res_bind] in Hr. eapply IH; [exact Hq|exact Hr|]. destruct o as [k v|k]; cbn [run_op resizes] in *.
  - unfold Insert in Ho. apply negb_true_iff in Hres. rewrite Hres in Ho. by eapply insert_keeps_refs.
  - apply negb_true_iff, bool_decide_eq_false in Hk. by eapply remove_keeps_refs.
Qed.

(** A live reference shows the value of its key. *)
Lemma segment_entry (h : gmap positive (Entry (K := K) (V := V))) as_ : forall p (l : list (K * V)) a e, segment h p as_ l -> a ∈ as_ -> h !! a = Some e ->
  (key_ e, value_ e) ∈ l.
Proof.
  induction as_ as [|b as_ IH]; intros p [|[k v] l] a e Hs Ha He; cbn in Hs; try done; [by apply not_elem_of_nil in Ha|].
  destruct Hs as (_ & n & Hb & Hs). apply elem_of_cons in Ha as [->|Ha].
  - rewrite Hb in He. injection He as <-. left.
  - right. by eapply IH.
Qed.

Lemma owned_entry (m : map (K := K) (V := V)) As L a e : owns m As L -> cells m !! a = Some e -> (key_ e, value_ e) ∈ concat L.
Proof.
  intros Ho Ha. assert (a ∈ concat As) as Hin.
  { apply elem_of_dom_2 in Ha. by rewrite (own_all _ _ _ Ho), elem_of_list_to_set in Ha. }
  apply list_elem_of_In, in_concat in Hin as (as_ & Has & Hin). apply list_elem_of_In, list_elem_of_lookup in Has as (i & Hi).
  destruct (lookup_lt_is_Some_2 (entries_ m) i) as [p Hp]; [rewrite <- (own_buckets _ _ _ Ho); by eapply lookup_lt_Some|].
  destruct (own_chains _ _ _ Ho i p Hp) as (as2 & l & Has2 & Hl & Hs). rewrite Hi in Has2. injection Has2 as <-.
  apply list_elem_of_In, in_concat. exists l. split; [apply list_elem_of_In; by eapply list_elem_of_lookup_2|].
  apply list_elem_of_In. eapply segment_entry; [exact Hs|by apply list_elem_of_In|exact Ha].
Qed.

Lemma refers_current (m : map (K := K) (V := V)) c a key : stands_for m c -> LinkedListHashmap.inv hash_ c -> refers m a key ->
  exists v, read_ref m a = Ok v /\ LookUp hash_ m key = Ok (Some v).
Proof.
  intros Hst Hi (e & He & <-). pose proof Hst as (As & Ho & _). exists (value_ e). unfold read_ref. cbn [deref]. rewrite He.
  split; [done|]. rewrite (LookUp_refines hash_ m c _ Hst), (LinkedListHashmap.LookUp_spec hash_ c _ Hi). f_equal.
  unfold LinkedListHashmap.abs. apply elem_of_list_to_map_1; [by apply LinkedListHashmap.NoDup_keys with (1 := Hi)|].
  by eapply owned_entry.
Qed.

Lemma lookup_ref_refers m key a : LookUpRef m key = Ok (Some a) -> refers m a key.
Proof.
  unfold LookUpRef. case_decide; [done|]. destruct (bucket hash_ m key) as [i| | |]; try done. cbn [mbind res_bind].
  destruct (at_bucket m i) as [p| | |]; try done. cbn [mbind res_bind]. apply walk_lookup_result.
Qed.

End References.

(** ** Theorem *)

(** C23. How long a reference is valid.  Take a table after any operations and
    the reference [LookUp] returns for a key.  Reading it gives the value of
    the key; it still does, and gives the value the key has then, after any
    further operations among which no insertion resizes the table and none
    removes the key; and when the table is resized, every entry is freed
    before the new table is filled, so reading the reference in between, which
    another thread that still holds it can do, is undefined behaviour. *)
Theorem reference_valid_until_resize {K V} `{Countable K} (hash_ : K -> Z) (load_factor_ : Z * Z)
    (before : list (op (K := K) (V := V))) m key a :
  run_ops hash_ load_factor_ init before = Ok m -> LookUpRef hash_ m key = Ok (Some a) ->
  (forall l m', quiet hash_ load_factor_ key m l = true -> run_ops hash_ load_factor_ m l = Ok m' ->
     exists v, read_ref m' a = Ok v /\ LookUp hash_ m' key = Ok (Some v))
  /\ exists flat h, read_buckets (cells m) (entries_ m) = Ok flat
       /\ destroy_all (cells m) (entries_ m) = Ok h
       /\ Resize hash_ m = insert_all hash_ (mkMap h 0 (replicate (Nat.max 2 (size_ m * 2)) None)) flat
       /\ forall b, read_ref (mkMap h 0 (replicate (Nat.max 2 (size_ m * 2)) None)) b = Undef "dangling pointer".
Proof.
  intros Hb Hl. destruct (LinkedListHashmap.replicate_inv (V := V) hash_ kDefaultCapacity) as [I0 A0]; [unfold kDefaultCapacity; lia|].
  destruct (run_ops_refines hash_ load_factor_ before init _ ∅ (new_table_stands _) I0 A0) as (m0 & E0 & Hst & Hi & _).
  rewrite Hb in E0. injection E0 as <-. split.
  - intros l m' Hq Hr. destruct (run_ops_refines hash_ load_factor_ l m _ _ Hst Hi eq_refl) as (m1 & E1 & Hst1 & Hi1 & _).
    rewrite Hr in E1. injection E1 as <-. eapply refers_current; [exact Hst1|exact Hi1|].
    eapply quiet_keeps_refs; [exact Hq|exact Hr|by eapply lookup_ref_refers].
  - destruct Hst as (As & Ho & _). pose proof (owns_segments _ _ _ Ho) as Hs.
    destruct (destroy_all_spec load_factor_ _ _ _ _ Hs (own_disjoint _ _ _ Ho)) as (h & Hd & Hh).
    eexists _, h. split; [by apply (read_buckets_spec _ _ _ _ Hs), Ho|]. split; [exact Hd|]. split.
    + unfold Resize. rewrite (read_buckets_spec _ _ _ _ Hs) by apply Ho. cbn [mbind res_bind]. by rewrite Hd.
    + intros b. unfold read_ref. cbn [deref cells]. rewrite Hh. case_decide as D; [done|].
      destruct (cells m !! b) eqn:E; [|done]. apply elem_of_dom_2 in E.
      by rewrite (own_all _ _ _ Ho), elem_of_list_to_set in E.
Qed.

End References.

(** ** The executor's map *)

(** [DEFAULT_LOAD_FACTOR] *)
Definition three_quarters : Z * Z := (3, 4)%Z.

(** The connections of [n] clients, descriptors from 5 on; a value is the
    address of the [ClientConnection]. *)
Definition connect_clients (n : nat) : list (V1LinkedListHashmap.op (K := Z) (V := positive)) :=
  (fun i => V1LinkedListHashmap.OInsert (Z.of_nat (5 + i)) (Pos.of_succ_nat i)) <$> seq 0 n.

(** Whether the reference to the first client is dangling once the table is
    resized for another. *)
Definition dangles (r : res (V1LinkedListHashmap.map (K := Z) (V := positive))) : bool :=
  match r with
  | Ok m =>
      match References.LookUpRef int_hash m 5%Z with
      | Ok (Some a) =>
          References.resizes three_quarters m (V1LinkedListHashmap.OInsert 18%Z 14%positive)
          && match V1LinkedListHashmap.destroy_all (V1LinkedListHashmap.cells m) (V1LinkedListHashmap.entries_ m) with
             | Ok h => match h !! a with None => true | Some _ => false end
             | _ => false
             end
      | _ => false
      end
  | _ => false
  end.

(** With 13 clients known, a worker looks up the first and is about to use its
    connection; the connection of a 14th client is inserted by another worker.
    The table is resized, and before it is filled again the reference the
    first worker holds is dangling. *)
Theorem executor_reference_dangles :
  exists m a h, V1LinkedListHashmap.run_ops int_hash three_quarters V1LinkedListHashmap.init (connect_clients 13) = Ok m
  /\ References.LookUpRef int_hash m 5%Z = Ok (Some a)
  /\ References.resizes three_quarters m (V1LinkedListHashmap.OInsert 18%Z 14%positive) = true
  /\ V1LinkedListHashmap.destroy_all (V1LinkedListHashmap.cells m) (V1LinkedListHashmap.entries_ m) = Ok h
  /\ V1LinkedListHashmap.deref h (Some a) = Undef "dangling pointer".
Proof.
  assert (dangles (V1LinkedListHashmap.run_ops int_hash three_quarters V1LinkedListHashmap.init (connect_clients 13)) = true) as H
    by (vm_compute; reflexivity).
  revert H. generalize (V1LinkedListHashmap.run_ops int_hash three_quarters V1LinkedListHashmap.init (connect_clients 13)).
  unfold dangles. intros r Hd. destruct r as [m| | |]; try done.
  destruct (References.LookUpRef int_hash m 5%Z) as [[a|]| | |] eqn:El; try done. apply andb_prop in Hd as [Hr Hd].
  destruct (V1LinkedListHashmap.destroy_all (V1LinkedListHashmap.cells m) (V1LinkedListHashmap.entries_ m)) as [h| | |] eqn:E; try done.
  exists m, a, h. split_and!; try done. cbn. by destruct (h !! a).
Qed.

(** ** [StandardMap.h] *)

Module StandardNodes.
Section StandardNodes.
Context {K V : Type} `{Countable K} `{Inhabited V}.

(** [std::unordered_map]: each element is a node of its own, which rehashing
    does not move. *)
Record unordered_map := mkNodes {
  nodes : gmap K positive;
  elements : gmap positive V
}.

Definition init : unordered_map := mkNodes ∅ ∅.

(** [find], as the reference to the element's value. *)
Definition LookUp (data_ : unordered_map) (key : K) : option positive := nodes data_ !! key.

(** [data_[key]]: a key that is absent is inserted with a value-initialised
    value first. *)
Definition subscript (data_ : unordered_map) (key : K) : positive * unordered_map :=
  match nodes data_ !! key with
  | Some a => (a, data_)
  | None =>
      let a := fresh (dom (elements data_)) in
      (a, mkNodes (<[key := a]> (nodes data_)) (<[a := inhabitant]> (elements data_)))
  end.

Definition Insert (data_ : unordered_map) (key : K) (value : V) : unordered_map :=
  let '(a, data_) := subscript data_ key in
  mkNodes (nodes data_) (<[a := value]> (elements data_)).

(** [erase] *)
Definition Remove (data_ : unordered_map) (key : K) : unordered_map :=
  match nodes data_ !! key with
  | Some a => mkNodes (delete key (nodes data_)) (delete a (elements data_))
  | None => data_
  end.

(** The elements given to [action], in the order [order] of the container. *)
Definition ForEach (order : list (K * positive) -> list (K * positive)) (data_ : unordered_map) : list (K * V) :=
  omap (fun '(key, a) => pair key <$> elements data_ !! a) (order (map_to_list (nodes data_))).

Definition run_op (m : unordered_map) (o : V1LinkedListHashmap.op (K := K) (V := V)) : unordered_map :=
  match o with
  | V1LinkedListHashmap.OInsert key value => Insert m key value
  | V1LinkedListHashmap.ORemove key => Remove m key
  end.

Definition finite_op (f : gmap K V) (o : V1LinkedListHashmap.op (K := K) (V := V)) : gmap K V :=
  match o with
  | V1LinkedListHashmap.OInsert key value => <[key := value]> f
  | V1LinkedListHashmap.ORemove key => delete key f
  end.

(** Every node belongs to one key and holds its value; nothing else is
    allocated. *)
Record stands_for (m : unordered_map) (f : gmap K V) : Prop := {
  node_values : forall key, (nodes m !! key ≫= fun a => elements m !! a) = f !! key;
  node_alive : forall key a, nodes m !! key = Some a -> is_Some (elements m !! a);
  node_unique : forall k1 k2 a, nodes m !! k1 = Some a -> nodes m !! k2 = Some a -> k1 = k2;
  node_owned : forall a, is_Some (elements m !! a) -> exists key, nodes m !! key = Some a
}.

Lemma node_fresh m f key : stands_for m f -> nodes m !! key <> Some (fresh (dom (elements m))).
Proof.
  intros Hs E. destruct (node_alive _ _ Hs _ _ E) as [v Hv]. apply elem_of_dom_2 in Hv. by apply is_fresh in Hv.
Qed.

Lemma insert_node_stands m f key value : stands_for m f -> stands_for (Insert m key value) (<[key := value]> f).
Proof.
  intros Hs. pose proof Hs as [H1 H2 H3 H4]. unfold Insert, subscript. destruct (nodes m !! key) as [a|] eqn:Ha.
  - split; cbn; [| |done|].
    + intros k. destruct (decide (k = key)) as [->|Hk].
      * rewrite Ha, lookup_insert_eq. cbn. by rewrite lookup_insert_eq.
      * rewrite lookup_insert_ne by done. rewrite <- H1. destruct (nodes m !! k) as [b|] eqn:Hb; cbn; [|done].
        rewrite lookup_insert_ne; [done|]. intros ->. eauto.
    + intros k b Hb. destruct (decide (b = a)) as [->|]; [rewrite lookup_insert_eq; by eexists|]. rewrite lookup_insert_ne by done. eauto.
    + intros b Hb. destruct (decide (b = a)) as [->|]; [by exists key|]. rewrite lookup_insert_ne in Hb by done. eauto.
  - set (a := fresh (dom (elements m))) in *. pose proof (fun k => node_fresh m f k Hs) as Hf. fold a in Hf.
    cbn [nodes elements]. rewrite insert_insert_eq. split; cbn.
    + intros k. destruct (decide (k = key)) as [->|Hk]; [by rewrite !lookup_insert_eq; cbn; rewrite lookup_insert_eq|].
      rewrite !lookup_insert_ne by done. rewrite <- H1. destruct (nodes m !! k) as [b|] eqn:Hb; cbn; [|done].
      rewrite lookup_insert_ne; [done|]. intros ->. by apply (Hf k).
    + intros k b Hb. destruct (decide (b = a)) as [->|]; [rewrite lookup_insert_eq; by eexists|]. rewrite lookup_insert_ne by done.
      apply lookup_insert_Some in Hb as [[_ <-]|[_ Hb]]; [done|]. eauto.
    + intros k1 k2 b. rewrite !lookup_insert_Some. intros [[<- <-]|[N1 E1]] [[<- E2]|[N2 E2]]; try done; [| |by eauto];
        subst; exfalso; by eapply Hf.
    + intros b Hb. destruct (decide (b = a)) as [->|]; [exists key; by rewrite lookup_insert_eq|].
      rewrite lookup_insert_ne in Hb by done. destruct (H4 b Hb) as [k Hk]. exists k. rewrite lookup_insert_ne; [done|]. congruence.
Qed.

Lemma remove_node_stands m f key : stands_for m f -> stands_for (Remove m key) (delete key f).
Proof.
  intros Hs. pose proof Hs as [H1 H2 H3 H4]. unfold Remove. destruct (nodes m !! key) as [a|] eqn:Ha.
  - assert (forall k b, delete key (nodes m) !! k = Some b -> b <> a /\ nodes m !! k = Some b) as Hd.
    { intros k b. rewrite lookup_delete_Some. intros [Hne Hb]. split; [|done]. intros ->. apply Hne. eauto. }
    split; cbn.
    + intros k. destruct (decide (k = key)) as [->|Hk]; [by rewrite !lookup_delete_eq|].
      rewrite (lookup_delete_ne f) by done. rewrite <- H1. rewrite lookup_delete_ne by done.
      destruct (nodes m !! k) as [b|] eqn:Hb; cbn; [|done]. rewrite lookup_delete_ne; [done|]. intros ->. eauto.
    + intros k b [Hne Hb]%Hd. rewrite lookup_delete_ne by done. eauto.
    + intros k1 k2 b [_ ?]%Hd [_ ?]%Hd. eauto.
    + intros b [v Hb]. apply lookup_delete_Some in Hb as [Hne Hb]. destruct (H4 b) as [k Hk]; [by eexists|].
      exists k. rewrite lookup_delete_ne; [done|]. congruence.
  - assert (f !! key = None) as Hn by (by rewrite <- H1, Ha). by rewrite delete_id.
Qed.

Lemma run_nodes_stands l : forall m f, stands_for m f -> stands_for (fold_left run_op l m) (fold_left finite_op l f).
Proof.
  induction l as [|[k v|k] l IH]; intros m f Hs; [done| |]; apply IH; [by apply insert_node_stands|by apply remove_node_stands].
Qed.

Lemma visit_nodes_stands order m f : (forall l, order l ≡ₚ l) -> stands_for m f -> ForEach order m ≡ₚ map_to_list f.
Proof.
  intros Hord Hs. assert (f = (fun a => default inhabitant (elements m !! a)) <$> nodes m) as ->.
  { apply map_eq. intros k. rewrite <- (node_values _ _ Hs), lookup_fmap. destruct (nodes m !! k) as [a|] eqn:Ha; cbn; [|done].
    by destruct (node_alive _ _ Hs _ _ Ha) as [v ->]. }
  rewrite map_to_list_fmap. unfold ForEach. rewrite Hord. clear Hord.
  assert (Forall (fun '(k, a) => is_Some (elements m !! a)) (map_to_list (nodes m))) as Hall.
  { apply Forall_forall. intros [k a] Ha%elem_of_map_to_list. by eapply node_alive. }
  induction Hall as [|[k a] l [v Hv] _ IH]; cbn; [done|]. rewrite Hv. cbn. by rewrite IH.
Qed.

Lemma reference_stays l : forall m key a, Forall (fun o => o <> V1LinkedListHashmap.ORemove key) l ->
  LookUp m key = Some a -> LookUp (fold_left run_op l m) key = Some a.
Proof.
  induction l as [|o l IH]; intros m key a Hl Ha; [done|]. apply Forall_cons in Hl as [Ho Hl]. apply IH; [done|].
  unfold LookUp in *. destruct o as [k v|k]; cbn [run_op].
  - unfold Insert, subscript. destruct (nodes m !! k) eqn:Hk; [done|]. cbn. rewrite lookup_insert_ne; [done|]. congruence.
  - unfold Remove. destruct (nodes m !! k) eqn:Hk; [|done]. cbn. rewrite lookup_delete_ne; [done|]. congruence.
Qed.

End StandardNodes.

(** The standard map is a finite map whose references outlive every
    operation but the removal of their key: after any operations, [LookUp]
    refers to the value of the key; the reference is the same one, and so
    valid and current, after any further operations that do not remove the
    key; and [ForEach] visits every element once, whatever the order of the
    container. *)
Theorem standard_references_last {K V} `{Countable K} `{Inhabited V} (before after : list (V1LinkedListHashmap.op (K := K) (V := V)))
    (order : list (K * positive) -> list (K * positive)) key a :
  (forall l, order l ≡ₚ l) -> Forall (fun o => o <> V1LinkedListHashmap.ORemove key) after ->
  let m := fold_left run_op before init in
  let m' := fold_left run_op after m in
  LookUp m key = Some a ->
  LookUp m' key = Some a
  /\ elements m' !! a = fold_left finite_op (before ++ after) ∅ !! key
  /\ is_Some (elements m' !! a)
  /\ ForEach order m' ≡ₚ map_to_list (fold_left finite_op (before ++ after) ∅).
Proof.
  intros Hord Hafter m m' Ha. assert (LookUp m' key = Some a) as Ha' by (by apply reference_stays).
  assert (stands_for m' (fold_left finite_op (before ++ after) ∅)) as Hs.
  { rewrite fold_left_app. apply run_nodes_stands, run_nodes_stands. split; cbn; try done. intros b Hb. by apply is_Some_None in Hb. }
  split_and!; [done| | |].
  - rewrite <- (node_values _ _ Hs). unfold LookUp in Ha'. by rewrite Ha'.
  - by eapply node_alive.
  - by apply visit_nodes_stands.
Qed.

End StandardNodes.

(** *** Witness *)

Definition next_clients : list (V1LinkedListHashmap.op (K := Z) (V := positive)) :=
  [V1LinkedListHashmap.OInsert 21%Z 7%positive; V1LinkedListHashmap.OInsert 5%Z 8%positive].

Definition still_refers (r : res (V1LinkedListHashmap.map (K := Z) (V := positive))) : bool :=
  match r with
  | Ok m =>
      match References.LookUpRef int_hash m 5%Z, V1LinkedListHashmap.run_ops int_hash three_quarters m next_clients with
      | Ok (Some _), Ok _ => References.quiet int_hash three_quarters 5%Z m next_clients
      | _, _ => false
      end
  | _ => false
  end.

(** Another client is inserted and the connection of the first is replaced:
    the reference shows the new one. *)
Lemma reference_valid_until_resize_witness :
  exists m a m', V1LinkedListHashmap.run_ops int_hash three_quarters V1LinkedListHashmap.init (connect_clients 2) = Ok m
  /\ References.LookUpRef int_hash m 5%Z = Ok (Some a)
  /\ V1LinkedListHashmap.run_ops int_hash three_quarters m next_clients = Ok m'
  /\ exists v, References.read_ref m' a = Ok v /\ V1LinkedListHashmap.LookUp int_hash m' 5%Z = Ok (Some v).
Proof.
  assert (still_refers (V1LinkedListHashmap.run_ops int_hash three_quarters V1LinkedListHashmap.init (connect_clients 2)) = true) as H
    by (vm_compute; reflexivity).
  destruct (V1LinkedListHashmap.run_ops int_hash three_quarters V1LinkedListHashmap.init (connect_clients 2)) as [m| | |] eqn:E;
    try discriminate H.
  unfold still_refers in H. destruct (References.LookUpRef int_hash m 5%Z) as [[a|]| | |] eqn:El; try discriminate H.
  destruct (V1LinkedListHashmap.run_ops int_hash three_quarters m next_clients) as [m'| | |] eqn:E'; try discriminate H.
  exists m, a, m'. split; [reflexivity|]. split; [exact El|]. split; [exact E'|].
  exact (proj1 (References.reference_valid_until_resize int_hash three_quarters (connect_clients 2) m 5%Z a E El) next_clients m' H E').
Defined.
