(* ===== verification/V1CoarseMap.v ===== *)
(** * The coarse-grained wrapper: [v1/src/server/store/CoarseGrainConcurrentMapWrapper.h]

    A map of any kind with one mutex around every call.  The map inside is
    given by its interface: [MapOps] are its operations and [MapSpec] what they
    promise.  Threads call, wait for the mutex, run the operation inside and
    give the mutex up when they return; a state keeps the trace of calls,
    effects and returns.

    Theorem: the wrapper is linearizable, each call taking effect at one moment
    between its beginning and its end, whatever the map inside, and it never
    blocks for good. *)

From S2P Require Import Prelude MapInterface.

Section Wrapper.
Context {K V M : Type} `{Countable K} {ops : MapOps K V M}.

(** ** The code *)

Inductive call :=
| CallLookUp (key : K)
| CallInsert (key : K) (value : V)
| CallRemove (key : K)
| CallForEach.

Inductive answer :=
| Found (value : option V)
| Finished
| Visited (pairs : list (K * V)).

(** The statement after the [lock_guard] of each member. *)
Definition forwarded (underlying_map_ : M) (c : call) : M * answer :=
  match c with
  | CallLookUp key => (underlying_map_, Found (LookUp underlying_map_ key))
  | CallInsert key value => (Insert underlying_map_ key value, Finished)
  | CallRemove key => (Remove underlying_map_ key, Finished)
  | CallForEach => (underlying_map_, Visited (ForEach underlying_map_))
  end.

Inductive place :=
| Outside
| AtLock (c : call)        (* before lock_guard lock(mutex_) *)
| Inside (c : call)        (* the mutex is held *)
| Leaving (r : answer).    (* the result is ready, the mutex still held *)

Inductive event :=
| Called (t : nat) (c : call)
| TookEffect (t : nat) (c : call) (r : answer)
| Answered (t : nat) (r : answer).

Record wrapper := mkWrapper {
  underlying_map_ : M;
  mutex_ : option nat;  (** the thread that holds it *)
  places : list place;
  trace : list event  (** oldest first *)
}.

Definition wrap (map : M) (num_threads : nat) : wrapper := mkWrapper map None (replicate num_threads Outside) [].

(** One step of thread [t]; a thread outside calls [c]. *)
Definition wrapper_step (s : wrapper) (t : nat) (c : call) : option wrapper :=
  match places s !! t with
  | None => None
  | Some Outside =>
      Some (mkWrapper (underlying_map_ s) (mutex_ s) (<[t := AtLock c]> (places s)) (trace s ++ [Called t c]))
  | Some (AtLock c) =>
      match mutex_ s with
      | None => Some (mkWrapper (underlying_map_ s) (Some t) (<[t := Inside c]> (places s)) (trace s))
      | Some _ => None
      end
  | Some (Inside c) =>
      let '(m, r) := forwarded (underlying_map_ s) c in
      Some (mkWrapper m (mutex_ s) (<[t := Leaving r]> (places s)) (trace s ++ [TookEffect t c r]))
  | Some (Leaving r) =>
      Some (mkWrapper (underlying_map_ s) None (<[t := Outside]> (places s)) (trace s ++ [Answered t r]))
  end.

Fixpoint wrapper_run (s : wrapper) (l : list (nat * call)) : option wrapper :=
  match l with
  | [] => Some s
  | (t, c) :: l => s ← wrapper_step s t c; wrapper_run s l
  end.

(** ** What linearizable means *)

(** A call with its answer explains a step of the finite map. *)
Definition explains (a : gmap K V) (c : call) (r : answer) (a' : gmap K V) : Prop :=
  match c with
  | CallLookUp key => r = Found (a !! key) /\ a' = a
  | CallInsert key value => r = Finished /\ a' = <[key := value]> a
  | CallRemove key => r = Finished /\ a' = delete key a
  | CallForEach => (exists pairs, r = Visited pairs /\ pairs ≡ₚ map_to_list a) /\ a' = a
  end.

(** The effects of a trace, one after the other, lead from [a] to [a']. *)
Inductive sequential : gmap K V -> list event -> gmap K V -> Prop :=
| sequential_nil a : sequential a [] a
| sequential_effect a t c r a' l a'' :
    explains a c r a' -> sequential a' l a'' -> sequential a (TookEffect t c r :: l) a''
| sequential_called a t c l a' : sequential a l a' -> sequential a (Called t c :: l) a'
| sequential_answered a t r l a' : sequential a l a' -> sequential a (Answered t r :: l) a'.

(** Where a thread is, as its own events tell it. *)
Inductive phase := Free | Pending (c : call) | Ready (r : answer).

(** The events of thread [t] come in rounds of a call, its effect, and the
    return of the answer of that effect. *)
Inductive rounds (t : nat) : list event -> phase -> Prop :=
| rounds_nil : rounds t [] Free
| rounds_called l c : rounds t l Free -> rounds t (l ++ [Called t c]) (Pending c)
| rounds_effect l c r : rounds t l (Pending c) -> rounds t (l ++ [TookEffect t c r]) (Ready r)
| rounds_answered l r : rounds t l (Ready r) -> rounds t (l ++ [Answered t r]) Free
| rounds_other l e p : rounds t l p ->
    match e with Called u _ | TookEffect u _ _ | Answered u _ => u <> t end -> rounds t (l ++ [e]) p.

Definition phase_of (p : place) : phase :=
  match p with Outside => Free | AtLock c | Inside c => Pending c | Leaving r => Ready r end.

Definition holds_mutex (p : place) : bool := match p with Inside _ | Leaving _ => true | _ => false end.

(** ** The invariant *)

Context {spec : MapSpec K V M}.

Record wrapper_ok (a : gmap K V) (s : wrapper) : Prop := {
  ok_map : map_inv (underlying_map_ s);
  ok_effects : sequential a (trace s) (map_abs (underlying_map_ s));
  ok_mutex : forall t p, places s !! t = Some p -> holds_mutex p = true <-> mutex_ s = Some t;
  ok_holder : forall t, mutex_ s = Some t -> (t < length (places s))%nat;
  ok_rounds : forall t p, places s !! t = Some p -> rounds t (trace s) (phase_of p)
}.

Lemma sequential_snoc a l a' e a'' : sequential a l a' -> sequential a' [e] a'' -> sequential a (l ++ [e]) a''.
Proof. induction 1; intros He; cbn [app]; [done|econstructor; eauto..]. Qed.

Lemma forwarded_explained m c : map_inv m ->
  map_inv (fst (forwarded m c)) /\ explains (map_abs m) c (snd (forwarded m c)) (map_abs (fst (forwarded m c))).
Proof.
  intros Hm. destruct c as [key|key value|key|]; cbn.
  - by rewrite LookUp_abs.
  - split; [by apply Insert_inv|]. by rewrite Insert_abs.
  - split; [by apply Remove_inv|]. by rewrite Remove_abs.
  - split; [done|]. split; [|done]. eexists. split; [done|]. by apply ForEach_abs.
Qed.

(** A step of thread [t] adds one of its events or none. *)
Lemma rounds_kept s t p' l : (forall u p, places s !! u = Some p -> rounds u (trace s) (phase_of p)) ->
  rounds t l (phase_of p') ->
  (l = trace s \/ exists e, l = trace s ++ [e] /\ match e with Called u _ | TookEffect u _ _ | Answered u _ => u = t end) ->
  forall u p, <[t := p']> (places s) !! u = Some p -> rounds u l (phase_of p).
Proof.
  intros Ho Ht Hl u p Hu. apply list_lookup_insert_Some in Hu as [(<- & <- & _)|[Hne Hu]]; [done|].
  destruct Hl as [->|(e & -> & He)]; [by apply Ho|]. apply rounds_other; [by apply Ho|].
  destruct e; cbn in He; congruence.
Qed.

(** The holder changes with the places. *)
Lemma mutex_kept s t p p' h : (forall u q, places s !! u = Some q -> holds_mutex q = true <-> mutex_ s = Some u) ->
  places s !! t = Some p -> (holds_mutex p' = true <-> h = Some t) ->
  (forall u, u <> t -> h = Some u <-> mutex_ s = Some u) ->
  forall u q, <[t := p']> (places s) !! u = Some q -> holds_mutex q = true <-> h = Some u.
Proof.
  intros Ho Ht Hp' Hh u q Hu. apply list_lookup_insert_Some in Hu as [(<- & <- & _)|[Hne Hu]]; [done|].
  rewrite Hh by done. by apply Ho.
Qed.

Lemma wrapper_step_ok a s t c s' : wrapper_ok a s -> wrapper_step s t c = Some s' -> wrapper_ok a s'.
Proof.
  intros [Hm He Hx Hh Hr] Hs. unfold wrapper_step in Hs. destruct (places s !! t) as [p|] eqn:Ht; [|done].
  pose proof (Hr t p Ht) as Hrt. pose proof (Hx t p Ht) as Hxt. pose proof (lookup_lt_Some _ _ _ Ht) as Hlt.
  destruct p as [|c'|c'|r]; cbn [phase_of holds_mutex] in *.
  - injection Hs as <-. split; cbn [underlying_map_ mutex_ places trace]; [done| | | |].
    + eapply sequential_snoc; [done|]. constructor. constructor.
    + by eapply mutex_kept; eauto.
    + intros u Hu. rewrite length_insert. by apply Hh.
    + eapply rounds_kept; [done| |right; by eexists]. by apply rounds_called.
  - assert (mutex_ s = None) as Eh by (by destruct (mutex_ s)). rewrite Eh in Hs. injection Hs as <-.
    split; cbn [underlying_map_ mutex_ places trace]; [done|done| | |].
    + eapply mutex_kept; [done|done|done|]. intros u Hu. rewrite Eh. split; [intros [= ->]; done|done].
    + intros u [= <-]. by rewrite length_insert.
    + eapply rounds_kept; [done|done|by left].
  - destruct (forwarded (underlying_map_ s) c') as [m r] eqn:Ef. injection Hs as <-.
    destruct (forwarded_explained (underlying_map_ s) c' Hm) as [Hm' Hex]. rewrite Ef in Hm', Hex. cbn [fst snd] in *.
    split; cbn [underlying_map_ mutex_ places trace]; [done| | | |].
    + eapply sequential_snoc; [done|]. econstructor; [done|constructor].
    + by eapply mutex_kept; eauto.
    + intros u Hu. rewrite length_insert. by apply Hh.
    + eapply rounds_kept; [done| |right; by eexists]. by apply rounds_effect.
  - injection Hs as <-. split; cbn [underlying_map_ mutex_ places trace]; [done| | | |].
    + eapply sequential_snoc; [done|]. constructor. constructor.
    + eapply mutex_kept; [done|done|done|]. intros u Hu. rewrite (proj1 Hxt eq_refl). split; [done|]. intros [= ->]; done.
    + done.
    + eapply rounds_kept; [done| |right; by eexists]. by apply rounds_answered.
Qed.

Lemma wrap_ok m n : map_inv m -> wrapper_ok (map_abs m) (wrap m n).
Proof.
  intros Hm. split; cbn [wrap underlying_map_ mutex_ places trace]; [done|constructor| |done|];
    intros t p [-> _]%lookup_replicate; [done|constructor].
Qed.

Lemma wrapper_run_ok a l : forall s s', wrapper_ok a s -> wrapper_run s l = Some s' -> wrapper_ok a s'.
Proof.
  induction l as [|[t c] l IH]; intros s s' Hs Hr; cbn [wrapper_run] in Hr; [by injection Hr as <-|].
  apply bind_Some in Hr as (s1 & H1 & Hr). eapply IH; [|done]. by eapply wrapper_step_ok.
Qed.

(** Somebody can go on: the holder of the mutex, or else anyone who waits. *)
Lemma wrapper_goes_on a s t p : wrapper_ok a s -> places s !! t = Some p -> p <> Outside ->
  exists u q, places s !! u = Some q /\ q <> Outside /\ forall c, is_Some (wrapper_step s u c).
Proof.
  intros [_ _ Hx Hh _] Ht Hp. destruct (mutex_ s) as [h|] eqn:Eh.
  - destruct (lookup_lt_is_Some_2 (places s) h (Hh h eq_refl)) as [q Hq]. exists h, q.
    pose proof (proj2 (Hx h q Hq) eq_refl) as Hq'. split_and!; [done|by intros ->|]. intros c. unfold wrapper_step. rewrite Hq.
    destruct q as [| |c'|r]; try done. by destruct (forwarded _ c').
  - exists t, p. split_and!; [done|done|]. intros c. unfold wrapper_step. rewrite Ht, Eh.
    destruct p as [|c'|c'|r]; try done. by destruct (forwarded _ c').
Qed.

(** ** Theorem *)

(** One mutex makes any map linearizable: after any interleaving of any
    number of threads, the effects, in the order they took place, are those of
    the finite map, answers included; every thread's events are rounds of a
    call, the effect of that call, and the return of the answer it gave, so
    that a call that returned before another began took effect before it; one
    thread at most is inside; and while any call is unfinished some thread can
    take a step of it. *)
Theorem coarse_map_linearizes (m : M) n l s :
  map_inv m -> wrapper_run (wrap m n) l = Some s ->
  sequential (map_abs m) (trace s) (map_abs (underlying_map_ s))
  /\ (forall t p, places s !! t = Some p -> rounds t (trace s) (phase_of p))
  /\ (forall t u p q, places s !! t = Some p -> places s !! u = Some q ->
        holds_mutex p = true -> holds_mutex q = true -> t = u)
  /\ forall t p, places s !! t = Some p -> p <> Outside ->
       exists u q, places s !! u = Some q /\ q <> Outside /\ forall c, is_Some (wrapper_step s u c).
Proof.
  intros Hm Hr. pose proof (wrapper_run_ok _ l _ _ (wrap_ok m n Hm) Hr) as Hok.
  split_and!; [apply Hok|apply Hok| |intros t p; by apply (wrapper_goes_on (map_abs m))].
  intros t u p q Ht Hu Hp Hq. pose proof (proj1 (ok_mutex _ _ Hok t p Ht) Hp) as E.
  pose proof (proj1 (ok_mutex _ _ Hok u q Hu) Hq). congruence.
Qed.

End Wrapper.

#[local] Instance table_ops : MapOps bytes Z (gmap bytes Z) := StandardMap.ops map_to_list.
#[local] Instance table_spec : MapSpec bytes Z (gmap bytes Z) :=
  StandardMap.spec map_to_list (fun m => reflexivity (map_to_list m)).

(** Thread 1 calls while thread 0 is inside, waits, and finds what thread 0
    inserted. *)
#[local] Abbreviation contended :=
  (wrapper_run (wrap (∅ : gmap bytes Z) 2)
     [(0, CallInsert (lit "k") 1%Z); (0, CallForEach); (1, CallLookUp (lit "k")); (0, CallForEach); (0, CallForEach);
      (1, CallForEach); (1, CallForEach)]%nat).

Lemma coarse_map_linearizes_witness :
  exists s, contended = Some s /\ length (trace s) = 5%nat
  /\ places s !! 1%nat = Some (Leaving (Found (Some 1%Z)))
  /\ sequential ∅ (trace s) (underlying_map_ s) /\ rounds 1 (trace s) (Ready (Found (Some 1%Z))).
Proof.
  destruct (checked_some contended (fun s => (length (trace s) =? 5)%nat
      && match places s !! 1%nat with Some (Leaving (Found (Some v))) => v =? 1 | _ => false end))
    as (s & E & H); [reflexivity|].
  apply andb_prop in H as [H1 H2]. apply Nat.eqb_eq in H1.
  destruct (places s !! 1%nat) as [[| | |[[v|]| |]]|] eqn:E1; try discriminate. apply Z.eqb_eq in H2 as ->.
  destruct (coarse_map_linearizes (spec := table_spec) (∅ : gmap bytes Z) 2 _ s I E) as (Hs & Hr & _).
  exists s. split; [exact E|]. split; [exact H1|]. split; [exact E1|]. split; [exact Hs|]. exact (Hr 1%nat _ E1).
Defined.
