(* ===== verification/V1Executor.v ===== *)
(** * The request executor: [v1/src/server/RequestExecutor.cpp], [ServerApp::handle_request]

    The main thread reads the sockets and submits every chunk as a job; worker
    threads take jobs from a shared queue, find or create the connection of
    the client, append the chunk to its parser, and, unless another worker is
    already doing so, pop and dispatch its requests one by one.  A worker is a
    program counter; one step of it is one critical section of the code (the
    queue's mutex, a call on the connection map, the connection's mutex) or one
    call of the dispatcher, whose only property used is whether it throws.

    A worker keeps the reference [LookUp] returned until it is done with the
    client.  The reference is to the value in the entry of the map, so it shows
    the connection the map holds for the client as long as the table is not
    resized, and is dangling after that ([reference_valid_until_resize] of
    V1References, on the table's pointers): here it is the client together with
    the number of resizes at the time of the [LookUp], and its use after another
    resize is undefined behaviour.

    Theorems: with one worker, or with any number of workers that only have to
    do with clients already known, no reference is ever used after a resize, a
    client is processed by one worker at a time, its requests are dispatched in
    the order of the bytes appended and none is left behind when the workers are
    idle; with one worker the bytes are appended in the order received.  With
    two workers chunks of one client can be appended in the wrong order, a
    connection that two workers create at the same time loses the requests of
    the first, and a client that connects can make the table grow under a
    worker's reference. *)

From S2P Require Import Prelude CxxString RespValue RespValueQueue MapInterface BlockingQueue.

(** ** State *)

Record ClientConnection := mkConnection {
  being_processed : bool;
  resp_value_queue_ : RespValueQueue
}.

Definition new_connection : ClientConnection := mkConnection false empty_queue.

Inductive worker :=
| WaitJob                                  (* in Worker, before jobs.Pop() *)
| GotJob (fd : Z) (request : bytes)        (* before LookUp *)
| MustCreate (fd : Z) (request : bytes)    (* LookUp gave nothing; before Insert *)
| Handling (fd : Z) (table : nat) (request : bytes)
    (* in HandleConnection, before the first lock; the reference is into the
       entry of [fd] in the table there was after [table] resizes *)
| Looping (fd : Z) (table : nat)                       (* at the head of the loop *)
| Dispatching (fd : Z) (table : nat) (v : RespValue).  (* holds a request, before DispatchRequest *)

Record executor := mkExecutor {
  jobs_ : list (Z * bytes);
  client_fd_to_connection_ : gmap Z ClientConnection;
  workers_ : list worker;
  crashed : bool;                    (* an exception left a thread, or an assertion failed *)
  received : list (Z * bytes);       (* chunks read from the sockets *)
  appended : list (Z * bytes);       (* chunks given to PushString *)
  taken : list (Z * RespValue);      (* requests PopValue returned *)
  dispatched : list (Z * RespValue); (* requests DispatchRequest was called with *)
  entries_size : nat;                (* entries_.size() of the connection map *)
  resize_count : nat;                (* its resizes so far *)
  dangled : bool                     (* a reference was used after a resize *)
}.

(** No thread runs any more. *)
Definition stopped (st : executor) : bool := crashed st || dangled st.

(** ** The main thread *)

(** Outcomes of one [recv(client_fd, buf, 4096, MSG_DONTWAIT)]. *)
Inductive recv_result := RecvData (data : bytes) | RecvWouldBlock | RecvClosed.

Definition Submit (jobs : list (Z * bytes)) (client_fd : Z) (request : bytes) : list (Z * bytes) :=
  ConcurrentQueue.Push jobs (client_fd, request).

(** [RequestExecutor::Remove] has an empty body. *)
Definition Remove (st : executor) (client_fd : Z) : executor := st.

(** [handle_request] on the outcomes of its successive [recv] calls; the last
    component tells whether the connection was closed. *)
Fixpoint handle_request (st : executor) (client_fd : Z) (reads : list recv_result) : executor * bool :=
  match reads with
  | RecvData data :: reads =>
      handle_request
        (mkExecutor (Submit (jobs_ st) client_fd data) (client_fd_to_connection_ st) (workers_ st) (crashed st)
           (received st ++ [(client_fd, data)]) (appended st) (taken st) (dispatched st)
           (entries_size st) (resize_count st) (dangled st))
        client_fd reads
  | RecvClosed :: _ => (Remove st client_fd, true)
  | RecvWouldBlock :: _ | [] => (st, false)
  end.

(** ** The workers *)

Section Workers.
(** Whether [DispatchRequest] throws on a request. *)
Context (throws : RespValue -> bool).

Definition set_worker (st : executor) (w : nat) (p : worker) : executor :=
  mkExecutor (jobs_ st) (client_fd_to_connection_ st) (<[w := p]> (workers_ st)) (crashed st)
    (received st) (appended st) (taken st) (dispatched st) (entries_size st) (resize_count st) (dangled st).

Definition set_connection (st : executor) (fd : Z) (c : ClientConnection) : executor :=
  mkExecutor (jobs_ st) (<[fd := c]> (client_fd_to_connection_ st)) (workers_ st) (crashed st)
    (received st) (appended st) (taken st) (dispatched st) (entries_size st) (resize_count st) (dangled st).

Definition crash (st : executor) : executor :=
  mkExecutor (jobs_ st) (client_fd_to_connection_ st) (workers_ st) true
    (received st) (appended st) (taken st) (dispatched st) (entries_size st) (resize_count st) (dangled st).

Definition dangle (st : executor) : executor :=
  mkExecutor (jobs_ st) (client_fd_to_connection_ st) (workers_ st) (crashed st)
    (received st) (appended st) (taken st) (dispatched st) (entries_size st) (resize_count st) true.

(** [size_ > entries_.size() * load_factor_] in [Insert], with the default
    load factor 3/4; [entries_] is never empty. *)
Definition overloaded (st : executor) : bool :=
  (3 * entries_size st <? 4 * size (client_fd_to_connection_ st))%nat.

(** [client_fd_to_connection_->Insert]: the table is resized first when it is
    overloaded, which frees its entries and makes new ones. *)
Definition insert_connection (st : executor) (fd : Z) (c : ClientConnection) : executor :=
  let st :=
    if overloaded st then
      mkExecutor (jobs_ st) (client_fd_to_connection_ st) (workers_ st) (crashed st)
        (received st) (appended st) (taken st) (dispatched st)
        (Nat.max 2 (size (client_fd_to_connection_ st) * 2)) (S (resize_count st)) (dangled st)
    else st in
  set_connection st fd c.

(** The first critical section of [HandleConnection]. *)
Definition begin_connection (st : executor) (w : nat) (fd : Z) (table : nat) (request : bytes) (c : ClientConnection)
    : executor :=
  let q := PushString (resp_value_queue_ c) request in
  let st := mkExecutor (jobs_ st) (client_fd_to_connection_ st) (workers_ st) (crashed st)
              (received st) (appended st ++ [(fd, request)]) (taken st) (dispatched st)
              (entries_size st) (resize_count st) (dangled st) in
  if being_processed c then set_worker (set_connection st fd (mkConnection true q)) w WaitJob
  else set_worker (set_connection st fd (mkConnection true q)) w (Looping fd table).

(** The critical section of the loop: the assertion, and [PopValue]. *)
Definition pop_connection (st : executor) (w : nat) (fd : Z) (table : nat) (c : ClientConnection) : executor :=
  if negb (being_processed c) then crash st
  else
    match PopValue (resp_value_queue_ c) with
    | (q, Ok None) => set_worker (set_connection st fd (mkConnection false q)) w WaitJob
    | (q, Ok (Some v)) =>
        let st := mkExecutor (jobs_ st) (client_fd_to_connection_ st) (workers_ st) (crashed st)
                    (received st) (appended st) (taken st ++ [(fd, v)]) (dispatched st)
                    (entries_size st) (resize_count st) (dangled st) in
        set_worker (set_connection st fd (mkConnection true q)) w (Dispatching fd table v)
    | (q, _) => crash (set_connection st fd (mkConnection true q))
    end.

Definition call_dispatcher (st : executor) (w : nat) (fd : Z) (table : nat) (v : RespValue) : executor :=
  let st := mkExecutor (jobs_ st) (client_fd_to_connection_ st) (workers_ st) (crashed st)
              (received st) (appended st) (taken st) (dispatched st ++ [(fd, v)])
              (entries_size st) (resize_count st) (dangled st) in
  if throws v then crash st else set_worker st w (Looping fd table).

(** [*connection], where [connection] is the reference a worker keeps. *)
Definition use_connection (st : executor) (fd : Z) (table : nat) (k : ClientConnection -> executor) : option executor :=
  if negb (table =? resize_count st)%nat then Some (dangle st)
  else
    match client_fd_to_connection_ st !! fd with
    | None => None
    | Some c => Some (k c)
    end.

(** One step of worker [w]; a worker waiting on an empty queue has none.  The
    second [LookUp] of [Worker], after [Insert], finds what was inserted and is
    part of that step.  A critical section is one step: where a resize could
    fall inside one, it could as well fall just before it, and then the step
    uses a dangling reference. *)
Definition work (st : executor) (w : nat) : option executor :=
  if stopped st then None
  else
    match workers_ st !! w with
    | None => None
    | Some p =>
        match p with
        | WaitJob =>
            match ConcurrentQueue.Pop (jobs_ st) with
            | None => None
            | Some ((fd, request), jobs) =>
                Some (set_worker
                        (mkExecutor jobs (client_fd_to_connection_ st) (workers_ st) (crashed st)
                           (received st) (appended st) (taken st) (dispatched st)
                           (entries_size st) (resize_count st) (dangled st))
                        w (GotJob fd request))
            end
        | GotJob fd request =>
            match client_fd_to_connection_ st !! fd with
            | None => Some (set_worker st w (MustCreate fd request))
            | Some _ => Some (set_worker st w (Handling fd (resize_count st) request))
            end
        | MustCreate fd request =>
            let st := insert_connection st fd new_connection in
            Some (set_worker st w (Handling fd (resize_count st) request))
        | Handling fd table request => use_connection st fd table (begin_connection st w fd table request)
        | Looping fd table => use_connection st fd table (pop_connection st w fd table)
        | Dispatching fd table v => Some (call_dispatcher st w fd table v)
        end
    end.

Definition start (num_threads : nat) : executor :=
  mkExecutor [] ∅ (replicate num_threads WaitJob) false [] [] [] [] kDefaultCapacity 0 false.

Inductive action := Readable (fd : Z) (reads : list recv_result) | Work (w : nat).

Definition step (st : executor) (a : action) : option executor :=
  match a with
  | Readable fd reads => Some (fst (handle_request st fd reads))
  | Work w => work st w
  end.

Inductive reachable_from (st0 : executor) : executor -> Prop :=
| reach_here : reachable_from st0 st0
| reach_next st a st' : reachable_from st0 st -> step st a = Some st' -> reachable_from st0 st'.

Fixpoint run_actions (st : executor) (l : list action) : option executor :=
  match l with
  | [] => Some st
  | a :: l => st ← step st a; run_actions st l
  end.

(** What a log holds about one client. *)
Definition of_client {A} (fd : Z) (log : list (Z * A)) : list A :=
  omap (fun p => if decide (p.1 = fd) then Some p.2 else None) log.

(** A worker that processes the connection of a client. *)
Definition processing (fd : Z) (p : worker) : bool :=
  match p with
  | Looping fd' _ | Dispatching fd' _ _ => bool_decide (fd' = fd)
  | _ => false
  end.

(** ** Lemmas: streams *)

Lemma parses_app x y vs1 r1 vs2 r : small_str (x ++ y) ->
  parses x vs1 r1 -> parses (r1 ++ y) vs2 r -> parses (x ++ y) (vs1 ++ vs2) r.
Proof.
  intros Hs Hx. revert Hs. induction Hx as [x Hi|x v n vs r1 Hv _ IH]; intros Hs Hy; [done|].
  pose proof (small_str_app _ _ Hs) as Hsx. pose proof (FromString_bound _ _ _ Hsx Hv) as Hn.
  pose proof (FromString_settled x y Hs) as He. rewrite Hv in He. specialize (He I).
  cbn [app]. eapply parses_step; [exact He|]. rewrite drop_app_le by lia. apply IH; [|done].
  rewrite <- drop_app_le by lia. by apply small_str_drop_n.
Qed.

Lemma incomplete_parses_nothing b vs r :
  is_incomplete (FromString b) = true -> parses b vs r -> vs = [] /\ r = b.
Proof. intros Hi Hp. inversion Hp as [|? ? ? ? ? Hv]; subst; [done|]. by rewrite Hv in Hi. Qed.

Lemma of_client_app {A} fd (l l' : list (Z * A)) : of_client fd (l ++ l') = of_client fd l ++ of_client fd l'.
Proof. apply omap_app. Qed.

Lemma of_client_one {A} fd (x : A) : of_client fd [(fd, x)] = [x].
Proof. cbn. by rewrite decide_True. Qed.

Lemma of_client_other {A} fd fd' (x : A) : fd' <> fd -> of_client fd [(fd', x)] = [].
Proof. intros Hne. cbn. by rewrite decide_False. Qed.

(** ** The invariant of one client *)

Definition stream (st : executor) (fd : Z) : bytes := concat (of_client fd (appended st)).

Record present (st : executor) (fd : Z) (c : ClientConnection) : Prop := {
  pr_conn : client_fd_to_connection_ st !! fd = Some c;
  pr_create w request : workers_ st !! w <> Some (MustCreate fd request);
  pr_one w w' p p' : workers_ st !! w = Some p -> workers_ st !! w' = Some p' ->
    processing fd p = true -> processing fd p' = true -> w = w';
  pr_flag : being_processed c = true <-> exists w p, workers_ st !! w = Some p /\ processing fd p = true;
  pr_idle : being_processed c = false -> values_ (resp_value_queue_ c) = []
    /\ is_incomplete (FromString (buffer_ (resp_value_queue_ c))) = true;
  pr_hand : forall w p, workers_ st !! w = Some p -> processing fd p = true ->
    of_client fd (taken st) = of_client fd (dispatched st)
                              ++ match p with Dispatching _ _ v => [v] | _ => [] end;
  pr_rest : being_processed c = false -> of_client fd (taken st) = of_client fd (dispatched st);
  pr_stream vs r : small_str (stream st fd) -> parses (stream st fd) vs r ->
    exists rv, vs = of_client fd (taken st) ++ values_ (resp_value_queue_ c) ++ rv
      /\ parses (buffer_ (resp_value_queue_ c)) rv r;
  pr_length : (length (buffer_ (resp_value_queue_ c)) <= length (stream st fd))%nat
}.

Record absent (st : executor) (fd : Z) : Prop := {
  ab_conn : client_fd_to_connection_ st !! fd = None;
  ab_one : length (workers_ st) = 1%nat;
  ab_worker w p : workers_ st !! w = Some p -> processing fd p = false;
  ab_appended : of_client fd (appended st) = [];
  ab_taken : of_client fd (taken st) = [];
  ab_dispatched : of_client fd (dispatched st) = []
}.

Definition client_ok (st : executor) (fd : Z) : Prop :=
  stopped st = true \/ (exists c, present st fd c) \/ absent st fd.

(** A step that concerns the processing of another client, or none. *)
Lemma client_ok_frame st st' fd w p p' :
  (exists c, present st fd c) \/ absent st fd -> workers_ st !! w = Some p ->
  workers_ st' = <[w := p']> (workers_ st) ->
  client_fd_to_connection_ st' !! fd = client_fd_to_connection_ st !! fd ->
  of_client fd (appended st') = of_client fd (appended st) ->
  of_client fd (taken st') = of_client fd (taken st) ->
  of_client fd (dispatched st') = of_client fd (dispatched st) ->
  processing fd p = false -> processing fd p' = false ->
  (client_fd_to_connection_ st !! fd = None \/ forall request, p' <> MustCreate fd request) ->
  (exists c, present st' fd c) \/ absent st' fd.
Proof.
  intros Hok Hw Hws Hc Ha Ht Hd Hp Hp' Hm.
  assert (forall w0 p0, workers_ st' !! w0 = Some p0 -> processing fd p0 = true ->
            workers_ st !! w0 = Some p0) as Hback.
  { intros w0 p0. rewrite Hws, list_lookup_insert_Some. intros [(<- & <- & _)|[_ H]] Hp0; congruence. }
  destruct Hok as [[c [H1 H2 H3 H4 H5 H6 H6' H7 H8]]|[H1 H2 H3 H4 H5 H6]]; [left; exists c|right].
  - constructor; unfold stream in *; rewrite ?Ha, ?Ht, ?Hd, ?Hc; try done.
    + intros w0 request. rewrite Hws, list_lookup_insert_Some.
      intros [(_ & He & _)|[_ H]]; [|by eapply H2]. destruct Hm as [Hn|Hm]; [congruence|by eapply Hm].
    + eauto.
    + rewrite H4. split; intros (w0 & p0 & Hw0 & Hp0).
      * exists w0, p0. split; [|done]. rewrite Hws, list_lookup_insert_ne; [done|]. congruence.
      * eauto.
    + eauto.
  - constructor; rewrite ?Ha, ?Ht, ?Hd, ?Hc; try done.
    + by rewrite Hws, length_insert.
    + intros w0 p0. rewrite Hws, list_lookup_insert_Some. intros [(<- & <- & _)|[_ H]]; [done|by eapply H3].
Qed.

(** ** Lemmas: the critical sections *)

(** What the parser still holds, after more bytes. *)
Lemma stream_push S B c (T V : list RespValue) :
  (forall vs r, small_str S -> parses S vs r -> exists rv, vs = T ++ V ++ rv /\ parses B rv r) ->
  (length B <= length S)%nat ->
  forall vs r, small_str (S ++ c) -> parses (S ++ c) vs r ->
  exists rv, vs = T ++ V ++ rv /\ parses (B ++ c) rv r.
Proof.
  intros HS Hl vs r Hs Hp. destruct (parses_split _ _ _ _ Hs Hp) as (vs1 & r1 & vs2 & H1 & H2 & ->).
  destruct (HS vs1 r1 (small_str_app _ _ Hs) H1) as (rv & -> & HB). exists (rv ++ vs2).
  split; [by rewrite <- !app_assoc|]. eapply parses_app; [|done..].
  unfold small_str in *. rewrite length_app in *. lia.
Qed.

Lemma parse_loop_ended f q q' : parse_loop f q = (q', Ok tt) ->
  is_incomplete (FromString (buffer_ q')) = true.
Proof.
  revert q. induction f as [|f IH]; intros q; cbn; [done|].
  destruct (FromString (buffer_ q)) as [[v n]|[]| |] eqn:E; try done.
  - apply IH.
  - intros [= <-]. by rewrite E.
Qed.

Lemma parse_loop_length f q : (length (buffer_ (fst (parse_loop f q))) <= length (buffer_ q))%nat.
Proof.
  revert q. induction f as [|f IH]; intros q; cbn; [done|].
  destruct (FromString (buffer_ q)) as [[v n]|[]| |]; try done.
  etransitivity; [apply IH|]. cbn. case_match; [rewrite length_drop; lia|cbn; lia].
Qed.

(** An answer of [PopValue]: everything complete was parsed. *)
Lemma PopValue_returned q q' o : PopValue q = (q', Ok o) ->
  is_incomplete (FromString (buffer_ q')) = true
  /\ (length (buffer_ q') <= length (buffer_ q))%nat /\ (o = None -> values_ q' = []).
Proof.
  unfold PopValue. pose proof (parse_loop_length (S (length (buffer_ q))) q) as Hl.
  destruct (parse_loop _ q) as [q1 r] eqn:E. destruct r as [[]| | |]; cbn; try done.
  intros [= <- <-]. apply parse_loop_ended in E. split_and!; [done..|]. by destruct (values_ q1).
Qed.

Lemma PopValue_stream q q' o rv r : small_str (buffer_ q) -> parses (buffer_ q) rv r ->
  PopValue q = (q', Ok o) -> values_ q ++ rv = match o with Some v => [v] | None => [] end ++ values_ q'
    /\ parses (buffer_ q') [] r.
Proof.
  intros Hs Hp. destruct q as [b vals]. cbn in *. rewrite (PopValue_parses b rv r vals Hs Hp).
  intros [= <- <-]. cbn. split; [by destruct (vals ++ rv)|]. constructor. by eapply parses_rest.
Qed.

(** The only worker on a connection stays the only one. *)
Lemma present_worker st fd c w p p' (ws := <[w := p']> (workers_ st)) :
  present st fd c -> workers_ st !! w = Some p ->
  (processing fd p' = true -> processing fd p = true \/ being_processed c = false) ->
  (forall w1 w2 p1 p2, ws !! w1 = Some p1 -> ws !! w2 = Some p2 ->
     processing fd p1 = true -> processing fd p2 = true -> w1 = w2).
Proof.
  intros Hpr Hw Hp' w1 w2 p1 p2. subst ws. rewrite !list_lookup_insert_Some.
  intros [(<- & <- & _)|[Hne1 H1]] [(<- & <- & _)|[Hne2 H2]] Hp1 Hp2; [done| | |by eapply Hpr].
  - destruct (Hp' Hp1) as [Hp|Hf]; [by eapply Hpr|].
    assert (being_processed c = true) by (apply (pr_flag _ _ _ Hpr); eauto). congruence.
  - destruct (Hp' Hp2) as [Hp|Hf]; [by eapply Hpr|].
    assert (being_processed c = true) by (apply (pr_flag _ _ _ Hpr); eauto). congruence.
Qed.

Lemma present_no_create st fd c w p' : present st fd c -> (forall request, p' <> MustCreate fd request) ->
  forall w0 request, <[w := p']> (workers_ st) !! w0 <> Some (MustCreate fd request).
Proof.
  intros Hpr Hp' w0 request. rewrite list_lookup_insert_Some.
  intros [(_ & He & _)|[_ H]]; [by eapply Hp'|by eapply pr_create].
Qed.

Lemma begin_ok st w fd table request c : present st fd c -> workers_ st !! w = Some (Handling fd table request) ->
  exists c', present (begin_connection st w fd table request c) fd c'.
Proof.
  intros Hpr Hw. pose proof (lookup_lt_Some _ _ _ Hw) as Hlt. unfold begin_connection.
  assert (forall st', appended st' = appended st ++ [(fd, request)] -> stream st' fd = stream st fd ++ request) as Hst.
  { intros st' E. unfold stream. rewrite E, of_client_app, of_client_one, concat_app. cbn. by rewrite app_nil_r. }
  pose proof (stream_push _ _ request _ _ (pr_stream _ _ _ Hpr) (pr_length _ _ _ Hpr)) as Hpush.
  pose proof (pr_length _ _ _ Hpr) as Hlen.
  exists (mkConnection true (PushString (resp_value_queue_ c) request)).
  destruct (being_processed c) eqn:Hb; (constructor; cbn [client_fd_to_connection_ workers_ set_worker set_connection
    taken dispatched being_processed resp_value_queue_]; [by rewrite lookup_insert_eq|..|try (rewrite Hst by done; exact Hpush)|
    rewrite Hst by done; cbn; rewrite !length_app; lia]); try done.
  - by apply (present_no_create _ _ c).
  - by eapply present_worker.
  - split; [|done]. intros _. destruct (proj1 (pr_flag _ _ _ Hpr) Hb) as (w0 & p0 & Hw0 & Hp0).
    exists w0, p0. split; [|done]. rewrite list_lookup_insert_ne; [done|]. intros ->. by simplify_eq.
  - intros w0 p0. rewrite list_lookup_insert_Some. intros [(_ & <- & _)|[_ H]]; [done|by eapply pr_hand].
  - by apply (present_no_create _ _ c).
  - eapply present_worker; [done..|by right].
  - split; [|done]. intros _. exists w, (Looping fd table). rewrite list_lookup_insert_eq by done.
    split; [done|]. cbn. by apply bool_decide_eq_true.
  - intros w0 p0 Hw0 Hp0. rewrite (pr_rest _ _ _ Hpr Hb).
    destruct (decide (w0 = w)) as [->|Hne].
    + rewrite list_lookup_insert_eq in Hw0 by done. simplify_eq. by rewrite app_nil_r.
    + rewrite list_lookup_insert_ne in Hw0 by done.
      assert (being_processed c = true) by (apply (pr_flag _ _ _ Hpr); eauto). congruence.
Qed.

(** When the worker that processes the client moves, it is the only one that may still do so. *)
Lemma present_only st fd c w p p' w0 p0 : present st fd c -> workers_ st !! w = Some p ->
  processing fd p = true -> <[w := p']> (workers_ st) !! w0 = Some p0 -> processing fd p0 = true -> p0 = p'.
Proof.
  intros Hpr Hw Hp. rewrite list_lookup_insert_Some. intros [(_ & <- & _)|[Hne Hw0]] Hp0; [done|].
  destruct Hne. by eapply (pr_one _ _ _ Hpr).
Qed.

Lemma pop_ok st w fd table c : present st fd c -> workers_ st !! w = Some (Looping fd table) ->
  stopped (pop_connection st w fd table c) = true \/ exists c', present (pop_connection st w fd table c) fd c'.
Proof.
  intros Hpr Hw. pose proof (lookup_lt_Some _ _ _ Hw) as Hlt.
  assert (processing fd (Looping fd table) = true) as Hproc by (by apply bool_decide_eq_true).
  assert (being_processed c = true) as Hb by (apply (pr_flag _ _ _ Hpr); eauto).
  pose proof (pr_hand _ _ _ Hpr _ _ Hw Hproc) as Hhand. cbn in Hhand. rewrite app_nil_r in Hhand.
  pose proof (pr_length _ _ _ Hpr) as Hlen. unfold pop_connection. rewrite Hb. cbn [negb].
  destruct (PopValue (resp_value_queue_ c)) as [q [o| | |]] eqn:E; try by left.
  destruct (PopValue_returned _ _ _ E) as (Hinc & Hl & Hnone).
  assert (forall vs r, small_str (stream st fd) -> parses (stream st fd) vs r -> exists rv,
            vs = (of_client fd (taken st) ++ match o with Some v => [v] | None => [] end) ++ values_ q ++ rv
            /\ parses (buffer_ q) rv r) as Hstream.
  { intros vs r Hs Hp. destruct (pr_stream _ _ _ Hpr vs r Hs Hp) as (rv & -> & HB).
    assert (small_str (buffer_ (resp_value_queue_ c))) as Hsb by (unfold small_str in *; lia).
    destruct (PopValue_stream _ _ _ rv r Hsb HB E) as [Hv Hr].
    exists []. split; [|done]. rewrite Hv, app_nil_r. by rewrite app_assoc. }
  right. destruct o as [v|].
  - exists (mkConnection true q). constructor; cbn [client_fd_to_connection_ workers_ set_worker set_connection
      taken dispatched being_processed resp_value_queue_]; try done.
    + by rewrite lookup_insert_eq.
    + by apply (present_no_create _ _ c).
    + eapply present_worker; [done..|by left].
    + split; [|done]. intros _. exists w, (Dispatching fd table v). by rewrite list_lookup_insert_eq.
    + intros w0 p0 Hw0 Hp0. rewrite (present_only _ _ _ _ _ _ _ _ Hpr Hw Hproc Hw0 Hp0).
      by rewrite of_client_app, of_client_one, Hhand.
    + intros vs r Hs Hp. rewrite of_client_app, of_client_one. by apply Hstream.
    + change (length (buffer_ q) <= length (stream st fd))%nat. lia.
  - exists (mkConnection false q). constructor; cbn [client_fd_to_connection_ workers_ set_worker set_connection
      taken dispatched being_processed resp_value_queue_]; try done.
    + by rewrite lookup_insert_eq.
    + by apply (present_no_create _ _ c).
    + eapply present_worker; [done..|by left].
    + split; [done|]. intros (w0 & p0 & Hw0 & Hp0).
      by rewrite (present_only _ _ _ _ _ _ _ _ Hpr Hw Hproc Hw0 Hp0) in Hp0.
    + intros _. split; [by apply Hnone|done].
    + intros w0 p0 Hw0 Hp0. by rewrite (present_only _ _ _ _ _ _ _ _ Hpr Hw Hproc Hw0 Hp0) in Hp0.
    + intros vs r Hs Hp. rewrite app_nil_r in Hstream. by apply Hstream.
    + change (length (buffer_ q) <= length (stream st fd))%nat. lia.
Qed.

Lemma dispatch_ok st w fd table v c : present st fd c -> workers_ st !! w = Some (Dispatching fd table v) ->
  stopped (call_dispatcher st w fd table v) = true \/ present (call_dispatcher st w fd table v) fd c.
Proof.
  intros Hpr Hw. pose proof (lookup_lt_Some _ _ _ Hw) as Hlt.
  assert (processing fd (Dispatching fd table v) = true) as Hproc by (by apply bool_decide_eq_true).
  assert (being_processed c = true) as Hb by (apply (pr_flag _ _ _ Hpr); eauto).
  pose proof (pr_hand _ _ _ Hpr _ _ Hw Hproc) as Hhand. cbn in Hhand.
  unfold call_dispatcher. destruct (throws v); [by left|right].
  constructor; cbn [client_fd_to_connection_ workers_ set_worker taken dispatched]; try apply Hpr; try done.
  - by apply (present_no_create _ _ c).
  - eapply present_worker; [done..|by left].
  - split; [|done]. intros _. exists w, (Looping fd table). by rewrite list_lookup_insert_eq.
  - intros w0 p0 Hw0 Hp0. rewrite (present_only _ _ _ _ _ _ _ _ Hpr Hw Hproc Hw0 Hp0).
    rewrite of_client_app, of_client_one, Hhand. by rewrite app_nil_r.
  - congruence.
Qed.

Lemma create_ok st w fd request : absent st fd -> workers_ st !! w = Some (MustCreate fd request) ->
  forall table, present (set_worker (insert_connection st fd new_connection) w (Handling fd table request)) fd new_connection.
Proof.
  intros [H1 H2 H3 H4 H5 H6] Hw table. pose proof (lookup_lt_Some _ _ _ Hw) as Hlt.
  assert (forall w0 p0, <[w := Handling fd table request]> (workers_ st) !! w0 = Some p0 -> p0 = Handling fd table request) as Hall.
  { intros w0 p0. rewrite list_lookup_insert_Some. intros [(_ & <- & _)|[Hne H]]; [done|].
    apply lookup_lt_Some in H. lia. }
  unfold insert_connection. destruct (overloaded st);
  (constructor; unfold stream; cbn [client_fd_to_connection_ workers_ set_worker set_connection taken dispatched
    appended being_processed resp_value_queue_ new_connection empty_queue values_ buffer_]; rewrite ?H4, ?H5, ?H6;
    [by rewrite lookup_insert_eq|by intros w0 r0 H%Hall|by intros w1 w2 p1 p2 ->%Hall|
     split; [done|]; by intros (w0 & p0 & ->%Hall & ?)|done|by intros w0 p0 ->%Hall|done|
     intros vs r _ Hp; by exists vs|done]).
Qed.

(** Every step keeps the invariant of every client. *)
Lemma handle_request_frame st fd reads :
  let st' := fst (handle_request st fd reads) in
  client_fd_to_connection_ st' = client_fd_to_connection_ st /\ workers_ st' = workers_ st
  /\ stopped st' = stopped st /\ appended st' = appended st /\ taken st' = taken st
  /\ dispatched st' = dispatched st /\ resize_count st' = resize_count st /\ crashed st' = crashed st.
Proof.
  revert st. induction reads as [|[data| |] reads IH]; intros st; cbn; try done.
  destruct (IH (mkExecutor (Submit (jobs_ st) fd data) (client_fd_to_connection_ st) (workers_ st) (crashed st)
                  (received st ++ [(fd, data)]) (appended st) (taken st) (dispatched st)
                  (entries_size st) (resize_count st) (dangled st)))
    as (-> & -> & -> & -> & -> & -> & -> & ->). done.
Qed.

Lemma submit_ok st fd f reads : client_ok st fd -> client_ok (fst (handle_request st f reads)) fd.
Proof.
  intros Hok. destruct (handle_request_frame st f reads) as (E1 & E2 & E3 & E4 & E5 & E6 & _). cbv zeta in *.
  destruct Hok as [Hc|[[c [H1 H2 H3 H4 H5 H6 H6' H7 H8]]|[H1 H2 H3 H4 H5 H6]]];
    [left; congruence|right; left; exists c|right; right].
  - constructor; unfold stream in *; rewrite ?E1, ?E2, ?E4, ?E5, ?E6; done.
  - constructor; rewrite ?E1, ?E2, ?E4, ?E5, ?E6; done.
Qed.

(** A use of a reference: it was dangling, or shows the connection of the client. *)
Lemma use_connection_Some st fd table k st' : use_connection st fd table k = Some st' ->
  st' = dangle st \/ exists c, client_fd_to_connection_ st !! fd = Some c /\ st' = k c.
Proof.
  unfold use_connection. case_match; [intros [= <-]; by left|]. case_match; intros [= <-]. right. eauto.
Qed.

Ltac by_frame w :=
  right; eapply (client_ok_frame _ _ _ w); [eassumption|eassumption|reflexivity|..]; cbn -[of_client];
  rewrite ?lookup_insert_ne, ?of_client_app, ?of_client_other, ?app_nil_r by done;
  try done; try (by right); try (by apply bool_decide_eq_false).

(** A step on the connection of another client. *)
Lemma work_other_ok st w st' fd f p : (exists c, present st fd c) \/ absent st fd ->
  workers_ st !! w = Some p -> f <> fd ->
  match p with
  | MustCreate f' _ | Handling f' _ _ | Looping f' _ | Dispatching f' _ _ => f' = f
  | _ => False
  end -> work st w = Some st' -> client_ok st' fd.
Proof.
  intros Hok Hw Hne Hp Hs. unfold work in Hs. destruct (stopped st); [done|]. rewrite Hw in Hs.
  destruct p as [| |f' request|f' table request|f' table|f' table v]; try done; subst f'.
  - injection Hs as <-. unfold insert_connection. destruct (overloaded st); by_frame w.
  - apply use_connection_Some in Hs as [->|(c & _ & ->)]; [left; apply orb_true_r|]. unfold begin_connection.
    destruct (being_processed c); by_frame w.
  - apply use_connection_Some in Hs as [->|(c & _ & ->)]; [left; apply orb_true_r|]. unfold pop_connection.
    destruct (negb (being_processed c)); [by left|].
    destruct (PopValue _) as [q [[v|]| | |]]; try (by left); by_frame w.
  - injection Hs as <-. unfold call_dispatcher. destruct (throws v); [by left|].
    by_frame w.
Qed.

(** Every step keeps the invariant of every client. *)
Lemma work_ok st w st' fd : client_ok st fd -> work st w = Some st' -> client_ok st' fd.
Proof.
  intros Hok Hs. pose proof Hs as Hs0. unfold work in Hs. destruct (stopped st) eqn:Hcr; [done|].
  destruct Hok as [?|Hok]; [congruence|]. destruct (workers_ st !! w) as [p|] eqn:Hw; [|done].
  destruct p as [|f request|f request|f table request|f table|f table v].
  - destruct (jobs_ st) as [|[f request] jobs]; [done|]. injection Hs as <-.
    by_frame w.
  - destruct (client_fd_to_connection_ st !! f) eqn:Ef; injection Hs as <-; by_frame w.
    destruct (decide (f = fd)) as [->|]; [by left|right]. congruence.
  - destruct (decide (f = fd)) as [->|Hne]; [|by eapply work_other_ok]. injection Hs as <-. right; left.
    destruct Hok as [[c Hpr]|Hab]; [by destruct (pr_create _ _ _ Hpr w request)|]. eexists. by apply create_ok.
  - destruct (decide (f = fd)) as [->|Hne]; [|by eapply work_other_ok].
    apply use_connection_Some in Hs as [->|(c' & Hc' & ->)]; [left; apply orb_true_r|].
    destruct Hok as [[c Hpr]|Hab]; [|by rewrite (ab_conn _ _ Hab) in Hc'].
    rewrite (pr_conn _ _ _ Hpr) in Hc'. injection Hc' as <-. right; left. by apply begin_ok.
  - destruct (decide (f = fd)) as [->|Hne]; [|by eapply work_other_ok].
    apply use_connection_Some in Hs as [->|(c' & Hc' & ->)]; [left; apply orb_true_r|].
    destruct Hok as [[c Hpr]|Hab]; [|by rewrite (ab_conn _ _ Hab) in Hc'].
    rewrite (pr_conn _ _ _ Hpr) in Hc'. injection Hc' as <-.
    destruct (pop_ok _ _ _ table _ Hpr Hw) as [?|?]; [by left|right; by left].
  - destruct (decide (f = fd)) as [->|Hne]; [|by eapply work_other_ok]. injection Hs as <-.
    destruct Hok as [[c Hpr]|Hab].
    + destruct (dispatch_ok _ _ _ table v _ Hpr Hw) as [?|?]; [by left|right; left; eauto].
    + pose proof (ab_worker _ _ Hab _ _ Hw) as Hp. cbn in Hp. by rewrite bool_decide_eq_true_2 in Hp.
Qed.

Lemma reachable_ok st0 st fd : reachable_from st0 st -> client_ok st0 fd -> client_ok st fd.
Proof.
  intros Hr Hok. induction Hr as [|st a st' _ IH Hs]; [done|].
  destruct a as [f reads|w]; cbn in Hs; [injection Hs as <-; by apply submit_ok|by eapply work_ok].
Qed.

(** ** One worker appends in the order received *)

(** The chunks a worker has taken and not yet appended. *)
Definition in_hand (p : worker) : list (Z * bytes) :=
  match p with
  | GotJob fd request | MustCreate fd request | Handling fd _ request => [(fd, request)]
  | _ => []
  end.

Definition in_order (st : executor) : Prop :=
  exists p, workers_ st = [p] /\ received st = appended st ++ in_hand p ++ jobs_ st.

Lemma handle_request_in_order st fd reads : in_order st -> in_order (fst (handle_request st fd reads)).
Proof.
  revert st. induction reads as [|[data| |] reads IH]; intros st (p & Hp & Hr); cbn; try by exists p.
  apply IH. exists p. split; [done|]. cbn. rewrite Hr. unfold Submit, ConcurrentQueue.Push. by rewrite <- !app_assoc.
Qed.

Lemma work_in_order st w st' : in_order st -> work st w = Some st' -> in_order st'.
Proof.
  intros (p & Hp & Hr) Hs. unfold work in Hs. destruct (stopped st); [done|].
  destruct (workers_ st !! w) as [p0|] eqn:Hw; [|done]. rewrite Hp in Hw.
  destruct w as [|w]; [injection Hw as <-|by destruct w].
  destruct p as [|f request|f request|f table request|f table|f table v]; cbn in *.
  - destruct (jobs_ st) as [|[fd request] jobs]; [done|]. injection Hs as <-.
    eexists. cbn. rewrite Hp. split; [reflexivity|]. by rewrite Hr.
  - case_match; injection Hs as <-; eexists; cbn; rewrite Hp; (split; [reflexivity|]); by rewrite Hr.
  - injection Hs as <-. unfold insert_connection.
    case_match; eexists; cbn; rewrite Hp; (split; [reflexivity|]); by rewrite Hr.
  - apply use_connection_Some in Hs as [->|(c & _ & ->)]; [by eexists|]. unfold begin_connection.
    case_match; eexists; cbn; rewrite Hp; (split; [reflexivity|]); rewrite Hr; by rewrite <- app_assoc.
  - apply use_connection_Some in Hs as [->|(c & _ & ->)]; [by eexists|]. unfold pop_connection.
    destruct (negb (being_processed _)); [|destruct (PopValue _) as [q [[v|]| | |]]];
      (eexists; cbn; rewrite Hp; split; [reflexivity|]; by rewrite Hr).
  - injection Hs as <-. unfold call_dispatcher. case_match; (eexists; cbn; rewrite Hp; split; [reflexivity|]; by rewrite Hr).
Qed.

Lemma reachable_in_order st0 st : reachable_from st0 st -> in_order st0 -> in_order st.
Proof.
  intros Hr Hok. induction Hr as [|st a st' _ IH Hs]; [done|].
  destruct a as [f reads|w]; cbn in Hs; [injection Hs as <-; by apply handle_request_in_order|by eapply work_in_order].
Qed.

(** ** References stay valid *)

Lemma received_grows st f reads : exists l, received (fst (handle_request st f reads)) = received st ++ l.
Proof.
  revert st. induction reads as [|[data| |] reads IH]; intros st; cbn; try (exists []; by rewrite app_nil_r).
  match goal with |- exists l, received (fst (handle_request ?st' _ _)) = _ => destruct (IH st') as [l ->] end.
  exists ([(f, data)] ++ l). cbn [received]. by rewrite <- app_assoc.
Qed.

Lemma work_received st w st' : work st w = Some st' -> received st' = received st.
Proof.
  unfold work, use_connection, begin_connection, pop_connection, call_dispatcher, insert_connection. intros H.
  repeat case_match; simplify_eq; done.
Qed.

(** The table a worker's reference is into. *)
Definition held (p : worker) : option nat :=
  match p with
  | Handling _ table _ | Looping _ table | Dispatching _ table _ => Some table
  | _ => None
  end.

(** Every reference held is into the present table. *)
Definition refs_ok (st : executor) : Prop :=
  dangled st = false /\ forall w p table, workers_ st !! w = Some p -> held p = Some table -> table = resize_count st.

Lemma refs_ok_move st st' w p' : refs_ok st -> workers_ st' = <[w := p']> (workers_ st) -> dangled st' = dangled st ->
  resize_count st' = resize_count st -> (forall table, held p' = Some table -> table = resize_count st) -> refs_ok st'.
Proof.
  intros [Hd Hh] Hw Ed Er Hp'. split; [congruence|]. intros w0 p0 table. rewrite Hw, Er, list_lookup_insert_Some.
  intros [(_ & <- & _)|[_ H]]; eauto.
Qed.

Lemma use_valid st fd table k st' : table = resize_count st -> use_connection st fd table k = Some st' ->
  exists c, client_fd_to_connection_ st !! fd = Some c /\ st' = k c.
Proof.
  intros ->. unfold use_connection. rewrite Nat.eqb_refl. cbn. case_match; [intros [= <-]; eauto|done].
Qed.

(** A step keeps the references valid, unless it inserts a connection while
    another worker has one. *)
Lemma work_refs st w st' : refs_ok st -> work st w = Some st' ->
  length (workers_ st) = 1%nat \/ (forall fd request, workers_ st !! w <> Some (MustCreate fd request)) -> refs_ok st'.
Proof.
  intros Hok Hs Hone. unfold work in Hs. destruct (stopped st); [done|].
  destruct (workers_ st !! w) as [p|] eqn:Hw; [|done]. pose proof (proj2 Hok w p) as Hp.
  destruct p as [|f request|f request|f table request|f table|f table v].
  - destruct (jobs_ st) as [|[fd request] jobs]; [done|]. injection Hs as <-. by eapply refs_ok_move.
  - case_match; injection Hs as <-; (eapply refs_ok_move; [done..|]); cbn; congruence.
  - injection Hs as <-. destruct Hone as [Hone|Hn]; [|by edestruct Hn].
    split; [unfold insert_connection; case_match; apply Hok|]. intros w0 p0 table. cbn [set_worker workers_ resize_count].
    replace (workers_ (insert_connection st f new_connection)) with (workers_ st) by (unfold insert_connection; by case_match).
    rewrite list_lookup_insert_Some. intros [(_ & <- & _)|[Hne H]]; [cbn; congruence|].
    apply lookup_lt_Some in H, Hw. lia.
  - apply use_valid in Hs as (c & _ & ->); [|by apply Hp]. unfold begin_connection.
    case_match; eapply refs_ok_move; try done. intros t [= <-]. by apply Hp.
  - apply use_valid in Hs as (c & _ & ->); [|by apply Hp]. unfold pop_connection.
    destruct (negb (being_processed _)); [exact Hok|destruct (PopValue _) as [q [[v|]| | |]]; try exact Hok];
      (eapply refs_ok_move; [done..|]); [|done]. intros t [= <-]. by apply Hp.
  - injection Hs as <-. unfold call_dispatcher. case_match; [exact Hok|]. (eapply refs_ok_move; [done..|]).
    intros t [= <-]. by apply Hp.
Qed.

Lemma submit_refs st f reads : refs_ok st -> dangled (fst (handle_request st f reads)) = dangled st ->
  refs_ok (fst (handle_request st f reads)).
Proof.
  intros [Hd Hh] E. destruct (handle_request_frame st f reads) as (_ & E2 & _ & _ & _ & _ & E7 & _). cbv zeta in *.
  split; [congruence|]. by rewrite E2, E7.
Qed.

Lemma submit_dangled reads : forall st f, dangled (fst (handle_request st f reads)) = dangled st.
Proof. induction reads as [|[data| |] reads IH]; intros st f; cbn; try done. by rewrite IH. Qed.

Lemma one_worker_refs st0 st : reachable_from st0 st -> in_order st0 -> refs_ok st0 -> refs_ok st.
Proof.
  intros Hr Hin Hok. induction Hr as [|st a st' Hr IH Hs]; [done|].
  destruct a as [f reads|w]; cbn in Hs; [injection Hs as <-; apply submit_refs, submit_dangled; apply IH|].
  eapply work_refs; [exact IH|exact Hs|left]. by destruct (reachable_in_order _ _ Hr Hin) as (p & -> & _).
Qed.

(** *** Clients that are known *)

(** The client whose connection a worker looks for. *)
Definition seeks (p : worker) : option Z := match p with GotJob fd _ => Some fd | _ => None end.

Record all_known (fds : list Z) (st : executor) : Prop := {
  ak_conn : forall fd, fd ∈ fds -> is_Some (client_fd_to_connection_ st !! fd);
  ak_jobs : Forall (fun job => job.1 ∈ fds) (jobs_ st);
  ak_seeks : forall w p fd, workers_ st !! w = Some p -> seeks p = Some fd -> fd ∈ fds;
  ak_create : forall w fd request, workers_ st !! w <> Some (MustCreate fd request)
}.

Lemma all_known_move fds st st' w p' : all_known fds st -> workers_ st' = <[w := p']> (workers_ st) ->
  (forall fd, is_Some (client_fd_to_connection_ st !! fd) -> is_Some (client_fd_to_connection_ st' !! fd)) ->
  Forall (fun job => job.1 ∈ fds) (jobs_ st') -> (forall fd, seeks p' = Some fd -> fd ∈ fds) ->
  (forall fd request, p' <> MustCreate fd request) -> all_known fds st'.
Proof.
  intros [H1 H2 H3 H4] Hw Hc Hj Hs Hm. split; [by auto|done|..].
  - intros w0 p0 fd. rewrite Hw, list_lookup_insert_Some. intros [(_ & <- & _)|[_ H]]; eauto.
  - intros w0 fd request. rewrite Hw, list_lookup_insert_Some. intros [(_ & E & _)|[_ H]]; [by eapply Hm|by eapply H4].
Qed.

Lemma known_insert (m : gmap Z ClientConnection) f c fd : is_Some (m !! fd) -> is_Some (<[f := c]> m !! fd).
Proof. intros H. apply lookup_insert_is_Some. destruct (decide (f = fd)); eauto. Qed.

Lemma work_known fds st w st' : all_known fds st -> work st w = Some st' -> all_known fds st'.
Proof.
  intros Hok Hs. pose proof Hok as [H1 H2 H3 H4]. unfold work in Hs. destruct (stopped st); [done|].
  destruct (workers_ st !! w) as [p|] eqn:Hw; [|done]. destruct p as [|f request|f request|f table request|f table|f table v].
  - destruct (jobs_ st) as [|[fd request] jobs] eqn:Hj; [done|]. injection Hs as <-.
    apply Forall_cons in H2 as [Hfd Hjobs]. eapply all_known_move; try done. by intros fd' [= <-].
  - destruct (H1 f) as [c Hc]; [by eapply H3|]. rewrite Hc in Hs. injection Hs as <-. by eapply all_known_move.
  - by destruct (H4 w f request).
  - apply use_connection_Some in Hs as [->|(c & _ & ->)]; [done|]. unfold begin_connection.
    case_match; (eapply all_known_move; [exact Hok|reflexivity|..]; try done); intros fd; by apply known_insert.
  - apply use_connection_Some in Hs as [->|(c & _ & ->)]; [done|]. unfold pop_connection.
    destruct (negb (being_processed _)); [by split|destruct (PopValue _) as [q [[v|]| | |]]];
      try (eapply all_known_move; [exact Hok|reflexivity|..]; try done; intros fd; by apply known_insert);
      (split; try done; intros fd Hfd; by apply known_insert, H1).
  - injection Hs as <-. unfold call_dispatcher. case_match; [by split|]. by eapply all_known_move.
Qed.

Lemma submit_known fds f reads : forall st, all_known fds st ->
  Forall (fun job => job.1 ∈ fds) (received (fst (handle_request st f reads))) -> all_known fds (fst (handle_request st f reads)).
Proof.
  induction reads as [|[data| |] reads IH]; intros st Hok Hall; cbn in *; try done. apply IH; [|done].
  assert (exists l, received (fst (handle_request (mkExecutor (Submit (jobs_ st) f data) (client_fd_to_connection_ st) (workers_ st)
    (crashed st) (received st ++ [(f, data)]) (appended st) (taken st) (dispatched st) (entries_size st) (resize_count st)
    (dangled st)) f reads)) = (received st ++ [(f, data)]) ++ l) as [l El] by apply received_grows.
  rewrite El, !Forall_app, Forall_singleton in Hall. destruct Hall as [[_ Hf] _], Hok as [H1 H2 H3 H4]. split; cbn; try done.
  apply Forall_app. by rewrite Forall_singleton.
Qed.

Lemma many_workers_refs fds st0 st : reachable_from st0 st -> all_known fds st0 -> refs_ok st0 ->
  Forall (fun job => job.1 ∈ fds) (received st) -> all_known fds st /\ refs_ok st.
Proof.
  intros Hr Hk Hok. induction Hr as [|st a st' Hr IH Hs]; intros Hall; [done|].
  destruct a as [f reads|w]; cbn in Hs.
  - injection Hs as <-. destruct (received_grows st f reads) as [l El]. rewrite El in Hall. destruct IH as [IH1 IH2];
      [by apply Forall_app in Hall as [? _]|]. split; [apply submit_known; [done|by rewrite El]|].
    apply submit_refs; [done|apply submit_dangled].
  - assert (received st' = received st) as E by (by eapply work_received). rewrite E in Hall.
    destruct (IH Hall) as [IH1 IH2]. split; [by eapply work_known|]. eapply work_refs; [done..|]. right. apply IH1.
Qed.

Lemma run_actions_reachable st0 st l st' : reachable_from st0 st -> run_actions st l = Some st' -> reachable_from st0 st'.
Proof.
  revert st. induction l as [|a l IH]; intros st Hr; cbn; [by intros [= <-]|].
  destruct (step st a) as [st1|] eqn:E; [|done]. cbn. apply IH. by eapply reach_next.
Qed.

(** ** Starting points *)

(** An idle executor that already knows the clients [fds], in a table of
    [buckets] buckets. *)
Definition ready (num_threads buckets : nat) (fds : list Z) : executor :=
  mkExecutor [] (list_to_map (map (fun fd => (fd, new_connection)) fds)) (replicate num_threads WaitJob)
    false [] [] [] [] buckets 0 false.

Lemma ready_connection fd fds : fd ∈ fds ->
  (list_to_map (map (fun fd => (fd, new_connection)) fds) : gmap Z ClientConnection) !! fd = Some new_connection.
Proof.
  induction fds as [|f fds IH]; [by intros ?%not_elem_of_nil|]. cbn.
  destruct (decide (f = fd)) as [->|Hne]; [by rewrite lookup_insert_eq|].
  intros [?|Hin]%elem_of_cons; [congruence|]. rewrite lookup_insert_ne by done. by apply IH.
Qed.

Lemma ready_ok num_threads buckets fds fd : fd ∈ fds -> client_ok (ready num_threads buckets fds) fd.
Proof.
  intros Hin. right; left. exists new_connection.
  assert (forall w p, replicate num_threads WaitJob !! w = Some p -> p = WaitJob) as Hall.
  { intros w p [-> _]%lookup_replicate. done. }
  constructor; cbn; try done.
  - by apply ready_connection.
  - by intros w request H%Hall.
  - by intros w w' p p' ->%Hall.
  - split; [done|]. by intros (w & p & ->%Hall & ?).
  - by intros w p ->%Hall.
  - intros vs r _ Hp. by exists vs.
Qed.

Lemma start_ok fd : client_ok (start 1) fd.
Proof. right; right. constructor; try done. by intros [|[|w]] p; cbn; intros [= <-]. Qed.

(** ** Theorems *)

Lemma start_in_order : in_order (start 1).
Proof. by exists WaitJob. Qed.

Lemma start_refs : refs_ok (start 1).
Proof. split; [done|]. by intros [|[|w]] p table; cbn; intros [= <-]. Qed.

Lemma ready_known n buckets fds : all_known fds (ready n buckets fds) /\ refs_ok (ready n buckets fds).
Proof.
  assert (forall w p, replicate n WaitJob !! w = Some p -> p = WaitJob) as Hall by (by intros w p [-> _]%lookup_replicate).
  split; split; cbn; try done.
  - intros fd Hfd. rewrite ready_connection by done. eauto.
  - by intros w p fd ->%Hall.
  - by intros w fd request ?%Hall.
  - by intros w p table ->%Hall.
Qed.

(** Nothing undefined happens. *)
Lemma executor_never_dangles st0 st : 
  st0 = start 1 \/ (exists n buckets fds, st0 = ready n buckets fds /\ Forall (fun chunk => chunk.1 ∈ fds) (received st)) ->
  reachable_from st0 st -> dangled st = false.
Proof.
  intros [->|(n & buckets & fds & -> & Hall)] Hr.
  - apply (one_worker_refs _ _ Hr start_in_order start_refs).
  - destruct (ready_known n buckets fds) as [Hk Hok]. by apply (many_workers_refs fds _ _ Hr Hk Hok Hall).
Qed.

Lemma client_served_in_order st0 st fd vs r :
  st0 = start 1 \/ (exists n buckets fds, st0 = ready n buckets fds /\ fd ∈ fds
                      /\ Forall (fun chunk => chunk.1 ∈ fds) (received st)) ->
  reachable_from st0 st -> crashed st = false ->
  small_str (stream st fd) -> parses (stream st fd) vs r ->
  dangled st = false
  /\ (exists rest, vs = of_client fd (dispatched st) ++ rest)
  /\ (forall w w' p p', workers_ st !! w = Some p -> workers_ st !! w' = Some p' ->
        processing fd p = true -> processing fd p' = true -> w = w')
  /\ ((forall w p, workers_ st !! w = Some p -> processing fd p = false) ->
       of_client fd (dispatched st) = vs)
  /\ (st0 = start 1 -> exists pending,
       of_client fd (received st) = of_client fd (appended st) ++ pending).
Proof.
  intros Hst0 Hr Hcr Hs Hp.
  assert (client_ok st0 fd) as Hok0.
  { destruct Hst0 as [->|(n & buckets & fds & -> & Hin & _)]; [apply start_ok|by apply ready_ok]. }
  assert (st0 = start 1 -> exists pending, of_client fd (received st) = of_client fd (appended st) ++ pending) as Hord.
  { intros ->. destruct (reachable_in_order _ _ Hr start_in_order) as (p & _ & ->). eexists. by rewrite of_client_app. }
  assert (dangled st = false) as Hd.
  { apply (executor_never_dangles st0); [|done]. destruct Hst0 as [->|(n & buckets & fds & -> & _ & Hall)]; [by left|right; eauto]. }
  assert (stopped st = false) as Hst by (unfold stopped; by rewrite Hcr, Hd). split; [done|].
  destruct (reachable_ok _ _ fd Hr Hok0) as [?|[[c Hpr]|Hab]]; [congruence|..].
  - destruct (pr_stream _ _ _ Hpr vs r Hs Hp) as (rv & Hvs & HB). split_and!; [| |intros Hidle|done].
    + destruct (being_processed c) eqn:Hb.
      * destruct (proj1 (pr_flag _ _ _ Hpr) Hb) as (w & p & Hw & Hpp).
        rewrite (pr_hand _ _ _ Hpr _ _ Hw Hpp), <- app_assoc in Hvs. eauto.
      * rewrite (pr_rest _ _ _ Hpr Hb) in Hvs. eauto.
    + apply (pr_one _ _ _ Hpr).
    + assert (being_processed c = false) as Hb.
      { apply not_true_is_false. intros (w & p & Hw & Hpp)%(pr_flag _ _ _ Hpr). by rewrite (Hidle _ _ Hw) in Hpp. }
      destruct (pr_idle _ _ _ Hpr Hb) as [Hv Hi]. destruct (incomplete_parses_nothing _ _ _ Hi HB) as [-> _].
      rewrite Hvs, Hv, (pr_rest _ _ _ Hpr Hb). by rewrite !app_nil_r.
  - assert (vs = []) as ->.
    { unfold stream in Hp. rewrite (ab_appended _ _ Hab) in Hp. by inversion Hp. }
    rewrite (ab_dispatched _ _ Hab). split_and!; [by exists []| |done|done].
    intros w w' p p' Hw _ Hpp. by rewrite (ab_worker _ _ Hab _ _ Hw) in Hpp.
Qed.

(** C19. The requests of a client are executed in order, by one worker at a
    time, and none is forgotten.  Take an executor with a single worker, or one
    with any number of workers that already knows the client and that receives
    chunks only from clients it already knows, so that no worker inserts into
    the connection map.  In every reachable state in which no thread has died,
    with the bytes appended for the client containing the values [vs]: no
    worker has used its reference to a connection after a resize of the map;
    what was dispatched for the client is a prefix of [vs]; at most one worker
    processes the client; when none does, all of [vs] was dispatched; and with
    a single worker the chunks were appended in the order they were received. *)
Theorem executor_serves_in_order st0 st fd vs r :
  st0 = start 1 \/ (exists n buckets fds, st0 = ready n buckets fds /\ fd ∈ fds
                      /\ Forall (fun chunk => chunk.1 ∈ fds) (received st)) ->
  reachable_from st0 st -> crashed st = false ->
  small_str (stream st fd) -> parses (stream st fd) vs r ->
  dangled st = false
  /\ (exists rest, vs = of_client fd (dispatched st) ++ rest)
  /\ (forall w w' p p', workers_ st !! w = Some p -> workers_ st !! w' = Some p' ->
        processing fd p = true -> processing fd p' = true -> w = w')
  /\ ((forall w p, workers_ st !! w = Some p -> processing fd p = false) ->
       of_client fd (dispatched st) = vs)
  /\ (st0 = start 1 -> exists pending,
       of_client fd (received st) = of_client fd (appended st) ++ pending).
Proof. apply client_served_in_order. Qed.

End Workers.

(** ** Two workers *)

Definition set_command (value : string) : RespValue :=
  RespArray [RespBulkString (Some (lit "SET")); RespBulkString (Some (lit "k")); RespBulkString (Some (lit value))].

(** Client 5 sends SET k 1 and then SET k 2, in two packets. *)
Definition two_chunks : list action :=
  [Readable 5 [RecvData (Serialize (set_command "1")); RecvWouldBlock];
   Readable 5 [RecvData (Serialize (set_command "2")); RecvWouldBlock]].

(** No request throws. *)
Definition never (v : RespValue) : bool := false.

(** With two workers the order of a client's requests is not kept: a
    known client sends SET k 1 and then SET k 2 in two packets, each worker
    takes one of the jobs, the second is appended first, and SET k 2 is
    dispatched before SET k 1. *)
Theorem executor_reorders_chunks :
  exists st, reachable_from never (ready 2 16 [5]) st /\ crashed st = false
    /\ received st = [(5, Serialize (set_command "1")); (5, Serialize (set_command "2"))]
    /\ dispatched st = [(5, set_command "2"); (5, set_command "1")].
Proof.
  destruct (run_actions never (ready 2 16 [5])
     (two_chunks ++ map Work [0; 1; 1; 1; 0; 0; 1; 1; 1; 1]%nat)) as [st|] eqn:E; [|vm_compute in E; discriminate].
  exists st. split; [eapply run_actions_reachable; [constructor|exact E]|].
  vm_compute in E. injection E as <-. vm_compute. by split_and!.
Qed.

(** With two workers a connection can be created twice: both find none,
    and the second [Insert] replaces the connection into which the first
    worker has already appended SET k 1.  Both workers then process the
    client at the same time, only SET k 2 is ever dispatched, and the
    assertion on [being_processed] fails. *)
Theorem connection_created_twice :
  (exists st, reachable_from never (start 2) st /\ crashed st = false /\ workers_ st = [Looping 5 0; Looping 5 0])
  /\ exists st, reachable_from never (start 2) st /\ crashed st = true /\ jobs_ st = []
       /\ appended st = received st /\ dispatched st = [(5, set_command "2")].
Proof.
  split.
  - destruct (run_actions never (start 2) (two_chunks ++ map Work [0; 1; 0; 1; 0; 0; 1; 1]%nat)) as [st|] eqn:E;
      [|vm_compute in E; discriminate].
    exists st. split; [eapply run_actions_reachable; [constructor|exact E]|].
    vm_compute in E. injection E as <-. vm_compute. by split_and!.
  - destruct (run_actions never (start 2) (two_chunks ++ map Work [0; 1; 0; 1; 0; 0; 1; 1; 1; 1; 1; 0]%nat))
      as [st|] eqn:E; [|vm_compute in E; discriminate].
    exists st. split; [eapply run_actions_reachable; [constructor|exact E]|].
    vm_compute in E. injection E as <-. vm_compute. by split_and!.
Qed.

(** Thirteen clients, 5 to 17, are known, and client 18 connects. *)
Definition thirteen_clients : list Z := (fun i => Z.of_nat (5 + i)) <$> seq 0 13.

Definition fourteenth_client : list action :=
  [Readable 5 [RecvData (Serialize (set_command "1")); RecvWouldBlock];
   Readable 18 [RecvData (Serialize (set_command "2")); RecvWouldBlock]].

(** With two workers a client that connects can make another worker's reference
    dangling: one worker has looked up client 5, the other creates the
    connection of the 14th client, for which the table of 16 buckets is
    resized, and the first goes on with the reference it has. *)
Theorem new_client_dangles_reference :
  exists st st', reachable_from never (ready 2 16 thirteen_clients) st /\ dangled st = false
    /\ workers_ st = [Handling 5 0 (Serialize (set_command "1")); Handling 18 1 (Serialize (set_command "2"))]
    /\ step never st (Work 0) = Some st' /\ dangled st' = true.
Proof.
  destruct (run_actions never (ready 2 16 thirteen_clients) (fourteenth_client ++ map Work [0; 0; 1; 1; 1]%nat)) as [st|] eqn:E;
    [|vm_compute in E; discriminate].
  exists st, (dangle st). split; [eapply run_actions_reachable; [constructor|exact E]|].
  vm_compute in E. injection E as <-. vm_compute. by split_and!.
Qed.

(** One worker, one client: both requests are dispatched, in order. *)
Lemma executor_serves_in_order_witness :
  exists st, reachable_from never (start 1) st
    /\ of_client 5 (dispatched st) = [set_command "1"; set_command "2"].
Proof.
  destruct (run_actions never (start 1) (two_chunks ++ map Work [0; 0; 0; 0; 0; 0; 0; 0; 0; 0; 0; 0; 0]%nat))
    as [st|] eqn:E; [|vm_compute in E; discriminate].
  assert (reachable_from never (start 1) st) as Hr by (eapply run_actions_reachable; [constructor|exact E]).
  exists st. split; [exact Hr|].
  destruct (executor_serves_in_order never (start 1) st 5 [set_command "1"; set_command "2"] []) as (_ & _ & _ & H & _);
    [by left|exact Hr|..].
  - vm_compute in E. injection E as <-. reflexivity.
  - vm_compute in E. injection E as <-. vm_compute. reflexivity.
  - vm_compute in E. injection E as <-. eapply parses_step; [vm_compute; reflexivity|].
    eapply parses_step; [vm_compute; reflexivity|]. constructor. vm_compute. reflexivity.
  - apply H. intros w p Hw. vm_compute in E. injection E as <-. destruct w as [|w]; [injection Hw as <-; reflexivity|discriminate].
Defined.
