(* ===== verification/V1Server.v ===== *)
(** * The threaded server as a whole: [v1/src/server/ServerApp.cpp], [main.cpp]

    The epoll loop of the main thread, the executor of V1Executor and the
    handlers of V1Handlers, put together: a step is one event of the loop or
    one step of a worker, and when that step is the call of the dispatcher the
    shared store and channels change as [DispatchRequest] says.  An event can
    only be reported for a descriptor in the epoll set.  What [accept] and
    [recv] return is part of the event.

    Theorems: with one worker, the store, the subscriptions and all that was
    sent are those of the requests executed one after the other, each client's
    in the order it sent them; a server that could not bind its port waits
    forever; and bytes of a client that left are taken for the beginning of
    what the next client with its descriptor sends. *)

From S2P Require Import Prelude CxxString RespValue V1RespValue RespValueQueue MapInterface V1Requests V1PubSub V1Logger V1Handlers V1Executor.

(** ** Loggers *)

(** [FileLogger] on standard output, or [NullLogger]. *)
Inductive logger := ToStdout | Nowhere.

Definition log_text (l : logger) (lv : level) (timestamp message : bytes) : bytes :=
  match l with
  | ToStdout => write_line lv timestamp message
  | Nowhere => []
  end.

(** ** [main] *)

Definition usage : bytes :=
  lit "Usage: my_redis_server [OPTION...]" ++ [LF]
  ++ lit "  -l, --log    Log every request and response to stdout (slow; off by default)" ++ [LF]
  ++ lit "  -h, --help   Print usage" ++ [LF].

Inductive main_action :=
| StartServer (enable_request_logging : bool)
| PrintAndExit (printed_out printed_err : bytes) (status : Z).

(** The loop over the arguments. *)
Fixpoint main (args : list bytes) (enable_request_logging : bool) : main_action :=
  match args with
  | [] => StartServer enable_request_logging
  | option :: args =>
      if bool_decide (option = lit "-l") || bool_decide (option = lit "--log") then main args true
      else if bool_decide (option = lit "-h") || bool_decide (option = lit "--help") then PrintAndExit usage [] 0
      else PrintAndExit usage (lit "Unknown option: " ++ option ++ [LF]) 1
  end.

(** ** The server *)

Section App.
Context {SM CS CM NM : Type}.
Context {store_ops : MapOps bytes (option bytes) SM}.
Context {set_ops : SetOps Z CS} {channel_ops : MapOps bytes CS CM} {count_ops : MapOps Z Z NM}.

Record ServerApp := mkApp {
  logger_ : logger;
  request_executor_ : executor;
  shared : ServerState SM CM NM;  (** the store and the channels of the handlers *)
  epoll_fd_ : Z;
  server_fd_ : Z;
  interest : gset Z;  (** the epoll set *)
  closed_fds : list Z;
  events : list event;  (** logged and sent, in order *)
  errors : list bytes  (** logged as errors *)
}.

Definition with_loop (app : ServerApp) (ex : executor) (fds : gset Z) (closed : list Z) (out : list event) : ServerApp :=
  mkApp (logger_ app) ex (shared app) (epoll_fd_ app) (server_fd_ app) fds closed out (errors app).

Definition ready_app (l : logger) (num_threads : nat) (epoll server : Z) (fds : gset Z) (errs : list bytes) : ServerApp :=
  mkApp l (start num_threads) init_server epoll server fds [] [] errs.

(** [hardware]: what [hardware_concurrency] returns. *)
Definition num_workers (hardware : nat) : nat := if (hardware =? 0)%nat then 1%nat else hardware.

(** The constructor; the other arguments are what the calls return. *)
Definition new_app (enable_request_logging : bool) (hardware : nat)
    (epoll_result socket_result bind_result listen_result : Z) : ServerApp :=
  let l := if enable_request_logging then ToStdout else Nowhere in
  let app := ready_app l (num_workers hardware) in
  if epoll_result <? 0 then app epoll_result (-1) ∅ [lit "Failed to create epoll instance"]
  else if socket_result <? 0 then app epoll_result socket_result ∅ [lit "Failed to create server socket"]
  else if negb (bind_result =? 0) then app epoll_result socket_result ∅ [lit "Failed to bind to port 6379"]
  else if negb (listen_result =? 0) then app epoll_result socket_result ∅ [lit "listen failed"]
  else app epoll_result socket_result {[socket_result]} [].

Definition EXIT_FAILURE : Z := 1.

(** [start] up to its loop. *)
Definition start_loop (app : ServerApp) : option Z :=
  if (epoll_fd_ app <? 0) || (server_fd_ app <? 0) then Some EXIT_FAILURE else None.

(** [epoll_ctl] of a descriptor that is not open fails, and the code does not
    look at its result. *)
Definition handle_new_connection (app : ServerApp) (client_fd : Z) : ServerApp :=
  with_loop app (request_executor_ app)
    (if client_fd <? 0 then interest app else {[client_fd]} ∪ interest app)
    (closed_fds app) (events app ++ [Logged (lit "Client connected")]).

Definition handle_client (app : ServerApp) (client_fd : Z) (reads : list recv_result) : ServerApp :=
  let '(ex, closed) := handle_request (request_executor_ app) client_fd reads in
  if closed then
    with_loop app ex (interest app ∖ {[client_fd]}) (closed_fds app ++ [client_fd])
      (events app ++ [Logged (lit "Client closed connection")])
  else with_loop app ex (interest app) (closed_fds app) (events app).

(** What the dispatcher does next, if worker [w] is about to call it. *)
Definition next_dispatch (app : ServerApp) (w : nat) : option (res (ServerState SM CM NM * list event)) :=
  match workers_ (request_executor_ app) !! w with
  | Some (Dispatching fd _ v) => Some (DispatchRequest (shared app) fd v)
  | _ => None
  end.

Definition leaves_thread {A} (r : res A) : bool := match r with Ok _ => false | _ => true end.

Definition work_app (app : ServerApp) (w : nat) : option ServerApp :=
  match next_dispatch app w with
  | None =>
      ex ← work (fun _ => false) (request_executor_ app) w;
      Some (with_loop app ex (interest app) (closed_fds app) (events app))
  | Some r =>
      ex ← work (fun _ => leaves_thread r) (request_executor_ app) w;
      match r with
      | Ok (st, trace) =>
          Some (mkApp (logger_ app) ex st (epoll_fd_ app) (server_fd_ app) (interest app) (closed_fds app)
                  (events app ++ trace) (errors app))
      | _ => Some (with_loop app ex (interest app) (closed_fds app) (events app))
      end
  end.

Inductive app_event :=
| Epoll (fd : Z) (accepted : Z) (reads : list recv_result)
| Worker (w : nat).

Definition app_step (app : ServerApp) (e : app_event) : option ServerApp :=
  match e with
  | Epoll fd accepted reads =>
      if bool_decide (fd ∈ interest app) then
        if fd =? server_fd_ app then Some (handle_new_connection app accepted)
        else Some (handle_client app fd reads)
      else None
  | Worker w => work_app app w
  end.

Fixpoint app_run (app : ServerApp) (es : list app_event) : option ServerApp :=
  match es with
  | [] => Some app
  | e :: es => app ← app_step app e; app_run app es
  end.

(** [~ServerApp]: the descriptors it closes. *)
Definition destroy_app (app : ServerApp) : list Z :=
  filter (fun fd => 0 <= fd) [server_fd_ app; epoll_fd_ app].

End App.
Arguments ServerApp SM CM NM : clear implicits.

(** ** Lemmas: one step *)

Lemma work_ext throws throws' st w :
  (forall fd table v, workers_ st !! w = Some (Dispatching fd table v) -> throws v = throws' v) ->
  work throws st w = work throws' st w.
Proof.
  intros H. unfold work. destruct (stopped st); [done|]. destruct (workers_ st !! w) as [p|] eqn:Hw; [|done].
  destruct p as [| | | | |fd table v]; try done. unfold call_dispatcher. by rewrite (H fd table v).
Qed.

Lemma work_no_dispatch throws st w st' :
  (forall fd table v, workers_ st !! w <> Some (Dispatching fd table v)) -> work throws st w = Some st' ->
  dispatched st' = dispatched st /\ crashed st = false.
Proof.
  intros H Hw. unfold work in Hw. destruct (stopped st) eqn:Hs; [done|].
  assert (crashed st = false) as Hc by (by apply orb_false_iff in Hs as [? _]).
  destruct (workers_ st !! w) as [p|] eqn:Hp; [|done].
  destruct p as [| | | | |fd table v]; [..|by destruct (H fd table v)];
    unfold use_connection, insert_connection, begin_connection, pop_connection in Hw; repeat case_match; simplify_eq; done.
Qed.

Lemma work_dispatch throws st w st' fd table v : workers_ st !! w = Some (Dispatching fd table v) ->
  work throws st w = Some st' ->
  crashed st = false /\ dispatched st' = dispatched st ++ [(fd, v)] /\ crashed st' = throws v.
Proof.
  intros Hp Hw. unfold work in Hw. destruct (stopped st) eqn:Hs; [done|]. apply orb_false_iff in Hs as [Hc _].
  rewrite Hp in Hw. injection Hw as <-.
  unfold call_dispatcher. by destruct (throws v).
Qed.

Lemma total_size_app l l' : total_size (l ++ l') = total_size l + total_size l'.
Proof. induction l as [|[fd v] l IH]; cbn [app total_size]; [done|]. rewrite IH. lia. Qed.

Lemma v1_execs_snoc a l a1 out fd v a2 o :
  v1_execs a l a1 out -> v1_exec a1 fd v a2 o -> v1_execs a (l ++ [(fd, v)]) a2 (out ++ o).
Proof.
  induction 1 as [|a fd' v' a' o' l a1 outs Hx _ IH]; intros Hv; cbn [app].
  - rewrite <- (app_nil_r o). by econstructor; [|constructor].
  - rewrite <- app_assoc. econstructor; [exact Hx|]. by apply IH.
Qed.

Section Serves.
Context {SM CS CM NM : Type}.
Context {store_ops : MapOps bytes (option bytes) SM}.
Context {set_ops : SetOps Z CS} {channel_ops : MapOps bytes CS CM} {count_ops : MapOps Z Z NM}.
Context {store_spec : MapSpec bytes (option bytes) SM}.
Context {set_spec : SetSpec Z CS} {channel_spec : MapSpec bytes CS CM} {count_spec : MapSpec Z Z NM}.
Implicit Types app : ServerApp SM CM NM.

(** The requests at which the dispatcher throws, in every state. *)
Definition throws (v : RespValue) : bool :=
  leaves_thread (DispatchRequest (CS := CS) (init_server : ServerState SM CM NM) 0 v).

Lemma dispatch_serves (st : ServerState SM CM NM) a n fd v :
  server_represents (CS := CS) st a n -> 0 <= n -> n + request_size v < 2 ^ 31 ->
  (exists st' a' trace, DispatchRequest (CS := CS) st fd v = Ok (st', trace)
     /\ v1_exec a fd v a' (sends trace) /\ server_represents (CS := CS) st' a' (n + request_size v))
  \/ (bad_subscription v /\ leaves_thread (DispatchRequest (CS := CS) st fd v) = true).
Proof.
  intros Hr H0 Hn. unfold DispatchRequest.
  destruct (dispatch_loop_spec st a n fd v Hr H0 Hn) as [(st' & a' & t & -> & Hx & Hr')|[Hb [w ->]]]; [left|right].
  - exists st', a'. eexists. split; [done|]. done.
  - done.
Qed.

Lemma not_throws v : request_size v < 2 ^ 31 -> ~ bad_subscription v -> throws v = false.
Proof.
  intros Hn Hb. unfold throws.
  destruct (dispatch_serves init_server empty_model 0 0 v init_represents ltac:(lia) ltac:(lia))
    as [(st' & a' & t & -> & _)|[? _]]; done.
Qed.

(** The state of the handlers is that of the requests dispatched so far. *)
Definition app_inv (n : nat) app : Prop :=
  crashed (request_executor_ app) = false -> total_size (dispatched (request_executor_ app)) < 2 ^ 31 ->
  reachable_from throws (start n) (request_executor_ app)
  /\ exists a, v1_execs empty_model (dispatched (request_executor_ app)) a (sends (events app))
     /\ server_represents (CS := CS) (shared app) a (total_size (dispatched (request_executor_ app))).

Lemma sends_log l m : sends (l ++ [Logged m]) = sends l.
Proof. rewrite sends_app. cbn. by rewrite app_nil_r. Qed.

Lemma work_app_inv n app w app' : app_inv n app -> work_app (CS := CS) app w = Some app' -> app_inv n app'.
Proof.
  intros Hi Hw. unfold work_app, next_dispatch in Hw.
  destruct (workers_ (request_executor_ app) !! w) as [p|] eqn:Hp.
  2: { apply bind_Some in Hw as (ex & Hw & _). unfold work in Hw. rewrite Hp in Hw. by destruct (stopped _). }
  assert ((forall fd table v, p <> Dispatching fd table v) \/ exists fd table v, p = Dispatching fd table v)
    as [Hnd|(fd & table & v & ->)].
  { destruct p; eauto; by left. }
  - replace (match p with Dispatching fd _ v => Some (DispatchRequest (CS := CS) (shared app) fd v) | _ => None end)
      with (@None (res (ServerState SM CM NM * list event))) in Hw by (destruct p; try done; by edestruct Hnd).
    apply bind_Some in Hw as (ex & Hw & [= <-]).
    assert (forall fd table v, workers_ (request_executor_ app) !! w <> Some (Dispatching fd table v)) as Hnd'
      by (intros fd table v; rewrite Hp; intros [= E]; by eapply Hnd).
    destruct (work_no_dispatch _ _ _ _ Hnd' Hw) as [Hd Hc]. intros Hc' Hsz. cbn in *. rewrite Hd in *.
    destruct (Hi Hc Hsz) as [Hr Ha]. split; [|done]. eapply (reach_next _ _ _ (Work w)); [exact Hr|]. cbn.
    rewrite <- Hw. apply work_ext. by intros fd table v ?%Hnd'.
  - apply bind_Some in Hw as (ex & Hw & Happ).
    destruct (work_dispatch _ _ _ _ _ _ _ Hp Hw) as (Hc & Hd & Hc').
    intros Hc1 Hsz.
    assert (request_executor_ app' = ex) as Hex by (destruct (DispatchRequest _ _ _) as [[]| | |]; by injection Happ as <-).
    rewrite Hex in *. rewrite Hd, total_size_app in *. cbn [total_size] in *. rewrite Z.add_0_r in *.
    pose proof (total_size_nonneg (dispatched (request_executor_ app))) as Hn0.
    pose proof (request_size_nonneg v) as Hn1.
    destruct (Hi Hc ltac:(lia)) as (Hr & a & Hx & Hrep).
    destruct (dispatch_serves (shared app) a _ fd v Hrep Hn0 Hsz) as [(st' & a' & t & E & Hv & Hrep')|[_ Hb]].
    2: { rewrite Hb in Hc'. congruence. }
    rewrite E in Happ. injection Happ as <-. cbn. split.
    + eapply (reach_next _ _ _ (Work w)); [exact Hr|]. cbn. rewrite <- Hw. apply work_ext. intros fd' table' v'.
      rewrite Hp. intros [= <- <- <-]. rewrite E. apply not_throws; [lia|]. intros Hbad.
      destruct (bad_subscription_rejected (shared app) fd v Hbad) as [w' E']. congruence.
    + exists a'. rewrite sends_app. split; [by eapply v1_execs_snoc|done].
Qed.

Lemma app_step_inv n app e app' : app_inv n app -> app_step (CS := CS) app e = Some app' -> app_inv n app'.
Proof.
  intros Hi Hs. destruct e as [fd accepted reads|w]; cbn [app_step] in Hs; [|by eapply work_app_inv].
  case_bool_decide as Hin; [|done]. destruct (fd =? server_fd_ app).
  - injection Hs as <-. intros Hc Hsz. cbn [handle_new_connection with_loop request_executor_ events shared] in *.
    rewrite sends_log. by apply Hi.
  - injection Hs as <-. unfold handle_client.
    pose proof (handle_request_frame (request_executor_ app) fd reads) as (_ & _ & _ & _ & _ & E6 & _ & E3).
    destruct (handle_request (request_executor_ app) fd reads) as [ex closed] eqn:Hh. cbn in E3, E6.
    assert (forall fds cl out, sends out = sends (events app) -> app_inv n (with_loop app ex fds cl out)) as H.
    { intros fds cl out Ho Hc Hsz. cbn [with_loop request_executor_ events shared] in *. rewrite E6 in *. rewrite Ho. rewrite E3 in Hc.
      destruct (Hi Hc Hsz) as [Hr Ha]. split; [|done]. eapply (reach_next _ _ _ (Readable fd reads)); [exact Hr|].
      cbn. by rewrite Hh. }
    destruct closed; apply H; [apply sends_log|done].
Qed.

Lemma app_run_inv n es : forall app app', app_inv n app -> app_run (CS := CS) app es = Some app' -> app_inv n app'.
Proof.
  induction es as [|e es IH]; intros app app' Hi H; cbn [app_run] in H; [by injection H as <-|].
  apply bind_Some in H as (app1 & Hs & H). eapply IH; [|exact H]. by eapply app_step_inv.
Qed.

Lemma new_app_inv enable hardware e s b l : app_inv (num_workers hardware) (new_app (CS := CS) enable hardware e s b l).
Proof.
  assert (forall lg n e s fds errs, app_inv n (ready_app lg n e s fds errs)) as H.
  { intros lg n e' s' fds errs _ _. cbn. split; [constructor|]. exists empty_model.
    split; [constructor|apply init_represents]. }
  unfold new_app. repeat case_match; apply H.
Qed.

End Serves.

(** ** Theorems *)

Section Theorems.
Context {SM CS CM NM : Type}.
Context {store_ops : MapOps bytes (option bytes) SM}.
Context {set_ops : SetOps Z CS} {channel_ops : MapOps bytes CS CM} {count_ops : MapOps Z Z NM}.
Context {store_spec : MapSpec bytes (option bytes) SM}.
Context {set_spec : SetSpec Z CS} {channel_spec : MapSpec bytes CS CM} {count_spec : MapSpec Z Z NM}.

(** C18. The threaded server with one worker (on a machine that reports at most
    one processor, or cannot tell) serves its clients.  After any sequence of
    events in which no request ended the process, and in which the requests
    dispatched have fewer than 2^31 elements in all, so that no subscription
    counter overflows: no reference into the connection map was used after a
    resize; what was sent to the clients and what the store holds are those of
    the requests dispatched, executed one after the other as their commands mean
    (the count in a subscription's confirmation being the client's counter of
    subscriptions less cancellations); the requests dispatched for a descriptor
    are those its bytes contain, in order; and when the worker waits and no job
    is left, all requests received on the descriptor have been executed.  A
    descriptor's bytes are those of all the clients that were given its number. *)
Theorem v1_server_serves enable hardware epoll socket es (app : ServerApp SM CM NM) :
  app_run (CS := CS) (new_app (CS := CS) enable hardware epoll socket 0 0) es = Some app -> (hardware <= 1)%nat ->
  let ex := request_executor_ app in
  crashed ex = false -> total_size (dispatched ex) < 2 ^ 31 ->
  dangled ex = false
  /\ (exists a, v1_execs empty_model (dispatched ex) a (sends (events app))
     /\ forall key, LookUp (data_ (shared app)) key = kv a !! key)
  /\ (forall fd vs r, small_str (stream ex fd) -> parses (stream ex fd) vs r ->
        exists rest, vs = of_client fd (dispatched ex) ++ rest)
  /\ (workers_ ex = [WaitJob] -> jobs_ ex = [] ->
      forall fd vs r, let input := concat (of_client fd (received ex)) in
        small_str input -> parses input vs r -> of_client fd (dispatched ex) = vs).
Proof.
  intros Hrun Hh ex Hc Hsz.
  assert (num_workers hardware = 1%nat) as Hn by (unfold num_workers; destruct hardware as [|[|]]; done || lia).
  pose proof (app_run_inv (CS := CS) _ es _ _ (new_app_inv (CS := CS) enable hardware epoll socket 0 0) Hrun) as Hi.
  rewrite Hn in Hi. destruct (Hi Hc Hsz) as (Hr & a & Hx & Hrep). fold ex in Hr, Hx, Hrep. split_and!.
  - apply (executor_never_dangles throws (start 1)); [by left|done].
  - exists a. split; [done|]. intros key. rewrite <- (sr_data _ _ _ Hrep). apply LookUp_abs, Hrep.
  - intros fd vs r Hs Hp.
    by destruct (client_served_in_order throws (start 1) ex fd vs r (or_introl eq_refl) Hr Hc Hs Hp) as (_ & H & _).
  - intros Hw Hj fd vs r input Hs Hp.
    destruct (reachable_in_order _ _ _ Hr) as (p & Hp' & Hord); [by exists WaitJob|].
    rewrite Hw in Hp'. injection Hp' as <-. rewrite Hj in Hord. cbn in Hord. rewrite app_nil_r in Hord.
    unfold input in *. rewrite Hord in Hs, Hp.
    destruct (client_served_in_order throws (start 1) ex fd vs r (or_introl eq_refl) Hr Hc Hs Hp) as (_ & _ & _ & H & _).
    apply H. intros w p Hwp. rewrite Hw in Hwp. by destruct w as [|w]; [injection Hwp as <-|].
Qed.

(** A server that could not bind its port, or not listen on it, does not stop:
    [start] enters its loop, in which nothing can ever happen. *)
Theorem unbound_server_waits enable hardware epoll socket bind_result listen_result :
  0 <= epoll -> 0 <= socket -> bind_result <> 0 \/ listen_result <> 0 ->
  let app := new_app (CS := CS) (CM := CM) (SM := SM) (NM := NM) enable hardware epoll socket bind_result listen_result in
  start_loop app = None /\ errors app <> []
  /\ forall es app', app_run (CS := CS) app es = Some app' -> es = [].
Proof.
  intros He Hs Hbl app.
  assert (exists l errs, app = ready_app (CS := CS) l (num_workers hardware) epoll socket ∅ errs /\ errs <> [])
    as (l & errs & -> & Herr).
  { unfold app, new_app. rewrite (proj2 (Z.ltb_ge epoll 0)), (proj2 (Z.ltb_ge socket 0)) by done.
    destruct (bind_result =? 0) eqn:Eb; cbn [negb]; [|by eexists _, _].
    destruct (listen_result =? 0) eqn:El; cbn [negb]; [|by eexists _, _]. reflect_bools. by destruct Hbl. }
  split_and!; [|done|].
  - unfold start_loop. cbn. by rewrite (proj2 (Z.ltb_ge epoll 0)), (proj2 (Z.ltb_ge socket 0)) by done.
  - intros [|e es] app' H; [done|]. cbn [app_run] in H. apply bind_Some in H as (app1 & H & _). exfalso.
    destruct e as [fd acc reads|w]; cbn [app_step] in H.
    + cbn [ready_app interest] in H. rewrite bool_decide_eq_false_2 in H by set_solver. done.
    + unfold work_app, next_dispatch in H. cbn [ready_app request_executor_ start workers_] in H.
      destruct (replicate _ WaitJob !! w) as [p|] eqn:Hp.
      * apply lookup_replicate in Hp as Hp'. destruct Hp' as [-> _].
        apply bind_Some in H as (ex & H & _). unfold work in H. cbn in H. by rewrite Hp in H.
      * apply bind_Some in H as (ex & H & _). unfold work in H. cbn in H. by rewrite Hp in H.
Qed.

End Theorems.

(** ** Runs over the standard map *)

Section Runs.
#[local] Abbreviation clients := (gmap Z ()).
#[local] Abbreviation std_app := (ServerApp (gmap bytes (option bytes)) (gmap bytes clients) (gmap Z Z)).
#[local] Instance std_map {K V} `{Countable K} : MapOps K V (gmap K V) := StandardMap.ops map_to_list.
#[local] Instance std_map_spec {K V} `{Countable K} : MapSpec K V (gmap K V) :=
  StandardMap.spec map_to_list (fun _ => reflexivity _).
#[local] Existing Instance MapBasedSet.ops.
#[local] Existing Instance MapBasedSet.spec.

#[local] Abbreviation new := (new_app (CS := clients) false 1 3 4 0 0 : std_app).

(** Client 5 connects. *)
Definition connects : app_event := Epoll 4 5 [].
Definition sends_bytes (b : bytes) : app_event := Epoll 5 (-1) [RecvData b; RecvWouldBlock].
Definition leaves : app_event := Epoll 5 (-1) [RecvClosed].

(** The beginning of an array of two. *)
Definition half_request : bytes := lit "*2" ++ crlf ++ lit "$4" ++ crlf ++ lit "ECHO" ++ crlf.

Definition get_k : RespValue := request "GET" [Some (lit "k")].

(** C36. Bytes of a client that left reach the next client.  A client sends
    half a request and leaves; the next client is given the same descriptor
    and sends a complete GET.  The server takes both for one request, an array
    that contains the GET, and answers it with an error; the GET of the second
    client is not executed. *)
Theorem stale_bytes_reach_next_client :
  exists app : std_app,
    app_run (CS := clients) new
      ([connects; sends_bytes half_request; leaves] ++ map Worker (replicate 5 0%nat)
         ++ [connects; sends_bytes (serialize get_k)] ++ map Worker (replicate 6 0%nat)) = Some app
    /\ crashed (request_executor_ app) = false /\ closed_fds app = [5]
    /\ received (request_executor_ app) = [(5, half_request); (5, serialize get_k)]
    /\ dispatched (request_executor_ app) = [(5, RespArray [RespBulkString (Some (lit "ECHO")); get_k])]
    /\ sends (events app) = [(5, serialize (RespSimpleError (lit "Unknown subcommand or command")))]
    /\ workers_ (request_executor_ app) = [WaitJob] /\ jobs_ (request_executor_ app) = [].
Proof. eexists. split; [vm_compute; reflexivity|]. vm_compute. by split_and!. Qed.

Lemma v1_server_serves_witness :
  exists app : std_app,
    app_run (CS := clients) new ([connects; sends_bytes (serialize get_k)] ++ map Worker (replicate 7 0%nat)) = Some app
    /\ of_client 5 (dispatched (request_executor_ app)) = [get_k].
Proof.
  destruct (checked_some
    (app_run (CS := clients) new ([connects; sends_bytes (serialize get_k)] ++ map Worker (replicate 7 0%nat)))
    (fun app => let ex := request_executor_ app in
       negb (crashed ex) && (total_size (dispatched ex) <? 2 ^ 31)
       && match workers_ ex with [WaitJob] => true | _ => false end && match jobs_ ex with [] => true | _ => false end
       && bool_decide (received ex = [(5, serialize get_k)]))) as (app & E & H).
  { vm_compute. reflexivity. }
  exists app. split; [exact E|]. rewrite !andb_true_iff in H. destruct H as ((((H1 & H2) & H3) & H4) & H5).
  apply negb_true_iff in H1. apply Z.ltb_lt in H2. apply bool_decide_eq_true in H5.
  destruct (v1_server_serves (CS := clients) (CM := gmap bytes clients) (SM := gmap bytes (option bytes))
    (NM := gmap Z Z) false 1 3 4 _ app E (le_n 1) H1 H2) as (_ & _ & _ & Hall).
  destruct (workers_ (request_executor_ app)) as [|[] []]; try discriminate H3.
  destruct (jobs_ (request_executor_ app)); [|discriminate H4].
  apply (Hall eq_refl eq_refl 5 [get_k] []); rewrite H5.
  - vm_compute. reflexivity.
  - eapply parses_step; [vm_compute; reflexivity|]. constructor. vm_compute. reflexivity.
Defined.

End Runs.
