(* ===== verification/V1Start.v ===== *)
(** * The event loop and the end of the first server: [v1/src/server/ServerApp.cpp]

    [ServerApp::start] around the events of V1Server: [epoll_wait] reports up
    to sixteen descriptors of the epoll set at a time, is interrupted, or
    fails; the events of a report are handled one after the other, while the
    workers run.  Then the end of the process: [main] returns what [start]
    returned, and the executor is destroyed member by member while its threads
    are running.

    Theorems: every event of a report can be handled when its turn comes, and
    the loop is a run of V1Server's events, so what is proved there holds of
    it; and the end of the process is undefined behaviour whenever [start]
    returns. *)

From S2P Require Import Prelude CxxString RespValue RespValueQueue MapInterface V1Requests V1PubSub V1Logger V1Handlers V1Executor V1Server.

(** ** The loop *)

Definition MAX_EVENTS : nat := 16.

(** A descriptor [epoll_wait] reports, with what [accept] or [recv] will
    return when it is handled. *)
Record report := mkReport {
  ready_fd : Z;
  accepted_fd : Z;
  arrived : list recv_result
}.

Inductive wait_result :=
| Reported (evs : list report)
| WaitInterrupted
| WaitFailed.

Inductive start_move :=
| EpollWait (r : wait_result)
| HandleNext
| WorkerStep (w : nat).

Section Start.
Context {SM CS CM NM : Type}.
Context {store_ops : MapOps bytes (option bytes) SM}.
Context {set_ops : SetOps Z CS} {channel_ops : MapOps bytes CS CM} {count_ops : MapOps Z Z NM}.
Implicit Types app : ServerApp SM CM NM.

(** In [start]: the rest of the last report, and what [start] has returned. *)
Record serving := mkServing {
  server : ServerApp SM CM NM;
  pending : list report;
  returned : option Z
}.

(** [start] is called. *)
Definition call_start app : serving := mkServing app [] (start_loop app).

Definition log_error app (message : bytes) : ServerApp SM CM NM :=
  mkApp (logger_ app) (request_executor_ app) (shared app) (epoll_fd_ app) (server_fd_ app) (interest app)
    (closed_fds app) (events app) (errors app ++ [message]).

(** What [epoll_wait] may report: some descriptors of the set, each once. *)
Definition report_ok app (evs : list report) : bool :=
  (0 <? length evs)%nat && (length evs <=? MAX_EVENTS)%nat
  && bool_decide (NoDup (ready_fd <$> evs)) && forallb (fun e => bool_decide (ready_fd e ∈ interest app)) evs.

Definition start_step (s : serving) (m : start_move) : option serving :=
  match returned s with
  | Some _ => None
  | None =>
      match m with
      | EpollWait r =>
          match pending s, r with
          | [], Reported evs => if report_ok (server s) evs then Some (mkServing (server s) evs None) else None
          | [], WaitInterrupted => Some s
          | [], WaitFailed => Some (mkServing (log_error (server s) (lit "epoll_wait failed")) [] (Some EXIT_FAILURE))
          | _, _ => None
          end
      | HandleNext =>
          match pending s with
          | [] => None
          | e :: rest =>
              app ← app_step (CS := CS) (server s) (Epoll (ready_fd e) (accepted_fd e) (arrived e));
              Some (mkServing app rest None)
          end
      | WorkerStep w =>
          app ← work_app (CS := CS) (server s) w;
          Some (mkServing app (pending s) None)
      end
  end.

Fixpoint start_run (s : serving) (ms : list start_move) : option serving :=
  match ms with
  | [] => Some s
  | m :: ms => s ← start_step s m; start_run s ms
  end.

(** ** The end of the process *)

(** The members of [RequestExecutor]. *)
Inductive executor_member :=
| Workers  (** [workers_]: joinable threads, [std::terminate] *)
| Dispatcher  (** [dispatcher_] *)
| Jobs  (** [jobs_]: its condition variable and mutex *)
| Connections.  (** [client_fd_to_connection_] *)

(** In the order of their declaration. *)
Definition declared : list executor_member := [Workers; Dispatcher; Jobs; Connections].

Inductive process_end :=
| ExitStatus (status : Z)
| Terminated  (** [std::terminate] *)
| Undefined (member : executor_member).  (** a member was destroyed that a thread goes on using *)

(** A thread in [Worker] goes on to use the connection map and the dispatcher
    unless it waits for a job, and in the end calls [jobs_.Pop], in which it waits on the condition
    variable. *)
Definition uses (p : worker) (m : executor_member) : bool :=
  match m with
  | Workers => false
  | Jobs => true
  | Dispatcher | Connections => match p with WaitJob => false | _ => true end
  end.

(** The destructor of the executor destroys its members one after the other.
    No thread is ever joined or detached. *)
Fixpoint destroy (threads : list worker) (members : list executor_member) (status : Z) : process_end :=
  match members with
  | [] => ExitStatus status
  | m :: members =>
      if existsb (fun p => uses p m) threads then Undefined m
      else
        match m, threads with
        | Workers, _ :: _ => Terminated
        | _, _ => destroy threads members status
        end
  end.

(** The end of [main] once [start] has returned: members are destroyed in the
    reverse order of their declaration. *)
Definition end_of_main (s : serving) : option process_end :=
  status ← returned s;
  Some (destroy (workers_ (request_executor_ (server s))) (reverse declared) status).

(** ** Lemmas *)

(** The events of V1Server in a run of the loop. *)
Fixpoint handled (pending : list report) (ms : list start_move) : list app_event :=
  match ms with
  | [] => []
  | EpollWait (Reported evs) :: ms => handled evs ms
  | EpollWait _ :: ms => handled pending ms
  | HandleNext :: ms =>
      match pending with
      | e :: rest => Epoll (ready_fd e) (accepted_fd e) (arrived e) :: handled rest ms
      | [] => []
      end
  | WorkerStep w :: ms => Worker w :: handled pending ms
  end.

(** The same but for what is logged as an error. *)
Definition same_but_errors app app' : Prop :=
  app' = mkApp (logger_ app) (request_executor_ app) (shared app) (epoll_fd_ app) (server_fd_ app) (interest app)
           (closed_fds app) (events app) (errors app').

Definition pending_ok (s : serving) : Prop :=
  NoDup (ready_fd <$> pending s) /\ Forall (fun e => ready_fd e ∈ interest (server s)) (pending s).

Lemma work_app_interest app w app' : work_app (CS := CS) app w = Some app' ->
  interest app' = interest app /\ length (workers_ (request_executor_ app')) = length (workers_ (request_executor_ app)).
Proof.
  intros H. assert (forall throws ex, work throws (request_executor_ app) w = Some ex ->
    length (workers_ ex) = length (workers_ (request_executor_ app))) as Hl.
  { intros throws ex Hw. unfold work, use_connection in Hw. repeat case_match; try done; injection Hw as <-;
      unfold insert_connection, begin_connection, pop_connection, call_dispatcher; repeat case_match; cbn; by rewrite ?length_insert. }
  unfold work_app in H. repeat case_match; apply bind_Some in H as (ex & Hw & H); injection H as <-; cbn; eauto.
Qed.

Lemma epoll_interest app fd accepted reads app' : app_step (CS := CS) app (Epoll fd accepted reads) = Some app' ->
  interest app ∖ {[fd]} ⊆ interest app'
  /\ length (workers_ (request_executor_ app')) = length (workers_ (request_executor_ app)).
Proof.
  cbn [app_step]. case_bool_decide; [|done]. destruct (fd =? server_fd_ app); intros [= <-].
  - cbn. split; [|done]. case_match; set_solver.
  - unfold handle_client. pose proof (handle_request_frame (request_executor_ app) fd reads) as (_ & E & _).
    destruct (handle_request (request_executor_ app) fd reads) as [ex closed]. cbn in E.
    split; destruct closed; cbn; by rewrite ?E || set_solver.
Qed.

Lemma start_step_ok s m s' : pending_ok s -> start_step s m = Some s' ->
  pending_ok s' /\ length (workers_ (request_executor_ (server s'))) = length (workers_ (request_executor_ (server s)))
  /\ (forall status, returned s' = Some status -> status = EXIT_FAILURE).
Proof.
  intros [Hnd Hin] Hs. unfold start_step in Hs. destruct (returned s) eqn:Hret; [done|]. destruct m as [r| |w].
  - destruct (pending s) eqn:Hp; [|done]. destruct r as [evs| |]; [destruct (report_ok _ _) eqn:Hr; [|done]|..]; injection Hs as <-.
    + unfold report_ok in Hr. rewrite !andb_true_iff in Hr. destruct Hr as [[_ Hd%bool_decide_eq_true] Hi].
      split; [split; [done|]|done]. rewrite forallb_forall in Hi. apply Forall_forall. intros e He%list_elem_of_In.
      by apply Hi, bool_decide_eq_true in He.
    + split; [split; rewrite Hp; [apply NoDup_nil_2|apply Forall_nil_2]|]. split; [done|]. intros status Hst. congruence.
    + cbn. split; [split; [apply NoDup_nil_2|apply Forall_nil_2]|]. split; [done|]. by intros status [= <-].
  - destruct (pending s) as [|e rest]; [done|]. apply bind_Some in Hs as (app & Ha & Hs). injection Hs as <-. cbn in *.
    apply NoDup_cons in Hnd as [Hne Hnd]. apply Forall_cons in Hin as [_ Hin].
    destruct (epoll_interest _ _ _ _ _ Ha) as [Hsub Hl]. split; [split; cbn; [done|]|done].
    rewrite Forall_forall in Hin |- *. intros e' He'. apply Hsub, elem_of_difference. split; [by apply Hin|].
    intros E%elem_of_singleton. apply Hne, list_elem_of_fmap. by exists e'.
  - apply bind_Some in Hs as (app & Ha & Hs). injection Hs as <-. cbn.
    destruct (work_app_interest _ _ _ Ha) as [Hi Hl]. split; [split; cbn; [done|by rewrite Hi]|done].
Qed.

Lemma start_run_handled ms : forall s s', pending_ok s -> (forall status, returned s = Some status -> status = EXIT_FAILURE) ->
  start_run s ms = Some s' ->
  (exists app', app_run (CS := CS) (server s) (handled (pending s) ms) = Some app' /\ same_but_errors app' (server s'))
  /\ pending_ok s' /\ length (workers_ (request_executor_ (server s'))) = length (workers_ (request_executor_ (server s)))
  /\ (forall status, returned s' = Some status -> status = EXIT_FAILURE).
Proof.
  induction ms as [|m ms IH]; intros s s' Hp Hret Hr; cbn [start_run] in Hr.
  { injection Hr as <-. split; [|done]. exists (server s). split; [done|]. by destruct (server s). }
  apply bind_Some in Hr as (s1 & Hs & Hr). destruct (start_step_ok s m s1 Hp Hs) as (Hp1 & Hl1 & Hret1).
  destruct (IH s1 s' Hp1 Hret1 Hr) as ((app' & Hrun & Hsame) & Hp' & Hl' & Hret'). split; [|split_and!; [done|congruence|done]].
  unfold start_step in Hs. destruct (returned s); [done|]. destruct m as [r| |w]; cbn [handled].
  - destruct (pending s) eqn:Hps; [|done]. destruct r as [evs| |]; [destruct (report_ok _ _); [|done]|..]; injection Hs as <-.
    + by exists app'.
    + rewrite <- Hps. by exists app'.
    + destruct ms as [|m ms]; [|done]. exists (server s). split; [done|]. by injection Hr as <-.
  - destruct (pending s) as [|e rest]; [done|]. apply bind_Some in Hs as (app & Ha & Hs). injection Hs as <-.
    exists app'. cbn [app_run]. rewrite Ha. done.
  - apply bind_Some in Hs as (app & Ha & Hs). injection Hs as <-. exists app'. cbn [app_run app_step]. rewrite Ha. done.
Qed.

(** ** Theorems *)

Lemma destroy_undefined threads status : threads <> [] ->
  exists m, destroy threads (reverse declared) status = Undefined m.
Proof.
  intros Hne. destruct threads as [|p threads]; [done|]. change (reverse declared) with [Connections; Jobs; Dispatcher; Workers].
  cbn [destroy]. case_match; [by eexists|]. by exists Jobs.
Qed.

(** C20. The event loop serves what it is told of, and the process has no
    defined end.  After any interleaving of [start] with
    the workers, from the constructor on: the server is in the state V1Server
    gives for the events handled so far, in the order they were reported, and
    the steps of the workers (so its clients are served as V1Server shows),
    but for logged errors; while a report is not done, its next event can be
    handled, also when earlier ones have closed connections; and whenever
    [start] has returned, whether at once because the constructor failed or
    after an error of [epoll_wait], it returned [EXIT_FAILURE], and the end of
    [main] is undefined behaviour: the executor's connection map and job queue
    are destroyed, in this order and before its threads, which are never joined
    and go on using them. *)
Theorem start_serves_end_undefined enable hardware epoll socket bind_result listen_result ms (s : serving) :
  start_run (call_start (new_app (CS := CS) enable hardware epoll socket bind_result listen_result)) ms = Some s ->
  (exists app', app_run (CS := CS) (new_app (CS := CS) enable hardware epoll socket bind_result listen_result) (handled [] ms) = Some app'
     /\ same_but_errors app' (server s))
  /\ (returned s = None -> pending s <> [] -> exists s', start_step s HandleNext = Some s')
  /\ (forall status, returned s = Some status -> status = EXIT_FAILURE /\ exists member, end_of_main s = Some (Undefined member)).
Proof.
  intros Hr. set (app := new_app enable hardware epoll socket bind_result listen_result) in *.
  assert (length (workers_ (request_executor_ app)) = num_workers hardware) as Hw.
  { unfold app, new_app. repeat case_match; cbn; apply length_replicate. }
  destruct (start_run_handled ms (call_start app) s) as (Hrun & [Hnd Hin] & Hl & Hret); [|unfold call_start, start_loop; cbn| |].
  - split; [apply NoDup_nil_2|apply Forall_nil_2].
  - intros status. case_match; [by intros [= <-]|done].
  - exact Hr.
  - split; [exact Hrun|]. split.
    + intros Hn Hp. unfold start_step. rewrite Hn. destruct (pending s) as [|e rest]; [done|].
      apply Forall_cons in Hin as [Hfd _]. cbn [app_step]. rewrite bool_decide_true by done.
      destruct (_ =? _); by eexists.
    + intros status Hst. split; [by apply Hret|]. unfold end_of_main. rewrite Hst. cbn [mbind option_bind].
      destruct (destroy_undefined (workers_ (request_executor_ (server s))) status) as [m ->]; [|by exists m]. intros E. rewrite E in Hl. cbn [call_start server] in Hl. rewrite Hw in Hl.
      unfold num_workers in Hl. destruct hardware; done.
Qed.

End Start.
Arguments serving SM CM NM : clear implicits.

(** *** Witness *)

#[local] Abbreviation clients := (gmap Z ()).
#[local] Abbreviation std_serving := (serving (gmap bytes (option bytes)) (gmap bytes clients) (gmap Z Z)).
#[local] Instance std_map {K V} `{Countable K} : MapOps K V (gmap K V) := StandardMap.ops map_to_list.
#[local] Existing Instance MapBasedSet.ops.

(** A client connects; then [epoll_wait] fails. *)
#[local] Abbreviation new := (new_app (CS := clients) (SM := gmap bytes (option bytes)) (CM := gmap bytes clients) (NM := gmap Z Z)
  false 1 3 4 0 0).

Lemma start_serves_end_undefined_witness :
  exists s : std_serving,
    start_run (CS := clients) (call_start new) [EpollWait (Reported [mkReport 4 5 []]); HandleNext; EpollWait WaitFailed] = Some s
    /\ returned s = Some 1 /\ exists member, end_of_main s = Some (Undefined member).
Proof.
  destruct (checked_some
    (start_run (CS := clients) (call_start new) [EpollWait (Reported [mkReport 4 5 []]); HandleNext; EpollWait WaitFailed])
    (fun s => match returned s with Some status => status =? 1 | None => false end)) as (s & E & H).
  { vm_compute. reflexivity. }
  exists s. split; [exact E|]. destruct (returned s) as [status|] eqn:Hr; [|discriminate H]. apply Z.eqb_eq in H as ->.
  split; [reflexivity|].
  exact (proj2 (proj2 (proj2 (start_serves_end_undefined false 1 3 4 0 0 _ s E)) 1 Hr)).
Defined.
