(* ===== verification/Conformance.v ===== *)
(** * The tests of the repository, run on the model

    [v2/tests/parser_tests.cc] (and [v1/tests/ParserTests.cpp], the same cases),
    [v2/tests/store_tests.cc] without its timings, and the scripts of
    [v2/tests/e2e/], as tables of inputs and expectations.  The parser is run
    on the inputs as it is; the map tests and the end-to-end tests are proved
    for every implementation of the map interface at once, the probing table
    is run on a hash function with collisions.  The names in the comments are
    those of the tests. *)

From S2P Require Import Prelude CxxString RespValue V1RespValue MapInterface LinkedListHashmap LinearProbingHashmap Store Handlers CommandSpec Server.

(** Lines, each with its CRLF. *)
Definition wire (l : list string) : bytes := flat_map (fun s => lit s ++ crlf) l.

(** ** The parser *)

Inductive expectation :=
| Parses (v : RespValue)
| ThrowsInvalidArgument
| ThrowsOutOfRange.

Definition bulk (s : string) : RespValue := RespBulkString (Some (lit s)).

Definition parser_tests : list (bytes * expectation) :=
  [ (* ParseSimpleString, ..Empty, ..WithSpaces *)
    (wire ["+OK"], Parses (RespSimpleString (lit "OK")));
    (wire ["+"], Parses (RespSimpleString []));
    (wire ["+Hello World"], Parses (RespSimpleString (lit "Hello World")));
    (* ParseSimpleError, ..Empty, ..Complex *)
    (wire ["-Error message"], Parses (RespSimpleError (lit "Error message")));
    (wire ["-"], Parses (RespSimpleError []));
    (wire ["-ERR unknown command 'foobar'"], Parses (RespSimpleError (lit "ERR unknown command 'foobar'")));
    (* ParseIntegerPositive, ..Negative, ..Zero, ..MaxValue, ..MinValue *)
    (wire [":1000"], Parses (RespInteger 1000));
    (wire [":-1000"], Parses (RespInteger (-1000)));
    (wire [":0"], Parses (RespInteger 0));
    (wire [":9223372036854775807"], Parses (RespInteger 9223372036854775807));
    (wire [":-922337203685477580"], Parses (RespInteger (-922337203685477580)));
    (* ParseBulkStringNormal, ..Empty, ..Null, ..WithNewlines *)
    (wire ["$6"; "foobar"], Parses (bulk "foobar"));
    (wire ["$0"; ""], Parses (RespBulkString (Some [])));
    (wire ["$-1"], Parses (RespBulkString None));
    (wire ["$12"; "hello"; "world"], Parses (RespBulkString (Some (lit "hello" ++ crlf ++ lit "world"))));
    (* ParseArrayEmpty, ..TwoStrings, ..MixedTypes, ..WithNullElements *)
    (wire ["*0"], Parses (RespArray []));
    (wire ["*2"; "$3"; "foo"; "$3"; "bar"], Parses (RespArray [bulk "foo"; bulk "bar"]));
    (wire ["*3"; ":1"; ":2"; ":3"], Parses (RespArray [RespInteger 1; RespInteger 2; RespInteger 3]));
    (wire ["*3"; "$3"; "foo"; "$-1"; "$3"; "bar"],
     Parses (RespArray [bulk "foo"; RespBulkString None; bulk "bar"]));
    (* ParseNestedArray *)
    (wire ["*2"; "*3"; ":1"; ":2"; ":3"; "*2"; "+Foo"; "-Bar"],
     Parses (RespArray [RespArray [RespInteger 1; RespInteger 2; RespInteger 3];
                        RespArray [RespSimpleString (lit "Foo"); RespSimpleError (lit "Bar")]]));
    (* ParseInvalidTypePrefix, ..MissingCRLF, ..InvalidInteger, ..BulkStringLengthMismatch,
       ..NegativeBulkStringLengthNotMinusOne, ..ArrayCountMismatch *)
    (wire ["@invalid"], ThrowsInvalidArgument);
    (lit "+OK", ThrowsOutOfRange);
    (wire [":not_a_number"], ThrowsInvalidArgument);
    (wire ["$6"; "foo"], ThrowsOutOfRange);
    (wire ["$-2"], ThrowsInvalidArgument);
    (wire ["*2"; "$3"; "foo"], ThrowsOutOfRange) ].

Definition meets (r : res (RespValue * nat)) (e : expectation) : bool :=
  match r, e with
  | Ok (v, _), Parses v' => bool_decide (v = v')
  | Throw (InvalidArgument _), ThrowsInvalidArgument => true
  | Throw (OutOfRange _), ThrowsOutOfRange => true
  | _, _ => false
  end.

(** Both parsers meet every expectation. *)
Example parser_tests_pass :
  forallb (fun '(input, e) => meets (RespValue.FromString input) e && meets (V1RespValue.FromString input) e)
    parser_tests = true.
Proof. vm_compute. reflexivity. Qed.

(** [RespSerializeTests] *)
Definition serialize_tests : list (RespValue * bytes) :=
  [ (RespSimpleString (lit "OK"), wire ["+OK"]);
    (RespSimpleError (lit "ERR unknown command"), wire ["-ERR unknown command"]);
    (RespInteger 42, wire [":42"]);
    (bulk "foobar", wire ["$6"; "foobar"]);
    (RespBulkString None, wire ["$-1"]);
    (RespArray [], wire ["*0"]);
    (RespArray [RespSimpleString (lit "foo"); RespInteger 123; bulk "bar"],
     wire ["*3"; "+foo"; ":123"; "$3"; "bar"]) ].

Example serialize_tests_pass :
  forallb (fun '(v, s) => bool_decide (RespValue.Serialize v = s) && bool_decide (V1RespValue.serialize v = s))
    serialize_tests = true.
Proof. vm_compute. reflexivity. Qed.

(** ** The maps *)

(** What a test does to a new map, and what it then finds: a key with its
    value, or all elements. *)
Inductive finding :=
| Finds (key : bytes) (value : option Z)
| Gathers (elements : list (bytes * Z)).

#[local] Abbreviation ins k v := (OpInsert (lit k) v).
#[local] Abbreviation rem k := (OpRemove (lit k)).

Definition map_tests : list (list (map_op bytes Z) * list finding) :=
  [ (* InsertAndLookUp, LookUpNonExistent, InsertRemoveLookUp, RemoveNonExistent, UpdateValue *)
    ([ins "one" 1], [Finds (lit "one") (Some 1)]);
    ([], [Finds (lit "nonexistent") None]);
    ([ins "one" 1; rem "one"], [Finds (lit "one") None]);
    ([rem "nonexistent"], []);
    ([ins "one" 1; ins "one" 100], [Finds (lit "one") (Some 100)]);
    (* MultipleInsertions, OperationsAreIsolated, ForEachCollectsAllItems *)
    ([ins "one" 1; ins "two" 2; ins "three" 3],
     [Finds (lit "one") (Some 1); Finds (lit "two") (Some 2); Finds (lit "three") (Some 3)]);
    ([ins "one" 1; ins "two" 2; rem "one"], [Finds (lit "one") None; Finds (lit "two") (Some 2)]);
    ([ins "one" 1; ins "two" 2; ins "three" 3],
     [Gathers [(lit "one", 1); (lit "two", 2); (lit "three", 3)]]) ].

(** [gathered] is a [std::map]: the order of the visits does not show in it. *)
Definition found (lookup : bytes -> option Z) (visited : list (bytes * Z)) (f : finding) : Prop :=
  match f with
  | Finds k v => lookup k = v
  | Gathers l => (list_to_map visited : gmap bytes Z) = list_to_map l
  end.

(** On the finite map they come out; so they do for every class that keeps the
    contract of the interface. *)
Lemma map_tests_specified :
  Forall (fun '(l, fs) => let m := fold_left run_finite_op l (∅ : gmap bytes Z) in
            Forall (fun f => match f with Finds k v => m !! k = v | Gathers l => m = list_to_map l end) fs) map_tests.
Proof. unfold map_tests. repeat constructor; vm_compute; reflexivity. Qed.

Theorem map_tests_pass {M} {ops : MapOps bytes Z M} {spec : MapSpec bytes Z M} :
  Forall (fun '(l, fs) => let m := fold_left run_map_op l (EmptyMap : M) in
            Forall (found (LookUp m) (ForEach m)) fs) map_tests.
Proof.
  eapply Forall_impl; [exact map_tests_specified|]. intros [l fs] Hl. cbv zeta in Hl |- *.
  destruct (run_map_ops_refines l (EmptyMap : M) EmptyMap_inv) as [Hi Ha]. rewrite EmptyMap_abs in Ha.
  rewrite <- Ha in Hl. eapply Forall_impl; [exact Hl|]. intros [k v|e] Hf; cbn.
  - by rewrite LookUp_abs.
  - rewrite <- Hf. pose proof (ForEach_abs _ Hi) as Hp. apply map_eq. intros k.
    rewrite <- (list_to_map_to_list (map_abs _)). f_equal. apply list_to_map_proper; [|done].
    rewrite Hp. apply NoDup_fst_map_to_list.
Qed.

(** The two classes that keep it: [StandardMap], whatever order it is iterated
    in, and [LinkedListHashmap], whatever the hash function. *)
Corollary class_tests_pass (order : gmap bytes Z -> list (bytes * Z)) (hash_ : bytes -> Z) :
  (forall m, order m ≡ₚ map_to_list m) ->
  let passes M (ops : MapOps bytes Z M) :=
    Forall (fun '(l, fs) => let m := fold_left run_map_op l (EmptyMap : M) in
              Forall (found (LookUp m) (ForEach m)) fs) map_tests in
  passes _ (StandardMap.ops order) /\ passes _ (LinkedListHashmap.ops hash_ kDefaultLoadFactor).
Proof.
  intros Ho passes. split.
  - exact (@map_tests_pass _ _ (StandardMap.spec order Ho)).
  - exact (@map_tests_pass _ _ (LinkedListHashmap.spec hash_ kDefaultLoadFactor)).
Qed.

(** The probing table with the initial capacity 2 of the test and a hash that
    sends every key to the same bucket. *)
Definition probe_run (l : list (map_op bytes Z)) : res (LinearProbingHashmap.map bytes Z) :=
  fold_left (fun r op =>
    m ← r;
    match op with
    | OpInsert k v => LinearProbingHashmap.Insert (fun _ => 0) kDefaultLoadFactor 2 m k v
    | OpRemove k => LinearProbingHashmap.Remove (fun _ => 0) m k
    | OpAssign _ _ => Ok m
    end) l (Ok (LinearProbingHashmap.init 2)).

Definition probe_found (m : LinearProbingHashmap.map bytes Z) (f : finding) : bool :=
  match f with
  | Finds k v => match LinearProbingHashmap.LookUp (fun _ => 0) m k with
                 | Ok o => bool_decide (o = v) | _ => false end
  | Gathers l => bool_decide ((list_to_map (LinearProbingHashmap.ForEach m) : gmap bytes Z) = list_to_map l)
  end.

Example probe_tests_pass :
  forallb (fun '(l, fs) => match probe_run l with Ok m => forallb (probe_found m) fs | _ => false end) map_tests = true.
Proof. vm_compute. reflexivity. Qed.

(** ** End to end *)

(** What a script expects of the reply to one command: nothing, these bytes,
    or an integer at most [tolerance] below [expected]. *)
Inductive reply_expectation :=
| Ignored
| Replies (l : list string)
| Near (expected tolerance : Z).

Definition reply_meets (reply : RespValue) (e : reply_expectation) : bool :=
  match e with
  | Ignored => true
  | Replies l => bool_decide (RespValue.Serialize reply = wire l)
  | Near expected tolerance =>
      match reply with
      | RespInteger n => (n <=? expected) && (expected - tolerance <=? n)
      | _ => false
      end
  end.

Definition unrecognised : reply_expectation := Replies ["-Unknown subcommand or command"].

(** One script on a server of its own: commands, each with the time in
    milliseconds that passes before it ([send_command] takes a second). *)
Definition script := list (Z * list string * reply_expectation).

#[local] Abbreviation cmd l e := (1000, l, e).

Definition hello_reply : reply_expectation :=
  Replies ["*12"; "$6"; "server"; "$7"; "myredis"; "$7"; "version"; "$5"; "0.1.0"; "$5"; "proto"; ":2";
           "$4"; "mode"; "$10"; "standalone"; "$4"; "role"; "$6"; "master"; "$7"; "modules"; "*0"].

Definition e2e_tests : list script :=
  [ (* test_del.sh *)
    [cmd ["SET"; "foo"; "bar"] Ignored; cmd ["DEL"; "foo"] (Replies [":1"]);
     cmd ["GET"; "foo"] (Replies ["$-1"]); cmd ["DEL"; ""] unrecognised];
    (* test_echo.sh *)
    [cmd ["ECHO"; "hello world"] (Replies ["$11"; "hello world"]); cmd ["ECHO"; ""] (Replies ["$0"; ""]);
     cmd ["ECHO"] unrecognised; cmd ["ECHO"; "one"; "two"] unrecognised];
    (* test_get.sh *)
    [cmd ["GET"; "missing-key"] (Replies ["$-1"]); cmd ["SET"; "foo"; "bar"] Ignored;
     cmd ["GET"; "foo"] (Replies ["$3"; "bar"]); cmd ["GET"; ""] unrecognised];
    (* test_hello.sh *)
    [cmd ["HELLO"] hello_reply; cmd ["HELLO"; "2"] hello_reply;
     cmd ["HELLO"; "3"] (Replies ["-NOPROTO unsupported protocol version"])];
    (* test_ping.sh *)
    [cmd ["PING"] (Replies ["+PONG"]); cmd ["PING"; "hello world"] (Replies ["$11"; "hello world"]);
     cmd ["PING"; "one"; "two"] unrecognised];
    (* test_set.sh *)
    [cmd ["SET"; "foo"; "bar"] (Replies ["+OK"]); cmd ["SET"; "foo"; "baz"] (Replies ["+OK"]);
     cmd ["SET"; "foo"] unrecognised; cmd ["SET"; ""; "bar"] unrecognised];
    (* test_unknown.sh *)
    [cmd ["FROBNICATE"; "foo"] unrecognised; cmd ["get"; "foo"] unrecognised];
    (* test_expire.sh *)
    [cmd ["TTL"; "missing-key"] (Replies [":-2"]); cmd ["PTTL"; "missing-key"] (Replies [":-2"]);
     cmd ["SET"; "foo"; "bar"] Ignored; cmd ["TTL"; "foo"] (Replies [":-1"]); cmd ["PTTL"; "foo"] (Replies [":-1"]);
     cmd ["EXPIRE"; "missing-key"; "100"] (Replies [":0"]); cmd ["EXPIRE"; "foo"; "100"] (Replies [":1"]);
     cmd ["TTL"; "foo"] (Near 100 5); cmd ["PTTL"; "foo"] (Near 100000 5000);
     cmd ["GET"; "foo"] (Replies ["$3"; "bar"]);
     cmd ["PEXPIRE"; "missing-key"; "100000"] (Replies [":0"]); cmd ["PEXPIRE"; "foo"; "50000"] (Replies [":1"]);
     cmd ["TTL"; "foo"] (Near 50 5);
     cmd ["PERSIST"; "missing-key"] (Replies [":0"]); cmd ["PERSIST"; "foo"] (Replies [":1"]);
     cmd ["PERSIST"; "foo"] (Replies [":0"]); cmd ["TTL"; "foo"] (Replies [":-1"]);
     cmd ["EXPIREAT"; "missing-key"; "9999999999"] (Replies [":0"]);
     cmd ["EXPIREAT"; "foo"; "9999999999"] (Replies [":1"]); cmd ["EXPIREAT"; "foo"; "1"] (Replies [":1"]);
     cmd ["GET"; "foo"] (Replies ["$-1"]); cmd ["TTL"; "foo"] (Replies [":-2"]);
     cmd ["SET"; "baz"; "qux"] Ignored; cmd ["EXPIRE"; "baz"; "-1"] (Replies [":1"]);
     cmd ["GET"; "baz"] (Replies ["$-1"]);
     cmd ["SET"; "reset-me"; "val1"] Ignored; cmd ["EXPIRE"; "reset-me"; "100"] Ignored;
     cmd ["SET"; "reset-me"; "val2"] Ignored; cmd ["TTL"; "reset-me"] (Replies [":-1"]);
     cmd ["SET"; "soon-gone"; "val"] Ignored; cmd ["PEXPIRE"; "soon-gone"; "3000"] Ignored;
     cmd ["GET"; "soon-gone"] (Replies ["$3"; "val"]);
     (3000, ["GET"; "soon-gone"], Replies ["$-1"]); cmd ["TTL"; "soon-gone"] (Replies [":-2"]);
     cmd ["EXPIRE"; "foo"; "not-a-number"] unrecognised; cmd ["EXPIRE"; ""; "100"] unrecognised;
     cmd ["TTL"; ""] unrecognised] ].

(** The requests of a script with the times of their execution, the server
    being started at [now]. *)
Fixpoint timed_script (now : Z) (s : script) : list (Z * RespValue) :=
  match s with
  | [] => []
  | (pause, words_, _) :: s => (now + pause, words words_) :: timed_script (now + pause) s
  end.

Definition script_passes (replies : list RespValue) (s : script) : bool :=
  (length replies =? length s)%nat
  && forallb (fun '(r, (_, _, e)) => reply_meets r e) (zip replies s).

(** November 2023. *)
Definition test_time : Z := 1700000000000.

Lemma e2e_tests_specified :
  Forall (fun s => Forall request_safe (timed_script test_time s)
            /\ script_passes (snd (exec_all ∅ (timed_script test_time s))) s = true) e2e_tests.
Proof.
  repeat apply Forall_cons_2; try apply Forall_nil_2; (split; [|vm_compute; reflexivity]);
    repeat apply Forall_cons_2; try apply Forall_nil_2; (split; [vm_compute; split; [discriminate|reflexivity]|]);
    vm_compute; try exact I; repeat split; intros H; discriminate H.
Qed.

(** The scripts pass on a new server over every correct map. *)
Theorem e2e_tests_pass {M} {ops : MapOps bytes Entry M} {spec : MapSpec bytes Entry M} :
  Forall (fun s => exists d replies, serve (Store.init : M) (timed_script test_time s) = Ok (d, replies)
            /\ script_passes replies s = true) e2e_tests.
Proof.
  eapply Forall_impl; [exact e2e_tests_specified|]. intros s [Hs Hp]. cbv beta in Hs, Hp.
  destruct (serve_refines (M := M) _ Store.init ∅ represents_init empty_sane Hs) as (d & Hd & _).
  by exists d, (snd (exec_all ∅ (timed_script test_time s))).
Qed.
